(* ===== verification/_CoqProject ===== *)
-Q . S2P
Prelude.v
LinearProbe.v
HashTable.v
CodeCacheHash.v
IntervalMap.v
RegList.v
Plugin.v
LinkedList.v
AddressTable.v
Dbm.v
CcLinks.v
Deliver.v
ThreadList.v
Cachesim.v
VectorClock.v
Detectors.v
RaceInvariant.v
RaceSync.v
RaceLists.v
RaceEvents.v
RiscvImm.v
RiscvAsm.v
RiscvEmit.v
RiscvContext.v
RiscvProg.v
RiscvExec.v
RiscvLink.v
RiscvLinked.v
RiscvExit.v
RiscvBranch.v
RiscvLookup.v
RiscvLookupSpec.v
RiscvInst.v
Pie.v
RiscvScan.v
RiscvScanSpec.v
RiscvRun.v
RiscvTrace.v
LoadStoreRiscv.v
RiscvVector.v
LoadStoreA64.v
A64Inst.v
A64Asm.v
A64Code.v
A64Exit.v
A64Link.v
A64Branch.v
A64Stack.v
A64Lookup.v
A64LookupSpec.v
A64Scan.v
A64ScanSpec.v
A64Returns.v
LoadStoreArm.v
