(* ===== verification/Prelude.v ===== *)
(** * MAMBO: a verification library for the dynamic binary modification tool

    MAMBO runs a program from copies of its basic blocks. The application's code
    is scanned block by block into a per-thread code cache; exits of the copies
    enter a dispatcher, which looks the target up, has it scanned when needed
    and links the exit; plugins are called while blocks are scanned and add
    code. The sources are C, with PIE-generated encoders and field decoders;
    [src/] below is the repository. This library models the parts listed here as
    pure functions on explicit state and proves what they promise. All names of
    definitions are those of the source where Rocq allows it.

    ** Conventions

    A C function that can fail to return is an [outcome] (this file): [Ok] of
    its results or [Err] of a [fault] (a failed assert, an access outside an
    array, an endless loop, ...). Machine integers are [Z] with the wrap-around
    of their width written out ([u64], [s64], [u32], [s32]); arrays are lists
    read and written with [aget], [aset], [aupd], which fail out of bounds. A C
    loop with a counter is [c_for]; other loops are fixpoints with fuel, and
    each has a theorem that the stated fuel is enough (the length of the array
    for a probe, the length of the list for a list walk, 33 rounds for 32
    registers, four levels for a 64-bit constant, 8 hops for trampolines), or
    the fuel is the code's own bound. Code that PIE generates from src/pie is
    modelled from its generator (Pie); encoders appear as the constructors of
    an instruction type whose meaning is taken from the architecture manuals.

    ** Files and what they model

    - Prelude (this file): outcomes, machine integers, arrays, loops, bit
      fields, and the tactics and hints the files share.
    - LinearProbe: the argument behind the two hash tables, for any probe path.
    - HashTable ([MamboHt]): [mambo_ht_t] of src/api/hash_table.c. A well-formed
      table refines a finite map; [mambo_ht_get], [mambo_ht_add] with growth,
      the full table, initialisation.
    - CodeCacheHash: [hash_table] of src/common.c, without wrap-around; lookup
      and insertion refine a finite map, [hash_add] hangs exactly when the path
      of a key is full, [hash_init] clears one entry too few.
    - IntervalMap: [interval_map_*] of src/common.c over the set of open file
      descriptors; the map as a set of addresses, and two defects.
    - RegList: [count_bits], [get_lowest_n_regs], [get_highest_n_regs], [next_reg_in_list],
      [align_lower], [align_higher] and friends of src/common.c and common.h.
    - LinkedList: the pool allocator [ll] of src/common.c.
    - AddressTable: the class of tables from source to translated addresses;
      CodeCacheHash is its instance, Dbm and the RISC-V files its clients.
    - Dbm: the code cache manager of src/dbm.c (allocation with its reserve,
      flush, stubs, lookup-or-scan, fragments and link records). The scanners of
      the architectures are the record [scanners], a parameter with a contract.
      CcLinks: what recording a link leaves of the thread.
    - ThreadList: the list of threads of src/dbm.c.
    - Cachesim: src/plugins/cachesim/cachesim_model.c.
    - VectorClock, Detectors, RaceInvariant, RaceSync, RaceLists, RaceEvents:
      the race detectors of src/plugins/datarace (vector clocks, DJIT+ and
      FastTrack, object lists over the class [IndexMap], and the events of the
      plugin). FastTrack and DJIT+ agree up to the first race.
    - RiscvImm: immediates of scanner_riscv.c, scanner_public.h and the offset
      decoders of api/load_store.c.
    - RiscvAsm: the RV64 machine for emitted code. RiscvProg: code memory,
      writing and execution from the program counter.
    - RiscvEmit: pushes, pops, constants, branches and jumps of scanner_riscv.c;
      RiscvContext and RiscvExec say what they do when executed.
    - RiscvExit: [riscv_jump] and [riscv_cond_branch]. RiscvLink, RiscvLinked:
      dispatcher_riscv.c, which overwrites exits. RiscvBranch composes the two:
      an exit follows the application's branch before and after linking.
    - RiscvLookup, RiscvLookupSpec: the inline hash lookup that ends indirect
      jumps, and its equivalence with the table of CodeCacheHash.
    - Plugin: src/api/plugin_support.c and internal.c: the table of plugins, the
      delivery of callbacks in order, and the scratch registers they share.
      Deliver: how the scanners of A64 and RISC-V call the plugins for an event.
    - RiscvInst: the RV64GC instructions the scanner tells apart, as data.
    - RiscvScan: [scan_riscv] of scanner_riscv.c whole: the copying loop, the
      rewriting of instructions that read the program counter, the exits, the
      limits of a block, and the delivery to plugins. RiscvScanSpec: executed,
      a translated block does what the application's block does up to its exit.
    - RiscvRun: dispatcher.c and [scan] for RISC-V; scanner, code cache manager,
      exits and table put together over one state and followed while an
      application runs. The trampoline of the dispatcher, which is assembly, is
      the relation [returned].
    - RiscvTrace: src/arch/riscv/riscv_traces.c and traces_common.c: recording
      of a trace, its exits, its installation, and the prediction of indirect
      jumps.
    - A64Inst: the A64 instructions of src/pie/a64.txt, as data. A64Asm: the
      machine for emitted A64 code. A64Code: code in memory, constants, pushes
      and pops, and what they do.
    - A64Exit: the exits of blocks of scanner_a64.c. A64Link:
      dispatcher_aarch64.c, which overwrites them. A64Branch: a conditional exit
      follows the application before and after linking.
    - A64Stack: [emit_a64_push] and [emit_a64_pop] of api/helpers.c.
    - A64Lookup: [a64_inline_hash_lookup], which ends indirect branches.
    - A64Scan: [scan_a64] of scanner_a64.c whole. A64ScanSpec: a block it has
      written does what the application does. A64Returns: it returns.
    - Pie: field decoders (src/pie), and the context of a plugin callback.
    - LoadStoreRiscv, RiscvVector, LoadStoreA64, LoadStoreArm: api/load_store.c
      and api/helpers.c, the accessed address and size of loads and stores on
      the three architectures, with the instructions for which they are wrong.

    ** Groups of theorems

    - Refinement of the application: [translated_block_follows] for one block,
      and [application_followed] for a run over any number of blocks of copied
      instructions, AUIPCs and a final direct branch: through lookups, scanning,
      flushes and exits, the thread arrives at the dispatcher for the place that
      the application has reached, with its registers and memory.
      [a64_block_follows] says it for one block on A64, through overflow blocks,
      up to the entry of the dispatcher, and [conditional_exit_follows] for an
      exit that may be linked.
    - Termination: [scan_riscv_returns] says for which code, buffers and plugins
      the loop of the scanner ends, and [scan_a64_returns] that of A64, where
      the 60 bytes reserved between two instructions and the 88 of a lookup are
      enough for every exit; every other loop has its bound (above). The
      hypothesis [read + 4 * fuel < 2^64] of the first A64 theorem keeps the
      scanned code from wrapping around the address space.
    - Refinement of finite maps: HashTable, CodeCacheHash, RaceLists, and, at
      the level of emitted machine code, [inline_lookup_refines].
    - Well-formedness invariants that every operation keeps: [wf] of the tables,
      [shape] and [links] of Dbm, [sysinv] of the race detectors, [slots_wf].
    - Liveness: [riscv_link_to_arrives] and [linked_branch_follows] say that
      every execution that arrives at an exit reaches the right block.
    - Round trips: immediates, register saves (RISC-V and A64), constants.
    - Exact failure conditions: full tables, exhausted reserves and pools,
      assertion failures, endless loops, out-of-range reads.
    - Defects: theorems named [*_wrong], [*_loses_*], [*_not_counted] and the
      exceptions in the statements of the others show what the code does where
      it differs from what it means to do.

    ** Not modelled

    - The instruction scanners of AArch32 (src/arch/aarch32/scanner_*.c), its
      dispatcher, and the traces of AArch32 and A64 (src/traces.c): long case
      analyses over PIE's decoders, built like those of the other two
      architectures, which are modelled.
    - A64 is followed for one block and not, as RISC-V, in a run over many. In
      [a64_block_follows] there are no plugins and no counters of traces, SVC
      (whose wrapper is assembly) is not covered, and neither is B.AL, for which
      the code of the exit is wrong.
    - In [application_followed] linking is off ([DBM_LINK_UNCOND_IMM] and its
      siblings are build options), and blocks that end in an indirect jump or
      hold another rewritten instruction are not covered; that linked exits and
      the inline lookup reach the same blocks is [linked_branch_follows] and
      [inline_lookup_refines], per exit. Conditional branches to the head of a
      trace ([patch_links]) are modelled as definitions, the theorem on
      installation covers the unconditional ones.
    - Signals, system calls, the ELF loader and the assembly dispatchers
      (src/signals.c, src/syscalls.c, src/elf, *.S): they are about the kernel's
      interface and the C runtime, which are not part of the sources.
    - Plugins other than the cache simulator and the race detector: they print
      or count, and their state is that of the hash table.
    - Concurrency: operations run under the locks the code takes; the model is
      sequential, and what a lock protects is one operation here. Cache
      maintenance ([__clear_cache]) has no effect on the code memory. *)
From stdpp Require Export base tactics option list gmap sets.
From Stdlib Require Export ZArith Lia.

#[global] Set Default Goal Selector "!".
Open Scope Z_scope.

(** ** Outcomes of C code *)

(** How a C function can fail to return normally. [AssertFail] is a failed
    [assert]; [Hang] an intended or unintended infinite loop ([while(1);], a
    mutex locked twice by its owner); [OutOfBounds] an access outside an array;
    [UndefinedShift] a shift by at least the width of the operand;
    [DivisionByZero] an integer division by zero; [UseAfterFree] an access to an
    object that was freed; [Uninitialised] a read of an uninitialised variable;
    [SignedOverflow] an overflow of signed arithmetic; [Exit] a call
    of [exit]; [OutOfFuel] an exhausted fuel argument of the model. *)
Inductive fault :=
  | AssertFail
  | Hang
  | OutOfBounds
  | NullPointer
  | UndefinedShift
  | DivisionByZero
  | UseAfterFree
  | Uninitialised
  | SignedOverflow
  | Exit
  | OutOfFuel.

#[global] Instance fault_eq_dec : EqDecision fault.
Proof. solve_decision. Defined.

Inductive outcome (A : Type) :=
  | Ok (a : A)
  | Err (f : fault).
Arguments Ok {A} a.
Arguments Err {A} f.

#[global] Instance outcome_ret : MRet outcome := @Ok.
#[global] Instance outcome_bind : MBind outcome := λ A B f m,
  match m with Ok a => f a | Err e => Err e end.
#[global] Instance outcome_fmap : FMap outcome := λ A B f m,
  match m with Ok a => Ok (f a) | Err e => Err e end.

(** [assert(b)]. *)
Definition c_assert (b : bool) : outcome unit :=
  if b then Ok () else Err AssertFail.

(** Some [Ok] value. *)
Definition returns {A} (m : outcome A) : Prop := ∃ a, m = Ok a.

Lemma bind_ok_inv {A B} (m : outcome A) (f : A → outcome B) (b : B) :
  m ≫= f = Ok b → ∃ a, m = Ok a ∧ f a = Ok b.
Proof. destruct m as [a|e]; [by exists a | done]. Qed.

Lemma bind_ok {A B} (m : outcome A) (f : A → outcome B) (a : A) :
  m = Ok a → m ≫= f = f a.
Proof. by intros ->. Qed.

Lemma c_assert_ok (b : bool) (u : unit) : c_assert b = Ok u ↔ b = true.
Proof. destruct b, u; by split. Qed.

(** Splits every [m ≫= f = Ok b] of the context. *)
Ltac inv_ok :=
  repeat match goal with
  | H : Ok _ = Ok _ |- _ => injection H as H; subst
  | H : Err _ = Ok _ |- _ => discriminate H
  | H : mret _ = Ok _ |- _ => injection H as H; subst
  | H : _ ≫= _ = Ok _ |- _ =>
      let x := fresh "x" in let Hx := fresh "Hx" in
      apply bind_ok_inv in H as (x & Hx & H)
  | H : c_assert _ = Ok _ |- _ => apply c_assert_ok in H
  end.

(** ** Machine integers *)

Definition u8 (x : Z) : Z := x mod 2 ^ 8.
Definition u16 (x : Z) : Z := x mod 2 ^ 16.
Definition u32 (x : Z) : Z := x mod 2 ^ 32.
Definition u64 (x : Z) : Z := x mod 2 ^ 64.
(** Two's complement reading of the low [w] bits of [x]. *)
Definition signed (w x : Z) : Z :=
  let r := x mod 2 ^ w in if r <? 2 ^ (w - 1) then r else r - 2 ^ w.
Definition s32 (x : Z) : Z := signed 32 x.
Definition s64 (x : Z) : Z := signed 64 x.

Definition INT_MAX : Z := 2147483647.
Definition UINT_MAX : Z := 4294967295.
Definition SIZE_MAX : Z := 18446744073709551615.

Lemma u64_small x : 0 ≤ x < 2 ^ 64 → u64 x = x.
Proof. intros. by apply Z.mod_small. Qed.
Lemma u32_small x : 0 ≤ x < 2 ^ 32 → u32 x = x.
Proof. intros. by apply Z.mod_small. Qed.
Lemma u64_range x : 0 ≤ u64 x < 2 ^ 64.
Proof. by apply Z.mod_pos_bound. Qed.
Lemma u32_range x : 0 ≤ u32 x < 2 ^ 32.
Proof. by apply Z.mod_pos_bound. Qed.

Lemma signed_small w x : 0 < w → - 2 ^ (w - 1) ≤ x < 2 ^ (w - 1) → signed w x = x.
Proof.
  intros Hw Hx. unfold signed.
  assert (2 ^ w = 2 * 2 ^ (w - 1)) as Hp
    by (rewrite <- Z.pow_succ_r by lia; f_equal; lia).
  destruct (decide (0 ≤ x)).
  - rewrite Z.mod_small by lia. destruct (Z.ltb_spec x (2 ^ (w - 1))); lia.
  - replace (x mod 2 ^ w) with (x + 2 ^ w).
    + destruct (Z.ltb_spec (x + 2 ^ w) (2 ^ (w - 1))); lia.
    + rewrite <- (Z.mod_add x 1) by lia. rewrite Z.mul_1_l, Z.mod_small; lia.
Qed.

Lemma s32_small x : - 2 ^ 31 ≤ x < 2 ^ 31 → s32 x = x.
Proof. intros. by apply signed_small. Qed.
Lemma s64_small x : - 2 ^ 63 ≤ x < 2 ^ 63 → s64 x = x.
Proof. intros. by apply signed_small. Qed.

Lemma signed_range w x : 0 < w → - 2 ^ (w - 1) ≤ signed w x < 2 ^ (w - 1).
Proof.
  intros Hw. unfold signed.
  assert (2 ^ w = 2 * 2 ^ (w - 1)) as Hp
    by (rewrite <- Z.pow_succ_r by lia; f_equal; lia).
  pose proof (Z.mod_pos_bound x (2 ^ w)).
  destruct (Z.ltb_spec (x mod 2 ^ w) (2 ^ (w - 1))); lia.
Qed.

(** Masking with a power of two minus one is a remainder. *)
Lemma land_pow2_mask x n : 0 ≤ n → Z.land x (2 ^ n - 1) = x mod 2 ^ n.
Proof.
  intros. rewrite <- Z.land_ones by done. by rewrite Z.ones_equiv, <- Z.sub_1_r.
Qed.

Lemma land_1 x : Z.land x 1 = x mod 2.
Proof. change 1 with (2 ^ 1 - 1). by rewrite land_pow2_mask. Qed.

(** ** Arrays *)

(** [a[i]] and [a[i] = x] with the bounds the object has. *)
Definition aget {A} (l : list A) (i : Z) : outcome A :=
  if i <? 0 then Err OutOfBounds
  else match l !! Z.to_nat i with Some x => Ok x | None => Err OutOfBounds end.
Definition aset {A} (l : list A) (i : Z) (x : A) : outcome (list A) :=
  if (i <? 0) || (Z.of_nat (length l) <=? i) then Err OutOfBounds
  else Ok (<[Z.to_nat i := x]> l).

Lemma aget_nat {A} (l : list A) (n : nat) x : l !! n = Some x → aget l (Z.of_nat n) = Ok x.
Proof.
  intros Hl. unfold aget. destruct (Z.ltb_spec (Z.of_nat n) 0); [lia|].
  by rewrite Nat2Z.id, Hl.
Qed.

Lemma aget_ok {A} (l : list A) i x : aget l i = Ok x ↔ 0 ≤ i ∧ l !! Z.to_nat i = Some x.
Proof.
  unfold aget. destruct (Z.ltb_spec i 0) as [|Hi].
  - split; [done | lia].
  - destruct (l !! Z.to_nat i); split; try naive_solver.
Qed.

Lemma aget_lookup {A} (l : list A) i x :
  0 ≤ i → l !! Z.to_nat i = Some x → aget l i = Ok x.
Proof. intros. by apply aget_ok. Qed.

Lemma aget_in_bounds {A} (l : list A) i :
  0 ≤ i < Z.of_nat (length l) → returns (aget l i).
Proof.
  intros Hi. destruct (lookup_lt_is_Some_2 l (Z.to_nat i)) as [x Hx]; [lia|].
  exists x. apply aget_ok. split; [lia | done].
Qed.

Lemma aset_nat {A} (l : list A) (n : nat) x :
  (n < length l)%nat → aset l (Z.of_nat n) x = Ok (<[n := x]> l).
Proof.
  intros Hn. unfold aset. rewrite Nat2Z.id.
  destruct (Z.ltb_spec (Z.of_nat n) 0); [lia|].
  by destruct (Z.leb_spec (Z.of_nat (length l)) (Z.of_nat n)); [lia|].
Qed.

Lemma aset_ok {A} (l l' : list A) i x :
  aset l i x = Ok l' ↔ 0 ≤ i < Z.of_nat (length l) ∧ l' = <[Z.to_nat i := x]> l.
Proof.
  unfold aset. destruct (Z.ltb_spec i 0); simpl; [split; [done | lia]|].
  destruct (Z.leb_spec (Z.of_nat (length l)) i); split; try naive_solver lia.
Qed.

(** [a[i] = f(a[i])]. *)
Definition aupd {A} (l : list A) (i : Z) (f : A → A) : outcome (list A) :=
  x ← aget l i; aset l i (f x).

Lemma aupd_lookup {A} (l : list A) i f x :
  0 ≤ i → l !! Z.to_nat i = Some x → aupd l i f = Ok (<[Z.to_nat i := f x]> l).
Proof.
  intros Hi Hx. unfold aupd. rewrite (proj2 (aget_ok l i x)) by done. cbn [mbind outcome_bind].
  apply aset_ok. split; [|done]. apply lookup_lt_Some in Hx. lia.
Qed.

Lemma aupd_ok {A} (l l' : list A) i f :
  aupd l i f = Ok l' ↔ ∃ x, 0 ≤ i ∧ l !! Z.to_nat i = Some x ∧ l' = <[Z.to_nat i := f x]> l.
Proof.
  unfold aupd. split.
  - intros H. apply bind_ok_inv in H as (x & Hx & H). apply aget_ok in Hx as [? ?].
    apply aset_ok in H as [_ ->]. by exists x.
  - intros (x & Hi & Hx & ->). by apply aupd_lookup.
Qed.

(** [n] iterations of [for (; ; i++) body], on the state [s]. *)
Fixpoint c_for {A} (n : nat) (i : Z) (body : Z → A → outcome A) (s : A) : outcome A :=
  match n with
  | O => Ok s
  | S n => s ← body i s; c_for n (i + 1) body s
  end.

Lemma c_for_inv {A} (I : Z → A → Prop) n i body s :
  I i s →
  (∀ j s, i ≤ j < i + Z.of_nat n → I j s → ∃ s', body j s = Ok s' ∧ I (j + 1) s') →
  ∃ s', c_for n i body s = Ok s' ∧ I (i + Z.of_nat n) s'.
Proof.
  revert i s. induction n as [|n IH]; intros i s Hi Hb.
  - exists s. split; [done|]. by rewrite Z.add_0_r.
  - destruct (Hb i s) as (s' & Hs & Hi'); [lia | done|].
    simpl. rewrite Hs. cbn [mbind outcome_bind].
    replace (i + Z.of_nat (S n)) with (i + 1 + Z.of_nat n) by lia.
    apply IH; [done|]. intros j s1 Hj. apply Hb. lia.
Qed.

Lemma c_for_ok_inv {A} (I : Z → A → Prop) n i body s s' :
  I i s →
  (∀ j s s', i ≤ j < i + Z.of_nat n → I j s → body j s = Ok s' → I (j + 1) s') →
  c_for n i body s = Ok s' → I (i + Z.of_nat n) s'.
Proof.
  revert i s. induction n as [|n IH]; intros i s Hi Hb H; simpl in H.
  - injection H as ->. by rewrite Z.add_0_r.
  - apply bind_ok_inv in H as (s1 & Hs & H).
    replace (i + Z.of_nat (S n)) with (i + 1 + Z.of_nat n) by lia.
    eapply IH; [|..|done]; [eapply Hb; [|done..]; lia|]. intros j s2 s3 Hj. apply Hb. lia.
Qed.

(** A loop that updates one element per iteration maps over the array. *)
Lemma c_for_aupd {A} (f : A → A) n (l : list A) :
  (n ≤ length l)%nat →
  c_for n 0 (λ i l, aupd l i f) l = Ok ((f <$> take n l) ++ drop n l).
Proof.
  intros Hn.
  destruct (c_for_inv (λ j l', l' = (f <$> take (Z.to_nat j) l) ++ drop (Z.to_nat j) l)
              n 0 (λ i l, aupd l i f) l) as (l' & -> & ->).
  - done.
  - intros j l' Hj ->. destruct (lookup_lt_is_Some_2 l (Z.to_nat j)) as [x Hx]; [lia|].
    assert (length (f <$> take (Z.to_nat j) l) = Z.to_nat j) as Hlen
      by (rewrite length_fmap, length_take; lia).
    eexists. split.
    + apply aupd_lookup; [lia|]. rewrite lookup_app_r by lia.
      rewrite Hlen, Nat.sub_diag, lookup_drop, Nat.add_0_r. exact Hx.
    + rewrite insert_app_r_alt, Hlen, Nat.sub_diag by lia.
      replace (Z.to_nat (j + 1)) with (S (Z.to_nat j)) by lia.
      rewrite (take_S_r _ _ x) by done. rewrite fmap_app, <- app_assoc. f_equal.
      by rewrite (drop_S _ x).
  - by replace (Z.to_nat (0 + Z.of_nat n)) with n by lia.
Qed.

(** ** Lists *)

Lemma lookup_total_lookup_lt {A} `{Inhabited A} (l : list A) i :
  (i < length l)%nat → l !! i = Some (l !!! i).
Proof.
  intros Hi. destruct (lookup_lt_is_Some_2 l i Hi) as [x Hx].
  by rewrite (list_lookup_total_correct _ _ _ Hx).
Qed.

(** The number of elements that satisfy [P]. *)
Definition count {A} (P : A → Prop) `{∀ x, Decision (P x)} (l : list A) : nat :=
  length (filter P l).

Section count.
Context {A : Type} (P : A → Prop) `{∀ x, Decision (P x)}.

Lemma count_nil : count P [] = 0%nat.
Proof. done. Qed.

Lemma count_cons x l : count P (x :: l) = ((if decide (P x) then 1 else 0) + count P l)%nat.
Proof. unfold count. rewrite filter_cons. by case_decide. Qed.

Lemma count_app l1 l2 : count P (l1 ++ l2) = (count P l1 + count P l2)%nat.
Proof. unfold count. by rewrite filter_app, length_app. Qed.

Lemma count_le_length l : (count P l ≤ length l)%nat.
Proof. apply length_filter. Qed.

Lemma count_replicate_false n x : ¬ P x → count P (replicate n x) = 0%nat.
Proof.
  intros Hx. induction n; simpl; [done|]. rewrite count_cons. by rewrite decide_False.
Qed.

Lemma count_all_or_hole l : count P l = length l ∨ ∃ i x, l !! i = Some x ∧ ¬ P x.
Proof.
  induction l as [|y l IH]; [by left|]. rewrite count_cons.
  destruct (decide (P y)) as [Hy|Hy].
  - destruct IH as [->|(i & x & Hi & Hx)]; [by left|]. right. by exists (S i), x.
  - right. by exists 0%nat, y.
Qed.

Lemma count_perm l1 l2 : l1 ≡ₚ l2 → count P l1 = count P l2.
Proof. intros Hp. unfold count. by rewrite Hp. Qed.

Lemma count_none l : Forall (λ x, ¬ P x) l → count P l = 0%nat.
Proof.
  induction 1 as [|x l Hx Hl IH]; [done|]. rewrite count_cons. by rewrite decide_False.
Qed.

Lemma count_zero l : count P l = 0%nat → Forall (λ x, ¬ P x) l.
Proof.
  induction l as [|x l IH]; [by constructor|]. rewrite count_cons. case_decide; [done|].
  intros. constructor; [done | by apply IH].
Qed.

Lemma count_one l :
  count P l = 1%nat →
  ∃ l1 x l2, l = l1 ++ x :: l2 ∧ P x ∧ Forall (λ x, ¬ P x) l1 ∧ Forall (λ x, ¬ P x) l2.
Proof.
  induction l as [|x l IH]; [done|]. rewrite count_cons. case_decide as Hx; intros Hc.
  - exists [], x, l. split_and!; [done | done | by constructor | apply count_zero; lia].
  - destruct IH as (l1 & y & l2 & -> & ? & ? & ?); [done|].
    exists (x :: l1), y, l2. split_and!; try done. by constructor.
Qed.

Lemma count_insert l i x y :
  l !! i = Some y →
  (count P (<[i := x]> l) + (if decide (P y) then 1 else 0)
   = count P l + (if decide (P x) then 1 else 0))%nat.
Proof.
  revert i. induction l as [|z l IH]; intros [|i] Hi; simpl in *; simplify_eq.
  - rewrite !count_cons. lia.
  - rewrite !count_cons. specialize (IH i Hi). lia.
Qed.
End count.

(** ** Automation *)

Create HintDb mambo.
Create Rewrite HintDb mambo_rw.
#[export] Hint Rewrite @length_insert @length_replicate @Nat2Z.id : mambo_rw.
#[export] Hint Resolve u64_range u32_range : mambo.

(** Splits a conjunction and closes the easy parts. *)
Ltac splits := split_and!; try done; simpl in *; try lia; try done.

(** Replaces boolean tests by the values arithmetic gives them. *)
Ltac tests l :=
  lazymatch l with
  | [] => rewrite ?andb_false_r, ?andb_true_r, ?orb_false_r, ?orb_true_r; cbn [andb orb negb app]
  | (?b, ?v) :: ?l => replace b with v by lia; tests l
  end.

(** Case analysis on the boolean comparisons of the goal. *)
Ltac case_bool_Z :=
  repeat match goal with
  | |- context [Z.ltb ?a ?b] => destruct (Z.ltb_spec a b); try lia
  | |- context [Z.leb ?a ?b] => destruct (Z.leb_spec a b); try lia
  | |- context [Z.eqb ?a ?b] => destruct (Z.eqb_spec a b); try lia
  end.
