(* ===== verification/LinearProbe.v ===== *)
(** * Linear probing

    The argument the two hash tables of the program share
    (api/hash_table.c, which wraps around, and the code cache table of
    common.c, which does not): an array of entries whose key 0 means "free",
    and for every key a finite probe path, [slot k 0], [slot k 1], ...,
    [slot k (reach k - 1)]. The section proves that an array on which every
    occupied slot is reachable from the home slot of its key behaves as a
    finite map under "stop at the first slot that is free or holds the key". *)
From S2P Require Import Prelude.

(** [hash_entry] of common.h and [mambo_ht_entry_t] of api/hash_table.h. *)
Record hash_entry := HashEntry { key : Z; value : Z }.

#[global] Instance hash_entry_eq_dec : EqDecision hash_entry.
Proof. solve_decision. Defined.
#[global] Instance hash_entry_inhabited : Inhabited hash_entry := populate (HashEntry 0 0).

Definition key_at (es : list hash_entry) (i : nat) : Z := key (es !!! i).
Definition value_at (es : list hash_entry) (i : nat) : Z := value (es !!! i).

(** A slot at which a search for [k] stops. *)
Definition stop_slot (es : list hash_entry) (k : Z) (i : nat) : Prop :=
  key_at es i = 0 ∨ key_at es i = k.

#[global] Instance stop_slot_dec es k i : Decision (stop_slot es k i).
Proof. unfold stop_slot. apply _. Defined.

(** Occupied slots. *)
Definition occupied (e : hash_entry) : Prop := key e ≠ 0.
#[global] Instance occupied_dec e : Decision (occupied e).
Proof. unfold occupied. apply _. Defined.

Lemma count_occupied_cons e es :
  count occupied (e :: es) = ((if (key e =? 0)%Z then 0 else 1) + count occupied es)%nat.
Proof.
  rewrite count_cons. unfold occupied at 1. case_decide; destruct (Z.eqb_spec (key e) 0); tauto || lia.
Qed.

(** The finite map an array represents. *)
Definition represents (es : list hash_entry) (m : gmap Z Z) : Prop :=
  ∀ k v, m !! k = Some v ↔ k ≠ 0 ∧ ∃ i, es !! i = Some (HashEntry k v).

Lemma key_at_lookup es i e : es !! i = Some e → key_at es i = key e.
Proof. intros Hi. unfold key_at. by rewrite (list_lookup_total_correct _ _ _ Hi). Qed.

Lemma value_at_lookup es i e : es !! i = Some e → value_at es i = value e.
Proof. intros Hi. unfold value_at. by rewrite (list_lookup_total_correct _ _ _ Hi). Qed.

Lemma key_at_insert_eq es i e : (i < length es)%nat → key_at (<[i := e]> es) i = key e.
Proof. intros. apply key_at_lookup. by apply list_lookup_insert_eq. Qed.

Lemma key_at_insert_ne es i j e : i ≠ j → key_at (<[i := e]> es) j = key_at es j.
Proof. intros. unfold key_at. by rewrite list_lookup_total_insert_ne. Qed.

Lemma represents_replicate n v : represents (replicate n (HashEntry 0 v)) ∅.
Proof.
  intros k w. rewrite lookup_empty. split; [done|].
  intros (Hk & i & Hi). apply lookup_replicate in Hi as [? ?]. by simplify_eq.
Qed.

(** The first index at which a decidable predicate holds. *)
Lemma first_such (P : nat → Prop) `{∀ n, Decision (P n)} (d : nat) :
  P d → ∃ d0, (d0 ≤ d)%nat ∧ P d0 ∧ ∀ d', (d' < d0)%nat → ¬ P d'.
Proof.
  induction d as [d IH] using lt_wf_ind. intros Hd.
  destruct (decide (Exists P (seq 0 d))) as [He|He].
  - apply Exists_exists in He as (j & Hj%elem_of_seq & HPj).
    destruct (IH j) as (d0 & ? & ? & ?); [lia | done |].
    exists d0. split_and!; [lia | done | done].
  - exists d. split_and!; [done | done |]. intros d' Hlt HP. apply He.
    apply Exists_exists. exists d'. split; [apply elem_of_seq; lia | done].
Qed.

Section probing.
(** The [d]-th slot of the probe path of a key, and the length of the path. *)
Context (slot : Z → nat → nat) (reach : Z → nat).
Context (slot_inj : ∀ k d1 d2, (d1 < reach k)%nat → (d2 < reach k)%nat →
                               slot k d1 = slot k d2 → d1 = d2).

(** Every occupied slot is on the probe path of its key, behind slots that
    hold other keys. *)
Definition probe_inv (es : list hash_entry) : Prop :=
  ∀ i e, es !! i = Some e → key e ≠ 0 →
    ∃ d, (d < reach (key e))%nat ∧ slot (key e) d = i ∧
         ∀ d', (d' < d)%nat → ¬ stop_slot es (key e) (slot (key e) d').

(** A search for [k] stops after [d] steps. *)
Definition stops_at (es : list hash_entry) (k : Z) (d : nat) : Prop :=
  (d < reach k)%nat ∧ (slot k d < length es)%nat ∧ stop_slot es k (slot k d) ∧
  ∀ d', (d' < d)%nat → ¬ stop_slot es k (slot k d').

Lemma stops_at_unique es k d1 d2 : stops_at es k d1 → stops_at es k d2 → d1 = d2.
Proof.
  intros (_ & _ & Hs1 & H1) (_ & _ & Hs2 & H2).
  destruct (Nat.lt_trichotomy d1 d2) as [?|[?|?]]; [|done|]; exfalso.
  - by eapply H2.
  - by eapply H1.
Qed.

Lemma stops_at_exists es k d :
  (d < reach k)%nat → (∀ d', (d' ≤ d)%nat → (slot k d' < length es)%nat) →
  stop_slot es k (slot k d) → ∃ d0, (d0 ≤ d)%nat ∧ stops_at es k d0.
Proof.
  intros Hd Hlen Hs.
  destruct (first_such (λ d, stop_slot es k (slot k d)) d Hs) as (d0 & ? & ? & ?).
  exists d0. split; [done|]. split_and!; [lia | by apply Hlen | done | done].
Qed.

(** Two slots cannot hold the same key. *)
Lemma probe_inv_unique es i j e e' :
  probe_inv es → es !! i = Some e → es !! j = Some e' →
  key e ≠ 0 → key e = key e' → i = j.
Proof.
  intros Hinv Hi Hj Hk Heq.
  destruct (Hinv i e Hi Hk) as (d1 & Hd1 & Hs1 & Hf1).
  destruct (Hinv j e' Hj) as (d2 & Hd2 & Hs2 & Hf2); [congruence|].
  rewrite <- Heq in *.
  destruct (Nat.lt_trichotomy d1 d2) as [Hlt|[->|Hlt]]; [| congruence |]; exfalso.
  - apply (Hf2 d1 Hlt). rewrite Hs1. right. by apply key_at_lookup.
  - apply (Hf1 d2 Hlt). rewrite Hs2. right. by rewrite (key_at_lookup _ _ _ Hj).
Qed.

(** The slot a search stops at decides the lookup in the represented map. *)
Lemma stop_lookup es m k d :
  probe_inv es → represents es m → k ≠ 0 → stops_at es k d →
  m !! k = if decide (key_at es (slot k d) = k)
           then Some (value_at es (slot k d)) else None.
Proof.
  intros Hinv Hm Hk (Hd & Hlen & Hstop & Hfirst).
  pose proof (lookup_total_lookup_lt es (slot k d) Hlen) as Hl.
  case_decide as Hkey.
  - apply Hm. split; [done|]. exists (slot k d). rewrite Hl. f_equal.
    unfold key_at, value_at in *. destruct (es !!! slot k d); simpl in *; congruence.
  - apply eq_None_not_Some. intros [v Hv]. apply Hm in Hv as (_ & i & Hi).
    destruct (Hinv i _ Hi Hk) as (d1 & Hd1 & Hs1 & Hf1). simpl in *.
    assert (stop_slot es k (slot k d1)) as Hsd1.
    { right. rewrite Hs1. by rewrite (key_at_lookup _ _ _ Hi). }
    destruct (Nat.lt_trichotomy d d1) as [Hlt|[->|Hlt]].
    + by apply (Hf1 d Hlt).
    + rewrite Hs1, (key_at_lookup _ _ _ Hi) in Hkey. by simpl in Hkey.
    + by apply (Hfirst d1 Hlt).
Qed.

(** A search that never stops on its path misses. *)
Lemma no_stop_lookup es m k :
  probe_inv es → represents es m → k ≠ 0 →
  (∀ d, (d < reach k)%nat → ¬ stop_slot es k (slot k d)) → m !! k = None.
Proof.
  intros Hinv Hm Hk Hno. apply eq_None_not_Some. intros [v Hv].
  apply Hm in Hv as (_ & i & Hi).
  destruct (Hinv i _ Hi Hk) as (d & Hd & Hs & _). simpl in *.
  apply (Hno d Hd). right. by rewrite Hs, (key_at_lookup _ _ _ Hi).
Qed.

(** Writing the entry of a key where its search stops keeps the invariant. *)
Lemma probe_inv_insert es k v d :
  probe_inv es → k ≠ 0 → stops_at es k d →
  probe_inv (<[slot k d := HashEntry k v]> es).
Proof.
  intros Hinv Hk (Hd & Hlen & Hstop & Hfirst) i e Hi He.
  destruct (decide (slot k d = i)) as [<-|Hne].
  - rewrite list_lookup_insert_eq in Hi by done. simplify_eq. simpl in *.
    exists d. split_and!; [done | done |]. intros d' Hd'. unfold stop_slot.
    rewrite key_at_insert_ne by (intros ->%slot_inj; lia). by apply Hfirst.
  - rewrite list_lookup_insert_ne in Hi by done.
    destruct (Hinv i e Hi He) as (d1 & Hd1 & Hs1 & Hf1).
    exists d1. split_and!; [done | done |]. intros d' Hd'.
    unfold stop_slot. destruct (decide (slot k d = slot (key e) d')) as [Heq|Hneq].
    + rewrite <- Heq, key_at_insert_eq by done. simpl.
      intros [?|Hke]; [done|]. subst k. apply (Hf1 d' Hd').
      rewrite <- Heq. exact Hstop.
    + rewrite key_at_insert_ne by done. by apply Hf1.
Qed.

Lemma represents_insert es m k v d :
  probe_inv es → represents es m → k ≠ 0 → stops_at es k d →
  represents (<[slot k d := HashEntry k v]> es) (<[k := v]> m).
Proof.
  intros Hinv Hm Hk Hst k' v'.
  pose proof Hst as (Hd & Hlen & Hstop & Hfirst).
  destruct (decide (k = k')) as [<-|Hne].
  - rewrite lookup_insert_eq. split.
    + intros [= ->]. split; [done|]. exists (slot k d). by apply list_lookup_insert_eq.
    + intros (_ & i & Hi). f_equal.
      assert (i = slot k d) as ->.
      { eapply (probe_inv_unique (<[slot k d := HashEntry k v]> es)).
        - by apply probe_inv_insert.
        - exact Hi.
        - by apply list_lookup_insert_eq.
        - done.
        - done. }
      rewrite list_lookup_insert_eq in Hi by done. congruence.
  - rewrite lookup_insert_ne by done. rewrite (Hm k' v'). split.
    + intros (Hk' & i & Hi). split; [done|]. exists i.
      rewrite list_lookup_insert_ne; [done|]. intros <-.
      destruct Hstop as [H0|H0]; rewrite (key_at_lookup _ _ _ Hi) in H0; simpl in H0; congruence.
    + intros (Hk' & i & Hi). split; [done|]. exists i.
      apply list_lookup_insert_Some in Hi as [(_ & Heq & _)|(_ & Hi)]; [congruence | done].
Qed.

(** The number of occupied slots grows exactly when the key is new. *)
Lemma occupied_insert es k v d :
  k ≠ 0 → stops_at es k d →
  count occupied (<[slot k d := HashEntry k v]> es)
  = (count occupied es + (if decide (key_at es (slot k d) = 0%Z) then 1 else 0))%nat.
Proof.
  intros Hk (_ & Hlen & _ & _).
  pose proof (lookup_total_lookup_lt es (slot k d) Hlen) as Hl.
  pose proof (count_insert occupied es _ (HashEntry k v) _ Hl) as Hc.
  unfold key_at in *. unfold occupied in Hc at 2 4. simpl in Hc.
  rewrite (decide_True (P := k ≠ 0)) in Hc by done.
  repeat case_decide; try tauto; lia.
Qed.
End probing.
