(* ===== verification/HashTable.v ===== *)
(** * The plugin hash table (api/hash_table.c)

    [mambo_ht_t] is the open addressing table offered to plugins: linear
    probing with wrap-around over a power-of-two array, a fill factor, and
    automatic doubling. The operations are translated in Module [MamboHt]; the
    theorems show that a well-formed table refines a finite map from non-zero
    keys to values, that every probe loop ends, and what each error path does. *)
From S2P Require Import Prelude LinearProbe.

Module MamboHt.

(** [mambo_ht_t]. [lock] says whether the mutex is held; the array
    [entries] carries its allocated length. *)
Record mambo_ht := MkHt {
  size : Z;
  entry_count : Z;
  index_shift : Z;
  allow_resize : bool;
  fill_factor : Z;
  resize_threshold : Z;
  lock : bool;
  entries : list hash_entry
}.

Definition set_lock (b : bool) (ht : mambo_ht) : mambo_ht :=
  MkHt (size ht) (entry_count ht) (index_shift ht) (allow_resize ht)
       (fill_factor ht) (resize_threshold ht) b (entries ht).
Definition set_entries (c : Z) (es : list hash_entry) (ht : mambo_ht) : mambo_ht :=
  MkHt (size ht) c (index_shift ht) (allow_resize ht)
       (fill_factor ht) (resize_threshold ht) (lock ht) es.

Definition __mambo_ht_lock (ht : mambo_ht) : outcome mambo_ht :=
  if lock ht then Err Hang else Ok (set_lock true ht).
Definition __mambo_ht_unlock (ht : mambo_ht) : outcome mambo_ht :=
  _ ← c_assert (lock ht); Ok (set_lock false ht).

(** [while (size < initial_size) size <<= 1;] *)
Fixpoint round_up_pow2 (fuel : nat) (size initial_size : Z) : outcome Z :=
  match fuel with
  | O => Err OutOfFuel
  | S fuel =>
      if size <? initial_size
      then round_up_pow2 fuel (u64 (Z.shiftl size 1)) initial_size
      else Ok size
  end.

(** [while (entries[index].key != 0 && entries[index].key != key)
      index = (index + 1) & index_max;] *)
Fixpoint probe_loop (fuel : nat) (es : list hash_entry) (index_max index k : Z) : outcome Z :=
  match fuel with
  | O => Err OutOfFuel
  | S fuel =>
      e ← aget es index;
      if negb (key e =? 0) && negb (key e =? k)
      then probe_loop fuel es index_max (Z.land (u64 (index + 1)) index_max) k
      else Ok index
  end.

Section operations.
(** Whether [calloc(n, sizeof(mambo_ht_entry_t))] succeeds. *)
Context (calloc_ok : Z → bool).

Definition calloc (n : Z) : option (list hash_entry) :=
  if calloc_ok n then Some (replicate (Z.to_nat n) (HashEntry 0 0)) else None.

Definition mambo_ht_init (mutex_ok : bool) (ht : mambo_ht) (initial_size ishift fill : Z)
    (resize : bool) : outcome (Z * mambo_ht) :=
  if (fill <? 10) || (90 <? fill) then Ok (-1, ht)
  else if (ishift <? 0) || (20 <? ishift) then Ok (-1, ht)
  else
    sz ← round_up_pow2 65 1 initial_size;
    if negb mutex_ok then Ok (-1, ht)
    else match calloc sz with
         | None => Ok (-1, set_entries (entry_count ht) [] (set_lock false ht))
         | Some es => Ok (0, MkHt sz 0 ishift resize fill (u64 (sz * fill) / 100) false es)
         end.

(** The tail of [mambo_ht_add_nolock], after the size check. *)
Definition store_entry (ht : mambo_ht) (k v : Z) : outcome (Z * mambo_ht) :=
  let index_max := u64 (size ht - 1) in
  let index := Z.land (Z.shiftr k (index_shift ht)) index_max in
  index ← probe_loop (length (entries ht)) (entries ht) index_max index k;
  e ← aget (entries ht) index;
  let c := if key e =? 0 then u64 (entry_count ht + 1) else entry_count ht in
  es ← aset (entries ht) index (HashEntry k v);
  Ok (0, set_entries c es ht).

(** The copying loop of [__mambo_ht_resize]; [add] is [mambo_ht_add_nolock]. *)
Fixpoint readd (add : mambo_ht → Z → Z → outcome (Z * mambo_ht))
    (prev_entries : list hash_entry) (ht : mambo_ht) : outcome mambo_ht :=
  match prev_entries with
  | [] => Ok ht
  | e :: prev_entries =>
      if negb (key e =? 0)
      then r ← add ht (key e) (value e);
           _ ← c_assert (fst r =? 0);
           readd add prev_entries (snd r)
      else readd add prev_entries ht
  end.

Definition __mambo_ht_resize (add : mambo_ht → Z → Z → outcome (Z * mambo_ht))
    (ht : mambo_ht) : outcome (Z * mambo_ht) :=
  let new_size := u64 (Z.shiftl (size ht) 1) in
  match calloc new_size with
  | None => Ok (-1, ht)
  | Some new_entries =>
      ht' ← readd add (entries ht)
              (MkHt new_size 0 (index_shift ht) (allow_resize ht) (fill_factor ht)
                    (u64 (new_size * fill_factor ht) / 100) (lock ht) new_entries);
      Ok (0, ht')
  end.

(** [depth] bounds the nesting of [mambo_ht_add_nolock] and
    [__mambo_ht_resize]. *)
Fixpoint mambo_ht_add_nolock (depth : nat) (ht : mambo_ht) (k v : Z)
    : outcome (Z * mambo_ht) :=
  match depth with
  | O => Err OutOfFuel
  | S depth =>
      if k =? 0 then Ok (-1, ht)
      else if resize_threshold ht <=? entry_count ht
      then if allow_resize ht
           then r ← __mambo_ht_resize (mambo_ht_add_nolock depth) ht;
                _ ← c_assert (fst r =? 0);
                store_entry (snd r) k v
           else Ok (-1, ht)
      else store_entry ht k v
  end.

Definition mambo_ht_add (depth : nat) (ht : mambo_ht) (k v : Z) : outcome (Z * mambo_ht) :=
  ht1 ← __mambo_ht_lock ht;
  r ← mambo_ht_add_nolock depth ht1 k v;
  ht2 ← __mambo_ht_unlock (snd r);
  Ok (fst r, ht2).

(** The result is the return value and [*value] when it was written. *)
Definition mambo_ht_get_nolock (ht : mambo_ht) (k : Z) : outcome (Z * option Z) :=
  if k =? 0 then Ok (-1, None)
  else
    let index_max := u64 (size ht - 1) in
    let index := Z.land (Z.shiftr k (index_shift ht)) index_max in
    index ← probe_loop (length (entries ht)) (entries ht) index_max index k;
    e ← aget (entries ht) index;
    if key e =? k then Ok (0, Some (value e)) else Ok (-1, None).

Definition mambo_ht_get (ht : mambo_ht) (k : Z) : outcome (Z * option Z * mambo_ht) :=
  ht1 ← __mambo_ht_lock ht;
  r ← mambo_ht_get_nolock ht1 k;
  ht2 ← __mambo_ht_unlock ht1;
  Ok (r, ht2).
End operations.

(** ** Well-formed tables *)

Definition home (shift : Z) (n : nat) (k : Z) : Z :=
  Z.land (Z.shiftr k shift) (Z.of_nat n - 1).
Definition slot (shift : Z) (n : nat) (k : Z) (d : nat) : nat :=
  Z.to_nat ((home shift n k + Z.of_nat d) mod Z.of_nat n).

Abbreviation ht_slot ht := (slot (index_shift ht) (length (entries ht))).
Abbreviation ht_reach ht := (λ _ : Z, length (entries ht)).

Record ht_wf (ht : mambo_ht) : Prop := {
  wf_pow2 : ∃ p, 0 ≤ p ∧ size ht = 2 ^ p;
  wf_length : Z.of_nat (length (entries ht)) = size ht;
  wf_fits : size ht * 100 < 2 ^ 64;
  wf_fill : 10 ≤ fill_factor ht ≤ 90;
  wf_threshold : resize_threshold ht = size ht * fill_factor ht / 100;
  wf_threshold_pos : 1 ≤ resize_threshold ht;
  wf_count : entry_count ht = Z.of_nat (count occupied (entries ht));
  wf_load : entry_count ht ≤ resize_threshold ht;
  wf_probe : probe_inv (ht_slot ht) (ht_reach ht) (entries ht)
}.

Lemma slot_inj shift n k d1 d2 :
  (d1 < n)%nat → (d2 < n)%nat → slot shift n k d1 = slot shift n k d2 → d1 = d2.
Proof.
  unfold slot. intros H1 H2 Heq. apply Z2Nat.inj in Heq.
  - generalize dependent (home shift n k). intros h Heq.
    pose proof (Z.div_mod (h + Z.of_nat d1) (Z.of_nat n) ltac:(lia)) as E1.
    pose proof (Z.div_mod (h + Z.of_nat d2) (Z.of_nat n) ltac:(lia)) as E2.
    rewrite Heq in E1. apply Nat2Z.inj.
    generalize dependent ((h + Z.of_nat d1) / Z.of_nat n). intros q1 E1.
    generalize dependent ((h + Z.of_nat d2) / Z.of_nat n). intros q2 E2.
    assert (q1 = q2) by nia. nia.
  - apply Z.mod_pos_bound. lia.
  - apply Z.mod_pos_bound. lia.
Qed.

Lemma slot_lt shift n k d : (0 < n)%nat → (slot shift n k d < n)%nat.
Proof.
  intros. unfold slot.
  pose proof (Z.mod_pos_bound (home shift n k + Z.of_nat d) (Z.of_nat n)). lia.
Qed.

Section pow2.
Context (shift : Z) (n : nat) (p : Z) (Hp : 0 ≤ p) (Hn : Z.of_nat n = 2 ^ p).

Lemma home_slot k : home shift n k = Z.of_nat (slot shift n k 0).
Proof using Hp Hn.
  pose proof (Z.pow_pos_nonneg 2 p eq_refl Hp).
  unfold slot, home. rewrite Z.add_0_r, Hn, land_pow2_mask by done.
  rewrite Z.mod_mod by lia. rewrite Z2Nat.id; [done|]. apply Z.mod_pos_bound. lia.
Qed.

(** One step of the probe loop moves to the next slot of the path. *)
Lemma next_slot k d :
  2 ^ p < 2 ^ 64 →
  Z.land (u64 (Z.of_nat (slot shift n k d) + 1)) (Z.of_nat n - 1)
  = Z.of_nat (slot shift n k (S d)).
Proof using Hp Hn.
  intros Hfit. pose proof (Z.pow_pos_nonneg 2 p eq_refl Hp).
  assert (0 < n)%nat as Hpos by lia.
  pose proof (slot_lt shift n k d Hpos).
  rewrite u64_small by lia. rewrite Hn, land_pow2_mask by done.
  unfold slot. rewrite Hn in *.
  rewrite !Z2Nat.id by (apply Z.mod_pos_bound; lia).
  rewrite Z.add_mod_idemp_l by lia. f_equal. lia.
Qed.

(** The probe loop returns the slot at which a search stops. *)
Lemma probe_loop_stops es k d j fuel :
  length es = n → 2 ^ p < 2 ^ 64 →
  stops_at (slot shift n) (λ _, n) es k d → (j ≤ d)%nat → (d - j < fuel)%nat →
  probe_loop fuel es (Z.of_nat n - 1) (Z.of_nat (slot shift n k j)) k
  = Ok (Z.of_nat (slot shift n k d)).
Proof using Hp Hn.
  intros Hlen Hfit (Hd & _ & Hstop & Hfirst).
  revert j. induction fuel as [|fuel IH]; intros j Hj Hfuel; [lia|]. simpl.
  pose proof (slot_lt shift n k j ltac:(lia)) as Hlt.
  rewrite (aget_nat _ _ (es !!! slot shift n k j)) by (apply lookup_total_lookup_lt; lia).
  simpl. fold (key_at es (slot shift n k j)).
  destruct (decide (j = d)) as [->|Hne].
  - destruct Hstop as [->| ->]; [done|]. by rewrite Z.eqb_refl, andb_false_r.
  - assert (¬ stop_slot es k (slot shift n k j)) as Hns by (apply Hfirst; lia).
    unfold stop_slot in Hns.
    destruct (Z.eqb_spec (key_at es (slot shift n k j)) 0); [tauto|].
    destruct (Z.eqb_spec (key_at es (slot shift n k j)) k); [tauto|]. simpl.
    rewrite next_slot by done. apply IH; lia.
Qed.
End pow2.

Lemma slot_surj shift n k i : (i < n)%nat → ∃ d, (d < n)%nat ∧ slot shift n k d = i.
Proof.
  intros Hi. set (h := home shift n k).
  pose proof (Z.mod_pos_bound (Z.of_nat i - h) (Z.of_nat n) ltac:(lia)) as Hb.
  exists (Z.to_nat ((Z.of_nat i - h) mod Z.of_nat n)). split; [lia|].
  unfold slot. fold h. rewrite Z2Nat.id by lia.
  rewrite Z.add_mod_idemp_r by lia.
  replace (h + (Z.of_nat i - h)) with (Z.of_nat i) by lia.
  rewrite Z.mod_small by lia. lia.
Qed.

Section wf.
Context (ht : mambo_ht) (Hwf : ht_wf ht).

Lemma wf_size_pos : 0 < size ht.
Proof using Hwf.
  destruct (wf_pow2 _ Hwf) as (p & Hp & ->). by apply Z.pow_pos_nonneg.
Qed.

Lemma wf_threshold_lt : resize_threshold ht < size ht.
Proof using Hwf.
  rewrite (wf_threshold _ Hwf). pose proof (wf_fill _ Hwf). pose proof wf_size_pos.
  apply Z.div_lt_upper_bound; [done|]. nia.
Qed.

(** A well-formed table has a free slot, so every search stops. *)
Lemma wf_stops k : ∃ d, stops_at (ht_slot ht) (ht_reach ht) (entries ht) k d.
Proof using Hwf.
  pose proof (wf_length _ Hwf) as Hlen. pose proof wf_size_pos.
  pose proof wf_threshold_lt. pose proof (wf_load _ Hwf). pose proof (wf_count _ Hwf).
  destruct (count_all_or_hole occupied (entries ht)) as [Hall|(i & e & Hi & He)]; [lia|].
  pose proof (lookup_lt_Some _ _ _ Hi) as Hlt.
  destruct (slot_surj (index_shift ht) _ k i Hlt) as (d & Hd & Hsd).
  destruct (stops_at_exists (ht_slot ht) (ht_reach ht) (entries ht) k d) as (d0 & _ & ?).
  - done.
  - intros d' _. apply slot_lt. lia.
  - left. rewrite Hsd, (key_at_lookup _ _ _ Hi). unfold occupied in He. lia.
  - by exists d0.
Qed.

(** The probe loop ends within as many steps as there are slots. *)
Lemma wf_probe_loop k d :
  stops_at (ht_slot ht) (ht_reach ht) (entries ht) k d →
  probe_loop (length (entries ht)) (entries ht) (u64 (size ht - 1))
    (Z.land (Z.shiftr k (index_shift ht)) (u64 (size ht - 1))) k
  = Ok (Z.of_nat (ht_slot ht k d)).
Proof using Hwf.
  intros Hst. destruct (wf_pow2 _ Hwf) as (p & Hp & Hsz).
  pose proof (wf_length _ Hwf) as Hlen. pose proof wf_size_pos. pose proof (wf_fits _ Hwf).
  rewrite u64_small by lia. rewrite <- Hlen.
  change (Z.land (Z.shiftr k (index_shift ht)) (Z.of_nat (length (entries ht)) - 1))
    with (home (index_shift ht) (length (entries ht)) k).
  rewrite (home_slot _ _ p) by (try done; lia).
  destruct Hst as (Hd & Hst). eapply (probe_loop_stops _ _ p); [done | lia | done | lia | ..].
  - by split.
  - lia.
  - lia.
Qed.

Lemma wf_aget_slot k d :
  aget (entries ht) (Z.of_nat (ht_slot ht k d))
  = Ok (entries ht !!! ht_slot ht k d).
Proof using Hwf.
  pose proof (wf_length _ Hwf). pose proof wf_size_pos.
  apply aget_nat, lookup_total_lookup_lt, slot_lt. lia.
Qed.
End wf.

(** The fields [mambo_ht_add] leaves alone. *)
Definition same_config (ht ht' : mambo_ht) : Prop :=
  index_shift ht' = index_shift ht ∧ allow_resize ht' = allow_resize ht ∧
  fill_factor ht' = fill_factor ht ∧ lock ht' = lock ht.

Lemma store_entry_spec ht m k v :
  ht_wf ht → represents (entries ht) m → entry_count ht < resize_threshold ht → k ≠ 0 →
  ∃ ht', store_entry ht k v = Ok (0, ht') ∧ ht_wf ht' ∧
         represents (entries ht') (<[k := v]> m) ∧ same_config ht ht' ∧
         size ht' = size ht ∧ entry_count ht' ≤ entry_count ht + 1.
Proof.
  intros Hwf Hm Hroom Hk. destruct (wf_stops ht Hwf k) as (d & Hst).
  pose proof (wf_size_pos ht Hwf). pose proof (wf_length _ Hwf) as Hlen.
  pose proof (wf_count _ Hwf) as Hcount. pose proof (wf_threshold_lt ht Hwf).
  pose proof (wf_fits _ Hwf).
  assert (ht_slot ht k d < length (entries ht))%nat as Hlt by (apply slot_lt; lia).
  unfold store_entry. rewrite (wf_probe_loop ht Hwf k d Hst). simpl.
  rewrite wf_aget_slot by done. simpl. rewrite aset_nat by done. simpl.
  eexists. split; [done|]. fold (key_at (entries ht) (ht_slot ht k d)).
  pose proof (occupied_insert _ _ (entries ht) k v d Hk Hst) as Hocc.
  set (es' := <[ht_slot ht k d := HashEntry k v]> (entries ht)) in *.
  assert (length es' = length (entries ht)) as Hlen' by apply length_insert.
  set (c := if key_at (entries ht) (ht_slot ht k d) =? 0 then _ else _).
  assert (c = Z.of_nat (count occupied es')) as Hc.
  { subst c. rewrite Hocc. destruct (Z.eqb_spec (key_at (entries ht) (ht_slot ht k d)) 0).
    - rewrite decide_True by done. rewrite u64_small; lia.
    - rewrite decide_False by done. lia. }
  split_and!; [| | done | done |].
  - destruct Hwf. constructor; simpl; rewrite ?Hlen'; try done.
    + rewrite Hc, Hocc. case_decide; lia.
    + by apply probe_inv_insert; [intros; eapply slot_inj | | |].
  - by eapply represents_insert; [intros; eapply slot_inj | apply Hwf | ..].
  - simpl. rewrite Hc, Hocc. case_decide; lia.
Qed.

(** The map a list of entries spells out when read in order. *)
Definition put_entry (m : gmap Z Z) (e : hash_entry) : gmap Z Z :=
  if decide (key e = 0) then m else <[key e := value e]> m.

Lemma represents_foldl es m :
  (∀ i j e e', es !! i = Some e → es !! j = Some e' → key e ≠ 0 → key e = key e' → i = j) →
  represents es m → foldl put_entry ∅ es = m.
Proof.
  intros Huniq Hm. apply map_eq. intros k. apply option_eq. intros v.
  rewrite (Hm k v). clear m Hm. revert Huniq.
  induction es as [|e es IH] using rev_ind; intros Huniq.
  - simpl. rewrite lookup_empty. naive_solver.
  - assert (∀ i x, es !! i = Some x → (es ++ [e]) !! i = Some x) as Hl
      by (intros; by apply lookup_app_l_Some).
    assert ((es ++ [e]) !! length es = Some e) as He by (by apply list_lookup_middle).
    specialize (IH ltac:(intros ???? Hi Hj; eapply Huniq; by apply Hl)).
    rewrite foldl_snoc. unfold put_entry at 1. case_decide as Hke; [|rewrite lookup_insert; case_decide as Hkk].
    + rewrite IH. split; [naive_solver|]. intros (Hk & i & Hi). split; [done|].
      apply lookup_app_Some in Hi as [Hi|[_ Hi]]; [by exists i|].
      apply list_lookup_singleton_Some in Hi as [_ ->]. done.
    + split.
      * intros [= <-]. split; [congruence|]. exists (length es). rewrite He. f_equal.
        destruct e; simpl in *; congruence.
      * intros (Hk & i & Hi). f_equal. assert (length es = i) as <-.
        { eapply Huniq; [exact He | exact Hi | exact Hke | exact Hkk]. }
        rewrite He in Hi. injection Hi as ->. done.
    + rewrite IH. split; [naive_solver|]. intros (Hk & i & Hi). split; [done|].
      apply lookup_app_Some in Hi as [Hi|[_ Hi]]; [by exists i|].
      apply list_lookup_singleton_Some in Hi as [_ ->]. done.
Qed.

Section resizing.
Context (calloc_ok : Z → bool).
(** An array of [n] entries of 16 bytes only exists when it fits in the
    address space; 2^57 bytes are the largest user address space of the
    supported architectures. *)
Context (calloc_fits : ∀ n, calloc_ok n = true → n * 16 ≤ 2 ^ 57).

Abbreviation add := (mambo_ht_add_nolock calloc_ok).

Lemma add_room depth ht k v :
  k ≠ 0 → entry_count ht < resize_threshold ht →
  add (S depth) ht k v = store_entry ht k v.
Proof.
  intros Hk Hroom. simpl. destruct (Z.eqb_spec k 0); [done|].
  destruct (Z.leb_spec (resize_threshold ht) (entry_count ht)); [lia | done].
Qed.

Lemma readd_spec depth prev ht m :
  ht_wf ht → represents (entries ht) m →
  entry_count ht + Z.of_nat (count occupied prev) ≤ resize_threshold ht →
  ∃ ht', readd (add (S depth)) prev ht = Ok ht' ∧ ht_wf ht' ∧
         represents (entries ht') (foldl put_entry m prev) ∧ same_config ht ht' ∧
         size ht' = size ht ∧
         entry_count ht' ≤ entry_count ht + Z.of_nat (count occupied prev).
Proof.
  revert ht m. induction prev as [|e prev IH]; intros ht m Hwf Hm Hroom.
  - exists ht. splits.
  - rewrite count_occupied_cons in *. cbn [readd foldl]. unfold put_entry at 2.
    destruct (Z.eqb_spec (key e) 0) as [He|He]; cbn [negb].
    + rewrite decide_True by done.
      destruct (IH ht m Hwf Hm) as (ht' & ? & ? & ? & ? & ? & ?); [lia|].
      exists ht'. splits.
    + rewrite decide_False by done.
      rewrite add_room by lia.
      destruct (store_entry_spec ht m (key e) (value e) Hwf Hm)
        as (ht1 & -> & Hwf1 & Hm1 & (? & ? & Hff & ?) & Hsz1 & Hc1); [lia | done |].
      cbn [mbind outcome_bind fst snd Z.eqb c_assert].
      assert (resize_threshold ht1 = resize_threshold ht) as Ht1
        by (by rewrite (wf_threshold _ Hwf1), (wf_threshold _ Hwf), Hff, Hsz1).
      destruct (IH ht1 _ Hwf1 Hm1) as (ht' & Hr & ? & ? & (? & ? & ? & ?) & ? & ?); [lia|].
      exists ht'. rewrite Hr. split_and!; try done; [|congruence|lia].
      repeat split; congruence.
Qed.

Lemma ht_unique ht i j e e' :
  ht_wf ht → entries ht !! i = Some e → entries ht !! j = Some e' →
  key e ≠ 0 → key e = key e' → i = j.
Proof. intros Hwf. eapply probe_inv_unique; apply Hwf. Qed.

(** Doubling keeps the represented map and makes room. *)
Lemma resize_spec depth ht m :
  ht_wf ht → represents (entries ht) m → calloc_ok (2 * size ht) = true →
  ∃ ht', __mambo_ht_resize calloc_ok (add (S depth)) ht = Ok (0, ht') ∧ ht_wf ht' ∧
         represents (entries ht') m ∧ same_config ht ht' ∧ size ht' = 2 * size ht ∧
         entry_count ht' < resize_threshold ht'.
Proof.
  intros Hwf Hm Hok. pose proof (wf_size_pos _ Hwf). pose proof (wf_fits _ Hwf).
  pose proof (wf_fill _ Hwf). pose proof (calloc_fits _ Hok).
  pose proof (wf_threshold _ Hwf) as Ht. pose proof (wf_threshold_pos _ Hwf).
  unfold __mambo_ht_resize, calloc. rewrite Z.shiftl_mul_pow2 by done.
  replace (size ht * 2 ^ 1) with (2 * size ht) by lia.
  rewrite u64_small, Hok by lia. rewrite u64_small by nia.
  set (ht0 := MkHt _ _ _ _ _ _ _ _).
  assert (2 * resize_threshold ht ≤ 2 * size ht * fill_factor ht / 100) as Hgrow.
  { rewrite Ht. apply Z.div_le_lower_bound; [done|].
    pose proof (Z.mul_div_le (size ht * fill_factor ht) 100). lia. }
  assert (ht_wf ht0) as Hwf0.
  { destruct (wf_pow2 _ Hwf) as (p & Hp & Hsz). constructor; simpl; rewrite ?length_replicate.
    - exists (Z.succ p). split; [lia|]. rewrite Z.pow_succ_r by done. lia.
    - lia.
    - lia.
    - done.
    - done.
    - lia.
    - rewrite count_replicate_false; [done|]. unfold occupied. simpl. lia.
    - lia.
    - intros i e Hi He. apply lookup_replicate in Hi as [-> _]. simpl in He. lia. }
  destruct (readd_spec depth (entries ht) ht0 ∅) as (ht' & -> & Hwf' & Hm' & (? & ? & Hff & ?) & Hsz & Hc).
  - done.
  - apply represents_replicate.
  - simpl. rewrite <- (wf_count _ Hwf). pose proof (wf_load _ Hwf). lia.
  - exists ht'. cbn [mbind outcome_bind]. split_and!; try done.
    + rewrite represents_foldl with (m := m) in Hm'; [done | | done].
      eauto using ht_unique.
    + rewrite (wf_threshold _ Hwf'), Hff, Hsz. simpl in *.
      rewrite <- (wf_count _ Hwf) in Hc. pose proof (wf_load _ Hwf). lia.
Qed.
End resizing.

Lemma unlock_lock ht :
  lock ht = false →
  (_ ← c_assert (lock (set_lock true ht)); Ok (set_lock false (set_lock true ht))) = Ok ht.
Proof. destruct ht; simpl; by intros ->. Qed.

Lemma set_lock_wf b ht : ht_wf ht → ht_wf (set_lock b ht).
Proof. intros []. by constructor. Qed.

(** [mambo_ht_get] in terms of the table alone: taking and releasing the lock
    leaves no trace. *)
Lemma get_locked ht k :
  lock ht = false →
  mambo_ht_get ht k = (r ← mambo_ht_get_nolock ht k; Ok (r, ht)).
Proof.
  intros Hl. unfold mambo_ht_get, __mambo_ht_lock. rewrite Hl.
  cbn [mbind outcome_bind]. change (mambo_ht_get_nolock (set_lock true ht) k)
    with (mambo_ht_get_nolock ht k).
  destruct (mambo_ht_get_nolock ht k); [|done]. cbn [mbind outcome_bind].
  unfold __mambo_ht_unlock. by rewrite unlock_lock.
Qed.

(** Reading a well-formed table. *)
Lemma get_map ht m k :
  ht_wf ht → represents (entries ht) m → lock ht = false →
  mambo_ht_get ht k
  = Ok (match m !! k with Some v => (0, Some v) | None => (-1, None) end, ht).
Proof.
  intros Hwf Hm Hl. rewrite get_locked by done. unfold mambo_ht_get_nolock.
  destruct (Z.eqb_spec k 0) as [->|Hk].
  - destruct (m !! 0) eqn:H0; [|done]. by apply Hm in H0 as [? _].
  - destruct (wf_stops ht Hwf k) as (d & Hst).
    rewrite (wf_probe_loop ht Hwf k d Hst). cbn [mbind outcome_bind].
    rewrite wf_aget_slot by done. cbn [mbind outcome_bind].
    rewrite (stop_lookup _ _ (entries ht) m k d) by (try done; apply Hwf).
    unfold key_at, value_at. destruct (Z.eqb_spec (key (entries ht !!! ht_slot ht k d)) k).
    + by rewrite decide_True by done.
    + by rewrite decide_False by done.
Qed.

(** C12. Reading a well-formed table is a lookup in the map it represents: the
    probe loop ends, a present key yields 0 and its value, any other key
    (0 included) yields -1 and leaves [*value] unwritten; the table and its
    mutex are as before. *)
Theorem mambo_ht_get_refines ht m k :
  ht_wf ht → represents (entries ht) m → lock ht = false →
  mambo_ht_get ht k
  = Ok (match m !! k with Some v => (0, Some v) | None => (-1, None) end, ht).
Proof. apply get_map. Qed.

(** Whether the next insertion finds room, growing the table if need be. *)
Definition has_room (calloc_ok : Z → bool) (ht : mambo_ht) : Prop :=
  entry_count ht < resize_threshold ht ∨
  allow_resize ht = true ∧ calloc_ok (2 * size ht) = true.

Lemma add_nolock_spec calloc_ok (Hfits : ∀ n, calloc_ok n = true → n * 16 ≤ 2 ^ 57)
    depth ht m k v :
  ht_wf ht → represents (entries ht) m → k ≠ 0 → has_room calloc_ok ht →
  ∃ ht', mambo_ht_add_nolock calloc_ok (S (S depth)) ht k v = Ok (0, ht') ∧ ht_wf ht' ∧
         represents (entries ht') (<[k := v]> m) ∧ same_config ht ht'.
Proof.
  intros Hwf Hm Hk Hroom.
  destruct (decide (entry_count ht < resize_threshold ht)) as [Hlt|Hge].
  - rewrite add_room by done.
    destruct (store_entry_spec ht m k v) as (ht' & ? & ? & ? & ? & _); eauto.
  - destruct Hroom as [|[Hr Hc]]; [done|].
    remember (S depth) as d1. simpl. subst d1. destruct (Z.eqb_spec k 0); [done|].
    destruct (Z.leb_spec (resize_threshold ht) (entry_count ht)); [|lia]. rewrite Hr.
    destruct (resize_spec calloc_ok Hfits depth ht m) as (h1 & -> & ? & ? & (? & ? & ? & ?) & ? & ?); try done.
    cbn [mbind outcome_bind fst snd Z.eqb c_assert].
    destruct (store_entry_spec h1 m k v) as (ht' & ? & ? & ? & (? & ? & ? & ?) & _); try done.
    exists ht'. split_and!; try done. repeat split; congruence.
Qed.

(** C13. Adding a non-zero key to a well-formed table that has room (directly
    or by doubling) updates the represented map at that key only, keeps the
    table well formed with the same configuration, returns 0 and releases the
    mutex. Nesting of add and resize never exceeds one level. *)
Theorem mambo_ht_add_refines calloc_ok depth ht m k v :
  (∀ n, calloc_ok n = true → n * 16 ≤ 2 ^ 57) →
  ht_wf ht → represents (entries ht) m → lock ht = false → k ≠ 0 → has_room calloc_ok ht →
  ∃ ht', mambo_ht_add calloc_ok (S (S depth)) ht k v = Ok (0, ht') ∧ ht_wf ht' ∧
         represents (entries ht') (<[k := v]> m) ∧ same_config ht ht'.
Proof.
  intros Hfits Hwf Hm Hl Hk Hroom. unfold mambo_ht_add, __mambo_ht_lock. rewrite Hl.
  cbn [mbind outcome_bind].
  destruct (add_nolock_spec calloc_ok Hfits depth (set_lock true ht) m k v)
    as (h & -> & ? & ? & (? & ? & ? & Hlk)); [by apply set_lock_wf | done.. |].
  cbn [mbind outcome_bind fst snd]. unfold __mambo_ht_unlock. simpl in Hlk. rewrite Hlk.
  exists (set_lock false h). split_and!; [done | by apply set_lock_wf | done |].
  repeat split; simpl in *; congruence.
Qed.

(** A full table that may not grow refuses every insertion with -1 and is
    left unchanged, and a full table whose doubling cannot be allocated aborts
    in the assertion on the result of the resize. *)
Theorem mambo_ht_add_full calloc_ok depth ht k v :
  lock ht = false → k ≠ 0 → resize_threshold ht ≤ entry_count ht →
  calloc_ok (u64 (Z.shiftl (size ht) 1)) = false →
  mambo_ht_add calloc_ok (S depth) ht k v
  = if allow_resize ht then Err AssertFail else Ok (-1, ht).
Proof.
  intros Hl Hk Hfull Hc. unfold mambo_ht_add, __mambo_ht_lock. rewrite Hl. simpl.
  destruct (Z.eqb_spec k 0); [done|].
  destruct (Z.leb_spec (resize_threshold ht) (entry_count ht)); [|lia].
  destruct (allow_resize ht) eqn:Ha; simpl.
  - unfold __mambo_ht_resize, calloc. simpl. by rewrite Hc.
  - destruct ht; simpl in *. by subst.
Qed.

(** The rounding loop from [2 ^ j] finds the least power of two that is large
    enough. *)
Lemma round_up_pow2_from fuel j n :
  0 ≤ j ≤ Z.log2_up n → n ≤ 2 ^ 63 → Z.log2_up n - j < Z.of_nat fuel →
  round_up_pow2 fuel (2 ^ j) n = Ok (2 ^ Z.log2_up n).
Proof.
  revert j. induction fuel as [|fuel IH]; intros j Hj Hn Hfuel; [lia|]. simpl.
  pose proof (Z.log2_up_le_mono n (2 ^ 63) Hn) as Hl.
  rewrite Z.log2_up_pow2 in Hl by done.
  destruct (Z.ltb_spec (2 ^ j) n) as [Hlt|Hge].
  - assert (j < Z.log2_up n) by (apply Z.log2_up_lt_pow2; lia).
    rewrite Z.shiftl_mul_pow2 by done.
    replace (2 ^ j * 2 ^ 1) with (2 ^ Z.succ j) by (rewrite Z.pow_succ_r; lia).
    rewrite u64_small by (split; [lia | apply Z.pow_lt_mono_r; lia]).
    apply IH; lia.
  - f_equal. f_equal.
    assert (n ≤ 0 ∨ 0 < n) as [?|Hpos] by lia; [rewrite Z.log2_up_eqn0 in * by lia; lia|].
    pose proof (Z.log2_up_le_pow2 n j Hpos) as [Hle _]. specialize (Hle Hge). lia.
Qed.

Lemma round_up_pow2_diverges fuel s n :
  2 ^ 63 < n → (s = 0 ∨ ∃ j, 0 ≤ j ≤ 63 ∧ s = 2 ^ j) →
  round_up_pow2 fuel s n = Err OutOfFuel.
Proof.
  intros Hn. revert s. induction fuel as [|fuel IH]; intros s Hs; [done|]. simpl.
  assert (s < n) as Hlt.
  { destruct Hs as [->|(j & Hj & ->)]; [lia|].
    pose proof (Z.pow_le_mono_r 2 j 63). lia. }
  destruct (Z.ltb_spec s n); [|lia]. apply IH.
  destruct Hs as [->|(j & Hj & ->)]; [by left|].
  rewrite Z.shiftl_mul_pow2 by done.
  replace (2 ^ j * 2 ^ 1) with (2 ^ Z.succ j) by (rewrite Z.pow_succ_r; lia).
  destruct (decide (j = 63)) as [->|]; [by left|].
  right. exists (Z.succ j). split; [lia|]. apply u64_small.
  split; [lia|]. apply Z.pow_lt_mono_r; lia.
Qed.

(** [mambo_ht_init] with parameters in range makes an empty, well-formed
    table whose size is the least power of two not below [initial_size],
    provided the fill factor leaves room for one entry; parameters out of range
    and failed allocations give -1; above 2^63 the rounding loop never ends,
    because the size wraps to 0. *)
Theorem mambo_ht_init_spec calloc_ok ht n shift fill resize :
  (∀ n, calloc_ok n = true → n * 16 ≤ 2 ^ 57) → 0 ≤ n →
  let sz := 2 ^ Z.log2_up n in
  (¬ (10 ≤ fill ≤ 90 ∧ 0 ≤ shift ≤ 20) →
     mambo_ht_init calloc_ok true ht n shift fill resize = Ok (-1, ht)) ∧
  (10 ≤ fill ≤ 90 → 0 ≤ shift ≤ 20 → n ≤ 2 ^ 63 →
     if calloc_ok sz then
       ∃ ht', mambo_ht_init calloc_ok true ht n shift fill resize = Ok (0, ht') ∧
              size ht' = sz ∧ n ≤ sz ∧ lock ht' = false ∧ allow_resize ht' = resize ∧
              represents (entries ht') ∅ ∧ (100 ≤ sz * fill → ht_wf ht')
     else ∃ ht', mambo_ht_init calloc_ok true ht n shift fill resize = Ok (-1, ht')) ∧
  (10 ≤ fill ≤ 90 → 0 ≤ shift ≤ 20 → 2 ^ 63 < n →
     ∀ fuel, round_up_pow2 fuel 1 n = Err OutOfFuel).
Proof.
  intros Hfits Hn0 sz. split_and!.
  - intros Hbad. unfold mambo_ht_init. case_bool_Z; simpl; try done; lia.
  - intros Hfill Hshift Hn.
    assert (mambo_ht_init calloc_ok true ht n shift fill resize =
      match calloc calloc_ok sz with
      | None => Ok (-1, set_entries (entry_count ht) [] (set_lock false ht))
      | Some es => Ok (0, MkHt sz 0 shift resize fill (u64 (sz * fill) / 100) false es)
      end) as ->.
    { unfold mambo_ht_init. case_bool_Z. simpl orb. cbv iota.
      pose proof (Z.log2_up_nonneg n). pose proof (Z.log2_up_le_mono n (2 ^ 63) Hn) as Hl.
      rewrite Z.log2_up_pow2 in Hl by done.
      change 1 with (2 ^ 0) at 1. by rewrite round_up_pow2_from by lia. }
    unfold calloc. destruct (calloc_ok sz) eqn:Hc; [|by eexists].
    pose proof (Hfits _ Hc). pose proof (Z.log2_up_nonneg n).
    assert (0 < sz) by (apply Z.pow_pos_nonneg; lia).
    eexists. split; [done|]. simpl. split_and!; try done.
    + subst sz. destruct (decide (1 < n)); [|lia]. apply Z.log2_up_spec. lia.
    + apply represents_replicate.
    + intros Hroom. rewrite u64_small by nia. constructor; simpl; rewrite ?length_replicate.
      * by exists (Z.log2_up n).
      * lia.
      * lia.
      * done.
      * done.
      * apply Z.div_le_lower_bound; lia.
      * rewrite count_replicate_false; [done|]. unfold occupied. simpl. lia.
      * apply Z.div_pos; nia.
      * intros i e Hi He. apply lookup_replicate in Hi as [-> _]. simpl in He. lia.
  - intros _ _ Hn fuel. apply round_up_pow2_diverges; [done|]. right. by exists 0.
Qed.

(** ** Instances of the theorems *)

Definition small_calloc (n : Z) : bool := n <=? 1024.

(** The table of the race detectors ([VC_INITIAL_SZ] slots), empty and after
    one insertion. *)
Definition empty8 : mambo_ht := MkHt 8 0 0 true 90 7 false (replicate 8 (HashEntry 0 0)).
Definition one8 : mambo_ht :=
  MkHt 8 1 0 true 90 7 false (<[5%nat := HashEntry 5 50]> (replicate 8 (HashEntry 0 0))).
(** The same table when growing is forbidden and no slot may be used. *)
Definition frozen1 : mambo_ht := MkHt 1 0 0 false 90 0 false [HashEntry 0 0].

Lemma small_calloc_fits n : small_calloc n = true → n * 16 ≤ 2 ^ 57.
Proof. unfold small_calloc. destruct (Z.leb_spec n 1024); [lia | done]. Qed.

Lemma empty8_wf : ht_wf empty8 ∧ represents (entries empty8) ∅.
Proof.
  split; [|apply represents_replicate]. constructor; try (simpl; lia); try done.
  - by exists 3.
  - intros i e Hi He. apply lookup_replicate in Hi as [-> _]. simpl in He. lia.
Qed.

Lemma one8_wf : ht_wf one8 ∧ represents (entries one8) {[5 := 50]}.
Proof.
  destruct empty8_wf as [Hwf Hm].
  destruct (store_entry_spec empty8 ∅ 5 50 Hwf Hm) as (ht' & Hs & ? & ? & _); [done | done |].
  assert (store_entry empty8 5 50 = Ok (0, one8)) as E by reflexivity.
  rewrite E in Hs. injection Hs as <-. by split.
Qed.

Lemma mambo_ht_get_refines_witness :
  mambo_ht_get one8 5 = Ok (0, Some 50, one8) ∧ mambo_ht_get one8 13 = Ok (-1, None, one8).
Proof.
  split.
  - rewrite (mambo_ht_get_refines one8 {[5 := 50]} 5);
      [vm_compute; reflexivity | apply one8_wf.. | reflexivity].
  - rewrite (mambo_ht_get_refines one8 {[5 := 50]} 13);
      [vm_compute; reflexivity | apply one8_wf.. | reflexivity].
Defined.

Lemma mambo_ht_add_refines_witness :
  ∃ ht', mambo_ht_add small_calloc 2 one8 13 7 = Ok (0, ht') ∧ ht_wf ht' ∧
         represents (entries ht') (<[13 := 7]> {[5 := 50]}) ∧ same_config one8 ht'.
Proof.
  apply (mambo_ht_add_refines small_calloc 0 one8 {[5 := 50]} 13 7).
  - exact small_calloc_fits.
  - apply one8_wf.
  - apply one8_wf.
  - reflexivity.
  - lia.
  - left. reflexivity.
Defined.

Lemma mambo_ht_add_full_witness :
  mambo_ht_add (λ _, false) 1 frozen1 5 6 = Ok (-1, frozen1).
Proof. apply (mambo_ht_add_full (λ _, false) 0 frozen1 5 6); simpl; lia || done. Defined.

Lemma mambo_ht_init_spec_witness :
  ∃ ht', mambo_ht_init small_calloc true frozen1 8 0 90 true = Ok (0, ht') ∧
         size ht' = 8 ∧ 8 ≤ 8 ∧ lock ht' = false ∧ allow_resize ht' = true ∧
         represents (entries ht') ∅ ∧ (100 ≤ 8 * 90 → ht_wf ht').
Proof.
  destruct (mambo_ht_init_spec small_calloc frozen1 8 0 90 true small_calloc_fits) as (_ & H & _).
  - lia.
  - apply H; lia.
Defined.
End MamboHt.
