(* ===== verification/CodeCacheHash.v ===== *)
(** * The code cache hash table (common.c)

    [hash_table] maps source addresses to translated addresses. Linear probing
    without wrap-around: the table is overprovisioned at its end and the last
    slot stays free as a sentinel, so that the assembly lookup needs no bound
    check. The theorems give the refinement to a finite map, the exact
    condition under which [hash_add] overflows, and what [hash_init] leaves. *)
From S2P Require Import Prelude LinearProbe.

Module CodeCacheHash.

Definition CODE_CACHE_HASH_SIZE : Z := 524287.
Definition CODE_CACHE_HASH_OVERP : Z := 10.

(** The targets the tables are built for. *)
Inductive target := arm | aarch64 | riscv_compressed | riscv.
#[global] Instance target_eq_dec : EqDecision target.
Proof. solve_decision. Defined.

Definition HT_SHIFT (t : target) : Z :=
  match t with arm => 0 | aarch64 => 2 | riscv_compressed => 1 | riscv => 2 end.

Record hash_table := MkTable {
  size : Z;
  collisions : Z;
  count : Z;
  entries : list hash_entry
}.

Definition set_entries (es : list hash_entry) (t : hash_table) : hash_table :=
  MkTable (size t) (collisions t) (count t) es.

Section operations.
Context (tgt : target).

Definition GET_INDEX (t : hash_table) (k : Z) : Z :=
  s32 (Z.land (Z.shiftr k (HT_SHIFT tgt)) (u64 (size t - CODE_CACHE_HASH_OVERP))).

Fixpoint hash_lookup_loop (fuel : nat) (t : hash_table) (k index : Z) : outcome Z :=
  match fuel with
  | O => Err OutOfFuel
  | S fuel =>
      e ← aget (entries t) index;
      if key e =? k then Ok (value e)
      else if (index + 1 <? size t - 1) && negb (key e =? 0)
           then hash_lookup_loop fuel t k (index + 1)
           else Ok UINT_MAX
  end.

Definition hash_lookup (t : hash_table) (k : Z) : outcome Z :=
  hash_lookup_loop (length (entries t)) t k (GET_INDEX t k).

(** The exit of the C loop on its own condition cannot be reached: a probe that
    leaves the table hangs in [while(1);] before the condition is evaluated. *)
Fixpoint hash_add_loop (fuel : nat) (t : hash_table) (k v index : Z)
    : outcome (bool * hash_table) :=
  match fuel with
  | O => Err OutOfFuel
  | S fuel =>
      e ← aget (entries t) index;
      if (key e =? 0) || (key e =? k) then
        let c := if key e =? 0 then count t + 1 else count t in
        es ← aset (entries t) index (HashEntry k v);
        Ok (true, MkTable (size t) (collisions t) c es)
      else
        let index := index + 1 in
        if size t - 1 <=? index then Err Hang
        else
          let t := MkTable (size t) (collisions t + 1) (count t) (entries t) in
          if index <? size t - 1 then hash_add_loop fuel t k v index
          else Ok (false, t)
  end.

Definition hash_add (t : hash_table) (k v : Z) : outcome (bool * hash_table) :=
  hash_add_loop (length (entries t)) t k v (GET_INDEX t k).
End operations.

(** [for (i = size - 1; i >= 0; i--) entries[i].key = 0;] *)
Fixpoint clear_keys (n : nat) (es : list hash_entry) : outcome (list hash_entry) :=
  match n with
  | O => Ok es
  | S n =>
      e ← aget es (Z.of_nat n);
      es ← aset es (Z.of_nat n) (HashEntry 0 (value e));
      clear_keys n es
  end.

Definition hash_init (t : hash_table) (sz : Z) : outcome hash_table :=
  es ← clear_keys (Z.to_nat sz) (entries t);
  Ok (MkTable sz 0 0 es).

(** ** Well-formed tables *)

Section wf.
Context (tgt : target).

Definition home (t : hash_table) (k : Z) : nat := Z.to_nat (GET_INDEX tgt t k).
Definition slot (t : hash_table) (k : Z) (d : nat) : nat := (home t k + d)%nat.
Definition reach (t : hash_table) (k : Z) : nat := (length (entries t) - 1 - home t k)%nat.

Record wf (t : hash_table) : Prop := {
  wf_length : Z.of_nat (length (entries t)) = size t;
  wf_mask : ∃ p, 0 ≤ p ≤ 30 ∧ size t - CODE_CACHE_HASH_OVERP = 2 ^ p - 1;
  wf_sentinel : key_at (entries t) (length (entries t) - 1) = 0;
  wf_count : count t = Z.of_nat (Prelude.count occupied (entries t));
  wf_probe : probe_inv (slot t) (reach t) (entries t)
}.

Lemma hash_slot_inj t k d1 d2 :
  (d1 < reach t k)%nat → (d2 < reach t k)%nat → slot t k d1 = slot t k d2 → d1 = d2.
Proof. unfold slot. lia. Qed.

Lemma GET_INDEX_range t k :
  wf t → 0 ≤ GET_INDEX tgt t k ∧ GET_INDEX tgt t k + 9 < size t.
Proof.
  intros Hwf. destruct (wf_mask _ Hwf) as (p & Hp & Hm).
  unfold GET_INDEX, CODE_CACHE_HASH_OVERP in *. rewrite Hm.
  pose proof (Z.pow_pos_nonneg 2 p ltac:(lia) ltac:(lia)).
  pose proof (Z.pow_le_mono_r 2 p 30 ltac:(lia) ltac:(lia)).
  rewrite u64_small by lia. rewrite land_pow2_mask by lia.
  pose proof (Z.mod_pos_bound (k ≫ HT_SHIFT tgt) (2 ^ p) ltac:(lia)) as Hb.
  unfold s32. rewrite signed_small by lia. lia.
Qed.

Lemma home_Z t k : wf t → Z.of_nat (home t k) = GET_INDEX tgt t k.
Proof. intros Hwf. pose proof (GET_INDEX_range t k Hwf). unfold home. lia. Qed.

Lemma slot_bound t k d : (d < reach t k)%nat → (slot t k d < length (entries t) - 1)%nat.
Proof. unfold slot, reach. lia. Qed.

Lemma reach_Z t k :
  wf t → Z.of_nat (reach t k) = size t - 1 - GET_INDEX tgt t k.
Proof.
  intros Hwf. pose proof (home_Z t k Hwf). pose proof (GET_INDEX_range t k Hwf).
  pose proof (wf_length _ Hwf). unfold reach. lia.
Qed.

(** The lookup loop, entered at the [j]-th slot of the path. *)
Lemma lookup_loop_stop t k d j fuel :
  wf t → k ≠ 0 → stops_at (slot t) (reach t) (entries t) k d →
  (j ≤ d)%nat → (d - j < fuel)%nat →
  hash_lookup_loop fuel t k (GET_INDEX tgt t k + Z.of_nat j)
  = Ok (if key_at (entries t) (slot t k d) =? k
        then value_at (entries t) (slot t k d) else UINT_MAX).
Proof.
  intros Hwf Hk (Hd & Hlen & Hstop & Hfirst) Hj. revert j Hj.
  pose proof (reach_Z t k Hwf). pose proof (home_Z t k Hwf) as Hh.
  induction fuel as [|fuel IH]; intros j Hj Hfuel; [lia|]. simpl.
  pose proof (slot_bound t k j ltac:(lia)).
  replace (GET_INDEX tgt t k + Z.of_nat j) with (Z.of_nat (slot t k j)) by (unfold slot; lia).
  rewrite (aget_nat _ _ (entries t !!! slot t k j)) by (apply lookup_total_lookup_lt; lia).
  cbn [mbind outcome_bind]. fold (key_at (entries t) (slot t k j)).
  destruct (decide (j = d)) as [->|Hne].
  - destruct (Z.eqb_spec (key_at (entries t) (slot t k d)) k) as [Heq|Hneq]; [done|].
    destruct Hstop as [Hz|?]; [|done]. by rewrite Hz, andb_false_r.
  - assert (¬ stop_slot (entries t) k (slot t k j)) as Hns by (apply Hfirst; lia).
    unfold stop_slot in Hns.
    destruct (Z.eqb_spec (key_at (entries t) (slot t k j)) k); [tauto|].
    destruct (Z.eqb_spec (key_at (entries t) (slot t k j)) 0); [tauto|]. cbn [negb].
    destruct (Z.ltb_spec (Z.of_nat (slot t k j) + 1) (size t - 1)); [|unfold slot in *; lia].
    cbn [andb]. rewrite <- IH with (j := S j) by lia. f_equal. unfold slot. lia.
Qed.

Lemma lookup_loop_miss t k j fuel :
  wf t → (∀ d, (d < reach t k)%nat → ¬ stop_slot (entries t) k (slot t k d)) →
  (j < reach t k)%nat → (reach t k - j ≤ fuel)%nat →
  hash_lookup_loop fuel t k (GET_INDEX tgt t k + Z.of_nat j) = Ok UINT_MAX.
Proof.
  intros Hwf Hno. revert j.
  pose proof (reach_Z t k Hwf). pose proof (home_Z t k Hwf).
  induction fuel as [|fuel IH]; intros j Hj Hfuel; [lia|]. simpl.
  pose proof (slot_bound t k j ltac:(lia)).
  replace (GET_INDEX tgt t k + Z.of_nat j) with (Z.of_nat (slot t k j)) by (unfold slot; lia).
  rewrite (aget_nat _ _ (entries t !!! slot t k j)) by (apply lookup_total_lookup_lt; lia).
  cbn [mbind outcome_bind]. fold (key_at (entries t) (slot t k j)).
  pose proof (Hno j Hj) as Hns. unfold stop_slot in Hns.
  destruct (Z.eqb_spec (key_at (entries t) (slot t k j)) k); [tauto|].
  destruct (Z.eqb_spec (key_at (entries t) (slot t k j)) 0); [tauto|]. cbn [negb].
  destruct (Z.ltb_spec (Z.of_nat (slot t k j) + 1) (size t - 1)); [|done].
  cbn [andb]. rewrite <- IH with (j := S j) by (unfold slot in *; lia).
  f_equal. unfold slot. lia.
Qed.

(** The probe path of a key either stops at a slot or is full of other keys. *)
Lemma stop_or_full t k :
  wf t →
  (∃ d, stops_at (slot t) (reach t) (entries t) k d) ∨
  (∀ d, (d < reach t k)%nat → ¬ stop_slot (entries t) k (slot t k d)).
Proof.
  intros Hwf.
  destruct (decide (Exists (λ d, stop_slot (entries t) k (slot t k d)) (seq 0 (reach t k)))) as [He|He].
  - left. apply Exists_exists in He as (d & Hd%elem_of_seq & Hs).
    destruct (stops_at_exists (slot t) (reach t) (entries t) k d) as (d0 & _ & ?).
    + lia.
    + intros d' Hd'. pose proof (slot_bound t k d'). unfold slot in *. lia.
    + done.
    + by exists d0.
  - right. intros d Hd Hs. apply He. apply Exists_exists. exists d.
    split; [apply elem_of_seq; lia | done].
Qed.

(** [hash_add] entered at the [j]-th slot of the path, when the probe stops. *)
Lemma add_loop_stop t k v d j fuel c :
  wf t → k ≠ 0 → stops_at (slot t) (reach t) (entries t) k d →
  (j ≤ d)%nat → (d - j < fuel)%nat →
  hash_add_loop fuel (MkTable (size t) c (count t) (entries t)) k v (GET_INDEX tgt t k + Z.of_nat j)
  = Ok (true, MkTable (size t) (c + Z.of_nat (d - j))
                (if key_at (entries t) (slot t k d) =? 0 then count t + 1 else count t)
                (<[slot t k d := HashEntry k v]> (entries t))).
Proof.
  intros Hwf Hk (Hd & Hlen & Hstop & Hfirst) Hj. revert c j Hj.
  pose proof (reach_Z t k Hwf). pose proof (home_Z t k Hwf).
  induction fuel as [|fuel IH]; intros c j Hj Hfuel; [lia|]. simpl.
  pose proof (slot_bound t k j ltac:(lia)).
  replace (GET_INDEX tgt t k + Z.of_nat j) with (Z.of_nat (slot t k j)) by (unfold slot; lia).
  rewrite (aget_nat _ _ (entries t !!! slot t k j)) by (apply lookup_total_lookup_lt; lia).
  cbn [mbind outcome_bind]. fold (key_at (entries t) (slot t k j)).
  destruct (decide (j = d)) as [->|Hne].
  - replace (_ || _) with true; cycle 1.
    { destruct Hstop as [->| ->]; [done|]. by rewrite Z.eqb_refl, orb_true_r. }
    rewrite aset_nat by done. cbn [mbind outcome_bind]. do 3 f_equal. lia.
  - assert (¬ stop_slot (entries t) k (slot t k j)) as Hns by (apply Hfirst; lia).
    unfold stop_slot in Hns.
    destruct (Z.eqb_spec (key_at (entries t) (slot t k j)) k); [tauto|].
    destruct (Z.eqb_spec (key_at (entries t) (slot t k j)) 0); [tauto|]. cbn [orb].
    destruct (Z.leb_spec (size t - 1) (Z.of_nat (slot t k j) + 1)); [unfold slot in *; lia|].
    destruct (Z.ltb_spec (Z.of_nat (slot t k j) + 1) (size t - 1)); [|lia].
    replace (Z.of_nat (slot t k j) + 1) with (GET_INDEX tgt t k + Z.of_nat (S j))
      by (unfold slot; lia).
    rewrite IH by lia. do 3 f_equal. lia.
Qed.

Lemma add_loop_full t k v j fuel c :
  wf t → (∀ d, (d < reach t k)%nat → ¬ stop_slot (entries t) k (slot t k d)) →
  (j < reach t k)%nat → (reach t k - j ≤ fuel)%nat →
  hash_add_loop fuel (MkTable (size t) c (count t) (entries t)) k v (GET_INDEX tgt t k + Z.of_nat j)
  = Err Hang.
Proof.
  intros Hwf Hno. revert c j.
  pose proof (reach_Z t k Hwf). pose proof (home_Z t k Hwf).
  induction fuel as [|fuel IH]; intros c j Hj Hfuel; [lia|]. simpl.
  pose proof (slot_bound t k j ltac:(lia)).
  replace (GET_INDEX tgt t k + Z.of_nat j) with (Z.of_nat (slot t k j)) by (unfold slot; lia).
  rewrite (aget_nat _ _ (entries t !!! slot t k j)) by (apply lookup_total_lookup_lt; lia).
  cbn [mbind outcome_bind]. fold (key_at (entries t) (slot t k j)).
  pose proof (Hno j Hj) as Hns. unfold stop_slot in Hns.
  destruct (Z.eqb_spec (key_at (entries t) (slot t k j)) k); [tauto|].
  destruct (Z.eqb_spec (key_at (entries t) (slot t k j)) 0); [tauto|]. cbn [orb].
  destruct (Z.leb_spec (size t - 1) (Z.of_nat (slot t k j) + 1)); [done|].
  destruct (Z.ltb_spec (Z.of_nat (slot t k j) + 1) (size t - 1)); [|lia].
  replace (Z.of_nat (slot t k j) + 1) with (GET_INDEX tgt t k + Z.of_nat (S j))
    by (unfold slot; lia).
  apply IH; unfold slot in *; lia.
Qed.

Lemma wf_insert t k v d c :
  wf t → k ≠ 0 → stops_at (slot t) (reach t) (entries t) k d →
  wf (MkTable (size t) c
        (if key_at (entries t) (slot t k d) =? 0 then count t + 1 else count t)
        (<[slot t k d := HashEntry k v]> (entries t))).
Proof.
  intros Hwf Hk Hst. pose proof Hst as (Hd & Hlen & _).
  pose proof (slot_bound t k d Hd). pose proof (wf_length _ Hwf).
  constructor; simpl; rewrite ?length_insert.
  - done.
  - apply Hwf.
  - rewrite key_at_insert_ne by lia. apply Hwf.
  - rewrite (occupied_insert (slot t) (reach t)) by done. rewrite (wf_count _ Hwf).
    case_decide as Hz; destruct (Z.eqb_spec (key_at (entries t) (slot t k d)) 0); lia || tauto.
  - pose proof (probe_inv_insert (slot t) (reach t) (hash_slot_inj t) (entries t) k v d
                  (wf_probe _ Hwf) Hk Hst) as Hp.
    intros i e Hi He. destruct (Hp i e Hi He) as (d0 & Hd0 & Hs0 & Hf0).
    exists d0. unfold reach, slot, home, GET_INDEX in *. simpl in *.
    by rewrite length_insert.
Qed.
End wf.

Lemma hash_lookup_map tgt t m k :
  wf tgt t → represents (entries t) m → k ≠ 0 →
  hash_lookup tgt t k = Ok (default UINT_MAX (m !! k)).
Proof.
  intros Hwf Hm Hk. unfold hash_lookup.
  replace (GET_INDEX tgt t k) with (GET_INDEX tgt t k + Z.of_nat 0) by lia.
  pose proof (reach_Z tgt t k Hwf). pose proof (GET_INDEX_range tgt t k Hwf).
  pose proof (wf_length _ _ Hwf).
  destruct (stop_or_full tgt t k Hwf) as [[d Hst]|Hno].
  - pose proof Hst as (Hd & _).
    rewrite (lookup_loop_stop tgt t k d) by (try done; unfold reach in *; lia).
    rewrite (stop_lookup _ _ _ m k d (wf_probe _ _ Hwf) Hm Hk Hst).
    case_decide; destruct (Z.eqb_spec (key_at (entries t) (slot tgt t k d)) k); done || tauto.
  - rewrite lookup_loop_miss by (try done; unfold reach in *; lia).
    by rewrite (no_stop_lookup _ _ _ m k (wf_probe _ _ Hwf) Hm Hk Hno).
Qed.

Lemma hash_add_map tgt t m k v :
  wf tgt t → represents (entries t) m → k ≠ 0 →
  (∃ t', hash_add tgt t k v = Ok (true, t') ∧ wf tgt t' ∧
         represents (entries t') (<[k := v]> m) ∧ size t' = size t) ∨
  (hash_add tgt t k v = Err Hang ∧
   ∀ i, GET_INDEX tgt t k ≤ Z.of_nat i < size t - 1 → ¬ stop_slot (entries t) k i).
Proof.
  intros Hwf Hm Hk. unfold hash_add.
  pose proof (reach_Z tgt t k Hwf). pose proof (GET_INDEX_range tgt t k Hwf).
  pose proof (wf_length _ _ Hwf). pose proof (home_Z tgt t k Hwf).
  destruct (stop_or_full tgt t k Hwf) as [[d Hst]|Hno].
  - left. pose proof Hst as (Hd & _).
    pose proof (add_loop_stop tgt t k v d 0 (length (entries t)) (collisions t) Hwf Hk Hst) as Ha.
    rewrite Z.add_0_r in Ha.
    destruct t as [sz c n es]. simpl in *. rewrite Ha by (unfold reach in *; simpl in *; lia).
    eexists. split; [done|]. split_and!; [|eapply represents_insert|]; try done.
    + by apply (wf_insert tgt (MkTable sz c n es)).
    + apply hash_slot_inj.
    + apply (wf_probe _ _ Hwf).
  - right. split.
    + pose proof (add_loop_full tgt t k v 0 (length (entries t)) (collisions t) Hwf Hno) as Ha.
      rewrite Z.add_0_r in Ha.
      destruct t as [sz c n es]. simpl in *. apply Ha; unfold reach in *; simpl in *; lia.
    + intros i Hi. specialize (Hno (i - home tgt t k)%nat). unfold slot, reach in Hno.
      replace (home tgt t k + (i - home tgt t k))%nat with i in Hno by lia.
      apply Hno. lia.
Qed.

(** Clearing touches the keys of the first [n] slots only. *)
Lemma clear_keys_spec n es :
  (n ≤ length es)%nat →
  ∃ es', clear_keys n es = Ok es' ∧ length es' = length es ∧
         (∀ i, (i < length es)%nat →
            es' !! i = Some (if decide (i < n)%nat then HashEntry 0 (value_at es i)
                             else es !!! i)).
Proof.
  revert es. induction n as [|n IH]; intros es Hn.
  - exists es. splits. intros i Hi. by apply lookup_total_lookup_lt.
  - cbn [clear_keys].
    rewrite (aget_nat _ _ (es !!! n)) by (apply lookup_total_lookup_lt; lia).
    cbn [mbind outcome_bind]. rewrite aset_nat by lia. cbn [mbind outcome_bind].
    set (es1 := <[n := HashEntry 0 (value (es !!! n))]> es).
    assert (length es1 = length es) as Hl by apply length_insert.
    destruct (IH es1) as (es' & -> & Hlen & Hes'); [lia|].
    exists es'. split_and!; [done | lia |]. intros i Hi. rewrite Hes' by lia. f_equal.
    unfold value_at. destruct (decide (i = n)) as [->|Hne].
    + rewrite decide_False, decide_True by lia. subst es1.
      by rewrite list_lookup_total_insert_eq by lia.
    + subst es1. rewrite list_lookup_total_insert_ne by done.
      repeat case_decide; done || lia.
Qed.

Lemma hash_init_map tgt t p :
  0 ≤ p ≤ 30 → Z.of_nat (length (entries t)) = 2 ^ p - 1 + CODE_CACHE_HASH_OVERP →
  ∃ t', hash_init t (Z.of_nat (length (entries t))) = Ok t' ∧ wf tgt t' ∧
        represents (entries t') ∅ ∧ count t' = 0 ∧
        hash_lookup tgt t' 0 = Ok (value_at (entries t) 0).
Proof.
  intros Hp Hlen. unfold CODE_CACHE_HASH_OVERP in *.
  pose proof (Z.pow_pos_nonneg 2 p ltac:(lia) ltac:(lia)).
  destruct (clear_keys_spec (length (entries t)) (entries t)) as (es' & Hc & Hl & Hes'); [lia|].
  unfold hash_init. rewrite Nat2Z.id, Hc. cbn [mbind outcome_bind].
  assert (∀ i e, es' !! i = Some e → key e = 0) as Hz.
  { intros i e Hi. pose proof (lookup_lt_Some _ _ _ Hi).
    rewrite Hes' in Hi by lia. rewrite decide_True in Hi by lia. by simplify_eq. }
  eexists. split; [done|]. simpl. split_and!; [| |done|].
  - constructor; simpl.
    + by rewrite Hl.
    + exists p. unfold CODE_CACHE_HASH_OVERP. lia.
    + destruct (lookup_lt_is_Some_2 es' (length es' - 1)) as [e He]; [lia|].
      rewrite (key_at_lookup _ _ _ He). eauto.
    + clear -Hz. induction es' as [|e es IH]; [done|]. rewrite count_occupied_cons.
      rewrite (Hz 0%nat e) by done. simpl. apply IH. intros i. apply (Hz (S i)).
    + intros i e Hi He. by apply Hz in Hi.
  - intros k v. rewrite lookup_empty. split; [done|]. intros (Hk & i & Hi).
    apply Hz in Hi. done.
  - unfold hash_lookup. simpl. rewrite Hl.
    destruct (length (entries t)) as [|n] eqn:Hn; [lia|]. simpl.
    assert (GET_INDEX tgt (MkTable (Z.of_nat (S n)) 0 0 es') 0 = 0) as ->.
    { unfold GET_INDEX. by rewrite Z.shiftr_0_l. }
    pose proof (aget_nat es' 0 (HashEntry 0 (value_at (entries t) 0))) as Ha.
    change (Z.of_nat 0) with 0 in Ha. rewrite Ha; [done|].
    rewrite Hes' by lia. by rewrite decide_True by lia.
Qed.

(** ** Properties *)

(** C14. Looking up a non-zero source address in a well-formed table terminates
    and returns the translated address the represented map holds, or UINT_MAX. *)
Theorem hash_lookup_refines tgt t m k :
  wf tgt t → represents (entries t) m → k ≠ 0 →
  hash_lookup tgt t k = Ok (default UINT_MAX (m !! k)).
Proof. apply hash_lookup_map. Qed.

(** C15. Adding a non-zero source address to a well-formed table either updates
    the represented map at that key only, returns true and keeps the table well
    formed (sentinel and entry count included), or hangs, which it does exactly
    when every slot from the key's home to the sentinel holds another key. *)
Theorem hash_add_refines tgt t m k v :
  wf tgt t → represents (entries t) m → k ≠ 0 →
  (∃ t', hash_add tgt t k v = Ok (true, t') ∧ wf tgt t' ∧
         represents (entries t') (<[k := v]> m) ∧ size t' = size t) ∨
  (hash_add tgt t k v = Err Hang ∧
   ∀ i, GET_INDEX tgt t k ≤ Z.of_nat i < size t - 1 → ¬ stop_slot (entries t) k i).
Proof. apply hash_add_map. Qed.

(** [hash_init] with the array's length makes a well-formed empty table
    whatever the array held: no non-zero key is found. The stored values stay,
    so looking up key 0 hits the first probed slot and returns its old value,
    not UINT_MAX. *)
Theorem hash_init_spec tgt t p :
  0 ≤ p ≤ 30 → Z.of_nat (length (entries t)) = 2 ^ p - 1 + CODE_CACHE_HASH_OVERP →
  ∃ t', hash_init t (Z.of_nat (length (entries t))) = Ok t' ∧ wf tgt t' ∧
        represents (entries t') ∅ ∧ count t' = 0 ∧
        hash_lookup tgt t' 0 = Ok (value_at (entries t) 0).
Proof. apply hash_init_map. Qed.

(** ** Instances of the theorems *)

(** A table of 17 slots: home slots 0..7, overflow area, sentinel. *)
Definition empty17 : hash_table := MkTable 17 0 0 (replicate 17 (HashEntry 0 0)).
Definition one17 : hash_table :=
  MkTable 17 0 1 (<[3%nat := HashEntry 12 50]> (replicate 17 (HashEntry 0 0))).
(** The same size, with stale values left by earlier use. *)
Definition stale17 : hash_table := MkTable 17 4 2 (replicate 17 (HashEntry 9 77)).

Lemma empty17_wf : wf aarch64 empty17 ∧ represents (entries empty17) ∅.
Proof.
  split; [|apply represents_replicate]. constructor; try done.
  - by exists 3.
  - intros i e Hi He. apply lookup_replicate in Hi as [-> _]. simpl in He. lia.
Qed.

Lemma one17_wf : wf aarch64 one17 ∧ represents (entries one17) {[12 := 50]}.
Proof.
  destruct empty17_wf as [Hwf Hm].
  assert (stops_at (slot aarch64 empty17) (reach aarch64 empty17) (entries empty17) 12 0) as Hst.
  { split_and!; [vm_compute; lia | vm_compute; lia | by left |]. intros. lia. }
  split.
  - apply (wf_insert aarch64 empty17 12 50 0 0 Hwf); done.
  - eapply (represents_insert (slot aarch64 empty17) (reach aarch64 empty17)
              (hash_slot_inj aarch64 empty17) (entries empty17) ∅ 12 50 0); try done. apply Hwf.
Qed.

Lemma hash_lookup_refines_witness :
  hash_lookup aarch64 one17 12 = Ok 50 ∧ hash_lookup aarch64 one17 16 = Ok UINT_MAX.
Proof.
  split.
  - rewrite (hash_lookup_refines aarch64 one17 {[12 := 50]} 12);
      [vm_compute; reflexivity | apply one17_wf.. | lia].
  - rewrite (hash_lookup_refines aarch64 one17 {[12 := 50]} 16);
      [vm_compute; reflexivity | apply one17_wf.. | lia].
Defined.

Lemma hash_add_refines_witness :
  (∃ t', hash_add aarch64 one17 44 60 = Ok (true, t') ∧ wf aarch64 t' ∧
         represents (entries t') (<[44 := 60]> {[12 := 50]}) ∧ size t' = 17) ∨
  (hash_add aarch64 one17 44 60 = Err Hang ∧
   ∀ i, GET_INDEX aarch64 one17 44 ≤ Z.of_nat i < 16 → ¬ stop_slot (entries one17) 44 i).
Proof.
  apply (hash_add_refines aarch64 one17 {[12 := 50]} 44 60); [apply one17_wf.. | lia].
Defined.

Lemma hash_init_spec_witness :
  ∃ t', hash_init stale17 17 = Ok t' ∧ wf riscv t' ∧ represents (entries t') ∅ ∧
        count t' = 0 ∧ hash_lookup riscv t' 0 = Ok 77.
Proof. apply (hash_init_spec riscv stale17 3); [lia | reflexivity]. Defined.
End CodeCacheHash.
