(* ===== verification/IntervalMap.v ===== *)
(** * The interval map (common.c)

    [interval_map] records the executable mappings of the application: an
    unordered array of half-open address ranges, each with an owned file
    descriptor or a negative number. The operations run under the map's mutex
    and duplicate or close descriptors; the model threads the set of open
    descriptors through them. *)
From S2P Require Import Prelude.

Module IntervalMap.

Record interval_map_entry := Entry { start : Z; end_ : Z; fd : Z }.
#[global] Instance entry_inhabited : Inhabited interval_map_entry := populate (Entry 0 0 (-1)).
#[global] Instance entry_eq_dec : EqDecision interval_map_entry.
Proof. solve_decision. Defined.

(** [entries] is the whole allocated array; the first [entry_count] elements
    are in use. *)
Record interval_map := IMap {
  mem_size : Z;
  entry_count : Z;
  mutex : bool;
  entries : list interval_map_entry
}.

(** The map and the descriptors the process has open. *)
Record state := State { imap : interval_map; open_fds : gset Z }.

Definition with_entries (es : list interval_map_entry) (m : interval_map) : interval_map :=
  IMap (mem_size m) (entry_count m) (mutex m) es.
Definition with_count (c : Z) (m : interval_map) : interval_map :=
  IMap (mem_size m) c (mutex m) (entries m).
Definition with_mutex (b : bool) (m : interval_map) : interval_map :=
  IMap (mem_size m) (entry_count m) b (entries m).
Definition on_imap (f : interval_map → interval_map) (s : state) : state :=
  State (f (imap s)) (open_fds s).

(** [dup]: the lowest descriptor that is not open, -1 for a closed argument. *)
Definition lowest_free (s : gset Z) : Z :=
  match list_find (λ z, z ∉ s) (Z.of_nat <$> seq 0 (S (size s))) with
  | Some (_, z) => z
  | None => -1
  end.
Definition dup (f : Z) (s : state) : Z * state :=
  if decide (f ∈ open_fds s) then
    let f' := lowest_free (open_fds s) in (f', State (imap s) ({[f']} ∪ open_fds s))
  else (-1, s).
Definition close (f : Z) (s : state) : state :=
  State (imap s) (open_fds s ∖ {[f]}).

Definition mutex_lock (s : state) : outcome state :=
  if mutex (imap s) then Err Hang else Ok (on_imap (with_mutex true) s).
Definition mutex_unlock (s : state) : outcome state :=
  _ ← c_assert (mutex (imap s)); Ok (on_imap (with_mutex false) s).

Definition interval_map_delete_entry (s : state) (index : Z) : outcome (Z * state) :=
  let m := imap s in
  if (index <? 0) || (entry_count m <=? index) then Ok (-1, s)
  else
    e ← aget (entries m) index;
    let s := if 0 <=? fd e then close (fd e) s else s in
    es ← (if 2 <=? entry_count m
          then last ← aget (entries m) (entry_count m - 1); aset (entries m) index last
          else Ok (entries m));
    Ok (0, on_imap (λ m, with_count (entry_count m - 1) (with_entries es m)) s).

Definition interval_map_add_entry (s : state) (st en f : Z) : outcome (Z * state) :=
  let m := imap s in
  if (mem_size m <=? entry_count m) || (en <=? st) then Ok (-1, s)
  else
    es ← aset (entries m) (entry_count m) (Entry st en f);
    Ok (0, on_imap (λ m, with_count (entry_count m + 1) (with_entries es m)) s).

(** [malloc] and [pthread_mutex_init] may fail. *)
Definition interval_map_init (malloc_ok mutex_ok : bool) (sz : Z) : outcome (Z * option interval_map) :=
  _ ← c_assert (0 <? sz);
  if negb malloc_ok then Ok (-1, None)
  else
    let m := IMap sz 0 false (replicate (Z.to_nat sz) (Entry 0 0 0)) in
    Ok (if mutex_ok then 0 else -1, Some m).

Definition overlaps (st en : Z) (e : interval_map_entry) : bool :=
  (st <? end_ e) && (start e <? en).

(** The loop of [interval_map_add] over [i = n - 1, ..., 0]; its variables are
    the map, [start], [end] and [overlap_ind]. *)
Fixpoint add_loop (n : nat) (s : state) (st en f ind : Z) : outcome (state * Z * Z * Z) :=
  match n with
  | O => Ok (s, st, en, ind)
  | S n =>
      let i := Z.of_nat n in
      e ← aget (entries (imap s)) i;
      if overlaps st en e then
        _ ← c_assert ((f <? 0) && (fd e <? 0));
        x ← (if ind =? -1 then Ok (s, st, en, i)
             else
               let st := Z.min (start e) st in
               let en := Z.max (end_ e) en in
               r ← interval_map_delete_entry s i;
               _ ← c_assert (fst r =? 0);
               Ok (snd r, st, en, ind));
        let '(s, st, en, ind) := x in
        o ← aget (entries (imap s)) ind;
        es ← aset (entries (imap s)) ind (Entry (Z.min (start o) st) (Z.max (end_ o) en) (fd o));
        add_loop n (on_imap (with_entries es) s) st en f ind
      else add_loop n s st en f ind
  end.

Definition interval_map_add (s : state) (st en f : Z) : outcome (Z * state) :=
  if en <=? st then Ok (-1, s)
  else
    x ← (if 0 <=? f
         then let '(f, s) := dup f s in _ ← c_assert (0 <=? f); Ok (f, s)
         else Ok (f, s));
    let '(f, s) := x in
    s ← mutex_lock s;
    r ← add_loop (Z.to_nat (entry_count (imap s))) s st en f (-1);
    let '(s, st, en, ind) := r in
    s ← (if ind =? -1 then
           r ← interval_map_add_entry s st en f;
           _ ← c_assert (fst r =? 0); Ok (snd r)
         else Ok s);
    s ← mutex_unlock s;
    Ok (0, s).

Fixpoint search_loop (n : nat) (es : list interval_map_entry) (st en status : Z) : outcome Z :=
  match n with
  | O => Ok status
  | S n =>
      e ← aget es (Z.of_nat n);
      search_loop n es st en (if overlaps st en e then status + 1 else status)
  end.

Definition interval_map_search (s : state) (st en : Z) : outcome (Z * state) :=
  if en <=? st then Ok (-1, s)
  else
    s ← mutex_lock s;
    status ← search_loop (Z.to_nat (entry_count (imap s))) (entries (imap s)) st en 0;
    s ← mutex_unlock s;
    Ok (status, s).

Fixpoint search_addr_loop (n : nat) (es : list interval_map_entry) (addr : Z)
    : outcome (option interval_map_entry) :=
  match n with
  | O => Ok None
  | S n =>
      e ← aget es (Z.of_nat n);
      if (start e <=? addr) && (addr <? end_ e) then Ok (Some e)
      else search_addr_loop n es addr
  end.

(** The entry is the one copied to [*entry]. *)
Definition interval_map_search_by_addr (s : state) (addr : Z)
    : outcome (Z * option interval_map_entry * state) :=
  s ← mutex_lock s;
  r ← search_addr_loop (Z.to_nat (entry_count (imap s))) (entries (imap s)) addr;
  s ← mutex_unlock s;
  Ok (match r with Some _ => 1 | None => 0 end, r, s).

(** What [interval_map_delete] does with the overlapping entry [e] at index [i]. *)
Definition delete_hit (s : state) (i : Z) (e : interval_map_entry) (st en : Z) : outcome state :=
  if (st <=? start e) && (end_ e <=? en) then
    r ← interval_map_delete_entry s i;
    _ ← c_assert (fst r =? 0);
    Ok (snd r)
  else if (st =? start e) && (en <? end_ e) then
    es ← aset (entries (imap s)) i (Entry en (end_ e) (fd e));
    Ok (on_imap (with_entries es) s)
  else if (en =? end_ e) && (start e <? st) then
    es ← aset (entries (imap s)) i (Entry (start e) st (fd e));
    Ok (on_imap (with_entries es) s)
  else
    es ← aset (entries (imap s)) i (Entry (start e) st (fd e));
    let s := on_imap (with_entries es) s in
    x ← (if 0 <=? fd e
         then let '(f, s) := dup (fd e) s in _ ← c_assert (0 <=? f); Ok (f, s)
         else Ok (fd e, s));
    let '(f, s) := x in
    r ← interval_map_add_entry s en (end_ e) f;
    _ ← c_assert (fst r =? 0);
    Ok (snd r).

Fixpoint delete_loop (n : nat) (s : state) (st en status : Z) : outcome (state * Z) :=
  match n with
  | O => Ok (s, status)
  | S n =>
      e ← aget (entries (imap s)) (Z.of_nat n);
      if overlaps st en e then
        s ← delete_hit s (Z.of_nat n) e st en;
        delete_loop n s st en (status + 1)
      else delete_loop n s st en status
  end.

Definition interval_map_delete (s : state) (st en : Z) : outcome (Z * state) :=
  if en <=? st then Ok (-1, s)
  else
    s ← mutex_lock s;
    r ← delete_loop (Z.to_nat (entry_count (imap s))) s st en 0;
    s ← mutex_unlock (fst r);
    Ok (snd r, s).

(** ** The entries in use *)

(** The array of the map starts with the entries [l], which are those in use. *)
Definition in_use (s : state) (l : list interval_map_entry) : Prop :=
  ∃ rest, entries (imap s) = l ++ rest ∧ entry_count (imap s) = Z.of_nat (length l) ∧
          mem_size (imap s) = Z.of_nat (length l + length rest).

(** Address ranges as pairs, and how many of them contain an address. *)
Definition ival (e : interval_map_entry) : Z * Z := (start e, end_ e).
Definition inside (a : Z) (p : Z * Z) : Prop := fst p ≤ a < snd p.
#[global] Instance inside_dec a p : Decision (inside a p).
Proof. unfold inside. apply _. Defined.
Definition mult (l : list interval_map_entry) (a : Z) : nat := count (inside a) (ival <$> l).

(** The descriptors the entries own. *)
Definition owned (l : list interval_map_entry) : list Z := filter (λ f, 0 ≤ f) (fd <$> l).

(** The process has the descriptors of [base] open and those owned by the
    entries, each owned once. *)
Definition fds_ok (base : gset Z) (s : state) (l : list interval_map_entry) : Prop :=
  NoDup (owned l) ∧ (∀ f, f ∈ owned l → f ∉ base) ∧
  (∀ f, f ∈ open_fds s ↔ f ∈ base ∨ f ∈ owned l).

Lemma mult_app l1 l2 a : mult (l1 ++ l2) a = (mult l1 a + mult l2 a)%nat.
Proof. unfold mult. by rewrite fmap_app, count_app. Qed.

Lemma mult_cons e l a :
  mult (e :: l) a = ((if decide (inside a (ival e)) then 1 else 0) + mult l a)%nat.
Proof. unfold mult. by rewrite fmap_cons, count_cons. Qed.

Lemma mult_nil a : mult [] a = 0%nat.
Proof. done. Qed.

Lemma owned_app l1 l2 : owned (l1 ++ l2) = owned l1 ++ owned l2.
Proof. unfold owned. by rewrite fmap_app, filter_app. Qed.

Lemma owned_cons e l : owned (e :: l) = if decide (0 ≤ fd e) then fd e :: owned l else owned l.
Proof. unfold owned. by rewrite fmap_cons, filter_cons. Qed.

#[global] Instance owned_proper : Proper ((≡ₚ) ==> (≡ₚ)) owned.
Proof. intros l1 l2 Hp. unfold owned. by rewrite Hp. Qed.

Lemma fds_ok_perm base s l1 l2 : l1 ≡ₚ l2 → fds_ok base s l1 → fds_ok base s l2.
Proof.
  intros Hp (Hnd & Hdisj & Hopen). apply owned_proper in Hp.
  split_and!; [by rewrite <- Hp | |].
  - intros f. rewrite <- Hp. apply Hdisj.
  - intros f. rewrite <- Hp. apply Hopen.
Qed.

Lemma lowest_free_spec (s : gset Z) : 0 ≤ lowest_free s ∧ lowest_free s ∉ s.
Proof.
  unfold lowest_free. destruct (list_find _ _) as [[i z]|] eqn:Hf.
  - apply list_find_Some in Hf as (Hi & Hz & _). split; [|done].
    apply list_lookup_fmap_Some in Hi as (n & Hn & _). lia.
  - exfalso. apply list_find_None in Hf. rewrite Forall_forall in Hf.
    assert (list_to_set (Z.of_nat <$> seq 0 (S (size s))) ⊆ s) as Hsub.
    { intros z Hz%elem_of_list_to_set. destruct (decide (z ∈ s)); [done|].
      exfalso. by apply (Hf z). }
    apply subseteq_size in Hsub. rewrite size_list_to_set in Hsub.
    + rewrite length_fmap, length_seq in Hsub. lia.
    + apply NoDup_fmap; [apply _|]. apply NoDup_seq.
Qed.

Lemma in_use_aget s l1 e l2 :
  in_use s (l1 ++ e :: l2) → aget (entries (imap s)) (Z.of_nat (length l1)) = Ok e.
Proof.
  intros (rest & He & _). apply aget_nat. rewrite He, <- app_assoc. simpl.
  by apply list_lookup_middle.
Qed.

Lemma in_use_aset s l1 e l2 e' :
  in_use s (l1 ++ e :: l2) →
  ∃ es, aset (entries (imap s)) (Z.of_nat (length l1)) e' = Ok es ∧
        in_use (on_imap (with_entries es) s) (l1 ++ e' :: l2).
Proof.
  intros (rest & He & Hc & Hm). eexists. split.
  - apply aset_nat. rewrite He, !length_app. simpl. lia.
  - exists rest. simpl. split_and!.
    + rewrite He, <- !app_assoc. simpl.
      rewrite insert_app_r_alt by lia. by rewrite Nat.sub_diag.
    + rewrite Hc, !length_app. done.
    + rewrite Hm, !length_app. done.
Qed.

(** [if (entries[index].fd >= 0) close(entries[index].fd);] *)
Lemma fds_ok_close base s l1 e l2 :
  fds_ok base s (l1 ++ e :: l2) →
  fds_ok base (if 0 <=? fd e then close (fd e) s else s) (l1 ++ l2).
Proof.
  intros (Hnd & Hdisj & Hopen). unfold fds_ok in *. rewrite !owned_app, owned_cons in *.
  destruct (Z.leb_spec 0 (fd e)) as [Hfd|Hfd]; case_decide; try lia; [|done].
  rewrite <- Permutation_middle in Hnd. apply NoDup_cons in Hnd as [Hn Hnd].
  split_and!; [done | intros f; specialize (Hdisj f); set_solver |].
  intros f. simpl. specialize (Hopen f). specialize (Hdisj (fd e)).
  rewrite elem_of_difference, elem_of_singleton, Hopen.
  rewrite !elem_of_app, elem_of_cons in *.
  destruct (decide (f = fd e)) as [->|]; naive_solver.
Qed.

(** What is left of the array when the entry at [length l1] is deleted. *)
Lemma in_use_delete s l1 e l2 :
  in_use s (l1 ++ e :: l2) →
  ∃ es l2', (if 2 <=? entry_count (imap s)
             then last ← aget (entries (imap s)) (entry_count (imap s) - 1);
                  aset (entries (imap s)) (Z.of_nat (length l1)) last
             else Ok (entries (imap s))) = Ok es ∧ l2' ≡ₚ l2 ∧
    ∀ fds, in_use (State (with_count (entry_count (imap s) - 1) (with_entries es (imap s))) fds)
                  (l1 ++ l2').
Proof.
  intros Huse. pose proof Huse as (rest & He & Hc & Hm). rewrite !length_app in *. simpl in *.
  assert (∀ x, aget (entries (imap s)) (entry_count (imap s) - 1) = Ok x ↔
               (l1 ++ e :: l2 ++ rest) !! (length l1 + length l2)%nat = Some x) as Hlast.
  { intros x. rewrite aget_ok, He, <- app_assoc. simpl.
    replace (Z.to_nat (entry_count (imap s) - 1)) with (length l1 + length l2)%nat by lia.
    split; [by intros [_ ?] | intros; split; [lia | done]]. }
  induction l2 as [|x l2 _] using rev_ind.
  - exists (entries (imap s)), []. split_and!; [|done|].
    + destruct (Z.leb_spec 2 (entry_count (imap s))); [|done].
      rewrite (proj2 (Hlast e)); cbn [mbind outcome_bind].
      * destruct (in_use_aset s l1 e [] e Huse) as (es & Hes & _). rewrite Hes.
        apply aset_ok in Hes as [_ ->]. f_equal. apply list_insert_id.
        rewrite Nat2Z.id, He, <- app_assoc. by apply list_lookup_middle.
      * rewrite Nat.add_0_r. by apply list_lookup_middle.
    + intros fds. exists (e :: rest). simpl. rewrite He, app_nil_r, <- app_assoc.
      simpl in *. splits.
  - destruct (in_use_aset s l1 e (l2 ++ [x]) x Huse) as (es & Hes & _).
    exists es, (x :: l2). rewrite length_app in *. simpl in *.
    destruct (Z.leb_spec 2 (entry_count (imap s))); [|lia].
    rewrite (proj2 (Hlast x)); cbn [mbind outcome_bind].
    + split_and!; [done | by rewrite Permutation_app_comm |].
      intros fds. exists (x :: rest). apply aset_ok in Hes as [_ ->].
      simpl. rewrite Nat2Z.id, He, <- !app_assoc, !length_app. simpl.
      rewrite insert_app_r_alt by lia. rewrite Nat.sub_diag. simpl.
      rewrite <- !app_assoc. splits.
    + rewrite lookup_app_r by lia. replace (_ + _ - _)%nat with (S (length l2)) by lia.
      simpl. rewrite <- app_assoc. by apply list_lookup_middle.
Qed.

(** Deletion overwrites the entry with the last one and closes its descriptor. *)
Lemma delete_entry_spec s l1 e l2 base :
  in_use s (l1 ++ e :: l2) → fds_ok base s (l1 ++ e :: l2) →
  ∃ s' l2', interval_map_delete_entry s (Z.of_nat (length l1)) = Ok (0, s') ∧
    in_use s' (l1 ++ l2') ∧ l2' ≡ₚ l2 ∧ fds_ok base s' (l1 ++ l2') ∧
    mem_size (imap s') = mem_size (imap s) ∧ mutex (imap s') = mutex (imap s).
Proof.
  intros Huse Hfds. pose proof Huse as (rest & He & Hc & Hm).
  rewrite !length_app in *. simpl in *.
  destruct (in_use_delete s l1 e l2 Huse) as (es & l2' & Hes & Hp & Huse').
  apply fds_ok_close in Hfds.
  unfold interval_map_delete_entry.
  destruct (Z.ltb_spec (Z.of_nat (length l1)) 0); [lia|].
  destruct (Z.leb_spec (entry_count (imap s)) (Z.of_nat (length l1))); [lia|]. cbn [orb].
  rewrite (in_use_aget s l1 e l2 Huse). cbn [mbind outcome_bind]. rewrite Hes. cbn [mbind outcome_bind].
  set (s1 := if 0 <=? fd e then close (fd e) s else s) in *.
  assert (imap s1 = imap s) as Hi1 by (subst s1; by destruct (0 <=? fd e)).
  eexists _, l2'. split; [done|]. unfold on_imap. rewrite Hi1.
  split_and!; [apply Huse' | done | | done | done].
  eapply (fds_ok_perm base _ (l1 ++ l2)); [by rewrite Hp|]. exact Hfds.
Qed.

Lemma fds_ok_ext base s1 s2 l1 l2 :
  owned l1 = owned l2 → open_fds s1 = open_fds s2 → fds_ok base s1 l1 → fds_ok base s2 l2.
Proof. unfold fds_ok. by intros -> ->. Qed.

Lemma fds_ok_snoc_none base s l e : fd e < 0 → fds_ok base s l → fds_ok base s (l ++ [e]).
Proof.
  intros Hf. apply fds_ok_ext; [|done]. rewrite owned_app, owned_cons.
  case_decide; [lia|]. by rewrite app_nil_r.
Qed.

(** A duplicated descriptor is new, and can be owned by a new entry. *)
Lemma dup_spec base s l f :
  fds_ok base s l → f ∈ open_fds s →
  ∃ f' s', dup f s = (f', s') ∧ imap s' = imap s ∧ 0 ≤ f' ∧
           ∀ e, fd e = f' → fds_ok base s' (l ++ [e]).
Proof.
  intros (Hnd & Hdisj & Hopen) Hf. unfold dup. rewrite decide_True by done.
  destruct (lowest_free_spec (open_fds s)) as [Hpos Hnew].
  eexists _, _. split; [done|]. split_and!; [done | done |]. intros e He.
  rewrite Hopen in Hnew. unfold fds_ok. rewrite owned_app, owned_cons, He.
  rewrite decide_True by done. simpl. split_and!.
  - apply NoDup_app. split_and!; [done | | apply NoDup_singleton].
    intros z Hz [->|[]%not_elem_of_nil]%elem_of_cons. tauto.
  - intros z [Hz|[->|[]%not_elem_of_nil]%elem_of_cons]%elem_of_app; [auto | tauto].
  - intros z. rewrite elem_of_union, elem_of_singleton, Hopen, elem_of_app, elem_of_cons.
    pose proof (not_elem_of_nil z). tauto.
Qed.

Lemma add_entry_spec s l e :
  in_use s l → Z.of_nat (length l) < mem_size (imap s) → start e < end_ e →
  ∃ s', interval_map_add_entry s (start e) (end_ e) (fd e) = Ok (0, s') ∧
        in_use s' (l ++ [e]) ∧ open_fds s' = open_fds s ∧
        mem_size (imap s') = mem_size (imap s) ∧ mutex (imap s') = mutex (imap s).
Proof.
  intros (rest & He & Hc & Hm) Hroom Hlt. unfold interval_map_add_entry.
  destruct (Z.leb_spec (mem_size (imap s)) (entry_count (imap s))); [lia|].
  destruct (Z.leb_spec (end_ e) (start e)); [lia|]. cbn [orb].
  destruct rest as [|x rest]; [simpl in *; lia|].
  rewrite Hc, aset_nat by (rewrite He, length_app; simpl; lia). cbn [mbind outcome_bind].
  eexists. split; [done|]. split_and!; try done.
  exists rest. simpl. rewrite He, Hc, !length_app, <- app_assoc. simpl in *.
  rewrite insert_app_r_alt, Nat.sub_diag by lia. destruct e. splits.
Qed.

(** ** Removing a range *)

(** What is left of an entry. *)
Definition cut (st en : Z) (e : interval_map_entry) : list (Z * Z) :=
  if overlaps st en e
  then (if start e <? st then [(start e, st)] else []) ++
       (if en <? end_ e then [(en, end_ e)] else [])
  else [ival e].

(** The range does not cut through exactly one end of the entry. *)
Definition no_straddle (st en : Z) (e : interval_map_entry) : Prop :=
  overlaps st en e = true →
  (st ≤ start e ∧ end_ e ≤ en) ∨ (start e ≤ st ∧ en ≤ end_ e).

(** The entry is split in two. *)
Definition is_split (st en : Z) (e : interval_map_entry) : Prop :=
  start e < st ∧ en < end_ e.
#[global] Instance is_split_dec st en e : Decision (is_split st en e).
Proof. unfold is_split. apply _. Defined.

Lemma delete_hit_spec s l1 e l2 st en base :
  st < en → start e < end_ e → overlaps st en e = true → no_straddle st en e →
  in_use s (l1 ++ e :: l2) → fds_ok base s (l1 ++ e :: l2) →
  (is_split st en e → Z.of_nat (length (l1 ++ e :: l2)) < mem_size (imap s)) →
  ∃ s' l2', delete_hit s (Z.of_nat (length l1)) e st en = Ok s' ∧ in_use s' (l1 ++ l2') ∧
    fds_ok base s' (l1 ++ l2') ∧ (ival <$> l2') ≡ₚ cut st en e ++ (ival <$> l2) ∧
    mem_size (imap s') = mem_size (imap s) ∧ mutex (imap s') = mutex (imap s).
Proof.
  intros Hst He Hov Hns Huse Hfds Hroom. specialize (Hns Hov).
  unfold delete_hit, cut, is_split in *. rewrite Hov. unfold overlaps in Hov.
  assert ((st ≤ start e ∧ end_ e ≤ en) ∨ (st = start e ∧ en < end_ e) ∨
          (start e < st ∧ en = end_ e) ∨ (start e < st ∧ en < end_ e)) as Hcase by lia.
  assert (∀ e', fd e' = fd e → ∀ es,
            fds_ok base (on_imap (with_entries es) s) (l1 ++ e' :: l2)) as Hfds'.
  { intros e' Hfd es. eapply fds_ok_ext; [| |exact Hfds]; [|done].
    by rewrite !owned_app, !owned_cons, Hfd. }
  destruct Hcase as [Hc|[Hc|[Hc|Hc]]].
  - tests [(st <=? start e, true); (end_ e <=? en, true); (start e <? st, false); (en <? end_ e, false)].
    destruct (delete_entry_spec s l1 e l2 base Huse Hfds) as (s' & l2' & -> & ? & Hp & ? & ? & ?).
    cbn [mbind outcome_bind]. exists s', l2'. split_and!; try done. by rewrite Hp.
  - tests [(end_ e <=? en, false); (st =? start e, true); (start e <? st, false); (en <? end_ e, true)].
    destruct (in_use_aset s l1 e l2 (Entry en (end_ e) (fd e)) Huse) as (es & -> & Huse').
    eexists _, (Entry en (end_ e) (fd e) :: l2). split_and!; try done. by apply Hfds'.
  - tests [(st <=? start e, false); (st =? start e, false); (en =? end_ e, true); (start e <? st, true); (en <? end_ e, false)].
    destruct (in_use_aset s l1 e l2 (Entry (start e) st (fd e)) Huse)  as (es & -> & Huse').
    eexists _, (Entry (start e) st (fd e) :: l2). split_and!; try done. by apply Hfds'.
  - tests [(st <=? start e, false); (st =? start e, false); (en =? end_ e, false); (start e <? st, true); (en <? end_ e, true)].
    destruct (in_use_aset s l1 e l2 (Entry (start e) st (fd e)) Huse) as (es & -> & Huse').
    specialize (Hfds' (Entry (start e) st (fd e)) eq_refl es). cbn [mbind outcome_bind].
    set (s1 := on_imap (with_entries es) s) in *.
    assert (∃ f s2, (if 0 <=? fd e
         then let '(f, s) := dup (fd e) s1 in _ ← c_assert (0 <=? f); Ok (f, s)
         else Ok (fd e, s1)) = Ok (f, s2) ∧ imap s2 = imap s1 ∧
         ∀ e', fd e' = f → fds_ok base s2 ((l1 ++ Entry (start e) st (fd e) :: l2) ++ [e']))
      as (f & s2 & -> & Himap & Hf2).
    { destruct (Z.leb_spec 0 (fd e)).
      - destruct (dup_spec base s1 _ (fd e) Hfds') as (f & s2 & -> & ? & ? & ?).
        + destruct Hfds' as (_ & _ & Hopen). apply Hopen. right.
          rewrite owned_app, owned_cons, decide_True by done. set_solver.
        + destruct (Z.leb_spec 0 f); [|lia]. by exists f, s2.
      - exists (fd e), s1. split_and!; try done. intros e' Hfd.
        apply fds_ok_snoc_none; [lia | done]. }
    cbn [mbind outcome_bind].
    destruct (add_entry_spec s2 (l1 ++ Entry (start e) st (fd e) :: l2) (Entry en (end_ e) f))
      as (s3 & Hadd & Huse3 & Hopen3 & Hmem3 & Hmtx3).
    + unfold in_use. rewrite Himap. exact Huse'.
    + rewrite Himap. simpl. rewrite length_app in *. simpl in *. lia.
    + simpl. lia.
    + cbn [start end_ fd] in Hadd. rewrite Hadd. cbn [mbind outcome_bind].
      rewrite <- app_assoc in Huse3.
      eexists _, ((Entry (start e) st (fd e) :: l2) ++ [Entry en (end_ e) f]).
      split_and!; try done; try congruence.
      * eapply fds_ok_ext; [| |exact (Hf2 (Entry en (end_ e) f) eq_refl)]; [|done].
        by rewrite <- app_assoc.
      * rewrite fmap_app. simpl. apply Permutation_skip. by rewrite Permutation_app_comm.
      * cbn [snd]. rewrite Hmem3, Himap. done.
      * cbn [snd]. rewrite Hmtx3, Himap. done.
Qed.

Definition hit (st en : Z) (e : interval_map_entry) : Prop := overlaps st en e = true.
#[global] Instance hit_dec st en e : Decision (hit st en e).
Proof. unfold hit. apply _. Defined.

Definition valid (e : interval_map_entry) : Prop := start e < end_ e.

Lemma delete_loop_spec st en base l1 : ∀ l2 s status,
  st < en → in_use s (l1 ++ l2) → fds_ok base s (l1 ++ l2) →
  Forall valid l1 → Forall (no_straddle st en) l1 →
  Z.of_nat (length (l1 ++ l2) + count (is_split st en) l1) ≤ mem_size (imap s) →
  ∃ s' l', delete_loop (length l1) s st en status
             = Ok (s', status + Z.of_nat (count (hit st en) l1)) ∧
    in_use s' l' ∧ fds_ok base s' l' ∧
    (ival <$> l') ≡ₚ (l1 ≫= cut st en) ++ (ival <$> l2) ∧
    mutex (imap s') = mutex (imap s).
Proof.
  induction l1 as [|e l1 IH] using rev_ind; intros l2 s status Hst Huse Hfds Hval Hns Hroom.
  - exists s, l2. split_and!; try done. by rewrite count_nil, Z.add_0_r.
  - rewrite <- app_assoc in *. simpl in Huse, Hfds.
    apply Forall_app in Hval as [Hval He]. apply Forall_cons in He as [He _].
    apply Forall_app in Hns as [Hns Hse]. apply Forall_cons in Hse as [Hse _].
    rewrite !count_app, count_cons, count_nil in *.
    rewrite length_app, Nat.add_comm. simpl length. cbn [delete_loop Nat.add].
    rewrite (in_use_aget s l1 e l2 Huse). cbn [mbind outcome_bind].
    rewrite bind_app. destruct (overlaps st en e) eqn:Hov.
    + destruct (delete_hit_spec s l1 e l2 st en base Hst He Hov Hse Huse Hfds)
        as (s' & l2' & -> & Hu & Hf & Hp & Hm & Hx).
      { intros Hsp. rewrite (decide_True (P := is_split st en e)) in Hroom by done.
        simpl in *. lia. }
      cbn [mbind outcome_bind].
      destruct (IH l2' s' (status + 1)) as (s2 & l' & -> & ? & ? & Hp' & ?); try done.
      { pose proof (Permutation_length Hp) as Hlen. rewrite length_app, !length_fmap in Hlen.
        assert (length (cut st en e) ≤ 1 + if decide (is_split st en e) then 1 else 0)%nat.
        { unfold cut. rewrite Hov.
          destruct (decide (is_split st en e)) as [Hd|Hd]; unfold is_split in Hd;
            destruct (Z.ltb_spec (start e) st), (Z.ltb_spec en (end_ e)); simpl; lia. }
        rewrite Hm, !length_app in *. simpl in *. lia. }
      exists s2, l'. rewrite (decide_True (P := hit st en e)) by done.
      split_and!; [do 2 f_equal; lia | done | done | | congruence].
      rewrite Hp', Hp. simpl. by rewrite app_nil_r, app_assoc.
    + destruct (IH (e :: l2) s status) as (s2 & l' & -> & ? & ? & Hp' & ?); try done.
      { simpl in *. lia. }
      exists s2, l'. rewrite (decide_False (P := hit st en e)) by (unfold hit; by rewrite Hov).
      split_and!; [do 2 f_equal; lia | done | done | | done].
      rewrite Hp'. simpl.
      replace (cut st en e) with [ival e] by (unfold cut; by rewrite Hov).
      by rewrite <- app_assoc.
Qed.

(** Cutting removes exactly the addresses of the range. *)
Lemma count_cut st en e a :
  st < en → valid e → no_straddle st en e →
  count (inside a) (cut st en e)
  = if decide (st ≤ a < en) then 0%nat else if decide (inside a (ival e)) then 1%nat else 0%nat.
Proof.
  unfold valid, no_straddle, cut, overlaps, inside, ival. intros Hst He Hns.
  destruct (Z.ltb_spec st (end_ e)), (Z.ltb_spec (start e) en); cbn [andb] in *;
    try specialize (Hns eq_refl);
    repeat match goal with
    | |- context [Z.ltb ?x ?y] => destruct (Z.ltb_spec x y)
    end; cbn [app]; rewrite ?count_cons, ?count_nil; cbn [fst snd];
    repeat case_decide; simpl in *; lia.
Qed.

Lemma count_bind_cut st en l a :
  st < en → Forall valid l → Forall (no_straddle st en) l →
  count (inside a) (l ≫= cut st en) = if decide (st ≤ a < en) then 0%nat else mult l a.
Proof.
  intros Hst Hv Hn. induction l as [|e l IH]; [by case_decide|].
  apply Forall_cons in Hv as [? ?]. apply Forall_cons in Hn as [? ?].
  change ((e :: l) ≫= cut st en) with (cut st en e ++ (l ≫= cut st en)).
  rewrite count_app, count_cut, IH, mult_cons by done. by case_decide.
Qed.

(** C21. Removing a range that does not cut through exactly one end of a
    recorded mapping: the call returns the number of mappings hit, every
    address of the range is no longer covered, every other address is covered
    as often as before, every surviving entry keeps a descriptor of its own and
    no descriptor is leaked or closed twice. *)
Theorem interval_map_delete_spec s l base st en :
  st < en → mutex (imap s) = false → in_use s l → fds_ok base s l →
  Forall valid l → Forall (no_straddle st en) l →
  Z.of_nat (length l + count (is_split st en) l) ≤ mem_size (imap s) →
  ∃ s' l', interval_map_delete s st en = Ok (Z.of_nat (count (hit st en) l), s') ∧
    mutex (imap s') = false ∧ in_use s' l' ∧ fds_ok base s' l' ∧
    ∀ a, mult l' a = if decide (st ≤ a < en) then 0%nat else mult l a.
Proof.
  intros Hst Hm Huse Hfds Hv Hn Hroom. unfold interval_map_delete, mutex_lock.
  destruct (Z.leb_spec en st); [lia|]. rewrite Hm. cbn [mbind outcome_bind].
  pose proof Huse as (rest & He & Hc & Hsz).
  cbn [imap on_imap with_mutex entry_count]. rewrite Hc, Nat2Z.id.
  destruct (delete_loop_spec st en base l [] (on_imap (with_mutex true) s) 0)
    as (s' & l' & -> & Hu & Hf & Hp & Hx); rewrite ?app_nil_r; try done.
  cbn [mbind outcome_bind fst snd]. unfold mutex_unlock. rewrite Hx. simpl.
  exists (on_imap (with_mutex false) s'), l'. split_and!; try done.
  intros a. unfold mult at 1. rewrite (count_perm _ _ _ Hp), app_nil_r.
  by apply count_bind_cut.
Qed.

(** ** Adding a range *)

Lemma add_loop_miss l st en f ind : ∀ l1 l2 s,
  l = l1 ++ l2 → in_use s l → Forall (λ e, overlaps st en e = false) l1 →
  add_loop (length l1) s st en f ind = Ok (s, st, en, ind).
Proof.
  induction l1 as [|e l1 IH] using rev_ind; intros l2 s -> Huse Hmiss; [done|].
  apply Forall_app in Hmiss as [Hmiss He]. apply Forall_cons in He as [He _].
  rewrite length_app, Nat.add_comm. simpl length. cbn [add_loop Nat.add].
  rewrite <- app_assoc in *. simpl in *.
  rewrite (in_use_aget s l1 e l2 Huse). cbn [mbind outcome_bind]. rewrite He.
  by apply (IH (e :: l2)).
Qed.

(** The loop merges the range into a single overlapping entry. *)
Lemma add_loop_hit st en f l1 e l2 s :
  in_use s (l1 ++ e :: l2) → overlaps st en e = true → f < 0 → fd e < 0 →
  Forall (λ e, overlaps st en e = false) l1 → Forall (λ e, overlaps st en e = false) l2 →
  let e' := Entry (Z.min (start e) st) (Z.max (end_ e) en) (fd e) in
  ∃ es, add_loop (length (l1 ++ e :: l2)) s st en f (-1)
        = Ok (on_imap (with_entries es) s, st, en, Z.of_nat (length l1)) ∧
        in_use (on_imap (with_entries es) s) (l1 ++ e' :: l2).
Proof.
  intros Huse Hov Hf Hfd H1 H2 e'.
  assert (∀ l2' l3, Forall (λ e, overlaps st en e = false) l2' → l2 = l2' ++ l3 →
    add_loop (length (l1 ++ e :: l2')) s st en f (-1)
    = add_loop (S (length l1)) s st en f (-1)) as Htail.
  { induction l2' as [|x l2' IH] using rev_ind; intros l3 Hl2' ->.
    - by rewrite length_app, Nat.add_comm.
    - apply Forall_app in Hl2' as [Hl2' Hx]. apply Forall_cons in Hx as [Hx _].
      rewrite <- (IH (x :: l3) Hl2') by (by rewrite <- app_assoc).
      replace (length (l1 ++ e :: l2' ++ [x])) with (S (length (l1 ++ e :: l2')))
        by (rewrite !length_app; simpl; rewrite length_app; simpl; lia).
      cbn [add_loop].
      rewrite (in_use_aget s (l1 ++ e :: l2') x l3)
        by (rewrite <- app_assoc; simpl; by rewrite <- app_assoc in Huse).
      cbn [mbind outcome_bind]. by rewrite Hx. }
  rewrite (Htail l2 []) by (done || by rewrite app_nil_r). cbn [add_loop].
  rewrite (in_use_aget s l1 e l2 Huse). cbn [mbind outcome_bind]. rewrite Hov.
  destruct (Z.ltb_spec f 0), (Z.ltb_spec (fd e) 0); try lia.
  cbn [andb c_assert mbind outcome_bind Z.eqb Pos.eqb].
  rewrite (in_use_aget s l1 e l2 Huse). cbn [mbind outcome_bind].
  destruct (in_use_aset s l1 e l2 e' Huse) as (es & Hes & Huse').
  fold e'. rewrite Hes. cbn [mbind outcome_bind].
  exists es. split; [|done]. by eapply (add_loop_miss _ st en f _ l1 (e' :: l2)).
Qed.

Lemma mult_no_overlap st en l a :
  Forall (λ e, overlaps st en e = false) l → st ≤ a < en → mult l a = 0%nat.
Proof.
  intros Hl Ha. apply count_none, Forall_fmap. eapply Forall_impl; [exact Hl|].
  intros e He. unfold overlaps, compose, inside, ival in *. simpl. lia.
Qed.

Lemma not_hit_forall st en l :
  Forall (λ e, ¬ hit st en e) l → Forall (λ e, overlaps st en e = false) l.
Proof.
  intros Hl. eapply Forall_impl; [exact Hl|]. unfold hit. intros x.
  by destruct (overlaps st en x).
Qed.

(** C22. Recording a range that overlaps no recorded mapping (with room for a
    new entry and an open descriptor to duplicate, if any) or exactly one
    mapping without descriptor: the call succeeds, each address of the range
    becomes covered exactly once, every other address is covered as before, and
    descriptors stay owned once each. *)
Theorem interval_map_add_spec s l base st en f :
  st < en → mutex (imap s) = false → in_use s l → fds_ok base s l → Forall valid l →
  (count (hit st en) l = 0%nat ∧ Z.of_nat (length l) < mem_size (imap s) ∧
     (0 ≤ f → f ∈ open_fds s)) ∨
  (count (hit st en) l = 1%nat ∧ f < 0 ∧ Forall (λ e, hit st en e → fd e < 0) l) →
  ∃ s' l', interval_map_add s st en f = Ok (0, s') ∧
    mutex (imap s') = false ∧ in_use s' l' ∧ fds_ok base s' l' ∧
    ∀ a, mult l' a = if decide (st ≤ a < en) then 1%nat else mult l a.
Proof.
  intros Hst Hm Huse Hfds Hv Hcase. unfold interval_map_add.
  destruct (Z.leb_spec en st); [lia|].
  destruct Hcase as [(Hz%count_zero%not_hit_forall & Hroom & Hopen)|(Hone & Hf & Hnofd)].
  - assert (∃ f' s1, (if 0 <=? f
         then let '(f, s) := dup f s in _ ← c_assert (0 <=? f); Ok (f, s)
         else Ok (f, s)) = Ok (f', s1) ∧ imap s1 = imap s ∧
         fds_ok base s1 (l ++ [Entry st en f'])) as (f' & s1 & -> & Hi & Hf').
    { destruct (Z.leb_spec 0 f).
      - destruct (dup_spec base s l f Hfds) as (f' & s1 & -> & ? & ? & Hs1); [auto|].
        destruct (Z.leb_spec 0 f'); [|lia]. exists f', s1. split_and!; try done. by apply Hs1.
      - exists f, s. split_and!; try done. by apply fds_ok_snoc_none. }
    cbn [mbind outcome_bind]. unfold mutex_lock. rewrite Hi, Hm. cbn [mbind outcome_bind].
    set (s2 := on_imap (with_mutex true) s1).
    assert (in_use s2 l) as Huse2.
    { destruct Huse as (rest & ? & ? & ?). exists rest. simpl. by rewrite Hi. }
    pose proof Huse2 as (rest & _ & Hc & _). rewrite Hc, Nat2Z.id.
    rewrite (add_loop_miss l st en f' (-1) l [] s2) by (rewrite ?app_nil_r; done).
    cbn [mbind outcome_bind]. cbn [Z.eqb Pos.eqb].
    destruct (add_entry_spec s2 l (Entry st en f')) as (s3 & Hadd & Huse3 & Ho3 & _ & Hmx3);
      [done | subst s2; simpl; by rewrite Hi | done |].
    cbn [start end_ fd] in Hadd. rewrite Hadd. cbn [mbind outcome_bind fst snd Z.eqb c_assert].
    unfold mutex_unlock. rewrite Hmx3. simpl.
    eexists _, (l ++ [Entry st en f']). split_and!; [done | done | exact Huse3 | |].
    + eapply fds_ok_ext; [done| |exact Hf']. simpl. by rewrite Ho3.
    + intros a. rewrite mult_app, mult_cons, mult_nil. unfold inside, ival. cbn [fst snd start end_].
      pose proof (mult_no_overlap st en l a Hz). repeat case_decide; lia.
  - apply count_one in Hone as (l1 & e & l2 & -> & Hov & H1 & H2).
    apply not_hit_forall in H1, H2.
    destruct (Z.leb_spec 0 f); [lia|]. cbn [mbind outcome_bind]. unfold mutex_lock. rewrite Hm.
    set (s2 := on_imap (with_mutex true) s). cbn [mbind outcome_bind].
    assert (in_use s2 (l1 ++ e :: l2)) as Huse2 by done.
    pose proof Huse2 as (rest & _ & Hc & _). rewrite Hc, Nat2Z.id.
    rewrite Forall_app, Forall_cons in Hnofd. destruct Hnofd as (_ & Hfe & _).
    destruct (add_loop_hit st en f l1 e l2 s2) as (es & -> & Huse3); try done; [auto|].
    cbn [mbind outcome_bind]. destruct (Z.eqb_spec (Z.of_nat (length l1)) (-1)); [lia|].
    cbn [mbind outcome_bind]. eexists _, (l1 ++ _ :: l2).
    split_and!; [done | done | exact Huse3 | |].
    + eapply fds_ok_ext; [| |exact Hfds]; [|done]. by rewrite !owned_app, !owned_cons.
    + intros a. rewrite !mult_app, !mult_cons. unfold hit, overlaps in Hov.
      rewrite Forall_app, Forall_cons in Hv. destruct Hv as (_ & Hve & _). unfold valid in Hve.
      unfold inside, ival. simpl.
      pose proof (mult_no_overlap st en l1 a H1).
      pose proof (mult_no_overlap st en l2 a H2).
      repeat case_decide; lia.
Qed.

(** ** Where the code departs from its purpose *)

(** A range that overlaps two recorded mappings, the second of which is the
    last entry in use: the merged entry is moved by the deletion of the first
    mapping, the loop goes on updating the slot it has left, and the part of
    the first mapping below the range is no longer covered. *)
Theorem interval_map_add_loses_coverage s a b c d st en :
  a < st < b → b ≤ c → c < en → c < d → mutex (imap s) = false →
  in_use s [Entry a b (-1); Entry c d (-1)] →
  ∃ s', interval_map_add s st en (-1) = Ok (0, s') ∧
        in_use s' [Entry st (Z.max d en) (-1)] ∧
        mult [Entry a b (-1); Entry c d (-1)] a = 1%nat ∧
        mult [Entry st (Z.max d en) (-1)] a = 0%nat.
Proof.
  intros Ha Hb Hc Hd Hm (rest & He & Hcnt & Hsz). simpl in *.
  unfold interval_map_add. tests [(en <=? st, false); (0 <=? -1, false)].
  cbn [mbind outcome_bind]. unfold mutex_lock. rewrite Hm. cbn [mbind outcome_bind].
  destruct s as [[ms cnt mx es] ofd]. simpl in *. subst. simpl. unfold overlaps. simpl.
  tests [(st <? d, true); (c <? en, true); (st <? b, true); (a <? en, true)]. simpl.
  tests [(Z.max b en <=? Z.min a st, false)]. simpl.
  assert (∀ x y z : interval_map_entry, ∀ l, aset (x :: y :: l) 1 z = Ok (x :: z :: l)) as Hset1.
  { intros. by rewrite (aset_nat _ 1) by (simpl; lia). }
  assert (∀ x z : interval_map_entry, ∀ l, aset (x :: l) 0 z = Ok (z :: l)) as Hset0.
  { intros. by rewrite (aset_nat _ 0) by (simpl; lia). }
  repeat (rewrite ?Hset1, ?Hset0; simpl).
  tests [(st <? b, true); (a <? en, true)]. simpl.
  eexists. split; [done|]. split.
  - eexists (_ :: rest). simpl. split_and!; [|done|lia]. do 2 f_equal; lia.
  - unfold mult, inside, ival. simpl. rewrite !count_cons, !count_nil. simpl.
    repeat case_decide; lia.
Qed.

(** Removing a range that cuts through exactly one end of a mapping. Past
    the end of the mapping the tail entry would be inverted and the assertion
    on [interval_map_add_entry] aborts; past its start the call succeeds but
    keeps an inverted entry, which still answers overlap queries. *)
Theorem interval_map_delete_straddle s e st en :
  valid e → fd e < 0 → mutex (imap s) = false → in_use s [e] → 1 < mem_size (imap s) →
  (start e < st < end_ e → end_ e < en → interval_map_delete s st en = Err AssertFail) ∧
  (st < start e → start e < en < end_ e →
     ∃ s', interval_map_delete s st en = Ok (1, s') ∧
           in_use s' [Entry (start e) st (fd e); Entry en (end_ e) (fd e)] ∧
           ¬ valid (Entry (start e) st (fd e)) ∧
           overlaps (st - 1) en (Entry (start e) st (fd e)) = true).
Proof.
  unfold valid. intros Hv Hfd Hm (rest & He & Hcnt & Hsz) Hroom.
  destruct s as [[ms cnt mx es] ofd], e as [a b f]. simpl in *. subst.
  assert (∀ x z : interval_map_entry, ∀ l, aset (x :: l) 0 z = Ok (z :: l)) as Hset0.
  { intros. by rewrite (aset_nat _ 0) by (simpl; lia). }
  unfold interval_map_delete, mutex_lock, overlaps. split.
  - intros H1 H2. simpl. unfold overlaps, delete_hit. simpl.
    tests [(en <=? st, false); (st <? b, true); (a <? en, true); (st <=? a, false);
           (st =? a, false); (en =? b, false); (0 <=? f, false)].
    rewrite ?Hset0. simpl. unfold interval_map_add_entry. simpl.
    by tests [(b <=? en, true)].
  - intros H1 H2. simpl. unfold overlaps, delete_hit. simpl.
    tests [(en <=? st, false); (st <? b, true); (a <? en, true); (b <=? en, false);
           (st =? a, false); (en =? b, false); (0 <=? f, false)].
    rewrite ?Hset0. simpl. unfold interval_map_add_entry. simpl.
    destruct rest as [|x rest]; [simpl in *; lia|].
    destruct (Z.leb_spec (Z.of_nat (S (length (x :: rest)))) (Z.of_nat 1)); [lia|].
    tests [(b <=? en, false)].
    rewrite (aset_nat _ 1) by (simpl; lia). simpl.
    eexists. split; [done|]. split_and!.
    + exists rest. simpl. split_and!; [done | done | simpl in *; lia].
    + lia.
    + by tests [(st - 1 <? st, true); (a <? en, true)].
Qed.

(** ** Instances of the theorems *)

(** Room for four mappings; descriptors 0, 1 and 2 are the process's own. *)
Definition std_fds : gset Z := {[0; 1; 2]}.
Definition spare : list interval_map_entry := replicate 2 (Entry 0 0 0).
Definition two_anon : state :=
  State (IMap 4 2 false ([Entry 0 10 (-1); Entry 20 30 (-1)] ++ spare)) std_fds.
Definition one_file : state :=
  State (IMap 4 1 false ([Entry 10 30 5] ++ Entry 0 0 0 :: spare)) ({[5]} ∪ std_fds).
Definition one_anon : state :=
  State (IMap 4 1 false ([Entry 10 30 (-1)] ++ Entry 0 0 0 :: spare)) std_fds.

Lemma one_file_ok : in_use one_file [Entry 10 30 5] ∧ fds_ok std_fds one_file [Entry 10 30 5].
Proof.
  split; [by eexists|]. unfold fds_ok, owned. simpl. split_and!.
  - apply NoDup_singleton.
  - intros f Hf. unfold std_fds. set_solver.
  - intros f. set_solver.
Qed.

Lemma interval_map_delete_spec_witness :
  ∃ s' l', interval_map_delete one_file 15 20 = Ok (1, s') ∧ mutex (imap s') = false ∧
    in_use s' l' ∧ fds_ok std_fds s' l' ∧
    ∀ a, mult l' a = if decide (15 ≤ a < 20) then 0%nat else mult [Entry 10 30 5] a.
Proof.
  apply (interval_map_delete_spec one_file [Entry 10 30 5] std_fds 15 20).
  - lia.
  - reflexivity.
  - apply one_file_ok.
  - apply one_file_ok.
  - repeat constructor.
  - constructor; [|constructor]. intros _. right. simpl. lia.
  - vm_compute. discriminate.
Defined.

Lemma interval_map_add_spec_witness :
  ∃ s' l', interval_map_add one_file 40 50 5 = Ok (0, s') ∧ mutex (imap s') = false ∧
    in_use s' l' ∧ fds_ok std_fds s' l' ∧
    ∀ a, mult l' a = if decide (40 ≤ a < 50) then 1%nat else mult [Entry 10 30 5] a.
Proof.
  apply (interval_map_add_spec one_file [Entry 10 30 5] std_fds 40 50 5).
  - lia.
  - reflexivity.
  - apply one_file_ok.
  - apply one_file_ok.
  - repeat constructor.
  - left. split_and!; [reflexivity | reflexivity |]. intros _. by apply elem_of_union_l, elem_of_singleton.
Defined.

Lemma interval_map_add_loses_coverage_witness :
  ∃ s', interval_map_add two_anon 5 25 (-1) = Ok (0, s') ∧ in_use s' [Entry 5 30 (-1)] ∧
        mult [Entry 0 10 (-1); Entry 20 30 (-1)] 0 = 1%nat ∧
        mult [Entry 5 30 (-1)] 0 = 0%nat.
Proof.
  apply (interval_map_add_loses_coverage two_anon 0 10 20 30 5 25); try lia.
  - reflexivity.
  - by exists spare.
Defined.

Lemma interval_map_delete_straddle_witness :
  interval_map_delete one_anon 25 40 = Err AssertFail.
Proof.
  apply (interval_map_delete_straddle one_anon (Entry 10 30 (-1)) 25 40); simpl; try lia.
  - reflexivity.
  - by exists (Entry 0 0 0 :: spare).
Defined.
End IntervalMap.
