(* ===== verification/RegList.v ===== *)
(** * Register lists, bit counting and alignment (common.c, common.h)

    Register sets are 32-bit masks. The scanners and the plugin API pick
    registers from them with the functions of this file. *)
From S2P Require Import Prelude CodeCacheHash.
Export CodeCacheHash (target, arm, aarch64, riscv_compressed, riscv).

Module RegList.

(** [first_reg], [last_reg] of common.c and [reg_invalid] of scanner_public.h. *)
Definition first_reg (t : target) : Z := 0.
Definition last_reg (t : target) : Z := match t with arm => 15 | _ => 31 end.
Definition reg_invalid (t : target) : Z := match t with arm => 16 | _ => 32 end.

(** [reglist & (1 << n)], a shift of a 32-bit one. *)
Definition has_bit (reglist n : Z) : outcome bool :=
  if (0 <=? n) && (n <? 32) then Ok (negb (Z.land reglist (Z.shiftl 1 n) =? 0))
  else Err UndefinedShift.

Section operations.
Context (t : target).

Fixpoint next_loop (fuel : nat) (reglist start : Z) : outcome Z :=
  match fuel with
  | O => Err OutOfFuel
  | S fuel =>
      if start <=? last_reg t then
        b ← has_bit reglist start;
        if (b : bool) then Ok start else next_loop fuel reglist (u32 (start + 1))
      else Ok (reg_invalid t)
  end.

(** 33 iterations examine all 32 registers. *)
Definition next_reg_in_list (reglist start : Z) : outcome Z := next_loop 33 reglist start.

(** [start] is unsigned, so [start >= first_reg] always holds. *)
Fixpoint last_loop (fuel : nat) (reglist start : Z) : outcome Z :=
  match fuel with
  | O => Err OutOfFuel
  | S fuel =>
      if first_reg t <=? start then
        b ← has_bit reglist start;
        if (b : bool) then Ok start else last_loop fuel reglist (u32 (start - 1))
      else Ok (reg_invalid t)
  end.

Definition last_reg_in_list (reglist start : Z) : outcome Z := last_loop 34 reglist start.

(** The loops write [regs[0..n-1]] and count the valid ones; [prev] is an int. *)
Fixpoint lowest_loop (n : nat) (reglist prev count : Z) : outcome (Z * list Z) :=
  match n with
  | O => Ok (count, [])
  | S n =>
      r ← next_reg_in_list reglist (u32 (prev + 1));
      x ← lowest_loop n reglist (s32 r) (if r <? reg_invalid t then count + 1 else count);
      Ok (fst x, r :: snd x)
  end.
Definition get_lowest_n_regs (reglist n : Z) : outcome (Z * list Z) :=
  if n <? 1 then Ok (0, []) else lowest_loop (Z.to_nat n) reglist (-1) 0.

Fixpoint highest_loop (n : nat) (reglist prev count : Z) : outcome (Z * list Z) :=
  match n with
  | O => Ok (count, [])
  | S n =>
      r ← last_reg_in_list reglist (u32 (prev - 1));
      x ← highest_loop n reglist (s32 r) (if r <? reg_invalid t then count + 1 else count);
      Ok (fst x, r :: snd x)
  end.
Definition get_highest_n_regs (reglist n : Z) : outcome (Z * list Z) :=
  if n <? 1 then Ok (0, []) else highest_loop (Z.to_nat n) reglist (reg_invalid t) 0.
End operations.

(** [for (c = 0; n; c++) n &= n - 1;] *)
Fixpoint count_bits_loop (fuel : nat) (n c : Z) : outcome Z :=
  match fuel with
  | O => Err OutOfFuel
  | S fuel => if n =? 0 then Ok c else count_bits_loop fuel (Z.land n (u32 (n - 1))) (c + 1)
  end.
Definition count_bits (n : Z) : outcome Z := count_bits_loop 33 n 0.

Definition align_lower (address alignment : Z) : outcome Z :=
  if alignment =? 0 then Err DivisionByZero else Ok (u64 (address / alignment * alignment)).
Definition align_higher (address alignment : Z) : outcome Z :=
  aligned_address ← align_lower address alignment;
  Ok (if negb (aligned_address =? address) then u64 (aligned_address + alignment)
      else aligned_address).
Definition is_offset_within_range (offset range : Z) : bool :=
  (offset <=? range - 4) && (- range <=? offset).

(** ** Specification *)

(** The registers of a set that are at least [lo] and at most [hi], ascending. *)
Definition regs_between (reglist lo hi : Z) : list Z :=
  filter (λ r, Z.testbit reglist r = true) (seqZ lo (hi + 1 - lo)).

Lemma has_bit_testbit reglist n :
  0 ≤ n < 32 → has_bit reglist n = Ok (Z.testbit reglist n).
Proof.
  intros Hn. unfold has_bit. tests [(0 <=? n, true); (n <? 32, true)]. f_equal.
  rewrite Z.shiftl_1_l. destruct (Z.testbit reglist n) eqn:Hb.
  - destruct (Z.eqb_spec (Z.land reglist (2 ^ n)) 0) as [Hz|]; [|done].
    apply (f_equal (λ z, Z.testbit z n)) in Hz.
    rewrite Z.land_spec, Hb, Z.pow2_bits_true, Z.bits_0 in Hz by lia. done.
  - destruct (Z.eqb_spec (Z.land reglist (2 ^ n)) 0) as [|Hnz]; [done|].
    exfalso. apply Hnz. apply Z.bits_inj'. intros m Hm. rewrite Z.land_spec, Z.bits_0.
    destruct (decide (m = n)) as [->|]; [by rewrite Hb|].
    by rewrite Z.pow2_bits_false, andb_false_r by lia.
Qed.

Lemma regs_between_step reglist lo hi :
  lo ≤ hi →
  regs_between reglist lo hi =
  (if Z.testbit reglist lo then [lo] else []) ++ regs_between reglist (lo + 1) hi.
Proof.
  intros Hle. unfold regs_between. rewrite seqZ_cons by lia.
  replace (Z.pred (hi + 1 - lo)) with (hi + 1 - (lo + 1)) by lia. change (Z.succ lo) with (lo + 1).
  rewrite filter_cons. destruct (Z.testbit reglist lo); by case_decide.
Qed.

Lemma regs_between_empty reglist lo hi : hi < lo → regs_between reglist lo hi = [].
Proof. intros. unfold regs_between. by rewrite seqZ_nil by lia. Qed.

Lemma elem_of_regs_between reglist lo hi r :
  r ∈ regs_between reglist lo hi ↔ lo ≤ r ≤ hi ∧ Z.testbit reglist r = true.
Proof. unfold regs_between. rewrite list_elem_of_filter, elem_of_seqZ. naive_solver lia. Qed.

Lemma last_lt_invalid t : last_reg t < 32 ∧ reg_invalid t = last_reg t + 1.
Proof. by destruct t. Qed.

Lemma next_loop_spec t fuel reglist start :
  0 ≤ start ≤ last_reg t + 2 → last_reg t + 2 ≤ start + Z.of_nat fuel → (0 < fuel)%nat →
  next_loop t fuel reglist start
  = Ok (default (reg_invalid t) (head (regs_between reglist start (last_reg t)))).
Proof.
  pose proof (last_lt_invalid t) as [Hl _].
  revert start. induction fuel as [|fuel IH]; intros start Hs Hf Hpos; [lia|]. simpl.
  destruct (Z.leb_spec start (last_reg t)); [|by rewrite regs_between_empty].
  rewrite has_bit_testbit by lia. cbn [mbind outcome_bind].
  rewrite regs_between_step by done. destruct (Z.testbit reglist start); [done|].
  rewrite u32_small by lia. apply IH; lia.
Qed.

Lemma next_reg_spec t reglist start :
  0 ≤ start →
  next_reg_in_list t reglist start
  = Ok (default (reg_invalid t) (head (regs_between reglist start (last_reg t)))).
Proof.
  intros Hs. pose proof (last_lt_invalid t) as [Hl _]. unfold next_reg_in_list.
  destruct (Z.leb_spec start (last_reg t)).
  - apply next_loop_spec; lia.
  - rewrite regs_between_empty by done. cbn [next_loop].
    by destruct (Z.leb_spec start (last_reg t)); [lia|].
Qed.

(** The least element splits the set. *)
Lemma regs_between_uncons reglist lo hi :
  match head (regs_between reglist lo hi) with
  | Some r => lo ≤ r ≤ hi ∧ regs_between reglist lo hi = r :: regs_between reglist (r + 1) hi
  | None => regs_between reglist lo hi = []
  end.
Proof.
  remember (Z.to_nat (hi + 1 - lo)) as n eqn:Hn. revert lo Hn.
  induction n as [|n IH]; intros lo Hn.
  - by rewrite regs_between_empty by lia.
  - rewrite regs_between_step by lia. destruct (Z.testbit reglist lo); simpl.
    + split; [lia | done].
    + specialize (IH (lo + 1) ltac:(lia)).
      destruct (head (regs_between reglist (lo + 1) hi)); [|done].
      destruct IH as [? IH]. split; [lia | done].
Qed.

Lemma lowest_loop_spec t reglist n : ∀ prev count,
  -1 ≤ prev ≤ reg_invalid t →
  let rs := regs_between reglist (prev + 1) (last_reg t) in
  lowest_loop t n reglist prev count
  = Ok (count + Z.of_nat (length (take n rs)),
        take n (rs ++ replicate n (reg_invalid t))).
Proof.
  pose proof (last_lt_invalid t) as [Hl Hi].
  induction n as [|n IH]; intros prev count Hp rs; [simpl; do 2 f_equal; lia|].
  cbn [lowest_loop]. rewrite u32_small by lia. rewrite next_reg_spec by lia.
  cbn [mbind outcome_bind]. pose proof (regs_between_uncons reglist (prev + 1) (last_reg t)) as Hu.
  fold rs in Hu |- *. destruct (head rs) as [r|]; cbn [from_option id].
  - destruct Hu as [Hr ->]. rewrite s32_small by lia.
    rewrite IH by lia. cbn [mbind outcome_bind fst snd].
    destruct (Z.ltb_spec r (reg_invalid t)); [|lia].
    simpl. do 2 f_equal; [lia|]. f_equal.
    change (reg_invalid t :: replicate n (reg_invalid t)) with (replicate (S n) (reg_invalid t)).
    rewrite !take_app, !take_replicate. do 2 f_equal. lia.
  - rewrite Hu. rewrite s32_small by lia. rewrite IH by lia.
    rewrite regs_between_empty by lia. cbn [mbind outcome_bind fst snd].
    by rewrite Z.ltb_irrefl, !take_nil.
Qed.

(** [get_lowest_n_regs] writes the [n] lowest registers of the set in
    ascending order, followed by [reg_invalid] when the set has fewer, and
    returns how many are valid. *)
Theorem get_lowest_n_regs_spec t reglist n :
  0 ≤ n →
  let rs := regs_between reglist 0 (last_reg t) in
  get_lowest_n_regs t reglist n
  = Ok (Z.min n (Z.of_nat (length rs)),
        take (Z.to_nat n) (rs ++ replicate (Z.to_nat n) (reg_invalid t))).
Proof.
  intros Hn rs. unfold get_lowest_n_regs. destruct (Z.ltb_spec n 1).
  - replace n with 0 by lia. rewrite Z.min_l by lia. done.
  - rewrite lowest_loop_spec by (destruct t; simpl; lia).
    change (-1 + 1) with 0. fold rs. rewrite length_take. do 2 f_equal. lia.
Qed.

Lemma get_lowest_n_regs_spec_witness :
  0 ≤ 4 ∧ get_lowest_n_regs riscv 0x80000006 4 = Ok (3, [1; 2; 31; 32]).
Proof.
  split; [lia|]. rewrite (get_lowest_n_regs_spec riscv 0x80000006 4 ltac:(lia)).
  vm_compute. reflexivity.
Defined.

(** The greatest element splits the set. *)
Lemma regs_between_snoc reglist lo hi :
  lo ≤ hi →
  regs_between reglist lo hi =
  regs_between reglist lo (hi - 1) ++ (if Z.testbit reglist hi then [hi] else []).
Proof.
  intros Hle. unfold regs_between. replace (hi + 1 - lo) with (hi - lo + 1) by lia.
  replace (hi - 1 + 1 - lo) with (hi - lo) by lia.
  rewrite seqZ_app by lia. rewrite filter_app. f_equal.
  replace (lo + (hi - lo)) with hi by lia. rewrite seqZ_cons, seqZ_nil by lia.
  rewrite filter_cons. destruct (Z.testbit reglist hi); by case_decide.
Qed.

Lemma last_loop_wrapped t fuel reglist :
  (0 < fuel)%nat → last_loop t fuel reglist (u32 (-1)) = Err UndefinedShift.
Proof. destruct fuel; [lia|]. intros _. by destruct t. Qed.

Lemma last_loop_spec t fuel reglist start :
  0 ≤ start < 32 → start + 2 ≤ Z.of_nat fuel →
  last_loop t fuel reglist start
  = match last (regs_between reglist 0 start) with
    | Some r => Ok r
    | None => Err UndefinedShift
    end.
Proof.
  revert start. induction fuel as [|fuel IH]; intros start Hs Hf; [lia|].
  cbn [last_loop]. unfold first_reg at 1. tests [(0 <=? start, true)].
  rewrite has_bit_testbit by lia. cbn [mbind outcome_bind].
  rewrite regs_between_snoc by lia. destruct (Z.testbit reglist start).
  - by rewrite last_snoc.
  - rewrite app_nil_r. destruct (decide (start = 0)) as [->|].
    + rewrite last_loop_wrapped by lia. by rewrite regs_between_empty by lia.
    + rewrite u32_small by lia. apply IH; lia.
Qed.

Lemma regs_between_unsnoc reglist lo hi :
  match last (regs_between reglist lo hi) with
  | Some r => lo ≤ r ≤ hi ∧ regs_between reglist lo hi = regs_between reglist lo (r - 1) ++ [r]
  | None => regs_between reglist lo hi = []
  end.
Proof.
  remember (Z.to_nat (hi + 1 - lo)) as n eqn:Hn. revert hi Hn.
  induction n as [|n IH]; intros hi Hn; [by rewrite regs_between_empty by lia|].
  rewrite regs_between_snoc by lia. destruct (Z.testbit reglist hi).
  - rewrite last_snoc. split; [lia | done].
  - rewrite !app_nil_r. specialize (IH (hi - 1) ltac:(lia)).
    destruct (last (regs_between reglist lo (hi - 1))); [|done].
    destruct IH as [? IH]. split; [lia | done].
Qed.

Lemma highest_loop_spec t reglist n : ∀ prev count,
  0 ≤ prev ≤ reg_invalid t →
  let rs := regs_between reglist 0 (prev - 1) in
  highest_loop t n reglist prev count
  = if decide (n ≤ length rs)%nat then Ok (count + Z.of_nat n, take n (reverse rs))
    else Err UndefinedShift.
Proof.
  pose proof (last_lt_invalid t) as [Hl Hi].
  induction n as [|n IH]; intros prev count Hp rs.
  { cbn. rewrite decide_True by lia. do 2 f_equal. lia. }
  cbn [highest_loop]. unfold last_reg_in_list.
  destruct (decide (prev = 0)) as [->|].
  { rewrite last_loop_wrapped by lia. unfold rs. by rewrite regs_between_empty by lia. }
  rewrite u32_small, last_loop_spec by lia.
  pose proof (regs_between_unsnoc reglist 0 (prev - 1)) as Hu. fold rs in Hu |- *.
  destruct (last rs) as [r|]; cbn [mbind outcome_bind].
  - destruct Hu as [Hr ->]. rewrite s32_small by lia. rewrite IH by lia.
    rewrite reverse_snoc, length_app. cbn [length].
    destruct (Z.ltb_spec r (reg_invalid t)); [|lia].
    destruct (decide (n ≤ _)%nat).
    + rewrite decide_True by lia. cbn [mbind outcome_bind fst snd take].
      do 2 f_equal. lia.
    + by rewrite decide_False by lia.
  - rewrite Hu. by rewrite decide_False by (cbn; lia).
Qed.

(** [get_highest_n_regs] writes the [n] highest registers of the set in
    descending order when the set has that many. When it has fewer, the index
    of [last_reg_in_list] wraps around below register 0 and the code shifts by
    [2^32 - 1]: the [reg_invalid] it promises is never returned. *)
Theorem get_highest_n_regs_spec t reglist n :
  0 ≤ n →
  let rs := regs_between reglist 0 (last_reg t) in
  get_highest_n_regs t reglist n
  = if n <=? Z.of_nat (length rs) then Ok (n, take (Z.to_nat n) (reverse rs))
    else Err UndefinedShift.
Proof.
  intros Hn rs. unfold get_highest_n_regs. pose proof (last_lt_invalid t) as [Hl Hi].
  destruct (Z.ltb_spec n 1).
  - replace n with 0 by lia. by destruct (Z.leb_spec 0 (Z.of_nat (length rs))); [|lia].
  - rewrite highest_loop_spec by (by destruct t).
    replace (reg_invalid t - 1) with (last_reg t) by lia. fold rs.
    destruct (Z.leb_spec n (Z.of_nat (length rs))).
    + rewrite decide_True by lia. do 2 f_equal. lia.
    + by rewrite decide_False by lia.
Qed.

Lemma get_highest_n_regs_spec_witness :
  0 ≤ 2 ∧ get_highest_n_regs arm 0x86 2 = Ok (2, [7; 2])
  ∧ get_highest_n_regs arm 0x86 4 = Err UndefinedShift.
Proof.
  split; [lia|]. rewrite !(get_highest_n_regs_spec arm 0x86) by lia.
  vm_compute. split; reflexivity.
Defined.

(** *** Bit counting *)

(** The number of one bits of a natural number. *)
Fixpoint popcount_pos (p : positive) : Z :=
  match p with
  | xI p => 1 + popcount_pos p
  | xO p => popcount_pos p
  | xH => 1
  end.
Definition popcount (n : Z) : Z := match n with Zpos p => popcount_pos p | _ => 0 end.

Lemma popcount_double n b :
  0 ≤ n → popcount (2 * n + Z.b2z b) = Z.b2z b + popcount n.
Proof. intros. destruct n, b; try done; lia. Qed.

Lemma popcount_range n w : 0 ≤ w → 0 ≤ n < 2 ^ w → 0 ≤ popcount n ≤ w.
Proof.
  intros Hw. revert n. pattern w. apply natlike_ind; [..|done]; clear w Hw.
  - intros n Hn. by replace n with 0 by lia.
  - intros w Hw IH n Hn. rewrite Z.pow_succ_r in Hn by done.
    rewrite (Z.div2_odd n), popcount_double by (rewrite Z.div2_div; apply Z.div_pos; lia).
    rewrite Z.div2_div. pose proof (Z.div_mod n 2). pose proof (Z.mod_pos_bound n 2).
    specialize (IH (n / 2) ltac:(lia)). destruct (Z.odd n); simpl; lia.
Qed.

(** [n & (n - 1)] clears the lowest one bit. *)
Lemma land_pred n :
  0 < n → 0 ≤ Z.land n (n - 1) < n ∧ popcount (Z.land n (n - 1)) = popcount n - 1.
Proof.
  destruct n as [|p|]; [lia| |lia]. intros _. induction p as [p IH|p IH|]; [| |done].
  - replace (Z.pos p~1 - 1) with (2 * Z.pos p) by lia.
    assert (Z.land (Z.pos p~1) (2 * Z.pos p) = 2 * Z.pos p) as ->.
    2: { change (popcount (2 * Z.pos p)) with (popcount_pos p).
         change (popcount (Z.pos p~1)) with (1 + popcount_pos p). lia. }
    replace (Z.pos p~1) with (2 * Z.pos p + 1) by lia.
    apply Z.bits_inj'. intros i Hi. rewrite Z.land_spec.
    destruct (decide (i = 0)) as [->|].
    + by rewrite Z.testbit_even_0, andb_false_r.
    + replace i with (Z.succ (i - 1)) by lia.
      rewrite Z.testbit_odd_succ, Z.testbit_even_succ by lia. apply andb_diag.
  - assert (Z.land (Z.pos p~0) (Z.pos p~0 - 1) = 2 * Z.land (Z.pos p) (Z.pos p - 1)) as ->.
    { replace (Z.pos p~0 - 1) with (2 * (Z.pos p - 1) + 1) by lia.
      replace (Z.pos p~0) with (2 * Z.pos p) by lia.
      apply Z.bits_inj'. intros i Hi. rewrite Z.land_spec.
      destruct (decide (i = 0)) as [->|]; [by rewrite !Z.testbit_even_0|].
      replace i with (Z.succ (i - 1)) by lia.
      by rewrite Z.testbit_odd_succ, !Z.testbit_even_succ, Z.land_spec by lia. }
    destruct IH as [? IH]. split; [lia|].
    replace (2 * _) with (2 * Z.land (Z.pos p) (Z.pos p - 1) + Z.b2z false) by (simpl; lia).
    rewrite popcount_double by lia. simpl Z.b2z. change (popcount (Z.pos p~0)) with (popcount (Z.pos p)).
    lia.
Qed.

Lemma count_bits_loop_spec fuel n c :
  0 ≤ n < 2 ^ 32 → popcount n < Z.of_nat fuel →
  count_bits_loop fuel n c = Ok (c + popcount n).
Proof.
  revert n c. induction fuel as [|fuel IH]; intros n c Hn Hf.
  - pose proof (popcount_range n 32). lia.
  - cbn [count_bits_loop]. destruct (Z.eqb_spec n 0) as [->|]; [f_equal; simpl; lia|].
    rewrite u32_small by lia. destruct (land_pred n) as [? Hp]; [lia|].
    rewrite IH by lia. f_equal. lia.
Qed.

Lemma regs_between_shift m lo hi :
  0 ≤ lo →
  length (regs_between m (lo + 1) (hi + 1)) = length (regs_between (Z.div2 m) lo hi).
Proof.
  remember (Z.to_nat (hi + 1 - lo)) as n eqn:Hn. revert lo Hn.
  induction n as [|n IH]; intros lo Hn Hlo; [by rewrite !regs_between_empty by lia|].
  rewrite (regs_between_step m), (regs_between_step (Z.div2 m)) by lia.
  rewrite !length_app, IH by lia. f_equal. rewrite Z.div2_spec, Z.shiftr_spec by lia.
  by destruct (Z.testbit m (lo + 1)).
Qed.

Lemma popcount_regs w n :
  0 ≤ w → 0 ≤ n < 2 ^ w → popcount n = Z.of_nat (length (regs_between n 0 (w - 1))).
Proof.
  intros Hw. revert n. pattern w. apply natlike_ind; [..|done]; clear w Hw.
  - intros n Hn. by replace n with 0 by lia.
  - intros w Hw IH n Hn. rewrite Z.pow_succ_r in Hn by done.
    rewrite regs_between_step, length_app, Z.bit0_odd by lia.
    replace (Z.succ w - 1) with (w - 1 + 1) by lia. rewrite regs_between_shift by lia.
    pose proof (Z.div_mod n 2). pose proof (Z.mod_pos_bound n 2).
    rewrite Nat2Z.inj_add, <- IH by (rewrite Z.div2_div; lia).
    rewrite (Z.div2_odd n) at 1. rewrite popcount_double by (rewrite Z.div2_div; lia).
    by destruct (Z.odd n).
Qed.

(** [count_bits] ends after one iteration per one bit and returns the
    number of registers in the set. *)
Lemma count_bits_spec n :
  0 ≤ n < 2 ^ 32 → count_bits n = Ok (Z.of_nat (length (regs_between n 0 31))).
Proof.
  intros Hn. unfold count_bits. pose proof (popcount_range n 32).
  rewrite count_bits_loop_spec by lia. by rewrite <- (popcount_regs 32) by lia.
Qed.

(** *** Alignment *)

(** [align_lower] and [align_higher] return the nearest multiples of the
    alignment below and above the address, [align_higher] unless that multiple
    needs 65 bits, when it wraps around. *)
Theorem align_spec address alignment :
  0 ≤ address < 2 ^ 64 → 0 < alignment < 2 ^ 64 →
  ∃ lo, align_lower address alignment = Ok lo
    ∧ (alignment | lo) ∧ lo ≤ address < lo + alignment
    ∧ ∃ hi, align_higher address alignment = Ok (u64 hi)
      ∧ (alignment | hi) ∧ hi - alignment < address ≤ hi
      ∧ (hi < 2 ^ 64 → u64 hi = hi).
Proof.
  intros Ha Hal. pose proof (Z.div_mod address alignment ltac:(lia)).
  pose proof (Z.mod_pos_bound address alignment ltac:(lia)).
  pose proof (Z.div_pos address alignment ltac:(lia) ltac:(lia)).
  set (lo := address / alignment * alignment).
  assert (0 ≤ lo ≤ address ∧ address < lo + alignment) as [? ?] by (unfold lo; nia).
  assert (align_lower address alignment = Ok lo) as Hlo.
  { unfold align_lower. rewrite u64_small by lia. by destruct (Z.eqb_spec alignment 0); [lia|]. }
  exists lo. split_and!; [done | by exists (address / alignment) | lia | lia |].
  unfold align_higher. rewrite Hlo. cbn [mbind outcome_bind].
  destruct (Z.eqb_spec lo address) as [He|]; cbn [negb].
  - exists lo. rewrite u64_small by lia. split_and!; try done; first [lia | by exists (address / alignment)].
  - exists (lo + alignment). split_and!; [done | | lia | lia | intros; apply u64_small; lia].
    exists (address / alignment + 1). unfold lo. lia.
Qed.

Lemma align_spec_witness :
  0 ≤ 4097 < 2 ^ 64 ∧ 0 < 4096 < 2 ^ 64 ∧ align_higher 4097 4096 = Ok 8192.
Proof.
  split; [lia|]. split; [lia|].
  destruct (align_spec 4097 4096) as (lo & Hlo & _ & _ & hi & Hhi & [k ->] & Hb & _); [lia|lia|].
  replace k with 2 in Hhi by lia. exact Hhi.
Defined.

End RegList.
