(* ===== verification/Plugin.v ===== *)
(** * The plugin API (api/plugin_support.c, api/internal.c)

    Plugins register callbacks, which MAMBO delivers while it scans code, at
    system calls and when the memory map changes. The file models the table of
    plugins, the context that a callback gets, the delivery, and the scratch
    registers that plugins share on the stack. What a callback can change beyond
    its context, the thread and the code memory, is the type [W]; the class
    [Stack] says how code that saves and restores registers is written there. *)
From S2P Require Import Prelude RegList.
Import RegList.

Module Plugin.

Inductive mambo_cb_idx :=
  | PLUGIN_REG | PRE_INST_C | POST_INST_C | PRE_BB_C | POST_BB_C | PRE_FRAGMENT_C | POST_FRAGMENT_C
  | PRE_SYSCALL_C | POST_SYSCALL_C | PRE_THREAD_C | POST_THREAD_C | PRE_FN_C | POST_FN_C | EXIT_C | VM_OP_C.

#[global] Instance mambo_cb_idx_eq_dec : EqDecision mambo_cb_idx.
Proof. solve_decision. Defined.

Definition cb_enum (e : mambo_cb_idx) : Z :=
  match e with
  | PLUGIN_REG => 0 | PRE_INST_C => 1 | POST_INST_C => 2 | PRE_BB_C => 3 | POST_BB_C => 4 | PRE_FRAGMENT_C => 5
  | POST_FRAGMENT_C => 6 | PRE_SYSCALL_C => 7 | POST_SYSCALL_C => 8 | PRE_THREAD_C => 9 | POST_THREAD_C => 10
  | PRE_FN_C => 11 | POST_FN_C => 12 | EXIT_C => 13 | VM_OP_C => 14
  end.
Definition CALLBACK_MAX_IDX : Z := 15.
Definition MAX_PLUGIN_NO : Z := 10.

(** [enum mambo_plugin_error]. *)
Definition MAMBO_SUCCESS : Z := 0.
Definition MAMBO_INVALID_PLUGIN_ID : Z := -1.
Definition MAMBO_CB_ALREADY_SET : Z := -2.
Definition MAMBO_INVALID_CB : Z := -3.
Definition MAMBO_INVALID_THREAD : Z := -4.

Inductive inst_set := ARM_INST | THUMB_INST | A64_INST | RISCV_INST.
Inductive vm_op_t := VM_MAP | VM_UNMAP | VM_PROT.

(** [struct code_ctx]; [inst] is -1 outside of instruction events, and a pointer
    that can be NULL is an option. *)
Record code_ctx := MkCode {
  fragment_type : Z;
  fragment_id : Z;
  inst_type : inst_set;
  read_address : Z;
  inst : Z;
  cond : Z;
  write_p : option Z;
  data_p : option Z;
  pushed_regs : Z;
  available_regs : Z;
  plugin_pushed_reg_count : Z;
  replace : bool;
  stop : option bool }.

Record syscall_ctx := MkSyscall { number : Z; sregs : list Z; sreplace : bool; sret : Z }.
Record vm_ctx := MkVm { vm_op : vm_op_t; vm_addr : Z; vm_size : Z; vm_prot : Z; vm_flags : Z; vm_filedes : Z; vm_off : Z }.

(** The union of [mambo_context]. *)
Inductive ctx_data := NoData | Code (c : code_ctx) | Syscall (s : syscall_ctx) | Vm (v : vm_ctx).

Section api.
Context {W : Type}.

(** The thread as plugins see it: its ids and the data that plugins attach. *)
Record plugin_thread := MkPThread { tid : Z; parent_tid : Z; plugin_priv : list Z; world : W }.

Record mambo_context := MkCtx {
  thread_data : option plugin_thread;
  event_type : mambo_cb_idx;
  plugin_id : Z;
  data : ctx_data }.

Definition mambo_callback := mambo_context → outcome mambo_context.

Record mambo_plugin := MkPlugin { cbs : list (option mambo_callback); pdata : Z }.

Record global := MkGlobal { free_plugin : Z; plugins : list mambo_plugin }.

(** Zeroed at startup. *)
Definition initial : global :=
  MkGlobal 0 (replicate (Z.to_nat MAX_PLUGIN_NO) (MkPlugin (replicate (Z.to_nat CALLBACK_MAX_IDX) None) 0)).

(** ** Contexts (api/internal.c) *)

Definition set_mambo_context (th : option plugin_thread) (e : mambo_cb_idx) : mambo_context := MkCtx th e 0 NoData.

Definition set_mambo_context_code (th : option plugin_thread) (e : mambo_cb_idx) (ftype fid : Z) (itype : inst_set)
    (i cnd rd : Z) (wp dp : option Z) (st : option bool) : mambo_context :=
  MkCtx th e 0 (Code (MkCode ftype fid itype rd i cnd wp dp 0 0 0 false st)).

Definition set_mambo_context_syscall (th : option plugin_thread) (e : mambo_cb_idx) (n : Z) (rs : list Z) : mambo_context :=
  MkCtx th e 0 (Syscall (MkSyscall n rs false 0)).

Definition set_plugin_id (i : Z) (c : mambo_context) : mambo_context := MkCtx (thread_data c) (event_type c) i (data c).
Definition set_data (d : ctx_data) (c : mambo_context) : mambo_context := MkCtx (thread_data c) (event_type c) (plugin_id c) d.

(** [n] iterations of the loop over the plugins, from [i] on. *)
Fixpoint deliver_loop (n : nat) (g : global) (cb_id i : Z) (c : mambo_context) : outcome mambo_context :=
  match n with
  | O => Ok c
  | S n =>
      p ← aget (plugins g) i;
      cb ← aget (cbs p) cb_id;
      c ← match cb with Some f => f (set_plugin_id i c) | None => Ok c end;
      deliver_loop n g cb_id (i + 1) c
  end.

Definition mambo_deliver_callbacks_for_ctx (g : global) (c : mambo_context) : outcome mambo_context :=
  let cb_id := cb_enum (event_type c) in
  c_assert (cb_id <? CALLBACK_MAX_IDX);;
  deliver_loop (Z.to_nat (free_plugin g)) g cb_id 0 c.

Definition mambo_deliver_callbacks (g : global) (e : mambo_cb_idx) (th : option plugin_thread) : outcome (option mambo_context) :=
  if 0 <? free_plugin g then Some <$> mambo_deliver_callbacks_for_ctx g (set_mambo_context th e) else Ok None.

Definition mambo_deliver_callbacks_code (g : global) (e : mambo_cb_idx) (th : option plugin_thread) (ftype fid : Z)
    (itype : inst_set) (i cnd rd : Z) (wp dp : option Z) (st : option bool) : outcome (option mambo_context) :=
  if 0 <? free_plugin g
  then Some <$> mambo_deliver_callbacks_for_ctx g (set_mambo_context_code th e ftype fid itype i cnd rd wp dp st)
  else Ok None.

(** ** Registration *)

(** The context is a static object of the function. *)
Definition mambo_register_plugin (g : global) : option mambo_context * global :=
  let index := free_plugin g in
  let g := MkGlobal (free_plugin g + 1) (plugins g) in
  if MAX_PLUGIN_NO <=? index then (None, g)
  else (Some (set_plugin_id index (set_mambo_context None PLUGIN_REG)), g).

Definition __mambo_register_cb (g : global) (c : mambo_context) (cb_idx : Z) (cb : mambo_callback) : outcome (Z * global) :=
  let p_id := u32 (plugin_id c) in
  if (CALLBACK_MAX_IDX <=? cb_idx) || (cb_idx <? 0) then Ok (MAMBO_INVALID_CB, g)
  else if MAX_PLUGIN_NO <=? p_id then Ok (MAMBO_INVALID_PLUGIN_ID, g)
  else
    p ← aget (plugins g) p_id;
    old ← aget (cbs p) cb_idx;
    match old with
    | Some _ => Ok (MAMBO_CB_ALREADY_SET, g)
    | None =>
        l ← aset (cbs p) cb_idx (Some cb);
        ps ← aset (plugins g) p_id (MkPlugin l (pdata p));
        Ok (MAMBO_SUCCESS, MkGlobal (free_plugin g) ps)
    end.

Definition mambo_register_pre_inst_cb g c cb := __mambo_register_cb g c (cb_enum PRE_INST_C) cb.
Definition mambo_register_post_inst_cb g c cb := __mambo_register_cb g c (cb_enum POST_INST_C) cb.
Definition mambo_register_pre_basic_block_cb g c cb := __mambo_register_cb g c (cb_enum PRE_BB_C) cb.
Definition mambo_register_post_basic_block_cb g c cb := __mambo_register_cb g c (cb_enum POST_BB_C) cb.
Definition mambo_register_pre_fragment_cb g c cb := __mambo_register_cb g c (cb_enum PRE_FRAGMENT_C) cb.
Definition mambo_register_post_fragment_cb g c cb := __mambo_register_cb g c (cb_enum POST_FRAGMENT_C) cb.
Definition mambo_register_pre_syscall_cb g c cb := __mambo_register_cb g c (cb_enum PRE_SYSCALL_C) cb.
Definition mambo_register_post_syscall_cb g c cb := __mambo_register_cb g c (cb_enum POST_SYSCALL_C) cb.
Definition mambo_register_pre_thread_cb g c cb := __mambo_register_cb g c (cb_enum PRE_THREAD_C) cb.
Definition mambo_register_post_thread_cb g c cb := __mambo_register_cb g c (cb_enum POST_THREAD_C) cb.
Definition mambo_register_exit_cb g c cb := __mambo_register_cb g c (cb_enum EXIT_C) cb.
Definition mambo_register_vm_op_cb g c cb := __mambo_register_cb g c (cb_enum VM_OP_C) cb.

(** ** Data of plugins; NULL is 0 *)

(** The comparison of an unsigned id with [free_plugin] is unsigned. *)
Definition valid_plugin (g : global) (c : mambo_context) : bool := u32 (plugin_id c) <? u32 (free_plugin g).

Definition mambo_set_plugin_data (g : global) (c : mambo_context) (d : Z) : outcome (Z * global) :=
  if negb (valid_plugin g c) then Ok (MAMBO_INVALID_PLUGIN_ID, g)
  else
    ps ← aupd (plugins g) (u32 (plugin_id c)) (λ p, MkPlugin (cbs p) d);
    Ok (MAMBO_SUCCESS, MkGlobal (free_plugin g) ps).

Definition mambo_get_plugin_data (g : global) (c : mambo_context) : outcome Z :=
  if negb (valid_plugin g c) then Ok 0 else p ← aget (plugins g) (u32 (plugin_id c)); Ok (pdata p).

Definition mambo_set_thread_plugin_data (g : global) (c : mambo_context) (d : Z) : outcome (Z * mambo_context) :=
  if negb (valid_plugin g c) then Ok (MAMBO_INVALID_PLUGIN_ID, c)
  else
    match thread_data c with
    | None => Ok (MAMBO_INVALID_THREAD, c)
    | Some t =>
        l ← aset (plugin_priv t) (u32 (plugin_id c)) d;
        Ok (MAMBO_SUCCESS, MkCtx (Some (MkPThread (tid t) (parent_tid t) l (world t))) (event_type c) (plugin_id c) (data c))
    end.

Definition mambo_get_thread_plugin_data (g : global) (c : mambo_context) : outcome Z :=
  if negb (valid_plugin g c) then Ok 0
  else match thread_data c with None => Ok 0 | Some t => aget (plugin_priv t) (u32 (plugin_id c)) end.
End api.
Arguments plugin_thread W : clear implicits.
Arguments mambo_context W : clear implicits.
Arguments mambo_callback W : clear implicits.
Arguments mambo_plugin W : clear implicits.
Arguments global W : clear implicits.

(** ** Accessors

    A function that reads the member of the union for another kind of event gets
    what that event left there, which is not modelled. *)
Section accessors.
Context {W : Type} (THUMB_ADC32 RISCV_LUI : Z) (t : target).

Definition code_of (c : mambo_context W) : outcome code_ctx := match data c with Code k => Ok k | _ => Err Uninitialised end.
Definition syscall_of (c : mambo_context W) : outcome syscall_ctx :=
  match data c with Syscall s => Ok s | _ => Err Uninitialised end.
Definition vm_of (c : mambo_context W) : outcome vm_ctx := match data c with Vm v => Ok v | _ => Err Uninitialised end.

Definition mambo_get_inst c : outcome Z := inst <$> code_of c.
Definition mambo_get_inst_type c : outcome inst_set := inst_type <$> code_of c.
Definition mambo_get_fragment_id c : outcome Z := fragment_id <$> code_of c.
Definition mambo_get_fragment_type c : outcome Z := fragment_type <$> code_of c.

Definition mambo_get_inst_len c : outcome Z :=
  i ← mambo_get_inst c;
  if i =? -1 then Ok (-1)
  else
    match t with
    | arm =>
        ty ← mambo_get_inst_type c;
        Ok (match ty with ARM_INST => 4 | _ => if i <? THUMB_ADC32 then 2 else 4 end)
    | aarch64 => Ok 4
    | _ => Ok (if i <? RISCV_LUI then 2 else 4)
    end.

Definition mambo_get_source_addr c : outcome Z := read_address <$> code_of c.
Definition mambo_get_cc_addr c : outcome (option Z) := write_p <$> code_of c.

Definition with_write_p (w d : option Z) (k : code_ctx) : code_ctx :=
  MkCode (fragment_type k) (fragment_id k) (inst_type k) (read_address k) (inst k) (cond k) w d
    (pushed_regs k) (available_regs k) (plugin_pushed_reg_count k) (replace k) (stop k).
Definition with_regs (pushed available count : Z) (k : code_ctx) : code_ctx :=
  MkCode (fragment_type k) (fragment_id k) (inst_type k) (read_address k) (inst k) (cond k) (write_p k) (data_p k)
    pushed available count (replace k) (stop k).
Definition with_replace (rd : Z) (b : bool) (k : code_ctx) : code_ctx :=
  MkCode (fragment_type k) (fragment_id k) (inst_type k) rd (inst k) (cond k) (write_p k) (data_p k)
    (pushed_regs k) (available_regs k) (plugin_pushed_reg_count k) b (stop k).
Definition with_stop (st : option bool) (k : code_ctx) : code_ctx :=
  MkCode (fragment_type k) (fragment_id k) (inst_type k) (read_address k) (inst k) (cond k) (write_p k) (data_p k)
    (pushed_regs k) (available_regs k) (plugin_pushed_reg_count k) (replace k) st.

Definition mambo_set_cc_addr c (addr : Z) : outcome (mambo_context W) :=
  k ← code_of c;
  c_assert (match write_p k with Some _ => true | None => false end);;
  Ok (set_data (Code (with_write_p (Some addr) (data_p k) k)) c).

Definition thread_of (c : mambo_context W) : outcome (plugin_thread W) :=
  match thread_data c with Some th => Ok th | None => Err AssertFail end.
Definition mambo_get_thread_id c : outcome Z := tid <$> thread_of c.
Definition mambo_get_parent_thread_id c : outcome Z := parent_tid <$> thread_of c.

Definition AL : Z := match t with arm | aarch64 => 14 | _ => 0 end.
Definition mambo_get_cond c : outcome Z := cond <$> code_of c.
Definition mambo_is_cond c : outcome bool := x ← mambo_get_cond c; Ok (negb (x =? AL)).
Definition mambo_get_inverted_cond (x : Z) : Z := Z.lxor (Z.land x 0xF) 1.

Definition mambo_replace_inst c : outcome (mambo_context W) :=
  k ← code_of c; Ok (set_data (Code (with_replace (read_address k) true k)) c).

(** On A64 and RISC-V; on Arm when the instruction set does not change. *)
Definition mambo_set_source_addr c (addr : Z) : outcome (Z * mambo_context W) :=
  if decide (event_type c = PRE_FN_C) then
    k ← code_of c; Ok (0, set_data (Code (with_replace (Z.land addr (u64 (-2))) true k)) c)
  else Ok (-1, c).

Definition mambo_stop_scan c : outcome (Z * mambo_context W) :=
  if decide (event_type c ∈ [PRE_INST_C; POST_INST_C; PRE_BB_C; POST_BB_C; PRE_FRAGMENT_C; POST_FRAGMENT_C; PRE_FN_C; POST_FN_C])
  then
    k ← code_of c;
    Ok (match stop k with None => (-1, c) | Some _ => (0, set_data (Code (with_stop (Some true) k)) c) end)
  else Ok (-1, c).

(** ** System calls and memory maps; register 0 holds the result. *)

Definition mambo_syscall_get_no c : outcome (option Z) :=
  if decide (event_type c = PRE_SYSCALL_C ∨ event_type c = POST_SYSCALL_C) then s ← syscall_of c; Ok (Some (number s))
  else Ok None.

Definition mambo_syscall_get_args c : outcome (option (list Z)) :=
  if decide (event_type c = PRE_SYSCALL_C) then s ← syscall_of c; Ok (Some (sregs s)) else Ok None.

Definition mambo_syscall_bypass c : outcome (Z * mambo_context W) :=
  if decide (event_type c = PRE_SYSCALL_C) then
    s ← syscall_of c;
    c_assert (negb (sreplace s));;
    r ← aget (sregs s) 0;
    Ok (0, set_data (Syscall (MkSyscall (number s) (sregs s) true r)) c)
  else Ok (-1, c).

Definition mambo_syscall_get_return c : outcome (option Z) :=
  if decide (event_type c = POST_SYSCALL_C) then s ← syscall_of c; Some <$> aget (sregs s) 0
  else if decide (event_type c = PRE_SYSCALL_C) then s ← syscall_of c; Ok (if sreplace s then Some (sret s) else None)
  else Ok None.

Definition mambo_syscall_set_return c (ret : Z) : outcome (Z * mambo_context W) :=
  if decide (event_type c = POST_SYSCALL_C) then
    s ← syscall_of c;
    l ← aset (sregs s) 0 ret;
    Ok (0, set_data (Syscall (MkSyscall (number s) l (sreplace s) (sret s))) c)
  else if decide (event_type c = PRE_SYSCALL_C) then
    s ← syscall_of c;
    Ok (if sreplace s then (0, set_data (Syscall (MkSyscall (number s) (sregs s) true ret)) c) else (-1, c))
  else Ok (-1, c).

Definition vm_get {A} (f : vm_ctx → A) c : outcome A :=
  c_assert (bool_decide (event_type c = VM_OP_C));; f <$> vm_of c.
Definition mambo_get_vm_op := vm_get vm_op.
Definition mambo_get_vm_addr := vm_get vm_addr.
Definition mambo_get_vm_size := vm_get vm_size.
Definition mambo_get_vm_prot := vm_get vm_prot.
Definition mambo_get_vm_flags := vm_get vm_flags.
Definition mambo_get_vm_filedes := vm_get vm_filedes.
Definition mambo_get_vm_off := vm_get vm_off.
End accessors.

(** ** Scratch registers *)

(** Writing code at an address of the code memory that saves a set of registers
    on the stack, or restores it; the address behind it and the new memory. *)
Class Stack (W : Type) := {
  push_regs : W → Z → Z → outcome (Z * W);
  pop_regs : W → Z → Z → outcome (Z * W) }.

Section scratch.
Context {W : Type} `{!Stack W} (t : target).

(** The code that [f] writes at the write pointer; [d] more registers are on the
    stack. *)
Definition emit_stack (f : W → Z → Z → outcome (Z * W)) (regs count : Z) (c : mambo_context W) : outcome (mambo_context W) :=
  k ← code_of c;
  match thread_data c, write_p k with
  | Some th, Some w =>
      r ← f (world th) w regs;
      Ok (MkCtx (Some (MkPThread (tid th) (parent_tid th) (plugin_priv th) (snd r))) (event_type c) (plugin_id c)
           (Code (with_regs (pushed_regs k) (available_regs k) count (with_write_p (Some (fst r)) (data_p k) k))))
  | _, _ => Err NullPointer
  end.

Definition emit_push (c : mambo_context W) (regs : Z) : outcome (mambo_context W) :=
  k ← code_of c;
  n ← count_bits regs;
  emit_stack push_regs regs (plugin_pushed_reg_count k + n) c.

Definition emit_pop (c : mambo_context W) (regs : Z) : outcome (mambo_context W) :=
  k ← code_of c;
  c_assert (0 <=? plugin_pushed_reg_count k);;
  n ← count_bits regs;
  c_assert (0 <=? plugin_pushed_reg_count k - n);;
  emit_stack pop_regs regs (plugin_pushed_reg_count k - n) c.

(** Bit [r] removed from a set. *)
Definition without_reg (regs r : Z) : Z := Z.land regs (u32 (Z.lnot (Z.shiftl 1 r))).

(** The loop over the requested registers: the registers, the available ones
    that remain and those to push; it ends early when none is left. *)
Fixpoint scratch_loop (n : nat) (available min_pushed to_push : Z) : outcome (list Z * Z * Z) :=
  match n with
  | O => Ok ([], available, to_push)
  | S n =>
      r ← next_reg_in_list t available 0;
      if negb (r =? reg_invalid t) then
        x ← scratch_loop n (without_reg available r) min_pushed to_push;
        Ok (r :: fst (fst x), snd (fst x), snd x)
      else
        let min_pushed := min_pushed - 1 in
        if 0 <=? min_pushed then
          x ← scratch_loop n available min_pushed (Z.lor to_push (Z.shiftl 1 min_pushed));
          Ok (min_pushed :: fst (fst x), snd (fst x), snd x)
        else Ok ([], available, to_push)
  end.

(** The registers in the order of the arguments; their number is the result. *)
Definition mambo_get_scratch_regs (c : mambo_context W) (count : Z) : outcome (list Z * mambo_context W) :=
  k ← code_of c;
  min_pushed ← (if negb (pushed_regs k =? 0) then next_reg_in_list t (pushed_regs k) 0 else Ok 8);
  x ← scratch_loop (Z.to_nat count) (available_regs k) min_pushed 0;
  let '(regs, available, to_push) := x in
  let c := set_data (Code (with_regs (Z.lor (pushed_regs k) to_push) available (plugin_pushed_reg_count k) k)) c in
  c ← (if negb (to_push =? 0) then emit_push c to_push else Ok c);
  Ok (regs, c).

Definition mambo_free_scratch_regs (c : mambo_context W) (regs : Z) : outcome (Z * mambo_context W) :=
  k ← code_of c;
  if negb (Z.land regs (pushed_regs k) =? regs) then Ok (-1, c)
  else Ok (0, set_data (Code (with_regs (pushed_regs k) (Z.lor (available_regs k) regs) (plugin_pushed_reg_count k) k)) c).

(** The function calls itself where it means [mambo_free_scratch_regs]. *)
Fixpoint mambo_free_scratch_reg (fuel : nat) (c : mambo_context W) (reg : Z) : outcome (Z * mambo_context W) :=
  match fuel with
  | O => Err OutOfFuel
  | S fuel =>
      if (0 <=? reg) && (reg <? 32) then mambo_free_scratch_reg fuel c (s32 (Z.shiftl 1 reg)) else Err UndefinedShift
  end.
End scratch.

(** ** Delivery *)

Section delivery.
Context {W : Type}.
Implicit Types (g : global W) (c : mambo_context W).

(** Well-formed tables: as long as their declarations say. *)
Record wf g : Prop := {
  wf_plugins : length (plugins g) = Z.to_nat MAX_PLUGIN_NO;
  wf_cbs i p : plugins g !! i = Some p → length (cbs p) = Z.to_nat CALLBACK_MAX_IDX;
  wf_free : 0 ≤ free_plugin g }.

(** The callback of a plugin for an event. *)
Definition callback_of (p : mambo_plugin W) (e : mambo_cb_idx) : option (mambo_callback W) :=
  mjoin (cbs p !! Z.to_nat (cb_enum e)).

(** The callbacks for an event with their plugins, by plugin. *)
Definition registered g (e : mambo_cb_idx) : list (Z * mambo_callback W) :=
  omap (λ x : Z * mambo_plugin W, (λ f, (fst x, f)) <$> callback_of (snd x) e)
    (zip (seqZ 0 (free_plugin g)) (plugins g)).

Fixpoint run_all (l : list (Z * mambo_callback W)) c : outcome (mambo_context W) :=
  match l with
  | [] => Ok c
  | (i, f) :: l => c ← f (set_plugin_id i c); run_all l c
  end.

Lemma cb_enum_range e : 0 ≤ cb_enum e < CALLBACK_MAX_IDX.
Proof. by destruct e. Qed.

Lemma cb_enum_inj e e' : cb_enum e = cb_enum e' → e = e'.
Proof. by destruct e, e'. Qed.

Lemma wf_initial : wf initial.
Proof.
  split; [done | | done]. intros i p Hp. unfold initial in Hp. cbn [plugins] in Hp.
  by apply lookup_replicate_1 in Hp as [-> _].
Qed.

Lemma callback_of_get g i p e : wf g → plugins g !! i = Some p → aget (cbs p) (cb_enum e) = Ok (callback_of p e).
Proof.
  intros Hwf Hp. pose proof (cb_enum_range e). pose proof (wf_cbs _ Hwf _ _ Hp) as Hl. unfold callback_of.
  destruct (lookup_lt_is_Some_2 (cbs p) (Z.to_nat (cb_enum e))) as [x Hx]; [lia|].
  rewrite Hx. apply aget_lookup; [lia | by rewrite Hx].
Qed.

Lemma deliver_loop_spec g e n : wf g → ∀ i c, 0 ≤ i →
  deliver_loop n g (cb_enum e) i c
  = (c ← run_all (omap (λ x : Z * mambo_plugin W, (λ f, (fst x, f)) <$> callback_of (snd x) e)
            (zip (seqZ i (Z.of_nat n)) (drop (Z.to_nat i) (plugins g)))) c;
     if i + Z.of_nat n <=? Z.max i MAX_PLUGIN_NO then Ok c else Err OutOfBounds).
Proof.
  intros Hwf. pose proof (wf_plugins _ Hwf) as Hlen. unfold MAX_PLUGIN_NO in *.
  induction n as [|n IH]; intros i c Hi.
  { cbn [deliver_loop seqZ omap list_omap zip zip_with run_all mbind outcome_bind Z.of_nat]. by rewrite (proj2 (Z.leb_le _ _)) by lia. }
  cbn [deliver_loop]. destruct (decide (i < 10)) as [Hlt|Hge].
  - destruct (lookup_lt_is_Some_2 (plugins g) (Z.to_nat i)) as [p Hp]; [lia|].
    rewrite (aget_lookup _ _ p) by done. cbn [mbind outcome_bind]. rewrite (callback_of_get g _ p e Hwf Hp). cbn [mbind outcome_bind].
    rewrite (drop_S _ p) by done. rewrite seqZ_cons by lia. cbn [zip zip_with omap list_omap].
    replace (S (Z.to_nat i)) with (Z.to_nat (Z.succ i)) by lia. replace (Z.pred (Z.of_nat (S n))) with (Z.of_nat n) by lia.
    assert ((i + Z.of_nat (S n) <=? Z.max i 10) = (Z.succ i + Z.of_nat n <=? Z.max (Z.succ i) 10)) as ->
      by (apply eq_true_iff_eq; rewrite !Z.leb_le; lia).
    cbn [fst snd]. destruct (callback_of p e) as [f|]; cbn [fmap option_fmap option_map run_all].
    + destruct (f (set_plugin_id i c)) as [c'|]; [|done]. cbn [mbind outcome_bind]. by rewrite IH by lia.
    + cbn [mbind outcome_bind]. by rewrite IH by lia.
  - rewrite drop_ge by lia. rewrite zip_with_nil_r. cbn [omap list_omap run_all mbind outcome_bind].
    rewrite (proj2 (Z.leb_gt _ _)) by lia.
    unfold aget. rewrite lookup_ge_None_2 by lia. by destruct (i <? 0).
Qed.

(** C20. Events reach every plugin, in the order of registration: delivery calls
    the callbacks for the event in the order of the plugins, each with its
    plugin in the context and with what the ones before left there, and stops at
    the first that fails. Once more than ten plugins tried to register, every
    delivery that comes through goes on to read behind the table of plugins. *)
Theorem deliver_in_order g c :
  wf g →
  mambo_deliver_callbacks_for_ctx g c
  = (c' ← run_all (registered g (event_type c)) c;
     if free_plugin g <=? MAX_PLUGIN_NO then Ok c' else Err OutOfBounds).
Proof.
  intros Hwf. pose proof (wf_free _ Hwf). pose proof (cb_enum_range (event_type c)).
  unfold mambo_deliver_callbacks_for_ctx. rewrite (proj2 (Z.ltb_lt _ _)) by lia.
  cbn [c_assert mbind outcome_bind]. rewrite (deliver_loop_spec g (event_type c)) by done.
  unfold registered. rewrite Z2Nat.id by done. rewrite drop_0.
  by rewrite Z.add_0_l.
Qed.

(** ** Registration *)

(** Plugins that have not registered have no callbacks. *)
Definition unregistered g : Prop :=
  ∀ i p, plugins g !! i = Some p → free_plugin g ≤ Z.of_nat i → ∀ e, callback_of p e = None.

Lemma unregistered_initial : unregistered initial.
Proof.
  intros i p Hp _ e. unfold initial in Hp. cbn [plugins] in Hp. apply lookup_replicate_1 in Hp as [-> _].
  by destruct e.
Qed.

(** The plugin of the highest id. *)
Lemma registered_snoc g p e n :
  free_plugin g = Z.of_nat n + 1 → plugins g !! n = Some p →
  registered g e
  = registered (MkGlobal (Z.of_nat n) (plugins g)) e ++ match callback_of p e with Some f => [(Z.of_nat n, f)] | None => [] end.
Proof.
  intros Hf Hp. unfold registered. cbn [free_plugin plugins]. rewrite Hf. pose proof (lookup_lt_Some _ _ _ Hp).
  rewrite <- (take_drop_middle _ _ _ Hp). set (l := take n (plugins g)). set (r := drop (S n) (plugins g)).
  assert (length (seqZ 0 (Z.of_nat n)) = length l) by (unfold l; rewrite length_seqZ, length_take; lia).
  rewrite seqZ_app by lia. rewrite zip_with_app by done. rewrite omap_app.
  rewrite <- (app_nil_r (seqZ 0 (Z.of_nat n))) at 2. rewrite (zip_with_app _ (seqZ 0 (Z.of_nat n))) by done. rewrite omap_app, app_nil_r.
  simpl. by destruct (callback_of p e).
Qed.
End delivery.

(** Registration composes with delivery: while ids are left, a plugin gets
    the next one; its first callback for an event is accepted, leaves the table
    well-formed and makes exactly that callback the last of that event's list,
    with the other events untouched; and another callback for the same event is
    then refused without a change. *)
Theorem register_then_receive {W} (g : global W) e cb cb' :
  wf g → unregistered g → free_plugin g < MAX_PLUGIN_NO →
  ∃ c g1 g2, mambo_register_plugin g = (Some c, g1) ∧ plugin_id c = free_plugin g
    ∧ __mambo_register_cb g1 c (cb_enum e) cb = Ok (MAMBO_SUCCESS, g2)
    ∧ __mambo_register_cb g2 c (cb_enum e) cb' = Ok (MAMBO_CB_ALREADY_SET, g2)
    ∧ wf g2 ∧ unregistered g2 ∧ free_plugin g2 = free_plugin g + 1
    ∧ ∀ e', registered g2 e' = registered g e' ++ (if decide (e' = e) then [(free_plugin g, cb)] else []).
Proof.
  intros Hwf Hun Hf. destruct Hwf as [Hl Hc H0]. pose proof (cb_enum_range e) as He. unfold MAX_PLUGIN_NO in *.
  set (n := Z.to_nat (free_plugin g)). destruct (lookup_lt_is_Some_2 (plugins g) n) as [p Hp]; [lia|].
  pose proof (Hc _ _ Hp) as Hlc. unfold CALLBACK_MAX_IDX in *.
  assert (cbs p !! Z.to_nat (cb_enum e) = Some None) as Hslot.
  { destruct (lookup_lt_is_Some_2 (cbs p) (Z.to_nat (cb_enum e))) as [x Hx]; [lia|]. rewrite Hx. f_equal.
    pose proof (Hun _ _ Hp ltac:(lia) e) as Hnone. unfold callback_of in Hnone. by rewrite Hx in Hnone. }
  set (p' := MkPlugin (<[Z.to_nat (cb_enum e) := Some cb]> (cbs p)) (pdata p)).
  exists (set_plugin_id (free_plugin g) (set_mambo_context None PLUGIN_REG)), (MkGlobal (free_plugin g + 1) (plugins g)),
    (MkGlobal (free_plugin g + 1) (<[n := p']> (plugins g))).
  assert (∀ e', callback_of p' e' = if decide (e' = e) then Some cb else None) as Hcb.
  { intros e'. unfold callback_of, p'. cbn [cbs]. destruct (decide (e' = e)) as [->|Hne].
    - by rewrite list_lookup_insert_eq by lia.
    - rewrite list_lookup_insert_ne.
      + apply (Hun _ _ Hp). lia.
      + intros Heq. apply Hne, cb_enum_inj. pose proof (cb_enum_range e'). lia. }
  split_and!.
  - unfold mambo_register_plugin. by rewrite (proj2 (Z.leb_gt _ _)) by (unfold MAX_PLUGIN_NO; lia).
  - done.
  - unfold __mambo_register_cb, CALLBACK_MAX_IDX. rewrite (proj2 (Z.leb_gt _ _)), (proj2 (Z.ltb_ge _ _)) by lia. cbn [orb plugin_id set_plugin_id].
    rewrite u32_small, (proj2 (Z.leb_gt _ _)) by (unfold MAX_PLUGIN_NO; lia). cbn [plugins free_plugin].
    rewrite (aget_lookup _ _ p) by done. cbn [mbind outcome_bind]. rewrite (aget_lookup _ _ None) by (done || lia). cbn [mbind outcome_bind].
    rewrite (proj2 (aset_ok (cbs p) _ _ _)) by (split; [lia | done]). cbn [mbind outcome_bind].
    by rewrite (proj2 (aset_ok (plugins g) _ _ _)) by (split; [lia | done]).
  - unfold __mambo_register_cb, CALLBACK_MAX_IDX. rewrite (proj2 (Z.leb_gt _ _)), (proj2 (Z.ltb_ge _ _)) by lia. cbn [orb plugin_id set_plugin_id].
    rewrite u32_small, (proj2 (Z.leb_gt _ _)) by (unfold MAX_PLUGIN_NO; lia). cbn [plugins free_plugin].
    rewrite (aget_lookup _ _ p') by (lia || (rewrite list_lookup_insert_eq; [done | unfold n; lia])). cbn [mbind outcome_bind].
    rewrite (aget_lookup _ _ (Some cb)); [done | lia | by apply list_lookup_insert_eq; lia].
  - split; cbn [plugins free_plugin]; [by rewrite length_insert | | lia]. intros i q Hq.
    apply list_lookup_insert_Some in Hq as [(<- & <- & _)|[_ Hq]]; [unfold p'; cbn [cbs]; by rewrite length_insert | by apply Hc in Hq].
  - intros i q Hq Hi. cbn [plugins free_plugin] in *. rewrite list_lookup_insert_ne in Hq by lia. by apply (Hun i); [|lia].
  - done.
  - intros e'. rewrite (registered_snoc _ p' _ n); cbn [plugins free_plugin]; [| lia | by apply list_lookup_insert_eq; lia].
    rewrite Hcb. replace (Z.of_nat n) with (free_plugin g) by lia. f_equal; [|by case_decide].
    unfold registered. cbn [plugins free_plugin]. rewrite <- (take_drop n (plugins g)) at 2.
    rewrite <- (take_drop n (<[n := p']> (plugins g))). rewrite take_insert, decide_False by lia.
    rewrite <- (app_nil_r (seqZ 0 (free_plugin g))). rewrite !zip_with_app by (rewrite length_seqZ, length_take; lia). done.
Qed.

(** Two plugins count the events they get in their data. *)
Definition counting (k : Z) : mambo_callback unit := λ c, Ok (set_data (Syscall (MkSyscall (10 * match data c with Syscall s => number s | _ => 0 end + k) [] false 0)) c).

Definition two_plugins : global unit :=
  MkGlobal 2 (MkPlugin (<[13%nat := Some (counting 1)]> (replicate 15 None)) 0
              :: MkPlugin (<[13%nat := Some (counting 2)]> (replicate 15 None)) 0
              :: replicate 8 (MkPlugin (replicate 15 None) 0)).

Lemma deliver_in_order_witness :
  mambo_deliver_callbacks_for_ctx two_plugins (set_mambo_context None EXIT_C)
  = (c' ← run_all (registered two_plugins EXIT_C) (set_mambo_context None EXIT_C);
     if free_plugin two_plugins <=? MAX_PLUGIN_NO then Ok c' else Err OutOfBounds)
  ∧ mambo_deliver_callbacks_for_ctx two_plugins (set_mambo_context None EXIT_C)
    = Ok (MkCtx None EXIT_C 1 (Syscall (MkSyscall 12 [] false 0))).
Proof.
  split; [|reflexivity]. apply (deliver_in_order two_plugins). split; [reflexivity | | done].
  intros i p Hp. do 10 (destruct i as [|i]; [injection Hp as <-; reflexivity|]). discriminate Hp.
Defined.

Lemma register_then_receive_witness :
  ∃ c g1 g2, mambo_register_plugin (@initial unit) = (Some c, g1) ∧ plugin_id c = 0
    ∧ __mambo_register_cb g1 c (cb_enum EXIT_C) (counting 1) = Ok (MAMBO_SUCCESS, g2)
    ∧ registered g2 EXIT_C = [(0, counting 1)].
Proof.
  destruct (register_then_receive (@initial unit) EXIT_C (counting 1) (counting 2)) as (c & g1 & g2 & H1 & H2 & H3 & _ & _ & _ & _ & H4);
    [apply wf_initial | apply unregistered_initial | reflexivity |].
  exists c, g1, g2. split; [exact H1|]. split; [exact H2|]. split; [exact H3|]. rewrite H4. reflexivity.
Defined.

End Plugin.
