(* ===== verification/LinkedList.v ===== *)
(** * Singly linked lists (common.c)

    The program keeps several singly linked lists: the pool allocator [ll] of
    common.c, the lists of direct branches into a basic block (dbm.c), the list
    of threads (dbm.c). [chain] relates such a list in a store to the sequence
    of its nodes; Module LinkedList models the pool allocator. *)
From S2P Require Import Prelude.

(** ** Chains *)

Section chain.
Context (nxt : Z → option (option Z)).

(** From the pointer [p] the nodes [l] are visited, then NULL is reached.
    [nxt i] is the next field of node [i], [None] when [i] is not a node. *)
Fixpoint chain (p : option Z) (l : list Z) : Prop :=
  match l with
  | [] => p = None
  | i :: l => p = Some i ∧ ∃ q, nxt i = Some q ∧ chain q l
  end.

Lemma chain_nil p : chain p [] ↔ p = None.
Proof. done. Qed.

Lemma chain_none l : chain None l → l = [].
Proof. destruct l; [done|]. by intros [? _]. Qed.

Lemma chain_some i l : chain (Some i) l → ∃ q l', l = i :: l' ∧ nxt i = Some q ∧ chain q l'.
Proof. destruct l as [|j l]; [done|]. intros (? & q & ? & ?). simplify_eq. by exists q, l. Qed.

Lemma chain_inj p l1 l2 : chain p l1 → chain p l2 → l1 = l2.
Proof.
  revert p l2. induction l1 as [|i l1 IH]; intros p l2 H1 H2; simpl in H1; subst.
  - symmetry. by apply chain_none.
  - destruct H1 as (-> & q & Hq & H1). apply chain_some in H2 as (q' & l' & -> & Hq' & H2).
    f_equal. assert (q = q') as <- by congruence. by eapply IH.
Qed.

Lemma chain_node p l i : chain p l → i ∈ l → is_Some (nxt i).
Proof.
  revert p. induction l as [|j l IH]; intros p Hc Hi; [by apply elem_of_nil in Hi|].
  destruct Hc as (_ & q & Hq & Hc). apply elem_of_cons in Hi as [->|Hi]; [by rewrite Hq|].
  by eapply IH.
Qed.

Lemma chain_app_inv p l1 i l2 :
  chain p (l1 ++ i :: l2) → ∃ q, nxt i = Some q ∧ chain q l2.
Proof.
  revert p. induction l1 as [|j l1 IH]; intros p; simpl.
  - intros (_ & q & ? & ?). by exists q.
  - intros (_ & q & _ & Hc). by eapply IH.
Qed.
End chain.

(** Writes outside a chain do not change it. *)
Lemma chain_ext nxt nxt' p l :
  (∀ i, i ∈ l → nxt' i = nxt i) → chain nxt p l → chain nxt' p l.
Proof.
  revert p. induction l as [|i l IH]; intros p Hn; [done|]. intros (-> & q & Hq & Hc).
  split; [done|]. exists q. rewrite Hn by (by constructor). split; [done|].
  apply IH; [|done]. intros j Hj. apply Hn. by constructor.
Qed.

(** A node visited twice would be visited for ever. *)
Lemma chain_nodup nxt p l : chain nxt p l → NoDup l.
Proof.
  intros Hc. apply NoDup_alt. intros i j x Hi Hj.
  assert (∀ i j : nat, l !! i = Some x → l !! j = Some x → i < j → False)%nat as Hlt.
  { clear i j Hi Hj. intros i j Hi Hj Hlt.
    apply list_elem_of_split_length in Hi as (l1 & l2 & -> & ->).
    apply list_elem_of_split_length in Hj as (l3 & l4 & He & ->).
    destruct (chain_app_inv _ _ _ _ _ Hc) as (q & Hq & Hc2). rewrite He in Hc.
    destruct (chain_app_inv _ _ _ _ _ Hc) as (q' & Hq' & Hc4).
    assert (q' = q) as -> by congruence. assert (l2 = l4) as -> by by eapply chain_inj.
    apply (f_equal length) in He. rewrite !length_app in He. simpl in He. lia. }
  destruct (decide (i = j)); [done|]. exfalso.
  destruct (decide (i < j)%nat); [by eapply (Hlt i j) | eapply (Hlt j i); [done | done | lia]].
Qed.

Module LinkedList.

(** Pointers into the pool are indices, NULL is [None]. *)
Record ll_entry := LlEntry { next : option Z; data : Z }.

Record ll := Ll { free_list : option Z; size : Z; pool : list ll_entry }.

(** [list->pool[i].next = p]. *)
Definition set_next (es : list ll_entry) (i : Z) (p : option Z) : outcome (list ll_entry) :=
  e ← aget es i; aset es i (LlEntry p (data e)).

(** The loop at index [i] with [n] iterations left. *)
Fixpoint init_loop (n : nat) (i : Z) (es : list ll_entry) : outcome (list ll_entry) :=
  match n with
  | O => Ok es
  | S n => es ← set_next es i (Some (i + 1)); init_loop n (i + 1) es
  end.

Definition linked_list_init (list : ll) (size : Z) : outcome ll :=
  c_assert (1 <=? size) ;;
  es ← init_loop (Z.to_nat (size - 1)) 0 (pool list);
  es ← set_next es (size - 1) None;
  Ok (Ll (Some 0) size es).

Definition linked_list_alloc (list : ll) : outcome (option Z * ll) :=
  match free_list list with
  | None => Ok (None, list)
  | Some entry =>
      e ← aget (pool list) entry;
      es ← aset (pool list) entry (LlEntry None (data e));
      Ok (Some entry, Ll (next e) (size list) es)
  end.

(** The next fields of a pool. *)
Definition pool_next (es : list ll_entry) (i : Z) : option (option Z) :=
  if i <? 0 then None else next <$> es !! Z.to_nat i.

(** [l] are the free entries, in the order they will be handed out. *)
Definition free_chain (li : ll) (l : list Z) : Prop :=
  chain (pool_next (pool li)) (free_list li) l.

Lemma pool_next_lookup es i e :
  0 ≤ i → es !! Z.to_nat i = Some e → pool_next es i = Some (next e).
Proof. intros Hi He. unfold pool_next. tests [(i <? 0, false)]. by rewrite He. Qed.

Lemma pool_next_insert_ne es i j e :
  0 ≤ i → i ≠ j → pool_next (<[Z.to_nat i := e]> es) j = pool_next es j.
Proof.
  intros Hi Hne. unfold pool_next. destruct (Z.ltb_spec j 0); [done|].
  by rewrite list_lookup_insert_ne by lia.
Qed.

Lemma pool_next_insert_eq es i e :
  0 ≤ i < Z.of_nat (length es) → pool_next (<[Z.to_nat i := e]> es) i = Some (next e).
Proof.
  intros Hi. apply pool_next_lookup; [lia|]. apply list_lookup_insert_eq. lia.
Qed.

Lemma pool_next_some es i q :
  pool_next es i = Some q → ∃ e, 0 ≤ i ∧ es !! Z.to_nat i = Some e ∧ next e = q.
Proof.
  unfold pool_next. destruct (Z.ltb_spec i 0); [done|].
  destruct (es !! Z.to_nat i) as [e|] eqn:He; [|done]. intros. simplify_eq/=. by exists e.
Qed.

Lemma set_next_ok es i e p :
  0 ≤ i → es !! Z.to_nat i = Some e →
  set_next es i p = Ok (<[Z.to_nat i := LlEntry p (data e)]> es).
Proof.
  intros Hi He. unfold set_next. rewrite (proj2 (aget_ok es i e)) by done.
  cbn [mbind outcome_bind]. apply aset_ok. split; [|done]. apply lookup_lt_Some in He. lia.
Qed.

(** The data words of a pool. *)
Definition pool_data (es : list ll_entry) : list Z := data <$> es.

Lemma pool_data_set es i e p :
  es !! i = Some e → pool_data (<[i := LlEntry p (data e)]> es) = pool_data es.
Proof.
  intros He. unfold pool_data. rewrite list_fmap_insert. simpl. apply list_insert_id.
  by rewrite list_lookup_fmap, He.
Qed.

Lemma init_loop_spec n i es :
  0 ≤ i → i + Z.of_nat n ≤ Z.of_nat (length es) →
  ∃ es', init_loop n i es = Ok es' ∧ length es' = length es ∧ pool_data es' = pool_data es
    ∧ (∀ j, pool_next es' j =
            if decide (i ≤ j < i + Z.of_nat n) then Some (Some (j + 1)) else pool_next es j).
Proof.
  revert i es. induction n as [|n IH]; intros i es Hi Hl.
  - exists es. split_and!; try done. intros j. by rewrite decide_False by lia.
  - destruct (lookup_lt_is_Some_2 es (Z.to_nat i)) as [e He]; [lia|].
    simpl. rewrite (set_next_ok _ _ e) by done. cbn [mbind outcome_bind].
    set (es1 := <[Z.to_nat i := LlEntry (Some (i + 1)) (data e)]> es).
    destruct (IH (i + 1) es1) as (es' & Hes & Hlen & Hd & Hn).
    { lia. } { unfold es1. rewrite length_insert. lia. }
    exists es'. unfold es1 in *. rewrite length_insert in Hlen. split_and!; try done.
    { rewrite Hd. by apply pool_data_set. }
    intros j. rewrite Hn. destruct (decide (j = i)) as [->|].
    + rewrite decide_False, decide_True by lia. by apply pool_next_insert_eq; lia.
    + rewrite pool_next_insert_ne by lia. by do 2 case_decide; try lia.
Qed.

Lemma chain_seqZ nxt n i :
  (∀ j, i ≤ j < i + Z.of_nat n → nxt j = Some (Some (j + 1))) →
  nxt (i + Z.of_nat n) = Some None →
  chain nxt (Some i) (seqZ i (Z.of_nat (S n))).
Proof.
  revert i. induction n as [|n IH]; intros i Hn Hlast.
  - rewrite Z.add_0_r in Hlast. split; [done|]. by exists None.
  - rewrite seqZ_cons by lia. replace (Z.pred (Z.of_nat (S (S n)))) with (Z.of_nat (S n)) by lia.
    split; [done|]. exists (Some (i + 1)). split; [apply Hn; lia|].
    apply IH; [intros j Hj; apply Hn; lia|].
    by replace (Z.succ i + Z.of_nat n) with (i + Z.of_nat (S n)) by lia.
Qed.

(** [linked_list_init] puts the first [size] entries of the pool on the free
    list, in order, whatever the pool held before. *)
Lemma linked_list_init_spec list sz :
  1 ≤ sz ≤ Z.of_nat (length (pool list)) →
  ∃ list', linked_list_init list sz = Ok list' ∧ size list' = sz
    ∧ free_chain list' (seqZ 0 sz)
    ∧ length (pool list') = length (pool list)
    ∧ pool_data (pool list') = pool_data (pool list).
Proof.
  intros Hsz. unfold linked_list_init. tests [(1 <=? sz, true)]. cbn [c_assert].
  change (Ok () ;; ?m) with m.
  destruct (init_loop_spec (Z.to_nat (sz - 1)) 0 (pool list)) as (es & -> & Hl & Hd & Hn); [lia|lia|].
  cbn [mbind outcome_bind].
  destruct (lookup_lt_is_Some_2 es (Z.to_nat (sz - 1))) as [e He]; [lia|].
  rewrite (set_next_ok _ _ e) by (lia || done). cbn [mbind outcome_bind].
  eexists. split; [done|]. simpl. rewrite length_insert, (pool_data_set _ _ _ _ He).
  split_and!; try done.
  unfold free_chain. simpl. assert (seqZ 0 sz = seqZ 0 (Z.of_nat (S (Z.to_nat (sz - 1))))) as -> by (f_equal; lia).
  apply chain_seqZ.
  - intros j Hj. rewrite pool_next_insert_ne by lia. rewrite Hn. by rewrite decide_True by lia.
  - replace (0 + Z.of_nat (Z.to_nat (sz - 1))) with (sz - 1) by lia.
    apply pool_next_insert_eq. lia.
Qed.

(** [linked_list_alloc] hands out the first free entry, detached, and touches
    nothing else; it returns NULL exactly when no entry is free. *)
Lemma linked_list_alloc_nil list :
  free_chain list [] → linked_list_alloc list = Ok (None, list).
Proof. unfold free_chain, linked_list_alloc. simpl. by intros ->. Qed.

Lemma linked_list_alloc_cons list i l :
  free_chain list (i :: l) →
  ∃ list' e, pool list !! Z.to_nat i = Some e ∧ 0 ≤ i
    ∧ linked_list_alloc list = Ok (Some i, list')
    ∧ pool list' = <[Z.to_nat i := LlEntry None (data e)]> (pool list)
    ∧ size list' = size list ∧ free_chain list' l.
Proof.
  intros Hc. pose proof (chain_nodup _ _ _ Hc) as Hnd. apply NoDup_cons in Hnd as [Hnd _].
  destruct Hc as (Hf & q & Hq & Hc). apply pool_next_some in Hq as (e & Hi & He & <-).
  unfold linked_list_alloc. rewrite Hf, (proj2 (aget_ok _ _ e)) by done.
  cbn [mbind outcome_bind].
  rewrite (proj2 (aset_ok _ (<[Z.to_nat i := LlEntry None (data e)]> (pool list)) _ _)).
  2: { split; [|done]. apply lookup_lt_Some in He. lia. }
  cbn [mbind outcome_bind]. eexists _, e. split_and!; try done. unfold free_chain. simpl.
  eapply chain_ext; [|done]. intros j Hj. apply pool_next_insert_ne; [done|]. by intros ->.
Qed.

End LinkedList.
