(* ===== verification/AddressTable.v ===== *)
(** * The interface of the code cache hash table

    What dbm.c, the dispatcher and the trace builder rely on: an object that
    behaves as a finite map from source to translated addresses. The clients'
    theorems are proved against the class; CodeCacheHash provides the
    implementation the program uses. *)
From S2P Require Import Prelude LinearProbe CodeCacheHash.
Export CodeCacheHash (target, arm, aarch64, riscv_compressed, riscv,
  CODE_CACHE_HASH_SIZE, CODE_CACHE_HASH_OVERP).

(** Tables that are initialised with the size [sz]. *)
Class AddressTable (T : Type) (sz : Z) := {
  at_lookup : T → Z → outcome Z;
  at_add : T → Z → Z → outcome (bool * T);
  at_init : T → Z → outcome T;
  (** The table holds the map; [at_valid] is what any table satisfies,
      initialised or not. *)
  at_repr : T → gmap Z Z → Prop;
  at_valid : T → Prop;
  at_repr_valid t m : at_repr t m → at_valid t;
  at_lookup_law t m k : at_repr t m → k ≠ 0 → at_lookup t k = Ok (default UINT_MAX (m !! k));
  at_add_law t m k v :
    at_repr t m → k ≠ 0 →
    (∃ t', at_add t k v = Ok (true, t') ∧ at_repr t' (<[k := v]> m)) ∨ at_add t k v = Err Hang;
  at_init_law t : at_valid t → ∃ t', at_init t sz = Ok t' ∧ at_repr t' ∅
}.

(** The tables of common.c with [2^p - 1 + CODE_CACHE_HASH_OVERP] entries. *)
Section implementation.
Context (tgt : target) (p : Z) (Hp : 0 ≤ p ≤ 30).

Definition table_size : Z := 2 ^ p - 1 + CODE_CACHE_HASH_OVERP.

Definition table_valid (t : CodeCacheHash.hash_table) : Prop :=
  Z.of_nat (length (CodeCacheHash.entries t)) = table_size.

Definition table_repr (t : CodeCacheHash.hash_table) (m : gmap Z Z) : Prop :=
  CodeCacheHash.wf tgt t ∧ represents (CodeCacheHash.entries t) m ∧ table_valid t.

#[refine, global] Instance CodeCacheHash_table : AddressTable CodeCacheHash.hash_table table_size := {
  at_lookup := CodeCacheHash.hash_lookup tgt;
  at_add := CodeCacheHash.hash_add tgt;
  at_init := CodeCacheHash.hash_init;
  at_repr := table_repr;
  at_valid := table_valid
}.
Proof.
  - by intros t m (_ & _ & ?).
  - intros t m k (Hwf & Hm & _). by apply CodeCacheHash.hash_lookup_map.
  - intros t m k v (Hwf & Hm & Hv) Hk.
    destruct (CodeCacheHash.hash_add_map tgt t m k v Hwf Hm Hk)
      as [(t' & Ha & Hwf' & Hm' & Hs)|[Ha _]]; [left | by right].
    exists t'. unfold table_repr, table_valid in *. split_and!; try done.
    pose proof (CodeCacheHash.wf_length _ _ Hwf). pose proof (CodeCacheHash.wf_length _ _ Hwf').
    lia.
  - intros t Hv. destruct (CodeCacheHash.hash_init_map tgt t p Hp Hv) as (t' & Hi & Hwf & Hm & _).
    exists t'. unfold table_repr, table_valid in *. rewrite <- Hv at 1. split_and!; try done.
    rewrite (CodeCacheHash.wf_length _ _ Hwf). unfold CodeCacheHash.hash_init in Hi.
    apply bind_ok_inv in Hi as (es & _ & Hi). by simplify_eq.
Defined.
End implementation.
