(* ===== verification/Dbm.v ===== *)
(** * The code cache (dbm.c, dbm.h)

    Every thread owns a code cache: [CODE_CACHE_SIZE] basic blocks of
    [BASIC_BLOCK_SIZE] words followed by the trace area, the metadata of both,
    the table from source to translated addresses and a pool of records of
    direct branches between blocks. The file models the allocator with its
    reserve of overflow blocks, the flush, lookup and (stub) translation, the
    translation of code cache addresses to fragments, and the link records. *)
From S2P Require Import Prelude LinearProbe CodeCacheHash LinkedList AddressTable.

Module Dbm.

(** The parameters of dbm.h that can be tuned, the build options that change
    this code, and the size of the dispatcher the assembler produces. *)
Record config := MkConfig {
  cfg_target : target;
  DBM_TRACES : bool;
  DBM_TRIBI : bool;
  DBM_JUMP_TRAMPOLINES : bool;
  CODE_CACHE_SIZE : Z;
  BASIC_BLOCK_SIZE : Z;
  TRACE_FRAGMENT_NO : Z;
  CODE_CACHE_OVERP : Z;
  MAX_BRANCH_RANGE : Z;
  MAX_CC_LINKS : Z;
  TABLE_SIZE : Z;
  trampolines_size_bbs : Z
}.

(** The values of dbm.h and common.h. *)
Definition dbm_config (t : target) (traces tribi trampolines : bool) (bbs : Z) : config :=
  MkConfig t traces tribi trampolines (if traces then 55000 else 65000) 64 60000 512
    (16 * 1024 * 1024) 100000 (CODE_CACHE_HASH_SIZE + CODE_CACHE_HASH_OVERP) bbs.

Definition is_riscv (t : target) : bool :=
  match t with riscv_compressed | riscv => true | _ => false end.
Definition is_arm (t : target) : bool := match t with arm => true | _ => false end.

Definition ALLOCATE_BB : Z := 0.
Definition THUMB : Z := 1.

Inductive branch_type :=
  | unknown
  | stub
  | trace_inline_max
  (* __arm__ *)
  | uncond_b_to_bl_thumb
  | uncond_imm_thumb
  | uncond_reg_thumb
  | cond_imm_thumb
  | cond_reg_thumb
  | cbz_thumb
  | uncond_blxi_thumb
  | cond_blxi_thumb
  | cond_imm_arm
  | uncond_imm_arm
  | cond_reg_arm
  | uncond_reg_arm
  | uncond_blxi_arm
  | cond_blxi_arm
  | tbb
  | tbh
  | tb_indirect
  | pred_bxlr
  | pred_pop16pc
  | pred_ldmfd32pc
  | pred_armbxlr
  | pred_ldrpcsp
  | pred_armldmpc
  | pred_bad
  (* __aarch64__ *)
  | uncond_imm_a64
  | uncond_branch_reg
  | cond_imm_a64
  | cbz_a64
  | tbz_a64
  | trace_exit
  (* __riscv *)
  | jal_riscv
  | jalr_riscv
  | branch_riscv
  | atomic_memory_riscv.

#[global] Instance branch_type_eq_dec : EqDecision branch_type.
Proof. solve_decision. Defined.

Inductive cc_type := mambo_bb | mambo_trace | mambo_trace_entry.

(** Pointers to code are addresses, pointers to link records indices of the
    pool; NULL is [None] where the code tests for it. *)
Record dbm_code_cache_meta := MkMeta {
  source_addr : Z;
  tpc : Z;
  exit_branch_type : branch_type;
  actual_id : Z;
  exit_branch_addr : Z;
  branch_taken_addr : Z;
  branch_skipped_addr : Z;
  branch_condition : Z;
  branch_cache_status : Z;
  rn : Z;
  rs1 : Z;
  rs2 : Z;
  next_prediction_slot : option Z;
  ihlu_address : option Z;
  number_of_predictions : Z;
  link : bool;
  imm : Z;
  rd : Z;
  inst : Z;
  read_addr : Z;
  trampoline_addr : option Z;
  trampoline_slots_used : Z;
  free_b : Z;
  linked_from : option Z;
  saved_exit : list Z
}.

Definition set_source_addr (v : Z) (r : dbm_code_cache_meta) : dbm_code_cache_meta :=
  MkMeta v (tpc r) (exit_branch_type r) (actual_id r) (exit_branch_addr r)
    (branch_taken_addr r) (branch_skipped_addr r) (branch_condition r)
    (branch_cache_status r) (rn r) (rs1 r) (rs2 r) (next_prediction_slot r)
    (ihlu_address r) (number_of_predictions r) (link r) (imm r) (rd r) (inst r)
    (read_addr r) (trampoline_addr r) (trampoline_slots_used r) (free_b r)
    (linked_from r) (saved_exit r).
Definition set_tpc (v : Z) (r : dbm_code_cache_meta) : dbm_code_cache_meta :=
  MkMeta (source_addr r) v (exit_branch_type r) (actual_id r) (exit_branch_addr r)
    (branch_taken_addr r) (branch_skipped_addr r) (branch_condition r)
    (branch_cache_status r) (rn r) (rs1 r) (rs2 r) (next_prediction_slot r)
    (ihlu_address r) (number_of_predictions r) (link r) (imm r) (rd r) (inst r)
    (read_addr r) (trampoline_addr r) (trampoline_slots_used r) (free_b r)
    (linked_from r) (saved_exit r).
Definition set_exit_branch_type (v : branch_type) (r : dbm_code_cache_meta) : dbm_code_cache_meta :=
  MkMeta (source_addr r) (tpc r) v (actual_id r) (exit_branch_addr r)
    (branch_taken_addr r) (branch_skipped_addr r) (branch_condition r)
    (branch_cache_status r) (rn r) (rs1 r) (rs2 r) (next_prediction_slot r)
    (ihlu_address r) (number_of_predictions r) (link r) (imm r) (rd r) (inst r)
    (read_addr r) (trampoline_addr r) (trampoline_slots_used r) (free_b r)
    (linked_from r) (saved_exit r).
Definition set_branch_cache_status (v : Z) (r : dbm_code_cache_meta) : dbm_code_cache_meta :=
  MkMeta (source_addr r) (tpc r) (exit_branch_type r) (actual_id r) (exit_branch_addr r)
    (branch_taken_addr r) (branch_skipped_addr r) (branch_condition r) v (rn r) (rs1 r)
    (rs2 r) (next_prediction_slot r) (ihlu_address r) (number_of_predictions r) (link r)
    (imm r) (rd r) (inst r) (read_addr r) (trampoline_addr r) (trampoline_slots_used r)
    (free_b r) (linked_from r) (saved_exit r).
Definition set_linked_from (v : option Z) (r : dbm_code_cache_meta) : dbm_code_cache_meta :=
  MkMeta (source_addr r) (tpc r) (exit_branch_type r) (actual_id r) (exit_branch_addr r)
    (branch_taken_addr r) (branch_skipped_addr r) (branch_condition r)
    (branch_cache_status r) (rn r) (rs1 r) (rs2 r) (next_prediction_slot r)
    (ihlu_address r) (number_of_predictions r) (link r) (imm r) (rd r) (inst r)
    (read_addr r) (trampoline_addr r) (trampoline_slots_used r) (free_b r) v
    (saved_exit r).
Definition set_trampoline_slots_used (v : Z) (r : dbm_code_cache_meta) : dbm_code_cache_meta :=
  MkMeta (source_addr r) (tpc r) (exit_branch_type r) (actual_id r) (exit_branch_addr r)
    (branch_taken_addr r) (branch_skipped_addr r) (branch_condition r)
    (branch_cache_status r) (rn r) (rs1 r) (rs2 r) (next_prediction_slot r)
    (ihlu_address r) (number_of_predictions r) (link r) (imm r) (rd r) (inst r)
    (read_addr r) (trampoline_addr r) v (free_b r) (linked_from r) (saved_exit r).

Record trace_exits := TraceExit {
  from : Z;
  to : Z;
  fragment_id : Z;
  exit_condition : Z
}.

Record trace_in_prog := MkTrace {
  tp_id : Z;
  source_bb : Z;
  tp_write_p : Z;
  entry_addr : Z;
  active : bool;
  free_exit_rec : Z;
  exits : list trace_exits
}.

Definition set_tp_id (v : Z) (r : trace_in_prog) : trace_in_prog :=
  MkTrace v (source_bb r) (tp_write_p r) (entry_addr r) (active r) (free_exit_rec r)
    (exits r).


Section thread.
Context {T : Type}.

Record dbm_thread := MkThread {
  free_block : Z;
  was_flushed : bool;
  code_cache : Z;
  code_cache_meta : list dbm_code_cache_meta;
  entry_address : T;
  exec_count : list Z;
  trace_cache_next : Z;
  trace_id : Z;
  trace_fragment_count : Z;
  active_trace : trace_in_prog;
  cc_links : LinkedList.ll
}.

Definition set_free_block (v : Z) (r : dbm_thread) : dbm_thread :=
  MkThread v (was_flushed r) (code_cache r) (code_cache_meta r) (entry_address r)
    (exec_count r) (trace_cache_next r) (trace_id r) (trace_fragment_count r)
    (active_trace r) (cc_links r).
Definition set_was_flushed (v : bool) (r : dbm_thread) : dbm_thread :=
  MkThread (free_block r) v (code_cache r) (code_cache_meta r) (entry_address r)
    (exec_count r) (trace_cache_next r) (trace_id r) (trace_fragment_count r)
    (active_trace r) (cc_links r).
Definition set_code_cache_meta (v : list dbm_code_cache_meta) (r : dbm_thread) : dbm_thread :=
  MkThread (free_block r) (was_flushed r) (code_cache r) v (entry_address r)
    (exec_count r) (trace_cache_next r) (trace_id r) (trace_fragment_count r)
    (active_trace r) (cc_links r).
Definition set_entry_address (v : T) (r : dbm_thread) : dbm_thread :=
  MkThread (free_block r) (was_flushed r) (code_cache r) (code_cache_meta r) v
    (exec_count r) (trace_cache_next r) (trace_id r) (trace_fragment_count r)
    (active_trace r) (cc_links r).
Definition set_cc_links (v : LinkedList.ll) (r : dbm_thread) : dbm_thread :=
  MkThread (free_block r) (was_flushed r) (code_cache r) (code_cache_meta r)
    (entry_address r) (exec_count r) (trace_cache_next r) (trace_id r)
    (trace_fragment_count r) (active_trace r) v.

End thread.
Arguments dbm_thread T : clear implicits.

Section operations.
Context (cfg : config) {T : Type} `{!AddressTable T (TABLE_SIZE cfg)}.
Implicit Types (th : dbm_thread T).

(** [sizeof(dbm_block)], the trace area, and the addresses of blocks and traces;
    pointers into the code cache do not wrap around. *)
Definition sizeof_dbm_block : Z := BASIC_BLOCK_SIZE cfg * 4.
Definition TRACE_CACHE_SIZE : Z :=
  MAX_BRANCH_RANGE cfg - CODE_CACHE_SIZE cfg * BASIC_BLOCK_SIZE cfg * 4.
Definition block_addr th (i : Z) : Z := code_cache th + i * sizeof_dbm_block.
Definition traces_addr th : Z := code_cache th + CODE_CACHE_SIZE cfg * sizeof_dbm_block.

Definition adjust_cc_entry (addr : Z) : Z :=
  if is_arm (cfg_target cfg) && negb (addr =? UINT_MAX)
  then addr + (4 - Z.shiftl (Z.land addr 1) 1) else addr.

(** What the flush does to the metadata of a basic block. *)
Definition flush_meta (m : dbm_code_cache_meta) : dbm_code_cache_meta :=
  let rv := is_riscv (cfg_target cfg) in
  let tr := rv && DBM_JUMP_TRAMPOLINES cfg in
  let pr := rv && DBM_TRACES cfg && DBM_TRIBI cfg in
  MkMeta (source_addr m) (tpc m) unknown 0 (exit_branch_addr m) (branch_taken_addr m)
    (branch_skipped_addr m) (branch_condition m) 0 (rn m) (rs1 m) (rs2 m)
    (if pr then None else next_prediction_slot m) (ihlu_address m)
    (if pr then 0 else number_of_predictions m) (link m) (imm m) (rd m) (inst m)
    (read_addr m) (if tr then None else trampoline_addr m)
    (if tr then 0 else trampoline_slots_used m) (free_b m) None (saved_exit m).

Definition flush_code_cache th : outcome (dbm_thread T) :=
  table ← at_init (entry_address th) (TABLE_SIZE cfg);
  let tr := DBM_TRACES cfg in
  metas ← c_for (Z.to_nat (CODE_CACHE_SIZE cfg)) 0
            (λ i ms, aupd ms i flush_meta) (code_cache_meta th);
  execs ← (if tr then c_for (Z.to_nat (CODE_CACHE_SIZE cfg)) 0
                        (λ i es, aset es i 0) (exec_count th)
           else Ok (exec_count th));
  links ← LinkedList.linked_list_init (cc_links th) (MAX_CC_LINKS cfg);
  Ok (MkThread (trampolines_size_bbs cfg) true (code_cache th) metas table execs
        (if tr then traces_addr th else trace_cache_next th)
        (if tr then CODE_CACHE_SIZE cfg else trace_id th)
        (trace_fragment_count th)
        (if tr then set_tp_id (CODE_CACHE_SIZE cfg) (active_trace th) else active_trace th) links).

Definition cc_lookup th (target : Z) : outcome Z :=
  addr ← at_lookup (entry_address th) target;
  Ok (adjust_cc_entry addr).

Definition is_bb th (addr : Z) : bool :=
  (code_cache th <=? addr) && (addr <? traces_addr th).
Definition is_trace th (addr : Z) : bool :=
  (traces_addr th <=? addr) && (addr <? traces_addr th + TRACE_CACHE_SIZE).

Definition addr_to_bb_id th (addr : Z) : Z :=
  if (addr <? code_cache th) || (traces_addr th <? addr) then -1
  else (addr - code_cache th) / sizeof_dbm_block.

(** The binary search over the translated addresses of the trace fragments. *)
Fixpoint fragment_search (fuel : nat) (metas : list dbm_code_cache_meta) (addr first last : Z)
    : outcome Z :=
  match fuel with
  | O => Err OutOfFuel
  | S fuel =>
      if first <=? last then
        let pivot := (first + last) / 2 in
        m ← aget metas pivot;
        if addr <? tpc m then fragment_search fuel metas addr first (pivot - 1)
        else
          m1 ← aget metas (pivot + 1);
          if tpc m1 <=? addr then fragment_search fuel metas addr (pivot + 1) last
          else Ok pivot
      else Ok (-1)
  end.

Definition addr_to_fragment_id th (addr : Z) : outcome Z :=
  c_assert ((code_cache th <=? addr) && (addr <? code_cache th + MAX_BRANCH_RANGE cfg)) ;;
  let id := addr_to_bb_id th addr in
  if 0 <=? id then
    m ← aget (code_cache_meta th) id;
    Ok (if negb (actual_id m =? 0) then actual_id m else id)
  else if DBM_TRACES cfg then
    let first := CODE_CACHE_SIZE cfg in
    let last := tp_id (active_trace th) - 1 in
    m ← aget (code_cache_meta th) last;
    if tpc m <=? addr then
      c_assert (addr <? traces_addr th + TRACE_CACHE_SIZE) ;;
      Ok last
    else fragment_search (S (Z.to_nat (last - first + 1))) (code_cache_meta th) addr first last
  else Ok (-1).

(** The cache is flushed when only the reserve of overflow blocks is left. *)
Definition allocate_bb th : outcome (Z * dbm_thread T) :=
  th ← (if CODE_CACHE_SIZE cfg - CODE_CACHE_OVERP cfg <=? free_block th
        then flush_code_cache th else Ok th);
  Ok (free_block th, set_free_block (free_block th + 1) th).

Definition allocate_bb_overflow th : outcome (Z * dbm_thread T) :=
  c_assert (free_block th <? CODE_CACHE_SIZE cfg) ;;
  Ok (free_block th, set_free_block (free_block th + 1) th).

(** [thread_data->code_cache_meta[i] = f(...)]. *)
Definition upd_meta (i : Z) (f : dbm_code_cache_meta → dbm_code_cache_meta) th
    : outcome (dbm_thread T) :=
  ms ← aupd (code_cache_meta th) i f; Ok (set_code_cache_meta ms th).

(** [hash_add], with the infinite loop of its callers on failure. *)
Definition add_entry (target addr : Z) th : outcome (dbm_thread T) :=
  r ← at_add (entry_address th) target addr;
  if fst r : bool then Ok (set_entry_address (snd r) th) else Err Hang.

Definition record_cc_link th (linked_from_addr linked_to_addr : Z) : outcome (dbm_thread T) :=
  let linked_to := addr_to_bb_id th linked_to_addr in
  if linked_to <? 0 then Ok th
  else
    r ← LinkedList.linked_list_alloc (cc_links th);
    match fst r with
    | None => Err AssertFail
    | Some entry =>
        m ← aget (code_cache_meta th) linked_to;
        es ← aset (LinkedList.pool (snd r)) entry
               (LinkedList.LlEntry (linked_from m) linked_from_addr);
        upd_meta linked_to (set_linked_from (Some entry))
          (set_cc_links (LinkedList.Ll (LinkedList.free_list (snd r))
                           (LinkedList.size (snd r)) es) th)
    end.

(** The scanners are the component that translates a block: they get the state,
    the source address, the block or fragment and, for traces, where to write,
    and return the new state and the number of bytes emitted. The two stub
    encoders write a call of the dispatcher into a block. *)
Record scanners := MkScanners {
  scan_t32 : dbm_thread T → Z → Z → cc_type → Z → outcome (dbm_thread T * Z);
  scan_a32 : dbm_thread T → Z → Z → cc_type → Z → outcome (dbm_thread T * Z);
  scan_a64 : dbm_thread T → Z → Z → cc_type → Z → outcome (dbm_thread T * Z);
  scan_riscv : dbm_thread T → Z → Z → cc_type → Z → outcome (dbm_thread T * Z);
  thumb_encode_stub_bb : dbm_thread T → Z → Z → outcome (dbm_thread T);
  arm_encode_stub_bb : dbm_thread T → Z → Z → outcome (dbm_thread T)
}.

Section translation.
Context (scn : scanners).

(** The call of the scanner for the target. *)
Definition scan_block th (address basic_block : Z) : outcome (dbm_thread T * Z) :=
  match cfg_target cfg with
  | arm =>
      if Z.land address THUMB =? 0 then scan_a32 scn th address basic_block mambo_bb 0
      else scan_t32 scn th (Z.land address 0xFFFFFFFE) basic_block mambo_bb 0
  | aarch64 => scan_a64 scn th address basic_block mambo_bb 0
  | _ => scan_riscv scn th address basic_block mambo_bb 0
  end.

(** The address of a block as the table records it: with the Thumb bit. *)
Definition entry_of th (address basic_block : Z) : Z :=
  let block_address := block_addr th basic_block in
  if is_arm (cfg_target cfg) then Z.lor block_address (Z.land address THUMB)
  else block_address.

(** Returns the entry point, the state and the ranges whose instruction cache
    is cleared. *)
Definition scan th (address basic_block : Z) : outcome (Z * dbm_thread T * list (Z * Z)) :=
  let stub := negb (basic_block =? ALLOCATE_BB) in
  r ← (if stub then Ok (basic_block, th) else allocate_bb th);
  let basic_block := fst r in let th := snd r in
  let block_address := block_addr th basic_block in
  th ← upd_meta basic_block (λ m, set_tpc block_address (set_source_addr address m)) th;
  let block_address := entry_of th address basic_block in
  th ← (if stub then Ok th else add_entry address block_address th);
  x ← scan_block th address basic_block;
  let th := fst x in
  let cleared :=
    if free_block th <? basic_block
    then [(block_address, traces_addr th);
          (block_addr th (trampolines_size_bbs cfg), block_addr th (free_block th))]
    else [(block_address, block_address + snd x + 1)] in
  Ok (adjust_cc_entry block_address, th, cleared).

(** The last component is [*cached]. *)
Definition lookup_or_scan_with_cached th (target : Z) : outcome (Z * dbm_thread T * bool) :=
  block_address ← cc_lookup th target;
  y ← (if negb (block_address =? UINT_MAX) && negb (is_trace th block_address) then
         let basic_block := addr_to_bb_id th block_address in
         m ← aget (code_cache_meta th) basic_block;
         Ok (if decide (exit_branch_type m = stub) then UINT_MAX else block_address, basic_block)
       else Ok (block_address, ALLOCATE_BB));
  if negb (fst y =? UINT_MAX) then Ok (fst y, th, true)
  else r ← scan th target (snd y); Ok (fst (fst r), snd (fst r), false).

Definition lookup_or_scan th (target : Z) : outcome (Z * dbm_thread T) :=
  r ← lookup_or_scan_with_cached th target; Ok (fst r).

Definition stub_bb th (target : Z) : outcome (Z * dbm_thread T) :=
  r ← allocate_bb th;
  let basic_block := fst r in
  let block_address := block_addr (snd r) basic_block in
  let thumb := Z.land target THUMB in
  let block_address :=
    if is_arm (cfg_target cfg) then block_address + thumb else block_address in
  th ← upd_meta basic_block (set_exit_branch_type stub) (snd r);
  th ← add_entry target block_address th;
  th ← match cfg_target cfg with
       | arm => if negb (thumb =? 0) then thumb_encode_stub_bb scn th basic_block target
                else arm_encode_stub_bb scn th basic_block target
       | aarch64 => Err AssertFail
       | _ => Ok th
       end;
  Ok (adjust_cc_entry block_address, th).

Definition lookup_or_stub th (target : Z) : outcome (Z * dbm_thread T) :=
  block_address ← cc_lookup th target;
  if block_address =? UINT_MAX then stub_bb th target else Ok (block_address, th).
End translation.
End operations.

(** ** Well-formed states *)

(** What the parameters have to satisfy. *)
Record config_ok (cfg : config) : Prop := {
  ok_overp : 0 < CODE_CACHE_OVERP cfg;
  ok_trampolines : 0 < trampolines_size_bbs cfg < CODE_CACHE_SIZE cfg - CODE_CACHE_OVERP cfg;
  ok_block : ∃ p, 1 ≤ p ∧ BASIC_BLOCK_SIZE cfg = 2 ^ p;
  ok_fragments : 0 < TRACE_FRAGMENT_NO cfg;
  ok_range : CODE_CACHE_SIZE cfg * BASIC_BLOCK_SIZE cfg * 4 < MAX_BRANCH_RANGE cfg;
  ok_links : 1 ≤ MAX_CC_LINKS cfg
}.

Lemma dbm_config_ok t traces tribi trampolines bbs :
  0 < bbs < 54000 → config_ok (dbm_config t traces tribi trampolines bbs).
Proof. intros. destruct traces; constructor; simpl; try lia; by exists 6. Qed.

Section proofs.
Context (cfg : config) {T : Type} `{!AddressTable T (TABLE_SIZE cfg)}.
Context (Hcfg : config_ok cfg).
Implicit Types (th : dbm_thread T).

Lemma block_size_8 : (8 | sizeof_dbm_block cfg).
Proof.
  destruct (ok_block _ Hcfg) as (p & Hp & He). unfold sizeof_dbm_block. rewrite He.
  exists (2 ^ (p - 1)). replace p with (1 + (p - 1)) at 1 by lia. rewrite Z.pow_add_r by lia. lia.
Qed.

Lemma block_size_pos : 8 ≤ sizeof_dbm_block cfg.
Proof.
  destruct (ok_block _ Hcfg) as (p & Hp & He). unfold sizeof_dbm_block. rewrite He.
  pose proof (Z.pow_le_mono_r 2 1 p ltac:(lia) ltac:(lia)). lia.
Qed.

Lemma cache_size_pos : 0 < CODE_CACHE_SIZE cfg.
Proof. pose proof (ok_trampolines _ Hcfg). pose proof (ok_overp _ Hcfg). lia. Qed.

(** The arrays have their lengths and the allocator is in range. *)
Record shape th : Prop := {
  shape_metas : Z.of_nat (length (code_cache_meta th))
                = CODE_CACHE_SIZE cfg + TRACE_FRAGMENT_NO cfg;
  shape_execs : Z.of_nat (length (exec_count th)) = CODE_CACHE_SIZE cfg;
  shape_pool : MAX_CC_LINKS cfg ≤ Z.of_nat (length (LinkedList.pool (cc_links th)));
  shape_table : at_valid (entry_address th);
  shape_free : trampolines_size_bbs cfg ≤ free_block th ≤ CODE_CACHE_SIZE cfg;
  shape_cache : 0 ≤ code_cache th;
  shape_aligned : (sizeof_dbm_block cfg | code_cache th)
}.

(** The metadata of the basic blocks (traces are not in the lists of links). *)
Definition bb_metas th : list dbm_code_cache_meta :=
  take (Z.to_nat (CODE_CACHE_SIZE cfg)) (code_cache_meta th).

(** [F] are the free link records, [Ls] for every basic block the records of
    the direct branches to it; no record is in two lists. *)
Record links th (F : list Z) (Ls : list (list Z)) : Prop := {
  links_free : LinkedList.free_chain (cc_links th) F;
  links_blocks : Forall2 (λ m l, chain (LinkedList.pool_next (LinkedList.pool (cc_links th)))
                                   (linked_from m) l) (bb_metas th) Ls;
  links_disjoint : NoDup (F ++ mjoin Ls)
}.

(** *** The flush *)

Lemma clear_exec_counts n (es : list Z) :
  (n ≤ length es)%nat →
  c_for n 0 (λ i es, aset es i 0) es = Ok (replicate n 0 ++ drop n es).
Proof.
  intros Hn.
  destruct (c_for_inv (λ j l', l' = replicate (Z.to_nat j) 0 ++ drop (Z.to_nat j) es)
              n 0 (λ i es, aset es i 0) es) as (l' & -> & ->).
  - done.
  - intros j l' Hj ->. destruct (lookup_lt_is_Some_2 es (Z.to_nat j)) as [x Hx]; [lia|].
    eexists. split.
    + apply aset_ok. split; [|done]. rewrite length_app, length_replicate, length_drop. lia.
    + rewrite insert_app_r_alt, length_replicate, Nat.sub_diag by (rewrite length_replicate; lia).
      replace (Z.to_nat (j + 1)) with (S (Z.to_nat j)) by lia.
      by rewrite replicate_S_end, <- app_assoc, (drop_S _ x) by done.
  - by replace (Z.to_nat (0 + Z.of_nat n)) with n by lia.
Qed.

Lemma flush_ok th :
  shape th →
  ∃ th', flush_code_cache cfg th = Ok th' ∧ shape th'
    ∧ code_cache_meta th' = (flush_meta cfg <$> bb_metas th)
                            ++ drop (Z.to_nat (CODE_CACHE_SIZE cfg)) (code_cache_meta th)
    ∧ free_block th' = trampolines_size_bbs cfg ∧ was_flushed th' = true
    ∧ code_cache th' = code_cache th ∧ at_repr (entry_address th') ∅
    ∧ LinkedList.free_chain (cc_links th') (seqZ 0 (MAX_CC_LINKS cfg))
    ∧ (DBM_TRACES cfg = true →
         exec_count th' = replicate (Z.to_nat (CODE_CACHE_SIZE cfg)) 0
         ∧ trace_cache_next th' = traces_addr cfg th' ∧ trace_id th' = CODE_CACHE_SIZE cfg
         ∧ tp_id (active_trace th') = CODE_CACHE_SIZE cfg).
Proof.
  intros Hs. pose proof (shape_metas _ Hs). pose proof (shape_execs _ Hs).
  pose proof (ok_fragments _ Hcfg). pose proof cache_size_pos.
  pose proof (ok_trampolines _ Hcfg). pose proof (ok_overp _ Hcfg). pose proof (ok_links _ Hcfg).
  destruct (at_init_law _ (shape_table _ Hs)) as (tb & Htb & Hr).
  destruct (LinkedList.linked_list_init_spec (cc_links th) (MAX_CC_LINKS cfg))
    as (li & Hli & Hsz & Hfree & Hlen & _); [pose proof (shape_pool _ Hs); lia|].
  unfold flush_code_cache. rewrite Htb. cbn [mbind outcome_bind].
  rewrite (c_for_aupd (flush_meta cfg)) by lia. cbn [mbind outcome_bind].
  rewrite clear_exec_counts by lia.
  exists (MkThread (trampolines_size_bbs cfg) true (code_cache th)
    ((flush_meta cfg <$> bb_metas th) ++ drop (Z.to_nat (CODE_CACHE_SIZE cfg)) (code_cache_meta th))
    tb (if DBM_TRACES cfg then replicate (Z.to_nat (CODE_CACHE_SIZE cfg)) 0 else exec_count th)
    (if DBM_TRACES cfg then traces_addr cfg th else trace_cache_next th)
    (if DBM_TRACES cfg then CODE_CACHE_SIZE cfg else trace_id th) (trace_fragment_count th)
    (if DBM_TRACES cfg then set_tp_id (CODE_CACHE_SIZE cfg) (active_trace th) else active_trace th) li).
  rewrite (drop_ge (exec_count th)), app_nil_r by lia.
  split.
  { destruct (DBM_TRACES cfg); cbn [mbind outcome_bind]; by rewrite Hli. }
  split_and!; try done; [|by destruct (DBM_TRACES cfg)].
  constructor; simpl.
  - rewrite length_app, length_fmap, length_drop. unfold bb_metas. rewrite length_take. lia.
  - destruct (DBM_TRACES cfg); [rewrite length_replicate|]; lia.
  - rewrite Hlen. apply (shape_pool _ Hs).
  - by eapply at_repr_valid.
  - lia.
  - apply (shape_cache _ Hs).
  - apply (shape_aligned _ Hs).
Qed.

Lemma flush_links th th' :
  shape th → flush_code_cache cfg th = Ok th' →
  links th' (seqZ 0 (MAX_CC_LINKS cfg)) (replicate (Z.to_nat (CODE_CACHE_SIZE cfg)) []).
Proof.
  intros Hs Hf. pose proof (shape_metas _ Hs). pose proof (ok_fragments _ Hcfg).
  pose proof cache_size_pos.
  destruct (flush_ok th Hs) as (th1 & Hf' & Hs' & Hm & _ & _ & _ & _ & Hfree & _).
  rewrite Hf in Hf'. injection Hf' as <-.
  constructor; [done | |].
  - unfold bb_metas at 1. rewrite Hm, take_app_le, take_ge; unfold bb_metas.
    2,3: rewrite length_fmap, length_take; lia.
    apply Forall2_same_length_lookup_2.
    { rewrite length_fmap, length_take, length_replicate. lia. }
    intros i m l Hi Hl. rewrite list_lookup_fmap in Hi.
    apply fmap_Some in Hi as (m0 & _ & ->). by apply lookup_replicate in Hl as [-> _].
  - assert (∀ n, mjoin (replicate n []) = ([] : list Z)) as -> by (induction n; done).
    rewrite app_nil_r. apply NoDup_seqZ.
Qed.

(** *** Updates of the metadata *)

Lemma upd_meta_ok i f th m :
  0 ≤ i → code_cache_meta th !! Z.to_nat i = Some m →
  upd_meta i f th = Ok (set_code_cache_meta (<[Z.to_nat i := f m]> (code_cache_meta th)) th).
Proof. intros Hi Hm. unfold upd_meta. by rewrite (aupd_lookup _ _ _ m). Qed.

Lemma bb_metas_lookup th (i : nat) :
  (i < Z.to_nat (CODE_CACHE_SIZE cfg))%nat → bb_metas th !! i = code_cache_meta th !! i.
Proof. intros. by apply lookup_take_lt. Qed.

Lemma meta_at th i :
  shape th → 0 ≤ i < CODE_CACHE_SIZE cfg + TRACE_FRAGMENT_NO cfg →
  ∃ m, code_cache_meta th !! Z.to_nat i = Some m.
Proof. intros Hs Hi. apply lookup_lt_is_Some_2. pose proof (shape_metas _ Hs). lia. Qed.

(** *** Link records *)

Lemma mjoin_insert_perm (Ls : list (list Z)) (i : nat) l x :
  Ls !! i = Some l → mjoin (<[i := x :: l]> Ls) ≡ₚ x :: mjoin Ls.
Proof.
  revert i. induction Ls as [|l0 Ls IH]; intros [|i] Hi; simpl in *; simplify_eq; [done|].
  rewrite (IH i) by done. by rewrite Permutation_middle.
Qed.

Lemma mjoin_elem (Ls : list (list Z)) (i : nat) l x :
  Ls !! i = Some l → x ∈ l → x ∈ mjoin Ls.
Proof. intros Hi Hx. apply list_elem_of_join. exists l. split; [done|]. by eapply list_elem_of_lookup_2. Qed.

(** Recording a link moves the first free record to the front of the list of
    the block that is linked to. *)
Lemma record_cc_link_bb th F Ls f lfrom lto :
  shape th → links th (f :: F) Ls →
  code_cache th ≤ lto < traces_addr cfg th →
  let b := Z.to_nat ((lto - code_cache th) / sizeof_dbm_block cfg) in
  ∃ th' l, record_cc_link cfg th lfrom lto = Ok th' ∧ shape th'
    ∧ Ls !! b = Some l ∧ links th' F (<[b := f :: l]> Ls)
    ∧ LinkedList.pool_data (LinkedList.pool (cc_links th'))
      = <[Z.to_nat f := lfrom]> (LinkedList.pool_data (LinkedList.pool (cc_links th))).
Proof.
  intros Hs [Hfree Hbl Hnd] Hto b. pose proof block_size_pos.
  unfold traces_addr in Hto. set (bb := (lto - code_cache th) / sizeof_dbm_block cfg) in *.
  assert (0 ≤ bb < CODE_CACHE_SIZE cfg) as Hbb.
  { unfold bb. split; [apply Z.div_pos; lia|]. apply Z.div_lt_upper_bound; lia. }
  pose proof (ok_fragments _ Hcfg).
  destruct (meta_at th bb Hs) as [m Hm]; [lia|].
  assert (bb_metas th !! b = Some m) as Hbm by (rewrite bb_metas_lookup; [done | lia]).
  destruct (Forall2_lookup_l _ _ _ _ _ Hbl Hbm) as (l & Hl & Hc).
  destruct (LinkedList.linked_list_alloc_cons _ _ _ Hfree)
    as (li & e & He & Hf & Ha & Hp & Hsz & Hfree').
  pose proof (lookup_lt_Some _ _ _ He).
  set (es := <[Z.to_nat f := LinkedList.LlEntry (linked_from m) lfrom]> (LinkedList.pool li)).
  assert (∀ j, j ≠ f → LinkedList.pool_next es j
                       = LinkedList.pool_next (LinkedList.pool (cc_links th)) j) as Hes.
  { intros j Hj. unfold es. rewrite Hp. by rewrite !LinkedList.pool_next_insert_ne by done. }
  simpl in Hnd. apply NoDup_cons in Hnd as [Hfnew Hnd]. rewrite elem_of_app in Hfnew.
  assert (addr_to_bb_id cfg th lto = bb) as Hid.
  { unfold addr_to_bb_id, traces_addr. tests [(lto <? code_cache th, false);
      (code_cache th + CODE_CACHE_SIZE cfg * sizeof_dbm_block cfg <? lto, false)]. done. }
  exists (set_code_cache_meta (<[b := set_linked_from (Some f) m]> (code_cache_meta th))
            (set_cc_links (LinkedList.Ll (LinkedList.free_list li) (LinkedList.size li) es) th)), l.
  split_and!; [| | done | |].
  - unfold record_cc_link. rewrite Hid. tests [(bb <? 0, false)]. rewrite Ha.
    cbn [mbind outcome_bind fst snd]. rewrite (aget_lookup _ bb m) by (lia || done).
    cbn [mbind outcome_bind]. rewrite (proj2 (aset_ok _ es _ _)).
    2: { split; [rewrite Hp, length_insert; lia | done]. }
    cbn [mbind outcome_bind]. by rewrite (upd_meta_ok bb _ (set_cc_links _ th) m) by (lia || done).
  - destruct Hs. constructor; try done; simpl.
    + by rewrite length_insert.
    + unfold es. by rewrite Hp, !length_insert.
  - constructor.
    + unfold LinkedList.free_chain in *. simpl. eapply chain_ext; [|exact Hfree'].
      intros j Hj. unfold es. apply LinkedList.pool_next_insert_ne; naive_solver.
    + unfold bb_metas. simpl. rewrite take_insert_lt by lia. apply Forall2_insert.
      * apply Forall2_same_length_lookup in Hbl as [Hlen Hbl].
        apply Forall2_same_length_lookup. split; [done|]. intros k m' l' Hk Hl'.
        eapply chain_ext; [|by eapply Hbl]. intros j Hj. apply Hes. intros ->.
        apply Hfnew. right. by eapply mjoin_elem.
      * simpl. split; [done|]. exists (linked_from m). split.
        { unfold es. apply LinkedList.pool_next_insert_eq. rewrite Hp, length_insert. lia. }
        eapply chain_ext; [|exact Hc]. intros j Hj. apply Hes. intros ->.
        apply Hfnew. right. by eapply mjoin_elem.
    + rewrite (mjoin_insert_perm _ _ l) by done. rewrite <- Permutation_middle.
      constructor; [by rewrite elem_of_app | done].
  - simpl. unfold es, LinkedList.pool_data. rewrite Hp, !list_fmap_insert. simpl.
    by rewrite list_insert_insert_eq.
Qed.

(** *** The allocator *)

(** [n] calls of [allocate_bb_overflow]. *)
Fixpoint allocate_overflows (n : nat) th : outcome (list Z * dbm_thread T) :=
  match n with
  | O => Ok ([], th)
  | S n =>
      r ← allocate_bb_overflow cfg th;
      x ← allocate_overflows n (snd r);
      Ok (fst r :: fst x, snd x)
  end.

Lemma allocate_overflows_ok n th :
  free_block th + Z.of_nat n ≤ CODE_CACHE_SIZE cfg →
  allocate_overflows n th
  = Ok (seqZ (free_block th) (Z.of_nat n), set_free_block (free_block th + Z.of_nat n) th).
Proof.
  revert th. induction n as [|n IH]; intros th Hn.
  - simpl. do 2 f_equal. destruct th. unfold set_free_block. simpl. f_equal. lia.
  - cbn [allocate_overflows]. unfold allocate_bb_overflow.
    tests [(free_block th <? CODE_CACHE_SIZE cfg, true)].
    cbn [mbind outcome_bind c_assert fst snd]. rewrite IH by (simpl; lia).
    cbn [mbind outcome_bind fst snd free_block set_free_block]. rewrite (seqZ_cons (free_block th)) by lia.
    replace (Z.pred (Z.of_nat (S n))) with (Z.of_nat n) by lia.
    by replace (free_block th + Z.of_nat (S n)) with (free_block th + 1 + Z.of_nat n) by lia.
Qed.

Lemma shape_set_free_block th v :
  shape th → trampolines_size_bbs cfg ≤ v ≤ CODE_CACHE_SIZE cfg → shape (set_free_block v th).
Proof. intros [] ?. by constructor. Qed.

(** The state before the block is taken: flushed or not. *)
Lemma allocate_bb_ok th :
  shape th →
  ∃ th0, allocate_bb cfg th = Ok (free_block th0, set_free_block (free_block th0 + 1) th0)
    ∧ shape th0
    ∧ trampolines_size_bbs cfg ≤ free_block th0 < CODE_CACHE_SIZE cfg - CODE_CACHE_OVERP cfg
    ∧ (th0 = th ∧ free_block th < CODE_CACHE_SIZE cfg - CODE_CACHE_OVERP cfg
       ∨ flush_code_cache cfg th = Ok th0
         ∧ CODE_CACHE_SIZE cfg - CODE_CACHE_OVERP cfg ≤ free_block th).
Proof.
  intros Hs. pose proof (ok_trampolines _ Hcfg). unfold allocate_bb.
  destruct (Z.leb_spec (CODE_CACHE_SIZE cfg - CODE_CACHE_OVERP cfg) (free_block th)).
  - destruct (flush_ok th Hs) as (th0 & Hf & Hs' & _ & Hfb & _). rewrite Hf.
    cbn [mbind outcome_bind]. exists th0. split_and!; [done | done | lia | lia | by right].
  - cbn [mbind outcome_bind]. exists th. pose proof (shape_free _ Hs).
    split_and!; [done | done | lia | lia | by left].
Qed.

(** *** Fragments *)

(** The fragments of the traces built so far lie in the trace area in the order
    of their identifiers. *)
Record traces_sorted th (n : Z) : Prop := {
  sorted_id : tp_id (active_trace th) = CODE_CACHE_SIZE cfg + n;
  sorted_bound : 0 < n < TRACE_FRAGMENT_NO cfg;
  sorted_tpc : ∀ i j mi mj, CODE_CACHE_SIZE cfg ≤ i < j → j < CODE_CACHE_SIZE cfg + n →
    code_cache_meta th !! Z.to_nat i = Some mi → code_cache_meta th !! Z.to_nat j = Some mj →
    tpc mi < tpc mj
}.

(** The binary search, on any range that brackets the address. *)
Lemma fragment_search_ok th n addr fuel first last :
  shape th → traces_sorted th n →
  CODE_CACHE_SIZE cfg ≤ first → first ≤ last < CODE_CACHE_SIZE cfg + n →
  (∀ m, code_cache_meta th !! Z.to_nat first = Some m → tpc m ≤ addr) →
  (∃ j m, last ≤ j ≤ last + 1 ∧ j < CODE_CACHE_SIZE cfg + n
     ∧ code_cache_meta th !! Z.to_nat j = Some m ∧ addr < tpc m) →
  last - first + 1 < Z.of_nat fuel →
  ∃ i mi mj, fragment_search fuel (code_cache_meta th) addr first last = Ok i
    ∧ first ≤ i ≤ last ∧ i + 1 < CODE_CACHE_SIZE cfg + n
    ∧ code_cache_meta th !! Z.to_nat i = Some mi
    ∧ code_cache_meta th !! Z.to_nat (i + 1) = Some mj ∧ tpc mi ≤ addr < tpc mj.
Proof.
  intros Hs Hn Hf. revert first last Hf. induction fuel as [|fuel IH];
    intros first last Hf Hl Hlo Hhi Hfuel; [lia|].
  pose proof (sorted_bound _ _ Hn). pose proof cache_size_pos.
  cbn [fragment_search]. tests [(first <=? last, true)].
  set (pivot := (first + last) / 2).
  assert (first ≤ pivot ≤ last) as Hp.
  { pose proof (Z.div_mod (first + last) 2 ltac:(lia)).
    pose proof (Z.mod_pos_bound (first + last) 2 ltac:(lia)). unfold pivot. lia. }
  destruct (meta_at th pivot Hs) as [m Hm]; [lia|].
  destruct (meta_at th (pivot + 1) Hs) as [m1 Hm1]; [lia|].
  rewrite (aget_lookup _ pivot m) by (lia || done). cbn [mbind outcome_bind].
  destruct (Z.ltb_spec addr (tpc m)) as [Hlt|Hge].
  - assert (first < pivot) as Hfp.
    { destruct (decide (first = pivot)) as [Hfp|]; [|lia].
      rewrite <- Hfp in Hm. specialize (Hlo m Hm). lia. }
    destruct (IH first (pivot - 1)) as (i & mi & mj & Hi & Hb & ?); try lia; try done.
    { exists pivot, m. split_and!; try done; lia. }
    exists i, mi, mj. split; [done|]. split; [lia | done].
  - destruct Hhi as (j & mj' & Hj & Hjn & Hmj & Hltj).
    assert (pivot < j) as Hpj.
    { destruct (decide (pivot = j)) as [Hpj|]; [|lia]. rewrite Hpj in Hm. simplify_eq. lia. }
    rewrite (aget_lookup _ (pivot + 1) m1) by (lia || done). cbn [mbind outcome_bind].
    destruct (Z.leb_spec (tpc m1) addr) as [Hle|Hgt].
    + assert (pivot < last) as Hpl.
      { destruct (decide (pivot = last)) as [Hpl|]; [|lia].
        replace j with (pivot + 1) in Hmj by lia. simplify_eq. lia. }
      destruct (IH (pivot + 1) last) as (i & mi & mj & Hi & Hb & ?); try lia; try done.
      { intros m'. rewrite Hm1. by intros [= <-]. }
      { by exists j, mj'. }
      exists i, mi, mj. split; [done|]. split; [lia | done].
    + exists pivot, m, m1. split_and!; try done; lia.
Qed.

(** The fragments that start at or before an address are those up to the one
    that contains it. *)
Lemma sorted_split th n addr i mi :
  traces_sorted th n → CODE_CACHE_SIZE cfg ≤ i < CODE_CACHE_SIZE cfg + n →
  code_cache_meta th !! Z.to_nat i = Some mi → tpc mi ≤ addr →
  (∀ m', i + 1 < CODE_CACHE_SIZE cfg + n →
         code_cache_meta th !! Z.to_nat (i + 1) = Some m' → addr < tpc m') →
  (i + 1 < CODE_CACHE_SIZE cfg + n → is_Some (code_cache_meta th !! Z.to_nat (i + 1))) →
  ∀ j mj, CODE_CACHE_SIZE cfg ≤ j < CODE_CACHE_SIZE cfg + n →
    code_cache_meta th !! Z.to_nat j = Some mj → (tpc mj ≤ addr ↔ j ≤ i).
Proof.
  intros Hn Hi Hmi Hle Hnext Hsome j mj Hj Hmj. split; intros H.
  - destruct (decide (j ≤ i)) as [|Hji]; [done|exfalso].
    destruct Hsome as [m' Hm']; [lia|]. specialize (Hnext m' ltac:(lia) Hm').
    destruct (decide (j = i + 1)) as [->|]; [simplify_eq; lia|].
    pose proof (sorted_tpc _ _ Hn (i + 1) j m' mj). specialize (H0 ltac:(lia) ltac:(lia) Hm' Hmj). lia.
  - destruct (decide (j = i)) as [->|]; [simplify_eq; lia|].
    pose proof (sorted_tpc _ _ Hn j i mj mi ltac:(lia) ltac:(lia) Hmj Hmi). lia.
Qed.

Lemma addr_to_bb_id_range th addr :
  let id := addr_to_bb_id cfg th addr in
  (addr < code_cache th ∨ traces_addr cfg th < addr → id = -1)
  ∧ (code_cache th ≤ addr ≤ traces_addr cfg th →
       0 ≤ id ≤ CODE_CACHE_SIZE cfg
       ∧ block_addr cfg th id ≤ addr < block_addr cfg th (id + 1)).
Proof.
  pose proof block_size_pos. pose proof cache_size_pos.
  unfold addr_to_bb_id, block_addr. split; intros Ha.
  - destruct (Z.ltb_spec addr (code_cache th)), (Z.ltb_spec (traces_addr cfg th) addr); done || lia.
  - tests [(addr <? code_cache th, false); (traces_addr cfg th <? addr, false)].
    unfold traces_addr in Ha. set (o := addr - code_cache th).
    pose proof (Z.div_mod o (sizeof_dbm_block cfg) ltac:(lia)).
    pose proof (Z.mod_pos_bound o (sizeof_dbm_block cfg) ltac:(lia)).
    split; [|unfold o in *; lia]. split; [apply Z.div_pos; unfold o; lia|].
    apply Z.div_le_upper_bound; unfold o; lia.
Qed.

(** *** Lookup and translation *)

(** The state in which the scanner is called for [target] in block [b]. *)
Definition scanning th (target b : Z) : dbm_thread T :=
  match code_cache_meta th !! Z.to_nat b with
  | Some m => set_code_cache_meta
      (<[Z.to_nat b := set_tpc (block_addr cfg th b) (set_source_addr target m)]>
         (code_cache_meta th)) th
  | None => th
  end.

Lemma scanning_ok th target b :
  shape th → 0 ≤ b < CODE_CACHE_SIZE cfg →
  upd_meta b (λ m, set_tpc (block_addr cfg th b) (set_source_addr target m)) th
  = Ok (scanning th target b).
Proof.
  intros Hs Hb. pose proof (ok_fragments _ Hcfg). destruct (meta_at th b Hs) as [m Hm]; [lia|].
  rewrite (upd_meta_ok _ _ _ m) by (lia || done). unfold scanning. by rewrite Hm.
Qed.

Lemma scanning_fields th target b :
  entry_address (scanning th target b) = entry_address th
  ∧ (∀ a i, entry_of cfg (scanning th target b) a i = entry_of cfg th a i)
  ∧ free_block (scanning th target b) = free_block th.
Proof. unfold scanning, entry_of, block_addr. by destruct (code_cache_meta th !! Z.to_nat b). Qed.

Lemma add_entry_ok th m target addr :
  at_repr (entry_address th) m → target ≠ 0 →
  (∃ table, at_repr table (<[target := addr]> m)
     ∧ add_entry cfg target addr th = Ok (set_entry_address table th))
  ∨ add_entry cfg target addr th = Err Hang.
Proof.
  intros Hr Ht. unfold add_entry.
  destruct (at_add_law _ m target addr Hr Ht) as [(tb & Ha & ?)|Ha]; rewrite Ha;
    [left; by exists tb | by right].
Qed.

(** The clearing of the instruction cache at the end of [scan]. *)
Definition cleared th (b entry len : Z) : list (Z * Z) :=
  if free_block th <? b
  then [(entry, traces_addr cfg th);
        (block_addr cfg th (trampolines_size_bbs cfg), block_addr cfg th (free_block th))]
  else [(entry, entry + len + 1)].

(** A call of [scan] for a new block: the scanner runs in a state whose table
    already has the entry, so that a branch back to [target] finds it. *)
Lemma scan_new scn th m target :
  shape th → at_repr (entry_address th) m → target ≠ 0 →
  ∃ th0 m0 b, allocate_bb cfg th = Ok (b, th0)
    ∧ trampolines_size_bbs cfg ≤ b < CODE_CACHE_SIZE cfg - CODE_CACHE_OVERP cfg
    ∧ free_block th0 = b + 1
    ∧ (m0 = m ∧ was_flushed th0 = was_flushed th ∨ m0 = ∅ ∧ was_flushed th0 = true)
    ∧ let entry := entry_of cfg th0 target b in
      (∃ table, at_repr table (<[target := entry]> m0)
         ∧ scan cfg scn th target ALLOCATE_BB
           = (x ← scan_block cfg scn (set_entry_address table (scanning th0 target b)) target b;
              Ok (adjust_cc_entry cfg entry, fst x, cleared (fst x) b entry (snd x))))
      ∨ scan cfg scn th target ALLOCATE_BB = Err Hang.
Proof.
  intros Hs Hr Ht. destruct (allocate_bb_ok th Hs) as (th1 & Ha & Hs1 & Hb & Hth1).
  pose proof (ok_overp _ Hcfg). pose proof (ok_trampolines _ Hcfg).
  assert (∃ m0, at_repr (entry_address th1) m0
          ∧ (m0 = m ∧ was_flushed th1 = was_flushed th ∨ m0 = ∅ ∧ was_flushed th1 = true))
    as (m0 & Hr0 & Hm0).
  { destruct Hth1 as [[-> _]|[Hf _]]; [exists m; tauto|].
    destruct (flush_ok th Hs) as (th' & Hf' & _ & _ & _ & Hw & _ & Hr' & _).
    rewrite Hf in Hf'. injection Hf' as <-. exists ∅. tauto. }
  set (b := free_block th1) in *. set (th0 := set_free_block (b + 1) th1) in *.
  assert (shape th0) as Hs0 by (apply shape_set_free_block; [done | lia]).
  exists th0, m0, b. split_and!; try done; try lia.
  intros entry. unfold scan. tests [(ALLOCATE_BB =? ALLOCATE_BB, true)].
  rewrite Ha. cbn [mbind outcome_bind fst snd].
  rewrite scanning_ok by (done || lia). cbn [mbind outcome_bind].
  destruct (scanning_fields th0 target b) as (Hea & Heo & _). rewrite !Heo. fold entry.
  destruct (add_entry_ok (scanning th0 target b) m0 target entry) as [(tb & Hrb & Hadd)|Hadd];
    [by rewrite Hea | done | left | right]; rewrite Hadd; [|done].
  by exists tb.
Qed.

(** A call of [scan] for a stub translates into the block of the stub. *)
Lemma scan_stub scn th target b :
  shape th → 0 < b < CODE_CACHE_SIZE cfg →
  let entry := entry_of cfg th target b in
  scan cfg scn th target b
  = (x ← scan_block cfg scn (scanning th target b) target b;
     Ok (adjust_cc_entry cfg entry, fst x, cleared (fst x) b entry (snd x))).
Proof.
  intros Hs Hb entry. unfold scan, ALLOCATE_BB. tests [(b =? 0, false)].
  cbn [mbind outcome_bind fst snd]. rewrite scanning_ok by (done || lia).
  cbn [mbind outcome_bind]. destruct (scanning_fields th target b) as (_ & Heo & _).
  by rewrite !Heo.
Qed.

(** Entry points: the block address with the Thumb bit and the offset past the
    code that only the dispatcher's callers need. *)
Lemma entry_point th target b :
  shape th → 0 ≤ b < CODE_CACHE_SIZE cfg →
  let e := adjust_cc_entry cfg (entry_of cfg th target b) in
  block_addr cfg th b ≤ e < block_addr cfg th (b + 1)
  ∧ addr_to_bb_id cfg th e = b ∧ is_trace cfg th e = false ∧ e ≠ UINT_MAX
  ∧ (is_arm (cfg_target cfg) = true →
       entry_of cfg th target b = block_addr cfg th b + Z.land target THUMB).
Proof.
  intros Hs Hb e. pose proof block_size_pos. destruct block_size_8 as [k Hk].
  destruct (shape_aligned _ Hs) as [k' Hk']. pose proof (shape_cache _ Hs).
  set (a := block_addr cfg th b) in *.
  assert (a = 8 * (k * (k' + b))) as Ha8 by (unfold a, block_addr; rewrite Hk', Hk; ring).
  assert (Z.land target THUMB = target mod 2) as Ht.
  { apply land_1. }
  pose proof (Z.mod_pos_bound target 2 ltac:(lia)).
  assert (Z.lor a (Z.land target THUMB) = a + target mod 2) as Hor.
  { pose proof (Z.add_lor_land a (Z.land target THUMB)) as Hl.
    assert (Z.land a (Z.land target THUMB) = 0) as Hz; [|lia].
    rewrite (Z.land_comm target), Z.land_assoc.
    assert (Z.land a THUMB = 0) as ->; [|done].
    unfold THUMB. rewrite land_1.
    replace a with (0 + 4 * (k * (k' + b)) * 2) by lia. by rewrite Z.mod_add. }
  assert (e = a ∨ e = a + 3 ∨ e = a + 4) as He.
  { unfold e, adjust_cc_entry, entry_of. fold a. destruct (is_arm (cfg_target cfg)); simpl; [|by left].
    rewrite Hor. assert (target mod 2 = 0 ∨ target mod 2 = 1) as [-> | ->] by lia.
    - rewrite Z.add_0_r. destruct (Z.eqb_spec a UINT_MAX); simpl; [by left|].
      right; right. rewrite land_1. replace (a mod 2) with 0; [change (Z.shiftl 0 1) with 0; lia|].
      replace a with (0 + 4 * (k * (k' + b)) * 2) by lia. by rewrite Z.mod_add.
    - destruct (Z.eqb_spec (a + 1) UINT_MAX); simpl; [unfold UINT_MAX in *; lia|].
      right; left. rewrite land_1. replace ((a + 1) mod 2) with 1; [change (Z.shiftl 1 1) with 2; lia|].
      replace (a + 1) with (1 + 4 * (k * (k' + b)) * 2) by lia. by rewrite Z.mod_add. }
  assert (block_addr cfg th (b + 1) = a + sizeof_dbm_block cfg) as Hnext
    by (unfold a, block_addr; lia).
  assert (code_cache th ≤ a ∧ a + sizeof_dbm_block cfg ≤ traces_addr cfg th) as [Hlo Hhi].
  { unfold a, block_addr, traces_addr. nia. }
  split_and!; [lia | lia | | | unfold UINT_MAX; lia |].
  - unfold addr_to_bb_id. tests [(e <? code_cache th, false); (traces_addr cfg th <? e, false)].
    symmetry. apply (Z.div_unique _ _ _ (e - a)); [lia|]. unfold a, block_addr. lia.
  - unfold is_trace. by tests [(traces_addr cfg th <=? e, false)].
  - intros Harm. unfold entry_of. rewrite Harm. fold a. by rewrite Hor, Ht.
Qed.
End proofs.

(** ** Properties *)

Section properties.
Context (cfg : config) {T : Type} `{!AddressTable T (TABLE_SIZE cfg)}.
Context (Hcfg : config_ok cfg).

(** C17. [flush_code_cache] returns the thread to the state of an empty cache,
    whatever it held: no source address is translated, the first block after
    the dispatcher is free, no basic block is linked or linked from, every link
    record is free and belongs to no block, and the trace area is empty. The
    metadata of trace fragments is left as it was. *)
Theorem flush_code_cache_spec (th : dbm_thread T) :
  shape cfg th →
  ∃ th', flush_code_cache cfg th = Ok th' ∧ shape cfg th'
    ∧ at_repr (entry_address th') ∅
    ∧ free_block th' = trampolines_size_bbs cfg ∧ was_flushed th' = true
    ∧ links cfg th' (seqZ 0 (MAX_CC_LINKS cfg)) (replicate (Z.to_nat (CODE_CACHE_SIZE cfg)) [])
    ∧ (∀ i m, 0 ≤ i < CODE_CACHE_SIZE cfg → code_cache_meta th' !! Z.to_nat i = Some m →
         exit_branch_type m = unknown ∧ branch_cache_status m = 0 ∧ actual_id m = 0
         ∧ linked_from m = None)
    ∧ (∀ i, CODE_CACHE_SIZE cfg ≤ i →
         code_cache_meta th' !! Z.to_nat i = code_cache_meta th !! Z.to_nat i)
    ∧ (DBM_TRACES cfg = true →
         trace_cache_next th' = traces_addr cfg th' ∧ tp_id (active_trace th') = CODE_CACHE_SIZE cfg).
Proof.
  intros Hs. destruct (flush_ok cfg Hcfg th Hs)
    as (th' & Hf & Hs' & Hm & Hfb & Hw & Hcc & Hr & _ & Htr).
  pose proof (shape_metas _ _ Hs). pose proof (ok_fragments _ Hcfg).
  pose proof (cache_size_pos _ Hcfg).
  assert (length (flush_meta cfg <$> bb_metas cfg th) = Z.to_nat (CODE_CACHE_SIZE cfg)) as Hlen
    by (unfold bb_metas; rewrite length_fmap, length_take; lia).
  exists th'. split_and!; try done.
  - by apply (flush_links cfg Hcfg th).
  - intros i m Hi. rewrite Hm, lookup_app_l by lia. rewrite list_lookup_fmap.
    intros (m0 & _ & ->)%fmap_Some. done.
  - intros i Hi. rewrite Hm, lookup_app_r, Hlen, lookup_drop by lia. f_equal. lia.
  - intros Ht. destruct (Htr Ht) as (_ & ? & _ & ?). done.
Qed.

(** C19. [allocate_bb] hands out a block of the cache, after a flush exactly when
    only the reserve is left, and leaves enough room for [CODE_CACHE_OVERP]
    overflow blocks: that many calls of [allocate_bb_overflow] return the
    blocks that follow it in memory, and no assertion fails. *)
Theorem allocate_bb_reserve (th : dbm_thread T) (n : nat) :
  shape cfg th → Z.of_nat n ≤ CODE_CACHE_OVERP cfg →
  ∃ b th', allocate_bb cfg th = Ok (b, th') ∧ shape cfg th'
    ∧ trampolines_size_bbs cfg ≤ b < CODE_CACHE_SIZE cfg
    ∧ (b = free_block th ∧ th' = set_free_block (b + 1) th
         ∧ free_block th < CODE_CACHE_SIZE cfg - CODE_CACHE_OVERP cfg
       ∨ b = trampolines_size_bbs cfg
         ∧ flush_code_cache cfg th = Ok (set_free_block b th')
         ∧ CODE_CACHE_SIZE cfg - CODE_CACHE_OVERP cfg ≤ free_block th)
    ∧ ∃ th'', allocate_overflows cfg n th' = Ok (seqZ (b + 1) (Z.of_nat n), th'').
Proof.
  intros Hs Hn. pose proof (ok_overp _ Hcfg).
  destruct (allocate_bb_ok cfg Hcfg th Hs) as (th0 & Ha & Hs0 & Hb & Hth0).
  exists (free_block th0), (set_free_block (free_block th0 + 1) th0).
  split_and!; [done | apply shape_set_free_block; [done | lia] | lia | lia | |].
  - destruct Hth0 as [[-> ?]|[Hf ?]]; [left; done|right].
    destruct (flush_ok cfg Hcfg th Hs) as (th' & Hf' & _ & _ & Hfb & _).
    rewrite Hf in Hf'. injection Hf' as <-. split_and!; [done | | done].
    rewrite Hf. by destruct th0.
  - eexists. rewrite allocate_overflows_ok by (simpl; lia). done.
Qed.

(** C18. [record_cc_link] of a branch to a basic block takes the first free
    record, stores the branch in it and puts it in front of the block's list;
    the lists of all blocks and the free list stay disjoint. Branches to
    addresses outside the cache are ignored; when no record is free the
    assertion fails. *)
Theorem record_cc_link_spec (th : dbm_thread T) F Ls lfrom lto :
  shape cfg th → links cfg th F Ls →
  (lto < code_cache th ∨ traces_addr cfg th < lto → record_cc_link cfg th lfrom lto = Ok th)
  ∧ (code_cache th ≤ lto < traces_addr cfg th →
       match F with
       | [] => record_cc_link cfg th lfrom lto = Err AssertFail
       | f :: F' =>
           let b := Z.to_nat ((lto - code_cache th) / sizeof_dbm_block cfg) in
           ∃ th' l, record_cc_link cfg th lfrom lto = Ok th' ∧ shape cfg th'
             ∧ Ls !! b = Some l ∧ links cfg th' F' (<[b := f :: l]> Ls)
             ∧ LinkedList.pool_data (LinkedList.pool (cc_links th')) !! Z.to_nat f = Some lfrom
       end).
Proof.
  intros Hs Hl. destruct (addr_to_bb_id_range cfg Hcfg th lto) as [Hout Hin]. split; intros Ha.
  - unfold record_cc_link. by rewrite (Hout Ha).
  - destruct F as [|f F'].
    + unfold record_cc_link. destruct Hin as [Hid _]; [lia|].
      tests [(addr_to_bb_id cfg th lto <? 0, false)].
      by rewrite (LinkedList.linked_list_alloc_nil _ (links_free _ _ _ _ Hl)).
    + intros b. destruct (record_cc_link_bb cfg Hcfg th F' Ls f lfrom lto Hs Hl Ha)
        as (th' & l & Hr & Hs' & Hlb & Hl' & Hd).
      exists th', l. split_and!; try done. rewrite Hd.
      destruct (LinkedList.linked_list_alloc_cons _ _ _ (links_free _ _ _ _ Hl))
        as (? & e & He & _). apply list_lookup_insert_eq.
      unfold LinkedList.pool_data. rewrite length_fmap. by apply lookup_lt_Some in He.
Qed.

(** C35. [addr_to_fragment_id] finds the fragment that contains a code cache
    address: below the traces the basic block (or the fragment it continues),
    above their start the last trace fragment that starts at or before the
    address, by a binary search that always ends. The start of the trace area itself is taken for a basic block, with
    the id [CODE_CACHE_SIZE] that the first trace fragment also has. *)
Theorem addr_to_fragment_id_spec (th : dbm_thread T) n addr :
  shape cfg th → DBM_TRACES cfg = true → traces_sorted cfg th n →
  (∀ m, code_cache_meta th !! Z.to_nat (CODE_CACHE_SIZE cfg) = Some m →
        tpc m = traces_addr cfg th) →
  code_cache th ≤ addr < code_cache th + MAX_BRANCH_RANGE cfg →
  (addr ≤ traces_addr cfg th →
     ∃ b m, block_addr cfg th b ≤ addr < block_addr cfg th (b + 1)
       ∧ (b = CODE_CACHE_SIZE cfg ↔ addr = traces_addr cfg th)
       ∧ code_cache_meta th !! Z.to_nat b = Some m
       ∧ addr_to_fragment_id cfg th addr = Ok (if actual_id m =? 0 then b else actual_id m))
  ∧ (traces_addr cfg th < addr →
       ∃ i, addr_to_fragment_id cfg th addr = Ok i
         ∧ CODE_CACHE_SIZE cfg ≤ i < CODE_CACHE_SIZE cfg + n
         ∧ ∀ j mj, CODE_CACHE_SIZE cfg ≤ j < CODE_CACHE_SIZE cfg + n →
             code_cache_meta th !! Z.to_nat j = Some mj → (tpc mj ≤ addr ↔ j ≤ i)).
Proof.
  intros Hs Htr Hn Hfirst Haddr. pose proof (sorted_bound _ _ _ Hn).
  pose proof (cache_size_pos _ Hcfg). pose proof (block_size_pos _ Hcfg).
  destruct (addr_to_bb_id_range cfg Hcfg th addr) as [Hout Hin]. split; intros Ha.
  - destruct Hin as [Hid Hb]; [lia|]. set (b := addr_to_bb_id cfg th addr) in *.
    destruct (meta_at cfg th b Hs) as [m Hm]; [lia|].
    exists b, m. split_and!; try done; try lia.
    + unfold block_addr, traces_addr in *. split; intros; [|nia].
      apply Z.le_antisymm; [done|]. subst b. lia.
    + unfold addr_to_fragment_id. tests [(code_cache th <=? addr, true);
        (addr <? code_cache th + MAX_BRANCH_RANGE cfg, true)].
      cbn [c_assert]. change (Ok () ;; ?m) with m. fold b. tests [(0 <=? b, true)].
      rewrite (aget_lookup _ b m) by (lia || done). cbn [mbind outcome_bind].
      by destruct (actual_id m =? 0).
  - unfold addr_to_fragment_id. tests [(code_cache th <=? addr, true);
        (addr <? code_cache th + MAX_BRANCH_RANGE cfg, true)].
    cbn [c_assert]. change (Ok () ;; ?m) with m. rewrite Hout by lia. cbn [Z.leb].
    change (0 <=? -1) with false. cbn iota. rewrite Htr, (sorted_id _ _ _ Hn).
    set (last := CODE_CACHE_SIZE cfg + n - 1).
    destruct (meta_at cfg th last Hs) as [ml Hml]; [lia|].
    rewrite (aget_lookup _ last ml) by (lia || done). cbn [mbind outcome_bind].
    destruct (Z.leb_spec (tpc ml) addr).
    + assert (traces_addr cfg th + TRACE_CACHE_SIZE cfg = code_cache th + MAX_BRANCH_RANGE cfg)
        as -> by (unfold traces_addr, TRACE_CACHE_SIZE, sizeof_dbm_block; lia).
      tests [(addr <? code_cache th + MAX_BRANCH_RANGE cfg, true)].
      exists last. split_and!; [done | lia | lia |].
      apply (sorted_split cfg th n addr last ml); try done; lia.
    + destruct (meta_at cfg th (CODE_CACHE_SIZE cfg) Hs) as [m0 Hm0]; [lia|].
      specialize (Hfirst m0 Hm0).
      destruct (fragment_search_ok cfg Hcfg th n addr
                  (S (Z.to_nat (last - CODE_CACHE_SIZE cfg + 1))) (CODE_CACHE_SIZE cfg) last)
        as (i & mi & mj & -> & Hi & Hi1 & Hmi & Hmj & Hb); try done; try lia.
      { intros m Hm. simplify_eq. lia. }
      { exists last, ml. split_and!; try done; lia. }
      exists i. split_and!; [done | lia | lia |].
      apply (sorted_split cfg th n addr i mi); try done; try lia.
      intros m' _ Hm'. simplify_eq. lia.
Qed.

(** C16. Looking up a source address returns the entry point of its translation
    and changes nothing when there is one; a stub is translated in place, in
    the block it has; an address without translation gets a new block and, before
    the scanner runs, the table entry that makes branches back to it find that
    block (or the program hangs because the table is full). *)
Theorem lookup_or_scan_spec scn (th : dbm_thread T) m target :
  shape cfg th → at_repr (entry_address th) m → target ≠ 0 →
  match m !! target with
  | Some a =>
      let e := adjust_cc_entry cfg a in
      e ≠ UINT_MAX → code_cache th ≤ e →
      if is_trace cfg th e then lookup_or_scan_with_cached cfg scn th target = Ok (e, th, true)
      else e < traces_addr cfg th →
        ∃ mt, let b := addr_to_bb_id cfg th e in
          code_cache_meta th !! Z.to_nat b = Some mt
          ∧ (exit_branch_type mt ≠ stub →
               lookup_or_scan_with_cached cfg scn th target = Ok (e, th, true))
          ∧ (exit_branch_type mt = stub → b ≠ 0 →
               lookup_or_scan_with_cached cfg scn th target
               = (x ← scan_block cfg scn (scanning cfg th target b) target b;
                  Ok (adjust_cc_entry cfg (entry_of cfg th target b), fst x, false)))
  | None =>
      ∃ th0 m0 b, allocate_bb cfg th = Ok (b, th0)
        ∧ (m0 = m ∧ was_flushed th0 = was_flushed th ∨ m0 = ∅ ∧ was_flushed th0 = true)
        ∧ let entry := entry_of cfg th0 target b in
          (∃ table, at_repr table (<[target := entry]> m0)
             ∧ lookup_or_scan_with_cached cfg scn th target
               = (x ← scan_block cfg scn (set_entry_address table (scanning cfg th0 target b))
                       target b;
                  Ok (adjust_cc_entry cfg entry, fst x, false)))
          ∨ lookup_or_scan_with_cached cfg scn th target = Err Hang
  end.
Proof.
  intros Hs Hr Ht. unfold lookup_or_scan_with_cached, cc_lookup.
  rewrite (at_lookup_law _ m) by done. cbn [mbind outcome_bind].
  pose proof (ok_fragments _ Hcfg). destruct (m !! target) as [a|] eqn:Hm; cbn [from_option id].
  - intros Hmax Hlo. set (e := adjust_cc_entry cfg a) in *. tests [(e =? UINT_MAX, false)]. destruct (is_trace cfg th e) eqn:Htr.
    + cbn [negb mbind outcome_bind fst]. by tests [(e =? UINT_MAX, false)].
    + intros Hhi. destruct (addr_to_bb_id_range cfg Hcfg th e) as [_ [Hid _]]; [lia|].
      destruct (meta_at cfg th (addr_to_bb_id cfg th e) Hs) as [mt Hmt]; [lia|].
      exists mt. cbn [negb andb]. rewrite (aget_lookup _ _ mt) by (lia || done).
      cbn [mbind outcome_bind fst snd]. split_and!; [done | intros Hns | intros Hst Hb].
      * rewrite decide_False by done. by tests [(e =? UINT_MAX, false)].
      * rewrite decide_True by done. change (UINT_MAX =? UINT_MAX) with true. cbn [negb].
        rewrite (scan_stub cfg Hcfg scn th target (addr_to_bb_id cfg th e)); [|done|].
        2: { split; [lia|]. destruct Hid as [_ Hid]. apply Z.le_neq. split; [done|].
             intros He. destruct (addr_to_bb_id_range cfg Hcfg th e) as [_ [_ Hbe]]; [lia|].
             rewrite He in Hbe. unfold block_addr, traces_addr in *. lia. }
        destruct (scan_block cfg scn _ target _) as [x|]; done.
  - assert (adjust_cc_entry cfg UINT_MAX = UINT_MAX) as ->.
    { unfold adjust_cc_entry. by destruct (is_arm (cfg_target cfg)). }
    change (UINT_MAX =? UINT_MAX) with true. cbn [negb andb mbind outcome_bind fst snd].
    change (UINT_MAX =? UINT_MAX) with true. cbn [negb].
    destruct (scan_new cfg Hcfg scn th m target Hs Hr Ht) as (th0 & m0 & b & Ha & _ & _ & Hm0 & Hx).
    exists th0, m0, b. split_and!; try done. destruct Hx as [(tb & Hrb & Hsc)|Hsc]; rewrite Hsc.
    + left. exists tb. split; [done|]. by destruct (scan_block cfg scn _ target _).
    + by right.
Qed.

(** C34. A stub block keeps its address when it is translated: after
    [lookup_or_stub] made a stub for an address, a lookup of the address runs
    the scanner on the block of the stub and returns the entry point that was
    already linked to. *)
Theorem stub_translated_in_place scn (th : dbm_thread T) m target :
  shape cfg th → at_repr (entry_address th) m → target ≠ 0 → m !! target = None →
  cfg_target cfg ≠ aarch64 →
  (∀ th b t, thumb_encode_stub_bb scn th b t = Ok th) →
  (∀ th b t, arm_encode_stub_bb scn th b t = Ok th) →
  (∃ e th1 b, lookup_or_stub cfg scn th target = Ok (e, th1)
     ∧ trampolines_size_bbs cfg ≤ b < CODE_CACHE_SIZE cfg
     ∧ block_addr cfg th b ≤ e < block_addr cfg th (b + 1)
     ∧ lookup_or_scan cfg scn th1 target
       = (x ← scan_block cfg scn (scanning cfg th1 target b) target b; Ok (e, fst x)))
  ∨ lookup_or_stub cfg scn th target = Err Hang.
Proof.
  intros Hs Hr Ht Hm Htgt Hthumb Harm.
  pose proof (ok_overp _ Hcfg). pose proof (ok_trampolines _ Hcfg). pose proof (ok_fragments _ Hcfg).
  destruct (allocate_bb_ok cfg Hcfg th Hs) as (th1 & Ha & Hs1 & Hb & Hth1).
  assert (∃ m1, at_repr (entry_address th1) m1 ∧ code_cache th1 = code_cache th) as (m1 & Hr1 & Hcc).
  { destruct Hth1 as [[-> _]|[Hf _]]; [by exists m|].
    destruct (flush_ok cfg Hcfg th Hs) as (th' & Hf' & _ & _ & _ & _ & Hc & Hr' & _).
    rewrite Hf in Hf'. injection Hf' as <-. by exists ∅. }
  set (b := free_block th1) in *. set (th2 := set_free_block (b + 1) th1) in *.
  assert (shape cfg th2) as Hs2 by (apply shape_set_free_block; [done | lia]).
  destruct (meta_at cfg th2 b Hs2) as [mt Hmt]; [lia|].
  set (th3 := set_code_cache_meta (<[Z.to_nat b := set_exit_branch_type stub mt]>
                                     (code_cache_meta th2)) th2).
  assert (shape cfg th3) as Hs3.
  { destruct Hs2. constructor; try done. unfold th3. simpl. by rewrite length_insert. }
  set (entry := entry_of cfg th3 target b).
  destruct (entry_point cfg Hcfg th3 target b Hs3) as (Hbe & Hid & Htr & Hmax & Hplus); [lia|].
  set (e := adjust_cc_entry cfg (entry_of cfg th3 target b)) in *.
  assert (lookup_or_stub cfg scn th target
          = (th4 ← add_entry cfg target entry th3; Ok (e, th4))) as Hls.
  { unfold lookup_or_stub, cc_lookup. rewrite (at_lookup_law _ m), Hm by done.
    cbn [mbind outcome_bind from_option id].
    replace (adjust_cc_entry cfg UINT_MAX) with UINT_MAX
      by (unfold adjust_cc_entry; by destruct (is_arm (cfg_target cfg))).
    change (UINT_MAX =? UINT_MAX) with true. cbn iota. unfold stub_bb. rewrite Ha.
    cbn [mbind outcome_bind fst snd]. rewrite (upd_meta_ok b _ th2 mt) by (lia || done).
    cbn [mbind outcome_bind]. fold th3. change (block_addr cfg th2 b) with (block_addr cfg th3 b).
    replace (if is_arm (cfg_target cfg) then block_addr cfg th3 b + Z.land target THUMB
             else block_addr cfg th3 b) with entry.
    2: { destruct (is_arm (cfg_target cfg)) eqn:Hia; [by apply Hplus|].
         unfold entry, entry_of. by rewrite Hia. }
    fold e. destruct (add_entry cfg target entry th3) as [th4|]; [|done]. cbn [mbind outcome_bind].
    rewrite Hthumb, Harm.
    destruct (cfg_target cfg); try done. by destruct (negb _). }
  rewrite Hls. destruct (add_entry_ok cfg th3 m1 target entry Hr1 Ht) as [(tb & Hrb & Hadd)|Hadd];
    rewrite Hadd; [left | by right].
  exists e, (set_entry_address tb th3), b.
  change (block_addr cfg th) with (λ i, code_cache th + i * sizeof_dbm_block cfg). cbn beta.
  rewrite <- Hcc. split_and!; [done | lia | lia | apply Hbe | apply Hbe |].
  unfold lookup_or_scan, lookup_or_scan_with_cached, cc_lookup.
  rewrite (at_lookup_law _ (<[target := entry]> m1)), lookup_insert_eq by done.
  cbn [mbind outcome_bind from_option id]. change (adjust_cc_entry cfg entry) with e.
  tests [(e =? UINT_MAX, false)].
  change (is_trace cfg (set_entry_address tb th3) e) with (is_trace cfg th3 e). rewrite Htr.
  change (addr_to_bb_id cfg (set_entry_address tb th3) e) with (addr_to_bb_id cfg th3 e).
  rewrite Hid. cbn [negb andb].
  rewrite (aget_lookup _ b (set_exit_branch_type stub mt)); [|lia|].
  2: { simpl. apply list_lookup_insert_eq. by apply lookup_lt_Some in Hmt. }
  cbn [mbind outcome_bind]. rewrite decide_True by done. cbn [fst snd].
  change (UINT_MAX =? UINT_MAX) with true. cbn [negb].
  rewrite scan_stub; [|done | | lia].
  2: { destruct Hs3. constructor; try done. by eapply at_repr_valid. }
  change (adjust_cc_entry cfg (entry_of cfg (set_entry_address tb th3) target b)) with e.
  by destruct (scan_block cfg scn _ target b).
Qed.
End properties.

(** ** Instances *)

(** A small cache: eight blocks, one of them the dispatcher, a reserve of two. *)
Definition small_config : config :=
  MkConfig arm true true true 8 64 4 2 4096 4 (table_size 3) 1.

Lemma small_config_ok : config_ok small_config.
Proof. constructor; simpl; try lia. by exists 6. Qed.

#[local] Instance small_table : AddressTable CodeCacheHash.hash_table (TABLE_SIZE small_config) :=
  CodeCacheHash_table arm 3 ltac:(lia).

Definition empty_meta : dbm_code_cache_meta :=
  MkMeta 0 0 unknown 0 0 0 0 0 0 0 0 0 None None 0 false 0 0 0 0 None 0 0 None [].

(** A thread with [free] blocks taken and three trace fragments. *)
Definition small_thread (free : Z) : dbm_thread CodeCacheHash.hash_table :=
  MkThread free false 4096
    (replicate 8 empty_meta ++ [set_tpc 6144 empty_meta; set_tpc 6200 empty_meta;
                                set_tpc 6300 empty_meta; empty_meta])
    (CodeCacheHash.MkTable 17 0 0 (replicate 17 (HashEntry 0 0))) (replicate 8 0)
    6400 11 3 (MkTrace 11 0 0 0 false 0 [])
    (LinkedList.Ll (Some 0) 4 [LinkedList.LlEntry (Some 1) 0; LinkedList.LlEntry (Some 2) 0;
                               LinkedList.LlEntry (Some 3) 0; LinkedList.LlEntry None 0]).

Lemma small_shape free : 1 ≤ free ≤ 8 → shape small_config (small_thread free).
Proof. intros. constructor; simpl; try done; try lia. by exists 16. Qed.

Lemma small_repr free : at_repr (entry_address (small_thread free)) ∅.
Proof.
  split_and!; [|apply (represents_replicate 17)|done].
  constructor; try done; [by exists 3|].
  intros i e Hi He. apply lookup_replicate in Hi as [-> _]. simpl in He. lia.
Qed.

Lemma small_links free : links small_config (small_thread free) [0; 1; 2; 3] (replicate 8 []).
Proof.
  constructor.
  - unfold LinkedList.free_chain. simpl. repeat (split; [done|]; eexists; split; [reflexivity|]). done.
  - vm_compute. repeat constructor.
  - apply (bool_decide_unpack _). vm_compute. exact I.
Qed.

Lemma small_sorted free : traces_sorted small_config (small_thread free) 3.
Proof.
  constructor; [done | simpl; lia|]. intros i j mi mj Hij Hj Hi Hj'. simpl in Hij, Hj.
  assert (i = 8 ∧ j = 9 ∨ i = 8 ∧ j = 10 ∨ i = 9 ∧ j = 10) as Hc by lia.
  destruct Hc as [[-> ->]|[[-> ->]|[-> ->]]]; vm_compute in Hi, Hj'; by simplify_eq.
Qed.

(** A scanner that emits [len] bytes for every block. *)
Definition dummy_scanners (len : Z) : scanners (T := CodeCacheHash.hash_table) :=
  let f th (_ _ : Z) (_ : cc_type) (_ : Z) := Ok (th, len) in
  MkScanners f f f f (λ th _ _, Ok th) (λ th _ _, Ok th).

Lemma flush_code_cache_spec_witness :
  ∃ th', flush_code_cache small_config (small_thread 7) = Ok th' ∧ free_block th' = 1.
Proof.
  destruct (flush_code_cache_spec small_config small_config_ok (small_thread 7))
    as (th' & Hf & _ & _ & Hfb & _); [apply small_shape; lia|].
  by exists th'.
Defined.

Lemma allocate_bb_reserve_witness :
  ∃ b th', allocate_bb small_config (small_thread 5) = Ok (b, th')
    ∧ ∃ th'', allocate_overflows small_config 2 th' = Ok (seqZ (b + 1) 2, th'').
Proof.
  destruct (allocate_bb_reserve small_config small_config_ok (small_thread 5) 2)
    as (b & th' & Ha & _ & _ & _ & Ho); [apply small_shape; lia | done |].
  by exists b, th'.
Defined.

Lemma record_cc_link_spec_witness :
  ∃ th' l, record_cc_link small_config (small_thread 5) 5000 4400 = Ok th'
    ∧ links small_config th' [1; 2; 3] (<[1%nat := 0 :: l]> (replicate 8 [])).
Proof.
  destruct (record_cc_link_spec small_config small_config_ok (small_thread 5)
              [0; 1; 2; 3] (replicate 8 []) 5000 4400) as [_ H];
    [apply small_shape; lia | apply small_links |].
  destruct H as (th' & l & Hr & _ & _ & Hl & _); [vm_compute; done|].
  by exists th', l.
Defined.

Lemma addr_to_fragment_id_spec_witness :
  ∃ i, addr_to_fragment_id small_config (small_thread 5) 6250 = Ok i ∧ 8 ≤ i < 11.
Proof.
  destruct (addr_to_fragment_id_spec small_config small_config_ok (small_thread 5) 3 6250)
    as [_ H]; [apply small_shape; lia | done | apply small_sorted | | vm_compute; done |].
  { intros m Hm. vm_compute in Hm. by simplify_eq. }
  destruct H as (i & Hi & Hb & _); [vm_compute; done|]. by exists i.
Defined.

Lemma lookup_or_scan_spec_witness :
  (∃ e th' c, lookup_or_scan_with_cached small_config (dummy_scanners 40) (small_thread 5) 32769
              = Ok (e, th', c))
  ∨ lookup_or_scan_with_cached small_config (dummy_scanners 40) (small_thread 5) 32769 = Err Hang.
Proof.
  destruct (lookup_or_scan_spec small_config small_config_ok (dummy_scanners 40)
              (small_thread 5) ∅ 32769) as (th0 & m0 & b & _ & _ & Hx);
    [apply small_shape; lia | apply small_repr | lia |].
  destruct Hx as [(tb & _ & ->)|Hx]; [left; by eexists _, _, _ | by right].
Defined.

Lemma stub_translated_in_place_witness :
  (∃ e th1 b th2, lookup_or_stub small_config (dummy_scanners 40) (small_thread 5) 32769
                  = Ok (e, th1)
     ∧ lookup_or_scan small_config (dummy_scanners 40) th1 32769 = Ok (e, th2) ∧ 1 ≤ b)
  ∨ lookup_or_stub small_config (dummy_scanners 40) (small_thread 5) 32769 = Err Hang.
Proof.
  destruct (stub_translated_in_place small_config small_config_ok (dummy_scanners 40)
              (small_thread 5) ∅ 32769) as [(e & th1 & b & Hs & Hb & _ & Hl)|Hx];
    [apply small_shape; lia | apply small_repr | lia | done | done | done | done | | by right].
  left. exists e, th1, b. eexists. split; [exact Hs|]. rewrite Hl. split; [done|].
  simpl in Hb. lia.
Defined.
End Dbm.
