(* ===== verification/CcLinks.v ===== *)
(** * Records of links (common.c)

    What recording a link to a block leaves of the thread: the pool of records
    and the list of the block change, and as long as a record is free it
    succeeds. The dispatchers and the trace code share these facts. *)
From S2P Require Import Prelude LinearProbe CodeCacheHash LinkedList AddressTable Dbm.
Import Dbm.
#[local] Open Scope Z_scope.

Module CcLinks.

(** Recording a link changes the pool and one list. *)
Definition relisted (m m' : dbm_code_cache_meta) : Prop := ∃ v, m' = set_linked_from v m.

Lemma relisted_refl m : relisted m m.
Proof. exists (linked_from m). by destruct m. Qed.

Lemma relisted_all_refl (ms : list dbm_code_cache_meta) : Forall2 relisted ms ms.
Proof. apply Forall2_same_length_lookup. split; [done|]. intros. simplify_eq. apply relisted_refl. Qed.

Lemma relisted_all_trans (ms1 ms2 ms3 : list dbm_code_cache_meta) : Forall2 relisted ms1 ms2 → Forall2 relisted ms2 ms3 → Forall2 relisted ms1 ms3.
Proof. apply Forall2_trans. intros m1 m2 m3 [v ->] [v' ->]. by exists v'. Qed.

Section records.
Context (cfg : config) {T : Type} `{!AddressTable T (TABLE_SIZE cfg)} (Hcfg : config_ok cfg).
Implicit Types (th : dbm_thread T).

Lemma record_fields th th' a b : record_cc_link cfg th a b = Ok th' →
  ∃ ms li, th' = set_code_cache_meta ms (set_cc_links li th) ∧ Forall2 relisted (code_cache_meta th) ms.
Proof using.
  unfold record_cc_link. destruct (_ <? 0).
  { intros [= <-]. exists (code_cache_meta th), (cc_links th). split; [by destruct th | apply relisted_all_refl]. }
  intros H. apply bind_ok_inv in H as ([e li] & _ & H). cbn [fst snd] in H. destruct e as [e|]; [|done].
  apply bind_ok_inv in H as (m & _ & H). apply bind_ok_inv in H as (es & _ & H).
  unfold upd_meta in H. apply bind_ok_inv in H as (ms & Hms & [= <-]). eexists ms, _. split; [reflexivity|].
  apply aupd_ok in Hms as (x & Hi & Hx & ->). apply Forall2_same_length_lookup. rewrite length_insert. split; [done|].
  intros j y z Hy Hz. destruct (decide (j = Z.to_nat (addr_to_bb_id cfg th b))) as [->|].
  - rewrite list_lookup_insert_eq in Hz by by apply lookup_lt_Some in Hx. cbn in Hx. simplify_eq. by eexists.
  - rewrite list_lookup_insert_ne in Hz by done. cbn in Hz. simplify_eq. apply relisted_refl.
Qed.

Lemma record_relisted th F Ls a lto : shape cfg th → links cfg th F Ls → F ≠ [] → lto ≠ traces_addr cfg th →
  ∃ ms li F' Ls', let th' := set_code_cache_meta ms (set_cc_links li th) in
    record_cc_link cfg th a lto = Ok th' ∧ shape cfg th' ∧ links cfg th' F' Ls' ∧ (length F ≤ S (length F'))%nat
    ∧ Forall2 relisted (code_cache_meta th) ms.
Proof using Hcfg.
  intros Hs Hl HF Hne. destruct F as [|f F]; [done|].
  assert (∃ th' F' Ls', record_cc_link cfg th a lto = Ok th' ∧ shape cfg th' ∧ links cfg th' F' Ls'
    ∧ (length (f :: F) ≤ S (length F'))%nat) as (th' & F' & Ls' & Hr & Hs' & Hl' & Hlen).
  { destruct (decide (code_cache th ≤ lto < traces_addr cfg th)) as [Hin|Hout].
    - destruct (record_cc_link_bb cfg Hcfg th F Ls f a lto Hs Hl Hin) as (th' & l & Hr & Hs' & _ & Hl' & _).
      by eexists th', F, _.
    - exists th, (f :: F), Ls. split_and!; [|done|done|lia]. unfold record_cc_link.
      destruct (addr_to_bb_id_range cfg Hcfg th lto) as [Hneg _]. rewrite Hneg by lia. done. }
  destruct (record_fields _ _ _ _ Hr) as (ms & li & -> & Hsame). by exists ms, li, F', Ls'.
Qed.
(** What does not touch the lists keeps them. *)
Lemma lists_shape th ms F Ls :
  Forall2 (λ m m', linked_from m' = linked_from m) (code_cache_meta th) ms → shape cfg th → links cfg th F Ls →
  shape cfg (set_code_cache_meta ms th) ∧ links cfg (set_code_cache_meta ms th) F Ls.
Proof using.
  intros Hl [H1 H2 H3 H4 H5 H6 H7] [L1 L2 L3]. pose proof (Forall2_length _ _ _ Hl) as Hlen. split.
  - constructor; try done. simpl. by rewrite <- Hlen.
  - constructor; try done. unfold bb_metas in *. simpl.
    apply Forall2_same_length_lookup. pose proof (Forall2_length _ _ _ L2) as Hl2. rewrite length_take in *.
    split; [lia|]. intros i m l Hm Hli. apply lookup_take_Some in Hm as [Hm Hi].
    destruct (Forall2_lookup_r _ _ _ _ _ Hl Hm) as (m0 & Hm0 & Hlf). rewrite Hlf.
    apply (Forall2_lookup_lr _ _ _ i m0 l L2); [|done]. by apply lookup_take_Some.
Qed.

Lemma insert_lists_shape th i m m' F Ls :
  code_cache_meta th !! i = Some m → linked_from m' = linked_from m → shape cfg th → links cfg th F Ls →
  let th' := set_code_cache_meta (<[i := m']> (code_cache_meta th)) th in shape cfg th' ∧ links cfg th' F Ls.
Proof using.
  intros Hm Hl. apply lists_shape. apply Forall2_same_length_lookup. rewrite length_insert. split; [done|].
  intros j x y Hx Hy. destruct (decide (j = i)) as [->|].
  - rewrite list_lookup_insert_eq in Hy by by apply lookup_lt_Some in Hm. by simplify_eq.
  - rewrite list_lookup_insert_ne in Hy by done. by simplify_eq.
Qed.
End records.
End CcLinks.
