(* ===== verification/Deliver.v ===== *)
(** * Delivery of scanner events to plugins

    The scanners of A64 and RISC-V call the plugins for an event in the same way:
    one after the other, each with the write pointer that the one before left,
    the registers that it pushed restored, and the space of the block checked.
    The delivery is shared; how space is checked, and how registers are pushed
    and popped, belongs to the scanner. *)
From S2P Require Import Prelude LinearProbe CodeCacheHash LinkedList AddressTable Dbm RegList Plugin.
Import RegList Plugin.
Import Dbm (cc_type(..)).
#[local] Open Scope Z_scope.

Module Deliver.

#[global] Instance cc_type_eq_dec : EqDecision cc_type.
Proof. solve_decision. Defined.
Definition cc_type_enum (ty : cc_type) : Z := match ty with mambo_bb => 0 | mambo_trace => 1 | mambo_trace_entry => 2 end.

Section delivery.
Context {W : Type} `{!Stack W}.
(** The check of the space for one more event, at a write pointer and an end of
    the space. *)
Context (check_space : W → Z → Z → outcome (W * Z * Z)).

Definition ctx_world (c : mambo_context W) : outcome W :=
  match thread_data c with Some p => Ok (Plugin.world p) | None => Err NullPointer end.
Definition set_ctx_world (w : W) (c : mambo_context W) : mambo_context W :=
  MkCtx ((λ p, MkPThread (tid p) (parent_tid p) (plugin_priv p) w) <$> thread_data c) (event_type c) (plugin_id c) (data c).
Definition ptr (p : option Z) : outcome Z := match p with Some a => Ok a | None => Err NullPointer end.

(** After a callback: the space is checked at the write pointer it left. *)
Definition check_ctx_space (c : mambo_context W) : outcome (mambo_context W * Z * Z) :=
  k ← code_of c;
  write_p ← ptr (write_p k);
  data_p ← ptr (data_p k);
  w ← ctx_world c;
  r ← check_space w write_p data_p;
  Ok (set_ctx_world (fst (fst r)) c, snd (fst r), snd r).

(** One plugin: whether it replaces the instruction, the context and the write
    and data pointers after it. *)
Definition deliver_one (cb : mambo_callback W) (i : Z) (cb_id : mambo_cb_idx) (allow_write : bool)
    (r : bool * mambo_context W * Z * Z) : outcome (bool * mambo_context W * Z * Z) :=
  let '(replaced, c, write, data) := r in
  k ← code_of c;
  c ← cb (set_plugin_id i (set_data (Code (with_replace (read_address k) false
            (with_regs (pushed_regs k) (pushed_regs k) (plugin_pushed_reg_count k) (with_write_p (Some write) (Some data) k)))) c));
  k ← code_of c;
  if allow_write then
    let replaced := replaced || (replace k && bool_decide (cb_id = PRE_INST_C)) in
    n ← count_bits (pushed_regs k);
    c_assert (n =? plugin_pushed_reg_count k);;
    c ← (if negb (pushed_regs k =? 0) then emit_pop c (pushed_regs k) else Ok c);
    x ← check_ctx_space c;
    let '(c, write, data) := x in
    Ok (replaced, c, write, data)
  else
    c_assert (bool_decide (write_p k = Some write) && bool_decide (data_p k = Some data));;
    Ok (replaced, c, write, data).

Fixpoint deliver_plugins (n : nat) (g : global W) (i : Z) (cb_id : mambo_cb_idx) (allow_write : bool)
    (r : bool * mambo_context W * Z * Z) : outcome (bool * mambo_context W * Z * Z) :=
  match n with
  | O => Ok r
  | S n =>
      p ← aget (plugins g) i;
      cb ← aget (cbs p) (cb_enum cb_id);
      r ← match cb with Some f => deliver_one f i cb_id allow_write r | None => Ok r end;
      deliver_plugins n g (i + 1) cb_id allow_write r
  end.

(** The watched functions: their addresses, and what [_function_callback_wrapper]
    does for each. *)
Fixpoint deliver_watched (watched : list (Z * mambo_callback W)) (read : Z)
    (r : mambo_context W * Z * Z) : outcome (mambo_context W * Z * Z * Z) :=
  match watched with
  | [] => Ok (r, read)
  | (addr, wrapper) :: watched =>
      if read =? addr then
        c ← wrapper (fst (fst r));
        k ← code_of c;
        r ← check_ctx_space c;
        deliver_watched watched (if replace k then read_address k else read) r
      else deliver_watched watched read r
  end.

(** All of them, from the context of the event on: whether the instruction is
    replaced, the context, the write and data pointers and the address to read. *)
Definition deliver_event (g : global W) (watched : list (Z * mambo_callback W)) (cb_id : mambo_cb_idx) (read : Z)
    (allow_write : bool) (c : mambo_context W) (write data : Z) : outcome (bool * mambo_context W * Z * Z * Z) :=
  r ← deliver_plugins (Z.to_nat (free_plugin g)) g 0 cb_id allow_write (false, c, write, data);
  let '(replaced, c, write, data) := r in
  x ← (if decide (cb_id = PRE_BB_C) then deliver_watched watched read (c, write, data) else Ok (c, write, data, read));
  let '(c, write, data, read) := x in
  Ok (replaced, c, write, data, read).
End delivery.
End Deliver.
