(* ===== verification/ThreadList.v ===== *)
(** * The list of threads (dbm.c)

    [global_data.threads] is a singly linked list of the [dbm_thread] objects
    of the running threads, protected by a mutex; threads enter it when they
    start, leave it when they exit, and after a fork the child frees the
    objects of all threads but its own. *)
From S2P Require Import Prelude LinkedList.

Module ThreadList.

Inductive callback := PRE_THREAD_C | POST_THREAD_C.

(** [heap] gives the [next_thread] field of every allocated [dbm_thread];
    [delivered] records the calls of [mambo_deliver_callbacks]. *)
Record state := MkState {
  threads : option Z;
  heap : gmap Z (option Z);
  thread_list_mutex : bool;
  delivered : list (callback * Z)
}.

Definition lock_thread_list (s : state) : outcome state :=
  if thread_list_mutex s then Err Hang
  else Ok (MkState (threads s) (heap s) true (delivered s)).

Definition unlock_thread_list (s : state) : outcome state :=
  Ok (MkState (threads s) (heap s) false (delivered s)).

(** [p->next_thread] and [p->next_thread = q]. *)
Definition get_next (s : state) (p : Z) : outcome (option Z) :=
  match heap s !! p with Some q => Ok q | None => Err UseAfterFree end.
Definition set_next (s : state) (p : Z) (q : option Z) : outcome state :=
  match heap s !! p with
  | Some _ => Ok (MkState (threads s) (<[p := q]> (heap s)) (thread_list_mutex s) (delivered s))
  | None => Err UseAfterFree
  end.
Definition set_threads (p : option Z) (s : state) : state :=
  MkState p (heap s) (thread_list_mutex s) (delivered s).

Definition mambo_deliver_callbacks (cb : callback) (t : Z) (s : state) : state :=
  MkState (threads s) (heap s) (thread_list_mutex s) (delivered s ++ [(cb, t)]).

Definition register_thread (thread_data : Z) (caller_has_lock : bool) (s : state)
    : outcome (Z * state) :=
  s ← (if caller_has_lock then Ok s else lock_thread_list s);
  s ← set_next s thread_data (threads s);
  let s := set_threads (Some thread_data) s in
  let s := mambo_deliver_callbacks PRE_THREAD_C thread_data s in
  s ← (if caller_has_lock then Ok s else unlock_thread_list s);
  Ok (0, s).

(** [while (prev->next_thread != thread_data && prev->next_thread != NULL)]. *)
Fixpoint find_prev (fuel : nat) (s : state) (prev thread_data : Z) : outcome Z :=
  match fuel with
  | O => Err OutOfFuel
  | S fuel =>
      q ← get_next s prev;
      match q with
      | Some n => if n =? thread_data then Ok prev else find_prev fuel s n thread_data
      | None => Ok prev
      end
  end.

Definition unlink_thread (thread_data : Z) (s : state) : outcome (Z * state) :=
  if decide (threads s = Some thread_data) then
    q ← get_next s thread_data; Ok (0, set_threads q s)
  else
    match threads s with
    | None => Err NullPointer
    | Some head =>
        prev ← find_prev (S (size (heap s))) s head thread_data;
        q ← get_next s prev;
        if decide (q = Some thread_data) then
          q' ← get_next s thread_data;
          s ← set_next s prev q';
          Ok (0, s)
        else Ok (-1, s)
    end.

Definition unregister_thread (thread_data : Z) (caller_has_lock : bool) (s : state)
    : outcome (Z * state) :=
  s ← (if caller_has_lock then Ok s else lock_thread_list s);
  r ← unlink_thread thread_data s;
  let s := if fst r =? 0 then mambo_deliver_callbacks POST_THREAD_C thread_data (snd r)
           else snd r in
  s ← (if caller_has_lock then Ok s else unlock_thread_list s);
  Ok (fst r, s).

(** The three mappings of a thread object are unmapped. *)
Definition free_thread_data (t : Z) (s : state) : outcome (Z * state) :=
  match heap s !! t with
  | Some _ => Ok (0, MkState (threads s) (delete t (heap s)) (thread_list_mutex s) (delivered s))
  | None => Err UseAfterFree
  end.

(** [next] is read from [thread_data], not from [it]. *)
Fixpoint free_loop (fuel : nat) (thread_data : Z) (it : option Z) (s : state) : outcome state :=
  match fuel with
  | O => Err OutOfFuel
  | S fuel =>
      match it with
      | None => Ok s
      | Some i =>
          next ← get_next s thread_data;
          s ← (if i =? thread_data then Ok s
               else r ← free_thread_data i s; c_assert (fst r =? 0) ;; Ok (snd r));
          free_loop fuel thread_data next s
      end
  end.

Definition free_all_other_threads (thread_data : Z) (s : state) : outcome state :=
  s ← free_loop 4 thread_data (threads s) s;
  Ok (set_threads (Some thread_data) s).

(** ** The list of a state *)

Definition nexts (s : state) (p : Z) : option (option Z) := heap s !! p.

Definition thread_chain (s : state) (l : list Z) : Prop := chain (nexts s) (threads s) l.

Lemma chain_in_heap s p l : chain (nexts s) p l → (length l ≤ size (heap s))%nat.
Proof.
  intros Hc. pose proof (chain_nodup _ _ _ Hc) as Hnd.
  rewrite <- (size_dom (heap s)). pose proof (size_list_to_set (C := gset Z) l Hnd) as Hsz.
  rewrite <- Hsz. apply subseteq_size. intros x Hx. apply elem_of_list_to_set in Hx.
  apply elem_of_dom. by eapply chain_node in Hc.
Qed.

Lemma chain_remove nxt nxt' p l0 y x l2 q :
  chain nxt p (l0 ++ y :: x :: l2) → nxt x = Some q → nxt' y = Some q →
  (∀ i, i ≠ y → nxt' i = nxt i) → chain nxt' p (l0 ++ y :: l2).
Proof.
  intros Hc Hx Hy Hne. pose proof (chain_nodup _ _ _ Hc) as Hnd. revert p Hc Hnd.
  induction l0 as [|i l0 IH]; intros p Hc Hnd; simpl in *.
  - destruct Hc as (-> & q1 & Hq1 & (-> & q2 & Hq2 & Hc)). split; [done|]. exists q.
    split; [done|]. simplify_eq. eapply chain_ext; [|done]. intros j Hj. apply Hne.
    intros ->. apply NoDup_cons in Hnd as [Hnd _]. apply Hnd. by right.
  - destruct Hc as (-> & q1 & Hq1 & Hc). apply NoDup_cons in Hnd as [Hni Hnd]. split; [done|].
    exists q1. split; [|by apply IH]. rewrite Hne; [done|]. intros ->.
    apply Hni, elem_of_app. right. by left.
Qed.

Lemma find_prev_found s r1 x r2 : ∀ prev fuel,
  chain (nexts s) (Some prev) (prev :: r1 ++ x :: r2) → (length r1 < fuel)%nat →
  ∃ l0 y, prev :: r1 = l0 ++ [y] ∧ find_prev fuel s prev x = Ok y
    ∧ heap s !! y = Some (Some x).
Proof.
  induction r1 as [|n r1 IH]; intros prev fuel Hc Hf; (destruct fuel as [|fuel]; [simpl in Hf; lia|]).
  - destruct Hc as (_ & q & Hq & (-> & _)). exists [], prev. cbn [find_prev].
    unfold get_next. unfold nexts in Hq. rewrite Hq. cbn [mbind outcome_bind].
    by rewrite Z.eqb_refl.
  - pose proof (chain_nodup _ _ _ Hc) as Hnd.
    destruct Hc as (_ & q & Hq & Hc). pose proof Hc as (-> & _).
    destruct (IH n fuel Hc) as (l0 & y & He & Hfp & Hy); [simpl in Hf; lia|].
    exists (prev :: l0), y. rewrite He. split_and!; [done | | done].
    cbn [find_prev]. unfold get_next. unfold nexts in Hq. rewrite Hq. cbn [mbind outcome_bind].
    destruct (Z.eqb_spec n x) as [->|]; [|done]. exfalso.
    apply NoDup_cons in Hnd as [_ Hnd]. simpl in Hnd. apply NoDup_cons in Hnd as [Hnd _].
    apply Hnd, elem_of_app. right. by left.
Qed.

Lemma find_prev_missing s x r : ∀ prev fuel,
  chain (nexts s) (Some prev) (prev :: r) → x ∉ r → (length r < fuel)%nat →
  ∃ y, find_prev fuel s prev x = Ok y ∧ heap s !! y = Some None.
Proof.
  induction r as [|n r IH]; intros prev fuel Hc Hx Hf; (destruct fuel as [|fuel]; [simpl in Hf; lia|]);
    cbn [find_prev]; unfold get_next; pose proof Hc as (_ & q & Hq & Hc'); unfold nexts in Hq;
    rewrite Hq; cbn [mbind outcome_bind].
  - simpl in Hc'. subst. by exists prev.
  - pose proof Hc' as (-> & _). apply not_elem_of_cons in Hx as [Hne Hx].
    destruct (Z.eqb_spec n x); [congruence|]. apply IH; [done | done | simpl in Hf; lia].
Qed.

Lemma get_next_ok s p q : heap s !! p = Some q → get_next s p = Ok q.
Proof. unfold get_next. by intros ->. Qed.

Lemma unlink_present s l1 x l2 :
  thread_chain s (l1 ++ x :: l2) →
  ∃ s', unlink_thread x s = Ok (0, s') ∧ thread_chain s' (l1 ++ l2)
    ∧ dom (heap s') = dom (heap s) ∧ delivered s' = delivered s
    ∧ thread_list_mutex s' = thread_list_mutex s.
Proof.
  intros Hc. pose proof (chain_nodup _ _ _ Hc) as Hnd. unfold thread_chain in *.
  destruct (chain_app_inv _ _ _ _ _ Hc) as (q & Hq & Hc2). unfold nexts in Hq.
  unfold unlink_thread. destruct l1 as [|h r1].
  - destruct Hc as (Ht & _). rewrite decide_True by done. rewrite (get_next_ok _ x q) by done.
    cbn [mbind outcome_bind]. eexists. split; [done|]. by split_and!.
  - pose proof Hc as (Ht & _). rewrite decide_False.
    2: { rewrite Ht. intros [= ->]. simpl in Hnd. apply NoDup_cons in Hnd as [Hnd _].
         apply Hnd, elem_of_app. right. by left. }
    pose proof (chain_in_heap _ _ _ Hc) as Hlen. rewrite Ht in Hc |- *.
    destruct (find_prev_found s r1 x l2 h (S (size (heap s))) Hc) as (l0 & y & He & Hfp & Hy).
    { simpl in Hlen. rewrite length_app in Hlen. simpl in Hlen. lia. }
    rewrite Hfp. cbn [mbind outcome_bind]. rewrite (get_next_ok s y (Some x)) by done.
    cbn [mbind outcome_bind]. rewrite decide_True by done. rewrite (get_next_ok _ x q) by done.
    cbn [mbind outcome_bind]. unfold set_next. rewrite Hy. cbn [mbind outcome_bind].
    eexists. split; [done|]. split_and!; [| |done|done].
    + unfold thread_chain. cbn [threads]. rewrite Ht. rewrite He, <- app_assoc in Hc |- *.
      eapply chain_remove; [exact Hc | exact Hq | unfold nexts; simpl; apply lookup_insert_eq |].
      intros i Hi. unfold nexts. simpl. by rewrite lookup_insert_ne by done.
    + simpl. rewrite dom_insert_L. apply elem_of_dom_2 in Hy. set_solver.
Qed.

(** ** Properties *)

(** [register_thread] puts the thread in front of the list, tells the
    plugins, and leaves the mutex as it found it; it blocks for ever when the
    mutex is held and the caller did not say so. *)
Theorem register_thread_spec s l x has_lock :
  thread_chain s l → is_Some (heap s !! x) → x ∉ l →
  (thread_list_mutex s = has_lock →
     ∃ s', register_thread x has_lock s = Ok (0, s') ∧ thread_chain s' (x :: l)
       ∧ delivered s' = delivered s ++ [(PRE_THREAD_C, x)] ∧ thread_list_mutex s' = has_lock)
  ∧ (thread_list_mutex s = true → has_lock = false → register_thread x has_lock s = Err Hang).
Proof.
  intros Hc [q Hq] Hx. split.
  - intros Hl. unfold register_thread, lock_thread_list. rewrite Hl.
    assert (chain (nexts (MkState (threads s) (<[x := threads s]> (heap s)) true (delivered s)))
              (Some x) (x :: l)) as Hc'.
    { split; [done|]. exists (threads s). split; [apply lookup_insert_eq|].
      eapply chain_ext; [|exact Hc]. intros i Hi. unfold nexts. simpl.
      rewrite lookup_insert_ne; [done|]. by intros ->. }
    destruct has_lock; cbn [mbind outcome_bind]; unfold set_next; simpl; rewrite Hq;
      cbn [mbind outcome_bind]; eexists; (split; [done|]); split_and!; try done.
  - intros Hm ->. unfold register_thread, lock_thread_list. by rewrite Hm.
Qed.

(** C36. [unregister_thread] takes a thread that is in the list out of it,
    wherever it is, tells the plugins and returns 0; a thread that is not in a
    non-empty list is reported with -1 and nothing changes; on an empty list
    the code follows a null pointer. *)
Theorem unregister_thread_spec s l x has_lock :
  thread_chain s l → thread_list_mutex s = has_lock →
  (∀ l1 l2, l = l1 ++ x :: l2 →
     ∃ s', unregister_thread x has_lock s = Ok (0, s') ∧ thread_chain s' (l1 ++ l2)
       ∧ dom (heap s') = dom (heap s) ∧ thread_list_mutex s' = has_lock
       ∧ delivered s' = delivered s ++ [(POST_THREAD_C, x)])
  ∧ (x ∉ l → l ≠ [] →
       ∃ s', unregister_thread x has_lock s = Ok (-1, s') ∧ thread_chain s' l
         ∧ heap s' = heap s ∧ thread_list_mutex s' = has_lock ∧ delivered s' = delivered s)
  ∧ (l = [] → unregister_thread x has_lock s = Err NullPointer).
Proof.
  intros Hc Hl. set (s1 := MkState (threads s) (heap s) true (delivered s)).
  assert ((if has_lock then Ok s else lock_thread_list s) = Ok s1) as Hlock.
  { unfold lock_thread_list, s1. destruct s, has_lock; simpl in *; by rewrite Hl. }
  assert (thread_chain s1 l) as Hc1 by exact Hc.
  unfold unregister_thread. rewrite Hlock. cbn [mbind outcome_bind]. split_and!.
  - intros l1 l2 ->. destruct (unlink_present s1 l1 x l2 Hc1) as (s' & -> & Hc' & Hd & Hdel & Hm).
    cbn [mbind outcome_bind fst snd]. change (0 =? 0) with true. cbn iota.
    destruct has_lock; cbn [mbind outcome_bind unlock_thread_list]; eexists; (split; [done|]);
      split_and!; try done; simpl; by rewrite Hdel.
  - intros Hx Hne. destruct l as [|h r]; [done|].
    apply not_elem_of_cons in Hx as [Hxh Hx]. pose proof (chain_in_heap _ _ _ Hc1) as Hlen.
    pose proof Hc1 as Hc2. unfold thread_chain in Hc2. pose proof Hc2 as (Ht & _).
    rewrite Ht in Hc2. simpl in Hlen.
    destruct (find_prev_missing s1 x r h (S (size (heap s1))) Hc2 Hx) as (y & Hfp & Hy); [unfold s1; simpl; lia|].
    assert (unlink_thread x s1 = Ok (-1, s1)) as ->.
    { unfold unlink_thread. rewrite Ht. rewrite decide_False by congruence. rewrite Hfp.
      cbn [mbind outcome_bind]. by rewrite (get_next_ok _ y None). }
    cbn [mbind outcome_bind fst snd]. change (-1 =? 0) with false. cbn iota.
    destruct has_lock; cbn [mbind outcome_bind unlock_thread_list]; eexists; (split; [done|]);
      by split_and!.
  - intros ->. unfold unlink_thread. unfold thread_chain in Hc1. cbn [chain] in Hc1. rewrite Hc1.
    by rewrite decide_False by done.
Qed.

(** C37. [free_all_other_threads] follows the [next_thread] field of the thread
    that stays instead of the one of the thread it frees. It frees the other
    threads, as it means to, only when the surviving thread is the last of at
    most two; when it is the last of more, all threads between the first and it
    leak; when another thread follows it, that thread is freed twice. *)
Theorem free_all_other_threads_wrong s l1 x l2 :
  thread_chain s (l1 ++ x :: l2) →
  (l2 = [] →
     ∃ s', free_all_other_threads x s = Ok s' ∧ threads s' = Some x
       ∧ heap s' = match l1 with [] => heap s | h :: _ => delete h (heap s) end)
  ∧ (l2 ≠ [] → free_all_other_threads x s = Err UseAfterFree).
Proof.
  intros Hc. pose proof (chain_nodup _ _ _ Hc) as Hnd.
  destruct (chain_app_inv _ _ _ _ _ Hc) as (q & Hq & Hc2). unfold nexts in Hq, Hc2.
  assert (∃ h q1, threads s = Some h ∧ heap s !! h = Some q1
            ∧ match l1 with [] => h = x | h' :: _ => h' = h ∧ h ≠ x ∧ h ∉ l2 end)
    as (h & q1 & Ht & Hh & Hl1).
  { destruct l1 as [|h l1]; destruct Hc as (Ht & q1 & Hq1 & _).
    - by exists x, q1.
    - exists h, q1. simpl in Hnd. apply NoDup_cons in Hnd as [Hnd _].
      rewrite elem_of_app, elem_of_cons in Hnd. naive_solver. }
  unfold free_all_other_threads. rewrite Ht. cbn [free_loop].
  rewrite (get_next_ok _ x q) by done. cbn [mbind outcome_bind].
  assert (∃ s1, (if h =? x then Ok s
                 else r ← free_thread_data h s; c_assert (fst r =? 0) ;; Ok (snd r)) = Ok s1
            ∧ heap s1 = (if h =? x then heap s else delete h (heap s))) as (s1 & Hs1 & Hh1).
  { destruct (h =? x); [by exists s|]. unfold free_thread_data. rewrite Hh. by eexists. }
  rewrite Hs1. cbn [mbind outcome_bind]. split.
  - intros ->. simpl in Hc2. subst q. eexists. split; [done|]. split; [done|]. simpl. rewrite Hh1.
    destruct l1; [subst; by rewrite Z.eqb_refl|].
    destruct Hl1 as (-> & Hne & _). by destruct (Z.eqb_spec h x).
  - intros Hne. destruct l2 as [|n l2]; [done|]. destruct Hc2 as (-> & qn & Hqn & _).
    assert (x ≠ n) as Hxn.
    { apply NoDup_app in Hnd as (_ & _ & Hnd). apply NoDup_cons in Hnd as [Hnd _]. set_solver. }
    assert (heap s1 !! x = Some (Some n) ∧ heap s1 !! n = Some qn) as [Hx1 Hn1].
    { rewrite Hh1. destruct (Z.eqb_spec h x) as [|Hhx]; [done|].
      destruct l1; [done|]. destruct Hl1 as (-> & _ & Hnin). rewrite !lookup_delete_ne; try done.
      set_solver. }
    rewrite (get_next_ok _ _ _ Hx1). cbn [mbind outcome_bind]. tests [(n =? x, false)].
    unfold free_thread_data. rewrite Hn1. cbn [mbind outcome_bind fst snd c_assert].
    change (0 =? 0) with true. cbn [c_assert mbind outcome_bind].
    unfold get_next. simpl. rewrite (lookup_delete_ne (heap s1) n x), Hx1 by congruence.
    cbn [mbind outcome_bind]. by rewrite lookup_delete_eq.
Qed.

(** ** Instances *)

Definition three_threads : state :=
  MkState (Some 30) {[10 := None; 20 := Some 10; 30 := Some 20; 40 := None]} false [].

Lemma three_chain : thread_chain three_threads [30; 20; 10].
Proof. repeat (split; [done|]; eexists; split; [reflexivity|]). done. Qed.

Lemma register_thread_spec_witness :
  ∃ s', register_thread 40 false three_threads = Ok (0, s') ∧ thread_chain s' [40; 30; 20; 10].
Proof.
  destruct (register_thread_spec three_threads [30; 20; 10] 40 false three_chain) as [H _];
    [by eexists | set_solver |].
  destruct H as (s' & Hr & Hc & _); [done|]. by exists s'.
Defined.

Lemma unregister_thread_spec_witness :
  ∃ s', unregister_thread 20 false three_threads = Ok (0, s') ∧ thread_chain s' [30; 10].
Proof.
  destruct (unregister_thread_spec three_threads [30; 20; 10] 20 false three_chain) as [H _];
    [done|].
  destruct (H [30] [10]) as (s' & Hr & Hc & _); [done|]. by exists s'.
Defined.

Lemma free_all_other_threads_wrong_witness :
  free_all_other_threads 20 three_threads = Err UseAfterFree.
Proof.
  apply (free_all_other_threads_wrong three_threads [30] 20 [10] three_chain). done.
Defined.
End ThreadList.
