(* ===== verification/Cachesim.v ===== *)
(** * The cache model (plugins/cachesim/cachesim_model.c)

    A set-associative cache with a chain of parent caches. The plugin calls
    [cachesim_ref] for every memory access of the program. The theorems give
    the geometry that [cachesim_model_init] establishes, memory safety and
    termination of [cachesim_ref] on every chain, the reference count, the
    effect of one line access, and two defects: sequential accesses are counted
    as hits, and the replacement is not LRU. *)
From S2P Require Import Prelude.

Module Cachesim.

Inductive cachesim_policy := REPLACE_RANDOM | REPLACE_LRU | REPLACE_OTHER (n : Z).

Record cachesim_model_line_t := Line { tag : Z; timestamp : Z }.

Record cachesim_stats_t := Stats { references : list Z; misses : list Z; writebacks : list Z }.

(** The struct without its name; [parent] is the next cache of the chain. *)
Record cachesim_model_t := MkCache {
  size : Z;
  line_size : Z;
  max_fetch : Z;
  assoc : Z;
  replacement_policy : cachesim_policy;
  sets : Z;
  set_shift : Z;
  set_mask : Z;
  tag_shift : Z;
  max_fetch_shift : Z;
  last_addr : Z;
  last_line : Z;
  mutex : bool;
  stats : cachesim_stats_t;
  lines : list cachesim_model_line_t
}.

Definition IS_DIRTY : Z := 1.

Definition is_pow2 (val : Z) : bool := Z.land val (u32 (val - 1)) =? 0.

(** [__builtin_ctz], for a non-zero argument. *)
Definition ctz (x : Z) : Z := Z.log2 (Z.land x (- x)).

Definition cachesim_get_set (c : cachesim_model_t) (addr : Z) : Z :=
  s32 (Z.land (Z.shiftr addr (set_shift c)) (set_mask c)).

Definition cachesim_get_tag (c : cachesim_model_t) (addr : Z) : Z :=
  Z.shiftr addr (tag_shift c).

Definition set_stats (v : cachesim_stats_t) (r : cachesim_model_t) : cachesim_model_t :=
  MkCache (size r) (line_size r) (max_fetch r) (assoc r) (replacement_policy r) (sets r)
    (set_shift r) (set_mask r) (tag_shift r) (max_fetch_shift r) (last_addr r) (last_line r)
    (mutex r) v (lines r).
Definition set_lines (v : list cachesim_model_line_t) (r : cachesim_model_t) : cachesim_model_t :=
  MkCache (size r) (line_size r) (max_fetch r) (assoc r) (replacement_policy r) (sets r)
    (set_shift r) (set_mask r) (tag_shift r) (max_fetch_shift r) (last_addr r) (last_line r)
    (mutex r) (stats r) v.
Definition set_mutex (v : bool) (r : cachesim_model_t) : cachesim_model_t :=
  MkCache (size r) (line_size r) (max_fetch r) (assoc r) (replacement_policy r) (sets r)
    (set_shift r) (set_mask r) (tag_shift r) (max_fetch_shift r) (last_addr r) (last_line r)
    v (stats r) (lines r).
Definition set_last (a l : Z) (r : cachesim_model_t) : cachesim_model_t :=
  MkCache (size r) (line_size r) (max_fetch r) (assoc r) (replacement_policy r) (sets r)
    (set_shift r) (set_mask r) (tag_shift r) (max_fetch_shift r) a l
    (mutex r) (stats r) (lines r).

(** [calloc_ok] tells whether the allocation succeeds; the mutex is initialised
    unlocked. On failure the struct is not used (the number of sets is set). *)
Definition cachesim_model_init (c : cachesim_model_t) (size line_size max_fetch assoc : Z)
    (repl_policy : cachesim_policy) (calloc_ok : bool) : outcome (Z * cachesim_model_t) :=
  let way := u32 (assoc * line_size) in
  if (size =? 0) || (line_size =? 0) || (assoc =? 0) || negb (is_pow2 line_size)
     || negb (is_pow2 max_fetch) || (size <? way)
  then Ok (-1, c)
  else if way =? 0 then Err DivisionByZero
  else if negb (size mod way =? 0) then Ok (-1, c)
  else
    let sets := size / way in
    if negb (is_pow2 sets) then Ok (-1, c)
    else if negb calloc_ok then Ok (-1, c)
    else
      let mf := if negb (max_fetch =? 0) then max_fetch else line_size in
      Ok (0, MkCache size line_size mf assoc repl_policy sets (ctz line_size) (u32 (sets - 1))
               (u32 (ctz sets + ctz line_size)) (ctz mf) (last_addr c) (last_line c) false
               (Stats [0; 0] [0; 0] [0; 0])
               (replicate (Z.to_nat (u32 (sets * assoc))) (Line 0 0))).

(** [pthread_mutex_lock] and [pthread_mutex_unlock] of one thread. *)
Definition cachesim_lock (c : cachesim_model_t) : outcome cachesim_model_t :=
  if mutex c then Err Hang else Ok (set_mutex true c).
Definition cachesim_unlock (c : cachesim_model_t) : outcome cachesim_model_t :=
  Ok (set_mutex false c).

Definition counter_index (is_write : bool) : Z := if is_write then 1 else 0.

Definition cachesim_load_line (c : cachesim_model_t) (line_index addr : Z) (is_write : bool)
    : outcome cachesim_model_t :=
  l ← aget (lines c) line_index;
  st ← (if negb (Z.land (tag l) 1 =? 0) then
          wb ← aupd (writebacks (stats c)) (counter_index is_write) (λ n, u64 (n + 1));
          Ok (Stats (references (stats c)) (misses (stats c)) wb)
        else Ok (stats c));
  ls ← aset (lines c) line_index (Line (u64 (Z.shiftl (cachesim_get_tag c addr) 1)) (timestamp l));
  Ok (set_lines ls (set_stats st c)).

Definition UINT64_MAX : Z := 18446744073709551615.

(** The loop of the LRU policy: the first line with the least timestamp. *)
Fixpoint lru_loop (n : nat) (i : Z) (ls : list cachesim_model_line_t) (line_index : Z)
    (min_timestamp line : Z) : outcome Z :=
  match n with
  | O => Ok line
  | S n =>
      l ← aget ls (line_index + i);
      if timestamp l <? min_timestamp then lru_loop n (i + 1) ls line_index (timestamp l) i
      else lru_loop n (i + 1) ls line_index min_timestamp line
  end.

Definition update_dirty_bit (c : cachesim_model_t) (line : Z) (is_write : bool)
    : outcome cachesim_model_t :=
  if is_write then
    ls ← aupd (lines c) line (λ l, Line (Z.lor (tag l) IS_DIRTY) (timestamp l));
    Ok (set_lines ls c)
  else Ok c.

Definition update_line (c : cachesim_model_t) (line : Z) (is_write : bool)
    : outcome cachesim_model_t :=
  c ← update_dirty_bit c line is_write;
  r ← aget (references (stats c)) 0;
  w ← aget (references (stats c)) 1;
  ls ← aupd (lines c) line (λ l, Line (tag l) (u64 (r + w)));
  Ok (set_lines ls c).

(** The search of the other ways: the line found is swapped to the front. *)
Fixpoint find_way (n : nat) (i : Z) (ls : list cachesim_model_line_t) (line tg : Z)
    : outcome (bool * list cachesim_model_line_t) :=
  match n with
  | O => Ok (false, ls)
  | S n =>
      l ← aget ls (line + i);
      if Z.shiftr (tag l) 1 =? tg then
        tmp ← aget ls line;
        ls ← aset ls line l;
        ls ← aset ls (line + i) tmp;
        Ok (true, ls)
      else find_way n (i + 1) ls line tg
  end.

(** [random()], one value per call. *)
Section model.
Context (random : nat → Z).

Definition cachesim_evict_line (c : cachesim_model_t) (line_index : Z) (rng : nat)
    : outcome (Z * nat) :=
  match replacement_policy c with
  | REPLACE_RANDOM =>
      if assoc c =? 0 then Err DivisionByZero else Ok (random rng mod assoc c, S rng)
  | REPLACE_LRU =>
      r ← lru_loop (Z.to_nat (assoc c)) 0 (lines c) line_index UINT64_MAX (-1); Ok (r, rng)
  | REPLACE_OTHER _ => Err Exit
  end.

(** A reference of one cache: the chain of its parents and the random numbers
    are threaded through. *)
Definition world : Type := cachesim_model_t * list cachesim_model_t * nat.
Definition ref_fun : Type :=
  list cachesim_model_t → nat → Z → Z → bool → outcome (list cachesim_model_t * nat).

Definition ref_parents (ref : ref_fun) (ps : list cachesim_model_t) (rng : nat)
    (addr sz : Z) (is_write : bool) : outcome (list cachesim_model_t * nat) :=
  match ps with
  | [] => Ok ([], rng)
  | p :: ps =>
      p ← cachesim_lock p;
      r ← ref (p :: ps) rng addr sz is_write;
      match fst r with
      | [] => Err NullPointer
      | p :: ps => p ← cachesim_unlock p; Ok (p :: ps, snd r)
      end
  end.

(** A miss in the set whose first line is [line]. *)
Definition ref_miss (ref : ref_fun) (w : world) (line addr : Z) (is_write : bool)
    : outcome (world * Z) :=
  let '(c, ps, rng) := w in
  ms ← aupd (misses (stats c)) (counter_index is_write) (λ n, u64 (n + 1));
  let c := set_stats (Stats (references (stats c)) ms (writebacks (stats c))) c in
  p ← ref_parents ref ps rng addr (line_size c) is_write;
  e ← cachesim_evict_line c line (snd p);
  let line := line + fst e in
  c ← cachesim_load_line c line addr is_write;
  Ok ((c, fst p, snd e), line).

(** The body of the loop: the new state and the variable [line]. *)
Definition ref_line (ref : ref_fun) (w : world) (addr : Z) (is_write : bool)
    : outcome (world * Z) :=
  let '(c, ps, rng) := w in
  if addr =? last_addr c then
    c ← update_dirty_bit c (last_line c) is_write;
    Ok ((c, ps, rng), last_line c)
  else
    let line := s32 (u32 (cachesim_get_set c addr * assoc c)) in
    let tg := cachesim_get_tag c addr in
    l ← aget (lines c) line;
    if Z.shiftr (tag l) 1 =? tg then
      c ← update_dirty_bit c line is_write; Ok ((c, ps, rng), line)
    else
      f ← find_way (Z.to_nat (assoc c - 1)) 1 (lines c) line tg;
      let c := set_lines (snd f) c in
      x ← (if fst f : bool then Ok ((c, ps, rng), line)
           else ref_miss ref (c, ps, rng) line addr is_write);
      let '(c, ps, rng, line) := (x : world * Z) in
      c ← update_line c line is_write;
      Ok ((c, ps, rng), line).

Fixpoint line_loop (fuel : nat) (ref : ref_fun) (w : world) (addr end_ : Z) (line : option Z)
    (is_write : bool) : outcome (world * Z * option Z) :=
  match fuel with
  | O => Err OutOfFuel
  | S fuel =>
      if addr <? end_ then
        x ← ref_line ref w addr is_write;
        line_loop fuel ref (fst x) (u64 (addr + line_size (fst (fst (fst x))))) end_
          (Some (snd x)) is_write
      else Ok (w, addr, line)
  end.

Definition add_references (c : cachesim_model_t) (addr sz : Z) (is_write : bool)
    : outcome cachesim_model_t :=
  let mask := u32 (max_fetch c - 1) in
  let offset := Z.land (u32 addr) mask in
  let t_size := u32 (sz + offset) in
  rs ← aupd (references (stats c)) (counter_index is_write)
         (λ n, u64 (n + Z.shiftr t_size (max_fetch_shift c)));
  rs ← aupd rs (counter_index is_write)
         (λ n, u64 (n + if negb (Z.land t_size mask =? 0) then 1 else 0));
  Ok (set_stats (Stats rs (misses (stats c)) (writebacks (stats c))) c).

(** The call on a chain of [depth] caches. *)
Fixpoint cachesim_ref_depth (depth : nat) : ref_fun := λ chain rng addr sz is_write,
  match depth, chain with
  | S depth, c :: ps =>
      let end_ := u64 (addr + sz) in
      c ← add_references c addr sz is_write;
      let addr := u64 (Z.shiftl (Z.shiftr addr (set_shift c)) (set_shift c)) in
      x ← line_loop (S (Z.to_nat ((end_ - addr) / line_size c + 1))) (cachesim_ref_depth depth)
            (c, ps, rng) addr end_ None is_write;
      let '(c, ps, rng, addr, line) := (x : world * Z * option Z) in
      match line with
      | Some l => Ok (set_last addr l c :: ps, rng)
      | None => Err Uninitialised
      end
  | _, _ => Err NullPointer
  end.

Definition cachesim_ref : ref_fun := λ chain, cachesim_ref_depth (length chain) chain.
End model.

(** ** Well-formed caches *)

Definition total (c : cachesim_model_t) : Z :=
  match references (stats c) with [r; w] => r + w | _ => 0 end.

(** The geometry of the cache, the lengths of its arrays, and time stamps that
    are not later than the number of references. *)
Record wf (c : cachesim_model_t) : Prop := {
  wf_line_size : ∃ a, 0 ≤ a ≤ 31 ∧ line_size c = 2 ^ a ∧ set_shift c = a;
  wf_sets : ∃ b, 0 ≤ b ≤ 31 ∧ sets c = 2 ^ b ∧ set_mask c = 2 ^ b - 1
                 ∧ tag_shift c = b + set_shift c;
  wf_fetch : ∃ m, 0 ≤ m ≤ 31 ∧ max_fetch c = 2 ^ m ∧ max_fetch_shift c = m;
  wf_assoc : 0 < assoc c;
  wf_lines : Z.of_nat (length (lines c)) = sets c * assoc c;
  wf_small : sets c * assoc c < 2 ^ 31;
  wf_policy : replacement_policy c = REPLACE_RANDOM ∨ replacement_policy c = REPLACE_LRU;
  wf_refs : ∃ r w, references (stats c) = [r; w] ∧ 0 ≤ r ∧ 0 ≤ w ∧ r + w < UINT64_MAX;
  wf_misses : length (misses (stats c)) = 2%nat;
  wf_writebacks : length (writebacks (stats c)) = 2%nat;
  wf_last : 0 ≤ last_line c < sets c * assoc c;
  wf_stamps : Forall (λ l, 0 ≤ timestamp l ≤ total c) (lines c)
}.

(** The first line of the set of an address, and the presence of its tag. *)
Definition first_line (c : cachesim_model_t) (addr : Z) : Z :=
  (addr / line_size c) mod sets c * assoc c.

Definition resident (c : cachesim_model_t) (addr : Z) : Prop :=
  ∃ k l, 0 ≤ k < assoc c ∧ lines c !! Z.to_nat (first_line c addr + k) = Some l
         ∧ tag l / 2 = cachesim_get_tag c addr.

Lemma get_tag_div c addr :
  wf c → cachesim_get_tag c addr = addr / line_size c / sets c.
Proof.
  intros Hw. destruct (wf_line_size _ Hw) as (a & Ha & -> & Hs).
  destruct (wf_sets _ Hw) as (b & Hb & -> & _ & Ht). unfold cachesim_get_tag.
  rewrite Ht, Hs, Z.shiftr_div_pow2, Z.div_div, <- Z.pow_add_r by lia. do 2 f_equal. lia.
Qed.

Lemma get_set_mod c addr :
  wf c → cachesim_get_set c addr = (addr / line_size c) mod sets c.
Proof.
  intros Hw. destruct (wf_line_size _ Hw) as (a & Ha & -> & Hs).
  destruct (wf_sets _ Hw) as (b & Hb & Hsb & Hm & _). pose proof (wf_small _ Hw).
  pose proof (wf_assoc _ Hw). unfold cachesim_get_set.
  rewrite Hm, Hs, Hsb in *. rewrite land_pow2_mask, Z.shiftr_div_pow2 by lia.
  pose proof (Z.mod_pos_bound (addr / 2 ^ a) (2 ^ b) ltac:(lia)).
  apply s32_small. nia.
Qed.

Lemma first_line_range c addr :
  wf c → 0 ≤ first_line c addr ∧ first_line c addr + assoc c ≤ sets c * assoc c.
Proof.
  intros Hw. pose proof (wf_assoc _ Hw). destruct (wf_sets _ Hw) as (b & Hb & Hs & _).
  pose proof (Z.mod_pos_bound (addr / line_size c) (sets c) ltac:(lia)).
  unfold first_line. nia.
Qed.

Lemma line_index c addr :
  wf c → s32 (u32 (cachesim_get_set c addr * assoc c)) = first_line c addr.
Proof.
  intros Hw. pose proof (first_line_range c addr Hw). pose proof (wf_small _ Hw).
  pose proof (wf_assoc _ Hw). rewrite get_set_mod by done. unfold first_line in *.
  rewrite u32_small by lia. apply s32_small. lia.
Qed.

Lemma line_at c i : wf c → 0 ≤ i < sets c * assoc c → ∃ l, lines c !! Z.to_nat i = Some l.
Proof.
  intros Hw Hi. apply lookup_lt_is_Some_2. pose proof (wf_lines _ Hw). lia.
Qed.

(** An update of the lines and counters that keeps the geometry. *)
Record same_geometry (c c' : cachesim_model_t) : Prop := {
  sg_line_size : line_size c' = line_size c;
  sg_sets : sets c' = sets c;
  sg_assoc : assoc c' = assoc c;
  sg_shift : set_shift c' = set_shift c;
  sg_tag : tag_shift c' = tag_shift c;
  sg_last : last_addr c' = last_addr c;
  sg_last_line : last_line c' = last_line c;
  sg_mutex : mutex c' = mutex c
}.

#[global] Instance same_geometry_refl : Reflexive same_geometry.
Proof. by constructor. Qed.
#[global] Instance same_geometry_trans : Transitive same_geometry.
Proof. intros c1 c2 c3 [] []. constructor; congruence. Qed.

Lemma wf_set_lines c ls :
  wf c → length ls = length (lines c) → Forall (λ l, 0 ≤ timestamp l ≤ total c) ls →
  wf (set_lines ls c).
Proof. intros [] Hl Hf. constructor; simpl; try done. by rewrite Hl. Qed.

Lemma stamp_at c i l : wf c → lines c !! i = Some l → 0 ≤ timestamp l ≤ total c.
Proof. intros Hw Hl. by apply (Forall_lookup_1 _ _ _ _ (wf_stamps _ Hw) Hl). Qed.

Lemma total_bound c : wf c → 0 ≤ total c < UINT64_MAX.
Proof. intros Hw. destruct (wf_refs _ Hw) as (r & w & He & ? & ? & ?). unfold total. rewrite He. lia. Qed.

(** *** The parts of a line access *)

Lemma update_dirty_bit_ok c i l w :
  wf c → 0 ≤ i → lines c !! Z.to_nat i = Some l →
  ∃ l', update_dirty_bit c i w = Ok (set_lines (<[Z.to_nat i := l']> (lines c)) c)
    ∧ tag l' / 2 = tag l / 2 ∧ timestamp l' = timestamp l.
Proof.
  intros Hw Hi Hl. unfold update_dirty_bit. destruct w.
  - exists (Line (Z.lor (tag l) IS_DIRTY) (timestamp l)).
    rewrite (aupd_lookup _ _ _ l) by done. split_and!; [done | | done]. simpl.
    rewrite <- !Z.div2_div. apply Z.bits_inj'. intros n Hn.
    rewrite !Z.div2_spec, !Z.shiftr_spec, Z.lor_spec by lia. unfold IS_DIRTY.
    rewrite (Z.bits_above_log2 1) by (simpl; lia). by rewrite orb_false_r.
  - exists l. split_and!; try done. rewrite list_insert_id by done. by destruct c.
Qed.

Lemma update_line_ok c i l w :
  wf c → 0 ≤ i → lines c !! Z.to_nat i = Some l →
  ∃ l', update_line c i w = Ok (set_lines (<[Z.to_nat i := l']> (lines c)) c)
    ∧ tag l' / 2 = tag l / 2 ∧ timestamp l' = total c.
Proof.
  intros Hw Hi Hl. unfold update_line.
  destruct (update_dirty_bit_ok c i l w Hw Hi Hl) as (l1 & -> & Ht & _).
  cbn [mbind outcome_bind]. destruct (wf_refs _ Hw) as (r & wr & He & ? & ? & ?). simpl.
  rewrite He. unfold aget. simpl. cbn [mbind outcome_bind].
  pose proof (lookup_lt_Some _ _ _ Hl).
  rewrite (aupd_lookup _ _ _ l1) by (done || by apply list_lookup_insert_eq).
  cbn [mbind outcome_bind]. rewrite list_insert_insert_eq.
  exists (Line (tag l1) (u64 (r + wr))). split_and!; [done | done |]. simpl.
  unfold total. rewrite He. apply u64_small. unfold UINT64_MAX in *. lia.
Qed.

Lemma lru_loop_ok n : ∀ i ls base mn line,
  0 ≤ base → 0 ≤ i → base + i + Z.of_nat n ≤ Z.of_nat (length ls) →
  (∀ j l, 0 ≤ j < i + Z.of_nat n → ls !! Z.to_nat (base + j) = Some l → timestamp l < UINT64_MAX) →
  (i = 0 ∧ line = -1 ∧ mn = UINT64_MAX ∧ (0 < n)%nat
   ∨ 0 ≤ line < i ∧ (∃ l, ls !! Z.to_nat (base + line) = Some l ∧ timestamp l = mn)
     ∧ ∀ j l, 0 ≤ j < i → ls !! Z.to_nat (base + j) = Some l → mn ≤ timestamp l) →
  ∃ r, lru_loop n i ls base mn line = Ok r ∧ 0 ≤ r < i + Z.of_nat n
    ∧ ∀ l j l', 0 ≤ j < i + Z.of_nat n → ls !! Z.to_nat (base + r) = Some l →
        ls !! Z.to_nat (base + j) = Some l' → timestamp l ≤ timestamp l'.
Proof.
  induction n as [|n IH]; intros i ls base mn line Hb Hi Hlen Hts Hst.
  - destruct Hst as [|(Hl & (l & Hll & <-) & Hmin)]; [lia|]. exists line. split; [done|].
    split; [lia|]. intros l1 j l' Hj Hl1. simplify_eq. apply Hmin. lia.
  - destruct (lookup_lt_is_Some_2 ls (Z.to_nat (base + i))) as [l Hl]; [lia|].
    cbn [lru_loop]. rewrite (aget_lookup _ _ l) by (lia || done). cbn [mbind outcome_bind].
    replace (i + Z.of_nat (S n)) with (i + 1 + Z.of_nat n) by lia.
    assert (timestamp l < UINT64_MAX) as Hmax by (apply (Hts i); [lia | done]).
    destruct (Z.ltb_spec (timestamp l) mn) as [Hlt|Hge]; apply IH; try lia.
    all: try (intros j l1 Hj; apply Hts; lia).
    + right. split; [lia|]. split; [by exists l|]. intros j l1 Hj Hl1.
      destruct (decide (j = i)) as [->|]; [simplify_eq; lia|].
      destruct Hst as [|(_ & _ & Hmin)]; [lia|]. specialize (Hmin j l1 ltac:(lia) Hl1). lia.
    + right. destruct Hst as [|(Hl0 & He & Hmin)]; [lia|]. split; [lia|]. split; [done|].
      intros j l1 Hj Hl1. destruct (decide (j = i)) as [->|]; [simplify_eq; lia|].
      apply (Hmin j); [lia | done].
Qed.

Lemma find_way_ok n : ∀ i ls base tg,
  0 ≤ base → 0 < i → base + i + Z.of_nat n ≤ Z.of_nat (length ls) →
  (find_way n i ls base tg = Ok (false, ls)
     ∧ ∀ j l, i ≤ j < i + Z.of_nat n → ls !! Z.to_nat (base + j) = Some l → tag l / 2 ≠ tg)
  ∨ (∃ j l l0, i ≤ j < i + Z.of_nat n ∧ ls !! Z.to_nat (base + j) = Some l ∧ tag l / 2 = tg
       ∧ ls !! Z.to_nat base = Some l0
       ∧ find_way n i ls base tg
         = Ok (true, <[Z.to_nat (base + j) := l0]> (<[Z.to_nat base := l]> ls))).
Proof.
  induction n as [|n IH]; intros i ls base tg Hb Hi Hlen; [left; split; [done | lia]|].
  destruct (lookup_lt_is_Some_2 ls (Z.to_nat (base + i))) as [l Hl]; [lia|].
  destruct (lookup_lt_is_Some_2 ls (Z.to_nat base)) as [l0 Hl0]; [lia|].
  cbn [find_way]. rewrite (aget_lookup _ (base + i) l) by (lia || done). cbn [mbind outcome_bind].
  rewrite <- Z.div2_spec, Z.div2_div. destruct (Z.eqb_spec (tag l / 2) tg) as [He|Hne].
  - right. exists i, l, l0. split_and!; try done; try lia.
    rewrite (aget_lookup _ base l0) by done. cbn [mbind outcome_bind].
    rewrite (proj2 (aset_ok ls (<[Z.to_nat base := l]> ls) _ _)) by (split; [lia | done]).
    cbn [mbind outcome_bind].
    rewrite (proj2 (aset_ok _ (<[Z.to_nat (base + i) := l0]> (<[Z.to_nat base := l]> ls)) _ _)); [done|].
    rewrite length_insert. split; [lia | done].
  - destruct (IH (i + 1) ls base tg) as [[Hf Hno]|(j & l1 & l2 & Hj & Hx)]; try lia.
    + left. split; [done|]. intros j l1 Hj Hl1. destruct (decide (j = i)) as [->|]; [by simplify_eq|].
      apply (Hno j); [lia | done].
    + right. exists j, l1, l2. split; [lia | done].
Qed.

(** *** Chains of caches *)

(** Room for [k] more references of [sz] bytes before a 64-bit counter is full. *)
Fixpoint enough (ps : list cachesim_model_t) (sz k : Z) : Prop :=
  match ps with
  | [] => True
  | p :: ps =>
      wf p ∧ total p + k * (sz + 2) < UINT64_MAX
      ∧ enough ps (line_size p) (k * (sz / line_size p + 2))
  end.

Definition unlocked (ps : list cachesim_model_t) : Prop := Forall (λ p, mutex p = false) ps.

(** Addresses up to which no cache of a chain computes a wrapped address or tag. *)
Definition limit (ps : list cachesim_model_t) : Z := 2 ^ 63 - 2 ^ 32 * (Z.of_nat (length ps) + 1).

Lemma enough_le ps sz k k' : 0 ≤ sz → 0 ≤ k' ≤ k → enough ps sz k → enough ps sz k'.
Proof.
  revert sz k k'. induction ps as [|p ps IH]; intros sz k k' Hsz Hk; [done|].
  intros (Hw & Ht & He). destruct (wf_line_size _ Hw) as (a & Ha & Hls & _).
  pose proof (Z.pow_pos_nonneg 2 a ltac:(lia) ltac:(lia)).
  pose proof (Z.div_pos sz (line_size p) Hsz ltac:(lia)).
  split_and!; [done | nia |]. eapply (IH _ (k * (sz / line_size p + 2))); [lia | nia | done].
Qed.

(** What the model of a parent chain of [n] caches has to guarantee. *)
Definition ref_spec (ref : ref_fun) (n : nat) : Prop := ∀ c ps rng addr sz w k,
  length ps = n → 0 ≤ k → 0 ≤ addr → 0 < sz < 2 ^ 32 → addr + sz ≤ limit ps →
  enough (c :: ps) sz (k + 1) → unlocked ps →
  ∃ c' ps' rng', ref (c :: ps) rng addr sz w = Ok (c' :: ps', rng')
    ∧ enough (c' :: ps') sz k ∧ unlocked ps' ∧ mutex c' = mutex c
    ∧ line_size c' = line_size c ∧ length ps' = length ps.

Lemma set_mutex_wf b c : wf c → wf (set_mutex b c).
Proof. by intros []; constructor. Qed.

Lemma ref_parents_ok ref ps rng addr sz w k :
  (match ps with [] => True | _ :: ps => ref_spec ref (length ps) end) →
  0 ≤ k → 0 ≤ addr → 0 < sz < 2 ^ 32 → addr + sz ≤ limit ps + 2 ^ 32 →
  enough ps sz (k + 1) → unlocked ps →
  ∃ ps' rng', ref_parents ref ps rng addr sz w = Ok (ps', rng')
    ∧ enough ps' sz k ∧ unlocked ps' ∧ length ps' = length ps.
Proof.
  intros Hr Hk Ha Hsz Hl He Hu. destruct ps as [|p ps]; [by exists [], rng|].
  unfold limit in Hl. simpl in Hl. apply Forall_cons in Hu as [Hp Hu].
  cbn [ref_parents]. unfold cachesim_lock. rewrite Hp. cbn [mbind outcome_bind].
  destruct (Hr (set_mutex true p) ps rng addr sz w k) as (c' & ps' & rng' & Href & He' & Hu' & Hm & _ & Hlen);
    try done; [unfold limit; lia | |].
  { destruct He as (Hw & ? & ?). split_and!; [by apply set_mutex_wf | done | done]. }
  rewrite Href. cbn [mbind outcome_bind fst snd]. unfold cachesim_unlock. cbn [mbind outcome_bind].
  exists (set_mutex false c' :: ps'), rng'. split; [done|]. destruct He' as (Hw' & ? & ?).
  split; [split_and!; [by apply set_mutex_wf | done | done]|].
  split; [by constructor | simpl; lia].
Qed.

(** *** One line access *)

Definition bump (n : Z) : Z := u64 (n + 1).
Definition miss_counted (w : bool) (ms : list Z) : list Z :=
  alter bump (Z.to_nat (counter_index w)) ms.

Lemma aupd_counter (ms : list Z) w f :
  length ms = 2%nat → aupd ms (counter_index w) f = Ok (alter f (Z.to_nat (counter_index w)) ms).
Proof. intros. destruct ms as [|x [|y [|]]]; try done. by destruct w. Qed.

Lemma evict_ok random c addr rng :
  wf c → (∀ n, 0 ≤ random n) →
  ∃ r rng', cachesim_evict_line random c (first_line c addr) rng = Ok (r, rng')
    ∧ 0 ≤ r < assoc c
    ∧ (replacement_policy c = REPLACE_LRU → ∀ l j l', 0 ≤ j < assoc c →
         lines c !! Z.to_nat (first_line c addr + r) = Some l →
         lines c !! Z.to_nat (first_line c addr + j) = Some l' → timestamp l ≤ timestamp l').
Proof.
  intros Hw Hrnd. pose proof (wf_assoc _ Hw). pose proof (first_line_range c addr Hw).
  pose proof (wf_lines _ Hw). unfold cachesim_evict_line.
  destruct (wf_policy _ Hw) as [->| ->].
  - tests [(assoc c =? 0, false)]. exists (random rng mod assoc c), (S rng).
    split_and!; try done; apply Z.mod_pos_bound; lia.
  - destruct (lru_loop_ok (Z.to_nat (assoc c)) 0 (lines c) (first_line c addr) UINT64_MAX (-1))
      as (r & Hr & Hb & Hmin); try lia.
    + intros j l Hj Hl. pose proof (stamp_at _ _ _ Hw Hl). pose proof (total_bound c Hw). lia.
    + rewrite Hr. cbn [mbind outcome_bind]. exists r, rng. split_and!; try done; try lia.
      intros _ l j l' Hj. apply Hmin. lia.
Qed.

Lemma load_line_ok c i l addr w :
  wf c → 0 ≤ i → lines c !! Z.to_nat i = Some l →
  ∃ wb, length wb = 2%nat
    ∧ cachesim_load_line c i addr w
      = Ok (set_lines (<[Z.to_nat i := Line (u64 (Z.shiftl (cachesim_get_tag c addr) 1))
                                           (timestamp l)]> (lines c))
              (set_stats (Stats (references (stats c)) (misses (stats c)) wb) c)).
Proof.
  intros Hw Hi Hl. unfold cachesim_load_line. rewrite (aget_lookup _ i l) by done.
  cbn [mbind outcome_bind]. pose proof (lookup_lt_Some _ _ _ Hl).
  assert (∃ st wb, (if negb (Z.land (tag l) 1 =? 0) then
              wb ← aupd (writebacks (stats c)) (counter_index w) (λ n, u64 (n + 1));
              Ok (Stats (references (stats c)) (misses (stats c)) wb)
            else Ok (stats c)) = Ok st
          ∧ st = Stats (references (stats c)) (misses (stats c)) wb ∧ length wb = 2%nat)
    as (st & wb & -> & -> & Hwb).
  { pose proof (wf_writebacks _ Hw). destruct (negb _).
    - rewrite aupd_counter by done. cbn [mbind outcome_bind]. eexists _, _. split_and!; try done.
      by rewrite length_alter.
    - eexists _, (writebacks (stats c)). split_and!; try done. by destruct (stats c). }
  cbn [mbind outcome_bind]. rewrite (proj2 (aset_ok _ (<[Z.to_nat i := Line
    (u64 (Z.shiftl (cachesim_get_tag c addr) 1)) (timestamp l)]> (lines c)) _ _)).
  2: { split; [lia | done]. }
  cbn [mbind outcome_bind]. by exists wb.
Qed.

Lemma loaded_tag c addr :
  wf c → 0 ≤ addr < 2 ^ 63 →
  u64 (Z.shiftl (cachesim_get_tag c addr) 1) / 2 = cachesim_get_tag c addr.
Proof.
  intros Hw Ha. destruct (wf_line_size _ Hw) as (a & Hab & _ & Hs).
  destruct (wf_sets _ Hw) as (b & Hb & Hsb & _ & Ht). unfold cachesim_get_tag.
  rewrite Z.shiftr_div_pow2, Z.shiftl_mul_pow2 by lia.
  pose proof (Z.pow_pos_nonneg 2 (tag_shift c) ltac:(lia) ltac:(lia)).
  pose proof (Z.div_pos addr (2 ^ tag_shift c) ltac:(lia) ltac:(lia)).
  assert (addr / 2 ^ tag_shift c ≤ addr) by (apply Z.div_le_upper_bound; nia).
  rewrite u64_small by lia. change (2 ^ 1) with 2. apply Z.div_mul. lia.
Qed.

(** The parts of the state a line access leaves alone. *)
Record line_step (c c' : cachesim_model_t) : Prop := {
  ls_geometry : same_geometry c c';
  ls_refs : references (stats c') = references (stats c);
  ls_length : length (lines c') = length (lines c);
  ls_policy : replacement_policy c' = replacement_policy c
}.

Lemma line_step_resident c c' addr :
  line_step c c' → first_line c' addr = first_line c addr
                   ∧ cachesim_get_tag c' addr = cachesim_get_tag c addr.
Proof.
  intros [[Hls Hs Ha _ Ht _ _ _] _ _ _]. unfold first_line, cachesim_get_tag.
  by rewrite Hls, Hs, Ha, Ht.
Qed.

Lemma line_step_set_lines c c' ls :
  line_step c c' → length ls = length (lines c') → line_step c (set_lines ls c').
Proof. intros [[] ? ? ?] Hl. constructor; simpl; [by constructor | done | congruence | done]. Qed.

Lemma total_set_lines ls c : total (set_lines ls c) = total c.
Proof. done. Qed.

(** Replacing one line of the cache. *)
Lemma wf_insert_line c i l :
  wf c → 0 ≤ timestamp l ≤ total c → wf (set_lines (<[i := l]> (lines c)) c).
Proof.
  intros Hw Hl. apply wf_set_lines; [done | by rewrite length_insert |].
  apply Forall_insert; [apply (wf_stamps _ Hw) | done].
Qed.

Section step.
Context (random : nat → Z) (Hrandom : ∀ n, 0 ≤ random n).

Lemma wf_set_misses c ms wb :
  wf c → length ms = 2%nat → length wb = 2%nat →
  wf (set_stats (Stats (references (stats c)) ms wb) c).
Proof. intros [] ? ?. by constructor. Qed.

Lemma ref_miss_ok ref c ps rng addr w k :
  wf c → (match ps with [] => True | _ :: ps => ref_spec ref (length ps) end) →
  0 ≤ k → 0 ≤ addr → addr + line_size c ≤ limit ps + 2 ^ 32 → addr < 2 ^ 63 →
  enough ps (line_size c) (k + 1) → unlocked ps →
  ∃ c' ps' rng' j l, ref_miss random ref (c, ps, rng) (first_line c addr) addr w
      = Ok (c', ps', rng', first_line c addr + j)
    ∧ wf c' ∧ line_step c c' ∧ 0 ≤ j < assoc c
    ∧ misses (stats c') = miss_counted w (misses (stats c))
    ∧ lines c' !! Z.to_nat (first_line c addr + j) = Some l
    ∧ tag l / 2 = cachesim_get_tag c addr
    ∧ enough ps' (line_size c) k ∧ unlocked ps' ∧ length ps' = length ps.
Proof.
  intros Hw Hr Hk Ha Hlim Hmax He Hu. pose proof (wf_misses _ Hw) as Hms.
  destruct (wf_line_size _ Hw) as (a & Hab & Hls & _).
  pose proof (Z.pow_le_mono_r 2 a 31 ltac:(lia) ltac:(lia)).
  pose proof (Z.pow_pos_nonneg 2 a ltac:(lia) ltac:(lia)).
  unfold ref_miss. rewrite aupd_counter by done. cbn [mbind outcome_bind].
  set (c1 := set_stats _ c).
  assert (wf c1) as Hw1 by (apply wf_set_misses; [done | by rewrite length_alter | apply (wf_writebacks _ Hw)]).
  destruct (ref_parents_ok ref ps rng addr (line_size c) w k)
    as (ps' & rng' & Hp & He' & Hu' & Hlen); try done; [lia|].
  change (line_size c1) with (line_size c). rewrite Hp. cbn [mbind outcome_bind fst snd].
  destruct (evict_ok random c1 addr rng' Hw1 Hrandom) as (j & rng2 & Hev & Hj & _).
  change (first_line c1 addr) with (first_line c addr) in Hev. rewrite Hev.
  cbn [mbind outcome_bind fst snd].
  pose proof (first_line_range c1 addr Hw1). change (assoc c1) with (assoc c) in *.
  change (sets c1) with (sets c) in *. change (first_line c1 addr) with (first_line c addr) in *.
  destruct (line_at c1 (first_line c addr + j) Hw1) as [l Hl]; [simpl; lia|].
  destruct (load_line_ok c1 (first_line c addr + j) l addr w Hw1) as (wb & Hwb & ->); [lia | done |].
  cbn [mbind outcome_bind].
  eexists _, ps', rng2, j, _. split; [done|]. pose proof (lookup_lt_Some _ _ _ Hl).
  split_and!; try done; try apply Hj.
  - apply (wf_insert_line (set_stats (Stats (references (stats c1)) (misses (stats c1)) wb) c1));
      [apply wf_set_misses; [done | apply (wf_misses _ Hw1) | done]|].
    simpl. apply (stamp_at c1 _ _ Hw1 Hl).
  - constructor; simpl; try done. by rewrite length_insert.
  - by apply list_lookup_insert_eq.
  - simpl. apply (loaded_tag c1); [done | lia].
Qed.

(** The effect of a line access: unless it takes the shortcut of the last
    address, the line is resident afterwards, and a miss is counted exactly when
    it was not resident before. *)
Record line_effect (c c' : cachesim_model_t) (addr : Z) (w : bool) : Prop := {
  effect_step : line_step c c';
  effect_resident : addr ≠ last_addr c → resident c' addr;
  effect_hit : addr = last_addr c ∨ resident c addr → misses (stats c') = misses (stats c);
  effect_miss : addr ≠ last_addr c → ¬ resident c addr →
    misses (stats c') = miss_counted w (misses (stats c))
}.

Lemma ref_line_ok ref c ps rng addr w k :
  wf c → (match ps with [] => True | _ :: ps => ref_spec ref (length ps) end) →
  0 ≤ k → 0 ≤ addr → addr + line_size c ≤ limit ps + 2 ^ 32 → addr < 2 ^ 63 →
  enough ps (line_size c) (k + 1) → unlocked ps →
  ∃ c' ps' rng' line, ref_line random ref (c, ps, rng) addr w = Ok (c', ps', rng', line)
    ∧ wf c' ∧ line_effect c c' addr w ∧ 0 ≤ line < sets c * assoc c
    ∧ enough ps' (line_size c) k ∧ unlocked ps' ∧ length ps' = length ps.
Proof.
  intros Hw Hr Hk Ha Hlim Hmax He Hu. pose proof (first_line_range c addr Hw) as Hfl.
  pose proof (wf_assoc _ Hw) as Has.
  destruct (wf_line_size _ Hw) as (a & Hab & Hls & _).
  pose proof (Z.pow_pos_nonneg 2 a ltac:(lia) ltac:(lia)).
  assert (enough ps (line_size c) k) as Hek by (eapply (enough_le _ _ (k + 1)); [lia | lia | done]).
  unfold ref_line. destruct (Z.eqb_spec addr (last_addr c)) as [Hlast|Hlast].
  { pose proof (wf_last _ Hw). destruct (line_at c (last_line c) Hw) as [l Hl]; [lia|].
    destruct (update_dirty_bit_ok c (last_line c) l w) as (l' & -> & Ht & Hts); [done | lia | done |].
    cbn [mbind outcome_bind]. eexists _, ps, rng, (last_line c). split; [done|].
    split_and!; try done; try lia.
    - apply wf_insert_line; [done|]. rewrite Hts. by apply (stamp_at c _ _ Hw Hl).
    - constructor; try done. constructor; try done. simpl. by rewrite length_insert. }
  rewrite line_index by done. set (fl := first_line c addr) in *.
  destruct (line_at c fl Hw) as [l0 Hl0]; [lia|].
  rewrite (aget_lookup _ fl l0) by (lia || done). cbn [mbind outcome_bind].
  rewrite <- Z.div2_spec, Z.div2_div.
  destruct (Z.eqb_spec (tag l0 / 2) (cachesim_get_tag c addr)) as [Ht0|Ht0].
  { destruct (update_dirty_bit_ok c fl l0 w) as (l' & -> & Ht & Hts); [done | lia | done |].
    cbn [mbind outcome_bind]. pose proof (lookup_lt_Some _ _ _ Hl0).
    eexists _, ps, rng, fl. split; [done|]. split_and!; try done; try lia.
    - apply wf_insert_line; [done|]. rewrite Hts. by apply (stamp_at c _ _ Hw Hl0).
    - constructor; try done.
      + constructor; try done. simpl. by rewrite length_insert.
      + intros _. exists 0, l'. split; [done|]. rewrite Z.add_0_r. split; [|by rewrite Ht].
        by apply list_lookup_insert_eq.
      + intros _ Hno. destruct Hno. exists 0, l0. by rewrite Z.add_0_r. }
  pose proof (wf_lines _ Hw) as Hlines.
  destruct (find_way_ok (Z.to_nat (assoc c - 1)) 1 (lines c) fl (cachesim_get_tag c addr))
    as [[-> Hno]|(j & l & l1 & Hj & Hl & Hlt & Hl1 & ->)]; try lia; cbn [mbind outcome_bind fst snd].
  - (* a miss *)
    replace (set_lines (lines c) c) with c by by destruct c.
    destruct (ref_miss_ok ref c ps rng addr w k)
      as (c1 & ps1 & rng1 & j & l & Hrm & Hw1 & Hst & Hj & Hmiss & Hl & Hlt & He1 & Hu1 & Hlen); try done.
    fold fl in Hrm, Hl. rewrite Hrm. cbn [mbind outcome_bind].
    destruct (update_line_ok c1 (fl + j) l w) as (l' & -> & Ht' & Hts'); [done | lia | done |].
    cbn [mbind outcome_bind]. pose proof (lookup_lt_Some _ _ _ Hl).
    destruct (line_step_resident c c1 addr Hst) as [Hfl1 Htag1].
    eexists _, ps1, rng1, (fl + j). split; [done|]. split_and!; try done; try lia.
    + apply wf_insert_line; [done|]. rewrite Hts'. pose proof (total_bound c1 Hw1). lia.
    + constructor.
      * apply line_step_set_lines; [done | by rewrite length_insert].
      * intros _. exists j, l'. simpl. destruct Hst as [[]]. rewrite sg_assoc0.
        unfold first_line, cachesim_get_tag in *. simpl. rewrite Hfl1, Htag1, Ht'.
        split_and!; try lia; try done. by apply list_lookup_insert_eq.
      * intros [|(i & li & Hi & Hli & Hti)]; [done|exfalso]. fold fl in Hli.
        destruct (decide (i = 0)) as [->|]; [rewrite Z.add_0_r in Hli; by simplify_eq|].
        apply (Hno i li); [lia | done..].
      * done.
  - (* a hit in another way *)
    set (ls := <[Z.to_nat (fl + j) := l1]> (<[Z.to_nat fl := l]> (lines c))).
    assert (ls !! Z.to_nat fl = Some l) as Hfl0.
    { unfold ls. rewrite list_lookup_insert_ne by lia. apply list_lookup_insert_eq. lia. }
    assert (wf (set_lines ls c)) as Hw1.
    { apply wf_set_lines; [done | unfold ls; by rewrite !length_insert |].
      apply Forall_insert; [apply Forall_insert|]; [apply (wf_stamps _ Hw)|..];
        by eapply (stamp_at c). }
    destruct (update_line_ok (set_lines ls c) fl l w) as (l' & -> & Ht' & Hts'); [done | lia | done |].
    cbn [mbind outcome_bind]. pose proof (lookup_lt_Some _ _ _ Hfl0).
    eexists _, ps, rng, fl. split; [done|]. split_and!; try done; try lia.
    + apply (wf_insert_line (set_lines ls c)); [done|]. rewrite Hts'.
      pose proof (total_bound _ Hw1). lia.
    + constructor; try done.
      * constructor; try done. simpl. unfold ls. by rewrite !length_insert.
      * intros _. exists 0, l'. split; [done|]. rewrite Z.add_0_r. split; [|by rewrite Ht'].
        by apply list_lookup_insert_eq.
      * intros _ Hres. destruct Hres. exists j, l. split_and!; try done; lia.
Qed.

(** *** The loop over the lines and the whole reference *)

Lemma line_step_trans c1 c2 c3 : line_step c1 c2 → line_step c2 c3 → line_step c1 c3.
Proof. intros [] []. constructor; [by etrans | congruence..]. Qed.

Lemma line_loop_ok ref fuel : ∀ n c ps rng addr end_ line w k,
  wf c → (match ps with [] => True | _ :: ps => ref_spec ref (length ps) end) →
  0 ≤ n < Z.of_nat fuel → 0 ≤ k → 0 ≤ addr → end_ - addr ≤ n * line_size c →
  end_ ≤ limit ps → enough ps (line_size c) (n + k) → unlocked ps →
  (match line with Some l => 0 ≤ l < sets c * assoc c | None => True end) →
  ∃ c' ps' rng' addr' line',
    line_loop random fuel ref (c, ps, rng) addr end_ line w = Ok (c', ps', rng', addr', line')
    ∧ wf c' ∧ line_step c c' ∧ end_ ≤ addr'
    ∧ ((line_size c | addr) → (line_size c | addr'))
    ∧ (end_ ≤ addr → addr' = addr ∧ line' = line)
    ∧ (addr < end_ → addr' < end_ + line_size c ∧ is_Some line')
    ∧ (match line' with Some l => 0 ≤ l < sets c * assoc c | None => True end)
    ∧ enough ps' (line_size c) k ∧ unlocked ps' ∧ length ps' = length ps.
Proof.
  induction fuel as [|fuel IH]; intros n c ps rng addr end_ line w k Hw Hr Hn Hk Ha Hend Hlim He Hu Hline;
    [lia|].
  destruct (wf_line_size _ Hw) as (a & Hab & Hls & _).
  pose proof (Z.pow_le_mono_r 2 a 31 ltac:(lia) ltac:(lia)).
  pose proof (Z.pow_pos_nonneg 2 a ltac:(lia) ltac:(lia)).
  cbn [line_loop]. destruct (Z.ltb_spec addr end_) as [Hlt|Hge].
  - assert (0 < n) as Hn0 by nia.
    assert (limit ps ≤ 2 ^ 63) as Hl63 by (unfold limit; lia).
    destruct (ref_line_ok ref c ps rng addr w (n - 1 + k))
      as (c1 & ps1 & rng1 & l & -> & Hw1 & Heff & Hl & He1 & Hu1 & Hlen); try done; try lia.
    { by replace (n - 1 + k + 1) with (n + k) by lia. }
    cbn [mbind outcome_bind fst snd]. destruct Heff as [Hst _ _ _].
    pose proof (sg_line_size _ _ (ls_geometry _ _ Hst)) as Hls1.
    pose proof (sg_sets _ _ (ls_geometry _ _ Hst)) as Hs1.
    pose proof (sg_assoc _ _ (ls_geometry _ _ Hst)) as Ha1.
    rewrite Hls1, u64_small by lia.
    assert (match ps1 with [] => True | _ :: ps => ref_spec ref (length ps) end) as Hr1.
    { destruct ps1, ps; simpl in Hlen; try done. by injection Hlen as ->. }
    assert (end_ - (addr + line_size c) ≤ (n - 1) * line_size c1) as Hend1 by (rewrite Hls1; nia).
    assert (end_ ≤ limit ps1) as Hlim1 by (unfold limit in *; rewrite Hlen; lia).
    rewrite <- Hls1 in He1. rewrite <- Hs1, <- Ha1 in Hl.
    destruct (IH (n - 1) c1 ps1 rng1 (addr + line_size c) end_ (Some l) w k)
      as (c' & ps' & rng' & addr' & line' & -> & Hw' & Hst' & Hle & Hdiv & Hstop & Hafter & Hline' & He' & Hu' & Hlen');
      try done; try lia.
    rewrite Hls1, Hs1, Ha1 in *. eexists _, _, _, _, _. split; [done|].
    split_and!; try done; try congruence; try lia; [by eapply line_step_trans|..].
    { intros Hd. apply Hdiv. apply Z.divide_add_r; [done | by exists 1; lia]. }
    intros _. destruct (decide (addr + line_size c < end_)); [by apply Hafter|].
    destruct Hstop as [-> ->]; [lia|]. split; [lia | by eexists].
  - exists c, ps, rng, addr, line. split_and!; try done; try lia.
    eapply (enough_le _ _ (n + k)); [lia | lia | done].
Qed.

(** The references a call counts, as the code computes them. *)
Definition references_added (c : cachesim_model_t) (addr sz : Z) : Z :=
  let t_size := u32 (sz + addr mod max_fetch c) in
  t_size / max_fetch c + (if negb (t_size mod max_fetch c =? 0) then 1 else 0).

Lemma references_added_bound c addr sz :
  wf c → 0 ≤ addr → 0 < sz < 2 ^ 32 → 0 ≤ references_added c addr sz ≤ sz + 2.
Proof.
  intros Hw Ha Hsz. destruct (wf_fetch _ Hw) as (m & Hm & Hmf & _).
  pose proof (Z.pow_pos_nonneg 2 m ltac:(lia) ltac:(lia)). unfold references_added.
  rewrite Hmf. set (mf := 2 ^ m) in *. pose proof (Z.mod_pos_bound addr mf ltac:(lia)).
  pose proof (u32_range (sz + addr mod mf)).
  assert (u32 (sz + addr mod mf) ≤ sz + addr mod mf) by (unfold u32; apply Z.mod_le; lia).
  pose proof (Z.div_pos (u32 (sz + addr mod mf)) mf ltac:(lia) ltac:(lia)).
  assert (u32 (sz + addr mod mf) / mf ≤ sz).
  { assert (u32 (sz + addr mod mf) / mf < sz + 1); [apply Z.div_lt_upper_bound; nia | lia]. }
  destruct (negb _); lia.
Qed.

Lemma add_references_ok c addr sz w :
  wf c → 0 ≤ addr → 0 < sz < 2 ^ 32 → total c + references_added c addr sz < UINT64_MAX →
  ∃ c1, add_references c addr sz w = Ok c1 ∧ wf c1 ∧ same_geometry c c1 ∧ lines c1 = lines c
    ∧ misses (stats c1) = misses (stats c)
    ∧ references (stats c1) = alter (λ n, n + references_added c addr sz)
                                (Z.to_nat (counter_index w)) (references (stats c))
    ∧ total c1 = total c + references_added c addr sz.
Proof.
  intros Hw Ha Hsz Ht. destruct (wf_fetch _ Hw) as (m & Hm & Hmf & Hms).
  pose proof (Z.pow_pos_nonneg 2 m ltac:(lia) ltac:(lia)).
  pose proof (Z.pow_le_mono_r 2 m 31 ltac:(lia) ltac:(lia)).
  pose proof (references_added_bound c addr sz Hw Ha Hsz) as Hb.
  destruct (wf_refs _ Hw) as (r & wr & He & Hr & Hwr & Hrw).
  unfold total in Ht. rewrite He in Ht.
  unfold add_references. rewrite Hmf, (u32_small (2 ^ m - 1)), Hms by lia.
  rewrite !land_pow2_mask by lia.
  assert (u32 addr mod 2 ^ m = addr mod 2 ^ m) as ->.
  { unfold u32. replace (2 ^ 32) with (2 ^ m * 2 ^ (32 - m)) by (rewrite <- Z.pow_add_r by lia; f_equal; lia).
    rewrite Z.rem_mul_r, Z.mul_comm, Z.mod_add, Z.mod_mod; lia. }
  unfold references_added in *. rewrite Hmf in *.
  set (t := u32 (sz + addr mod 2 ^ m)) in *. rewrite Z.shiftr_div_pow2 by lia.
  pose proof (Z.div_pos t (2 ^ m) ltac:(apply u32_range) ltac:(lia)).
  set (e := if negb (t mod 2 ^ m =? 0) then 1 else 0) in *.
  assert (0 ≤ e) by (unfold e; destruct (negb _); lia).
  assert (∀ x y, 0 ≤ x → 0 ≤ y → x + y ≤ r + wr + (t / 2 ^ m + e) → u64 (x + y) = x + y) as Hu.
  { intros x y ? ? ?. apply u64_small. unfold UINT64_MAX in *. lia. }
  destruct w; cbn [counter_index]; rewrite He; unfold aupd, aget, aset; simpl;
    cbn [mbind outcome_bind]; simpl; rewrite !Hu by (try rewrite Hu by lia; lia).
  - eexists. split; [done|]. split_and!; try done.
    + destruct Hw. constructor; try done; simpl.
      * exists r, (wr + t / 2 ^ m + e). split_and!; try done; lia.
      * eapply Forall_impl; [done|]. simpl. intros l Hl. unfold total in *. simpl.
        rewrite He in Hl. lia.
    + simpl. do 2 f_equal; lia.
    + unfold total. simpl. rewrite He. lia.
  - eexists. split; [done|]. split_and!; try done.
    + destruct Hw. constructor; try done; simpl.
      * exists (r + t / 2 ^ m + e), wr. split_and!; try done; lia.
      * eapply Forall_impl; [done|]. simpl. intros l Hl. unfold total in *. simpl.
        rewrite He in Hl. lia.
    + simpl. f_equal; lia.
    + unfold total. simpl. rewrite He. lia.
Qed.

(** Everything a reference of the first cache of a chain guarantees. *)
Record ref_result (c c' : cachesim_model_t) (addr sz : Z) : Prop := {
  res_wf : wf c';
  res_line_size : line_size c' = line_size c;
  res_mutex : mutex c' = mutex c;
  res_last : addr + sz ≤ last_addr c' < addr + sz + line_size c;
  res_aligned : (line_size c | last_addr c')
}.

Lemma set_last_wf a l c : wf c → 0 ≤ l < sets c * assoc c → wf (set_last a l c).
Proof. intros [] ?. by constructor. Qed.

Lemma ref_depth_ok depth c ps rng addr sz w k :
  (match ps with [] => True
   | _ :: ps => ref_spec (cachesim_ref_depth random depth) (length ps) end) →
  0 ≤ k → 0 ≤ addr → 0 < sz < 2 ^ 32 → addr + sz ≤ limit ps →
  enough (c :: ps) sz (k + 1) → unlocked ps →
  ∃ c' ps' rng', cachesim_ref_depth random (S depth) (c :: ps) rng addr sz w = Ok (c' :: ps', rng')
    ∧ enough (c' :: ps') sz k ∧ unlocked ps' ∧ length ps' = length ps ∧ ref_result c c' addr sz.
Proof.
  intros Hr Hk Ha Hsz Hlim (Hw & Ht & He) Hu.
  destruct (wf_line_size _ Hw) as (a & Hab & Hls & Hsh).
  pose proof (Z.pow_le_mono_r 2 a 31 ltac:(lia) ltac:(lia)).
  pose proof (Z.pow_pos_nonneg 2 a ltac:(lia) ltac:(lia)).
  assert (limit ps ≤ 2 ^ 63) as Hl63 by (unfold limit; lia).
  pose proof (references_added_bound c addr sz Hw Ha Hsz) as Hb.
  destruct (add_references_ok c addr sz w Hw Ha Hsz) as (c1 & Hadd & Hw1 & Hg & _ & _ & _ & Ht1);
    [nia|].
  cbn [cachesim_ref_depth]. rewrite Hadd. cbn [mbind outcome_bind].
  pose proof (sg_line_size _ _ Hg) as Hls1. rewrite (sg_shift _ _ Hg), Hls1.
  rewrite Z.shiftr_div_pow2, Z.shiftl_mul_pow2, Hsh, <- Hls by lia.
  set (ls := line_size c) in *. pose proof (Z.div_mod addr ls ltac:(lia)).
  pose proof (Z.mod_pos_bound addr ls ltac:(lia)). pose proof (Z.div_pos addr ls ltac:(lia) ltac:(lia)).
  set (al := addr / ls * ls). assert (0 ≤ al ≤ addr ∧ addr < al + ls) as [? ?] by (unfold al; nia).
  rewrite !u64_small by lia. set (n := (addr + sz - al) / ls + 1).
  pose proof (Z.div_mod (addr + sz - al) ls ltac:(lia)).
  pose proof (Z.mod_pos_bound (addr + sz - al) ls ltac:(lia)).
  pose proof (Z.div_pos (addr + sz - al) ls ltac:(lia) ltac:(lia)).
  assert (n ≤ sz / ls + 2) as Hn2.
  { unfold n. assert ((addr + sz - al) / ls ≤ sz / ls + 1); [|lia].
    replace (sz / ls + 1) with ((sz + 1 * ls) / ls) by (rewrite Z.div_add by lia; lia).
    apply Z.div_le_mono; lia. }
  pose proof (Z.div_pos sz ls ltac:(lia) ltac:(lia)).
  set (kp := k * (sz / ls + 2)). assert (0 ≤ kp) by (unfold kp; nia).
  assert (enough ps (line_size c1) (n + kp)) as He1.
  { rewrite Hls1. eapply (enough_le _ _ ((k + 1) * (sz / ls + 2))); [lia | unfold kp; lia | done]. }
  destruct (line_loop_ok (cachesim_ref_depth random depth) (S (Z.to_nat n)) n c1 ps rng al
              (addr + sz) None w kp)
    as (c' & ps' & rng' & addr' & line' & Hloop & Hw' & Hst' & Hle & Hdiv & _ & Hafter & Hline' & He' & Hu' & Hlen');
    try done; try (unfold n, ls in *; lia).
  rewrite Hls1 in *. fold ls in Hloop, Hdiv, Hafter, He'.
  destruct Hafter as [Hafter [l ->]]; [lia|]. rewrite Hloop.
  cbn [mbind outcome_bind].
  destruct Hst' as [[Hls' Hs' Ha' _ _ _ _ Hm'] Hrefs' _ _].
  eexists _, ps', rng'. split; [done|].
  assert (wf (set_last addr' l c')) as Hwl by (apply set_last_wf; [done | by rewrite Hs', Ha']).
  split; [split; [exact Hwl | split]|split; [exact Hu'|split; [exact Hlen'|]]].
  - change (total (set_last addr' l c')) with (total c'). unfold total at 1. rewrite Hrefs'.
    fold (total c1). rewrite Ht1. nia.
  - change (line_size (set_last addr' l c')) with (line_size c'). rewrite Hls', Hls1. exact He'.
  - constructor; [exact Hwl | | | |].
    + change (line_size (set_last addr' l c')) with (line_size c'). by rewrite Hls', Hls1.
    + change (mutex (set_last addr' l c')) with (mutex c'). rewrite Hm'. apply (sg_mutex _ _ Hg).
    + change (last_addr (set_last addr' l c')) with addr'. fold ls. lia.
    + change (last_addr (set_last addr' l c')) with addr'. fold ls. apply Hdiv. by exists (addr / ls).
Qed.

Lemma ref_spec_depth n : ref_spec (cachesim_ref_depth random (S n)) n.
Proof.
  induction n as [|n IH]; intros c ps rng addr sz w k Hlen Hk Ha Hsz Hl He Hu.
  - destruct ps; [|done].
    destruct (ref_depth_ok 0 c [] rng addr sz w k) as (c' & ps' & rng' & -> & ? & ? & ? & []); try done.
    by eexists _, _, _.
  - destruct ps as [|p ps]; [done|]. injection Hlen as <-.
    destruct (ref_depth_ok (S (length ps)) c (p :: ps) rng addr sz w k)
      as (c' & ps' & rng' & -> & ? & ? & ? & []); try done.
    by eexists _, _, _.
Qed.

Lemma parents_spec (ps : list cachesim_model_t) :
  match ps with [] => True
  | _ :: ps' => ref_spec (cachesim_ref_depth random (length ps)) (length ps') end.
Proof. destruct ps; [done|]. apply ref_spec_depth. Qed.
End step.

(** *** Powers of two *)

Lemma is_pow2_spec v : 0 < v < 2 ^ 32 → is_pow2 v = true → ∃ a, 0 ≤ a ≤ 31 ∧ v = 2 ^ a.
Proof.
  intros Hv Hp. unfold is_pow2 in Hp. apply Z.eqb_eq in Hp. rewrite u32_small in Hp by lia.
  set (a := Z.log2 v). pose proof (Z.log2_spec v ltac:(lia)) as Ha. fold a in Ha.
  assert (0 ≤ a ≤ 31) as Har.
  { split; [apply Z.log2_nonneg|]. assert (a < 32); [|lia].
    apply Z.log2_lt_pow2; lia. }
  exists a. split; [done|]. destruct (decide (v = 2 ^ a)) as [|Hne]; [done|exfalso].
  (* both v and v - 1 have bit a *)
  assert (∀ x, 2 ^ a ≤ x < 2 ^ Z.succ a → Z.testbit x a = true) as Hbit.
  { intros x Hx. rewrite Z.testbit_true by lia. rewrite Z.pow_succ_r in Hx by lia.
    assert (x / 2 ^ a = 1) as ->; [|done]. symmetry. apply (Z.div_unique _ _ _ (x - 2 ^ a)); lia. }
  apply (f_equal (λ z, Z.testbit z a)) in Hp. rewrite Z.land_spec, Z.bits_0 in Hp.
  rewrite !Hbit in Hp by lia. done.
Qed.

Lemma ctz_pow2 a : 0 ≤ a → ctz (2 ^ a) = a.
Proof.
  intros Ha. unfold ctz. replace (Z.land (2 ^ a) (- 2 ^ a)) with (2 ^ a); [by apply Z.log2_pow2|].
  apply Z.bits_inj'. intros i Hi. rewrite Z.land_spec.
  destruct (decide (i = a)) as [->|].
  - rewrite Z.pow2_bits_true by done. simpl. symmetry.
    rewrite Z.bits_opp, <- Z.sub_1_r by done.
    replace (2 ^ a - 1) with (Z.ones a) by (rewrite Z.ones_equiv; lia).
    rewrite Z.ones_spec_high by lia. done.
  - by rewrite Z.pow2_bits_false by lia.
Qed.

Lemma is_pow2_iff v : 0 < v < 2 ^ 32 → is_pow2 v = true ↔ ∃ a, 0 ≤ a ∧ v = 2 ^ a.
Proof.
  intros Hv. split.
  - intros Hp. destruct (is_pow2_spec v Hv Hp) as (a & ? & ?). exists a. split; [lia | done].
  - intros (a & Ha & ->). unfold is_pow2. rewrite u32_small by lia. rewrite land_pow2_mask by done.
    by rewrite Z.mod_same by lia.
Qed.

Lemma pow2_bounded a : 0 ≤ a → 2 ^ a < 2 ^ 32 → 0 ≤ a ≤ 31.
Proof. intros Ha Hlt. apply (Z.pow_lt_mono_r_iff 2) in Hlt; lia. Qed.

(** The cache that a successful initialisation builds. *)
Definition fresh_cache (c : cachesim_model_t) (sz : Z) (a b m asc : Z) (policy : cachesim_policy)
    : cachesim_model_t :=
  MkCache sz (2 ^ a) (2 ^ m) asc policy (2 ^ b) a (2 ^ b - 1) (b + a) m (last_addr c) (last_line c)
    false (Stats [0; 0] [0; 0] [0; 0]) (replicate (Z.to_nat (2 ^ b * asc)) (Line 0 0)).

Lemma fresh_cache_wf c sz a b m asc policy :
  0 ≤ a ≤ 31 → 0 ≤ b ≤ 31 → 0 ≤ m ≤ 31 → 0 < asc → 2 ^ b * asc < 2 ^ 31 → last_line c = 0 →
  policy = REPLACE_RANDOM ∨ policy = REPLACE_LRU →
  wf (fresh_cache c sz a b m asc policy).
Proof.
  intros Ha Hb Hm Hasc Hlt Hl Hp. pose proof (Z.pow_pos_nonneg 2 b ltac:(lia) ltac:(lia)).
  constructor; simpl; try done.
  - by exists a.
  - exists b. split_and!; try done; lia.
  - by exists m.
  - rewrite length_replicate. nia.
  - exists 0, 0. by split_and!.
  - nia.
  - apply Forall_replicate. done.
Qed.

Lemma init_valid c sz lsz mf asc policy a b :
  0 ≤ a → lsz = 2 ^ a → 0 ≤ b → sz = 2 ^ b * (asc * lsz) → 0 ≤ mf < 2 ^ 32 →
  (mf = 0 ∨ ∃ m, 0 ≤ m ∧ mf = 2 ^ m) → 0 < sz < 2 ^ 31 → 0 < asc → asc * lsz < 2 ^ 32 →
  ∃ m, 0 ≤ m ≤ 31 ∧ 0 ≤ a ≤ 31 ∧ 0 ≤ b ≤ 31 ∧ 2 ^ b * asc < 2 ^ 31
    ∧ cachesim_model_init c sz lsz mf asc policy true = Ok (0, fresh_cache c sz a b m asc policy).
Proof.
  intros Ha Hlsz Hb Hsz Hmf Hfetch Hs Hasc Hway.
  pose proof (Z.pow_pos_nonneg 2 a ltac:(lia) Ha). pose proof (Z.pow_pos_nonneg 2 b ltac:(lia) Hb).
  set (way := asc * lsz) in *. assert (0 < way) by (unfold way; nia).
  assert (2 ^ b ≤ sz ∧ way ≤ sz ∧ 2 ^ a ≤ way) as (Hbs & Hws & Haw) by (unfold way in *; nia).
  assert (0 ≤ a ≤ 31) by (apply pow2_bounded; lia).
  assert (0 ≤ b ≤ 31) by (apply pow2_bounded; lia).
  assert (2 ^ b * asc < 2 ^ 31) by (unfold way in *; nia).
  assert (0 < lsz) by lia.
  assert (is_pow2 lsz = true) as Hp1 by (apply is_pow2_iff; [lia | by exists a]).
  assert (sz / way = 2 ^ b) as Hdiv by (rewrite Hsz; apply Z.div_mul; lia).
  assert (is_pow2 (2 ^ b) = true) as Hp2 by (apply is_pow2_iff; [lia | by exists b]).
  assert (is_pow2 mf = true) as Hp3.
  { destruct Hfetch as [->|[m Hm]]; [done|]. apply is_pow2_iff; [|by exists m].
    destruct Hm as [Hm ->]. pose proof (Z.pow_pos_nonneg 2 m). lia. }
  assert (∃ m, 0 ≤ m ≤ 31 ∧ (if negb (mf =? 0) then mf else lsz) = 2 ^ m) as (m & Hm & Hmv).
  { destruct Hfetch as [->|(m & Hm & ->)]; [by exists a|]. exists m.
    pose proof (Z.pow_pos_nonneg 2 m). destruct (Z.eqb_spec (2 ^ m) 0); [lia|].
    split; [apply pow2_bounded; lia | done]. }
  exists m. split_and!; try lia. unfold cachesim_model_init. fold way.
  rewrite (u32_small way), Hp1, Hp3 by lia.
  tests [(sz =? 0, false); (lsz =? 0, false); (asc =? 0, false); (sz <? way, false); (way =? 0, false)].
  assert (sz mod way = 0) as -> by (rewrite Hsz; apply Z.mod_mul; lia).
  change (0 =? 0) with true. cbn [negb]. rewrite Hdiv, Hp2. cbn [negb]. rewrite Hmv.
  rewrite !(u32_small (2 ^ b - 1)) by lia. rewrite Hlsz, !ctz_pow2 by lia.
  rewrite (u32_small (b + a)) by lia. rewrite (u32_small (2 ^ b * asc)) by lia. done.
Qed.

Lemma init_accepts c sz lsz mf asc policy :
  0 < sz < 2 ^ 31 → 0 < lsz → 0 ≤ mf < 2 ^ 32 → 0 < asc → asc * lsz < 2 ^ 32 →
  cachesim_model_init c sz lsz mf asc policy true = Ok (-1, c)
  ∨ (∃ a, 0 ≤ a ∧ lsz = 2 ^ a) ∧ (mf = 0 ∨ ∃ m, 0 ≤ m ∧ mf = 2 ^ m)
    ∧ (∃ b, 0 ≤ b ∧ sz = 2 ^ b * (asc * lsz)).
Proof.
  intros Hs Hl Hmf Hasc Hway. assert (0 < asc * lsz) by nia.
  assert (lsz ≤ asc * lsz) by nia. unfold cachesim_model_init. rewrite (u32_small (asc * lsz)) by lia.
  set (way := asc * lsz) in *.
  tests [(sz =? 0, false); (lsz =? 0, false); (asc =? 0, false); (way =? 0, false)].
  destruct (is_pow2 lsz) eqn:Hp1; [|by left]. destruct (is_pow2 mf) eqn:Hp3; [|by left].
  cbn [negb orb]. destruct (Z.ltb_spec sz way); [by left|]. cbn iota.
  destruct (Z.eqb_spec (sz mod way) 0) as [Hmod|]; [|by left]. cbn [negb].
  destruct (is_pow2 (sz / way)) eqn:Hp2; [|by left]. right.
  pose proof (Z.div_mod sz way ltac:(lia)). pose proof (Z.div_pos sz way ltac:(lia) ltac:(lia)).
  assert (0 < sz / way ∧ sz / way ≤ sz) as [? ?] by nia.
  split_and!.
  - apply is_pow2_iff; [lia | done].
  - destruct (decide (mf = 0)); [by left | right]. apply is_pow2_iff; [lia | done].
  - apply is_pow2_iff in Hp2 as (b & Hb & He); [|lia]. exists b. split; [done|]. rewrite <- He. lia.
Qed.

(** ** Properties *)

(** C29. When [assoc * line_size] does not overflow and the cache has fewer than
    2^31 bytes, [cachesim_model_init] accepts exactly the sizes for which the
    line size, the fetch size and the number of sets are powers of two and the
    ways divide the cache, and then builds a well-formed, empty cache in which
    an address is recovered from its tag, set and offset: no two lines share
    both tag and set. *)
Theorem cachesim_model_init_spec c sz lsz mf asc policy :
  0 < sz < 2 ^ 31 → 0 < lsz → 0 ≤ mf < 2 ^ 32 → 0 < asc → asc * lsz < 2 ^ 32 →
  policy = REPLACE_RANDOM ∨ policy = REPLACE_LRU → last_line c = 0 →
  let valid := (∃ a, 0 ≤ a ∧ lsz = 2 ^ a) ∧ (mf = 0 ∨ ∃ m, 0 ≤ m ∧ mf = 2 ^ m)
               ∧ (∃ b, 0 ≤ b ∧ sz = 2 ^ b * (asc * lsz)) in
  (valid → ∃ c', cachesim_model_init c sz lsz mf asc policy true = Ok (0, c') ∧ wf c'
     ∧ total c' = 0 ∧ misses (stats c') = [0; 0] ∧ sets c' * (assoc c' * line_size c') = sz
     ∧ (∀ addr, 0 ≤ addr →
          (cachesim_get_tag c' addr * sets c' + cachesim_get_set c' addr) * line_size c'
          ≤ addr < (cachesim_get_tag c' addr * sets c' + cachesim_get_set c' addr + 1) * line_size c'))
  ∧ (¬ valid → cachesim_model_init c sz lsz mf asc policy true = Ok (-1, c)).
Proof.
  intros Hs Hl Hmf Hasc Hway Hp Hll valid. split.
  - intros ((a & Ha & Hla) & Hf & (b & Hb & Hsb)).
    destruct (init_valid c sz lsz mf asc policy a b)
      as (m & Hm & Ha' & Hb' & Hlt & Hi); try done.
    exists (fresh_cache c sz a b m asc policy). split; [done|].
    assert (wf (fresh_cache c sz a b m asc policy)) as Hw by by apply fresh_cache_wf.
    split_and!; try done.
    + simpl. rewrite Hsb, Hla. done.
    + intros addr Haddr. rewrite get_tag_div, get_set_mod by done. simpl.
      pose proof (Z.pow_pos_nonneg 2 a ltac:(lia) ltac:(lia)).
      pose proof (Z.pow_pos_nonneg 2 b ltac:(lia) ltac:(lia)).
      pose proof (Z.div_mod (addr / 2 ^ a) (2 ^ b) ltac:(lia)).
      pose proof (Z.div_mod addr (2 ^ a) ltac:(lia)).
      pose proof (Z.mod_pos_bound addr (2 ^ a) ltac:(lia)). nia.
  - intros Hv. destruct (init_accepts c sz lsz mf asc policy Hs Hl Hmf Hasc Hway) as [|Hok];
    [done | by destruct Hv].
Qed.

Section reference.
Context (random : nat → Z) (Hrandom : ∀ n, 0 ≤ random n).

(** C27. [cachesim_ref] on a chain of well-formed caches of any length ends
    without an access outside the arrays, a deadlock on a parent's mutex or an
    arithmetic fault, keeps every cache well formed, and leaves in [last_addr]
    the address of the line after the last one referenced. *)
Theorem cachesim_ref_safe c ps rng addr sz w :
  0 ≤ addr → 0 < sz < 2 ^ 32 → addr + sz ≤ limit ps →
  enough (c :: ps) sz 1 → unlocked ps →
  ∃ c' ps' rng', cachesim_ref random (c :: ps) rng addr sz w = Ok (c' :: ps', rng')
    ∧ Forall wf (c' :: ps') ∧ unlocked ps' ∧ length ps' = length ps ∧ mutex c' = mutex c
    ∧ addr + sz ≤ last_addr c' < addr + sz + line_size c
    ∧ (line_size c | last_addr c').
Proof.
  intros Ha Hsz Hl He Hu. unfold cachesim_ref. cbn [length].
  destruct (ref_depth_ok random Hrandom (length ps) c ps rng addr sz w 0)
    as (c' & ps' & rng' & -> & He' & Hu' & Hlen & [Hw _ Hm Hla Hd]); try done.
  { by apply parents_spec. }
  exists c', ps', rng'. split_and!; try done; try apply Hla.
  clear -He'. revert sz He'. generalize 0. generalize (c' :: ps'). clear.
  intros l. induction l as [|p l IH]; intros z sz; [by constructor|].
  intros (Hw & _ & He). constructor; [done|]. by eapply IH.
Qed.

(** C28. A line access that does not take the shortcut of the last address
    leaves the line in its set, and counts one miss of its kind (read or write)
    exactly when the line was not in the set before; the shortcut counts
    nothing. Apart from tags, time stamps and counters nothing changes. *)
Theorem ref_line_spec c ps rng addr w :
  wf c → 0 ≤ addr → addr + line_size c ≤ limit ps →
  enough ps (line_size c) 1 → unlocked ps →
  ∃ c' ps' rng' line,
    ref_line random (cachesim_ref_depth random (length ps)) (c, ps, rng) addr w
    = Ok (c', ps', rng', line)
    ∧ wf c' ∧ line_step c c' ∧ 0 ≤ line < sets c * assoc c
    ∧ (addr ≠ last_addr c → resident c' addr)
    ∧ (addr = last_addr c ∨ resident c addr → misses (stats c') = misses (stats c))
    ∧ (addr ≠ last_addr c → ¬ resident c addr →
       misses (stats c') = miss_counted w (misses (stats c))).
Proof.
  intros Hw Ha Hl He Hu.
  destruct (wf_line_size _ Hw) as (a & Hab & Hls & _).
  pose proof (Z.pow_pos_nonneg 2 a ltac:(lia) ltac:(lia)).
  destruct (ref_line_ok random Hrandom (cachesim_ref_depth random (length ps)) c ps rng addr w 0)
    as (c' & ps' & rng' & line & -> & Hw' & [] & Hline & _); try done; try lia.
  { by apply parents_spec. } { unfold limit in Hl. lia. }
  exists c', ps', rng', line. split_and!; try done; apply Hline.
Qed.

(** The references a call counts are the aligned [max_fetch]-byte blocks
    that its bytes touch, read and write references separately. *)
Theorem add_references_blocks c addr sz w :
  wf c → 0 ≤ addr → 0 < sz → sz + max_fetch c < 2 ^ 32 → total c + sz + 2 < UINT64_MAX →
  ∃ c', add_references c addr sz w = Ok c'
    ∧ references (stats c')
      = alter (λ n, n + ((addr + sz - 1) / max_fetch c - addr / max_fetch c + 1))
          (Z.to_nat (counter_index w)) (references (stats c))
    ∧ misses (stats c') = misses (stats c) ∧ lines c' = lines c.
Proof.
  intros Hw Ha Hsz Hlt Ht. destruct (wf_fetch _ Hw) as (m & Hm & Hmf & _).
  pose proof (Z.pow_pos_nonneg 2 m ltac:(lia) ltac:(lia)).
  pose proof (references_added_bound c addr sz Hw Ha ltac:(lia)).
  destruct (add_references_ok c addr sz w) as (c' & Hc & _ & _ & Hl & Hmi & Hr & _);
    [done | done | lia | lia |].
  exists c'. split_and!; try done. rewrite Hr.
  assert (references_added c addr sz = (addr + sz - 1) / max_fetch c - addr / max_fetch c + 1)
    as ->; [|done]. unfold references_added.
  set (mf := max_fetch c) in *. pose proof (Z.mod_pos_bound addr mf ltac:(lia)).
  rewrite u32_small by lia. set (t := sz + addr mod mf).
  pose proof (Z.div_mod addr mf ltac:(lia)).
  assert ((addr + sz - 1) / mf = addr / mf + (t - 1) / mf) as ->.
  { replace (addr + sz - 1) with (t - 1 + addr / mf * mf) by (unfold t; lia).
    rewrite Z.div_add by lia. lia. }
  pose proof (Z.div_mod t mf ltac:(lia)). pose proof (Z.mod_pos_bound t mf ltac:(lia)).
  destruct (Z.eqb_spec (t mod mf) 0); cbn [negb].
  - assert ((t - 1) / mf = t / mf - 1); [|lia].
    symmetry. apply (Z.div_unique _ _ _ (mf - 1)); lia.
  - assert ((t - 1) / mf = t / mf); [|lia].
    symmetry. apply (Z.div_unique _ _ _ (t mod mf - 1)); lia.
Qed.

(** A reference inside the line at [last_addr]. *)
Lemma ref_at_last depth c ps rng sz w :
  wf c → 0 ≤ last_addr c → (line_size c | last_addr c) → 0 < sz ≤ line_size c →
  last_addr c + 2 * line_size c < 2 ^ 64 → total c + sz + 2 < UINT64_MAX →
  ∃ c', cachesim_ref_depth random (S depth) (c :: ps) rng (last_addr c) sz w = Ok (c' :: ps, rng)
    ∧ misses (stats c') = misses (stats c)
    ∧ (resident c' (last_addr c) → resident c (last_addr c)).
Proof.
  intros Hw Ha Hd Hsz Hlim Ht. destruct (wf_line_size _ Hw) as (a & Hab & Hls & Hsh).
  pose proof (Z.pow_le_mono_r 2 a 31 ltac:(lia) ltac:(lia)).
  pose proof (references_added_bound c (last_addr c) sz Hw Ha ltac:(lia)).
  destruct (add_references_ok c (last_addr c) sz w) as (c1 & Hadd & Hw1 & Hg & Hl1 & Hm1 & _);
    [done | done | lia | lia |].
  cbn [cachesim_ref_depth]. rewrite Hadd. cbn [mbind outcome_bind].
  destruct Hg as [Hgl Hgs Hga Hgh Hgt Hla Hll _]. rewrite Hgh, Hgl.
  rewrite Z.shiftr_div_pow2, Z.shiftl_mul_pow2, Hsh, <- Hls by lia.
  assert (last_addr c / line_size c * line_size c = last_addr c) as ->.
  { destruct Hd as [q ->]. by rewrite Z.div_mul by lia. }
  rewrite !u64_small by lia. set (ad := last_addr c) in *. set (ls := line_size c) in *.
  assert (∃ n, S (Z.to_nat ((ad + sz - ad) / ls + 1)) = S (S n)) as [n ->].
  { pose proof (Z.div_pos (ad + sz - ad) ls ltac:(lia) ltac:(lia)).
    exists (Z.to_nat ((ad + sz - ad) / ls)). lia. }
  pose proof (wf_last _ Hw1) as Hlast. destruct (line_at c1 (last_line c1) Hw1 Hlast) as [l Hl].
  destruct (update_dirty_bit_ok c1 (last_line c1) l w) as (l' & Hdirty & Htag & _); [done | lia | done |].
  assert (ref_line random (cachesim_ref_depth random depth) (c1, ps, rng) ad w
          = Ok (set_lines (<[Z.to_nat (last_line c1) := l']> (lines c1)) c1, ps, rng, last_line c1))
    as Hline.
  { unfold ref_line. rewrite Hla. change (last_addr c) with ad. by rewrite Z.eqb_refl, Hdirty. }
  cbn [line_loop]. tests [(ad <? ad + sz, true)]. rewrite Hline. cbn [mbind outcome_bind fst snd].
  change (line_size (set_lines _ c1)) with (line_size c1). rewrite Hgl. fold ls.
  rewrite u64_small by lia. cbn [line_loop]. tests [(ad + ls <? ad + sz, false)].
  cbn [mbind outcome_bind]. eexists. split; [done|]. split; [exact Hm1|].
  intros (k & lk & Hk & Hlk & Htk). unfold resident, first_line, cachesim_get_tag in *. simpl in *.
  rewrite Hgl, Hgs, Hga, Hgt in *. fold ls in Hlk.
  destruct (decide (Z.to_nat ((ad / ls) mod sets c * assoc c + k) = Z.to_nat (last_line c1))) as [He|Hne].
  - rewrite He in Hlk. rewrite list_lookup_insert_eq in Hlk by by apply lookup_lt_Some in Hl.
    simplify_eq. exists k, l. split_and!; try done; [lia | lia | by rewrite He, <- Hl1 | by rewrite <- Htag].
  - rewrite list_lookup_insert_ne in Hlk by done. exists k, lk.
    split_and!; try done; [lia | lia | by rewrite <- Hl1].
Qed.

(** After any reference, a reference to the line that follows the last one
    referenced is taken for a hit: no miss is counted, no parent is asked and
    the line is not loaded. The code compares the address with [last_addr],
    which it leaves one line past the line whose index it keeps in [last_line]. *)
Theorem sequential_miss_not_counted c ps rng addr sz w w' :
  0 ≤ addr → 0 < sz ≤ line_size c → addr + sz + 2 ^ 33 ≤ limit ps →
  enough (c :: ps) sz 2 → unlocked ps →
  ∃ c1 ps1 rng1 c2, cachesim_ref random (c :: ps) rng addr sz w = Ok (c1 :: ps1, rng1)
    ∧ last_addr c1 = ((addr + sz - 1) / line_size c + 1) * line_size c
    ∧ cachesim_ref random (c1 :: ps1) rng1 (last_addr c1) sz w' = Ok (c2 :: ps1, rng1)
    ∧ misses (stats c2) = misses (stats c1)
    ∧ (resident c2 (last_addr c1) → resident c1 (last_addr c1)).
Proof.
  intros Ha Hsz Hl He Hu. pose proof He as (Hw & Ht & _).
  destruct (wf_line_size _ Hw) as (a & Hab & Hls & _).
  pose proof (Z.pow_le_mono_r 2 a 31 ltac:(lia) ltac:(lia)).
  unfold cachesim_ref. cbn [length].
  destruct (ref_depth_ok random Hrandom (length ps) c ps rng addr sz w 1)
    as (c1 & ps1 & rng1 & -> & He1 & Hu1 & Hlen & [Hw1 Hls1 Hm Hla [q Hq]]); try done; try lia.
  { by apply parents_spec. }
  assert (limit ps ≤ 2 ^ 63) by (unfold limit; lia). destruct He1 as (_ & Ht1 & _).
  destruct (ref_at_last (length ps1) c1 ps1 rng1 sz w') as (c2 & Hr & Hm2 & Hres); try done; try lia.
  { rewrite Hls1. by exists q. }
  exists c1, ps1, rng1, c2. split_and!; try done. rewrite Hq. f_equal.
  rewrite Hq in Hla. assert (q - 1 = (addr + sz - 1) / line_size c); [|lia].
  apply (Z.div_unique _ _ _ (addr + sz - 1 - line_size c * (q - 1))); nia.
Qed.
End reference.

(** ** Instances *)

(** A direct-mapped cache of four 16-byte lines and its two-way parent. *)
Definition l1_cache : cachesim_model_t :=
  fresh_cache (MkCache 0 0 0 0 REPLACE_LRU 0 0 0 0 0 0 0 false (Stats [] [] []) []) 64 4 2 2 1 REPLACE_LRU.
Definition l2_cache : cachesim_model_t :=
  fresh_cache (MkCache 0 0 0 0 REPLACE_LRU 0 0 0 0 0 0 0 false (Stats [] [] []) []) 256 5 2 3 2 REPLACE_LRU.

Lemma l1_wf : wf l1_cache.
Proof. apply fresh_cache_wf; try done. by right. Qed.
Lemma l2_wf : wf l2_cache.
Proof. apply fresh_cache_wf; try done. by right. Qed.

Lemma two_levels k : 0 ≤ k ≤ 1000 → enough [l1_cache; l2_cache] 8 k.
Proof.
  intros Hk. split; [apply l1_wf|]. change (total l1_cache) with 0. change (line_size l1_cache) with 16.
  change (8 / 16) with 0. unfold UINT64_MAX. split; [lia|].
  split; [apply l2_wf|]. change (total l2_cache) with 0. split; [unfold UINT64_MAX; lia | done].
Qed.

Definition no_random (n : nat) : Z := 0.

Lemma cachesim_model_init_spec_witness :
  ∃ c', cachesim_model_init l1_cache 4096 64 4 4 REPLACE_LRU true = Ok (0, c') ∧ wf c'.
Proof.
  destruct (cachesim_model_init_spec l1_cache 4096 64 4 4 REPLACE_LRU) as [H _];
    try lia; [by right | done |].
  destruct H as (c' & Hi & Hw & _); [|by exists c'].
  split_and!; [by exists 6 | right; by exists 2 | by exists 4].
Defined.

Lemma cachesim_ref_safe_witness :
  ∃ c' ps' rng', cachesim_ref no_random [l1_cache; l2_cache] 0%nat 1000 8 true = Ok (c' :: ps', rng')
    ∧ Forall wf (c' :: ps').
Proof.
  destruct (cachesim_ref_safe no_random ltac:(done) l1_cache [l2_cache] 0 1000 8 true)
    as (c' & ps' & rng' & Hr & Hw & _); try lia; [vm_compute; done | by apply two_levels | by repeat constructor |].
  exists c', ps', rng'. split; [exact Hr | exact Hw].
Defined.

Lemma ref_line_spec_witness :
  ∃ c' ps' rng' line,
    ref_line no_random (cachesim_ref_depth no_random 1) (l1_cache, [l2_cache], 0%nat) 1008 false
    = Ok (c', ps', rng', line) ∧ resident c' 1008.
Proof.
  destruct (ref_line_spec no_random ltac:(done) l1_cache [l2_cache] 0 1008 false)
    as (c' & ps' & rng' & line & Hr & _ & _ & _ & Hres & _);
    [apply l1_wf | lia | vm_compute; done | | by repeat constructor |].
  { split; [apply l2_wf|]. split; [vm_compute; done | done]. }
  exists c', ps', rng', line. split; [exact Hr|]. by apply Hres.
Defined.

Lemma add_references_blocks_witness :
  ∃ c', add_references l1_cache 1002 8 false = Ok c' ∧ references (stats c') = [3; 0].
Proof.
  destruct (add_references_blocks l1_cache 1002 8 false) as (c' & Hc & Hr & _);
    [apply l1_wf | lia | lia | vm_compute; done | vm_compute; done |].
  exists c'. split; [exact Hc|]. rewrite Hr. reflexivity.
Defined.

Lemma sequential_miss_not_counted_witness :
  ∃ c1 ps1 rng1 c2,
    cachesim_ref no_random [l1_cache; l2_cache] 0%nat 1000 8 false = Ok (c1 :: ps1, rng1)
    ∧ last_addr c1 = 1008
    ∧ cachesim_ref no_random (c1 :: ps1) rng1 1008 8 false = Ok (c2 :: ps1, rng1)
    ∧ misses (stats c2) = misses (stats c1).
Proof.
  destruct (sequential_miss_not_counted no_random ltac:(done) l1_cache [l2_cache] 0 1000 8 false false)
    as (c1 & ps1 & rng1 & c2 & H1 & Hl & H2 & Hm & _);
    try lia; [vm_compute; done | vm_compute; done | by apply two_levels | by repeat constructor |].
  exists c1, ps1, rng1, c2. change (((1000 + 8 - 1) / line_size l1_cache + 1) * line_size l1_cache)
    with 1008 in Hl. rewrite Hl in H2. by split_and!.
Defined.

(** A sequence of one-byte references of one cache. *)
Fixpoint ref_sequence (c : cachesim_model_t) (l : list Z) : outcome cachesim_model_t :=
  match l with
  | [] => Ok c
  | a :: l =>
      x ← cachesim_ref no_random [c] 0%nat a 1 false;
      match fst x with [] => Err NullPointer | c :: _ => ref_sequence c l end
  end.

(** The tags of the first set, without the dirty bits. *)
Definition set_tags (c : cachesim_model_t) : list Z :=
  (λ l, tag l / 2) <$> take (Z.to_nat (assoc c)) (lines c).

(** The least recently used line is not what the LRU policy evicts: after
    references to the lines with tags 1, 2 and 1 of one set of a two-way cache,
    a reference to tag 3 evicts tag 1, the most recently used. A line that was
    loaded is not moved to the first position, and a hit in the first position
    does not refresh the time stamp, which the comment takes to be the highest. *)
Theorem lru_evicts_most_recently_used :
  set_tags <$> ref_sequence l2_cache [0x80; 0x100; 0x80] = Ok [1; 2]
  ∧ set_tags <$> ref_sequence l2_cache [0x80; 0x100; 0x80; 0x180] = Ok [3; 2].
Proof. vm_compute. split; reflexivity. Qed.
End Cachesim.
