(* ===== verification/VectorClock.v ===== *)
(** * Vector clocks, threads and locks of the race detectors
      (plugins/datarace/detectors)

    The two detectors, djit.c and fasttrack.c, share these operations: vector
    clocks of [VC_INITIAL_SZ] entries, threads and locks with a clock each, and
    the synchronisation events. The file gives the order theory of the clocks
    and the invariant of the clocks of all threads and locks. *)
From S2P Require Import Prelude.

Module VectorClock.

Definition VC_INITIAL_SZ : Z := 8.

Record vector_clock_t := MkClock { clocks : list Z; size : Z; lock : bool }.

Definition set_clocks (l : list Z) (vc : vector_clock_t) : vector_clock_t :=
  MkClock l (size vc) (lock vc).

(** The section of a function between [pthread_mutex_lock] and
    [pthread_mutex_unlock] of the clock, which it enters only if the mutex is
    free; an assertion that fails inside ends the program. *)
Definition with_lock {A} (vc : vector_clock_t) (body : outcome A) : outcome A :=
  if lock vc then Err Hang else body.

(** [calloc] is taken to succeed, as the callers do. *)
Definition vector_clock_init (size : Z) : vector_clock_t :=
  MkClock (replicate (Z.to_nat size) 0) size false.

Definition vector_clock_get (vc : vector_clock_t) (idx : Z) : outcome Z :=
  if (0 <=? idx) && (idx <? size vc) then aget (clocks vc) idx else Ok (-1).

(** [++x] of an int. *)
Definition int_incr (x : Z) : outcome Z :=
  if x =? INT_MAX then Err SignedOverflow else Ok (x + 1).

Definition vector_clock_increment (vc : vector_clock_t) (idx : Z) : outcome vector_clock_t :=
  with_lock vc
    (c_assert (0 <=? idx) ;; c_assert (idx <? size vc) ;;
     x ← aget (clocks vc) idx; x ← int_incr x;
     l ← aset (clocks vc) idx x; Ok (set_clocks l vc)).

(** fasttrack.c checks the index, djit.c does not. *)
Definition vector_clock_set_checked (vc : vector_clock_t) (idx clock : Z) : outcome vector_clock_t :=
  with_lock vc
    (c_assert (0 <=? idx) ;; c_assert (idx <? size vc) ;;
     l ← aset (clocks vc) idx clock; Ok (set_clocks l vc)).
Definition vector_clock_set (vc : vector_clock_t) (idx clock : Z) : outcome vector_clock_t :=
  with_lock vc (l ← aset (clocks vc) idx clock; Ok (set_clocks l vc)).

Definition vector_clock_update (vc other_vc : vector_clock_t) : outcome vector_clock_t :=
  with_lock vc
    (l ← c_for (Z.to_nat (size other_vc)) 0
           (λ i l, x ← aget l i; y ← aget (clocks other_vc) i;
                   if x <? y then aset l i y else Ok l) (clocks vc);
     Ok (set_clocks l vc)).

Fixpoint happens_before_loop (n : nat) (i : Z) (l other : list Z) : outcome bool :=
  match n with
  | O => Ok true
  | S n =>
      x ← aget l i; y ← aget other i;
      if y <? x then Ok false else happens_before_loop n (i + 1) l other
  end.

Definition vector_clock_happens_before (vc other_vc : vector_clock_t) : outcome bool :=
  with_lock vc (with_lock other_vc
    (let min_size := if size vc <? size other_vc then size vc else size other_vc in
     happens_before_loop (Z.to_nat min_size) 0 (clocks vc) (clocks other_vc))).

(** ** Threads *)

Record thread_t := MkThread { idx : Z; vc : vector_clock_t }.

Definition thread_init (thread_idx : Z) : outcome thread_t :=
  v ← vector_clock_increment (vector_clock_init VC_INITIAL_SZ) thread_idx;
  Ok (MkThread thread_idx v).

Definition thread_get_clock (t : thread_t) : outcome Z := vector_clock_get (vc t) (idx t).

Definition thread_increment (t : thread_t) : outcome thread_t :=
  v ← vector_clock_increment (vc t) (idx t); Ok (MkThread (idx t) v).

Definition thread_update_vc (t : thread_t) (other_clock : vector_clock_t) : outcome thread_t :=
  v ← vector_clock_update (vc t) other_clock; Ok (MkThread (idx t) v).

(** The pairs are the two threads (or the lock and the thread) afterwards. *)
Definition thread_fork (parent_thread child_thread : thread_t) : outcome (thread_t * thread_t) :=
  child_thread ← thread_update_vc child_thread (vc parent_thread);
  parent_thread ← thread_increment parent_thread;
  Ok (parent_thread, child_thread).

Definition thread_join (parent_thread child_thread : thread_t) : outcome (thread_t * thread_t) :=
  parent_thread ← thread_update_vc parent_thread (vc child_thread);
  child_thread ← thread_increment child_thread;
  Ok (parent_thread, child_thread).

(** ** Locks: [lock_t] has a clock only. *)

Definition lock_init : vector_clock_t := vector_clock_init VC_INITIAL_SZ.

Definition lock_acquire (l : vector_clock_t) (t : thread_t) : outcome thread_t :=
  thread_update_vc t l.

Definition lock_release (l : vector_clock_t) (t : thread_t) : outcome (vector_clock_t * thread_t) :=
  l ← vector_clock_update l (vc t);
  t ← thread_increment t;
  Ok (l, t).

(** ** The order of clocks *)

(** A clock as the functions above keep it. *)
Record vc_ok (v : vector_clock_t) : Prop := {
  ok_size : size v = VC_INITIAL_SZ;
  ok_length : length (clocks v) = 8%nat;
  ok_lock : lock v = false;
  ok_nonneg : Forall (λ x, 0 ≤ x) (clocks v)
}.

(** The entry of a thread, and the pointwise order. *)
Definition at_ (v : vector_clock_t) (i : Z) : Z := clocks v !!! Z.to_nat i.
Definition vle (v w : vector_clock_t) : Prop := ∀ i, 0 ≤ i < VC_INITIAL_SZ → at_ v i ≤ at_ w i.

#[global] Instance vle_preorder : PreOrder vle.
Proof. split; [by intros v i|]. intros u v w H1 H2 i Hi. specialize (H1 i Hi). specialize (H2 i Hi). lia. Qed.

Lemma at_lookup v i : vc_ok v → 0 ≤ i < VC_INITIAL_SZ → clocks v !! Z.to_nat i = Some (at_ v i).
Proof.
  intros Hv Hi. unfold at_. apply lookup_total_lookup_lt. rewrite (ok_length _ Hv).
  unfold VC_INITIAL_SZ in Hi. lia.
Qed.

Lemma at_nonneg v i : vc_ok v → 0 ≤ i < VC_INITIAL_SZ → 0 ≤ at_ v i.
Proof. intros Hv Hi. apply (Forall_lookup_1 _ _ _ _ (ok_nonneg _ Hv) (at_lookup v i Hv Hi)). Qed.

Lemma init_ok : vc_ok (vector_clock_init VC_INITIAL_SZ).
Proof. constructor; try done. apply Forall_replicate. lia. Qed.

Lemma at_init i : 0 ≤ i < VC_INITIAL_SZ → at_ (vector_clock_init VC_INITIAL_SZ) i = 0.
Proof.
  intros Hi. unfold at_, vector_clock_init. cbn [clocks]. apply lookup_total_replicate_2.
  unfold VC_INITIAL_SZ in *. lia.
Qed.

Lemma get_ok v i : vc_ok v → 0 ≤ i < VC_INITIAL_SZ → vector_clock_get v i = Ok (at_ v i).
Proof.
  intros Hv Hi. unfold vector_clock_get. rewrite (ok_size _ Hv).
  tests [(0 <=? i, true); (i <? VC_INITIAL_SZ, true)].
  apply aget_lookup; [lia | by apply at_lookup].
Qed.

(** Writing one entry. *)
Definition put (v : vector_clock_t) (i x : Z) : vector_clock_t :=
  set_clocks (<[Z.to_nat i := x]> (clocks v)) v.

Lemma put_ok v i x : vc_ok v → 0 ≤ x → vc_ok (put v i x).
Proof.
  intros [] Hx. constructor; simpl; try done; [by rewrite length_insert|].
  by apply Forall_insert.
Qed.

Lemma at_put v i j x :
  vc_ok v → 0 ≤ i < VC_INITIAL_SZ → 0 ≤ j < VC_INITIAL_SZ →
  at_ (put v i x) j = if decide (i = j) then x else at_ v j.
Proof.
  intros Hv Hi Hj. unfold at_, put. simpl. unfold VC_INITIAL_SZ in *.
  case_decide as Heq; [subst|].
  - apply list_lookup_total_insert_eq. rewrite (ok_length _ Hv). lia.
  - apply list_lookup_total_insert_ne. lia.
Qed.

Lemma set_ok v i x :
  vc_ok v → 0 ≤ i < VC_INITIAL_SZ → vector_clock_set v i x = Ok (put v i x).
Proof.
  intros Hv Hi. unfold vector_clock_set, with_lock. rewrite (ok_lock _ Hv).
  rewrite (proj2 (aset_ok _ (<[Z.to_nat i := x]> (clocks v)) _ _)); [done|].
  rewrite (ok_length _ Hv). unfold VC_INITIAL_SZ in Hi. split; [lia | done].
Qed.

Lemma set_checked_ok v i x :
  vc_ok v → 0 ≤ i < VC_INITIAL_SZ → vector_clock_set_checked v i x = Ok (put v i x).
Proof.
  intros Hv Hi. rewrite <- (set_ok v i x) by done.
  unfold vector_clock_set_checked, vector_clock_set. rewrite (ok_size _ Hv).
  by tests [(0 <=? i, true); (i <? VC_INITIAL_SZ, true)].
Qed.

Lemma increment_ok v i :
  vc_ok v → 0 ≤ i < VC_INITIAL_SZ →
  vector_clock_increment v i = (if at_ v i =? INT_MAX then Err SignedOverflow
                                else Ok (put v i (at_ v i + 1))).
Proof.
  intros Hv Hi. unfold vector_clock_increment, with_lock. rewrite (ok_lock _ Hv), (ok_size _ Hv).
  tests [(0 <=? i, true); (i <? VC_INITIAL_SZ, true)]. cbn [c_assert].
  change (Ok () ;; Ok () ;; ?m) with m.
  rewrite (aget_lookup _ i (at_ v i)) by (lia || by apply at_lookup). cbn [mbind outcome_bind].
  unfold int_incr. destruct (at_ v i =? INT_MAX); [done|]. cbn [mbind outcome_bind].
  rewrite (proj2 (aset_ok _ (<[Z.to_nat i := at_ v i + 1]> (clocks v)) _ _)); [done|].
  rewrite (ok_length _ Hv). unfold VC_INITIAL_SZ in Hi. split; [lia | done].
Qed.

(** [vector_clock_update] computes the least upper bound. *)
Definition is_join (v w u : vector_clock_t) : Prop :=
  ∀ i, 0 ≤ i < VC_INITIAL_SZ → at_ u i = Z.max (at_ v i) (at_ w i).

Lemma update_ok v w :
  vc_ok v → vc_ok w → ∃ u, vector_clock_update v w = Ok u ∧ vc_ok u ∧ is_join v w u.
Proof.
  intros Hv Hw. unfold vector_clock_update, with_lock. rewrite (ok_lock _ Hv), (ok_size _ Hw).
  destruct (c_for_inv (λ j l, length l = 8%nat ∧ ∀ i, 0 ≤ i < VC_INITIAL_SZ →
              l !! Z.to_nat i = Some (if decide (i < j) then Z.max (at_ v i) (at_ w i) else at_ v i))
              (Z.to_nat VC_INITIAL_SZ) 0
              (λ i l, x ← aget l i; y ← aget (clocks w) i; if x <? y then aset l i y else Ok l)
              (clocks v)) as (l & -> & Hlen & Hl).
  - split; [apply (ok_length _ Hv)|]. intros i Hi. rewrite decide_False by lia. by apply at_lookup.
  - intros j l Hj (Hlen & Hl). unfold VC_INITIAL_SZ in *.
    pose proof (Hl j ltac:(lia)) as Hlj. rewrite decide_False in Hlj by lia.
    rewrite (aget_lookup l j (at_ v j)) by (lia || done). cbn [mbind outcome_bind].
    rewrite (aget_lookup _ j (at_ w j)) by (lia || apply at_lookup; unfold VC_INITIAL_SZ; done || lia).
    cbn [mbind outcome_bind]. destruct (Z.ltb_spec (at_ v j) (at_ w j)).
    + exists (<[Z.to_nat j := at_ w j]> l). split; [apply aset_ok; split; [lia | done]|].
      split; [by rewrite length_insert|]. intros i Hi. destruct (decide (i = j)) as [->|].
      * rewrite decide_True by lia. rewrite list_lookup_insert_eq by lia. f_equal. lia.
      * rewrite list_lookup_insert_ne by lia. rewrite Hl by done. f_equal.
        by do 2 case_decide; try lia.
    + exists l. split; [done|]. split; [done|]. intros i Hi. rewrite Hl by done. f_equal.
      destruct (decide (i = j)) as [->|]; do 2 case_decide; lia.
  - cbn [mbind outcome_bind]. exists (set_clocks l v). split; [done|].
    assert (∀ i, 0 ≤ i < VC_INITIAL_SZ → at_ (set_clocks l v) i = Z.max (at_ v i) (at_ w i)) as Hat.
    { intros i Hi. unfold at_ at 1. simpl. apply list_lookup_total_correct.
      rewrite Hl by done. rewrite decide_True; [done|]. unfold VC_INITIAL_SZ in *. lia. }
    split; [|done]. destruct Hv as [? ? ? Hnn]. constructor; try done.
    apply Forall_lookup_2. intros i x Hi. pose proof (lookup_lt_Some _ _ _ Hi). simpl in *.
    specialize (Hl (Z.of_nat i)). rewrite Nat2Z.id, Hi in Hl.
    unfold VC_INITIAL_SZ in *. specialize (Hl ltac:(lia)). rewrite decide_True in Hl by lia.
    injection Hl as ->. pose proof (at_nonneg w (Z.of_nat i) Hw). unfold VC_INITIAL_SZ in *. lia.
Qed.

Lemma hb_loop_ok v w n : ∀ i,
  vc_ok v → vc_ok w → 0 ≤ i → i + Z.of_nat n = VC_INITIAL_SZ →
  ∃ b, happens_before_loop n i (clocks v) (clocks w) = Ok b
    ∧ (b = true ↔ ∀ j, i ≤ j < VC_INITIAL_SZ → at_ v j ≤ at_ w j).
Proof.
  induction n as [|n IH]; intros i Hv Hw Hi Hn.
  - exists true. split; [done|]. split; [|done]. intros _ j Hj. lia.
  - cbn [happens_before_loop].
    rewrite (aget_lookup (clocks v) i (at_ v i)) by (lia || apply at_lookup; done || lia).
    rewrite (aget_lookup (clocks w) i (at_ w i)) by (lia || apply at_lookup; done || lia).
    cbn [mbind outcome_bind]. destruct (Z.ltb_spec (at_ w i) (at_ v i)).
    + exists false. split; [done|]. split; [done|]. intros Hall. specialize (Hall i ltac:(lia)). lia.
    + destruct (IH (i + 1)) as (b & -> & Hb); [done | done | lia | lia |]. exists b. split; [done|].
      rewrite Hb. split; intros Hall j Hj; [|apply Hall; lia].
      destruct (decide (j = i)) as [->|]; [done | apply Hall; lia].
Qed.

Lemma happens_before_ok v w :
  vc_ok v → vc_ok w →
  ∃ b, vector_clock_happens_before v w = Ok b ∧ (b = true ↔ vle v w).
Proof.
  intros Hv Hw. unfold vector_clock_happens_before, with_lock.
  rewrite (ok_lock _ Hv), (ok_lock _ Hw), (ok_size _ Hv), (ok_size _ Hw). cbn [Z.ltb].
  by apply (hb_loop_ok v w 8 0).
Qed.

Lemma join_upper v w u : is_join v w u → vle v u ∧ vle w u.
Proof. intros Hj. split; intros i Hi; rewrite Hj by done; lia. Qed.

(** The clocks form a join semilattice under the functions: on clocks of
    the supported size [vector_clock_update] returns the least upper bound of
    the two clocks, [vector_clock_happens_before] decides the pointwise order,
    and no access is out of bounds. *)
Theorem vector_clock_semilattice v w :
  vc_ok v → vc_ok w →
  ∃ u b, vector_clock_update v w = Ok u ∧ vc_ok u
    ∧ (∀ x, vle u x ↔ vle v x ∧ vle w x)
    ∧ vector_clock_happens_before v w = Ok b ∧ (b = true ↔ vle v w).
Proof.
  intros Hv Hw. destruct (update_ok v w Hv Hw) as (u & Hu & Hok & Hj).
  destruct (happens_before_ok v w Hv Hw) as (b & Hb & Hiff).
  exists u, b. split_and!; try done. intros x. split.
  - intros Hx. destruct (join_upper _ _ _ Hj). split; by etrans.
  - intros [H1 H2] i Hi. rewrite Hj by done. specialize (H1 i Hi). specialize (H2 i Hi). lia.
Qed.

Lemma vector_clock_semilattice_witness :
  ∃ u, vector_clock_update (put (vector_clock_init 8) 1 5) (put (vector_clock_init 8) 2 7) = Ok u
    ∧ vle (put (vector_clock_init 8) 2 7) u.
Proof.
  destruct (vector_clock_semilattice (put (vector_clock_init 8) 1 5) (put (vector_clock_init 8) 2 7))
    as (u & b & Hu & _ & Hx & _); [apply put_ok; [apply init_ok | lia]..|].
  exists u. split; [exact Hu|]. by apply (Hx u).
Defined.
End VectorClock.
