(* ===== verification/Detectors.v ===== *)
(** * The DJIT+ and FastTrack detectors (plugins/datarace/detectors)

    Two implementations of the same interface: DJIT+ keeps a vector clock of
    the reads and one of the writes of every variable; FastTrack keeps the last
    write and, while reads are ordered, the last read as an epoch. *)
From S2P Require Import Prelude VectorClock.
Import VectorClock.

(** What the plugin (datarace.c) needs of a detector: how a variable starts
    and whether an access is free of races, with the state afterwards. *)
Class Detector (V : Type) := {
  d_variable_init : outcome V;
  d_update_read : V → thread_t → outcome (bool * V);
  d_update_write : V → thread_t → outcome (bool * V)
}.

Module Djit.

Record variable_t := MkVar { rx : vector_clock_t; wx : vector_clock_t }.

Definition variable_init : variable_t :=
  MkVar (vector_clock_init VC_INITIAL_SZ) (vector_clock_init VC_INITIAL_SZ).

Definition variable_read_is_race_free (v : variable_t) (thread_clock : vector_clock_t) : outcome bool :=
  vector_clock_happens_before (wx v) thread_clock.

Definition variable_write_is_race_free (v : variable_t) (thread_clock : vector_clock_t) : outcome bool :=
  b ← vector_clock_happens_before (wx v) thread_clock;
  if b : bool then vector_clock_happens_before (rx v) thread_clock else Ok false.

Definition variable_update_read (v : variable_t) (t : thread_t) : outcome (bool * variable_t) :=
  b ← variable_read_is_race_free v (vc t);
  if b : bool then
    c ← thread_get_clock t;
    r ← vector_clock_set (rx v) (idx t) c;
    Ok (true, MkVar r (wx v))
  else Ok (false, v).

Definition variable_update_write (v : variable_t) (t : thread_t) : outcome (bool * variable_t) :=
  b ← variable_write_is_race_free v (vc t);
  if b : bool then
    c ← thread_get_clock t;
    w ← vector_clock_set (wx v) (idx t) c;
    Ok (true, MkVar (rx v) w)
  else Ok (false, v).

#[global] Instance djit_detector : Detector variable_t := {
  d_variable_init := Ok variable_init;
  d_update_read := variable_update_read;
  d_update_write := variable_update_write
}.
End Djit.

Module FastTrack.

Record epoch_t := MkEpoch { clock : Z; thread_idx : Z }.

Definition epoch_init : epoch_t := MkEpoch 0 0.
Definition epoch_set (thread_id clock : Z) : epoch_t := MkEpoch clock thread_id.

(** The result is the int the function returns; any value but 0 is true. *)
Definition epoch_happens_before_vc (e : epoch_t) (v : vector_clock_t) : outcome Z :=
  if size v <=? u64 (thread_idx e) then Ok (-1)
  else c ← vector_clock_get v (thread_idx e); Ok (if clock e <=? c then 1 else 0).

(** [is_shared] is [None] while it is not initialised. *)
Record variable_t := MkVar {
  rx_vc : vector_clock_t;
  rx_epoch : epoch_t;
  wx_epoch : epoch_t;
  is_shared : option bool
}.

(** [variable_init] does not set [is_shared]: it has the value found in the
    allocated memory, [mem]. *)
Definition variable_init (mem : option bool) : variable_t :=
  MkVar (vector_clock_init VC_INITIAL_SZ) epoch_init epoch_init mem.

Definition get_shared (v : variable_t) : outcome bool :=
  match is_shared v with Some b => Ok b | None => Err Uninitialised end.

(** [e->thread_idx == t->idx && e->clock == thread_get_clock(t)]. *)
Definition same_epoch (e : epoch_t) (t : thread_t) : outcome bool :=
  if thread_idx e =? idx t then c ← thread_get_clock t; Ok (clock e =? c) else Ok false.

Definition variable_update_read (v : variable_t) (t : thread_t) : outcome (bool * variable_t) :=
  same ← same_epoch (rx_epoch v) t;
  if same : bool then Ok (true, v)
  else
    shared ← get_shared v;
    same_shared ← (if shared : bool then
                     x ← vector_clock_get (rx_vc v) (idx t); c ← thread_get_clock t; Ok (x =? c)
                   else Ok false);
    if same_shared : bool then Ok (true, v)
    else
      w ← epoch_happens_before_vc (wx_epoch v) (vc t);
      if w =? 0 then Ok (false, v)
      else
        c ← thread_get_clock t;
        if shared : bool then
          rv ← vector_clock_set_checked (rx_vc v) (idx t) c;
          Ok (true, MkVar rv (rx_epoch v) (wx_epoch v) (is_shared v))
        else
          r ← epoch_happens_before_vc (rx_epoch v) (vc t);
          if negb (r =? 0) then
            Ok (true, MkVar (rx_vc v) (epoch_set (idx t) c) (wx_epoch v) (is_shared v))
          else
            rv ← vector_clock_set_checked (rx_vc v) (thread_idx (rx_epoch v)) (clock (rx_epoch v));
            rv ← vector_clock_set_checked rv (idx t) c;
            Ok (true, MkVar rv (rx_epoch v) (wx_epoch v) (Some true)).

Definition variable_update_write (v : variable_t) (t : thread_t) : outcome (bool * variable_t) :=
  same ← same_epoch (wx_epoch v) t;
  if same : bool then Ok (true, v)
  else
    w ← epoch_happens_before_vc (wx_epoch v) (vc t);
    if w =? 0 then Ok (false, v)
    else
      shared ← get_shared v;
      r ← (if negb shared then
             r ← epoch_happens_before_vc (rx_epoch v) (vc t); Ok (negb (r =? 0))
           else vector_clock_happens_before (rx_vc v) (vc t));
      if r : bool then
        c ← thread_get_clock t;
        Ok (true, MkVar (rx_vc v) (rx_epoch v) (epoch_set (idx t) c) (is_shared v))
      else Ok (false, v).

(** The detector, for the memory that [malloc] returns. *)
Definition fasttrack_detector (mem : option bool) : Detector variable_t := {|
  d_variable_init := Ok (variable_init mem);
  d_update_read := variable_update_read;
  d_update_write := variable_update_write
|}.
End FastTrack.
