(* ===== verification/RaceInvariant.v ===== *)
(** * Why FastTrack and DJIT+ agree

    The invariant of the clocks of all threads and locks, which the
    synchronisation events keep, and the relation between the states that the
    two detectors have for one variable. As long as no race was reported, both
    detectors give the same answer to every access and stay related. *)
From S2P Require Import Prelude VectorClock Detectors.
Import VectorClock.

Module RaceInvariant.

(** The threads, in the order of their indices, and the clocks of the locks. *)
Record clocks_state := MkClocks { ts : list thread_t; ls : list vector_clock_t }.

Definition all_clocks (S : clocks_state) : list vector_clock_t := (vc <$> ts S) ++ ls S.

Definition nthreads (S : clocks_state) : Z := Z.of_nat (length (ts S)).

(** The clock of thread [i] for itself, 0 for threads that do not exist yet. *)
Definition cur (S : clocks_state) (i : Z) : Z :=
  match ts S !! Z.to_nat i with Some t => at_ (vc t) i | None => 0 end.

(** Nobody else is as far as a thread is for itself: a thread increments its
    entry whenever it publishes its clock. *)
Record sysinv (S : clocks_state) : Prop := {
  si_ok : ∀ X, X ∈ all_clocks S → vc_ok X;
  si_bound : nthreads S ≤ VC_INITIAL_SZ;
  si_idx : ∀ i t, ts S !! i = Some t → idx t = Z.of_nat i;
  si_pos : ∀ i t, ts S !! i = Some t → 1 ≤ at_ (vc t) (Z.of_nat i);
  si_other : ∀ i j t u, i ≠ j → ts S !! i = Some t → ts S !! j = Some u →
    at_ (vc u) (Z.of_nat i) < at_ (vc t) (Z.of_nat i);
  si_lock : ∀ i t L, ts S !! i = Some t → L ∈ ls S → at_ L (Z.of_nat i) < at_ (vc t) (Z.of_nat i);
  si_new : ∀ X i, X ∈ all_clocks S → nthreads S ≤ i < VC_INITIAL_SZ → at_ X i = 0
}.

Lemma thread_in S i t : ts S !! i = Some t → vc t ∈ all_clocks S.
Proof. intros Hi. apply elem_of_app. left. apply list_elem_of_fmap. exists t. split; [done|]. by eapply list_elem_of_lookup_2. Qed.

Lemma lock_in S L : L ∈ ls S → L ∈ all_clocks S.
Proof. intros. apply elem_of_app. by right. Qed.

Lemma in_all S X : X ∈ all_clocks S → (∃ i t, ts S !! i = Some t ∧ X = vc t) ∨ X ∈ ls S.
Proof.
  intros [Hx|Hx]%elem_of_app; [left | by right].
  apply list_elem_of_fmap in Hx as (t & -> & Ht). apply list_elem_of_lookup_1 in Ht as [i Hi]. eauto.
Qed.

Lemma thread_idx_range S i t : sysinv S → ts S !! i = Some t → 0 ≤ Z.of_nat i < VC_INITIAL_SZ.
Proof. intros HS Hi. pose proof (lookup_lt_Some _ _ _ Hi). pose proof (si_bound _ HS). unfold nthreads in *. lia. Qed.

Lemma cur_thread S i t : ts S !! i = Some t → cur S (Z.of_nat i) = at_ (vc t) (Z.of_nat i).
Proof. intros Hi. unfold cur. by rewrite Nat2Z.id, Hi. Qed.

(** Only a thread itself reaches its own clock. *)
Lemma own_clock S i t X :
  sysinv S → ts S !! i = Some t → X ∈ all_clocks S → at_ (vc t) (Z.of_nat i) ≤ at_ X (Z.of_nat i) →
  X = vc t.
Proof.
  intros HS Hi HX Hle. destruct (in_all _ _ HX) as [(j & u & Hj & ->)|HL].
  - destruct (decide (i = j)) as [->|Hne]; [by simplify_eq|].
    pose proof (si_other _ HS i j t u Hne Hi Hj). lia.
  - pose proof (si_lock _ HS i t X Hi HL). lia.
Qed.

(** ** What a clock value tells about its thread *)

(** [K] is the clock of thread [t] when its own entry was [c]: whoever has seen
    [c] of [t] has seen [K]. *)
Definition knows (S : clocks_state) (t c : Z) (K : vector_clock_t) : Prop :=
  (∀ i, 0 ≤ i < VC_INITIAL_SZ → 0 ≤ at_ K i)
  ∧ 0 ≤ t < VC_INITIAL_SZ ∧ 0 ≤ c ≤ cur S t
  ∧ (c = 0 → ∀ i, 0 ≤ i < VC_INITIAL_SZ → at_ K i = 0)
  ∧ (∀ X, X ∈ all_clocks S → c ≤ at_ X t → vle K X).

Lemma knows_now S i t :
  sysinv S → ts S !! i = Some t → knows S (Z.of_nat i) (at_ (vc t) (Z.of_nat i)) (vc t).
Proof.
  intros HS Hi. pose proof (thread_idx_range _ _ _ HS Hi). pose proof (si_pos _ HS i t Hi).
  split_and!; try lia.
  - intros j Hj. apply at_nonneg; [|done]. by eapply si_ok, thread_in.
  - by rewrite (cur_thread _ _ t).
  - intros X HX Hle. by rewrite (own_clock S i t X).
Qed.

(** ** Evolution of the clocks *)

(** Threads only learn, and what the clocks say about the past they say because
    they took it over from another clock. *)
Record evolves (S S' : clocks_state) : Prop := {
  ev_threads : ∀ i t, ts S !! i = Some t → ∃ t', ts S' !! i = Some t' ∧ vle (vc t) (vc t');
  ev_clocks : ∀ X', X' ∈ all_clocks S' → ∀ t c, 0 ≤ t < VC_INITIAL_SZ → 1 ≤ c ≤ cur S t →
    c ≤ at_ X' t → ∃ Y, Y ∈ all_clocks S ∧ c ≤ at_ Y t ∧ vle Y X'
}.

Lemma cur_mono S S' i : evolves S S' → sysinv S' → 0 ≤ i < VC_INITIAL_SZ → cur S i ≤ cur S' i.
Proof.
  intros Hev HS' Hi. unfold cur. destruct (ts S !! Z.to_nat i) as [t|] eqn:Ht.
  - destruct (ev_threads _ _ Hev _ _ Ht) as (t' & -> & Hle). by apply Hle.
  - destruct (ts S' !! Z.to_nat i) as [t'|] eqn:Ht'; [|done].
    pose proof (si_pos _ HS' _ _ Ht') as Hp. rewrite Z2Nat.id in Hp by lia. lia.
Qed.

Lemma knows_evolves S S' t c K : evolves S S' → sysinv S' → knows S t c K → knows S' t c K.
Proof.
  intros Hev HS' (Hnn & Ht & Hc & Hz & HK). split_and!; try done; try lia.
  - pose proof (cur_mono _ _ t Hev HS' Ht). lia.
  - intros X HX Hle. destruct (decide (c = 0)) as [Hc0|].
    + intros i Hi. rewrite (Hz Hc0 i Hi). apply at_nonneg; [by apply (si_ok _ HS') | done].
    + destruct (ev_clocks _ _ Hev X HX t c) as (Y & HY & HcY & HYX); [done | lia | done |].
      etrans; [by apply (HK Y) | done].
Qed.

(** ** One variable in both detectors *)

(** The reads of a variable in FastTrack's shared state: every read DJIT+ has
    recorded is recorded, or seen by the thread of one that is. *)
Definition covered (S : clocks_state) (rx rvc : vector_clock_t) : Prop :=
  vle rvc rx ∧ ∀ j, 0 ≤ j < VC_INITIAL_SZ →
    at_ rx j ≤ at_ rvc j ∨ ∃ i K, knows S i (at_ rvc i) K ∧ at_ rx j ≤ at_ K j.

Record related (S : clocks_state) (d : Djit.variable_t) (f : FastTrack.variable_t) : Prop := {
  r_rx : vc_ok (Djit.rx d);
  r_wx : vc_ok (Djit.wx d);
  r_rvc : vc_ok (FastTrack.rx_vc f);
  r_past : ∀ i, 0 ≤ i < VC_INITIAL_SZ →
    at_ (Djit.rx d) i ≤ cur S i ∧ at_ (Djit.wx d) i ≤ cur S i;
  r_write : ∃ K, let e := FastTrack.wx_epoch f in
    knows S (FastTrack.thread_idx e) (FastTrack.clock e) K ∧ vle (Djit.wx d) K
    ∧ at_ (Djit.wx d) (FastTrack.thread_idx e) = FastTrack.clock e;
  r_read : let e := FastTrack.rx_epoch f in
    0 ≤ FastTrack.thread_idx e < VC_INITIAL_SZ ∧ 0 ≤ FastTrack.clock e
    ∧ match FastTrack.is_shared f with
      | Some true =>
          covered S (Djit.rx d) (FastTrack.rx_vc f)
          ∧ FastTrack.clock e ≤ at_ (Djit.rx d) (FastTrack.thread_idx e)
      | Some false =>
          (∀ i, 0 ≤ i < VC_INITIAL_SZ → at_ (FastTrack.rx_vc f) i = 0)
          ∧ ∃ K, knows S (FastTrack.thread_idx e) (FastTrack.clock e) K ∧ vle (Djit.rx d) K
                 ∧ at_ (Djit.rx d) (FastTrack.thread_idx e) = FastTrack.clock e
      | None => False
      end;
  r_same_read : ∀ i t, ts S !! i = Some t →
    at_ (Djit.rx d) (Z.of_nat i) = at_ (vc t) (Z.of_nat i) → vle (Djit.wx d) (vc t);
  r_same_write : ∀ i t, ts S !! i = Some t →
    at_ (Djit.wx d) (Z.of_nat i) = at_ (vc t) (Z.of_nat i) →
    vle (Djit.wx d) (vc t) ∧ vle (Djit.rx d) (vc t)
}.

(** A fresh variable, whatever value [is_shared] starts with. *)
Lemma related_init S b :
  sysinv S → related S Djit.variable_init (FastTrack.variable_init (Some b)).
Proof.
  intros HS. pose proof init_ok as Hok.
  assert (knows S 0 0 (vector_clock_init VC_INITIAL_SZ)) as Hk.
  { split_and!; try done.
    - intros i Hi. by apply at_nonneg.
    - unfold cur. destruct (ts S !! Z.to_nat 0) as [t|] eqn:Ht; [|done].
      pose proof (si_pos _ HS _ _ Ht). change (Z.of_nat (Z.to_nat 0)) with 0 in *. lia.
    - intros _ i Hi. by apply at_init.
    - intros X HX _ i Hi. rewrite at_init by done. apply at_nonneg; [by apply (si_ok _ HS) | done]. }
  assert (∀ i, 0 ≤ i < VC_INITIAL_SZ → 0 ≤ cur S i) as Hcur.
  { intros i Hi. unfold cur. destruct (ts S !! Z.to_nat i) as [t|] eqn:Ht; [|done].
    apply at_nonneg; [by eapply si_ok, thread_in | done]. }
  assert (∀ X, X ∈ all_clocks S → vle (vector_clock_init VC_INITIAL_SZ) X) as Hle.
  { intros X HX i Hi. rewrite at_init by done. apply at_nonneg; [by apply (si_ok _ HS) | done]. }
  constructor; simpl; try done.
  - intros i Hi. rewrite at_init by done. by split; apply Hcur.
  - exists (vector_clock_init VC_INITIAL_SZ). split_and!; try done.
  - split; [done|]. split; [done|]. destruct b.
    + split; [|by rewrite at_init]. split; [done|]. by left.
    + split; [intros; by apply at_init|]. exists (vector_clock_init VC_INITIAL_SZ). by split_and!.
  - intros i t Hi _. apply Hle. by eapply thread_in.
  - intros i t Hi _. split; apply Hle; by eapply thread_in.
Qed.

(** Synchronisation keeps the relation. *)
Lemma related_evolves S S' d f :
  evolves S S' → sysinv S → sysinv S' → related S d f → related S' d f.
Proof.
  intros Hev HS HS' [Hrx Hwx Hrvc Hpast Hw Hr Hsr Hsw].
  assert (∀ i t', ts S' !! i = Some t' → ∀ x, x ≤ cur S (Z.of_nat i) → x = at_ (vc t') (Z.of_nat i) →
            ∃ t, ts S !! i = Some t ∧ vle (vc t) (vc t') ∧ x = at_ (vc t) (Z.of_nat i)) as Hback.
  { intros i t' Ht' x Hx He. pose proof (si_pos _ HS' _ _ Ht') as Hp.
    pose proof (thread_idx_range _ _ _ HS' Ht').
    destruct (ts S !! i) as [t|] eqn:Ht.
    - rewrite (cur_thread _ _ t) in Hx by done.
      destruct (ev_threads _ _ Hev _ _ Ht) as (t1 & Ht1 & Hle). simplify_eq.
      exists t. split_and!; try done. specialize (Hle (Z.of_nat i) ltac:(done)). lia.
    - unfold cur in Hx. rewrite Nat2Z.id, Ht in Hx. lia. }
  constructor; try done.
  - intros i Hi. pose proof (cur_mono _ _ i Hev HS' Hi). specialize (Hpast i Hi). lia.
  - destruct Hw as (K & HK & ?). exists K. split; [by eapply knows_evolves | done].
  - destruct Hr as (? & ? & Hr). split_and!; try done; try lia.
    destruct (FastTrack.is_shared f) as [[]|]; [| |done].
    + destruct Hr as [[Hle Hcov] Hc]. split; [|done]. split; [done|]. intros j Hj.
      destruct (Hcov j Hj) as [|(i & K & HK & ?)]; [by left | right].
      exists i, K. split; [by eapply knows_evolves | done].
    + destruct Hr as [Hz (K & HK & ?)]. split; [done|]. exists K. split; [by eapply knows_evolves | done].
  - intros i t' Ht' He. pose proof (thread_idx_range _ _ _ HS' Ht').
    destruct (Hback i t' Ht' _ (proj1 (Hpast _ ltac:(done))) He) as (t & Ht & Hle & He').
    etrans; [by eapply Hsr | done].
  - intros i t' Ht' He. pose proof (thread_idx_range _ _ _ HS' Ht').
    destruct (Hback i t' Ht' _ (proj2 (Hpast _ ltac:(done))) He) as (t & Ht & Hle & He').
    destruct (Hsw i t Ht He'). split; by etrans.
Qed.

(** ** Accesses *)

Section access.
Context (S : clocks_state) (HS : sysinv S) (i : nat) (t : thread_t) (Hi : ts S !! i = Some t).

Lemma access_range : 0 ≤ Z.of_nat i < VC_INITIAL_SZ.
Proof. by eapply thread_idx_range. Qed.

Lemma access_ok : vc_ok (vc t).
Proof. by eapply si_ok, thread_in. Qed.

Lemma access_in : vc t ∈ all_clocks S.
Proof. by eapply thread_in. Qed.

Lemma get_clock_ok : thread_get_clock t = Ok (at_ (vc t) (Z.of_nat i)).
Proof.
  unfold thread_get_clock. rewrite (si_idx _ HS _ _ Hi). apply get_ok; [apply access_ok | apply access_range].
Qed.

(** An epoch that stands for everything up to it is before a clock exactly when
    the vector of all accesses is. *)
Lemma epoch_test e K v :
  knows S (FastTrack.thread_idx e) (FastTrack.clock e) K → vle v K →
  at_ v (FastTrack.thread_idx e) = FastTrack.clock e →
  ∃ n, FastTrack.epoch_happens_before_vc e (vc t) = Ok n ∧ (n ≠ 0 ↔ vle v (vc t)).
Proof.
  intros (_ & He & Hc & _ & HK) Hv Hve. unfold FastTrack.epoch_happens_before_vc.
  rewrite (ok_size _ access_ok). rewrite u64_small by (unfold VC_INITIAL_SZ in *; lia).
  tests [(VC_INITIAL_SZ <=? FastTrack.thread_idx e, false)].
  rewrite get_ok by (apply access_ok || done). cbn [mbind outcome_bind].
  eexists. split; [done|].
  destruct (Z.leb_spec (FastTrack.clock e) (at_ (vc t) (FastTrack.thread_idx e))) as [Hle|Hgt].
  - split; [intros _ | done]. etrans; [exact Hv|]. apply HK; [apply access_in | done].
  - split; [done|]. intros Hvt. specialize (Hvt _ He). lia.
Qed.

Lemma same_epoch_ok e :
  FastTrack.same_epoch e t
  = Ok (bool_decide (FastTrack.thread_idx e = Z.of_nat i
                     ∧ FastTrack.clock e = at_ (vc t) (Z.of_nat i))).
Proof.
  unfold FastTrack.same_epoch. rewrite (si_idx _ HS _ _ Hi), get_clock_ok. cbn [mbind outcome_bind].
  destruct (Z.eqb_spec (FastTrack.thread_idx e) (Z.of_nat i));
    [destruct (Z.eqb_spec (FastTrack.clock e) (at_ (vc t) (Z.of_nat i)))|];
    (rewrite bool_decide_true by tauto) || (rewrite bool_decide_false by tauto); done.
Qed.

(** The accesses of DJIT+, on clocks of the supported size. *)
Lemma djit_read_ok d :
  vc_ok (Djit.rx d) → vc_ok (Djit.wx d) →
  ∃ b, (b = true ↔ vle (Djit.wx d) (vc t))
    ∧ Djit.variable_update_read d t
      = Ok (b, if b then Djit.MkVar (put (Djit.rx d) (Z.of_nat i) (at_ (vc t) (Z.of_nat i))) (Djit.wx d)
               else d).
Proof.
  intros Hrx Hwx. unfold Djit.variable_update_read, Djit.variable_read_is_race_free.
  destruct (happens_before_ok (Djit.wx d) (vc t) Hwx access_ok) as (b & -> & Hb).
  exists b. split; [done|]. cbn [mbind outcome_bind]. destruct b; [|done].
  rewrite get_clock_ok. cbn [mbind outcome_bind]. rewrite (si_idx _ HS _ _ Hi).
  by rewrite set_ok by (apply access_range || done).
Qed.

Lemma djit_write_ok d :
  vc_ok (Djit.rx d) → vc_ok (Djit.wx d) →
  ∃ b, (b = true ↔ vle (Djit.wx d) (vc t) ∧ vle (Djit.rx d) (vc t))
    ∧ Djit.variable_update_write d t
      = Ok (b, if b then Djit.MkVar (Djit.rx d) (put (Djit.wx d) (Z.of_nat i) (at_ (vc t) (Z.of_nat i)))
               else d).
Proof.
  intros Hrx Hwx. unfold Djit.variable_update_write, Djit.variable_write_is_race_free.
  destruct (happens_before_ok (Djit.wx d) (vc t) Hwx access_ok) as (b1 & -> & Hb1).
  cbn [mbind outcome_bind]. destruct b1.
  - destruct (happens_before_ok (Djit.rx d) (vc t) Hrx access_ok) as (b2 & -> & Hb2).
    exists b2. split; [naive_solver|]. cbn [mbind outcome_bind]. destruct b2; [|done].
    rewrite get_clock_ok. cbn [mbind outcome_bind]. rewrite (si_idx _ HS _ _ Hi).
    by rewrite set_ok by (apply access_range || done).
  - exists false. split; [naive_solver | done].
Qed.

(** Recording the access of the thread now. *)
Definition record_now (v : vector_clock_t) : vector_clock_t :=
  put v (Z.of_nat i) (at_ (vc t) (Z.of_nat i)).

Lemma record_now_ok v : vc_ok v → vc_ok (record_now v).
Proof. intros. apply put_ok; [done|]. apply at_nonneg; [apply access_ok | apply access_range]. Qed.

Lemma at_record_now v j :
  vc_ok v → 0 ≤ j < VC_INITIAL_SZ →
  at_ (record_now v) j = if decide (Z.of_nat i = j) then at_ (vc t) j else at_ v j.
Proof.
  intros Hv Hj. unfold record_now. rewrite at_put by (apply access_range || done).
  by case_decide; subst.
Qed.

Lemma record_now_le v : vc_ok v → vle v (vc t) → vle (record_now v) (vc t).
Proof. intros Hv Hle j Hj. rewrite at_record_now by done. case_decide; [lia | by apply Hle]. Qed.

Lemma record_now_same v :
  vc_ok v → at_ v (Z.of_nat i) = at_ (vc t) (Z.of_nat i) → record_now v = v.
Proof.
  intros Hv He. unfold record_now, put, set_clocks. destruct v as [l sz lk]. simpl. f_equal.
  apply list_insert_id. rewrite <- He. apply (at_lookup (MkClock l sz lk)); [done | apply access_range].
Qed.

(** What the invariant says about the other threads' entries in a vector that
    the thread dominates: their current clocks are not in it. *)
Lemma dominated_past v j u :
  vle v (vc t) → ts S !! j = Some u → i ≠ j → at_ v (Z.of_nat j) ≠ at_ (vc u) (Z.of_nat j).
Proof.
  intros Hle Hj Hne. pose proof (si_other _ HS j i u t ltac:(done) Hj Hi).
  specialize (Hle (Z.of_nat j) (thread_idx_range _ _ _ HS Hj)). lia.
Qed.
(** The reads part of [related], for given reads. *)
Definition reads_related (rx : vector_clock_t) (f : FastTrack.variable_t) : Prop :=
  let e := FastTrack.rx_epoch f in
  0 ≤ FastTrack.thread_idx e < VC_INITIAL_SZ ∧ 0 ≤ FastTrack.clock e
  ∧ match FastTrack.is_shared f with
    | Some true => covered S rx (FastTrack.rx_vc f) ∧ FastTrack.clock e ≤ at_ rx (FastTrack.thread_idx e)
    | Some false =>
        (∀ j, 0 ≤ j < VC_INITIAL_SZ → at_ (FastTrack.rx_vc f) j = 0)
        ∧ ∃ K, knows S (FastTrack.thread_idx e) (FastTrack.clock e) K ∧ vle rx K
               ∧ at_ rx (FastTrack.thread_idx e) = FastTrack.clock e
    | None => False
    end.

Lemma past_own d f : related S d f →
  at_ (Djit.rx d) (Z.of_nat i) ≤ at_ (vc t) (Z.of_nat i)
  ∧ at_ (Djit.wx d) (Z.of_nat i) ≤ at_ (vc t) (Z.of_nat i).
Proof. intros Hr. rewrite <- (cur_thread S i t Hi). apply (r_past _ _ _ Hr), access_range. Qed.

(** Recording a read that follows all writes. *)
Lemma related_read d f f' :
  related S d f → vle (Djit.wx d) (vc t) → FastTrack.wx_epoch f' = FastTrack.wx_epoch f →
  vc_ok (FastTrack.rx_vc f') → reads_related (record_now (Djit.rx d)) f' →
  related S (Djit.MkVar (record_now (Djit.rx d)) (Djit.wx d)) f'.
Proof.
  intros Hr Hw He Hok Hreads. pose proof (r_rx _ _ _ Hr) as Hrx.
  constructor; simpl; try done.
  - by apply record_now_ok.
  - apply (r_wx _ _ _ Hr).
  - intros j Hj. split; [|by apply (r_past _ _ _ Hr)]. rewrite at_record_now by done.
    case_decide as Hij; [|by apply (r_past _ _ _ Hr)]. rewrite <- Hij, (cur_thread S i t Hi). lia.
  - rewrite He. apply (r_write _ _ _ Hr).
  - intros j u Hj Heq. destruct (decide (i = j)) as [<-|Hne]; [by assert (u = t) as -> by congruence|].
    rewrite at_record_now, decide_False in Heq by (done || lia || by eapply thread_idx_range).
    by apply (r_same_read _ _ _ Hr j).
  - intros j u Hj Heq. destruct (decide (i = j)) as [<-|Hne].
    + assert (u = t) as -> by congruence. split; [done|]. apply record_now_le; [done|]. by apply (r_same_write _ _ _ Hr i).
    + by destruct (dominated_past (Djit.wx d) j u Hw Hj Hne).
Qed.

(** Recording a write that follows all accesses. *)
Lemma related_write d f :
  related S d f → vle (Djit.wx d) (vc t) → vle (Djit.rx d) (vc t) →
  related S (Djit.MkVar (Djit.rx d) (record_now (Djit.wx d)))
    (FastTrack.MkVar (FastTrack.rx_vc f) (FastTrack.rx_epoch f)
       (FastTrack.epoch_set (Z.of_nat i) (at_ (vc t) (Z.of_nat i))) (FastTrack.is_shared f)).
Proof.
  intros Hr Hw Hx. pose proof (r_wx _ _ _ Hr) as Hwx.
  constructor; simpl; try apply Hr.
  - by apply record_now_ok.
  - intros j Hj. split; [by apply (r_past _ _ _ Hr)|]. rewrite at_record_now by done.
    case_decide as Hij; [|by apply (r_past _ _ _ Hr)]. rewrite <- Hij, (cur_thread S i t Hi). lia.
  - exists (vc t). split; [by apply knows_now|]. split; [by apply record_now_le|].
    rewrite at_record_now by (done || apply access_range). by rewrite decide_True.
  - intros j u Hj Heq. destruct (decide (i = j)) as [<-|Hne].
    + assert (u = t) as -> by congruence. by apply record_now_le.
    + by destruct (dominated_past (Djit.rx d) j u Hx Hj Hne).
  - intros j u Hj Heq. destruct (decide (i = j)) as [<-|Hne].
    + assert (u = t) as -> by congruence. split; [by apply record_now_le | done].
    + rewrite at_record_now, decide_False in Heq by (done || lia || by eapply thread_idx_range).
      by destruct (dominated_past (Djit.wx d) j u Hw Hj Hne).
Qed.

(** FastTrack's next state after a read that is not in the same epoch. *)
Lemma reads_exclusive d f :
  related S d f → FastTrack.is_shared f = Some false → vle (Djit.rx d) (vc t) →
  reads_related (record_now (Djit.rx d))
    (FastTrack.MkVar (FastTrack.rx_vc f)
       (FastTrack.epoch_set (Z.of_nat i) (at_ (vc t) (Z.of_nat i))) (FastTrack.wx_epoch f) (Some false)).
Proof.
  intros Hr Hs Hle. pose proof (r_read _ _ _ Hr) as Hread. rewrite Hs in Hread.
  destruct Hread as (_ & _ & Hz & _). pose proof (r_rx _ _ _ Hr) as Hrx. pose proof access_range as Hrange.
  unfold reads_related. simpl. split_and!; try done; try lia.
  - apply at_nonneg; [apply access_ok | done].
  - exists (vc t). split; [by apply knows_now|]. split; [by apply record_now_le|].
    rewrite at_record_now by done. by rewrite decide_True.
Qed.

Lemma reads_shared d f :
  related S d f → FastTrack.is_shared f = Some true →
  reads_related (record_now (Djit.rx d))
    (FastTrack.MkVar (record_now (FastTrack.rx_vc f)) (FastTrack.rx_epoch f) (FastTrack.wx_epoch f) (Some true)).
Proof.
  intros Hr Hs. pose proof (r_read _ _ _ Hr) as Hread. rewrite Hs in Hread.
  destruct Hread as (Hidx & Hc & [Hle Hcov] & Hce). pose proof (r_rx _ _ _ Hr) as Hrx.
  pose proof (r_rvc _ _ _ Hr) as Hrvc. pose proof access_range as Hrange.
  destruct (past_own _ _ Hr) as [Hpast _].
  unfold reads_related. simpl. split_and!; try done; try lia.
  - split.
    + intros j Hj. rewrite !at_record_now by done. case_decide; [lia | by apply Hle].
    + intros j Hj. rewrite !at_record_now by done. case_decide as Hij; [by left|].
      destruct (Hcov j Hj) as [|(a & K & HK & HKj)]; [by left | right].
      pose proof HK as (_ & Ha & _ & _ & HKle).
      destruct (decide (Z.of_nat i = a)) as [<-|Hne].
      * exists (Z.of_nat i), (vc t). rewrite at_record_now, decide_True by done.
        split; [by apply knows_now|]. etrans; [exact HKj|]. apply HKle; [apply access_in| |done].
        etrans; [by apply Hle | done].
      * exists a, K. by rewrite at_record_now, decide_False by done.
  - etrans; [exact Hce|]. rewrite at_record_now by done. case_decide as Hij; [|done]. by rewrite <- Hij.
Qed.

Lemma reads_become_shared d f (e := FastTrack.rx_epoch f) :
  related S d f → FastTrack.is_shared f = Some false → ¬ vle (Djit.rx d) (vc t) →
  reads_related (record_now (Djit.rx d))
    (FastTrack.MkVar (record_now (put (FastTrack.rx_vc f) (FastTrack.thread_idx e) (FastTrack.clock e)))
       e (FastTrack.wx_epoch f) (Some true)).
Proof.
  intros Hr Hs Hn. pose proof (r_read _ _ _ Hr) as Hread. rewrite Hs in Hread.
  destruct Hread as (Hidx & Hc & Hz & K & HK & HrxK & Hat). pose proof (r_rx _ _ _ Hr) as Hrx.
  pose proof (r_rvc _ _ _ Hr) as Hrvc. pose proof access_range as Hrange. fold e in Hidx, Hc, HK, Hat.
  destruct (past_own _ _ Hr) as [Hpast _].
  pose proof (put_ok (FastTrack.rx_vc f) (FastTrack.thread_idx e) (FastTrack.clock e) Hrvc Hc) as Hput.
  assert (FastTrack.thread_idx e ≠ Z.of_nat i) as Hne.
  { intros Heq. apply Hn. etrans; [exact HrxK|]. apply HK; [apply access_in|]. by rewrite <- Hat, Heq. }
  unfold reads_related. simpl. split_and!; try done; try lia.
  - split.
    + intros j Hj. rewrite !at_record_now by done. case_decide; [lia|].
      rewrite at_put by done. case_decide as Hej; [by rewrite <- Hej, Hat|].
      rewrite Hz by done. by apply at_nonneg.
    + intros j Hj. rewrite !at_record_now by done. case_decide as Hij; [by left|].
      rewrite at_put by done. case_decide as Hej; [left; by rewrite <- Hej, Hat|]. right.
      exists (FastTrack.thread_idx e), K. rewrite at_record_now, decide_False by (done || lia).
      rewrite at_put, decide_True by done. split; [done | by apply HrxK].
  - rewrite at_record_now, decide_False by (done || lia). by rewrite Hat.
Qed.
(** A shortcut of FastTrack: the access of this epoch is recorded already. *)
Lemma read_recorded d f :
  related S d f → at_ (Djit.rx d) (Z.of_nat i) = at_ (vc t) (Z.of_nat i) →
  Djit.variable_update_read d t = Ok (true, d).
Proof.
  intros Hr Heq. destruct (djit_read_ok d (r_rx _ _ _ Hr) (r_wx _ _ _ Hr)) as (b & Hb & ->).
  rewrite (proj2 Hb (r_same_read _ _ _ Hr _ _ Hi Heq)). do 2 f_equal.
  fold (record_now (Djit.rx d)). rewrite (record_now_same _ (r_rx _ _ _ Hr) Heq). by destruct d.
Qed.

Lemma write_recorded d f :
  related S d f → at_ (Djit.wx d) (Z.of_nat i) = at_ (vc t) (Z.of_nat i) →
  Djit.variable_update_write d t = Ok (true, d).
Proof.
  intros Hr Heq. destruct (djit_write_ok d (r_rx _ _ _ Hr) (r_wx _ _ _ Hr)) as (b & Hb & ->).
  rewrite (proj2 Hb (r_same_write _ _ _ Hr _ _ Hi Heq)). do 2 f_equal.
  fold (record_now (Djit.wx d)). rewrite (record_now_same _ (r_wx _ _ _ Hr) Heq). by destruct d.
Qed.

Lemma rx_epoch_recorded d f :
  related S d f → FastTrack.thread_idx (FastTrack.rx_epoch f) = Z.of_nat i →
  FastTrack.clock (FastTrack.rx_epoch f) = at_ (vc t) (Z.of_nat i) →
  at_ (Djit.rx d) (Z.of_nat i) = at_ (vc t) (Z.of_nat i).
Proof.
  intros Hr H1 H2. destruct (past_own _ _ Hr) as [Hpast _].
  destruct (r_read _ _ _ Hr) as (_ & _ & Hm). destruct (FastTrack.is_shared f) as [[]|]; [| |done].
  - destruct Hm as [_ Hc]. rewrite H1, H2 in Hc. lia.
  - destruct Hm as (_ & K & _ & _ & Hat). by rewrite H1, H2 in Hat.
Qed.

Lemma write_test d f :
  related S d f →
  ∃ n, FastTrack.epoch_happens_before_vc (FastTrack.wx_epoch f) (vc t) = Ok n
    ∧ (n ≠ 0 ↔ vle (Djit.wx d) (vc t)).
Proof. intros Hr. destruct (r_write _ _ _ Hr) as (K & HK & Hle & Hat). by apply (epoch_test _ K). Qed.

(** The shared vector is before a clock exactly when the reads of DJIT+ are. *)
Lemma shared_reads_le d f :
  related S d f → FastTrack.is_shared f = Some true →
  vle (FastTrack.rx_vc f) (vc t) ↔ vle (Djit.rx d) (vc t).
Proof.
  intros Hr Hs. pose proof (r_read _ _ _ Hr) as Hread. rewrite Hs in Hread.
  destruct Hread as (_ & _ & [Hle Hcov] & _). split; [|by etrans].
  intros Hrvc j Hj. destruct (Hcov j Hj) as [Hj'|(a & K & HK & HKj)].
  - etrans; [exact Hj' | by apply Hrvc].
  - destruct HK as (_ & Ha & _ & _ & HKle). etrans; [exact HKj|].
    apply HKle; [apply access_in | by apply Hrvc | done].
Qed.

(** ** One access in both detectors *)

(** Both give the same answer, and stay related if there is no race. *)
Definition agree (S : clocks_state) (d : outcome (bool * Djit.variable_t))
    (f : outcome (bool * FastTrack.variable_t)) : Prop :=
  ∃ b d' f', d = Ok (b, d') ∧ f = Ok (b, f') ∧ (b = true → related S d' f').

Lemma read_slow d f (shared : bool) :
  related S d f → FastTrack.is_shared f = Some shared →
  agree S (Djit.variable_update_read d t)
    (w ← FastTrack.epoch_happens_before_vc (FastTrack.wx_epoch f) (vc t);
     if w =? 0 then Ok (false, f)
     else
       c ← thread_get_clock t;
       if shared : bool then
         rv ← vector_clock_set_checked (FastTrack.rx_vc f) (idx t) c;
         Ok (true, FastTrack.MkVar rv (FastTrack.rx_epoch f) (FastTrack.wx_epoch f) (FastTrack.is_shared f))
       else
         r ← FastTrack.epoch_happens_before_vc (FastTrack.rx_epoch f) (vc t);
         if negb (r =? 0) then
           Ok (true, FastTrack.MkVar (FastTrack.rx_vc f) (FastTrack.epoch_set (idx t) c)
                       (FastTrack.wx_epoch f) (FastTrack.is_shared f))
         else
           rv ← vector_clock_set_checked (FastTrack.rx_vc f)
                  (FastTrack.thread_idx (FastTrack.rx_epoch f)) (FastTrack.clock (FastTrack.rx_epoch f));
           rv ← vector_clock_set_checked rv (idx t) c;
           Ok (true, FastTrack.MkVar rv (FastTrack.rx_epoch f) (FastTrack.wx_epoch f) (Some true))).
Proof.
  intros Hr Hs. pose proof (r_rvc _ _ _ Hr) as Hrvc. pose proof access_range as Hrange.
  destruct (djit_read_ok d (r_rx _ _ _ Hr) (r_wx _ _ _ Hr)) as (b & Hb & ->).
  destruct (write_test d f Hr) as (n & -> & Hn). cbn [mbind outcome_bind].
  destruct (Z.eqb_spec n 0) as [Hn0|Hn0].
  { assert (b = false) as -> by (destruct b; [tauto | done]). by exists false, d, f. }
  assert (vle (Djit.wx d) (vc t)) as Hw by tauto. assert (b = true) as -> by tauto.
  rewrite get_clock_ok, (si_idx _ HS _ _ Hi). cbn [mbind outcome_bind].
  pose proof (r_read _ _ _ Hr) as (Hidx & Hc & Hread). rewrite Hs in *. destruct shared.
  - rewrite set_checked_ok by done. cbn [mbind outcome_bind]. eexists _, _, _. split_and!; [done..|].
    intros _. apply (related_read d f); try done; [by apply record_now_ok | by apply reads_shared].
  - destruct Hread as (_ & K & HK & HKle & Hat).
    destruct (epoch_test _ K (Djit.rx d) HK HKle Hat) as (r & -> & Hr'). cbn [mbind outcome_bind].
    destruct (Z.eqb_spec r 0) as [Hr0|Hr0]; cbn [negb].
    + rewrite set_checked_ok by done. cbn [mbind outcome_bind].
      rewrite set_checked_ok by ((by apply put_ok) || done). cbn [mbind outcome_bind].
      eexists _, _, _. split_and!; [done..|]. intros _.
      apply (related_read d f); try done; [apply record_now_ok; by apply put_ok|].
      apply reads_become_shared; try done. tauto.
    + eexists _, _, _. split_and!; [done..|]. intros _.
      apply (related_read d f); try done. apply reads_exclusive; try done. tauto.
Qed.

Lemma read_agree d f :
  related S d f → agree S (Djit.variable_update_read d t) (FastTrack.variable_update_read f t).
Proof.
  intros Hr. unfold FastTrack.variable_update_read. rewrite same_epoch_ok. cbn [mbind outcome_bind].
  case_bool_decide as Hsame.
  { exists true, d, f. split_and!; try done. apply (read_recorded _ f); [done|]. apply (rx_epoch_recorded _ f); tauto. }
  unfold FastTrack.get_shared.
  destruct (FastTrack.is_shared f) as [shared|] eqn:Hs; [|by destruct (r_read _ _ _ Hr) as (_ & _ & Hm); rewrite Hs in Hm].
  pose proof (read_slow d f shared Hr Hs) as Hslow. rewrite Hs in Hslow. cbn [mbind outcome_bind].
  destruct shared; [|exact Hslow].
  rewrite get_clock_ok, (si_idx _ HS _ _ Hi) in *.
  rewrite get_ok by (apply access_range || apply (r_rvc _ _ _ Hr)). cbn [mbind outcome_bind].
  destruct (Z.eqb_spec (at_ (FastTrack.rx_vc f) (Z.of_nat i)) (at_ (vc t) (Z.of_nat i))) as [Heq|]; [|exact Hslow].
  exists true, d, f. split_and!; try done. apply (read_recorded _ f); [done|].
  pose proof (r_read _ _ _ Hr) as (_ & _ & Hread). rewrite Hs in Hread.
  destruct Hread as [[Hle _] _]. specialize (Hle _ access_range). destruct (past_own _ _ Hr). lia.
Qed.

Lemma reads_test d f (shared : bool) :
  related S d f → FastTrack.is_shared f = Some shared →
  ∃ b, (if negb shared then
          r ← FastTrack.epoch_happens_before_vc (FastTrack.rx_epoch f) (vc t); Ok (negb (r =? 0))
        else vector_clock_happens_before (FastTrack.rx_vc f) (vc t)) = Ok b
    ∧ (b = true ↔ vle (Djit.rx d) (vc t)).
Proof.
  intros Hr Hs. destruct shared; cbn [negb].
  - destruct (happens_before_ok (FastTrack.rx_vc f) (vc t) (r_rvc _ _ _ Hr) access_ok) as (b & -> & Hb).
    exists b. split; [done|]. rewrite Hb. by apply shared_reads_le.
  - pose proof (r_read _ _ _ Hr) as (_ & _ & Hread). rewrite Hs in Hread.
    destruct Hread as (_ & K & HK & HKle & Hat).
    destruct (epoch_test _ K (Djit.rx d) HK HKle Hat) as (r & -> & Hr'). cbn [mbind outcome_bind].
    eexists. split; [done|]. rewrite <- Hr'. by destruct (Z.eqb_spec r 0).
Qed.

Lemma write_agree d f :
  related S d f → agree S (Djit.variable_update_write d t) (FastTrack.variable_update_write f t).
Proof.
  intros Hr. unfold FastTrack.variable_update_write. rewrite same_epoch_ok. cbn [mbind outcome_bind].
  case_bool_decide as Hsame.
  { exists true, d, f. split_and!; try done. apply (write_recorded _ f); [done|].
    destruct Hsame as [H1 H2]. destruct (r_write _ _ _ Hr) as (K & _ & _ & Hat). by rewrite H1, H2 in Hat. }
  destruct (djit_write_ok d (r_rx _ _ _ Hr) (r_wx _ _ _ Hr)) as (b & Hb & ->).
  destruct (write_test d f Hr) as (n & -> & Hn). cbn [mbind outcome_bind].
  destruct (Z.eqb_spec n 0) as [Hn0|Hn0].
  { assert (b = false) as -> by (destruct b; [tauto | done]). by exists false, d, f. }
  unfold FastTrack.get_shared.
  destruct (FastTrack.is_shared f) as [shared|] eqn:Hs; [|by destruct (r_read _ _ _ Hr) as (_ & _ & Hm); rewrite Hs in Hm].
  cbn [mbind outcome_bind].
  destruct (reads_test d f shared Hr Hs) as (r & -> & Hr'). cbn [mbind outcome_bind].
  assert (b = r) as -> by (apply eq_true_iff_eq; tauto).
  destruct r; [|by exists false, d, f].
  rewrite get_clock_ok, (si_idx _ HS _ _ Hi). cbn [mbind outcome_bind].
  eexists _, _, _. split_and!; [done..|]. intros _. rewrite <- Hs. apply related_write; tauto.
Qed.
End access.
End RaceInvariant.
