(* ===== verification/RaceSync.v ===== *)
(** * The clock events of the race detectors keep the invariant

    What fork, join, lock, unlock and the first use of a thread or a lock do to
    the clocks, and that each of them keeps [sysinv] and is an evolution in the
    sense of RaceInvariant. *)
From S2P Require Import Prelude VectorClock Detectors RaceInvariant.
Import VectorClock RaceInvariant.

Module RaceSync.

(** A clock by its owner: thread [inl i] or lock [inr l]. *)
Definition get (S : clocks_state) (q : nat + nat) : option vector_clock_t :=
  match q with inl i => vc <$> ts S !! i | inr l => ls S !! l end.

Definition upd (S : clocks_state) (q : nat + nat) (X : vector_clock_t) : clocks_state :=
  match q with
  | inl i => MkClocks (alter (λ t, MkThread (idx t) X) i (ts S)) (ls S)
  | inr l => MkClocks (ts S) (<[l := X]> (ls S))
  end.

Lemma elem_get S X : X ∈ all_clocks S ↔ ∃ q, get S q = Some X.
Proof.
  split.
  - intros [(i & t & Hi & ->)|[l Hl]%list_elem_of_lookup_1]%in_all; [exists (inl i) | by exists (inr l)].
    simpl. by rewrite Hi.
  - intros [[i|l] Hq]; simpl in Hq.
    + apply fmap_Some in Hq as (t & Hi & ->). by eapply thread_in.
    + apply lock_in. by eapply list_elem_of_lookup_2.
Qed.

Lemma get_upd S q q' Y X : get S q = Some Y → get (upd S q X) q' = if decide (q = q') then Some X else get S q'.
Proof.
  intros HY. destruct q as [i|l], q' as [j|m]; simpl in *; try done.
  - apply fmap_Some in HY as (t & Hi & ->). destruct (decide (i = j)) as [->|Hne].
    + rewrite decide_True by done. by rewrite list_lookup_alter_eq, Hi.
    + rewrite decide_False by congruence. by rewrite list_lookup_alter_ne.
  - destruct (decide (l = m)) as [->|Hne].
    + rewrite decide_True by done. apply list_lookup_insert_eq. by eapply lookup_lt_Some.
    + rewrite decide_False by congruence. by rewrite list_lookup_insert_ne.
Qed.

Lemma nthreads_upd S q X : nthreads (upd S q X) = nthreads S.
Proof. destruct q; unfold nthreads; simpl; [by rewrite length_alter | done]. Qed.

(** ** The invariant by owners *)

Lemma sysinv_get S : sysinv S →
  (∀ q X, get S q = Some X → vc_ok X)
  ∧ (∀ i X, get S (inl i) = Some X → 1 ≤ at_ X (Z.of_nat i) ∧ 0 ≤ Z.of_nat i < VC_INITIAL_SZ)
  ∧ (∀ k T q X, get S (inl k) = Some T → get S q = Some X → q ≠ inl k →
       at_ X (Z.of_nat k) < at_ T (Z.of_nat k))
  ∧ (∀ q X i, get S q = Some X → nthreads S ≤ i < VC_INITIAL_SZ → at_ X i = 0).
Proof.
  intros HS. split_and!.
  - intros q X Hq. apply (si_ok _ HS). apply elem_get. by exists q.
  - intros i X Hi. apply fmap_Some in Hi as (t & Hi & ->).
    split; [by apply (si_pos _ HS) | by eapply thread_idx_range].
  - intros k T q X Hk Hq Hne. apply fmap_Some in Hk as (t & Hk & ->).
    destruct q as [j|l]; simpl in Hq.
    + apply fmap_Some in Hq as (u & Hj & ->). apply (si_other _ HS k j); try done. congruence.
    + apply (si_lock _ HS k t); [done|]. by eapply list_elem_of_lookup_2.
  - intros q X i Hq Hi. apply (si_new _ HS); [|done]. apply elem_get. by exists q.
Qed.

Lemma sysinv_intro S :
  (∀ q X, get S q = Some X → vc_ok X) → nthreads S ≤ VC_INITIAL_SZ →
  (∀ i t, ts S !! i = Some t → idx t = Z.of_nat i) →
  (∀ i X, get S (inl i) = Some X → 1 ≤ at_ X (Z.of_nat i)) →
  (∀ k T q X, get S (inl k) = Some T → get S q = Some X → q ≠ inl k →
     at_ X (Z.of_nat k) < at_ T (Z.of_nat k)) →
  (∀ q X i, get S q = Some X → nthreads S ≤ i < VC_INITIAL_SZ → at_ X i = 0) →
  sysinv S.
Proof.
  intros Hok Hb Hidx Hpos Hother Hnew. constructor; try done.
  - intros X [q Hq]%elem_get. by eapply Hok.
  - intros i t Hi. apply Hpos. simpl. by rewrite Hi.
  - intros i j t u Hne Hi Hj. apply (Hother i (vc t) (inl j)); simpl; rewrite ?Hi, ?Hj; try done. congruence.
  - intros i t L Hi [l Hl]%list_elem_of_lookup_1. apply (Hother i (vc t) (inr l)); simpl; rewrite ?Hi; done.
  - intros X i [q Hq]%elem_get Hi. by eapply Hnew.
Qed.

(** Replacing one clock. *)
Lemma sysinv_upd S q Y X :
  sysinv S → get S q = Some Y → vc_ok X →
  (∀ k, q = inl k → at_ Y (Z.of_nat k) ≤ at_ X (Z.of_nat k)) →
  (∀ k T, get S (inl k) = Some T → q ≠ inl k → at_ X (Z.of_nat k) < at_ T (Z.of_nat k)) →
  (∀ i, nthreads S ≤ i < VC_INITIAL_SZ → at_ X i = 0) →
  sysinv (upd S q X).
Proof.
  intros HS Hq Hok Hown Hpast Hnew. destruct (sysinv_get S HS) as (HSok & HSpos & HSother & HSnew).
  apply sysinv_intro; try rewrite nthreads_upd; try apply HS.
  - intros q' X'. rewrite (get_upd _ _ _ _ _ Hq). case_decide; [congruence | apply HSok].
  - intros i t Hi. destruct q as [j|l]; simpl in Hi; [|by apply (si_idx _ HS)].
    destruct (decide (j = i)) as [->|]; [|rewrite list_lookup_alter_ne in Hi by done; by apply (si_idx _ HS)].
    rewrite list_lookup_alter_eq in Hi. apply fmap_Some in Hi as (u & Hu & ->). simpl. by apply (si_idx _ HS).
  - intros i X'. rewrite (get_upd _ _ _ _ _ Hq). case_decide as Heq; [|apply HSpos].
    intros [= <-]. specialize (Hown i Heq). subst q. apply HSpos in Hq. lia.
  - intros k T q' X'. rewrite !(get_upd _ _ _ _ _ Hq). intros HT HX Hne.
    destruct (decide (q = inl k)) as [Hk|Hk].
    + rewrite decide_False in HX by congruence. injection HT as <-. specialize (Hown k Hk).
      subst q. pose proof (HSother k Y q' X' Hq HX Hne). lia.
    + destruct (decide (q = q')) as [<-|]; [injection HX as <-; by apply Hpast | by eapply HSother].
  - intros q' X' i. rewrite (get_upd _ _ _ _ _ Hq). case_decide; [|by apply HSnew].
    intros [= <-]. apply Hnew.
Qed.

(** ** Clocks derived from those before *)

Definition derived (S : clocks_state) (X : vector_clock_t) : Prop :=
  ∀ t c, 0 ≤ t < VC_INITIAL_SZ → 1 ≤ c ≤ cur S t → c ≤ at_ X t →
    ∃ Y, Y ∈ all_clocks S ∧ c ≤ at_ Y t ∧ vle Y X.

Lemma evolves_intro S S' :
  (∀ i X, get S (inl i) = Some X → ∃ X', get S' (inl i) = Some X' ∧ vle X X') →
  (∀ q X, get S' q = Some X → derived S X) → evolves S S'.
Proof.
  intros Hth Hcl. constructor.
  - intros i t Hi. destruct (Hth i (vc t)) as (X' & HX' & ?); [simpl; by rewrite Hi|].
    apply fmap_Some in HX' as (t' & Ht' & ->). by exists t'.
  - intros X [q Hq]%elem_get. by eapply Hcl.
Qed.

Lemma derived_old S q X : get S q = Some X → derived S X.
Proof. intros Hq t c _ _ Hc. exists X. split; [apply elem_get; by exists q | done]. Qed.

Lemma derived_join S X Y u : derived S X → derived S Y → is_join X Y u → derived S u.
Proof.
  intros HX HY Hj t c Ht Hcur Hc. rewrite Hj in Hc by done. destruct (join_upper _ _ _ Hj).
  destruct (Z.max_spec (at_ X t) (at_ Y t)) as [[_ Hm]|[_ Hm]]; rewrite Hm in Hc.
  - destruct (HY t c Ht Hcur Hc) as (Z0 & ? & ? & ?). exists Z0. split_and!; try done. by etrans.
  - destruct (HX t c Ht Hcur Hc) as (Z0 & ? & ? & ?). exists Z0. split_and!; try done. by etrans.
Qed.

(** ** Publishing: a thread increments its own entry *)

Definition inc (i : nat) (X : vector_clock_t) : vector_clock_t := put X (Z.of_nat i) (at_ X (Z.of_nat i) + 1).

Section thread.
Context (S : clocks_state) (HS : sysinv S) (i : nat) (T : vector_clock_t) (Hi : get S (inl i) = Some T).

Lemma T_ok : vc_ok T.
Proof. by eapply (proj1 (sysinv_get S HS)). Qed.

Lemma i_range : 0 ≤ Z.of_nat i < VC_INITIAL_SZ.
Proof. by eapply (proj1 (proj2 (sysinv_get S HS))). Qed.

Lemma inc_ok : vc_ok (inc i T).
Proof.
  apply put_ok; [apply T_ok|]. pose proof (at_nonneg T (Z.of_nat i) T_ok i_range). lia.
Qed.

Lemma at_inc j : 0 ≤ j < VC_INITIAL_SZ →
  at_ (inc i T) j = if decide (Z.of_nat i = j) then at_ T j + 1 else at_ T j.
Proof.
  intros Hj. unfold inc. rewrite at_put by (apply T_ok || apply i_range || done).
  by case_decide; subst.
Qed.

Lemma vle_inc : vle T (inc i T).
Proof. intros j Hj. rewrite at_inc by done. case_decide; lia. Qed.

Lemma get_thread_cur : cur S (Z.of_nat i) = at_ T (Z.of_nat i).
Proof. simpl in Hi. apply fmap_Some in Hi as (t & Ht & ->). by apply cur_thread. Qed.

Lemma derived_inc : derived S (inc i T).
Proof.
  intros t c Ht Hcur Hc. exists T. split_and!; [apply elem_get; by exists (inl i)| |apply vle_inc].
  rewrite at_inc in Hc by done. case_decide as Heq; [|done]. rewrite <- Heq in *.
  rewrite get_thread_cur in Hcur. lia.
Qed.

Lemma thread_index_new : ¬ nthreads S ≤ Z.of_nat i.
Proof.
  intros Hn. destruct (sysinv_get S HS) as (_ & HSpos & _ & HSnew).
  pose proof (proj1 (HSpos i T Hi)) as Hp. rewrite (HSnew _ _ _ Hi) in Hp; [lia|].
  pose proof i_range. lia.
Qed.

Lemma sysinv_inc : sysinv (upd S (inl i) (inc i T)).
Proof.
  destruct (sysinv_get S HS) as (_ & _ & HSother & HSnew).
  apply (sysinv_upd S _ T); try done.
  - apply inc_ok.
  - intros k [= <-]. apply vle_inc, i_range.
  - intros k U Hk Hne. assert (Z.of_nat k ≠ Z.of_nat i) by (intros ?%(inj Z.of_nat); congruence).
    rewrite at_inc, decide_False by (congruence || by eapply (proj1 (proj2 (sysinv_get S HS)))).
    by eapply HSother.
  - intros j Hj. pose proof thread_index_new. pose proof (nthreads S).
    rewrite at_inc by (unfold nthreads in *; lia). rewrite decide_False by lia. by eapply HSnew.
Qed.

Lemma evolves_inc : evolves S (upd S (inl i) (inc i T)).
Proof.
  apply evolves_intro.
  - intros j X HX. rewrite (get_upd _ _ _ _ _ Hi). case_decide as Heq.
    + injection Heq as <-. rewrite Hi in HX. injection HX as <-. eexists. split; [done | apply vle_inc].
    + by exists X.
  - intros q X. rewrite (get_upd _ _ _ _ _ Hi). case_decide; [intros [= <-]; apply derived_inc | apply derived_old].
Qed.

(** The thread publishes its clock to another owner [q], as the parent of a
    fork, the child of a join and an unlock do. *)
Section publish.
Context (q : nat + nat) (Q u : vector_clock_t) (Hq : get S q = Some Q) (Hne : q ≠ inl i)
  (Hu : vc_ok u) (Hj : is_join Q T u).

Definition published : clocks_state := upd (upd S (inl i) (inc i T)) q u.

Lemma get_published_inc : get (upd S (inl i) (inc i T)) q = Some Q.
Proof. rewrite (get_upd _ _ _ _ _ Hi). by rewrite decide_False by congruence. Qed.

Lemma get_published q' :
  get published q' = if decide (q = q') then Some u else
                     if decide (inl i = q') then Some (inc i T) else get S q'.
Proof.
  unfold published. rewrite (get_upd _ _ _ _ _ get_published_inc). case_decide; [done|].
  by rewrite (get_upd _ _ _ _ _ Hi).
Qed.

Lemma sysinv_publish : sysinv published.
Proof.
  pose proof (sysinv_get S HS) as (_ & HSr & HSother & HSnew).
  apply (sysinv_upd _ _ Q); try done; [apply sysinv_inc | apply get_published_inc | | |].
  - intros k ->. apply (join_upper _ _ _ Hj). by eapply HSr.
  - intros k U. rewrite (get_upd _ _ _ _ _ Hi). intros HU Hqk. case_decide as Hk.
    + injection HU as <-. injection Hk as <-. rewrite Hj, at_inc, decide_True by (done || apply i_range).
      pose proof (HSother i T q Q Hi Hq ltac:(done)). lia.
    + assert (0 ≤ Z.of_nat k < VC_INITIAL_SZ) by by eapply HSr. rewrite Hj by done.
      pose proof (HSother k U q Q HU Hq ltac:(done)).
      pose proof (HSother k U (inl i) T HU Hi ltac:(congruence)). lia.
  - intros j. rewrite nthreads_upd. intros Hjr. rewrite Hj by (unfold nthreads in *; lia).
    by rewrite (HSnew _ _ _ Hq Hjr), (HSnew _ _ _ Hi Hjr).
Qed.

Lemma evolves_publish : evolves S published.
Proof.
  apply evolves_intro.
  - intros k X HX. rewrite get_published. case_decide as Hk.
    + subst q. rewrite Hq in HX. injection HX as <-. exists u. split; [done|]. by apply (join_upper _ _ _ Hj).
    + case_decide as Hik; [|by exists X]. injection Hik as <-. rewrite Hi in HX. injection HX as <-.
      exists (inc i T). split; [done | apply vle_inc].
  - intros q' X. rewrite get_published. case_decide.
    + intros [= <-]. apply (derived_join S Q T); [by eapply derived_old..|done].
    + case_decide; [intros [= <-]; apply derived_inc | apply derived_old].
Qed.
End publish.

(** The thread takes over the clock of a lock. *)
Section acquire.
Context (q : nat + nat) (Q u : vector_clock_t) (Hq : get S q = Some Q) (Hlock : ∀ k, q ≠ inl k)
  (Hu : vc_ok u) (Hj : is_join T Q u).

Lemma sysinv_acquire : sysinv (upd S (inl i) u).
Proof.
  pose proof (sysinv_get S HS) as (_ & HSr & HSother & HSnew).
  apply (sysinv_upd _ _ T); try done.
  - intros k [= <-]. apply (join_upper _ _ _ Hj), i_range.
  - intros k U HU Hk. rewrite Hj by by eapply HSr.
    pose proof (HSother k U q Q HU Hq ltac:(done)). pose proof (HSother k U (inl i) T HU Hi Hk). lia.
  - intros j Hjr. rewrite Hj by (unfold nthreads in *; lia).
    by rewrite (HSnew _ _ _ Hq Hjr), (HSnew _ _ _ Hi Hjr).
Qed.

Lemma evolves_acquire : evolves S (upd S (inl i) u).
Proof.
  apply evolves_intro.
  - intros k X HX. rewrite (get_upd _ _ _ _ _ Hi). case_decide as Hk; [|by exists X].
    injection Hk as <-. rewrite Hi in HX. injection HX as <-. exists u. split; [done|].
    by apply (join_upper _ _ _ Hj).
  - intros q' X. rewrite (get_upd _ _ _ _ _ Hi). case_decide; [|apply derived_old].
    intros [= <-]. apply (derived_join S T Q); [by eapply derived_old..|done].
Qed.
End acquire.
End thread.

(** ** First use of a thread or a lock *)

Definition new_clock (n : nat) : vector_clock_t := put (vector_clock_init VC_INITIAL_SZ) (Z.of_nat n) 1.

Definition add_thread (S : clocks_state) : clocks_state :=
  MkClocks (ts S ++ [MkThread (nthreads S) (new_clock (length (ts S)))]) (ls S).
Definition add_lock (S : clocks_state) : clocks_state := MkClocks (ts S) (ls S ++ [lock_init]).

Lemma get_add_thread S q X :
  get (add_thread S) q = Some X ↔ get S q = Some X ∨ q = inl (length (ts S)) ∧ X = new_clock (length (ts S)).
Proof.
  destruct q as [k|l]; simpl; [|naive_solver]. rewrite !fmap_Some. split.
  - intros (t & [Ht|[-> Hk]]%lookup_snoc_Some & ->); naive_solver.
  - intros [(t & Ht & ->)|[[= ->] ->]].
    + exists t. split; [|done]. by apply lookup_app_l_Some.
    + eexists. split; [apply lookup_snoc_Some; right; done | done].
Qed.

Lemma get_add_lock S q X :
  get (add_lock S) q = Some X ↔ get S q = Some X ∨ q = inr (length (ls S)) ∧ X = lock_init.
Proof.
  destruct q as [k|l]; simpl; [naive_solver|]. rewrite lookup_snoc_Some. split.
  - intros [[? ?]|[-> ->]]; naive_solver.
  - intros [Hl|[[= ->] ->]]; [left | right; done]. split; [by eapply lookup_lt_Some | done].
Qed.

Section add_thread.
Context (S : clocks_state) (HS : sysinv S) (Hroom : nthreads S < VC_INITIAL_SZ).

Lemma new_range : 0 ≤ Z.of_nat (length (ts S)) < VC_INITIAL_SZ.
Proof. unfold nthreads in Hroom. lia. Qed.

Lemma at_new_clock j : 0 ≤ j < VC_INITIAL_SZ →
  at_ (new_clock (length (ts S))) j = if decide (nthreads S = j) then 1 else 0.
Proof.
  intros Hj. unfold new_clock. rewrite at_put by (apply init_ok || apply new_range || done).
  unfold nthreads. by rewrite at_init.
Qed.

Lemma sysinv_add_thread : sysinv (add_thread S).
Proof.
  pose proof (sysinv_get S HS) as (HSok & HSpos & HSother & HSnew). pose proof new_range.
  assert (nthreads (add_thread S) = nthreads S + 1) as Hn.
  { unfold nthreads. simpl. rewrite length_app. simpl. lia. }
  apply sysinv_intro; try rewrite Hn; try lia.
  - intros q X [Hq|[-> ->]]%get_add_thread; [by eapply HSok | apply put_ok; [apply init_ok | lia]].
  - intros k t [[_ Hk]|[-> <-]]%lookup_snoc_Some; [by apply (si_idx _ HS)|done].
  - intros k X [Hq|[[= ->] ->]]%get_add_thread; [by eapply HSpos|].
    rewrite at_new_clock by done. by rewrite decide_True.
  - intros k T q X [Hk|[[= ->] ->]]%get_add_thread [Hq|[-> ->]]%get_add_thread Hne; try done.
    + by eapply HSother.
    + destruct (HSpos k T Hk) as [Hp Hr]. rewrite at_new_clock by done. case_decide as Heq; [|lia].
      rewrite (HSnew _ _ _ Hk) in Hp; lia.
    + rewrite (HSnew _ _ _ Hq) by (unfold nthreads; lia). rewrite at_new_clock by done.
      by rewrite decide_True.
  - intros q X j [Hq|[-> ->]]%get_add_thread Hj; [eapply HSnew; [done | lia]|].
    rewrite at_new_clock by (unfold nthreads in *; lia). by rewrite decide_False by lia.
Qed.

Lemma cur_new j : nthreads S ≤ j → cur S j = 0.
Proof. intros Hj. unfold cur. rewrite lookup_ge_None_2; [done|]. unfold nthreads in *. lia. Qed.

Lemma evolves_add_thread : evolves S (add_thread S).
Proof.
  apply evolves_intro.
  - intros k X HX. exists X. split; [|done]. apply get_add_thread. by left.
  - intros q X [Hq|[-> ->]]%get_add_thread; [by eapply derived_old|]. intros t c Ht Hcur Hc.
    rewrite at_new_clock in Hc by done. case_decide; [|lia]. rewrite cur_new in Hcur by lia. lia.
Qed.
End add_thread.

Lemma sysinv_add_lock S : sysinv S → sysinv (add_lock S).
Proof.
  intros HS. pose proof (sysinv_get S HS) as (HSok & HSpos & HSother & HSnew).
  assert (nthreads (add_lock S) = nthreads S) as Hn by done.
  apply sysinv_intro; try rewrite Hn; try apply HS.
  - intros q X [Hq|[-> ->]]%get_add_lock; [by eapply HSok | apply init_ok].
  - intros k X [Hq|[? ->]]%get_add_lock; [by eapply HSpos | done].
  - intros k T q X [Hk|[? ->]]%get_add_lock [Hq|[-> ->]]%get_add_lock Hne; try done; [by eapply HSother|].
    destruct (HSpos k T Hk) as [Hp Hr]. unfold lock_init. rewrite at_init by done. lia.
  - intros q X j [Hq|[-> ->]]%get_add_lock Hj; [by eapply HSnew|]. apply at_init. unfold nthreads in *. lia.
Qed.

Lemma evolves_add_lock S : evolves S (add_lock S).
Proof.
  apply evolves_intro.
  - intros k X HX. exists X. split; [|done]. apply get_add_lock. by left.
  - intros q X [Hq|[-> ->]]%get_add_lock; [by eapply derived_old|]. intros t c Ht Hcur Hc.
    unfold lock_init in Hc. rewrite at_init in Hc by done. lia.
Qed.
End RaceSync.
