(* ===== verification/RaceLists.v ===== *)
(** * The lists of threads, locks and variables of the race detectors

    thread_list_t, lock_list_t and variable_list_t are the same growing array
    of objects with a hash table from keys (thread ids, addresses) to indices.
    The lists are clients of mambo_ht_t through the class [IndexMap]. *)
From S2P Require Import Prelude LinearProbe HashTable VectorClock.

(** What the lists use of a hash table. [im_init] is the call
    [mambo_ht_init(ht, VC_INITIAL_SZ, 0, 90, true)]. *)
Class IndexMap (I : Type) := {
  im_init : outcome I;
  im_get : I → Z → outcome (Z * option Z * I);
  im_add : I → Z → Z → outcome (Z * I);
  im_repr : I → gmap Z Z → Prop;
  im_init_law h : im_init = Ok h → im_repr h ∅;
  im_get_law h m k :
    im_repr h m → im_get h k = Ok (match m !! k with Some v => (0, Some v) | None => (-1, None) end, h);
  im_add_law h m k v r h' :
    im_repr h m → k ≠ 0 → im_add h k v = Ok (r, h') → r = 0 ∧ im_repr h' (<[k := v]> m)
}.

(** mambo_ht_t implements the interface. The memory [mem] that malloc returned
    is overwritten by the initialisation. *)
Section implementation.
Context (calloc_ok : Z → bool) (Hfits : ∀ n, calloc_ok n = true → n * 16 ≤ 2 ^ 57)
  (Hinit : calloc_ok VectorClock.VC_INITIAL_SZ = true) (mem : MamboHt.mambo_ht).
Import MamboHt.

Definition ht_repr (h : mambo_ht) (m : gmap Z Z) : Prop :=
  ht_wf h ∧ represents (entries h) m ∧ lock h = false ∧ allow_resize h = true.

Lemma add_full h k v :
  k ≠ 0 → ¬ has_room calloc_ok h → allow_resize h = true → 0 < size h → size h * 2 < 2 ^ 64 →
  mambo_ht_add_nolock calloc_ok 2 h k v = Err AssertFail.
Proof.
  intros Hk Hroom Ha H0 Hs. unfold has_room in Hroom. simpl.
  destruct (Z.eqb_spec k 0); [done|]. destruct (Z.leb_spec (resize_threshold h) (entry_count h)); [|naive_solver].
  rewrite Ha. unfold __mambo_ht_resize, calloc. rewrite Z.shiftl_mul_pow2 by done.
  rewrite u64_small by lia. replace (size h * 2 ^ 1) with (2 * size h) by lia.
  destruct (calloc_ok (2 * size h)); [naive_solver | done].
Qed.

#[refine, global] Instance mambo_ht_index : IndexMap mambo_ht := {
  im_init := r ← mambo_ht_init calloc_ok true mem VectorClock.VC_INITIAL_SZ 0 90 true; Ok (snd r);
  im_get := mambo_ht_get;
  im_add := mambo_ht_add calloc_ok 2;
  im_repr := ht_repr
}.
Proof.
  - intros h Hi. unfold mambo_ht_init, calloc in Hi. cbn -[round_up_pow2 mbind] in Hi. unfold VectorClock.VC_INITIAL_SZ in *.
    assert (round_up_pow2 65 1 8 = Ok 8) as E by reflexivity.
    rewrite E in Hi. cbn [mbind outcome_bind] in Hi. rewrite Hinit in Hi.
    injection Hi as <-. destruct empty8_wf. by split_and!.
  - intros h m k (Hwf & Hm & Hl & _). by apply get_map.
  - intros h m k v r h' (Hwf & Hm & Hl & Ha) Hk Hadd. unfold mambo_ht_add, __mambo_ht_lock in Hadd.
    rewrite Hl in Hadd. cbn [mbind outcome_bind] in Hadd.
    assert (has_room calloc_ok (set_lock true h) ∨ ¬ has_room calloc_ok (set_lock true h)) as [Hroom|Hroom].
    { unfold has_room. destruct (decide (entry_count (set_lock true h) < resize_threshold (set_lock true h)));
        [by left; left|]. destruct (calloc_ok (2 * size (set_lock true h))); [|right; naive_solver].
      left. by right. }
    + destruct (add_nolock_spec calloc_ok Hfits 0 (set_lock true h) m k v)
        as (h1 & Hn & Hwf1 & Hm1 & (? & Ha1 & ? & Hlk)); [by apply set_lock_wf | done..|].
      rewrite Hn in Hadd. cbn [mbind outcome_bind fst snd] in Hadd. unfold __mambo_ht_unlock in Hadd.
      rewrite Hlk in Hadd. simpl in Hadd, Ha1. injection Hadd as <- <-.
      split; [done|]. split_and!; [by apply set_lock_wf | done | done | simpl; congruence].
    + pose proof (wf_size_pos h Hwf). pose proof (wf_fits _ Hwf).
      rewrite add_full in Hadd by (done || simpl; lia). done.
Defined.
End implementation.

Module RaceLists.

(** [items] holds [NULL] as [None]; an object is named by its index, which it
    keeps when the array is reallocated. *)
Record obj_list (A I : Type) := MkList {
  items : list (option A);
  size : Z;
  capacity : Z;
  index_ht : I;
  lock : bool
}.
Arguments MkList {A I}.
Arguments items {A I}.
Arguments size {A I}.
Arguments capacity {A I}.
Arguments index_ht {A I}.
Arguments lock {A I}.

Section lists.
Context {A I : Type} `{IndexMap I}.
(** The constructor of the objects, given the index, and whether [realloc] of
    so many pointers succeeds. *)
Context (new : Z → outcome A) (realloc_ok : Z → bool).

Definition list_init : outcome (obj_list A I) :=
  h ← im_init; Ok (MkList (replicate (Z.to_nat VectorClock.VC_INITIAL_SZ) None) 0 VectorClock.VC_INITIAL_SZ h false).

(** A failed [realloc] leaves [NULL], an array without elements. *)
Definition list_grow (l : obj_list A I) : obj_list A I :=
  if size l =? capacity l then
    let c := u64 (capacity l * 2) in
    MkList (if realloc_ok c then resize (Z.to_nat c) None (items l) else []) (size l) c (index_ht l) (lock l)
  else l.

(** The result is the index of the new object. *)
Definition list_append (l : obj_list A I) (key : Z) : outcome (Z * obj_list A I) :=
  let l := list_grow l in
  a ← new (size l);
  r ← im_add (index_ht l) key (size l);
  es ← aset (items l) (size l) (Some a);
  Ok (size l, MkList es (u64 (size l + 1)) (capacity l) (snd r) (lock l)).

Definition list_smart_get (l : obj_list A I) (key : Z) : outcome (Z * obj_list A I) :=
  if lock l then Err Hang
  else
    r ← im_get (index_ht l) key;
    let '(ret, index, h) := r in
    let l := MkList (items l) (size l) (capacity l) h (lock l) in
    if ret =? -1 then list_append l key
    else
      let index := default (u64 (-1)) index in
      _ ← aget (items l) index; Ok (index, l).

(** Reading and writing the object that an index stands for. *)
Definition deref (l : obj_list A I) (p : Z) : outcome A :=
  x ← aget (items l) p;
  match x with Some a => Ok a | None => Err NullPointer end.
Definition store (l : obj_list A I) (p : Z) (a : A) : outcome (obj_list A I) :=
  es ← aset (items l) p (Some a);
  Ok (MkList es (size l) (capacity l) (index_ht l) (lock l)).

(** The list holds the objects [xs]. *)
Record list_wf (l : obj_list A I) (xs : list A) : Prop := {
  lw_items : ∃ k, items l = (Some <$> xs) ++ replicate k None;
  lw_size : size l = Z.of_nat (length xs);
  lw_capacity : Z.of_nat (length (items l)) = capacity l ∧ capacity l < 2 ^ 64;
  lw_lock : lock l = false
}.

Lemma init_wf l : list_init = Ok l → list_wf l [].
Proof.
  unfold list_init. intros Hi. inv_ok. constructor; simpl; try done.
  by exists (Z.to_nat VectorClock.VC_INITIAL_SZ).
Qed.

Lemma items_lookup l xs n a : list_wf l xs → items l !! n = Some (Some a) ↔ xs !! n = Some a.
Proof.
  intros Hl. destruct (lw_items _ _ Hl) as [k ->]. rewrite lookup_app_Some, list_lookup_fmap_Some, lookup_replicate.
  split; [|intros; left; by exists a]. intros [(x & [= <-] & ?)|(_ & ? & _)]; done.
Qed.

Lemma deref_ok l xs p a : list_wf l xs → deref l p = Ok a ↔ 0 ≤ p ∧ xs !! Z.to_nat p = Some a.
Proof.
  intros Hl. rewrite <- (items_lookup l xs) by done. unfold deref. split.
  - intros Hd. inv_ok. destruct x; inv_ok. by apply aget_ok in Hx.
  - intros [? ?]. by rewrite (aget_lookup _ _ (Some a)) by done.
Qed.

Lemma store_ok l l' xs p a x :
  list_wf l xs → 0 ≤ p → xs !! Z.to_nat p = Some x → store l p a = Ok l' →
  list_wf l' (<[Z.to_nat p := a]> xs).
Proof.
  intros Hl Hp Hx Hs. unfold store in Hs. inv_ok. apply aset_ok in Hx0 as [Hr ->].
  destruct (lw_items _ _ Hl) as [k Hk]. pose proof (lookup_lt_Some _ _ _ Hx).
  constructor; simpl; rewrite ?length_insert; try apply Hl. exists k. rewrite Hk.
  rewrite insert_app_l by (rewrite length_fmap; lia). by rewrite list_fmap_insert.
Qed.

Lemma grow_items l xs :
  list_wf l xs → size l < Z.of_nat (length (items (list_grow l))) →
  (∃ k, items (list_grow l) = (Some <$> xs) ++ None :: replicate k None)
  ∧ Z.of_nat (length (items (list_grow l))) = capacity (list_grow l)
  ∧ capacity (list_grow l) < 2 ^ 64 ∧ size (list_grow l) = size l
  ∧ index_ht (list_grow l) = index_ht l ∧ lock (list_grow l) = lock l.
Proof.
  intros Hl. destruct (lw_items _ _ Hl) as [k Hk]. destruct (lw_capacity _ _ Hl) as [Hc Hb].
  pose proof (lw_size _ _ Hl) as Hs. unfold list_grow.
  destruct (Z.eqb_spec (size l) (capacity l)) as [Hf|Hf]; simpl.
  - pose proof (u64_range (capacity l * 2)) as Hu.
    destruct (realloc_ok _); [|simpl; lia]. rewrite length_resize. intros Hlt.
    split_and!; try done; try lia. rewrite resize_ge by lia. rewrite Hk.
    assert (k = 0%nat) as -> by (rewrite Hk, length_app, length_fmap, length_replicate in Hc; lia).
    rewrite app_nil_r, length_fmap.
    destruct (Z.to_nat (u64 (capacity l * 2)) - length xs)%nat as [|n] eqn:Hn; [lia | by exists n].
  - intros Hlt. split_and!; try done. rewrite Hk. destruct k as [|k]; [|by exists k].
    rewrite Hk, length_app, length_fmap in Hlt. simpl in Hlt. lia.
Qed.

Lemma append_ok l xs key i l' :
  list_wf l xs → list_append l key = Ok (i, l') →
  ∃ a r, new (Z.of_nat (length xs)) = Ok a ∧ i = Z.of_nat (length xs)
    ∧ im_add (index_ht l) key i = Ok r ∧ index_ht l' = snd r ∧ list_wf l' (xs ++ [a]).
Proof.
  intros Hl Ha. unfold list_append in Ha. inv_ok. rename x into a, x0 into r, x1 into es.
  apply aset_ok in Hx1 as [Hr ->]. pose proof (lw_size _ _ Hl) as Hs.
  assert (size (list_grow l) = size l) as Hsz by (unfold list_grow; by destruct (size l =? capacity l)).
  destruct (grow_items l xs Hl) as ([k Hk] & Hcap & Hb & _ & Hi & Hlk); [lia|].
  rewrite Hi, Hsz, Hs in *. exists a, r. split_and!; try done.
  constructor; simpl; rewrite ?length_insert, ?length_app; simpl.
  - exists k. rewrite Nat2Z.id, Hk, insert_app_r_alt by (by rewrite length_fmap).
    rewrite length_fmap, Nat.sub_diag. simpl. by rewrite fmap_app, <- app_assoc.
  - rewrite u64_small by lia. lia.
  - done.
  - rewrite Hlk. apply Hl.
Qed.

(** What [smart_get] does: the object of a known key, or a new object. *)
Lemma smart_get_ok l xs key i l' :
  list_wf l xs → list_smart_get l key = Ok (i, l') →
  list_wf l' xs ∨ ∃ a, new (Z.of_nat (length xs)) = Ok a ∧ i = Z.of_nat (length xs) ∧ list_wf l' (xs ++ [a]).
Proof.
  intros Hl Hg. unfold list_smart_get in Hg. rewrite (lw_lock _ _ Hl) in Hg.
  apply bind_ok_inv in Hg as ([[ret index] h] & _ & Hg).
  set (l1 := MkList _ _ _ _ _) in Hg.
  assert (list_wf l1 xs) as Hl1 by (constructor; try apply Hl; done).
  destruct (ret =? -1).
  - destruct (append_ok l1 xs key i l' Hl1 Hg) as (a & r & ? & ? & _ & _ & ?). right. by exists a.
  - inv_ok. by left.
Qed.

(** ** Keys and objects *)

(** The keys of the list, each with an index in the array. *)
Definition indexed (l : obj_list A I) (xs : list A) (m : gmap Z Z) : Prop :=
  list_wf l xs ∧ im_repr (index_ht l) m
  ∧ (∀ k i, m !! k = Some i → 0 ≤ i < Z.of_nat (length xs))
  ∧ (∀ k k' i, m !! k = Some i → m !! k' = Some i → k = k').

(** C38. The lists map keys to objects one to one: on a list that holds the
    objects [xs] with the keys [m], [smart_get] of a known key returns its
    object and changes nothing, and [smart_get] of a new key, where it returns,
    appends one new object for it; every other key keeps its object, and no
    object ever has two keys. *)
Theorem smart_get_spec l xs m key :
  indexed l xs m → key ≠ 0 →
  match m !! key with
  | Some i => list_smart_get l key = Ok (i, l)
  | None =>
      ∀ i l', list_smart_get l key = Ok (i, l') →
        i = Z.of_nat (length xs)
        ∧ ∃ a, new i = Ok a ∧ indexed l' (xs ++ [a]) (<[key := i]> m)
  end.
Proof.
  intros (Hl & Hm & Hrange & Hinj) Hk. unfold list_smart_get.
  rewrite (lw_lock _ _ Hl), (im_get_law _ _ _ Hm). cbn [mbind outcome_bind].
  destruct (m !! key) as [i|] eqn:Hi.
  - assert (MkList (items l) (size l) (capacity l) (index_ht l) false = l) as E
      by (rewrite <- (lw_lock _ _ Hl); by destruct l).
    cbn. rewrite E. specialize (Hrange _ _ Hi).
    destruct (lookup_lt_is_Some_2 xs (Z.to_nat i)) as [a Ha]; [lia|].
    by rewrite (aget_lookup _ _ (Some a)) by (lia || by apply (items_lookup l xs)).
  - cbn. intros i l' Ha.
    eapply (append_ok _ xs) in Ha as (a & [r h] & Hnew & -> & Hadd & Hht & Hl');
      [|constructor; try apply Hl; done].
    split; [done|]. exists a. split; [done|]. simpl in Hadd, Hht.
    destruct (im_add_law _ _ _ _ _ _ Hm Hk Hadd) as [-> Hm'].
    assert (∀ k, m !! k = Some (Z.of_nat (length xs)) → False) as Hfresh
      by (intros k Hk'; specialize (Hrange _ _ Hk'); lia).
    split_and!; [done | by rewrite Hht | |].
    + intros k i [[<- <-]|[_ Hk']]%lookup_insert_Some; rewrite length_app; simpl; [lia|].
      specialize (Hrange _ _ Hk'). lia.
    + intros k k' i [[<- <-]|[? Hk1]]%lookup_insert_Some [[? ?]|[? Hk2]]%lookup_insert_Some; subst;
        [done | by destruct (Hfresh k') | by destruct (Hfresh k) | by eapply Hinj].
Qed.
End lists.

Lemma smart_get_spec_witness :
  let L : obj_list Z MamboHt.mambo_ht := MkList [None; None] 0 2 MamboHt.empty8 false in
  let L' : obj_list Z MamboHt.mambo_ht := MkList [Some 0; None] 1 2
    (MamboHt.MkHt 8 1 0 true 90 7 false (<[5%nat := HashEntry 77 0]> (replicate 8 (HashEntry 0 0)))) false in
  let H := mambo_ht_index MamboHt.small_calloc MamboHt.small_calloc_fits eq_refl MamboHt.frozen1 in
  ∃ a, Ok (0 * 0) = Ok a ∧ indexed (H := H) L' ([] ++ [a]) (<[77 := 0]> ∅).
Proof.
  intros L L' H.
  pose proof (smart_get_spec (H := H) (λ n, Ok (n * n)) (λ _, true) L [] ∅ 77) as Hspec.
  rewrite lookup_empty in Hspec. apply (Hspec) with (i := 0) (l' := L').
  - destruct MamboHt.empty8_wf as [Hwf Hm]. split; [|split_and!].
    + constructor; try done. by exists 2%nat.
    + by split_and!.
    + intros k i Hi. by rewrite lookup_empty in Hi.
    + intros k k' i Hi. by rewrite lookup_empty in Hi.
  - done.
  - vm_compute. reflexivity.
Defined.
End RaceLists.
