(* ===== verification/RaceEvents.v ===== *)
(** * The data race plugin (plugins/datarace/datarace.c)

    The events the plugin processes, for any detector, and the comparison of
    the two detectors on whole executions. *)
From S2P Require Import Prelude HashTable VectorClock Detectors RaceInvariant RaceSync RaceLists.
Import VectorClock RaceLists.

Module RaceEvents.

Section plugin.
Context {V I : Type} `{IndexMap I} (D : Detector V) (realloc_ok : Z → bool).

Record plugin_state := MkState {
  threads : obj_list thread_t I;
  locks : obj_list vector_clock_t I;
  variables : obj_list V I
}.

(** The initialisation in [datarace_trace_plugin]. *)
Definition plugin_init : outcome plugin_state :=
  t ← list_init; l ← list_init; v ← list_init; Ok (MkState t l v).

Definition set_threads (t : obj_list thread_t I) (st : plugin_state) : plugin_state :=
  MkState t (locks st) (variables st).

Definition thread_list_smart_get (st : plugin_state) (tid : Z) : outcome (Z * plugin_state) :=
  r ← list_smart_get thread_init realloc_ok (threads st) (u64 tid); Ok (fst r, set_threads (snd r) st).
Definition lock_list_smart_get (st : plugin_state) (addr : Z) : outcome (Z * plugin_state) :=
  r ← list_smart_get (λ _, Ok lock_init) realloc_ok (locks st) addr;
  Ok (fst r, MkState (threads st) (snd r) (variables st)).
Definition variable_list_smart_get (st : plugin_state) (addr : Z) : outcome (Z * plugin_state) :=
  r ← list_smart_get (λ _, d_variable_init) realloc_ok (variables st) addr;
  Ok (fst r, MkState (threads st) (locks st) (snd r)).

(** The two threads may be the same object: the writes are in program order. *)
Definition process_fork (st : plugin_state) (parent_tid child_tid : Z) : outcome plugin_state :=
  c ← thread_list_smart_get st child_tid; let st := snd c in
  if negb (parent_tid =? 0) then
    p ← thread_list_smart_get st parent_tid; let st := snd p in
    child_thread ← deref (threads st) (fst c);
    parent_thread ← deref (threads st) (fst p);
    r ← thread_fork parent_thread child_thread;
    l ← store (threads st) (fst c) (snd r);
    l ← store l (fst p) (fst r);
    Ok (set_threads l st)
  else Ok st.

Definition process_join (st : plugin_state) (parent_tid child_tid : Z) : outcome plugin_state :=
  c ← thread_list_smart_get st child_tid; let st := snd c in
  p ← thread_list_smart_get st parent_tid; let st := snd p in
  child_thread ← deref (threads st) (fst c);
  parent_thread ← deref (threads st) (fst p);
  r ← thread_join parent_thread child_thread;
  l ← store (threads st) (fst p) (fst r);
  l ← store l (fst c) (snd r);
  Ok (set_threads l st).

Definition process_lock (st : plugin_state) (tid addr : Z) : outcome plugin_state :=
  p ← thread_list_smart_get st tid; let st := snd p in
  q ← lock_list_smart_get st addr; let st := snd q in
  thread ← deref (threads st) (fst p);
  lock ← deref (locks st) (fst q);
  t ← lock_acquire lock thread;
  l ← store (threads st) (fst p) t;
  Ok (set_threads l st).

Definition process_unlock (st : plugin_state) (tid addr : Z) : outcome plugin_state :=
  p ← thread_list_smart_get st tid; let st := snd p in
  q ← lock_list_smart_get st addr; let st := snd q in
  thread ← deref (threads st) (fst p);
  lock ← deref (locks st) (fst q);
  r ← lock_release lock thread;
  ll ← store (locks st) (fst q) (fst r);
  l ← store (threads st) (fst p) (snd r);
  Ok (MkState l ll (variables st)).

(** The boolean says whether a race was printed. *)
Definition process_access (update : V → thread_t → outcome (bool * V)) (st : plugin_state)
    (tid addr : Z) : outcome (bool * plugin_state) :=
  p ← thread_list_smart_get st tid; let st := snd p in
  q ← variable_list_smart_get st addr; let st := snd q in
  thread ← deref (threads st) (fst p);
  var ← deref (variables st) (fst q);
  r ← update var thread;
  l ← store (variables st) (fst q) (snd r);
  Ok (negb (fst r), MkState (threads st) (locks st) l).

Definition process_read (st : plugin_state) (tid ld_addr : Z) : outcome (bool * plugin_state) :=
  process_access d_update_read st tid ld_addr.
Definition process_write (st : plugin_state) (tid st_addr : Z) : outcome (bool * plugin_state) :=
  process_access d_update_write st tid st_addr.

Definition handle_read_write (st : plugin_state) (is_load : bool) (tid ld_st_addr : Z)
    : outcome (bool * plugin_state) :=
  if ld_st_addr =? 0 then Ok (false, st)
  else if is_load then process_read st tid ld_st_addr else process_write st tid ld_st_addr.

(** ** Executions *)

Inductive event :=
  | Fork (parent_tid child_tid : Z)
  | Join (parent_tid child_tid : Z)
  | Lock (tid addr : Z)
  | Unlock (tid addr : Z)
  | Access (is_load : bool) (tid addr : Z).

Definition step (e : event) (st : plugin_state) : outcome (bool * plugin_state) :=
  match e with
  | Fork p c => st ← process_fork st p c; Ok (false, st)
  | Join p c => st ← process_join st p c; Ok (false, st)
  | Lock t a => st ← process_lock st t a; Ok (false, st)
  | Unlock t a => st ← process_unlock st t a; Ok (false, st)
  | Access r t a => handle_read_write st r t a
  end.

(** The position of the first event that reports a race. *)
Fixpoint first_race (es : list event) (st : plugin_state) : outcome (option nat) :=
  match es with
  | [] => Ok None
  | e :: es =>
      r ← step e st;
      if (fst r : bool) then Ok (Some 0%nat)
      else n ← first_race es (snd r); Ok (option_map S n)
  end.

Definition run (es : list event) : outcome (option nat) := st ← plugin_init; first_race es st.
End plugin.
Arguments plugin_state : clear implicits.
Arguments MkState {V I}.

(** ** The events on the clocks *)

Lemma alter_insert {A} (f : A → A) i (l : list A) x : l !! i = Some x → alter f i l = <[i := f x]> l.
Proof.
  intros Hi. apply list_eq. intros j. destruct (decide (j = i)) as [->|].
  - by rewrite list_lookup_alter_eq, Hi, list_lookup_insert_eq by by eapply lookup_lt_Some.
  - by rewrite list_lookup_alter_ne, list_lookup_insert_ne.
Qed.

Section clock_events.
Context (C : RaceInvariant.clocks_state) (HC : RaceInvariant.sysinv C).
Implicit Types (t u : thread_t).
Notation ts := RaceInvariant.ts.
Notation ls := RaceInvariant.ls.

Lemma get_thread i t : ts C !! i = Some t → RaceSync.get C (inl i) = Some (vc t).
Proof. intros Hi. simpl. by rewrite Hi. Qed.

Lemma vc_ok_thread i t : ts C !! i = Some t → vc_ok (vc t).
Proof. intros Hi. by eapply (RaceInvariant.si_ok _ HC), RaceInvariant.thread_in. Qed.

Lemma increment_inc i t t' :
  ts C !! i = Some t → thread_increment t = Ok t' → t' = MkThread (idx t) (RaceSync.inc i (vc t)).
Proof.
  intros Hi Ht. unfold thread_increment in Ht. inv_ok.
  pose proof (vc_ok_thread _ _ Hi). pose proof (RaceInvariant.thread_idx_range _ _ _ HC Hi).
  rewrite (RaceInvariant.si_idx _ HC _ _ Hi), increment_ok in Hx by done.
  destruct (_ =? INT_MAX); [done|]. by injection Hx as <-.
Qed.

Lemma update_join u Y u' :
  vc_ok (vc u) → vc_ok Y → thread_update_vc u Y = Ok u' →
  idx u' = idx u ∧ vc_ok (vc u') ∧ is_join (vc u) Y (vc u').
Proof.
  intros Hu HY Hup. unfold thread_update_vc in Hup.
  destruct (update_ok (vc u) Y Hu HY) as (v & Hv & ? & ?). rewrite Hv in Hup. by injection Hup as <-.
Qed.

Lemma insert_thread t' i t X : ts C !! i = Some t → t' = MkThread (idx t) X →
  RaceSync.upd C (inl i) X = RaceInvariant.MkClocks (<[i := t']> (ts C)) (ls C).
Proof. intros Hi ->. unfold RaceSync.upd. by rewrite (alter_insert _ _ _ t) by done. Qed.

(** A thread takes over the clock of another, which then increments its own:
    fork and join. *)
Lemma publish_thread src tgt t u t' u' :
  ts C !! src = Some t → ts C !! tgt = Some u →
  thread_update_vc u (vc t) = Ok u' → thread_increment t = Ok t' →
  let C' := RaceInvariant.MkClocks (<[src := t']> (<[tgt := u']> (ts C))) (ls C) in
  RaceInvariant.sysinv C' ∧ RaceInvariant.evolves C C'.
Proof.
  intros Hs Ht Hu Hi C'. pose proof (increment_inc _ _ _ Hs Hi) as ->.
  pose proof (get_thread _ _ Hs) as Hgs. pose proof (vc_ok_thread _ _ Hs) as Hvs.
  destruct (decide (tgt = src)) as [->|Hne].
  - subst C'. rewrite list_insert_insert_eq. rewrite <- (insert_thread _ _ t _ Hs eq_refl).
    split; [by apply RaceSync.sysinv_inc | by apply RaceSync.evolves_inc].
  - destruct (update_join u (vc t) u') as (Hidx & Hok & Hj); [by eapply vc_ok_thread | done..|].
    assert (C' = RaceSync.published C src (vc t) (inl tgt) (vc u')) as ->.
    { unfold RaceSync.published. rewrite (insert_thread _ _ t _ Hs eq_refl). unfold RaceSync.upd. simpl.
      rewrite (alter_insert _ _ _ u) by by rewrite list_lookup_insert_ne.
      subst C'. rewrite list_insert_insert_ne by done. f_equal. f_equal. rewrite <- Hidx. by destruct u'. }
    split; [eapply RaceSync.sysinv_publish | eapply RaceSync.evolves_publish];
      done || (by apply get_thread) || congruence.
Qed.

Lemma publish_lock src l t L t' L' :
  ts C !! src = Some t → ls C !! l = Some L →
  vector_clock_update L (vc t) = Ok L' → thread_increment t = Ok t' →
  let C' := RaceInvariant.MkClocks (<[src := t']> (ts C)) (<[l := L']> (ls C)) in
  RaceInvariant.sysinv C' ∧ RaceInvariant.evolves C C'.
Proof.
  intros Hs Hl Hu Hi C'. pose proof (increment_inc _ _ _ Hs Hi) as ->.
  pose proof (get_thread _ _ Hs) as Hgs. pose proof (vc_ok_thread _ _ Hs) as Hvs.
  assert (vc_ok L) as HL by (apply (RaceInvariant.si_ok _ HC), RaceInvariant.lock_in; by eapply list_elem_of_lookup_2).
  destruct (update_ok L (vc t) HL Hvs) as (v & Hv & Hok & Hj). rewrite Hu in Hv. injection Hv as <-.
  assert (C' = RaceSync.published C src (vc t) (inr l) L') as ->.
  { unfold RaceSync.published. by rewrite (insert_thread _ _ t _ Hs eq_refl). }
  split; [eapply RaceSync.sysinv_publish | eapply RaceSync.evolves_publish]; done.
Qed.

Lemma acquire_lock i l t L t' :
  ts C !! i = Some t → ls C !! l = Some L → lock_acquire L t = Ok t' →
  let C' := RaceInvariant.MkClocks (<[i := t']> (ts C)) (ls C) in
  RaceInvariant.sysinv C' ∧ RaceInvariant.evolves C C'.
Proof.
  intros Hs Hl Hu C'. pose proof (get_thread _ _ Hs) as Hgs. pose proof (vc_ok_thread _ _ Hs) as Hvs.
  assert (vc_ok L) as HL by (apply (RaceInvariant.si_ok _ HC), RaceInvariant.lock_in; by eapply list_elem_of_lookup_2).
  destruct (update_join t L t' Hvs HL Hu) as (Hidx & Hok & Hj).
  assert (C' = RaceSync.upd C (inl i) (vc t')) as ->.
  { rewrite (insert_thread t' _ t _ Hs); [done|]. rewrite <- Hidx. by destruct t'. }
  split; [eapply (RaceSync.sysinv_acquire _ HC _ _ Hgs (inr l)) |
          eapply (RaceSync.evolves_acquire _ _ _ Hgs (inr l))]; done.
Qed.

Lemma init_thread t :
  thread_init (Z.of_nat (length (ts C))) = Ok t →
  let C' := RaceInvariant.MkClocks (ts C ++ [t]) (ls C) in
  RaceInvariant.sysinv C' ∧ RaceInvariant.evolves C C'.
Proof.
  intros Ht C'. unfold thread_init in Ht.
  destruct (decide (RaceInvariant.nthreads C < VC_INITIAL_SZ)) as [Hn|Hn].
  - rewrite increment_ok in Ht by (apply init_ok || by apply RaceSync.new_range).
    rewrite at_init in Ht by by apply RaceSync.new_range. cbn [Z.eqb mbind outcome_bind Z.add] in Ht.
    injection Ht as <-. change C' with (RaceSync.add_thread C).
    split; [by apply RaceSync.sysinv_add_thread | by apply RaceSync.evolves_add_thread].
  - exfalso. unfold RaceInvariant.nthreads in Hn. unfold vector_clock_increment, with_lock in Ht. simpl in Ht.
    unfold VC_INITIAL_SZ in *. destruct (Z.leb_spec 0 (Z.of_nat (length (ts C)))); [|lia].
    destruct (Z.ltb_spec (Z.of_nat (length (ts C))) 8); [lia|]. done.
Qed.
End clock_events.

(** ** Two detectors side by side *)

(** Both fail in the same way or give related results. *)
Definition same_outcome {A B} (R : A → B → Prop) (m : outcome A) (n : outcome B) : Prop :=
  match m, n with Ok a, Ok b => R a b | Err e, Err e' => e = e' | _, _ => False end.

Lemma same_bind {A B A' B'} (R : A → B → Prop) (R' : A' → B' → Prop) m n f g :
  same_outcome R m n → (∀ a b, m = Ok a → n = Ok b → R a b → same_outcome R' (f a) (g b)) →
  same_outcome R' (m ≫= f) (n ≫= g).
Proof. destruct m, n; simpl; naive_solver. Qed.

Lemma same_refl {A} (m : outcome A) : same_outcome (λ a b, a = b) m m.
Proof. by destruct m. Qed.

(** A computation that both sides share. *)
Lemma same_bind_eq {A A' B'} (R' : A' → B' → Prop) (m : outcome A) f g :
  (∀ a, m = Ok a → same_outcome R' (f a) (g a)) → same_outcome R' (m ≫= f) (m ≫= g).
Proof. destruct m; simpl; naive_solver. Qed.

Section lists.
Context {A B I : Type} `{IndexMap I} (R : A → B → Prop) (realloc_ok : Z → bool).

Record lists_related (l : obj_list A I) (l' : obj_list B I) : Prop := {
  lr_items : Forall2 (option_Forall2 R) (items l) (items l');
  lr_size : size l = size l';
  lr_capacity : capacity l = capacity l';
  lr_index : index_ht l = index_ht l';
  lr_lock : lock l = lock l'
}.

Lemma aget_related (xs : list (option A)) (ys : list (option B)) i :
  Forall2 (option_Forall2 R) xs ys → same_outcome (option_Forall2 R) (aget xs i) (aget ys i).
Proof.
  intros Hf. unfold aget. destruct (i <? 0); [done|]. rewrite Forall2_lookup in Hf.
  specialize (Hf (Z.to_nat i)). by inversion Hf.
Qed.

Lemma aset_related (xs : list (option A)) (ys : list (option B)) i a b :
  Forall2 (option_Forall2 R) xs ys → R a b →
  same_outcome (Forall2 (option_Forall2 R)) (aset xs i (Some a)) (aset ys i (Some b)).
Proof.
  intros Hf Hab. unfold aset. rewrite (Forall2_length _ _ _ Hf). destruct (_ || _); [done|].
  simpl. apply Forall2_insert; [done | by constructor].
Qed.

Lemma deref_related l l' p :
  lists_related l l' → same_outcome R (deref l p) (deref l' p).
Proof.
  intros Hl. unfold deref. eapply same_bind; [apply aget_related, Hl|].
  intros [a|] [b|] _ _ Hab; inversion Hab; done.
Qed.

Lemma store_related l l' p a b :
  lists_related l l' → R a b → same_outcome lists_related (store l p a) (store l' p b).
Proof.
  intros Hl Hab. unfold store. eapply same_bind; [by apply aset_related; [apply Hl|]|].
  intros xs ys _ _ Hxs. simpl. by constructor; [|apply Hl..].
Qed.

Lemma grow_related l l' :
  lists_related l l' → lists_related (list_grow realloc_ok l) (list_grow realloc_ok l').
Proof.
  intros Hl. unfold list_grow. rewrite <- (lr_size _ _ Hl), <- (lr_capacity _ _ Hl).
  destruct (size l =? capacity l); [|done]. constructor; simpl; try done; try apply Hl.
  destruct (realloc_ok _); [|by constructor]. apply Forall2_resize; [constructor | apply Hl].
Qed.

Lemma smart_get_related (new : Z → outcome A) (new' : Z → outcome B) l l' key :
  (∀ n, same_outcome R (new n) (new' n)) → lists_related l l' →
  same_outcome (λ r r', fst r = fst r' ∧ lists_related (snd r) (snd r'))
    (list_smart_get new realloc_ok l key) (list_smart_get new' realloc_ok l' key).
Proof.
  intros Hnew Hl. unfold list_smart_get. rewrite <- (lr_lock _ _ Hl), <- (lr_index _ _ Hl).
  destruct (lock l); [done|]. apply same_bind_eq. intros [[ret index] h] _.
  set (l1 := MkList (items l) _ _ _ _). set (l1' := MkList (items l') _ _ _ _).
  assert (lists_related l1 l1') as Hl1 by (constructor; simpl; try apply Hl; done).
  destruct (ret =? -1).
  - unfold list_append. pose proof (grow_related _ _ Hl1) as Hg.
    rewrite <- (lr_size _ _ Hg), <- (lr_index _ _ Hg), <- (lr_capacity _ _ Hg), <- (lr_lock _ _ Hg).
    eapply same_bind; [apply Hnew|]. intros a b _ _ Hab. apply same_bind_eq. intros r _.
    eapply same_bind; [apply aset_related; [apply Hg | exact Hab]|].
    intros xs ys _ _ Hxs. split; [done|]. by constructor.
  - eapply same_bind; [apply aget_related, Hl|]. intros x y _ _ _. by split.
Qed.
End lists.

Lemma lists_related_mono {A B I : Type} (R R' : A → B → Prop) (l : obj_list A I) (l' : obj_list B I) :
  (∀ a b, R a b → R' a b) → lists_related R l l' → lists_related R' l l'.
Proof.
  intros HR []. constructor; try done. eapply Forall2_impl; [done|].
  intros x y Hxy. inversion Hxy; constructor. by apply HR.
Qed.

Section agreement.
Context {I : Type} `{IndexMap I} (realloc_ok : Z → bool) (mem : bool).
Notation DS := (plugin_state Djit.variable_t I).
Notation FS := (plugin_state FastTrack.variable_t I).
Notation ft := (FastTrack.fasttrack_detector (Some mem)).

Record sim (C : RaceInvariant.clocks_state) (st : DS) (st' : FS) : Prop := {
  sim_threads : threads st = threads st';
  sim_locks : locks st = locks st';
  sim_vars : lists_related (RaceInvariant.related C) (variables st) (variables st');
  sim_inv : RaceInvariant.sysinv C;
  sim_tw : list_wf (threads st) (RaceInvariant.ts C);
  sim_lw : list_wf (locks st) (RaceInvariant.ls C)
}.

Definition stays (st : DS) (st' : FS) : Prop := ∃ C, sim C st st'.
Definition stays_with {A} (r : A * DS) (r' : A * FS) : Prop := fst r = fst r' ∧ stays (snd r) (snd r').

Lemma sim_evolves C C' st st' t l :
  sim C st st' → RaceInvariant.sysinv C' → RaceInvariant.evolves C C' →
  list_wf t (RaceInvariant.ts C') → list_wf l (RaceInvariant.ls C') →
  sim C' (MkState t l (variables st)) (MkState t l (variables st')).
Proof.
  intros Hs Hinv Hev Ht Hl. constructor; simpl; try done.
  eapply lists_related_mono; [|apply Hs]. intros d f Hr. eapply RaceInvariant.related_evolves; try done. apply Hs.
Qed.

Lemma set_threads_sim C C' st st' t :
  sim C st st' → RaceInvariant.sysinv C' → RaceInvariant.evolves C C' →
  list_wf t (RaceInvariant.ts C') → RaceInvariant.ls C' = RaceInvariant.ls C →
  sim C' (set_threads t st) (set_threads t st').
Proof.
  intros Hs Hinv Hev Ht Hl. unfold set_threads. rewrite <- (sim_locks _ _ _ Hs).
  eapply sim_evolves; try done. rewrite Hl. apply Hs.
Qed.

Lemma evolves_refl C : RaceInvariant.evolves C C.
Proof. constructor; [intros i t Ht; by exists t|]. intros X HX t c _ _ Hc. by exists X. Qed.

Lemma get_thread_sim C st st' tid :
  sim C st st' →
  same_outcome stays_with (thread_list_smart_get realloc_ok st tid) (thread_list_smart_get realloc_ok st' tid).
Proof.
  intros Hs. unfold thread_list_smart_get. rewrite <- (sim_threads _ _ _ Hs).
  apply same_bind_eq. intros [i l] Hg. split; [done|]. simpl.
  destruct (smart_get_ok thread_init realloc_ok _ (RaceInvariant.ts C) _ _ _ (sim_tw _ _ _ Hs) Hg)
    as [Hl|(t & Ht & -> & Hl)].
  - exists C. apply (set_threads_sim C); try done; [apply Hs | apply evolves_refl].
  - destruct (init_thread C (sim_inv _ _ _ Hs) t Ht). eexists. by apply (set_threads_sim C).
Qed.

Lemma get_lock_sim C st st' addr :
  sim C st st' →
  same_outcome stays_with (lock_list_smart_get realloc_ok st addr) (lock_list_smart_get realloc_ok st' addr).
Proof.
  intros Hs. unfold lock_list_smart_get. rewrite <- (sim_locks _ _ _ Hs), <- (sim_threads _ _ _ Hs).
  apply same_bind_eq. intros [i l] Hg. split; [done|]. simpl.
  destruct (smart_get_ok (λ _, Ok lock_init) realloc_ok _ (RaceInvariant.ls C) _ _ _ (sim_lw _ _ _ Hs) Hg)
    as [Hl|(L & [= <-] & -> & Hl)].
  - exists C. eapply sim_evolves; try done; [apply Hs | apply evolves_refl | apply Hs].
  - exists (RaceSync.add_lock C). eapply sim_evolves; try done.
    + apply RaceSync.sysinv_add_lock, Hs.
    + apply RaceSync.evolves_add_lock.
    + apply Hs.
Qed.

Lemma get_variable_sim C st st' addr :
  sim C st st' →
  same_outcome (λ r r', fst r = fst r' ∧ sim C (snd r) (snd r'))
    (variable_list_smart_get Djit.djit_detector realloc_ok st addr)
    (variable_list_smart_get ft realloc_ok st' addr).
Proof.
  intros Hs. unfold variable_list_smart_get. eapply same_bind.
  - apply (smart_get_related (RaceInvariant.related C)); [|apply Hs].
    intros _. simpl. apply RaceInvariant.related_init, Hs.
  - intros [i l] [j l'] _ _ [Hij Hl]. split; [done|]. by constructor; simpl; try apply Hs.
Qed.

(** Fork and join: one thread takes over the clock of another. *)
Lemma publish_sim C st st' a b t u t' u' l1 l2 :
  sim C st st' → thread_update_vc u (vc t) = Ok u' → thread_increment t = Ok t' →
  deref (threads st) a = Ok t → deref (threads st) b = Ok u →
  store l1 a t' = Ok l2 → store (threads st) b u' = Ok l1 →
  stays (set_threads l2 st) (set_threads l2 st').
Proof.
  intros Hs Hu Ht Ha Hb H2 H1. pose proof (sim_tw _ _ _ Hs) as Hw.
  apply (deref_ok _ (RaceInvariant.ts C)) in Ha as [Ha Hta], Hb as [Hb Htb]; [|done..].
  destruct (publish_thread C (sim_inv _ _ _ Hs) _ _ _ _ _ _ Hta Htb Hu Ht).
  eexists. apply (set_threads_sim C); try done. simpl.
  pose proof (store_ok _ _ _ _ _ _ Hw Hb Htb H1) as Hw1.
  destruct (decide (Z.to_nat a = Z.to_nat b)) as [Hab|].
  - assert (u = t) as -> by congruence.
    replace a with b in * by lia.
    eapply (store_ok _ _ _ _ _ u'); try done. apply list_lookup_insert_eq. by eapply lookup_lt_Some.
  - eapply (store_ok _ _ _ _ _ t); try done. by rewrite list_lookup_insert_ne.
Qed.
(** One step of a proof that two handlers agree. *)
Ltac agree_thread Hs :=
  eapply same_bind; [eapply get_thread_sim; eassumption|]; intros [? ?] [? ?] _ _ [?E (? & Hs)]; simpl in *; subst.

Lemma process_fork_sim C st st' p c :
  sim C st st' → same_outcome stays (process_fork realloc_ok st p c) (process_fork realloc_ok st' p c).
Proof.
  intros Hs. unfold process_fork. agree_thread Hs1. destruct (negb (p =? 0)); [|by eexists].
  agree_thread Hs2. rewrite <- (sim_threads _ _ _ Hs2).
  apply same_bind_eq. intros u Hu. apply same_bind_eq. intros t Ht.
  apply same_bind_eq. intros [t' u'] Hf. unfold thread_fork in Hf. inv_ok.
  apply same_bind_eq. intros l1 H1. apply same_bind_eq. intros l2 H2. simpl in *. eapply publish_sim; eassumption.
Qed.

Lemma process_join_sim C st st' p c :
  sim C st st' → same_outcome stays (process_join realloc_ok st p c) (process_join realloc_ok st' p c).
Proof.
  intros Hs. unfold process_join. agree_thread Hs1. agree_thread Hs2. rewrite <- (sim_threads _ _ _ Hs2).
  apply same_bind_eq. intros t Ht. apply same_bind_eq. intros u Hu.
  apply same_bind_eq. intros [u' t'] Hf. unfold thread_join in Hf. inv_ok.
  apply same_bind_eq. intros l1 H1. apply same_bind_eq. intros l2 H2. simpl in *. eapply publish_sim; eassumption.
Qed.

Lemma process_lock_sim C st st' tid addr :
  sim C st st' → same_outcome stays (process_lock realloc_ok st tid addr) (process_lock realloc_ok st' tid addr).
Proof.
  intros Hs. unfold process_lock. agree_thread Hs1.
  eapply same_bind; [eapply get_lock_sim; eassumption|]. intros [? ?] [? ?] _ _ [E2 (C2 & Hs2)]. simpl in *. subst.
  rewrite <- (sim_threads _ _ _ Hs2), <- (sim_locks _ _ _ Hs2).
  apply same_bind_eq. intros t Ht. apply same_bind_eq. intros L HL.
  apply same_bind_eq. intros t' Ht'. apply same_bind_eq. intros l Hl.
  pose proof (sim_tw _ _ _ Hs2) as Hw.
  apply (deref_ok _ (RaceInvariant.ts C2)) in Ht as [Hp Ht]; [|done].
  apply (deref_ok _ (RaceInvariant.ls C2)) in HL as [Hq HL]; [|apply Hs2].
  destruct (acquire_lock C2 (sim_inv _ _ _ Hs2) _ _ _ _ _ Ht HL Ht').
  eexists. apply (set_threads_sim C2); try done. eapply store_ok; eassumption.
Qed.

Lemma process_unlock_sim C st st' tid addr :
  sim C st st' →
  same_outcome stays (process_unlock realloc_ok st tid addr) (process_unlock realloc_ok st' tid addr).
Proof.
  intros Hs. unfold process_unlock. agree_thread Hs1.
  eapply same_bind; [eapply get_lock_sim; eassumption|]. intros [? ?] [? ?] _ _ [E2 (C2 & Hs2)]. simpl in *. subst.
  rewrite <- (sim_threads _ _ _ Hs2), <- (sim_locks _ _ _ Hs2).
  apply same_bind_eq. intros t Ht. apply same_bind_eq. intros L HL.
  apply same_bind_eq. intros [L' t'] Hr. unfold lock_release in Hr. inv_ok.
  apply same_bind_eq. intros ll Hll. apply same_bind_eq. intros l Hl.
  pose proof (sim_tw _ _ _ Hs2) as Hw. pose proof (sim_lw _ _ _ Hs2) as Hlw.
  apply (deref_ok _ (RaceInvariant.ts C2)) in Ht as [Hp Ht]; [|done].
  apply (deref_ok _ (RaceInvariant.ls C2)) in HL as [Hq HL]; [|done].
  destruct (publish_lock C2 (sim_inv _ _ _ Hs2) _ _ _ _ _ _ Ht HL Hx Hx0).
  eexists. eapply sim_evolves; try done; eapply store_ok; eassumption.
Qed.

(** An access: the same answer, and related states if there is no race. *)
Definition stays_unless_race (r : bool * DS) (r' : bool * FS) : Prop :=
  fst r = fst r' ∧ (fst r = false → stays (snd r) (snd r')).

Lemma process_access_sim C st st' upd_d upd_f tid addr :
  (∀ C i t d f, RaceInvariant.sysinv C → RaceInvariant.ts C !! i = Some t → RaceInvariant.related C d f →
     RaceInvariant.agree C (upd_d d t) (upd_f f t)) →
  sim C st st' →
  same_outcome stays_unless_race
    (process_access Djit.djit_detector realloc_ok upd_d st tid addr)
    (process_access ft realloc_ok upd_f st' tid addr).
Proof.
  intros Hupd Hs. unfold process_access. agree_thread Hs1.
  eapply same_bind; [eapply get_variable_sim; eassumption|]. intros [? ?] [? ?] _ _ [E2 Hs2]. simpl in *. subst.
  rewrite <- (sim_threads _ _ _ Hs2). apply same_bind_eq. intros t Ht.
  eapply same_bind; [apply deref_related, (sim_vars _ _ _ Hs2)|]. intros d f _ _ Hdf.
  apply (deref_ok _ (RaceInvariant.ts x)) in Ht as [_ Ht]; [|apply Hs2].
  destruct (Hupd _ _ _ _ _ (sim_inv _ _ _ Hs2) Ht Hdf) as (b & d' & f' & -> & -> & Hb).
  cbn [mbind outcome_bind fst snd]. destruct b.
  - eapply same_bind; [apply store_related; [apply Hs2 | by apply Hb]|].
    intros l l' _ _ Hl. split; [done|]. intros _. exists x. simpl. constructor; simpl; try done; try apply Hs2.
  - eapply same_bind.
    + apply (store_related (λ _ _, True)); [|done]. eapply lists_related_mono; [|apply Hs2]. done.
    + intros l l' _ _ _. by split.
Qed.

Lemma step_sim C st st' e :
  sim C st st' →
  same_outcome stays_unless_race (step Djit.djit_detector realloc_ok e st) (step ft realloc_ok e st').
Proof.
  intros Hs. assert (∀ m m', same_outcome stays m m' → same_outcome stays_unless_race
    (st ← m; Ok (false, st)) (st ← m'; Ok (false, st))) as Hret.
  { intros m m' Hm. eapply same_bind; [exact Hm|]. intros a b _ _ Hab. by split. }
  destruct e as [p c|p c|t a|t a|r t a]; simpl.
  - by eapply Hret, process_fork_sim.
  - by eapply Hret, process_join_sim.
  - by eapply Hret, process_lock_sim.
  - by eapply Hret, process_unlock_sim.
  - unfold handle_read_write. destruct (a =? 0); [split; [done|]; intros _; by exists C|].
    destruct r; eapply process_access_sim; try done; intros; [by eapply RaceInvariant.read_agree|].
    by eapply RaceInvariant.write_agree.
Qed.

Lemma first_race_sim es : ∀ C st st',
  sim C st st' → first_race Djit.djit_detector realloc_ok es st = first_race ft realloc_ok es st'.
Proof.
  induction es as [|e es IH]; intros C st st' Hs; simpl; [done|].
  pose proof (step_sim C st st' e Hs) as Hstep.
  destruct (step Djit.djit_detector realloc_ok e st) as [[b s1]|f1],
    (step ft realloc_ok e st') as [[b' s1']|f2]; simpl in *; try done; [|by subst].
  destruct Hstep as [Hb Hst]. simpl in Hb, Hst. subst b'. destruct b; [done|].
  destruct (Hst eq_refl) as [C1 Hs1]. by rewrite (IH C1 s1 s1').
Qed.

Lemma init_sim :
  same_outcome (λ st st', ∃ C, sim C st st') (@plugin_init Djit.variable_t I _) (@plugin_init FastTrack.variable_t I _).
Proof.
  unfold plugin_init. apply same_bind_eq. intros t Ht. apply same_bind_eq. intros l Hl.
  eapply same_bind with (R := lists_related (λ _ _, False)).
  { unfold list_init. apply same_bind_eq. intros h _. constructor; simpl; try done. by repeat constructor. }
  intros v v' _ _ Hv. exists (RaceInvariant.MkClocks [] []). constructor; simpl; try done.
  - by eapply lists_related_mono; [|exact Hv].
  - constructor; simpl; try done; try (intros; lia).
    all: intros; set_solver.
  - by apply init_wf.
  - by apply init_wf.
Qed.

(** C9. FastTrack and DJIT+ agree up to the first race: for every execution of
    the program - any sequence of forks, joins, lock and unlock operations,
    reads and writes - run from the initial state, both builds of the plugin
    report their first race at the same event, or neither reports one, or both
    stop with the same fault (too many threads, an overflow, a table that
    cannot grow). This is for either value that the uninitialised field
    [is_shared] of FastTrack's variables may contain. *)
Theorem fasttrack_first_race_agrees es :
  run (H := H) Djit.djit_detector realloc_ok es = run (H := H) ft realloc_ok es.
Proof.
  unfold run. pose proof init_sim as Hi.
  destruct (@plugin_init Djit.variable_t I H) as [st|f1],
    (@plugin_init FastTrack.variable_t I H) as [st'|f2]; simpl in *; try done; [|by subst].
  destruct Hi as [C Hs]. by eapply first_race_sim.
Qed.
End agreement.

(** ** The uninitialised field *)

(** FastTrack reads [is_shared] before anything writes it: [variable_init]
    leaves the field as [malloc] returned it, and the first access to a
    variable, read or write, by any thread depends on it. *)
Theorem fasttrack_reads_uninitialised t :
  vc_ok (vc t) → 0 ≤ idx t < VC_INITIAL_SZ → 1 ≤ at_ (vc t) (idx t) →
  FastTrack.variable_update_read (FastTrack.variable_init None) t = Err Uninitialised
  ∧ FastTrack.variable_update_write (FastTrack.variable_init None) t = Err Uninitialised.
Proof.
  intros Hok Hr Hc.
  assert (FastTrack.same_epoch FastTrack.epoch_init t = Ok false) as Hsame.
  { unfold FastTrack.same_epoch, thread_get_clock. rewrite get_ok by done. cbn [mbind outcome_bind].
    cbn [FastTrack.epoch_init FastTrack.thread_idx FastTrack.clock]. destruct (Z.eqb_spec 0 (idx t)); [|done].
    by destruct (Z.eqb_spec 0 (at_ (vc t) (idx t))); [lia|]. }
  split.
  - unfold FastTrack.variable_update_read. simpl. by rewrite Hsame.
  - unfold FastTrack.variable_update_write. simpl. rewrite Hsame. cbn [mbind outcome_bind].
    unfold FastTrack.epoch_happens_before_vc. rewrite (ok_size _ Hok). cbn.
    assert (vector_clock_get (vc t) 0 = Ok (at_ (vc t) 0)) as E by by apply get_ok. rewrite E. cbn.
    pose proof (at_nonneg (vc t) 0 Hok ltac:(done)). by tests [(0 <=? at_ (vc t) 0, true)].
Qed.

Lemma fasttrack_reads_uninitialised_witness :
  FastTrack.variable_update_read (FastTrack.variable_init None)
    (MkThread 1 (put (vector_clock_init 8) 1 1)) = Err Uninitialised.
Proof.
  apply (fasttrack_reads_uninitialised (MkThread 1 (put (vector_clock_init 8) 1 1))).
  - apply put_ok; [apply init_ok | lia].
  - simpl. unfold VC_INITIAL_SZ. lia.
  - simpl. rewrite at_put; [simpl; lia | apply init_ok | unfold VC_INITIAL_SZ; lia..].
Defined.

(** ** An execution *)

Definition example_index : IndexMap MamboHt.mambo_ht :=
  mambo_ht_index MamboHt.small_calloc MamboHt.small_calloc_fits eq_refl MamboHt.frozen1.

(** Two threads write to a variable without synchronisation. *)
Definition example_events : list event := [Fork 0 11; Fork 11 12; Access false 11 64; Access false 12 64].

Lemma fasttrack_first_race_agrees_witness :
  run (H := example_index) (FastTrack.fasttrack_detector (Some true)) (λ _, true) example_events = Ok (Some 3%nat).
Proof.
  rewrite <- (fasttrack_first_race_agrees (H := example_index) (λ _, true) true example_events).
  vm_compute. reflexivity.
Defined.

(** The same with the writes in a critical section. *)
Lemma locked_writes_do_not_race :
  run (H := example_index) Djit.djit_detector (λ _, true)
    [Fork 0 11; Fork 11 12; Lock 11 100; Access false 11 64; Unlock 11 100;
     Lock 12 100; Access false 12 64; Unlock 12 100] = Ok None.
Proof. vm_compute. reflexivity. Qed.

End RaceEvents.
