(* ===== verification/RiscvImm.v ===== *)
(** * Immediate fields of RISC-V instructions (scanner_public.h,
      arch/riscv/scanner_riscv.c, api/load_store.c)

    RISC-V scatters the bits of immediates over instruction fields. The scanner
    decodes the immediates of branches and jumps, the emitter builds the fields
    of branches, jumps and stack accesses, and the plugin API decodes the
    offsets of compressed loads and stores. The file relates the three. *)
From S2P Require Import Prelude.

Module RiscvImm.

(** [(from >> pos) & ((1 << bits) - 1)] on a uintptr_t. *)
Definition extr (bits pos from : Z) : Z :=
  Z.land (Z.shiftr (u64 from) pos) (u64 (Z.shiftl 1 bits - 1)).

(** [C = (-1) << (bits - 1); (value + C) ^ C], in 64 and in 32 bits. [-1] is an
    int: the shifts are defined for [bits] up to 32, as in all calls. *)
Definition sign_extend (bits value : Z) : Z :=
  let C := Z.shiftl (-1) (bits - 1) in s64 (Z.lxor (u64 (value + C)) (u64 C)).
Definition sign_extend64 (bits value : Z) : Z :=
  let C := Z.shiftl (-1) (bits - 1) in Z.lxor (u64 (value + C)) (u64 C).
Definition sign_extend32 (bits value : Z) : Z :=
  let C := Z.shiftl (-1) (bits - 1) in s32 (Z.lxor (u32 (value + C)) (u32 C)).

(** ** Decoding *)

Definition riscv_decode_cj_imm (imm : Z) : Z :=
  sign_extend 12
    (Z.shiftl (extr 3 1 imm) 1 + Z.shiftl (extr 1 9 imm) 4 + Z.shiftl (extr 1 0 imm) 5
     + Z.shiftl (extr 1 5 imm) 6 + Z.shiftl (extr 1 4 imm) 7 + Z.shiftl (extr 2 7 imm) 8
     + Z.shiftl (extr 1 6 imm) 10 + Z.shiftl (extr 1 10 imm) 11).

Definition riscv_decode_cb_offset (immhi immlo : Z) : Z :=
  sign_extend 9
    (Z.shiftl (extr 2 1 immlo) 1 + Z.shiftl (extr 2 0 immhi) 3 + Z.shiftl (extr 1 0 immlo) 5
     + Z.shiftl (extr 2 3 immlo) 6 + Z.shiftl (extr 1 2 immhi) 8).

Definition riscv_decode_b_imm (immhi immlo : Z) : Z :=
  sign_extend 13
    (Z.shiftl (extr 4 1 immlo) 1 + Z.shiftl (extr 6 0 immhi) 5 + Z.shiftl (extr 1 0 immlo) 11
     + Z.shiftl (extr 1 6 immhi) 12).

Definition riscv_decode_j_imm (imm : Z) : Z :=
  sign_extend 21
    (Z.shiftl (extr 10 9 imm) 1 + Z.shiftl (extr 1 8 imm) 11 + Z.shiftl (extr 8 0 imm) 12
     + Z.shiftl (extr 1 19 imm) 20).

(** ** Encoding: [riscv_imm_pair_t], or [None] for -1. *)

Record riscv_imm_pair_t := MkPair { immhi : Z; immlo : Z }.

Definition riscv_create_cb_imm_pair (offset : Z) : option riscv_imm_pair_t :=
  if negb (Z.land offset 1 =? 0) || (offset <? -256) || (256 <=? offset) then None
  else Some (MkPair (Z.shiftl (extr 1 8 offset) 2 + extr 2 3 offset)
                    (Z.shiftl (extr 2 6 offset) 4 + Z.shiftl (extr 2 1 offset) 1 + extr 1 5 offset)).

Definition riscv_create_b_imm_pair (offset : Z) : option riscv_imm_pair_t :=
  if negb (Z.land offset 1 =? 0) || (offset <? -4096) || (4096 <=? offset) then None
  else Some (MkPair (extr 6 5 offset + Z.shiftl (extr 1 12 offset) 6)
                    (extr 1 11 offset + Z.shiftl (extr 4 1 offset) 1)).

Definition riscv_create_clwsp_imm_pair (offset : Z) : option riscv_imm_pair_t :=
  if negb (Z.land offset 3 =? 0) || (0xFF <? offset) then None
  else Some (MkPair (extr 1 5 offset) (extr 2 6 offset + Z.shiftl (extr 3 2 offset) 2)).

Definition riscv_create_cldsp_imm_pair (offset : Z) : option riscv_imm_pair_t :=
  if negb (Z.land offset 7 =? 0) || (0x1FF <? offset) then None
  else Some (MkPair (extr 1 5 offset) (extr 3 6 offset + Z.shiftl (extr 2 3 offset) 3)).

Definition riscv_create_c_addi16sp_pair (offset : Z) : option riscv_imm_pair_t :=
  if negb (Z.land offset 0xF =? 0) || (offset <? -512) || (512 <=? offset) then None
  else Some (MkPair (extr 1 9 offset)
                    (Z.shiftl (extr 1 4 offset) 4 + Z.shiftl (extr 1 6 offset) 3
                     + Z.shiftl (extr 2 7 offset) 1 + extr 1 5 offset)).

(** The field of JAL, in [riscv_jal_helper]. *)
Definition jal_field (offset : Z) : Z :=
  Z.shiftl (extr 10 1 offset) 9 + Z.shiftl (extr 1 11 offset) 8 + Z.shiftl (extr 8 12 offset) 0
  + Z.shiftl (extr 1 20 offset) 19.
Definition jal_in_range (offset : Z) : bool :=
  negb (negb (Z.land offset 1 =? 0) || (offset <? -1024 * 1024) || (1024 * 1024 <=? offset)).

(** ** Offsets of loads and stores (api/load_store.c) *)

Definition __riscv_c_word_offset (uimmhi uimmlo : Z) : Z :=
  u32 (Z.lor (Z.lor (Z.shiftl uimmhi 3) (Z.shiftl (Z.land uimmlo 0x1) 6)) (Z.shiftl (Z.land uimmlo 0x2) 1)).
Definition __riscv_c_doubleword_offset (uimmhi uimmlo : Z) : Z :=
  u32 (Z.lor (Z.shiftl uimmhi 3) (Z.shiftl uimmlo 6)).
Definition __riscv_c_spword_load_offset (uimmhi uimmlo : Z) : Z :=
  u32 (Z.lor (Z.lor (Z.shiftl uimmhi 5) (Z.shiftl (Z.land uimmlo 0x3) 6)) (Z.land uimmlo 0x1C)).
Definition __riscv_c_spdoubleword_load_offset (uimmhi uimmlo : Z) : Z :=
  u32 (Z.lor (Z.lor (Z.shiftl uimmhi 5) (Z.shiftl (Z.land uimmlo 0x7) 6)) (Z.land uimmlo 0x18)).
Definition __riscv_c_spword_store_offset (uimm : Z) : Z :=
  u32 (Z.lor (Z.shiftl (Z.land uimm 0x3) 6) (Z.land uimm 0x1C)).
Definition __riscv_c_spdoubleword_store_offset (uimm : Z) : Z :=
  u32 (Z.lor (Z.shiftl (Z.land uimm 0x7) 6) (Z.land uimm 0x18)).
Definition __riscv_store_offset (immhi immlo : Z) : Z :=
  u32 (sign_extend64 12 (Z.lor (u32 (Z.shiftl immhi 5)) immlo)).
Definition __riscv_load_offset (imm : Z) : Z := u32 (sign_extend64 12 imm).

(** ** Fields as remainders *)

Lemma extr_alt bits pos x :
  0 ≤ bits ≤ 32 → 0 ≤ pos → extr bits pos x = (u64 x / 2 ^ pos) mod 2 ^ bits.
Proof.
  intros Hb Hp. unfold extr. rewrite Z.shiftl_1_l, Z.shiftr_div_pow2 by lia.
  assert (1 ≤ 2 ^ bits ≤ 2 ^ 32).
  { split; [pose proof (Z.pow_pos_nonneg 2 bits); lia | apply Z.pow_le_mono_r; lia]. }
  rewrite (u64_small (2 ^ bits - 1)) by lia. apply land_pow2_mask. lia.
Qed.

Lemma extr_range bits pos x : 0 ≤ bits ≤ 32 → 0 ≤ pos → 0 ≤ extr bits pos x < 2 ^ bits.
Proof. intros. rewrite extr_alt by done. apply Z.mod_pos_bound, Z.pow_pos_nonneg; lia. Qed.

(** [(v + C) ^ C] flips the sign bit back. *)
Lemma lxor_mod x y w :
  0 ≤ w → Z.lxor (x mod 2 ^ w) (y mod 2 ^ w) = Z.lxor x y mod 2 ^ w.
Proof.
  intros Hw. apply Z.bits_inj'. intros n Hn. rewrite Z.lxor_spec.
  destruct (decide (n < w)); [by rewrite !Z.mod_pow2_bits_low, Z.lxor_spec by lia|].
  by rewrite !Z.mod_pow2_bits_high by lia.
Qed.

Lemma testbit_opp_pow2 k n : 0 ≤ k → 0 ≤ n → Z.testbit (- 2 ^ k) n = (k <=? n).
Proof.
  intros Hk Hn. replace (- 2 ^ k) with (Z.lnot (Z.ones k)) by (rewrite Z.ones_equiv; unfold Z.lnot; lia).
  rewrite Z.lnot_spec, Z.testbit_ones_nonneg by lia.
  destruct (Z.ltb_spec n k), (Z.leb_spec k n); try lia; done.
Qed.

Lemma testbit_small k x n : 0 ≤ k → 0 ≤ x < 2 ^ k → k ≤ n → Z.testbit x n = false.
Proof. intros Hk Hx Hn. rewrite <- (Z.mod_small x (2 ^ k)) by done. apply Z.mod_pow2_bits_high. lia. Qed.

Lemma testbit_sub_pow2 k x n :
  0 ≤ k → 0 ≤ x < 2 ^ k → 0 ≤ n → Z.testbit (x - 2 ^ k) n = (if k <=? n then true else Z.testbit x n).
Proof.
  intros Hk Hx Hn.
  replace (x - 2 ^ k) with (Z.lor x (- 2 ^ k)).
  - rewrite Z.lor_spec, testbit_opp_pow2 by done.
    destruct (Z.leb_spec k n); [apply orb_true_r | apply orb_false_r].
  - rewrite <- Z.add_opp_r. symmetry. rewrite Z.add_nocarry_lxor.
    + apply Z.bits_inj'. intros m Hm. rewrite Z.lxor_spec, Z.lor_spec, testbit_opp_pow2 by done.
      destruct (Z.leb_spec k m); [by rewrite (testbit_small k) by lia|]. by rewrite xorb_false_r, orb_false_r.
    + apply Z.bits_inj'. intros m Hm. rewrite Z.land_spec, Z.bits_0, testbit_opp_pow2 by done.
      destruct (Z.leb_spec k m); [by rewrite (testbit_small k) by lia | apply andb_false_r].
Qed.

Lemma lxor_sign bits v :
  0 < bits → 0 ≤ v < 2 ^ bits →
  Z.lxor (v + - 2 ^ (bits - 1)) (- 2 ^ (bits - 1)) = signed bits v.
Proof.
  intros Hb Hv. unfold signed. rewrite Z.mod_small by done.
  assert (2 ^ bits = 2 * 2 ^ (bits - 1)) as Hp by (rewrite <- Z.pow_succ_r by lia; f_equal; lia).
  rewrite Z.add_opp_r. apply Z.bits_inj'. intros n Hn. rewrite Z.lxor_spec, testbit_opp_pow2 by lia.
  destruct (Z.ltb_spec v (2 ^ (bits - 1))) as [Hlt|Hge].
  - rewrite testbit_sub_pow2 by lia. destruct (Z.leb_spec (bits - 1) n); [|apply xorb_false_r].
    by rewrite (testbit_small (bits - 1)) by lia.
  - replace (v - 2 ^ bits) with ((v - 2 ^ (bits - 1)) - 2 ^ (bits - 1)) by lia.
    rewrite (testbit_sub_pow2 (bits - 1) (v - 2 ^ (bits - 1))) by lia. destruct (Z.leb_spec (bits - 1) n); [|apply xorb_false_r].
    by rewrite (testbit_small (bits - 1)) by lia.
Qed.

Lemma shiftl_m1 k : 0 ≤ k → Z.shiftl (-1) k = - 2 ^ k.
Proof. intros. rewrite Z.shiftl_mul_pow2 by done. lia. Qed.

Lemma sign_extend64_signed bits v :
  0 < bits → 0 ≤ v < 2 ^ bits → sign_extend64 bits v = u64 (signed bits v).
Proof.
  intros Hb Hv. unfold sign_extend64, u64. rewrite lxor_mod by done.
  rewrite shiftl_m1 by lia. by rewrite lxor_sign.
Qed.

Lemma sign_extend_signed bits v :
  0 < bits ≤ 64 → 0 ≤ v < 2 ^ bits → sign_extend bits v = signed bits v.
Proof.
  intros Hb Hv. unfold sign_extend. fold (sign_extend64 bits v). rewrite sign_extend64_signed by lia.
  pose proof (signed_range bits v). 
  assert (2 ^ (bits - 1) ≤ 2 ^ 63) by (apply Z.pow_le_mono_r; lia).
  rewrite <- (s64_small (signed bits v)) at 2 by lia.
  unfold s64, signed at 1 3, u64. by rewrite Zmod_mod.
Qed.

Lemma sign_extend32_signed bits v :
  0 < bits ≤ 32 → 0 ≤ v < 2 ^ bits → sign_extend32 bits v = signed bits v.
Proof.
  intros Hb Hv. unfold sign_extend32, u32. rewrite lxor_mod by done.
  rewrite shiftl_m1 by lia. rewrite lxor_sign by lia.
  pose proof (signed_range bits v).
  assert (2 ^ (bits - 1) ≤ 2 ^ 31) by (apply Z.pow_le_mono_r; lia).
  rewrite <- (s32_small (signed bits v)) at 2 by lia.
  unfold s32, signed at 1 3. by rewrite Zmod_mod.
Qed.

(** ** Round trips *)

Lemma split_field x a b :
  0 ≤ a → 0 ≤ b → x mod 2 ^ (a + b) = x mod 2 ^ a + (x / 2 ^ a) mod 2 ^ b * 2 ^ a.
Proof.
  intros Ha Hb. rewrite Z.pow_add_r by done. rewrite Z.rem_mul_r; [lia| |].
  - pose proof (Z.pow_pos_nonneg 2 a). lia.
  - apply Z.pow_pos_nonneg; lia.
Qed.

Lemma u64_mod x k : 0 ≤ k ≤ 64 → u64 x mod 2 ^ k = x mod 2 ^ k.
Proof. intros. unfold u64. apply Z.mod_mod_divide. exists (2 ^ (64 - k)).
  rewrite <- Z.pow_add_r by lia. f_equal. lia.
Qed.

(** A field of a sum of fields. *)
Lemma extr_sum bits pos hi mid lo :
  0 ≤ bits ≤ 32 → 0 ≤ pos → 0 ≤ lo < 2 ^ pos → 0 ≤ mid < 2 ^ bits →
  0 ≤ hi → lo + mid * 2 ^ pos + hi * 2 ^ (pos + bits) < 2 ^ 64 →
  extr bits pos (lo + mid * 2 ^ pos + hi * 2 ^ (pos + bits)) = mid.
Proof.
  intros Hb Hp Hlo Hmid Hhi Hfit. rewrite extr_alt by done.
  assert (0 < 2 ^ pos) by (apply Z.pow_pos_nonneg; lia).
  rewrite u64_small by (rewrite Z.pow_add_r in * by lia; nia).
  rewrite Z.pow_add_r by lia.
  replace (lo + mid * 2 ^ pos + hi * (2 ^ pos * 2 ^ bits)) with (lo + (mid + hi * 2 ^ bits) * 2 ^ pos) by lia.
  rewrite Z.div_add, Z.div_small, Z.add_0_l, Z.mod_add by lia. by apply Z.mod_small.
Qed.

Lemma even_land o : (Z.land o 1 =? 0) = Z.even o.
Proof. rewrite land_1, Zmod_even. by destruct (Z.even o). Qed.

(** The signed reading of the low bits of a number in range. *)
Lemma signed_mod w o : 0 < w → - 2 ^ (w - 1) ≤ o < 2 ^ (w - 1) → signed w (o mod 2 ^ w) = o.
Proof. intros Hw Ho. rewrite <- (signed_small w o) at 2 by done. unfold signed. by rewrite Zmod_mod. Qed.

(** The fields of an even offset, in the order of their positions. *)
Lemma mod_even o : Z.even o = true → o mod 2 ^ 1 = 0.
Proof. intros He. change (2 ^ 1) with 2. by rewrite Zmod_even, He. Qed.

Lemma decode_jal_field o :
  Z.even o = true → - 2 ^ 20 ≤ o < 2 ^ 20 →
  0 ≤ jal_field o < 2 ^ 20 ∧ riscv_decode_j_imm (jal_field o) = o.
Proof.
  intros He Ho.
  pose proof (extr_range 10 1 o) as H1. pose proof (extr_range 1 11 o) as H2.
  pose proof (extr_range 8 12 o) as H3. pose proof (extr_range 1 20 o) as H4.
  assert (o mod 2 ^ 21 = extr 10 1 o * 2 ^ 1 + extr 1 11 o * 2 ^ 11 + extr 8 12 o * 2 ^ 12 + extr 1 20 o * 2 ^ 20) as Hsum.
  { rewrite !extr_alt by lia. rewrite <- (u64_mod o 21) by lia.
    change 21 with (20 + 1). rewrite (split_field _ 20 1) by lia. change 20 with (12 + 8) at 1.
    rewrite (split_field _ 12 8) by lia. change 12 with (11 + 1) at 1. rewrite (split_field _ 11 1) by lia.
    change 11 with (1 + 10) at 1. rewrite (split_field _ 1 10) by lia.
    rewrite u64_mod, mod_even by (lia || done). lia. }
  unfold jal_field. rewrite !Z.shiftl_mul_pow2 by lia.
  remember (extr 10 1 o) as a. remember (extr 1 11 o) as b. remember (extr 8 12 o) as c. remember (extr 1 20 o) as d.
  clear Heqa Heqb Heqc Heqd.
  split; [lia|]. unfold riscv_decode_j_imm. rewrite !Z.shiftl_mul_pow2 by lia.
  set (x := a * 2 ^ 9 + b * 2 ^ 8 + c * 2 ^ 0 + d * 2 ^ 19).
  assert (extr 10 9 x = a) as -> by (rewrite <- (extr_sum 10 9 d a (b * 2 ^ 8 + c)) by lia; f_equal; lia).
  assert (extr 1 8 x = b) as -> by (rewrite <- (extr_sum 1 8 (a + d * 2 ^ 10) b c) by lia; f_equal; lia).
  assert (extr 8 0 x = c) as -> by (rewrite <- (extr_sum 8 0 (b + a * 2 + d * 2 ^ 11) c 0) by lia; f_equal; lia).
  assert (extr 1 19 x = d) as -> by (rewrite <- (extr_sum 1 19 0 d (a * 2 ^ 9 + b * 2 ^ 8 + c)) by lia; f_equal; lia).
  rewrite <- Hsum. rewrite sign_extend_signed by (lia || (pose proof (Z.mod_pos_bound o (2 ^ 21)); lia)).
  apply signed_mod; lia.
Qed.

(** For the short fields all offsets are tried. *)
Definition forall_range (lo n : Z) (f : Z → bool) : bool := forallb f (seqZ lo n).

Lemma forall_range_spec lo n f x : forall_range lo n f = true → lo ≤ x < lo + n → f x = true.
Proof.
  intros Hf Hx. unfold forall_range in Hf. rewrite forallb_forall in Hf. apply Hf.
  apply list_elem_of_In, elem_of_seqZ. lia.
Qed.

(** An even offset of [k + 1] bits. *)
Definition fits (k o : Z) : Prop := Z.even o = true ∧ - 2 ^ k ≤ o < 2 ^ k.

(** The pair stands for the offset: fields of the widths of the encoding that
    the decoder reads back. *)
Definition stands_for (whi wlo : Z) (decode : Z → Z → Z) (o : Z) (p : option riscv_imm_pair_t) : Prop :=
  ∃ q, p = Some q ∧ 0 ≤ immhi q < 2 ^ whi ∧ 0 ≤ immlo q < 2 ^ wlo ∧ decode (immhi q) (immlo q) = o.

Definition stands_for_b (whi wlo : Z) (decode : Z → Z → Z) (o : Z) (p : option riscv_imm_pair_t) : bool :=
  match p with
  | Some q => (0 <=? immhi q) && (immhi q <? 2 ^ whi) && (0 <=? immlo q) && (immlo q <? 2 ^ wlo)
              && (decode (immhi q) (immlo q) =? o)
  | None => false
  end.

Lemma stands_for_b_spec whi wlo decode o p :
  stands_for_b whi wlo decode o p = true → stands_for whi wlo decode o p.
Proof.
  unfold stands_for_b, stands_for. destruct p as [q|]; [|done]. rewrite !andb_true_iff. intros H. exists q.
  split_and!; [done | lia..].
Qed.

(** Any codec of pairs whose domain is small enough to try. *)
Lemma stands_for_range lo n (P : Z → bool) whi wlo decode create o :
  forall_range lo n (λ o, implb (P o) (stands_for_b whi wlo decode o (create o))) = true →
  lo ≤ o < lo + n → P o = true → stands_for whi wlo decode o (create o).
Proof.
  intros Hf Ho HP. apply stands_for_b_spec. pose proof (forall_range_spec _ _ _ _ Hf Ho) as H. simpl in H.
  by rewrite HP in H.
Qed.



(** The offset that an encoded C.BEQZ has: the encoder keeps five bits of
    [immlo]. *)
Definition encoded_cb_offset (o : Z) : option Z :=
  p ← riscv_create_cb_imm_pair o; Some (riscv_decode_cb_offset (immhi p) (extr 5 0 (immlo p))).

(** The encoder of C.BEQZ and C.BNEZ shifts bits 7:6 of the offset one
    place too far: of the even offsets in reach (+-256 bytes) it encodes
    exactly those with both bits zero, and for every other one the branch goes
    somewhere else. *)
Theorem c_branch_offset_wrong o :
  (fits 8 o → ∃ o', encoded_cb_offset o = Some o' ∧ (o' = o ↔ 0 ≤ o < 64 ∨ -256 ≤ o < -192))
  ∧ (¬ fits 8 o → encoded_cb_offset o = None).
Proof.
  unfold fits. split.
  - intros [He Ho].
    assert (forall_range (-256) 512 (λ o, implb (Z.even o)
      (match encoded_cb_offset o with
       | Some o' => Bool.eqb (o' =? o) ((0 <=? o) && (o <? 64) || (-256 <=? o) && (o <? -192))
       | None => false
       end)) = true) as Hall by by vm_compute.
    pose proof (forall_range_spec _ _ _ o Hall ltac:(lia)) as Hx. simpl in Hx. rewrite He in Hx. simpl in Hx.
    destruct (encoded_cb_offset o) as [o'|]; [|done]. exists o'. split; [done|].
    apply eqb_prop in Hx. destruct (Z.eqb_spec o' o); lia.
  - intros Hn. unfold encoded_cb_offset, riscv_create_cb_imm_pair. rewrite even_land.
    destruct (Z.even o); [|done]. simpl. case_bool_Z; simpl; try done; destruct Hn; split; (done || lia).
Qed.

Lemma c_branch_offset_wrong_witness :
  ∃ o', encoded_cb_offset 64 = Some o' ∧ (o' = 64 ↔ 0 ≤ 64 < 64 ∨ -256 ≤ 64 < -192).
Proof. apply (c_branch_offset_wrong 64). split; [reflexivity | lia]. Defined.

(** Stack offsets survive encoding: the emitter's fields for C.LWSP, C.LDSP
    and C.ADDI16SP are defined exactly on the offsets the instructions have,
    and for the two loads the plugin API's decoders read the same offset. *)
Theorem stack_offset_roundtrip o :
  0 ≤ o →
  (o mod 4 = 0 ∧ o < 256 → stands_for 1 5 __riscv_c_spword_load_offset o (riscv_create_clwsp_imm_pair o))
  ∧ (o mod 8 = 0 ∧ o < 512 → stands_for 1 5 __riscv_c_spdoubleword_load_offset o (riscv_create_cldsp_imm_pair o))
  ∧ (¬ (o mod 4 = 0 ∧ o < 256) → riscv_create_clwsp_imm_pair o = None)
  ∧ (¬ (o mod 8 = 0 ∧ o < 512) → riscv_create_cldsp_imm_pair o = None).
Proof.
  intros H0.
  assert (Z.land o 3 = o mod 4 ∧ Z.land o 7 = o mod 8) as [E3 E7]
    by (split; [apply (land_pow2_mask o 2) | apply (land_pow2_mask o 3)]; lia).
  split_and!.
  - intros [Hm Hr]. eapply (stands_for_range 0 256 (λ o, o mod 4 =? 0)); [by vm_compute | lia | lia].
  - intros [Hm Hr]. eapply (stands_for_range 0 512 (λ o, o mod 8 =? 0)); [by vm_compute | lia | lia].
  - intros Hn. unfold riscv_create_clwsp_imm_pair. rewrite E3. case_bool_Z; simpl; try done; lia.
  - intros Hn. unfold riscv_create_cldsp_imm_pair. rewrite E7. case_bool_Z; simpl; try done; lia.
Qed.

Lemma stack_offset_roundtrip_witness :
  stands_for 1 5 __riscv_c_spdoubleword_load_offset 248 (riscv_create_cldsp_imm_pair 248).
Proof. apply (stack_offset_roundtrip 248); [lia | split; [reflexivity | lia]]. Defined.
End RiscvImm.
