(* ===== verification/RiscvAsm.v ===== *)
(** * A RISC-V (RV64) machine for emitted code

    The emitters of arch/riscv write instructions into the code cache. The
    instructions are kept here as the arguments that the encoders get, and this
    file gives them the meaning of the RISC-V manual, so that what emitted code
    does can be stated. Only the instructions that MAMBO emits are covered. *)
From S2P Require Import Prelude RiscvImm.
Import RiscvImm.

Module RiscvAsm.

(** ** Registers ([enum reg] of scanner_public.h) *)

Definition zero : Z := 0.
Definition ra : Z := 1.
Definition sp : Z := 2.
Definition x6 : Z := 6.
Definition x7 : Z := 7.
Definition s0 : Z := 8.
Definition s1 : Z := 9.
Definition a0 : Z := 10.
Definition a1 : Z := 11.
Definition a2 : Z := 12.
Definition a7 : Z := 17.

(** ** Branch conditions, in the encoding of the funct3 field *)

Inductive branch_condition := BEQ | BNE | BLT | BGE | BLTU | BGEU.

#[global] Instance branch_condition_eq_dec : EqDecision branch_condition.
Proof. solve_decision. Defined.

Definition invert_cond (c : branch_condition) : branch_condition :=
  match c with BEQ => BNE | BNE => BEQ | BLT => BGE | BGE => BLT | BLTU => BGEU | BGEU => BLTU end.

(** [enum branch_condition] is the funct3 field. *)
Definition cond_of (c : Z) : branch_condition :=
  match c with 0 => BEQ | 1 => BNE | 4 => BLT | 5 => BGE | 6 => BLTU | _ => BGEU end.

(** ** Instructions

    A constructor has the arguments of its encoder [riscv_<name>]; the fields
    are cut to their width when the instruction is executed, as the encoder
    does. *)
Inductive inst :=
  | Lui (rd imm : Z)
  | Auipc (rd imm : Z)
  | Jal (rd imm : Z)
  | Jalr (rd rs1 imm : Z)
  | Branch (c : branch_condition) (rs1 rs2 immhi immlo : Z)
  | Lw (rd rs1 imm : Z)
  | Ld (rd rs1 imm : Z)
  | Sd (rs2 rs1 immhi immlo : Z)
  | Addi (rd rs1 imm : Z)
  | Addiw (rd rs1 imm : Z)
  | Andi (rd rs1 imm : Z)
  | Slli (rd rs1 shamt : Z)
  | Srli (rd rs1 shamt : Z)
  | Add (rd rs1 rs2 : Z)
  | Sub (rd rs1 rs2 : Z)
  | Sll (rd rs1 rs2 : Z)
  | And (rd rs1 rs2 : Z)
  | Csrrs (rd csr rs1 : Z)
  | C_ldsp (rd immhi immlo : Z)
  | C_slli (rd immhi immlo : Z)
  | C_addi16sp (immhi immlo : Z)
  | C_jr (rs1 : Z)
  | C_beqz (rs1 immhi immlo : Z)
  | C_bnez (rs1 immhi immlo : Z).

#[global] Instance inst_eq_dec : EqDecision inst.
Proof. solve_decision. Defined.

(** The bytes an instruction takes. *)
Definition inst_size (i : inst) : Z :=
  match i with C_ldsp _ _ _ | C_slli _ _ _ | C_addi16sp _ _ | C_jr _ | C_beqz _ _ _ | C_bnez _ _ _ => 2 | _ => 4 end.

Definition code_size (l : list inst) : Z := foldr (λ i n, inst_size i + n) 0 l.

(** ** Immediates as the manual lays them out *)

Definition bits (w pos x : Z) : Z := (x / 2 ^ pos) mod 2 ^ w.

Definition imm12 (imm : Z) : Z := signed 12 imm.
Definition s_imm (immhi immlo : Z) : Z := signed 12 (bits 7 0 immhi * 2 ^ 5 + bits 5 0 immlo).
Definition b_imm (immhi immlo : Z) : Z :=
  signed 13 (bits 4 1 immlo * 2 + bits 6 0 immhi * 2 ^ 5 + bits 1 0 immlo * 2 ^ 11 + bits 1 6 immhi * 2 ^ 12).
Definition j_imm (imm : Z) : Z :=
  signed 21 (bits 10 9 imm * 2 + bits 1 8 imm * 2 ^ 11 + bits 8 0 imm * 2 ^ 12 + bits 1 19 imm * 2 ^ 20).
Definition u_imm (imm : Z) : Z := signed 32 (imm * 2 ^ 12).
Definition cb_imm (immhi immlo : Z) : Z :=
  signed 9 (bits 2 1 immlo * 2 + bits 2 0 immhi * 2 ^ 3 + bits 1 0 immlo * 2 ^ 5 + bits 2 3 immlo * 2 ^ 6
            + bits 1 2 immhi * 2 ^ 8).
Definition cldsp_imm (immhi immlo : Z) : Z :=
  bits 2 3 immlo * 2 ^ 3 + bits 1 0 immhi * 2 ^ 5 + bits 3 0 immlo * 2 ^ 6.
Definition c16sp_imm (immhi immlo : Z) : Z :=
  signed 10 (bits 1 4 immlo * 2 ^ 4 + bits 1 0 immlo * 2 ^ 5 + bits 1 3 immlo * 2 ^ 6 + bits 2 1 immlo * 2 ^ 7
             + bits 1 0 immhi * 2 ^ 9).

(** ** The machine: registers and control registers hold 64-bit values, memory
    holds bytes. *)

Record machine := MkMachine { pc : Z; regs : Z → Z; mem : Z → Z; csrs : Z → Z }.

Definition get (s : machine) (r : Z) : Z := if r =? 0 then 0 else regs s r.
Definition set (r v : Z) (s : machine) : machine :=
  MkMachine (pc s) (λ x, if x =? r then u64 v else regs s x) (mem s) (csrs s).
Definition set_pc (p : Z) (s : machine) : machine := MkMachine (u64 p) (regs s) (mem s) (csrs s).
Definition next (n : Z) (s : machine) : machine := set_pc (pc s + n) s.

(** Little-endian loads and stores of [n] bytes. *)
Fixpoint load (n : nat) (m : Z → Z) (a : Z) : Z :=
  match n with O => 0 | S n => m (u64 a) + 256 * load n m (a + 1) end.
Fixpoint store (n : nat) (a v : Z) (m : Z → Z) : Z → Z :=
  match n with
  | O => m
  | S n => store n (a + 1) (v / 256) (λ x, if x =? u64 a then v mod 256 else m x)
  end.
Definition set_mem (m : Z → Z) (s : machine) : machine := MkMachine (pc s) (regs s) m (csrs s).

Definition holds (c : branch_condition) (x y : Z) : bool :=
  match c with
  | BEQ => x =? y | BNE => negb (x =? y)
  | BLT => s64 x <? s64 y | BGE => s64 y <=? s64 x
  | BLTU => x <? y | BGEU => y <=? x
  end.

(** The register of a three-bit field. *)
Definition creg (r : Z) : Z := 8 + bits 3 0 r.

(** One instruction at the program counter. *)
Definition exec (i : inst) (s : machine) : machine :=
  let n := inst_size i in
  match i with
  | Lui rd imm => next n (set rd (u_imm imm) s)
  | Auipc rd imm => next n (set rd (pc s + u_imm imm) s)
  | Jal rd imm => set_pc (pc s + j_imm imm) (set rd (pc s + 4) s)
  | Jalr rd rs1 imm =>
      set_pc (2 * ((get s rs1 + imm12 imm) / 2)) (set rd (pc s + 4) s)
  | Branch c rs1 rs2 immhi immlo =>
      if holds c (get s rs1) (get s rs2) then set_pc (pc s + b_imm immhi immlo) s else next n s
  | Lw rd rs1 imm => next n (set rd (signed 32 (load 4 (mem s) (get s rs1 + imm12 imm))) s)
  | Ld rd rs1 imm => next n (set rd (load 8 (mem s) (get s rs1 + imm12 imm)) s)
  | Sd rs2 rs1 immhi immlo =>
      next n (set_mem (store 8 (get s rs1 + s_imm immhi immlo) (get s rs2) (mem s)) s)
  | Addi rd rs1 imm => next n (set rd (get s rs1 + imm12 imm) s)
  | Addiw rd rs1 imm => next n (set rd (signed 32 (get s rs1 + imm12 imm)) s)
  | Andi rd rs1 imm => next n (set rd (Z.land (get s rs1) (u64 (imm12 imm))) s)
  | Slli rd rs1 shamt => next n (set rd (get s rs1 * 2 ^ bits 6 0 shamt) s)
  | Srli rd rs1 shamt => next n (set rd (get s rs1 / 2 ^ bits 6 0 shamt) s)
  | Add rd rs1 rs2 => next n (set rd (get s rs1 + get s rs2) s)
  | Sub rd rs1 rs2 => next n (set rd (get s rs1 - get s rs2) s)
  | Sll rd rs1 rs2 => next n (set rd (get s rs1 * 2 ^ bits 6 0 (get s rs2)) s)
  | And rd rs1 rs2 => next n (set rd (Z.land (get s rs1) (get s rs2)) s)
  | Csrrs rd csr rs1 =>
      let old := csrs s csr in
      let s' := next n (set rd old s) in
      if rs1 =? 0 then s'
      else MkMachine (pc s') (regs s') (mem s')
             (λ c, if c =? csr then Z.lor old (get s rs1) else csrs s c)
  | C_ldsp rd immhi immlo => next n (set rd (load 8 (mem s) (get s sp + cldsp_imm immhi immlo)) s)
  | C_slli rd immhi immlo => next n (set rd (get s rd * 2 ^ (bits 1 0 immhi * 32 + bits 5 0 immlo)) s)
  | C_addi16sp immhi immlo => next n (set sp (get s sp + c16sp_imm immhi immlo) s)
  | C_jr rs1 => set_pc (2 * (get s rs1 / 2)) s
  | C_beqz rs1 immhi immlo =>
      if get s (creg rs1) =? 0 then set_pc (pc s + cb_imm immhi immlo) s else next n s
  | C_bnez rs1 immhi immlo =>
      if get s (creg rs1) =? 0 then next n s else set_pc (pc s + cb_imm immhi immlo) s
  end.

(** Code without jumps, executed from its start. *)
Definition run (l : list inst) (s : machine) : machine := foldl (λ s i, exec i s) s l.

(** Registers within 64 bits. *)
Definition ok (s : machine) : Prop := 0 ≤ pc s < 2 ^ 64 ∧ ∀ r, 0 ≤ get s r < 2 ^ 64.

(** ** Lemmas about the state *)

Lemma get_zero s : get s 0 = 0.
Proof. done. Qed.

Lemma get_set_eq r v s : r ≠ 0 → get (set r v s) r = u64 v.
Proof. intros Hr. unfold get, set. simpl. destruct (Z.eqb_spec r 0); [done|]. by rewrite Z.eqb_refl. Qed.

Lemma get_set_ne r v s r' : r' ≠ r → get (set r v s) r' = get s r'.
Proof. intros Hr. unfold get, set. simpl. by rewrite (proj2 (Z.eqb_neq r' r)). Qed.

Lemma get_next n s r : get (next n s) r = get s r.
Proof. done. Qed.

Lemma get_set_pc p s r : get (set_pc p s) r = get s r.
Proof. done. Qed.

Lemma get_set_mem m s r : get (set_mem m s) r = get s r.
Proof. done. Qed.

Lemma ok_set r v s : ok s → ok (set r v s).
Proof.
  intros [Hp Hg]. split; [done|]. intros r'. destruct (decide (r' = r)) as [->|].
  - destruct (decide (r = 0)) as [->|]; [by rewrite get_zero|]. rewrite get_set_eq by done. apply u64_range.
  - rewrite get_set_ne by done. apply Hg.
Qed.

Lemma ok_set_pc p s : ok s → ok (set_pc p s).
Proof. intros [Hp Hg]. split; [apply u64_range | done]. Qed.

Lemma ok_next n s : ok s → ok (next n s).
Proof. apply ok_set_pc. Qed.

Lemma ok_set_mem m s : ok s → ok (set_mem m s).
Proof. done. Qed.

Create HintDb asm.
#[export] Hint Resolve ok_set ok_set_pc ok_next ok_set_mem : asm.

Lemma ok_exec i s : ok s → ok (exec i s).
Proof.
  intros Hs. destruct i; cbn [exec]; auto with asm; try (case_match; auto with asm).
  by apply (ok_next 4 (set rd (csrs s csr) s)), ok_set.
Qed.

Lemma run_app l1 l2 s : run (l1 ++ l2) s = run l2 (run l1 s).
Proof. unfold run. by rewrite foldl_app. Qed.

Lemma run_cons i l s : run (i :: l) s = run l (exec i s).
Proof. done. Qed.

Lemma ok_run l s : ok s → ok (run l s).
Proof. revert s. induction l as [|i l IH]; intros s Hs; [done|]. rewrite run_cons. by apply IH, ok_exec. Qed.

Lemma code_size_app l1 l2 : code_size (l1 ++ l2) = code_size l1 + code_size l2.
Proof. unfold code_size. induction l1 as [|i l1 IH]; [done|]. simpl. lia. Qed.

Lemma inst_size_pos i : 2 ≤ inst_size i ≤ 4.
Proof. by destruct i. Qed.

Lemma code_size_nonneg l : 0 ≤ code_size l.
Proof. induction l as [|i l IH]; [done|]. unfold code_size in *. simpl. pose proof (inst_size_pos i). lia. Qed.

(** ** Memory *)

Lemma store_frame n : ∀ b v m x, (∀ j, 0 ≤ j < Z.of_nat n → x ≠ u64 (b + j)) → store n b v m x = m x.
Proof.
  induction n as [|n IH]; intros b v m x Hx; [done|]. simpl. rewrite IH.
  - rewrite (proj2 (Z.eqb_neq _ _)); [done|]. specialize (Hx 0 ltac:(lia)). by rewrite Z.add_0_r in Hx.
  - intros j Hj. replace (b + 1 + j) with (b + (j + 1)) by lia. apply Hx. lia.
Qed.

Lemma load_store_disjoint k a m : ∀ n b v,
  (∀ i j, 0 ≤ i < Z.of_nat k → 0 ≤ j < Z.of_nat n → u64 (a + i) ≠ u64 (b + j)) →
  load k (store n b v m) a = load k m a.
Proof.
  revert a. induction k as [|k IH]; intros a n b v Hd; [done|]. simpl. f_equal.
  - apply store_frame. intros j Hj. specialize (Hd 0 j ltac:(lia) Hj). by rewrite Z.add_0_r in Hd.
  - f_equal. apply IH. intros i j Hi Hj. replace (a + 1 + i) with (a + (i + 1)) by lia. apply Hd; lia.
Qed.

Lemma u64_add_ne a i j : 0 ≤ i < 2 ^ 64 → 0 ≤ j < 2 ^ 64 → i ≠ j → u64 (a + i) ≠ u64 (a + j).
Proof.
  intros Hi Hj Hne Heq. apply Hne. unfold u64 in Heq.
  apply (f_equal (λ z, (z - a) mod 2 ^ 64)) in Heq. rewrite !Zminus_mod_idemp_l in Heq.
  replace (a + i - a) with i in Heq by lia. replace (a + j - a) with j in Heq by lia.
  by rewrite !Z.mod_small in Heq.
Qed.

Lemma load_store n : ∀ a v m, Z.of_nat n ≤ 8 → load n (store n a v m) a = v mod 256 ^ Z.of_nat n.
Proof.
  induction n as [|n IH]; intros a v m Hn; [by rewrite Z.mod_1_r|].
  change (load (S n) (store (S n) a v m) a) with
    (store n (a + 1) (v / 256) (λ x, if x =? u64 a then v mod 256 else m x) (u64 a)
     + 256 * load n (store n (a + 1) (v / 256) (λ x, if x =? u64 a then v mod 256 else m x)) (a + 1)).
  rewrite IH by lia. rewrite store_frame.
  - rewrite Z.eqb_refl. replace (Z.of_nat (S n)) with (1 + Z.of_nat n) by lia.
    rewrite Z.pow_add_r by lia. change (256 ^ 1) with 256.
    rewrite (Z.rem_mul_r v 256 (256 ^ Z.of_nat n)); [done | lia |]. apply Z.pow_pos_nonneg; lia.
  - intros j Hj. replace (a + 1 + j) with (a + (1 + j)) by lia. rewrite <- (Z.add_0_r a) at 1.
    apply u64_add_ne; lia.
Qed.

Lemma load_store_8 a v m : 0 ≤ v < 2 ^ 64 → load 8 (store 8 a v m) a = v.
Proof. intros. rewrite load_store by done. by apply Z.mod_small. Qed.
End RiscvAsm.
