(* ===== verification/RiscvEmit.v ===== *)
(** * Code emission for RISC-V (arch/riscv/scanner_riscv.c)

    The helpers that the RISC-V scanner, the dispatcher and the plugin API build
    code with, for RV64: saving and restoring registers, loading constants,
    branches and jumps. An emitter returns the code it writes from the write
    pointer on; the write pointer advances by the size of that code. *)
From S2P Require Import Prelude RegList RiscvImm RiscvAsm.
Import RegList RiscvImm RiscvAsm.

Module RiscvEmit.

Section emit.
(** [riscv_compressed] or [riscv]: whether [__riscv_compressed] is defined. *)
Context (t : target).

Definition wordsz : Z := 8.

(** The lowest register of a set, by [get_lowest_n_regs(regs, &reg, 1)]. *)
Definition lowest_reg (rs : Z) : outcome Z :=
  r ← get_lowest_n_regs t rs 1; aget (snd r) 0.

(** [regs &= ~(1 << reg)]. *)
Definition clear_reg (rs reg : Z) : Z := Z.land rs (u32 (Z.lnot (Z.shiftl 1 reg))).

Fixpoint push_loop (fuel : nat) (rs o : Z) : outcome (list inst) :=
  match fuel with
  | O => Err OutOfFuel
  | S fuel =>
      if rs =? 0 then Ok []
      else
        reg ← lowest_reg rs;
        l ← push_loop fuel (clear_reg rs reg) (o + wordsz);
        Ok (Sd reg sp (Z.shiftr o 5) o :: l)
  end.

(** 33 rounds for 32 registers. *)
Definition riscv_push_offset (rs off : Z) : outcome (list inst) :=
  n ← count_bits rs;
  let offset := (n + off) * wordsz in
  c_assert (offset <=? 0x7FF);;
  l ← push_loop 33 rs 0;
  Ok (Addi sp sp (- offset) :: l).

Definition riscv_push (rs : Z) : outcome (list inst) := riscv_push_offset rs 0.

Fixpoint pop_loop (fuel : nat) (rs o : Z) : outcome (list inst * Z) :=
  match fuel with
  | O => Err OutOfFuel
  | S fuel =>
      if rs =? 0 then Ok ([], o)
      else
        reg ← lowest_reg rs;
        i ← (match t with
             | riscv_compressed =>
                 match riscv_create_cldsp_imm_pair o with
                 | Some imm => Ok (C_ldsp reg (immhi imm) (immlo imm))
                 | None => Err AssertFail
                 end
             | _ => Ok (Ld reg sp o)
             end);
        r ← pop_loop fuel (clear_reg rs reg) (o + wordsz);
        Ok (i :: fst r, snd r)
  end.

(** The instruction that releases the stack space of [riscv_pop]. *)
Definition pop_adjust (o : Z) : outcome inst :=
  match t, riscv_create_c_addi16sp_pair o with
  | riscv_compressed, Some imm => Ok (C_addi16sp (immhi imm) (immlo imm))
  | _, _ => c_assert (o <=? 0x7FF);; Ok (Addi sp sp o)
  end.

Definition riscv_pop (rs : Z) : outcome (list inst) :=
  r ← pop_loop 33 rs 0;
  i ← pop_adjust (snd r);
  Ok (fst r ++ [i]).

(** [1 << r], and unions of such. *)
Definition reg_mask (l : list Z) : Z := foldr (λ r m, Z.lor (Z.shiftl 1 r) m) 0 l.

Definition riscv_restore_context : outcome (list inst) := riscv_pop (reg_mask [a0; a1]).
Definition riscv_save_context : outcome (list inst) := riscv_push (reg_mask [s1; a0; a1]).

(** ** Constants *)

Definition riscv_copy_to_reg_32bits (reg value : Z) : list inst :=
  let low12 := sign_extend32 12 (Z.land value 0xFFF) in
  let hi20 := Z.land (Z.shiftr (u32 (value + 0x800)) 12) 0xFFFFF in
  (if negb (hi20 =? 0) then [Lui reg hi20] else [])
  ++ (if negb (low12 =? 0) || (hi20 =? 0)
      then [Addiw reg (if negb (hi20 =? 0) then reg else zero) low12] else []).

(** [__builtin_ffsll]: the position of the lowest set bit, from 1, or 0. *)
Fixpoint ctz_pos (p : positive) : Z :=
  match p with xO p => 1 + ctz_pos p | _ => 0 end.
Definition ffsll (x : Z) : Z := match x with Z0 => 0 | Zpos p => 1 + ctz_pos p | Zneg p => 1 + ctz_pos p end.

Definition INT_MIN : Z := -2147483648.

Fixpoint riscv_copy_to_reg_64bits (fuel : nat) (reg value : Z) : outcome (list inst) :=
  match fuel with
  | O => Err OutOfFuel
  | S fuel =>
      if (INT_MIN <=? s64 value) && (s64 value <=? INT_MAX) then
        Ok (riscv_copy_to_reg_32bits reg (Z.land value 0xFFFFFFFF))
      else
        let lo12 := sign_extend64 12 (Z.land value 0xFFF) in
        let hi52 := s64 (Z.shiftr (u64 (value + 0x800)) 12) in
        let shift := 12 + ffsll hi52 - 1 in
        let hi52 := Z.shiftr hi52 (shift - 12) in
        l ← riscv_copy_to_reg_64bits fuel reg (u64 hi52);
        Ok (l ++ C_slli reg (Z.shiftr shift 5) (Z.land shift 0x1F)
              :: (if negb (lo12 =? 0) then [Addi reg reg lo12] else []))
  end.

(** Four levels are enough for 64 bits. *)
Definition riscv_copy_to_reg (reg value : Z) : outcome (list inst) := riscv_copy_to_reg_64bits 4 reg value.

(** ** Branches and jumps

    The first argument is the write pointer; [None] is the result -1, with
    nothing written. *)

Definition riscv_c_bcond_helper (write_p target rs1 : Z) (eq : bool) : option inst :=
  p ← riscv_create_cb_imm_pair (s32 (s64 (target - write_p)));
  Some (if eq then C_beqz rs1 (immhi p) (immlo p) else C_bnez rs1 (immhi p) (immlo p)).
Definition riscv_c_beqz_helper (write_p target rs1 : Z) : option inst := riscv_c_bcond_helper write_p target rs1 true.
Definition riscv_c_bnez_helper (write_p target rs1 : Z) : option inst := riscv_c_bcond_helper write_p target rs1 false.

Definition riscv_branch_helper (write_p target rs1 rs2 : Z) (condition : branch_condition) : option inst :=
  p ← riscv_create_b_imm_pair (s32 (s64 (target - write_p)));
  Some (Branch condition rs1 rs2 (immhi p) (immlo p)).

Definition riscv_jalr_helper (write_p target rd rs1 : Z) : option (list inst) :=
  let offset := s64 (target - write_p) in
  if (offset <? INT_MIN) || (INT_MAX <? offset) then None
  else Some [Auipc rs1 (Z.shiftr (offset + 0x800) 12); Jalr rd rs1 (Z.land offset 0xFFF)].

Definition riscv_jal_helper (write_p target rd : Z) : option inst :=
  let offset := s64 (target - write_p) in
  if jal_in_range offset then Some (Jal rd (jal_field offset)) else None.
End emit.

(** ** Constants *)

Lemma signed_mod_eq w x : 0 < w → signed w x mod 2 ^ w = x mod 2 ^ w.
Proof.
  intros Hw. unfold signed. case_bool_Z; [apply Zmod_mod|].
  rewrite <- (Z.mod_add _ 1) by (apply Z.pow_nonzero; lia).
  replace (x mod 2 ^ w - 2 ^ w + 1 * 2 ^ w) with (x mod 2 ^ w) by lia. apply Zmod_mod.
Qed.

Lemma signed_congr w x y : x mod 2 ^ w = y mod 2 ^ w → signed w x = signed w y.
Proof. intros H. unfold signed. by rewrite H. Qed.

Lemma signed_signed w x : 0 < w → signed w (signed w x) = signed w x.
Proof. intros. by apply signed_congr, signed_mod_eq. Qed.

(** The low twelve bits as a signed number, and the rest rounded. *)
Lemma low12_split v : v = (v + 0x800) / 4096 * 4096 + signed 12 (v mod 4096).
Proof.
  unfold signed. change (2 ^ 12) with 4096. change (2 ^ (12 - 1)) with 2048.
  rewrite Zmod_mod. case_bool_Z; Z.div_mod_to_equations; lia.
Qed.

Lemma land_mask n x : 0 ≤ n → Z.land x (Z.ones n) = x mod 2 ^ n.
Proof. intros. by apply Z.land_ones. Qed.

(** What a sequence of instructions that only compute in [reg] does. *)
Definition loads (l : list inst) (reg value : Z) : Prop :=
  ∀ s, ok s →
    get (run l s) reg = u64 value ∧ mem (run l s) = mem s ∧ csrs (run l s) = csrs s
    ∧ pc (run l s) = u64 (pc s + code_size l)
    ∧ ∀ r, r ≠ reg → get (run l s) r = get s r.

Lemma u64_add_l x y : u64 (u64 x + y) = u64 (x + y).
Proof. unfold u64. by rewrite Zplus_mod_idemp_l. Qed.

Lemma u64_mul_l x y : u64 (u64 x * y) = u64 (x * y).
Proof. unfold u64. by rewrite Zmult_mod_idemp_l. Qed.

Lemma u64_u64 x : u64 (u64 x) = u64 x.
Proof. unfold u64. apply Zmod_mod. Qed.

Lemma copy_32bits_loads reg value :
  reg ≠ 0 → 0 ≤ value < 2 ^ 32 → loads (riscv_copy_to_reg_32bits reg value) reg (signed 32 value).
Proof.
  intros Hreg Hv. unfold riscv_copy_to_reg_32bits.
  assert (Z.land value 0xFFF = value mod 4096) as -> by (apply (land_pow2_mask value 12); lia).
  rewrite sign_extend32_signed by (lia || (pose proof (Z.mod_pos_bound value 4096); lia)).
  assert (Z.land (Z.shiftr (u32 (value + 0x800)) 12) 0xFFFFF = u32 (value + 0x800) / 4096) as ->.
  { rewrite (land_pow2_mask _ 20), Z.shiftr_div_pow2 by lia. apply Z.mod_small.
    pose proof (u32_range (value + 0x800)). change (2 ^ 12) with 4096. split; [apply Z.div_pos; lia|].
    apply Z.div_lt_upper_bound; lia. }
  set (lo := signed 12 (value mod 4096)). set (hi := u32 (value + 0x800) / 4096).
  assert ((hi * 4096 + lo) mod 2 ^ 32 = value mod 2 ^ 32) as Hsum.
  { rewrite (low12_split value). fold lo. subst hi. unfold u32.
    rewrite Zplus_mod, (Zplus_mod ((value + 0x800) / 4096 * 4096)). do 2 f_equal.
    change (2 ^ 32) with (2 ^ 20 * 4096). rewrite !Zmult_mod_distr_r. f_equal.
    rewrite (Z.mul_comm (2 ^ 20)), Z.rem_mul_r by lia.
    rewrite Z.mul_comm, Z.div_add, Z.div_small by (try apply Z.mod_pos_bound; lia).
    rewrite Z.add_0_l. apply Zmod_mod. }
  assert (imm12 lo = lo) as Hlo by (apply signed_signed; lia).
  intros s Hs. destruct (Z.eqb_spec hi 0) as [Hhi|Hhi]; cbn [negb].
  - rewrite orb_true_r. cbn [app run foldl exec code_size foldr inst_size].
    rewrite get_next, get_set_eq by done. change (get s zero) with 0. rewrite Z.add_0_l, Hlo.
    split_and!; try done; [|intros r Hr; by rewrite get_next, get_set_ne].
    f_equal. apply signed_congr. rewrite Hhi in Hsum. by rewrite Z.mul_0_l, Z.add_0_l in Hsum.
  - rewrite orb_false_r. destruct (Z.eqb_spec lo 0) as [Hlo0|Hlo0]; cbn [negb app run foldl exec code_size foldr inst_size].
    + rewrite get_next, get_set_eq by done. split_and!; try done; [|intros r Hr; by rewrite get_next, get_set_ne].
      f_equal. apply signed_congr. change (2 ^ 12) with 4096. rewrite Hlo0, Z.add_0_r in Hsum. done.
    + rewrite get_next, get_set_eq, get_next, get_set_eq by done. rewrite Hlo.
      split_and!; try done.
      * f_equal. rewrite <- (signed_congr 32 (hi * 4096 + lo) value) by done.
        apply signed_congr. unfold u_imm. change (2 ^ 12) with 4096.
        rewrite Zplus_mod. unfold u64. rewrite (Z.mod_mod_divide _ (2 ^ 64) (2 ^ 32)) by by exists (2 ^ 32).
        rewrite signed_mod_eq by lia. by rewrite <- Zplus_mod.
      * cbn [pc next set_pc set]. rewrite u64_add_l. f_equal. lia.
      * intros r Hr. by rewrite get_next, get_set_ne, get_next, get_set_ne.
Qed.

Lemma ctz_pos_spec p : ∃ q, Zpos p = Zpos q * 2 ^ ctz_pos p ∧ 0 ≤ ctz_pos p.
Proof.
  induction p as [p IH|p (q & Hq & H0)|]; [exists (p~1)%positive; cbn; lia | | exists 1%positive; cbn; lia].
  exists q. cbn [ctz_pos]. split; [|lia]. rewrite Z.pow_add_r by lia. lia.
Qed.

(** Shifting out the trailing zeros and shifting them in again. *)
Lemma ffsll_spec x k :
  0 < x < 2 ^ k → 0 ≤ k → 0 ≤ ffsll x - 1 < k ∧ x = Z.shiftr x (ffsll x - 1) * 2 ^ (ffsll x - 1).
Proof.
  intros Hx Hk. destruct x as [|p|]; [lia| |lia]. destruct (ctz_pos_spec p) as (q & Hq & H0).
  unfold ffsll. replace (1 + ctz_pos p - 1) with (ctz_pos p) by lia.
  split.
  - split; [done|]. apply (Z.pow_lt_mono_r_iff 2); [lia | done | nia].
  - rewrite Z.shiftr_div_pow2 by done. rewrite Hq at 2. rewrite Z.div_mul; [done|].
    pose proof (Z.pow_pos_nonneg 2 (ctz_pos p)). lia.
Qed.

Lemma shamt_split n : 0 ≤ n < 64 → bits 1 0 (Z.shiftr n 5) * 32 + bits 5 0 (Z.land n 0x1F) = n.
Proof.
  intros Hn. unfold bits. change 0x1F with (2 ^ 5 - 1). rewrite (land_pow2_mask n 5), Z.shiftr_div_pow2 by lia.
  change (2 ^ 0) with 1. rewrite !Z.div_1_r, Zmod_mod. Z.div_mod_to_equations. lia.
Qed.

Lemma loads_ext l reg v w : u64 v = u64 w → loads l reg v → loads l reg w.
Proof. intros Hvw Hl s Hs. rewrite <- Hvw. by apply Hl. Qed.

(** A loaded number shifted left, and a number added. *)
Lemma loads_slli l reg v n :
  reg ≠ 0 → 0 ≤ n < 64 → loads l reg v →
  loads (l ++ [C_slli reg (Z.shiftr n 5) (Z.land n 0x1F)]) reg (v * 2 ^ n).
Proof.
  intros Hreg Hn Hl s Hs. destruct (Hl s Hs) as (Hg & Hm & Hc & Hp & Hf).
  rewrite run_app, code_size_app. cbn [run foldl exec inst_size code_size foldr].
  fold (run l s). rewrite shamt_split by done.
  rewrite get_next, get_set_eq, Hg, u64_mul_l by done. split_and!; try done.
  - cbn [pc next set_pc set]. rewrite Hp, u64_add_l. f_equal. lia.
  - intros r Hr. rewrite get_next, get_set_ne by done. by apply Hf.
Qed.

Lemma loads_addi l reg v i :
  reg ≠ 0 → loads l reg v → loads (l ++ [Addi reg reg i]) reg (v + imm12 i).
Proof.
  intros Hreg Hl s Hs. destruct (Hl s Hs) as (Hg & Hm & Hc & Hp & Hf).
  rewrite run_app, code_size_app. cbn [run foldl exec inst_size code_size foldr]. fold (run l s).
  rewrite get_next, get_set_eq, Hg, u64_add_l by done. split_and!; try done.
  - cbn [pc next set_pc set]. rewrite Hp, u64_add_l. f_equal. lia.
  - intros r Hr. rewrite get_next, get_set_ne by done. by apply Hf.
Qed.

Lemma copy_32bits_size reg value : 4 ≤ code_size (riscv_copy_to_reg_32bits reg value) ≤ 8.
Proof.
  unfold riscv_copy_to_reg_32bits. destruct (_ =? 0); cbn [negb]; [by rewrite orb_true_r|].
  destruct (negb _ || false); cbn; lia.
Qed.

Lemma copy_int_case reg value n :
  reg ≠ 0 → 0 ≤ value < 2 ^ 64 → INT_MIN ≤ s64 value ≤ INT_MAX →
  ∃ l, riscv_copy_to_reg_64bits (S n) reg value = Ok l ∧ loads l reg value ∧ code_size l ≤ 8.
Proof.
  intros Hreg Hv Hint. cbn [riscv_copy_to_reg_64bits].
  replace ((INT_MIN <=? s64 value) && (s64 value <=? INT_MAX)) with true by lia.
  eexists. split_and!; [done | | apply copy_32bits_size].
  change 0xFFFFFFFF with (2 ^ 32 - 1). rewrite land_pow2_mask by lia.
  eapply loads_ext; [|apply copy_32bits_loads; [done|apply u32_range]].
  replace (signed 32 (value mod 2 ^ 32)) with (s64 value); [unfold u64, s64; by rewrite signed_mod_eq|].
  rewrite <- (signed_small 32 (s64 value)) by (unfold INT_MIN, INT_MAX in *; lia).
  apply signed_congr. rewrite Zmod_mod. unfold s64.
  rewrite <- (Z.mod_mod_divide _ (2 ^ 64) (2 ^ 32)), signed_mod_eq by (lia || by exists (2 ^ 32)).
  apply Z.mod_mod_divide. by exists (2 ^ 32).
Qed.

(** The recursion on a value that is not an int: its rounded upper part,
    without its trailing zeros, is loaded, shifted back and completed. *)
Lemma copy_64bits_big fuel reg value :
  0 ≤ value < 2 ^ 64 → ¬ (INT_MIN ≤ s64 value ≤ INT_MAX) →
  ∃ h n lo,
    riscv_copy_to_reg_64bits (S fuel) reg value
    = (l ← riscv_copy_to_reg_64bits fuel reg h;
       Ok (l ++ C_slli reg (Z.shiftr n 5) (Z.land n 0x1F)
             :: (if negb (lo =? 0) then [Addi reg reg lo] else [])))
    ∧ value = h * 2 ^ n + imm12 lo ∧ 0 < h ≤ (value + 0x800) / 4096 ∧ 0 ≤ n < 64.
Proof.
  intros Hv Hint. cbn [riscv_copy_to_reg_64bits].
  replace ((INT_MIN <=? s64 value) && (s64 value <=? INT_MAX)) with false by lia.
  assert (2 ^ 31 ≤ value ∧ value < 2 ^ 64 - 2 ^ 31) as Hbig.
  { revert Hint. unfold s64, signed, INT_MIN, INT_MAX. rewrite Z.mod_small by done. case_bool_Z. }
  assert (Z.land value 0xFFF = value mod 4096) as -> by (apply (land_pow2_mask value 12); lia).
  rewrite (u64_small (value + 0x800)), (Z.shiftr_div_pow2 _ 12), sign_extend64_signed
    by (lia || (pose proof (Z.mod_pos_bound value 4096); lia)).
  change (2 ^ 12) with 4096. set (hi := (value + 0x800) / 4096). set (lo := signed 12 (value mod 4096)).
  pose proof (low12_split value) as Hsplit. fold hi lo in Hsplit.
  assert (0 < hi < 2 ^ 52) as Hhi.
  { subst hi. split; [apply Z.div_str_pos; lia | apply Z.div_lt_upper_bound; lia]. }
  rewrite (s64_small hi) by lia.
  destruct (ffsll_spec hi 52) as [Htz Hshift]; [lia..|].
  set (tz := ffsll hi - 1) in *. replace (12 + ffsll hi - 1 - 12) with tz by lia.
  replace (12 + ffsll hi - 1) with (12 + tz) by lia. set (h := Z.shiftr hi tz) in *.
  assert (0 < h ≤ hi) as Hh by (pose proof (Z.pow_pos_nonneg 2 tz); nia).
  rewrite (u64_small h) by lia. exists h, (12 + tz), (u64 lo).
  assert (imm12 (u64 lo) = lo) as ->; [|split_and!; try lia; [done|rewrite Z.pow_add_r by lia; lia]].
  unfold imm12. subst lo. rewrite <- (signed_signed 12 (value mod 4096)) at 2 by lia. apply signed_congr.
  unfold u64. apply Z.mod_mod_divide. by exists (2 ^ 52).
Qed.

Lemma copy_64bits_loads reg n : ∀ value,
  reg ≠ 0 → 0 ≤ value < 2 ^ 64 → value ≤ 2 ^ (28 + 12 * Z.of_nat n) →
  ∃ l, riscv_copy_to_reg_64bits (S n) reg value = Ok l ∧ loads l reg value
    ∧ code_size l ≤ 8 + 6 * Z.of_nat n.
Proof.
  induction n as [|n IH]; intros value Hreg Hv Hb.
  { apply copy_int_case; [done.. |]. rewrite s64_small; unfold INT_MIN, INT_MAX; lia. }
  destruct (decide (INT_MIN ≤ s64 value ≤ INT_MAX)) as [Hint|Hint].
  { destruct (copy_int_case reg value (S n)) as (l & ? & ? & ?); [done.. |]. exists l. split_and!; [done..|lia]. }
  destruct (copy_64bits_big (S n) reg value Hv Hint) as (h & k & lo & -> & Hval & Hh & Hk).
  destruct (IH h) as (l & -> & Hl & Hsz); [done | Z.div_mod_to_equations; lia | |].
  { replace (28 + 12 * Z.of_nat (S n)) with (12 + (28 + 12 * Z.of_nat n)) in Hb by lia.
    rewrite Z.pow_add_r in Hb by lia. Z.div_mod_to_equations. lia. }
  apply (loads_slli _ _ _ k) in Hl; [|done..]. eexists. split_and!; [done | |].
  - replace (l ++ _ :: _) with ((l ++ [C_slli reg (Z.shiftr k 5) (Z.land k 0x1F)])
      ++ (if negb (lo =? 0) then [Addi reg reg lo] else [])) by by rewrite <- app_assoc.
    destruct (Z.eqb_spec lo 0) as [->|H0]; cbn [negb].
    + rewrite app_nil_r. by rewrite Hval, Z.add_0_r.
    + rewrite Hval. by apply loads_addi.
  - rewrite code_size_app. unfold code_size at 2. cbn [foldr inst_size].
    destruct (negb _); cbn [foldr inst_size]; lia.
Qed.

(** C23. Every 64-bit constant is loaded: for every value and every register but
    [zero], [riscv_copy_to_reg] returns code of at most 26 bytes, and running it
    puts the value in the register, continues behind the code and changes
    neither another register nor memory. *)
Theorem copy_to_reg_loads_constant reg value :
  reg ≠ 0 → 0 ≤ value < 2 ^ 64 →
  ∃ l, riscv_copy_to_reg reg value = Ok l ∧ loads l reg value ∧ code_size l ≤ 26.
Proof.
  intros Hreg Hv. destruct (copy_64bits_loads reg 3 value) as (l & ? & ? & ?); [done | done | lia |].
  by exists l.
Qed.

Lemma copy_to_reg_loads_constant_witness :
  riscv_copy_to_reg a0 0x123456789ABCDEF0
  = Ok [Lui 10 583; Addiw 10 10 (-1875); C_slli 10 0 14; Addi 10 10 (u64 (-947)); C_slli 10 0 12;
        Addi 10 10 1511; C_slli 10 0 13; Addi 10 10 (u64 (-272))]
  ∧ ∃ l, riscv_copy_to_reg a0 0x123456789ABCDEF0 = Ok l ∧ loads l a0 0x123456789ABCDEF0 ∧ code_size l ≤ 26.
Proof. split; [vm_compute; reflexivity|]. apply (copy_to_reg_loads_constant a0); [discriminate | lia]. Defined.
End RiscvEmit.
