(* ===== verification/RiscvContext.v ===== *)
(** * Saving and restoring registers on the stack (arch/riscv/scanner_riscv.c)

    What the code of [riscv_push] and [riscv_pop] does on the machine of
    RiscvAsm: the emitted code of a push is [push_code], that of a pop
    [pop_code], for the registers of the set in ascending order; code that runs
    between the two and leaves the saved words and [sp] alone cannot disturb
    the saved registers. *)
From S2P Require Import Prelude RegList RiscvImm RiscvAsm RiscvEmit.
Import RegList RiscvImm RiscvAsm RiscvEmit.

Module RiscvContext.

(** The two configurations of a RISC-V build. *)
Definition riscv_target (t : target) : Prop := t = riscv ∨ t = riscv_compressed.

(** The registers of a set. *)
Definition regs_of (rs : Z) : list Z := regs_between rs 0 31.

(** ** The registers the loops go through *)

Lemma lowest_reg_spec t rs r l :
  riscv_target t → regs_of rs = r :: l → lowest_reg t rs = Ok r.
Proof.
  intros Ht Hr. unfold lowest_reg, get_lowest_n_regs. cbn [Z.ltb Z.compare Pos.compare].
  change (Z.to_nat 1) with 1%nat. rewrite lowest_loop_spec by (destruct Ht; subst t; simpl; lia).
  assert (last_reg t = 31) as -> by by destruct Ht; subst t. change (-1 + 1) with 0. fold (regs_of rs).
  by rewrite Hr.
Qed.

Lemma u32_lnot_testbit x n : 0 ≤ n < 32 → Z.testbit (u32 (Z.lnot x)) n = negb (Z.testbit x n).
Proof. intros Hn. unfold u32. by rewrite Z.mod_pow2_bits_low, Z.lnot_spec by lia. Qed.

Lemma clear_reg_spec rs r n :
  0 ≤ r < 32 → 0 ≤ n < 32 → Z.testbit (clear_reg rs r) n = Z.testbit rs n && negb (n =? r).
Proof.
  intros Hr Hn. unfold clear_reg. rewrite Z.land_spec, u32_lnot_testbit, Z.shiftl_1_l, Z.pow2_bits_eqb by lia.
  by rewrite Z.eqb_sym.
Qed.

Lemma clear_reg_range rs r : 0 ≤ clear_reg rs r < 2 ^ 32.
Proof.
  unfold clear_reg, u32. rewrite <- Z.land_ones by lia. rewrite Z.land_assoc, Z.land_ones by lia.
  by apply Z.mod_pos_bound.
Qed.

Lemma filter_ext_in {A} (P Q : A → Prop) `{∀ x, Decision (P x)} `{∀ x, Decision (Q x)} (l : list A) :
  (∀ x, x ∈ l → P x ↔ Q x) → filter P l = filter Q l.
Proof.
  induction l as [|x l IH]; intros H1; [done|]. rewrite !filter_cons.
  rewrite (decide_ext (P x) (Q x)) by (apply H1; left). rewrite IH; [done|]. intros y Hy. apply H1. by right.
Qed.

Lemma filter_all {A} (P : A → Prop) `{∀ x, Decision (P x)} (l : list A) : (∀ x, x ∈ l → P x) → filter P l = l.
Proof.
  induction l as [|x l IH]; intros H1; [done|]. rewrite filter_cons_True by (apply H1; left).
  f_equal. apply IH. intros y Hy. apply H1. by right.
Qed.

(** The registers of a set ascend; clearing the lowest one leaves the others. *)
Lemma regs_of_uncons rs r l :
  regs_of rs = r :: l → 0 ≤ r < 32 ∧ (∀ n, n ∈ l → r < n < 32) ∧ regs_of (clear_reg rs r) = l.
Proof.
  intros Hr. pose proof (regs_between_uncons rs 0 31) as Hu. fold (regs_of rs) in Hu. rewrite Hr in Hu.
  destruct Hu as [Hrange Hl]. injection Hl as Hl.
  assert (∀ n, n ∈ l → r < n < 32) as Hgt by (intros n; rewrite Hl, elem_of_regs_between; lia).
  split_and!; [lia..|done|].
  unfold regs_of, regs_between.
  rewrite (filter_ext_in _ (λ n, n ≠ r ∧ Z.testbit rs n = true)).
  - rewrite <- list_filter_filter. fold (regs_between rs 0 31) (regs_of rs). rewrite Hr.
    rewrite filter_cons_False by (intros H; by apply H). apply filter_all. intros n Hn. specialize (Hgt n Hn). lia.
  - intros n Hn. apply elem_of_seqZ in Hn. rewrite clear_reg_spec, andb_true_iff, negb_true_iff, Z.eqb_neq by lia.
    tauto.
Qed.

Lemma regs_of_nil rs : 0 ≤ rs < 2 ^ 32 → regs_of rs = [] ↔ rs = 0.
Proof.
  intros Hrs. split; [|intros ->; done]. intros Hn. apply Z.bits_inj'. intros n Hn0. rewrite Z.bits_0.
  destruct (decide (n < 32)); [|apply (testbit_small 32); lia].
  destruct (Z.testbit rs n) eqn:Hb; [|done].
  assert (n ∈ regs_of rs) as Hin by (apply elem_of_regs_between; split; [lia | done]).
  rewrite Hn in Hin. by apply not_elem_of_nil in Hin.
Qed.

(** ** The emitted code *)

Fixpoint push_code (l : list Z) (o : Z) : list inst :=
  match l with [] => [] | r :: l => Sd r sp (Z.shiftr o 5) o :: push_code l (o + 8) end.

Definition pop_inst (t : target) (r o : Z) : inst :=
  match t, riscv_create_cldsp_imm_pair o with
  | riscv_compressed, Some imm => C_ldsp r (immhi imm) (immlo imm)
  | _, _ => Ld r sp o
  end.

Fixpoint pop_code (t : target) (l : list Z) (o : Z) : list inst :=
  match l with [] => [] | r :: l => pop_inst t r o :: pop_code t l (o + 8) end.

Lemma push_loop_spec t l : ∀ rs fuel o,
  riscv_target t → 0 ≤ rs < 2 ^ 32 → regs_of rs = l → (length l < fuel)%nat →
  push_loop t fuel rs o = Ok (push_code l o).
Proof.
  induction l as [|r l IH]; intros rs fuel o Ht Hrs Hl Hf; (destruct fuel as [|fuel]; [simpl in Hf; lia|]).
  - apply regs_of_nil in Hl as ->; done.
  - cbn [push_loop]. destruct (Z.eqb_spec rs 0) as [->|]; [done|].
    rewrite (lowest_reg_spec t rs r l) by done. cbn [mbind outcome_bind].
    apply regs_of_uncons in Hl as (Hr & _ & Hl).
    rewrite (IH (clear_reg rs r)); [done | done | apply clear_reg_range | done | simpl in Hf; lia].
Qed.

Lemma cldsp_ok o :
  0 ≤ o < 512 → o mod 8 = 0 →
  ∃ p, riscv_create_cldsp_imm_pair o = Some p ∧ cldsp_imm (immhi p) (immlo p) = o.
Proof.
  intros Ho Hm.
  assert (forall_range 0 512 (λ o, implb (o mod 8 =? 0)
    (match riscv_create_cldsp_imm_pair o with
     | Some p => cldsp_imm (immhi p) (immlo p) =? o | None => false end)) = true) as Hall by by vm_compute.
  pose proof (forall_range_spec _ _ _ o Hall ltac:(lia)) as Hx. simpl in Hx. rewrite Hm in Hx. simpl in Hx.
  destruct (riscv_create_cldsp_imm_pair o) as [p|]; [|done]. exists p. split; [done|]. lia.
Qed.

Lemma pop_loop_spec t l : ∀ rs fuel o,
  riscv_target t → 0 ≤ rs < 2 ^ 32 → regs_of rs = l → (length l < fuel)%nat →
  0 ≤ o → o mod 8 = 0 → o + 8 * Z.of_nat (length l) ≤ 512 →
  pop_loop t fuel rs o = Ok (pop_code t l o, o + 8 * Z.of_nat (length l)).
Proof.
  induction l as [|r l IH]; intros rs fuel o Ht Hrs Hl Hf Ho Hm Hb; (destruct fuel as [|fuel]; [simpl in Hf; lia|]).
  - apply regs_of_nil in Hl as ->; [|done]. simpl. by rewrite Z.add_0_r.
  - cbn [pop_loop]. destruct (Z.eqb_spec rs 0) as [->|]; [done|].
    rewrite (lowest_reg_spec t rs r l) by done. cbn [mbind outcome_bind pop_code].
    apply regs_of_uncons in Hl as (Hr & _ & Hl). cbn [length] in *. change wordsz with 8.
    rewrite (IH (clear_reg rs r)); [|done | apply clear_reg_range | done | lia.. | |lia].
    2: { Z.div_mod_to_equations. lia. }
    destruct (cldsp_ok o) as (p & Hp & _); [lia | done |]. unfold pop_inst. rewrite Hp.
    replace (o + 8 + 8 * Z.of_nat (length l)) with (o + 8 * Z.of_nat (S (length l))) by lia.
    by destruct Ht; subst t.
Qed.

(** ** Running it *)

Lemma s_imm_shiftr o : 0 ≤ o < 2048 → s_imm (Z.shiftr o 5) o = o.
Proof.
  intros Ho. unfold s_imm, bits. rewrite Z.shiftr_div_pow2 by lia. change (2 ^ 0) with 1. rewrite !Z.div_1_r.
  rewrite (Z.mod_small (o / 2 ^ 5)) by (Z.div_mod_to_equations; lia).
  rewrite <- (signed_small 12 o) at 3 by lia. f_equal. Z.div_mod_to_equations. lia.
Qed.

Lemma imm12_small o : -2048 ≤ o < 2048 → imm12 o = o.
Proof. intros. by apply signed_small. Qed.

Lemma get_regs s s' r : regs s = regs s' → get s r = get s' r.
Proof. unfold get. by intros ->. Qed.

Lemma load_ext n a m m' : (∀ j, 0 ≤ j < Z.of_nat n → m (u64 (a + j)) = m' (u64 (a + j))) → load n m a = load n m' a.
Proof.
  revert a. induction n as [|n IH]; intros a Hj; [done|]. cbn [load]. f_equal.
  - specialize (Hj 0 ltac:(lia)). by rewrite Z.add_0_r in Hj.
  - f_equal. apply IH. intros j Hr. replace (a + 1 + j) with (a + (j + 1)) by lia. apply Hj. lia.
Qed.

(** [m'] is [m] but for the [n] words at [base + o]. *)
Definition frame (m m' : Z → Z) (base o n : Z) : Prop :=
  ∀ x, (∀ j, o ≤ j < o + 8 * n → x ≠ u64 (base + j)) → m' x = m x.

(** The words at [base + o] are the values of the registers [l] in [s]. *)
Definition saved (s : machine) (m : Z → Z) (base o : Z) (l : list Z) : Prop :=
  ∀ i r, l !! i = Some r → load 8 m (base + o + 8 * Z.of_nat i) = get s r.

Lemma push_code_size l o : code_size (push_code l o) = 4 * Z.of_nat (length l).
Proof.
  revert o. induction l as [|r l IH]; intros o; [done|]. cbn [push_code length].
  change (code_size (?i :: ?l)) with (inst_size i + code_size l). rewrite IH. cbn [inst_size]. lia.
Qed.

Lemma push_code_run l : ∀ o s,
  ok s → 0 ≤ o → o + 8 * Z.of_nat (length l) ≤ 2048 →
  let s' := run (push_code l o) s in
  regs s' = regs s ∧ pc s' = u64 (pc s + 4 * Z.of_nat (length l))
  ∧ frame (mem s) (mem s') (get s sp) o (Z.of_nat (length l))
  ∧ saved s (mem s') (get s sp) o l.
Proof.
  induction l as [|r l IH]; intros o s Hs Ho Hb.
  { split_and!; [done | | done |]; [|by intros i r].
    simpl. destruct Hs as [Hp _]. by rewrite Z.add_0_r, u64_small. }
  cbn [push_code length] in *. rewrite run_cons. set (s1 := exec (Sd r sp (Z.shiftr o 5) o) s).
  assert (regs s1 = regs s) as Hr1 by done.
  assert (mem s1 = store 8 (get s sp + o) (get s r) (mem s)) as Hm1.
  { subst s1. cbn [exec mem next set_pc set_mem]. by rewrite s_imm_shiftr by lia. }
  destruct (IH (o + 8) s1) as (Hr & Hp & Hf & Hsv); [by apply ok_exec | lia | lia |].
  replace (get s1 sp) with (get s sp) in * by done. split_and!.
  - by rewrite Hr.
  - rewrite Hp. cbn [s1 exec pc next set_pc set_mem inst_size]. rewrite u64_add_l. f_equal. lia.
  - intros x Hx. rewrite Hf by (intros j Hj; apply Hx; lia). rewrite Hm1. apply store_frame.
    intros j Hj. rewrite <- Z.add_assoc. apply Hx. lia.
  - intros [|i] r' Hi; simpl in Hi.
    + injection Hi as <-. rewrite Z.mul_0_r, Z.add_0_r.
      transitivity (load 8 (mem s1) (get s sp + o)); [|rewrite Hm1; apply load_store_8, Hs].
      apply load_ext. intros j Hj. apply Hf. intros k Hk. rewrite <- Z.add_assoc. apply u64_add_ne; lia.
    + specialize (Hsv i r' Hi). replace (get s1 r') with (get s r') in Hsv by done. rewrite <- Hsv. f_equal. lia.
Qed.

Lemma pop_inst_exec t r o s :
  0 ≤ o < 512 → o mod 8 = 0 →
  exec (pop_inst t r o) s = next (inst_size (pop_inst t r o)) (set r (load 8 (mem s) (get s sp + o)) s).
Proof.
  intros Ho Hm. unfold pop_inst. destruct (cldsp_ok o) as (p & -> & Hp); [done..|].
  destruct t; cbn [exec]; rewrite ?imm12_small, ?Hp by lia; done.
Qed.

Lemma pop_code_run t l : ∀ o s,
  ok s → (∀ r, r ∈ l → r ≠ 0 ∧ r ≠ sp) → NoDup l → 0 ≤ o → o mod 8 = 0 →
  o + 8 * Z.of_nat (length l) ≤ 512 →
  let s' := run (pop_code t l o) s in
  mem s' = mem s ∧ pc s' = u64 (pc s + code_size (pop_code t l o))
  ∧ (∀ r, r ∉ l → get s' r = get s r)
  ∧ (∀ i r, l !! i = Some r → get s' r = u64 (load 8 (mem s) (get s sp + o + 8 * Z.of_nat i))).
Proof.
  induction l as [|r l IH]; intros o s Hs Hl Hnd Ho Hm Hb.
  { split_and!; [done | | done | done]. simpl. destruct Hs as [Hp _]. by rewrite Z.add_0_r, u64_small. }
  cbn [pop_code length] in *. rewrite run_cons, pop_inst_exec by (done || lia).
  set (s1 := next _ _). apply NoDup_cons in Hnd as [Hr Hnd].
  destruct (Hl r) as [Hr0 Hrsp]; [left|].
  assert (get s1 sp = get s sp) as Hsp1 by (unfold s1; by rewrite get_next, get_set_ne).
  destruct (IH (o + 8) s1) as (Hmem & Hp & Hother & Hload); [by apply ok_next, ok_set | | done | lia | | lia |].
  { intros r' Hr'. apply Hl. by right. }
  { Z.div_mod_to_equations. lia. }
  split_and!.
  - done.
  - rewrite Hp. cbn [s1 pc next set_pc set]. rewrite u64_add_l. f_equal. unfold code_size. simpl. lia.
  - intros r' Hr'. apply not_elem_of_cons in Hr' as [Hne Hr']. rewrite Hother by done.
    unfold s1. by rewrite get_next, get_set_ne.
  - intros [|i] r' Hi; simpl in Hi.
    + injection Hi as <-. rewrite Hother by done. unfold s1. rewrite get_next, get_set_eq by done.
      by rewrite Z.mul_0_r, Z.add_0_r.
    + rewrite (Hload i r') by done. rewrite Hsp1. change (mem s1) with (mem s). do 2 f_equal. lia.
Qed.

Lemma pop_adjust_exec t o s :
  riscv_target t → 0 ≤ o < 512 →
  ∃ i, pop_adjust t o = Ok i ∧ exec i s = next (inst_size i) (set sp (get s sp + o) s).
Proof.
  intros Ht Ho. unfold pop_adjust.
  assert (forall_range 0 512 (λ o,
    match riscv_create_c_addi16sp_pair o with
    | Some p => c16sp_imm (immhi p) (immlo p) =? o | None => true end) = true) as Hall by by vm_compute.
  pose proof (forall_range_spec _ _ _ o Hall ltac:(lia)) as Hx. simpl in Hx.
  destruct (riscv_create_c_addi16sp_pair o) as [p|].
  - destruct Ht as [->| ->].
    + replace (o <=? 0x7FF) with true by lia. eexists. split; [done|]. cbn [exec]. by rewrite imm12_small by lia.
    + eexists. split; [done|]. cbn [exec]. by replace (c16sp_imm (immhi p) (immlo p)) with o by lia.
  - replace (o <=? 0x7FF) with true by lia. destruct Ht as [->| ->]; (eexists; split; [done|];
    cbn [exec]; by rewrite imm12_small by lia).
Qed.

Lemma regs_of_length rs : (length (regs_of rs) ≤ 32)%nat.
Proof. unfold regs_of, regs_between. etrans; [apply length_filter|]. by rewrite length_seqZ. Qed.

Lemma regs_of_NoDup rs : NoDup (regs_of rs).
Proof. apply NoDup_filter, NoDup_seqZ. Qed.

(** The stack space of a set. *)
Definition frame_size (rs : Z) : Z := 8 * Z.of_nat (length (regs_of rs)).

Lemma riscv_push_spec t rs s :
  riscv_target t → 0 ≤ rs < 2 ^ 32 → sp ∉ regs_of rs → ok s →
  ∃ p, riscv_push t rs = Ok p ∧
    let s1 := run p s in
    get s1 sp = u64 (get s sp - frame_size rs) ∧ (∀ r, r ≠ sp → get s1 r = get s r)
    ∧ frame (mem s) (mem s1) (get s1 sp) 0 (Z.of_nat (length (regs_of rs)))
    ∧ saved s (mem s1) (get s1 sp) 0 (regs_of rs)
    ∧ pc s1 = u64 (pc s + code_size p).
Proof.
  intros Ht Hrs Hsp Hs. pose proof (regs_of_length rs) as Hlen.
  unfold riscv_push, riscv_push_offset. rewrite count_bits_spec by done. fold (regs_of rs).
  cbn [mbind outcome_bind]. rewrite Z.add_0_r, Z.mul_comm. change wordsz with 8. fold (frame_size rs).
  assert (0 ≤ frame_size rs ≤ 256) as Hfs by (unfold frame_size; lia).
  replace (frame_size rs <=? 0x7FF) with true by lia. cbn [c_assert mbind outcome_bind].
  rewrite (push_loop_spec t (regs_of rs)) by (done || lia). eexists. split; [done|].
  rewrite run_cons. set (s0 := exec _ s).
  assert (get s0 sp = u64 (get s sp - frame_size rs)) as Hsp0.
  { unfold s0. cbn [exec]. rewrite get_next, get_set_eq, imm12_small by (done || lia). f_equal. }
  assert (∀ r, r ≠ sp → get s0 r = get s r) as Hr0.
  { intros r Hr. unfold s0. cbn [exec]. by rewrite get_next, get_set_ne. }
  destruct (push_code_run (regs_of rs) 0 s0) as (Hregs & Hpc & Hf & Hsv); [by apply ok_exec | lia | lia |].
  rewrite (get_regs _ s0 sp) by done. split_and!; [done | | done | |].
  - intros r Hr. rewrite (get_regs _ s0 r) by done. by apply Hr0.
  - intros i r Hi. rewrite (Hsv i r Hi). apply Hr0. intros ->. by apply Hsp, list_elem_of_lookup_2 with i.
  - rewrite Hpc. unfold s0. cbn [exec pc next set_pc set inst_size]. rewrite u64_add_l. f_equal.
    change (code_size (?i :: ?l)) with (inst_size i + code_size l). rewrite push_code_size. cbn [inst_size]. lia.
Qed.

Lemma riscv_pop_spec t rs s :
  riscv_target t → 0 ≤ rs < 2 ^ 32 → 0 ∉ regs_of rs → sp ∉ regs_of rs → ok s →
  ∃ q, riscv_pop t rs = Ok q ∧
    let s3 := run q s in
    mem s3 = mem s ∧ get s3 sp = u64 (get s sp + frame_size rs)
    ∧ (∀ r, r ∉ regs_of rs → r ≠ sp → get s3 r = get s r)
    ∧ (∀ i r, regs_of rs !! i = Some r → get s3 r = u64 (load 8 (mem s) (get s sp + 8 * Z.of_nat i)))
    ∧ pc s3 = u64 (pc s + code_size q).
Proof.
  intros Ht Hrs H0 Hsp Hs. pose proof (regs_of_length rs) as Hlen. unfold riscv_pop.
  rewrite (pop_loop_spec t (regs_of rs)) by (done || lia). cbn [mbind outcome_bind fst snd].
  rewrite Z.add_0_l. fold (frame_size rs). assert (0 ≤ frame_size rs ≤ 256) as Hfs by (unfold frame_size; lia).
  destruct (pop_adjust_exec t (frame_size rs) (run (pop_code t (regs_of rs) 0) s)) as (i & -> & Hi); [done | lia |].
  cbn [mbind outcome_bind]. eexists. split; [done|].
  destruct (pop_code_run t (regs_of rs) 0 s) as (Hmem & Hpc & Hother & Hload); [done | | apply regs_of_NoDup | lia | done | lia |].
  { intros r Hr. split; intros ->; done. }
  rewrite run_app. change (run [i] ?x) with (exec i x). rewrite Hi. split_and!.
  - done.
  - rewrite get_next, get_set_eq by done. by rewrite Hother.
  - intros r Hr Hne. rewrite get_next, get_set_ne by done. by apply Hother.
  - intros k r Hk. rewrite get_next, get_set_ne.
    + rewrite (Hload k r Hk). do 3 f_equal. lia.
    + intros ->. by apply Hsp, list_elem_of_lookup_2 with k.
  - cbn [pc next set_pc set]. rewrite Hpc, u64_add_l, code_size_app. unfold code_size at 3. cbn [foldr]. f_equal. lia.
Qed.

(** C24. Saving and restoring a set of registers is transparent. For any set
    without [x0] and [sp], [riscv_push] returns code that lowers [sp] by eight
    bytes per register and writes only to that space; whatever then runs and
    keeps [sp] and the space, the code of [riscv_pop] restores every register
    of the set and [sp], and changes no other register and no memory. *)
Theorem push_pop_roundtrip t rs s :
  riscv_target t → 0 ≤ rs < 2 ^ 32 → 0 ∉ regs_of rs → sp ∉ regs_of rs → ok s →
  ∃ p q, riscv_push t rs = Ok p ∧ riscv_pop t rs = Ok q ∧
    let s1 := run p s in
    get s1 sp = u64 (get s sp - frame_size rs) ∧ (∀ r, r ≠ sp → get s1 r = get s r)
    ∧ frame (mem s) (mem s1) (get s1 sp) 0 (Z.of_nat (length (regs_of rs)))
    ∧ ∀ s2, ok s2 → get s2 sp = get s1 sp →
        (∀ j, 0 ≤ j < frame_size rs → mem s2 (u64 (get s1 sp + j)) = mem s1 (u64 (get s1 sp + j))) →
        let s3 := run q s2 in
        mem s3 = mem s2 ∧ get s3 sp = get s sp ∧ (∀ r, r ∈ regs_of rs → get s3 r = get s r)
        ∧ (∀ r, r ∉ regs_of rs → r ≠ sp → get s3 r = get s2 r).
Proof.
  intros Ht Hrs H0 Hsp Hs.
  destruct (riscv_push_spec t rs s) as (p & Hp & Hsp1 & Hr1 & Hf & Hsv & _); [done..|].
  destruct (riscv_pop_spec t rs s) as (q & Hq & _); [done..|]. exists p, q. cbv zeta in *.
  split_and!; [done..|].
  intros s2 Hs2 Hsp2 Hmem2. destruct (riscv_pop_spec t rs s2) as (q' & Hq' & Hmem & Hsp3 & Hother & Hload & _); [done..|].
  rewrite Hq in Hq'. injection Hq' as <-. split_and!; [done | | | done].
  - rewrite Hsp3, Hsp2, Hsp1. rewrite u64_add_l, Z.sub_add. by apply u64_small, Hs.
  - intros r Hr. apply list_elem_of_lookup in Hr as [i Hi]. rewrite (Hload i r Hi).
    rewrite <- (u64_small (get s r)) by apply Hs. f_equal. rewrite <- (Hsv i r Hi), Hsp2, Z.add_0_r.
    apply load_ext. intros j Hj. rewrite <- Z.add_assoc. apply Hmem2.
    apply lookup_lt_Some in Hi. unfold frame_size. lia.
Qed.

Lemma push_pop_roundtrip_witness :
  let s := MkMachine 0x1000 (λ r, u64 (r * 0x123456789)) (λ _, 0) (λ _, 0) in
  ∃ p q, riscv_push riscv_compressed (reg_mask [s1; a0; a1]) = Ok p
    ∧ riscv_pop riscv_compressed (reg_mask [s1; a0; a1]) = Ok q
    ∧ let s1' := run p s in
      get s1' sp = u64 (get s sp - frame_size (reg_mask [s1; a0; a1])) ∧ (∀ r, r ≠ sp → get s1' r = get s r)
      ∧ frame (mem s) (mem s1') (get s1' sp) 0 (Z.of_nat (length (regs_of (reg_mask [s1; a0; a1]))))
      ∧ ∀ s2, ok s2 → get s2 sp = get s1' sp →
          (∀ j, 0 ≤ j < frame_size (reg_mask [s1; a0; a1]) → mem s2 (u64 (get s1' sp + j)) = mem s1' (u64 (get s1' sp + j))) →
          let s3 := run q s2 in
          mem s3 = mem s2 ∧ get s3 sp = get s sp ∧ (∀ r, r ∈ regs_of (reg_mask [s1; a0; a1]) → get s3 r = get s r)
          ∧ (∀ r, r ∉ regs_of (reg_mask [s1; a0; a1]) → r ≠ sp → get s3 r = get s2 r).
Proof.
  intros s. apply (push_pop_roundtrip riscv_compressed (reg_mask [s1; a0; a1]) s).
  - right. reflexivity.
  - vm_compute. split; [discriminate | reflexivity].
  - apply (bool_decide_eq_true_1 (0 ∉ regs_of (reg_mask [s1; a0; a1]))). vm_compute. reflexivity.
  - apply (bool_decide_eq_true_1 (sp ∉ regs_of (reg_mask [s1; a0; a1]))). vm_compute. reflexivity.
  - split; [simpl; lia|]. intros r. unfold get. destruct (r =? 0); [lia | apply u64_range].
Defined.
End RiscvContext.
