(* ===== verification/RiscvProg.v ===== *)
(** * Emitted code in memory

    The emitters write code into the code cache, and linking overwrites parts of
    it. A code memory maps an address to the instruction that starts there. The
    file defines writing, execution from the program counter and what of the
    memory a write leaves alone. *)
From stdpp Require Import relations.
From S2P Require Import Prelude RiscvImm RiscvAsm.
Import RiscvAsm.

Module RiscvProg.

Definition cmem := Z → option inst.

(** Writing an instruction makes those it overlaps unusable. *)
Definition put (a : Z) (i : inst) (m : cmem) : cmem := λ x,
  if x =? a then Some i
  else match m x with
       | Some j => if (x <? a + inst_size i) && (a <? x + inst_size j) then None else Some j
       | None => None
       end.

Fixpoint place (a : Z) (l : list inst) (m : cmem) : cmem :=
  match l with
  | [] => m
  | i :: l => place (a + inst_size i) l (put a i m)
  end.

Fixpoint code_at (m : cmem) (a : Z) (l : list inst) : Prop :=
  match l with
  | [] => True
  | i :: l => m a = Some i ∧ code_at m (a + inst_size i) l
  end.

(** One step of the machine, and any number. *)
Definition step (m : cmem) (s s' : machine) : Prop := ∃ i, m (pc s) = Some i ∧ s' = exec i s.
Definition reaches (m : cmem) : machine → machine → Prop := rtc (step m).

(** ** Writing *)

Definition disjoint (a n b k : Z) : Prop := a + n ≤ b ∨ b + k ≤ a.

(** An instruction outside the range [[a, a + n)] stays. *)
Definition keeps (a n : Z) (m m' : cmem) : Prop :=
  ∀ x i, m x = Some i → disjoint x (inst_size i) a n → m' x = Some i.

Lemma code_size_cons i l : code_size (i :: l) = inst_size i + code_size l.
Proof. done. Qed.

Lemma put_same a i m : put a i m a = Some i.
Proof. unfold put. by rewrite Z.eqb_refl. Qed.

Lemma put_keeps a i m : keeps a (inst_size i) m (put a i m).
Proof.
  intros x j Hx Hd. unfold put. pose proof (inst_size_pos i). pose proof (inst_size_pos j).
  destruct (Z.eqb_spec x a) as [->|Hne]; [unfold disjoint in Hd; lia|]. rewrite Hx.
  replace ((x <? a + inst_size i) && (a <? x + inst_size j)) with false; [done|].
  unfold disjoint in Hd. lia.
Qed.

Lemma keeps_refl a n m : keeps a n m m.
Proof. by intros x i. Qed.

Lemma keeps_trans a n b k c w m m' m'' :
  keeps a n m m' → keeps b k m' m'' → c ≤ a → a + n ≤ c + w → c ≤ b → b + k ≤ c + w → 0 ≤ n → 0 ≤ k → keeps c w m m''.
Proof. intros H1 H2 ? ? ? ? ? ? x i Hx Hd. unfold disjoint in Hd. apply H2; [apply H1; [done | unfold disjoint; lia] | unfold disjoint; lia]. Qed.

Lemma place_keeps l : ∀ a m, keeps a (code_size l) m (place a l m).
Proof.
  induction l as [|i l IH]; intros a m; [apply keeps_refl|].
  pose proof (code_size_nonneg l). pose proof (inst_size_pos i). cbn [place]. rewrite code_size_cons.
  eapply keeps_trans; [apply put_keeps | apply IH | lia..].
Qed.

Lemma place_code_at l : ∀ a m, code_at (place a l m) a l.
Proof.
  induction l as [|i l IH]; intros a m; [done|]. cbn [place code_at]. split; [|apply IH].
  apply place_keeps; [apply put_same | unfold disjoint; lia].
Qed.

Lemma place_app l1 l2 a m : place a (l1 ++ l2) m = place (a + code_size l1) l2 (place a l1 m).
Proof.
  revert a m. induction l1 as [|i l1 IH]; intros a m; [by rewrite Z.add_0_r|].
  cbn [app place]. rewrite IH, code_size_cons. f_equal. lia.
Qed.

Lemma place_app_at l1 l2 a b m : b = a + code_size l1 → place b l2 (place a l1 m) = place a (l1 ++ l2) m.
Proof. intros ->. by rewrite place_app. Qed.

Lemma code_at_app m l1 l2 a : code_at m a (l1 ++ l2) ↔ code_at m a l1 ∧ code_at m (a + code_size l1) l2.
Proof.
  revert a. induction l1 as [|i l1 IH]; intros a.
  - cbn [app code_at]. change (code_size []) with 0. rewrite Z.add_0_r. tauto.
  - cbn [app code_at]. rewrite IH, code_size_cons. replace (a + inst_size i + code_size l1) with (a + (inst_size i + code_size l1)) by lia.
    tauto.
Qed.

Lemma code_at_keeps m m' b k l : keeps b k m m' → ∀ a,
  code_at m a l → disjoint a (code_size l) b k → code_at m' a l.
Proof.
  intros Hk. induction l as [|i l IH]; intros a Hc Hd; [done|].
  destruct Hc as [Hi Hc]. rewrite code_size_cons in Hd. pose proof (code_size_nonneg l). pose proof (inst_size_pos i).
  unfold disjoint in *. split; [apply Hk; [done | unfold disjoint; lia] | apply IH; [done | lia]].
Qed.

(** ** Execution *)

Lemma reaches_refl m s : reaches m s s.
Proof. apply rtc_refl. Qed.
Lemma reaches_trans m s1 s2 s3 : reaches m s1 s2 → reaches m s2 s3 → reaches m s1 s3.
Proof. apply rtc_trans. Qed.
Lemma reaches_step m s i : m (pc s) = Some i → reaches m s (exec i s).
Proof. intros Hi. apply rtc_once. by exists i. Qed.

(** Instructions after which the next one is executed, and that leave the
    control registers alone. *)
Definition straight (i : inst) : bool :=
  match i with
  | Jal _ _ | Jalr _ _ _ | Branch _ _ _ _ _ | C_jr _ | C_beqz _ _ _ | C_bnez _ _ _ | Csrrs _ _ _ => false
  | _ => true
  end.

Lemma straight_pc i s : straight i = true → pc (exec i s) = u64 (pc s + inst_size i).
Proof. by destruct i. Qed.

Lemma run_straight m l : ∀ s,
  ok s → forallb straight l = true → code_at m (pc s) l → pc s + code_size l < 2 ^ 64 →
  reaches m s (run l s) ∧ pc (run l s) = pc s + code_size l.
Proof.
  induction l as [|i l IH]; intros s Hs Hl Hc Hsz.
  - split; [apply reaches_refl|]. by rewrite Z.add_0_r.
  - simpl in Hl. apply andb_true_iff in Hl as [Hi Hl]. destruct Hc as [Hm Hc].
    rewrite code_size_cons in *. pose proof (code_size_nonneg l). pose proof (inst_size_pos i). destruct Hs as [Hpc Hr].
    assert (pc (exec i s) = pc s + inst_size i) as Hpi by (rewrite straight_pc by done; apply u64_small; lia).
    destruct (IH (exec i s)) as [Hrun Hpr]; [by apply ok_exec | done | by rewrite Hpi | lia |].
    rewrite run_cons. split; [|lia]. eapply reaches_trans; [by apply reaches_step | done].
Qed.

Lemma run_csrs l : ∀ s, forallb straight l = true → csrs (run l s) = csrs s.
Proof.
  induction l as [|i l IH]; intros s Hl; [done|]. simpl in Hl. apply andb_true_iff in Hl as [Hi Hl].
  rewrite run_cons, IH by done. by destruct i.
Qed.

(** The state but for the program counter. *)
Definition same_state (s s' : machine) : Prop :=
  (∀ r, get s' r = get s r) ∧ mem s' = mem s ∧ csrs s' = csrs s.

Lemma same_state_refl s : same_state s s.
Proof. done. Qed.
Lemma same_state_trans s1 s2 s3 : same_state s1 s2 → same_state s2 s3 → same_state s1 s3.
Proof.
  intros (Hr & Hm & Hc) (Hr' & Hm' & Hc'). split_and!; [intros r; by rewrite Hr' | by rewrite Hm' | by rewrite Hc'].
Qed.

(** [s] goes on at [a] with nothing changed. *)
Definition goes_to (m : cmem) (s : machine) (a : Z) : Prop := ∃ s', reaches m s s' ∧ pc s' = a ∧ same_state s s' ∧ ok s'.

Lemma goes_to_here m s : ok s → goes_to m s (pc s).
Proof. intros. exists s. split_and!; [apply reaches_refl | done | apply same_state_refl | done]. Qed.

Lemma goes_to_trans m s a b : goes_to m s a → (∀ s', pc s' = a → ok s' → same_state s s' → goes_to m s' b) → goes_to m s b.
Proof.
  intros (s1 & Hr & Hp & Hs & Ho) H. destruct (H s1 Hp Ho Hs) as (s2 & Hr2 & Hp2 & Hs2 & Ho2).
  exists s2. split_and!; [by eapply reaches_trans | done | by eapply same_state_trans | done].
Qed.

(** ADDI zero, zero, 0 *)
Definition nop : inst := Addi zero zero 0.

Lemma goes_to_nops m n : ∀ s, ok s → code_at m (pc s) (replicate n nop) → pc s + 4 * Z.of_nat n < 2 ^ 64 →
  goes_to m s (pc s + 4 * Z.of_nat n).
Proof.
  induction n as [|n IH]; intros s Hs Hc Hp; [rewrite Z.add_0_r; by apply goes_to_here|].
  destruct Hc as [Hi Hc]. simpl in Hc. destruct Hs as [Hpc Hr].
  assert (pc (exec nop s) = pc s + 4) as Hpn by (rewrite straight_pc by done; apply u64_small; simpl; lia).
  eapply goes_to_trans.
  - exists (exec nop s). split_and!; [by apply reaches_step | exact Hpn | | by apply ok_exec].
    split_and!; [|done|done]. intros r. unfold nop. cbn [exec]. rewrite get_next.
    destruct (decide (r = zero)) as [->|]; [done | by rewrite get_set_ne].
  - intros s' Hp' Hs' _. replace (pc s + 4 * Z.of_nat (S n)) with (pc s' + 4 * Z.of_nat n) by lia.
    apply IH; [done | by rewrite Hp' | lia].
Qed.

(** JAL zero *)
Lemma goes_to_jal m s f a :
  ok s → m (pc s) = Some (Jal zero f) → u64 (pc s + j_imm f) = a → goes_to m s a.
Proof.
  intros Hs Hm Ha. exists (exec (Jal zero f) s). split_and!; [by apply reaches_step | done | | by apply ok_exec].
  split_and!; [|done|done]. intros r. cbn [exec]. rewrite get_set_pc.
  destruct (decide (r = zero)) as [->|]; [done | by rewrite get_set_ne].
Qed.
End RiscvProg.
