(* ===== verification/RiscvExec.v ===== *)
(** * What the branch, jump and context code does in memory

    The helpers of scanner_riscv.c that emit a jump, executed from the code
    memory: JAL, conditional branches, AUIPC with JALR, and the save and restore
    of registers on the stack. *)
From S2P Require Import Prelude RegList RiscvImm RiscvAsm RiscvEmit RiscvContext RiscvProg.
Import RegList RiscvImm RiscvEmit RiscvContext RiscvAsm RiscvProg.

Module RiscvExec.

(** ** JAL *)

Lemma j_imm_decode i : 0 ≤ i < 2 ^ 20 → j_imm i = riscv_decode_j_imm i.
Proof.
  intros Hi. unfold j_imm, riscv_decode_j_imm. rewrite !extr_alt by lia.
  rewrite u64_small by lia. unfold bits. rewrite !Z.shiftl_mul_pow2 by done.
  pose proof (Z.mod_pos_bound (i / 2 ^ 9) (2 ^ 10) ltac:(lia)). pose proof (Z.mod_pos_bound (i / 2 ^ 8) (2 ^ 1) ltac:(lia)).
  pose proof (Z.mod_pos_bound (i / 2 ^ 0) (2 ^ 8) ltac:(lia)). pose proof (Z.mod_pos_bound (i / 2 ^ 19) (2 ^ 1) ltac:(lia)).
  rewrite sign_extend_signed; [f_equal; lia | lia |]. lia.
Qed.

Lemma jal_helper_inv x y rd i :
  riscv_jal_helper x y rd = Some i → ∃ f, i = Jal rd f ∧ j_imm f = s64 (y - x).
Proof.
  unfold riscv_jal_helper. set (o := s64 (y - x)). destruct (jal_in_range o) eqn:Ho; [|done]. intros [= <-].
  eexists. split; [done|].
  assert (fits 20 o) as [He Hf].
  { unfold jal_in_range in Ho. rewrite even_land in Ho. unfold fits. destruct (Z.even o); simpl in Ho; [|done]. lia. }
  destruct (decode_jal_field o) as [Hrg Hd]; [done..|]. rewrite j_imm_decode by done. exact Hd.
Qed.

Lemma u64_to x y : 0 ≤ y < 2 ^ 64 → u64 (x + s64 (y - x)) = y.
Proof.
  intros Hy. unfold u64, s64. rewrite <- Zplus_mod_idemp_r, signed_mod_eq, Zplus_mod_idemp_r by done.
  replace (x + (y - x)) with y by lia. by apply Z.mod_small.
Qed.

Lemma jal_goes m s y i :
  riscv_jal_helper (pc s) y zero = Some i → m (pc s) = Some i → 0 ≤ y < 2 ^ 64 → ok s → goes_to m s y.
Proof.
  intros Hh Hm Hy Hs. destruct (jal_helper_inv _ _ _ _ Hh) as (f & -> & Hj).
  eapply goes_to_jal; [done | done |]. rewrite Hj. by apply u64_to.
Qed.

(** ** Conditional branches *)

Lemma b_imm_pair o :
  Z.even o = true → -4096 ≤ o < 4096 → ∃ p, riscv_create_b_imm_pair o = Some p ∧ b_imm (immhi p) (immlo p) = o.
Proof.
  intros He Ho.
  assert (forall_range (-4096) 8192 (λ o, implb (Z.even o)
    (match riscv_create_b_imm_pair o with Some p => b_imm (immhi p) (immlo p) =? o | None => false end)) = true) as Hall
    by by vm_compute.
  pose proof (forall_range_spec _ _ _ o Hall ltac:(lia)) as H. simpl in H. rewrite He in H. simpl in H.
  destruct (riscv_create_b_imm_pair o) as [p|]; [|done]. exists p. split; [done | lia].
Qed.

Lemma b_imm_pair_some o p : riscv_create_b_imm_pair o = Some p → Z.even o = true ∧ -4096 ≤ o < 4096.
Proof.
  unfold riscv_create_b_imm_pair. rewrite even_land. destruct (Z.even o); [|done]. simpl.
  case_bool_Z; simpl; try done; intros _; split; (done || lia).
Qed.

(** Two places whose distance an int holds. *)
Definition near (x y : Z) : Prop := - 2 ^ 31 ≤ y - x < 2 ^ 31.

Lemma near_offset x y : near x y → s32 (s64 (y - x)) = y - x.
Proof. unfold near. intros. rewrite s64_small, s32_small by lia. done. Qed.

Lemma branch_helper_inv x y r1 r2 c i :
  riscv_branch_helper x y r1 r2 c = Some i → near x y →
  ∃ hi lo, i = Branch c r1 r2 hi lo ∧ b_imm hi lo = y - x.
Proof.
  unfold riscv_branch_helper. intros Hh Hn. rewrite near_offset in Hh by done.
  destruct (riscv_create_b_imm_pair (y - x)) as [p|] eqn:Hp; [|done]. injection Hh as <-.
  destruct (b_imm_pair_some _ _ Hp) as [He Hr]. destruct (b_imm_pair _ He Hr) as (p' & Hp' & Hb).
  rewrite Hp in Hp'. injection Hp' as <-. by exists (immhi p), (immlo p).
Qed.

Lemma branch_helper_some x y r1 r2 c :
  Z.even (y - x) = true → -4096 ≤ y - x < 4096 → ∃ i, riscv_branch_helper x y r1 r2 c = Some i ∧ inst_size i = 4.
Proof.
  intros He Hr. unfold riscv_branch_helper. rewrite near_offset by (unfold near; lia).
  destruct (b_imm_pair _ He Hr) as (p & -> & _). by eexists.
Qed.

Lemma branch_goes m s y r1 r2 c i :
  riscv_branch_helper (pc s) y r1 r2 c = Some i → near (pc s) y → m (pc s) = Some i → 0 ≤ y < 2 ^ 64 → ok s →
  pc s + 4 < 2 ^ 64 → goes_to m s (if holds c (get s r1) (get s r2) then y else pc s + 4).
Proof.
  intros Hh Hn Hm Hy Hs Hp. destruct (branch_helper_inv _ _ _ _ _ _ Hh Hn) as (hi & lo & -> & Hb).
  exists (exec (Branch c r1 r2 hi lo) s). split_and!; [by apply reaches_step | | | by apply ok_exec].
  - destruct Hs as [Hpc _]. cbn [exec]. destruct (holds _ _ _); cbn [set_pc next pc inst_size].
    + rewrite Hb. rewrite u64_small by lia. lia.
    + by rewrite u64_small by lia.
  - cbn [exec]. by destruct (holds _ _ _).
Qed.

(** ** AUIPC with JALR *)

Lemma bits_small w x : 0 ≤ x < 2 ^ w → bits w 0 x = x.
Proof. intros. unfold bits. rewrite Z.div_1_r. by apply Z.mod_small. Qed.

Lemma jalr_goes m s y rd rs1 l :
  riscv_jalr_helper (pc s) y rd rs1 = Some l → code_at m (pc s) l →
  - 2 ^ 31 ≤ y - pc s < 2 ^ 31 - 2048 → Z.even y = true → 0 ≤ y < 2 ^ 64 → ok s → pc s + 8 < 2 ^ 64 → rs1 ≠ 0 →
  ∃ s', reaches m s s' ∧ pc s' = y ∧ ok s' ∧ mem s' = mem s ∧ csrs s' = csrs s
    ∧ (rd ≠ 0 → get s' rd = pc s + 8) ∧ (∀ r, r ≠ rd → r ≠ rs1 → get s' r = get s r).
Proof.
  intros Hh Hc Hd He Hy Hs Hp H1. unfold riscv_jalr_helper in Hh. rewrite s64_small in Hh by lia.
  set (o := y - pc s) in *. change INT_MIN with (- 2 ^ 31) in Hh. change INT_MAX with (2 ^ 31 - 1) in Hh.
  replace ((o <? - 2 ^ 31) || (2 ^ 31 - 1 <? o)) with false in Hh by lia. injection Hh as <-.
  destruct Hc as (Ha & Hj & _). set (i1 := Auipc _ _) in *. set (i2 := Jalr _ _ _) in *. destruct Hs as [Hpc Hr].
  assert (pc (exec i1 s) = pc s + 4) as Hp1 by (rewrite straight_pc by done; apply u64_small; simpl; lia).
  assert (get (exec i1 s) rs1 = u64 (pc s + (o + 0x800) / 4096 * 4096)) as Hg.
  { unfold i1. cbn [exec]. rewrite get_next, get_set_eq by done. f_equal. f_equal. unfold u_imm.
    rewrite Z.shiftr_div_pow2 by done. change (2 ^ 12) with 4096. apply signed_small; [done|].
    Z.div_mod_to_equations. lia. }
  assert (u64 (get (exec i1 s) rs1 + imm12 (Z.land o 0xFFF)) = y) as Ht.
  { rewrite Hg, u64_add_l. unfold imm12. change 0xFFF with (Z.ones 12). rewrite land_mask by done. change (2 ^ 12) with 4096.
    rewrite <- Z.add_assoc, <- low12_split. replace (pc s + o) with y by lia. by apply u64_small. }
  exists (exec i2 (exec i1 s)). split_and!; try done.
  - eapply reaches_trans; apply reaches_step; [done | by rewrite Hp1].
  - unfold i2. cbn [exec pc set_pc]. set (z := get (exec i1 s) rs1 + imm12 (Z.land o 0xFFF)) in *.
    apply Z.even_spec in He as [h Hh]. pose proof (Z.div_mod z (2 ^ 64) ltac:(done)) as Hz.
    change (z mod 2 ^ 64) with (u64 z) in Hz. rewrite Ht in Hz.
    replace (2 * (z / 2)) with z; [done|]. Z.div_mod_to_equations. lia.
  - by repeat apply ok_exec.
  - intros Hrd. unfold i2. cbn [exec]. rewrite get_set_pc, get_set_eq by done. rewrite Hp1, u64_small by lia. lia.
  - intros r Hr1 Hr2. unfold i2, i1. cbn [exec]. rewrite get_set_pc, get_set_ne, get_next, get_set_ne by done. done.
Qed.

(** ** Straight code *)

Lemma push_loop_straight t fuel : ∀ rs o l, push_loop t fuel rs o = Ok l → forallb straight l = true.
Proof.
  induction fuel as [|fuel IH]; intros rs o l; [done|]. cbn [push_loop]. destruct (rs =? 0); [by intros [= <-]|].
  intros H. apply bind_ok_inv in H as (r & _ & H). apply bind_ok_inv in H as (l' & Hl & [= <-]). simpl. by eapply IH.
Qed.

Lemma push_straight t rs p : riscv_push t rs = Ok p → forallb straight p = true.
Proof.
  unfold riscv_push, riscv_push_offset. intros H. apply bind_ok_inv in H as (n & _ & H).
  apply bind_ok_inv in H as ([] & _ & H). apply bind_ok_inv in H as (l & Hl & [= <-]). simpl. by eapply push_loop_straight.
Qed.

Lemma pop_loop_straight t fuel : ∀ rs o l, pop_loop t fuel rs o = Ok l → forallb straight (fst l) = true.
Proof.
  induction fuel as [|fuel IH]; intros rs o l; [done|]. cbn [pop_loop]. destruct (rs =? 0); [by intros [= <-]|].
  intros H. apply bind_ok_inv in H as (r & _ & H). apply bind_ok_inv in H as (i & Hi & H).
  apply bind_ok_inv in H as (l' & Hl & [= <-]). simpl. rewrite (IH _ _ _ Hl), andb_true_r.
  repeat case_match; by simplify_eq.
Qed.

Lemma pop_straight t rs q : riscv_pop t rs = Ok q → forallb straight q = true.
Proof.
  unfold riscv_pop. intros H. apply bind_ok_inv in H as (l & Hl & H). apply bind_ok_inv in H as (i & Hi & [= <-]).
  rewrite forallb_app, (pop_loop_straight _ _ _ _ _ Hl). simpl. rewrite andb_true_r. unfold pop_adjust in Hi.
  destruct t; repeat case_match; simplify_eq; try done; apply bind_ok_inv in Hi as (? & _ & [= <-]); done.
Qed.

Lemma copy_straight fuel : ∀ reg v l, riscv_copy_to_reg_64bits fuel reg v = Ok l → forallb straight l = true.
Proof.
  induction fuel as [|fuel IH]; intros reg v l; [done|]. cbn [riscv_copy_to_reg_64bits].
  destruct (_ && _).
  - intros [= <-]. unfold riscv_copy_to_reg_32bits. rewrite forallb_app. by repeat case_match.
  - intros H. apply bind_ok_inv in H as (l' & Hl & [= <-]). rewrite forallb_app, (IH _ _ _ Hl). simpl. by case_match.
Qed.

(** A constant, with the code in memory. *)
Lemma copy_reaches reg v :
  reg ≠ 0 → 0 ≤ v < 2 ^ 64 →
  ∃ l, riscv_copy_to_reg reg v = Ok l ∧ code_size l ≤ 26
    ∧ ∀ m s, ok s → code_at m (pc s) l → pc s + code_size l < 2 ^ 64 →
        ∃ s', reaches m s s' ∧ pc s' = pc s + code_size l ∧ ok s' ∧ mem s' = mem s ∧ csrs s' = csrs s
          ∧ get s' reg = v ∧ ∀ r, r ≠ reg → get s' r = get s r.
Proof.
  intros Hr Hv. destruct (copy_64bits_loads reg 3 v) as (l & Hl & Hld & Hsz); [done | done | lia |].
  exists l. split_and!; [done | done |]. intros m s Hs Hc Hp. destruct (Hld s Hs) as (Hg & Hm & Hcs & _ & Ho).
  destruct (run_straight m l s Hs) as [Hrun Hpc]; [by eapply copy_straight | done | done |].
  exists (run l s). split_and!; try done; [by apply ok_run | by rewrite Hg, u64_small].
Qed.

(** ** Saved registers *)

Lemma push_reaches t rs p m s :
  riscv_target t → 0 ≤ rs < 2 ^ 32 → sp ∉ regs_of rs → riscv_push t rs = Ok p →
  ok s → code_at m (pc s) p → pc s + code_size p < 2 ^ 64 →
  ∃ s', reaches m s s' ∧ pc s' = pc s + code_size p ∧ ok s' ∧ csrs s' = csrs s
    ∧ get s' sp = u64 (get s sp - frame_size rs) ∧ (∀ r, r ≠ sp → get s' r = get s r)
    ∧ frame (mem s) (mem s') (get s' sp) 0 (Z.of_nat (length (regs_of rs)))
    ∧ saved s (mem s') (get s' sp) 0 (regs_of rs).
Proof.
  intros Ht Hrs Hsp Hp Hs Hc Hsz. destruct (riscv_push_spec t rs s Ht Hrs Hsp Hs) as (p' & Hp' & H1 & H2 & H3 & H4 & _).
  rewrite Hp in Hp'. injection Hp' as <-. destruct (run_straight m p s Hs) as [Hrun Hpc]; [by eapply push_straight | done | done |].
  exists (run p s). split_and!; try done; [by apply ok_run | apply run_csrs; by eapply push_straight].
Qed.

Lemma pop_reaches t rs q m s :
  riscv_target t → 0 ≤ rs < 2 ^ 32 → 0 ∉ regs_of rs → sp ∉ regs_of rs → riscv_pop t rs = Ok q →
  ok s → code_at m (pc s) q → pc s + code_size q < 2 ^ 64 →
  ∃ s', reaches m s s' ∧ pc s' = pc s + code_size q ∧ ok s' ∧ csrs s' = csrs s ∧ mem s' = mem s
    ∧ get s' sp = u64 (get s sp + frame_size rs) ∧ (∀ r, r ∉ regs_of rs → r ≠ sp → get s' r = get s r)
    ∧ ∀ i r, regs_of rs !! i = Some r → get s' r = u64 (load 8 (mem s) (get s sp + 8 * Z.of_nat i)).
Proof.
  intros Ht Hrs H0 Hsp Hq Hs Hc Hsz. destruct (riscv_pop_spec t rs s Ht Hrs H0 Hsp Hs) as (q' & Hq' & H1 & H2 & H3 & H4 & _).
  rewrite Hq in Hq'. injection Hq' as <-. destruct (run_straight m q s Hs) as [Hrun Hpc]; [by eapply pop_straight | done | done |].
  exists (run q s). split_and!; try done; [by apply ok_run | apply run_csrs; by eapply pop_straight].
Qed.
End RiscvExec.
