(* ===== verification/RiscvLink.v ===== *)
(** * Linking of RISC-V blocks (arch/riscv/dispatcher_riscv.c)

    When the dispatcher has translated the target of a direct exit it overwrites
    the exit: with a JAL, with a chain of JALs through trampoline slots of other
    blocks, or with a saved context and an indirect jump. The state is the thread
    of Dbm with its metadata and link records, and the code memory. *)
From S2P Require Import Prelude LinearProbe CodeCacheHash LinkedList AddressTable Dbm.
From S2P Require Import RegList RiscvImm RiscvAsm RiscvEmit RiscvContext RiscvProg RiscvExec.
Import Dbm RegList RiscvImm RiscvEmit RiscvContext RiscvAsm RiscvProg RiscvExec.

Module RiscvLink.

Definition RISCV_JAL_RANGE : Z := 1024 * 1024.
Definition RISCV_TRAMPOLINE_MAX_HOPS : nat := 8.
Definition RISCV_TRAMPOLINE_SLOTS : Z := 6.
Definition RISCV_TRAMPOLINE_MAX_DISTANCE : Z := 3 * 1024 * 1024.

Definition riscv_jal_can_reach (from target : Z) : bool :=
  let offset := s64 (target - from) in
  negb (negb (Z.land offset 1 =? 0)) && (- RISCV_JAL_RANGE <=? offset) && (offset <? RISCV_JAL_RANGE).

Definition riscv_address_distance (a b : Z) : Z := if b <=? a then a - b else b - a.

Section link.
Context (cfg : config) {T : Type} `{!AddressTable T (TABLE_SIZE cfg)}.

(** The thread and the code memory. *)
Notation state := (dbm_thread T * cmem)%type.

(** The next free slot of a block, if it has one. *)
Definition free_slot (m : dbm_code_cache_meta) : option Z :=
  match trampoline_addr m with
  | Some a => if RISCV_TRAMPOLINE_SLOTS <=? trampoline_slots_used m then None
              else Some (a + trampoline_slots_used m * 4)
  | None => None
  end.

Definition between (source target candidate : Z) : bool :=
  if source <? target then (source <? candidate) && (candidate <? target)
  else (candidate <? source) && (target <? candidate).

Definition find_step (th : dbm_thread T) (source target i : Z) (best : option (Z * Z)) : outcome (option (Z * Z)) :=
  m ← aget (code_cache_meta th) i;
  Ok (match free_slot m with
      | Some candidate =>
          if between source target candidate && riscv_jal_can_reach candidate target
             && match best with
                | None => true
                | Some (_, best_addr) =>
                    if source <? target then candidate <? best_addr else best_addr <? candidate
                end
          then Some (i, candidate) else best
      | None => best
      end).

(** The block of the slot and the address of the slot. *)
Definition riscv_find_trampoline_slot (th : dbm_thread T) (source target : Z) : outcome (option (Z * Z)) :=
  c_for (Z.to_nat (free_block th - trampolines_size_bbs cfg)) (trampolines_size_bbs cfg)
    (find_step th source target) None.

(** The first loop of [riscv_try_jump_trampolines]: from the target backwards,
    with the hops that are left. *)
Fixpoint find_slots (hops : nat) (th : dbm_thread T) (source next_target : Z) (slots : list (Z * Z))
    : outcome (option (list (Z * Z) * Z)) :=
  if riscv_jal_can_reach source next_target then Ok (Some (slots, next_target))
  else match hops with
       | O => Ok None
       | S hops =>
           best ← riscv_find_trampoline_slot th source next_target;
           match best with
           | None => Ok None
           | Some (i, a) => find_slots hops th source a (slots ++ [(i, a)])
           end
       end.

(** The second loop writes the slots; [to] is where the next one jumps to. *)
Fixpoint write_slots (to : Z) (slots : list (Z * Z)) (st : state) : outcome state :=
  match slots with
  | [] => Ok st
  | (i, a) :: slots =>
      match riscv_jal_helper a to zero with
      | None => Err AssertFail
      | Some j =>
          th ← upd_meta i (λ m, set_trampoline_slots_used (trampoline_slots_used m + 1) m) (fst st);
          write_slots a slots (th, put a j (snd st))
      end
  end.

(** The result 0 or -1. *)
Definition riscv_try_jump_trampolines (st : state) (source target : Z) : outcome (Z * state) :=
  if RISCV_TRAMPOLINE_MAX_DISTANCE <=? riscv_address_distance source target then Ok (-1, st)
  else
    found ← find_slots RISCV_TRAMPOLINE_MAX_HOPS (fst st) source target [];
    match found with
    | None => Ok (-1, st)
    | Some (slots, next_target) =>
        st ← write_slots target slots st;
        match riscv_jal_helper source next_target zero with
        | None => Err AssertFail
        | Some j => Ok (0, (fst st, put source j (snd st)))
        end
    end.

Definition riscv_pad_direct_link (write_p : Z) (text : cmem) : Z * cmem :=
  if DBM_TRACES cfg then (write_p + 16, place write_p (replicate 4 nop) text) else (write_p, text).

(** The code of [riscv_link_to]: the result, the new write pointer and the
    state. *)
Definition link_code (st : state) (o_write_p target : Z) : outcome (Z * Z * state) :=
  match riscv_jal_helper o_write_p (target + 6) zero with
  | Some j =>
      let '(write_p, text) := riscv_pad_direct_link (o_write_p + 4) (put o_write_p j (snd st)) in
      Ok (0, write_p, (fst st, text))
  | None =>
      tried ← (if DBM_JUMP_TRAMPOLINES cfg then riscv_try_jump_trampolines st o_write_p (target + 6)
               else Ok (-1, st));
      if fst tried =? 0 then
        let '(write_p, text) := riscv_pad_direct_link (o_write_p + 4) (snd (snd tried)) in
        Ok (0, write_p, (fst (snd tried), text))
      else
        push ← riscv_push (cfg_target cfg) (reg_mask [a0; a1]);
        let text := place o_write_p push (snd st) in
        let write_p := o_write_p + code_size push in
        match riscv_jalr_helper write_p target zero a0 with
        | Some l => Ok (0, write_p + 8, (fst st, place write_p l text))
        | None => Ok (-1, write_p, (fst st, text))
        end
  end.

Definition riscv_link_to (st : state) (o_write_p target : Z) : outcome (Z * Z * state) :=
  r ← link_code st o_write_p target;
  let '(ret, write_p, (th, text)) := r in
  th ← record_cc_link cfg th o_write_p target;
  Ok (ret, write_p, (th, text)).

(** [ret = riscv_link_to(...); assert(ret == 0);] *)
Definition link_checked (st : state) (write_p target : Z) : outcome (Z * state) :=
  r ← riscv_link_to st write_p target;
  c_assert (fst (fst r) =? 0);;
  Ok (snd (fst r), snd r).

Definition link_if (b : bool) (st : state) (write_p target : Z) : outcome (Z * state) :=
  if b then link_checked st write_p target else Ok (write_p, st).

(** The end of the written code and the state; its cache lines are cleared. *)
Definition riscv_link_branch (st : state) (bb_id : Z) : outcome (Z * state) :=
  let th := fst st in
  meta ← aget (code_cache_meta th) bb_id;
  let write_p := exit_branch_addr meta in
  target_tpc ← cc_lookup cfg th (branch_taken_addr meta);
  let target_in_cc := negb (target_tpc =? UINT_MAX) in
  fallthrough_tpc ← cc_lookup cfg th (branch_skipped_addr meta);
  let fallthrough_in_cc := negb (fallthrough_tpc =? UINT_MAX) in
  c_assert (target_in_cc || fallthrough_in_cc);;
  let cond := cond_of (Dbm.branch_condition meta) in
  let branch_to write_p target cond := riscv_branch_helper write_p target (rs1 meta) (rs2 meta) cond in
  match (if target_in_cc then branch_to write_p (target_tpc + 6) cond else None) with
  | Some b =>
      th ← record_cc_link cfg th write_p (target_tpc + 6);
      link_if fallthrough_in_cc (th, put write_p b (snd st)) (write_p + 4) fallthrough_tpc
  | None =>
      match (if fallthrough_in_cc then branch_to write_p (target_tpc + 6) (invert_cond cond) else None) with
      | Some b =>
          th ← record_cc_link cfg th write_p (target_tpc + 6);
          link_if target_in_cc (th, put write_p b (snd st)) (write_p + 4) target_tpc
      | None =>
          let '(target_tpc, cond, fallthrough_in_cc) :=
            if target_in_cc then (target_tpc, invert_cond cond, fallthrough_in_cc)
            else (fallthrough_tpc, invert_cond (invert_cond cond), false) in
          r ← link_checked st (write_p + 4) target_tpc;
          match branch_to write_p (fst r) cond with
          | None => Err AssertFail
          | Some b => link_if fallthrough_in_cc (fst (snd r), put write_p b (snd (snd r))) (fst r) fallthrough_tpc
          end
      end
  end.

Definition dispatcher_riscv (st : state) (source_index : Z) (exit_type : branch_type) (block_address : Z)
    : outcome (Z * state) :=
  match exit_type with
  | branch_riscv => riscv_link_branch st source_index
  | jal_riscv =>
      meta ← aget (code_cache_meta (fst st)) source_index;
      link_checked st (exit_branch_addr meta) block_address
  | _ => Ok (0, st)
  end.
End link.

(** ** Trampoline slots *)

Section slots.
Context (cfg : config) {T : Type} `{!AddressTable T (TABLE_SIZE cfg)}.
Implicit Types (th : dbm_thread T).

(** [a] is the next slot of block [i], and it leads on from [source] to
    [target]. *)
Definition usable_slot th (source target i a : Z) : Prop :=
  0 ≤ i ∧ ∃ m, code_cache_meta th !! Z.to_nat i = Some m ∧ free_slot m = Some a
    ∧ between source target a = true ∧ riscv_jal_can_reach a target = true.

(** The usable slot nearest to the source. *)
Definition nearest_slot th (source target lo hi : Z) (best : option (Z * Z)) : Prop :=
  match best with
  | Some (i, a) =>
      lo ≤ i < hi ∧ usable_slot th source target i a
      ∧ ∀ j b, lo ≤ j < hi → usable_slot th source target j b →
          riscv_address_distance source a ≤ riscv_address_distance source b
  | None => ∀ j b, lo ≤ j < hi → ¬ usable_slot th source target j b
  end.

Lemma between_spec source target a :
  between source target a = true ↔ source < a < target ∨ target < a < source.
Proof. unfold between. destruct (Z.ltb_spec source target); rewrite andb_true_iff, !Z.ltb_lt; lia. Qed.

Lemma usable_here th source target i m a :
  0 ≤ i → code_cache_meta th !! Z.to_nat i = Some m →
  usable_slot th source target i a ↔
  free_slot m = Some a ∧ between source target a = true ∧ riscv_jal_can_reach a target = true.
Proof. intros Hi Hm. unfold usable_slot. split; [intros (_ & m' & ? & ?); by simplify_eq | eauto]. Qed.

Lemma find_step_spec th source target lo i best :
  0 ≤ lo ≤ i → i < Z.of_nat (length (code_cache_meta th)) → nearest_slot th source target lo i best →
  ∃ best', find_step th source target i best = Ok best' ∧ nearest_slot th source target lo (i + 1) best'.
Proof.
  intros Hlo Hi Hb. destruct (lookup_lt_is_Some_2 (code_cache_meta th) (Z.to_nat i)) as [m Hm]; [lia|].
  unfold find_step. rewrite (aget_lookup _ _ m) by (done || lia). cbn [mbind outcome_bind].
  eexists. split; [done|].
  assert (∀ j b, lo ≤ j < i + 1 → usable_slot th source target j b →
    (lo ≤ j < i ∧ usable_slot th source target j b)
    ∨ j = i ∧ free_slot m = Some b ∧ between source target b = true ∧ riscv_jal_can_reach b target = true) as Hsplit.
  { intros j b Hj Hu. destruct (decide (j = i)) as [->|]; [right | left; split; [lia | done]].
    split; [done|]. by apply (usable_here th source target i m b) in Hu; [|lia|]. }
  assert (∀ i' a, (∀ c, free_slot m = Some c → between source target c = true → riscv_jal_can_reach c target = true →
      riscv_address_distance source a ≤ riscv_address_distance source c) →
    nearest_slot th source target lo i (Some (i', a)) → nearest_slot th source target lo (i + 1) (Some (i', a))) as Hkeep.
  { intros i' a Ha (Hi' & Hu & Hmin). split_and!; [lia | lia | done |]. intros j b Hj Hub.
    destruct (Hsplit j b Hj Hub) as [[Hj' ?] | (-> & Hf & Hbt & Hr)]; [by apply (Hmin j) | by apply Ha]. }
  destruct (free_slot m) as [c|] eqn:Hf.
  2: { destruct best as [[i' a]|]; [apply Hkeep; [by intros | done]|].
       intros j b Hj Hu. destruct (Hsplit j b Hj Hu) as [[? ?] | (_ & ? & _)]; [by apply (Hb j b) | done]. }
  destruct (between source target c) eqn:Hbt, (riscv_jal_can_reach c target) eqn:Hr; cbn [andb].
  2-4: destruct best as [[i' a]|];
    [apply Hkeep; [intros c' [= <-]; congruence | done]
    |intros j b Hj Hu; destruct (Hsplit j b Hj Hu) as [[? ?] | (_ & [= ->] & ? & ?)]; [by apply (Hb j b) | congruence]].
  assert (usable_slot th source target i c) as Huc by (apply (usable_here _ _ _ _ m); [lia | done | done]).
  apply between_spec in Hbt.
  destruct best as [[i' a]|].
  - destruct Hb as (Hi' & Hu & Hmin). pose proof Hu as (_ & ma & _ & _ & Hba & _). apply between_spec in Hba.
    destruct (if source <? target then c <? a else a <? c) eqn:Hbetter.
    + split_and!; [lia | lia | done |]. intros j b Hj Hub.
      destruct (Hsplit j b Hj Hub) as [[Hj' ?] | (-> & [= <-] & _)]; [|lia].
      etrans; [|by apply (Hmin j)]. unfold riscv_address_distance.
      destruct (Z.ltb_spec source target); case_bool_Z; lia.
    + apply Hkeep; [|exact (conj Hi' (conj Hu Hmin))]. intros c' [= <-] _ _. unfold riscv_address_distance.
      destruct (Z.ltb_spec source target); case_bool_Z; lia.
  - split_and!; [lia | lia | done |]. intros j b Hj Hub.
    destruct (Hsplit j b Hj Hub) as [[Hj' ?] | (-> & [= <-] & _)]; [by destruct (Hb j b) | lia].
Qed.

Lemma find_slot_spec th source target :
  0 ≤ trampolines_size_bbs cfg → trampolines_size_bbs cfg ≤ free_block th ≤ Z.of_nat (length (code_cache_meta th)) →
  ∃ r, riscv_find_trampoline_slot cfg th source target = Ok r
    ∧ nearest_slot th source target (trampolines_size_bbs cfg) (free_block th) r.
Proof.
  intros H0 Hf. unfold riscv_find_trampoline_slot.
  destruct (c_for_inv (λ i best, nearest_slot th source target (trampolines_size_bbs cfg) i best)
    (Z.to_nat (free_block th - trampolines_size_bbs cfg)) (trampolines_size_bbs cfg)
    (find_step th source target) None) as (r & Hr & Hn).
  - intros j b Hj. lia.
  - intros j s Hj Hs. apply find_step_spec; [lia | lia | done].
  - exists r. split; [done|]. by replace (_ + _) with (free_block th) in Hn by lia.
Qed.
End slots.

Lemma can_reach_helper x y : riscv_jal_can_reach x y = true → ∃ f, riscv_jal_helper x y zero = Some (Jal zero f).
Proof.
  intros Hr. unfold riscv_jal_helper. set (o := s64 (y - x)) in *.
  assert (jal_in_range o = true) as ->; [|by eexists].
  unfold jal_in_range. unfold riscv_jal_can_reach in Hr. change RISCV_JAL_RANGE with (1024 * 1024) in Hr. fold o in Hr.
  destruct (negb (Z.land o 1 =? 0)), (Z.ltb_spec o (- 1024 * 1024)), (Z.leb_spec (1024 * 1024) o); simpl in *; lia.
Qed.

(** *** Slots in the metadata *)

Definition slot_later (m m' : dbm_code_cache_meta) : Prop :=
  ∃ u, trampoline_slots_used m ≤ u ∧ m' = set_trampoline_slots_used u m.

(** Slots are only used up. *)
Definition slot_le (m m' : dbm_code_cache_meta) : Prop :=
  trampoline_addr m' = trampoline_addr m ∧ trampoline_slots_used m ≤ trampoline_slots_used m'.

(** The slots of the blocks are inside the address space and do not overlap. *)
Record slots_wf (ms : list dbm_code_cache_meta) : Prop := {
  slots_used_range i m a : ms !! i = Some m → trampoline_addr m = Some a →
    0 ≤ trampoline_slots_used m ≤ RISCV_TRAMPOLINE_SLOTS ∧ 0 ≤ a < 2 ^ 63;
  slots_apart i j mi mj a b : i ≠ j → ms !! i = Some mi → ms !! j = Some mj →
    trampoline_addr mi = Some a → trampoline_addr mj = Some b → disjoint a 24 b 24
}.

(** A slot that was written; the range [[x, x + n)] does not meet a free slot;
    it does not meet any slot. *)
Definition used_cell (ms : list dbm_code_cache_meta) (z : Z) : Prop :=
  ∃ i m a k, ms !! i = Some m ∧ trampoline_addr m = Some a ∧ 0 ≤ k < trampoline_slots_used m ∧ z = a + 4 * k.
Definition spare (ms : list dbm_code_cache_meta) (x n : Z) : Prop :=
  ∀ i m a k, ms !! i = Some m → trampoline_addr m = Some a →
    trampoline_slots_used m ≤ k < RISCV_TRAMPOLINE_SLOTS → disjoint x n (a + 4 * k) 4.
Definition clear (ms : list dbm_code_cache_meta) (x n : Z) : Prop :=
  ∀ i m a, ms !! i = Some m → trampoline_addr m = Some a → disjoint x n a 24.

Lemma slot_later_refl m : slot_later m m.
Proof. exists (trampoline_slots_used m). split; [lia|]. by destruct m. Qed.

Lemma slot_later_trans m1 m2 m3 : slot_later m1 m2 → slot_later m2 m3 → slot_later m1 m3.
Proof. intros (u & ? & ->) (v & ? & ->). exists v. simpl in *. split; [lia | done]. Qed.

Lemma later_refl ms : Forall2 slot_later ms ms.
Proof. apply Forall2_same_length_lookup. split; [done|]. intros i x y Hx Hy. simplify_eq. apply slot_later_refl. Qed.

Lemma later_trans ms1 ms2 ms3 : Forall2 slot_later ms1 ms2 → Forall2 slot_later ms2 ms3 → Forall2 slot_later ms1 ms3.
Proof. apply Forall2_trans. intros. by eapply slot_later_trans. Qed.

Lemma later_le ms ms' : Forall2 slot_later ms ms' → Forall2 slot_le ms ms'.
Proof. intros Hl. eapply Forall2_impl; [exact Hl|]. by intros m _ (u & Hu & ->). Qed.

Lemma le_trans ms1 ms2 ms3 : Forall2 slot_le ms1 ms2 → Forall2 slot_le ms2 ms3 → Forall2 slot_le ms1 ms3.
Proof. apply Forall2_trans. intros m1 m2 m3 [? ?] [? ?]. split; [congruence | lia]. Qed.

Lemma le_lookup ms ms' i m' :
  Forall2 slot_le ms ms' → ms' !! i = Some m' →
  ∃ m, ms !! i = Some m ∧ trampoline_addr m' = trampoline_addr m
    ∧ trampoline_slots_used m ≤ trampoline_slots_used m'.
Proof. intros Hl Hm. destruct (Forall2_lookup_r _ _ _ _ _ Hl Hm) as (m & ? & ? & ?). by exists m. Qed.

Lemma spare_le ms ms' x n : Forall2 slot_le ms ms' → spare ms x n → spare ms' x n.
Proof.
  intros Hl Hs i m a k Hm Ha Hk. destruct (le_lookup _ _ _ _ Hl Hm) as (m0 & Hm0 & Ha0 & Hu).
  apply (Hs i m0); [done | congruence | lia].
Qed.

Lemma clear_le ms ms' x n : Forall2 slot_le ms ms' → clear ms x n → clear ms' x n.
Proof.
  intros Hl Hs i m a Hm Ha. destruct (le_lookup _ _ _ _ Hl Hm) as (m0 & Hm0 & Ha0 & _).
  apply (Hs i m0); [done | congruence].
Qed.

Lemma used_le ms ms' z : Forall2 slot_le ms ms' → used_cell ms z → used_cell ms' z.
Proof.
  intros Hl (i & m & a & k & Hm & Ha & Hk & ->).
  destruct (Forall2_lookup_l _ _ _ _ _ Hl Hm) as (m' & Hm' & Ht & Hu).
  exists i, m', a, k. split_and!; (congruence || lia).
Qed.

Lemma clear_spare ms x n : (∀ i m a, ms !! i = Some m → trampoline_addr m = Some a → 0 ≤ trampoline_slots_used m) →
  clear ms x n → spare ms x n.
Proof.
  intros H0 Hc i m a k Hm Ha Hk. specialize (Hc i m a Hm Ha). specialize (H0 i m a Hm Ha).
  unfold disjoint, RISCV_TRAMPOLINE_SLOTS in *. lia.
Qed.

Lemma wf_clear_spare ms x n : slots_wf ms → clear ms x n → spare ms x n.
Proof. intros Hw. apply clear_spare. intros i m a Hm Ha. by apply (slots_used_range _ Hw i m a). Qed.

Lemma used_spare ms z : slots_wf ms → used_cell ms z → spare ms z 4.
Proof.
  intros Hw (i & m & a & k & Hm & Ha & Hk & ->) j m' b k' Hm' Hb Hk'.
  destruct (slots_used_range _ Hw i m a Hm Ha) as [? _]. destruct (slots_used_range _ Hw j m' b Hm' Hb) as [? _].
  unfold disjoint, RISCV_TRAMPOLINE_SLOTS in *. destruct (decide (i = j)) as [<-|Hne]; [simplify_eq; lia|].
  pose proof (slots_apart _ Hw i j m m' a b Hne Hm Hm' Ha Hb) as Hd. unfold disjoint in Hd. lia.
Qed.

Lemma used_clear ms z x n : slots_wf ms → used_cell ms z → clear ms x n → disjoint z 4 x n.
Proof.
  intros Hw (i & m & a & k & Hm & Ha & Hk & ->) Hc. specialize (Hc i m a Hm Ha).
  destruct (slots_used_range _ Hw i m a Hm Ha). unfold disjoint, RISCV_TRAMPOLINE_SLOTS in *. lia.
Qed.

Lemma used_range ms z : slots_wf ms → used_cell ms z → 0 ≤ z < 2 ^ 64.
Proof.
  intros Hw (i & m & a & k & Hm & Ha & Hk & ->). destruct (slots_used_range _ Hw i m a Hm Ha).
  unfold RISCV_TRAMPOLINE_SLOTS in *. lia.
Qed.

(** Taking the next slot of a block. *)
Lemma take_slot ms i m a :
  slots_wf ms → ms !! i = Some m → free_slot m = Some a →
  let ms' := <[i := set_trampoline_slots_used (trampoline_slots_used m + 1) m]> ms in
  Forall2 slot_later ms ms' ∧ slots_wf ms' ∧ used_cell ms' a.
Proof.
  intros Hw Hm Hf ms'. unfold free_slot in Hf. destruct (trampoline_addr m) as [b|] eqn:Ha; [|done].
  destruct (Z.leb_spec RISCV_TRAMPOLINE_SLOTS (trampoline_slots_used m)); [done|]. injection Hf as <-.
  assert (i < length ms)%nat as Hi by by apply lookup_lt_Some in Hm.
  assert (Forall2 slot_later ms ms') as Hl.
  { apply Forall2_same_length_lookup. unfold ms'. rewrite length_insert. split; [done|]. intros j x y Hx Hy.
    destruct (decide (j = i)) as [->|].
    - rewrite list_lookup_insert_eq in Hy by done. simplify_eq. eexists. split; [|done]. lia.
    - rewrite list_lookup_insert_ne in Hy by done. simplify_eq. apply slot_later_refl. }
  split_and!; [done | constructor |].
  - intros j x c Hx Hc. destruct (le_lookup _ _ _ _ (later_le _ _ Hl) Hx) as (x0 & Hx0 & Hc0 & _). rewrite Hc in Hc0.
    destruct (slots_used_range _ Hw j x0 c Hx0) as [Hr ?]; [done|]. split; [|done]. unfold ms' in Hx.
    destruct (decide (j = i)) as [->|].
    + rewrite list_lookup_insert_eq in Hx by done. simplify_eq. simpl. lia.
    + rewrite list_lookup_insert_ne in Hx by done. by simplify_eq.
  - intros j k mj mk c d Hjk Hj Hk Hc Hd.
    destruct (le_lookup _ _ _ _ (later_le _ _ Hl) Hj) as (xj & Hxj & Hcj & _).
    destruct (le_lookup _ _ _ _ (later_le _ _ Hl) Hk) as (xk & Hxk & Hck & _).
    apply (slots_apart _ Hw j k xj xk); congruence.
  - exists i, (set_trampoline_slots_used (trampoline_slots_used m + 1) m), b, (trampoline_slots_used m).
    unfold ms'. rewrite list_lookup_insert_eq by done. destruct (slots_used_range _ Hw i m b Hm Ha). simpl.
    split_and!; (done || lia).
Qed.

(** *** Chains of JALs through written slots *)

Inductive chain (ms : list dbm_code_cache_meta) (m : cmem) : nat → Z → Z → Prop :=
  | chain_last x y i : riscv_jal_helper x y zero = Some i → m x = Some i → chain ms m 0 x y
  | chain_hop n x z y i :
      riscv_jal_helper x z zero = Some i → m x = Some i → used_cell ms z → chain ms m n z y → chain ms m (S n) x y.

Lemma chain_goes ms m n x y : slots_wf ms → chain ms m n x y → 0 ≤ y < 2 ^ 64 → ∀ s, pc s = x → ok s → goes_to m s y.
Proof.
  intros Hw Hc Hy. induction Hc as [x y i Hi Hm|n x z y i Hi Hm Hz Hc IH]; intros s <- Hs.
  - by eapply jal_goes.
  - eapply goes_to_trans; [eapply jal_goes; [done | done | by eapply used_range | done]|].
    intros s' Hp Hs' _. by apply IH.
Qed.

Lemma chain_head ms m n x y : chain ms m n x y → ∃ i, m x = Some i ∧ inst_size i = 4.
Proof.
  assert (∀ a b i, riscv_jal_helper a b zero = Some i → inst_size i = 4) as Hsz.
  { intros a b i. unfold riscv_jal_helper. intros. by case_match; simplify_eq. }
  intros []; eauto.
Qed.

(** A chain stays when its first instruction and the used slots do. *)
Lemma chain_keep ms ms' m m' n x y :
  chain ms m n x y → m' x = m x → Forall2 slot_le ms ms' →
  (∀ z i, used_cell ms z → inst_size i = 4 → m z = Some i → m' z = Some i) → chain ms' m' n x y.
Proof.
  intros Hc Hx Hl Hk. induction Hc as [x y i Hi Hm|n x z y i Hi Hm Hz Hc IH].
  - eapply chain_last; [done | congruence].
  - eapply chain_hop; [done | congruence | by eapply used_le |]. apply IH.
    destruct (chain_head _ _ _ _ _ Hc) as (j & Hj & Hsz).
    rewrite Hj. by apply Hk.
Qed.

(** *** Finding and writing the slots of a link *)

Section jumps.
Context (cfg : config) {T : Type} `{!AddressTable T (TABLE_SIZE cfg)}.
Implicit Types (th : dbm_thread T).

(** The slots of a path from the target back to the source. *)
Fixpoint path th (source next : Z) (new : list (Z * Z)) : Prop :=
  match new with
  | [] => True
  | (i, a) :: new => usable_slot th source next i a ∧ path th source a new
  end.

Fixpoint final (next : Z) (new : list (Z * Z)) : Z :=
  match new with [] => next | (_, a) :: new => final a new end.

Lemma path_between th source new : ∀ next, path th source next new →
  ∀ i a, (i, a) ∈ new → between source next a = true.
Proof.
  induction new as [|[j b] new IH]; intros next Hp i a Hin; [by apply not_elem_of_nil in Hin|].
  destruct Hp as [(_ & m & _ & _ & Hb & _) Hp]. apply elem_of_cons in Hin as [[= -> ->]|Hin]; [done|].
  apply between_spec. apply between_spec in Hb. specialize (IH b Hp i a Hin). apply between_spec in IH. lia.
Qed.

Lemma path_slots th source new : ∀ next, path th source next new →
  ∀ i a, (i, a) ∈ new → 0 ≤ i ∧ ∃ m, code_cache_meta th !! Z.to_nat i = Some m ∧ free_slot m = Some a.
Proof.
  induction new as [|[j b] new IH]; intros next Hp i a Hin; [by apply not_elem_of_nil in Hin|].
  destruct Hp as [(? & m & ? & ? & _) Hp]. apply elem_of_cons in Hin as [[= -> ->]|Hin]; [by eauto|].
  by apply (IH b Hp).
Qed.

(** No block gives two slots: its next slot is one address, and the addresses
    of a path approach the source. *)
Lemma path_NoDup th source new : ∀ next, path th source next new → NoDup new.*1.
Proof.
  induction new as [|[i a] new IH]; intros next Hp; [constructor|].
  destruct Hp as [(Hi & m & Hm & Hf & _) Hp]. simpl. constructor; [|by eapply IH].
  intros Hin. apply list_elem_of_fmap in Hin as ([j b] & -> & Hin). simpl in *.
  destruct (path_slots th source new a Hp j b Hin) as (_ & m' & Hm' & Hf').
  pose proof (path_between th source new a Hp j b Hin) as Hb. apply between_spec in Hb.
  assert (a = b) by congruence. lia.
Qed.

Lemma find_slots_spec hops : ∀ th source next slots,
  0 ≤ trampolines_size_bbs cfg → trampolines_size_bbs cfg ≤ free_block th ≤ Z.of_nat (length (code_cache_meta th)) →
  ∃ r, find_slots cfg hops th source next slots = Ok r ∧
    match r with
    | Some (l, nt) => ∃ new, l = slots ++ new ∧ path th source next new ∧ nt = final next new
        ∧ riscv_jal_can_reach source nt = true ∧ (length new ≤ hops)%nat
    | None => True
    end.
Proof.
  induction hops as [|hops IH]; intros th source next slots H0 Hf; cbn [find_slots];
    (destruct (riscv_jal_can_reach source next) eqn:Hr;
     [eexists; split; [done|]; exists []; rewrite app_nil_r; simpl; split_and!; (done || lia)|]).
  - by eexists.
  - destruct (find_slot_spec cfg th source next H0 Hf) as (best & -> & Hb). cbn [mbind outcome_bind].
    destruct best as [[i a]|]; [|by eexists]. destruct Hb as (_ & Hu & _).
    destruct (IH th source a (slots ++ [(i, a)]) H0 Hf) as (r & -> & Hr2). eexists. split; [done|].
    destruct r as [[l nt]|]; [|done]. destruct Hr2 as (new & -> & Hp & -> & ? & ?).
    exists ((i, a) :: new). rewrite <- app_assoc. simpl. split_and!; (done || lia).
Qed.

(** [to] is the target or a written slot from which it is reached. *)
Definition linked (ms : list dbm_code_cache_meta) (text : cmem) (k : nat) (to target : Z) : Prop :=
  to = target ∨ used_cell ms to ∧ ∃ n, (n < k)%nat ∧ chain ms text n to target.

Lemma linked_step ms text k x to target i :
  linked ms text k to target → riscv_jal_helper x to zero = Some i → text x = Some i →
  ∃ n, (n ≤ k)%nat ∧ chain ms text n x target.
Proof.
  intros [-> | (Hu & n & Hn & Hc)] Hi Hx.
  - exists 0%nat. split; [lia|]. by eapply chain_last.
  - exists (S n). split; [lia|]. by eapply chain_hop.
Qed.

(** What stays of the code when free slots are written. *)
Definition kept (ms : list dbm_code_cache_meta) (text text' : cmem) : Prop :=
  ∀ x i, text x = Some i → spare ms x (inst_size i) → text' x = Some i.

Lemma free_slot_spare ms i m a x n :
  slots_wf ms → ms !! i = Some m → free_slot m = Some a → spare ms x n → disjoint x n a 4.
Proof.
  intros Hw Hm Hf Hs. unfold free_slot in Hf. destruct (trampoline_addr m) as [b|] eqn:Hb; [|done].
  destruct (Z.leb_spec RISCV_TRAMPOLINE_SLOTS (trampoline_slots_used m)); [done|]. injection Hf as <-.
  rewrite Z.mul_comm. apply (Hs i m b); (done || lia).
Qed.

(** Other blocks keep their slots. *)
Lemma path_update th source i m new : ∀ next,
  0 ≤ i → i ∉ new.*1 → path th source next new →
  path (set_code_cache_meta (<[Z.to_nat i := m]> (code_cache_meta th)) th) source next new.
Proof.
  induction new as [|[j b] new IH]; intros next Hi Hni; [done|]. rewrite fmap_cons, not_elem_of_cons in Hni.
  destruct Hni as [Hij Hni]. intros [(Hj & mj & Hmj & Hrest) Hp]. split; [|by apply IH].
  split; [done|]. exists mj. split; [|done]. simpl in *. rewrite list_lookup_insert_ne; [done|]. lia.
Qed.

Lemma write_slots_spec source target : ∀ new to th text k,
  slots_wf (code_cache_meta th) → path th source to new → NoDup new.*1 →
  linked (code_cache_meta th) text k to target →
  ∃ ms' text', write_slots to new (th, text) = Ok (set_code_cache_meta ms' th, text')
    ∧ Forall2 slot_later (code_cache_meta th) ms' ∧ slots_wf ms'
    ∧ kept (code_cache_meta th) text text' ∧ linked ms' text' (k + length new) (final to new) target.
Proof.
  induction new as [|[i a] new IH]; intros to th text k Hw Hp Hnd Hl.
  - exists (code_cache_meta th), text. simpl. rewrite Nat.add_0_r.
    split_and!; [by destruct th | apply later_refl | done | by intros ? | done].
  - destruct Hp as [(Hi & m & Hm & Hf & Hb & Hr) Hp]. rewrite fmap_cons in Hnd. apply NoDup_cons in Hnd as [Hni Hnd].
    cbn [write_slots final].
    destruct (can_reach_helper a to Hr) as (f & Hh). rewrite Hh. unfold upd_meta. cbn [fst snd].
    rewrite (aupd_lookup _ _ _ m) by done. cbn [mbind outcome_bind].
    destruct (take_slot _ _ _ _ Hw Hm Hf) as (Hlat & Hw1 & Hu). set (ms1 := <[_ := _]> _) in *.
    set (th1 := set_code_cache_meta ms1 th). set (text1 := put a (Jal zero f) text).
    assert (kept (code_cache_meta th) text text1) as Hk1.
    { intros x j Hx Hs. apply put_keeps; [done|]. by eapply (free_slot_spare (code_cache_meta th) (Z.to_nat i) m). }
    assert (path th1 source a new) as Hp1.
    { by apply path_update. }
    assert (linked ms1 text1 (S k) a target) as Hl1.
    { right. split; [done|]. assert (linked ms1 text1 k to target) as Hlk.
      { destruct Hl as [-> | (Hut & n & Hn & Hc)]; [by left | right]. split; [eapply used_le; [by apply later_le | done]|]. exists n. split; [done|].
        destruct (chain_head _ _ _ _ _ Hc) as (j & Hj & Hsz).
        assert (∀ z i, used_cell (code_cache_meta th) z → inst_size i = 4 → text z = Some i → text1 z = Some i) as Hku.
        { intros z j' Hz Hs' Hz'. apply Hk1; [done|]. rewrite Hs'. by apply used_spare. }
        eapply chain_keep; [done | rewrite Hj; by apply Hku | by apply later_le | done]. }
      destruct (linked_step _ _ _ a _ _ _ Hlk Hh) as (n & Hn & Hc); [apply put_same|]. exists n. split; [lia | done]. }
    destruct (IH a th1 text1 (S k) Hw1 Hp1 Hnd Hl1) as (ms' & text' & Hres & Hlat' & Hw' & Hk' & Hl').
    exists ms', text'. split_and!; [exact Hres | by eapply later_trans | done | |].
    + intros x j Hx Hs. apply Hk'; [by apply Hk1|]. eapply spare_le; [by apply later_le | done].
    + by replace (k + length ((i, a) :: new))%nat with (S k + length new)%nat by (simpl; lia).
Qed.

(** The result of [riscv_try_jump_trampolines]: -1 with nothing changed, or 0
    with a chain of at most eight hops. *)
Lemma try_spec th text source target :
  0 ≤ trampolines_size_bbs cfg → trampolines_size_bbs cfg ≤ free_block th ≤ Z.of_nat (length (code_cache_meta th)) →
  slots_wf (code_cache_meta th) → clear (code_cache_meta th) source 4 →
  riscv_try_jump_trampolines cfg (th, text) source target = Ok (-1, (th, text))
  ∨ ∃ ms' text' n, riscv_try_jump_trampolines cfg (th, text) source target = Ok (0, (set_code_cache_meta ms' th, text'))
      ∧ Forall2 slot_later (code_cache_meta th) ms' ∧ slots_wf ms' ∧ (n ≤ RISCV_TRAMPOLINE_MAX_HOPS)%nat
      ∧ chain ms' text' n source target
      ∧ ∀ x i, text x = Some i → spare (code_cache_meta th) x (inst_size i) → disjoint x (inst_size i) source 4 →
          text' x = Some i.
Proof.
  intros H0 Hf Hw Hc. unfold riscv_try_jump_trampolines. destruct (_ <=? _); [by left|]. cbn [fst].
  destruct (find_slots_spec RISCV_TRAMPOLINE_MAX_HOPS th source target [] H0 Hf) as (r & -> & Hr). cbn [mbind outcome_bind].
  destruct r as [[l nt]|]; [|by left]. right. destruct Hr as (new & -> & Hp & -> & Hreach & Hlen). cbn [app].
  destruct (write_slots_spec source target new target th text 0 Hw Hp) as (ms' & text' & -> & Hlat & Hw' & Hk & Hl);
    [by eapply path_NoDup | by left |]. cbn [mbind outcome_bind snd fst].
  destruct (can_reach_helper source (final target new) Hreach) as (f & Hh). rewrite Hh.
  assert (linked ms' (put source (Jal zero f) text') (0 + length new) (final target new) target) as Hl2.
  { destruct Hl as [-> | (Hu & n & Hn & Hch)]; [by left | right]. split; [done|]. exists n. split; [done|].
    assert (∀ z i, used_cell ms' z → inst_size i = 4 → text' z = Some i → put source (Jal zero f) text' z = Some i) as Hku.
    { intros z i Hz Hsz Hzi. apply put_keeps; [done|]. rewrite Hsz. eapply used_clear; [done..|]. eapply clear_le; [by apply later_le | done]. }
    destruct (chain_head _ _ _ _ _ Hch) as (j & Hj & Hsz).
    eapply chain_keep; [done | rewrite Hj; by apply Hku | apply later_le, later_refl | done]. }
  destruct (linked_step _ _ _ source _ _ _ Hl2 Hh) as (n & Hn & Hch); [apply put_same|].
  exists ms', (put source (Jal zero f) text'), n. split_and!; [done | done | done | simpl in Hn; lia | done |].
  intros x i Hx Hs Hd. apply put_keeps; [by apply Hk | done].
Qed.
End jumps.
End RiscvLink.
