(* ===== verification/RiscvLinked.v ===== *)
(** * What a RISC-V link does

    The theorems about RiscvLink: after a link the exit of a block leads to the
    block of its target, directly, over trampoline slots or through a saved
    context, and the branch of a block leads to the block of the side that the
    condition selects. *)
From S2P Require Import Prelude LinearProbe CodeCacheHash LinkedList AddressTable Dbm.
From S2P Require Import CcLinks RegList RiscvImm RiscvAsm RiscvEmit RiscvContext RiscvProg RiscvExec RiscvLink.
Import Dbm CcLinks RegList RiscvImm RiscvEmit RiscvContext RiscvAsm RiscvProg RiscvExec RiscvLink.

Module RiscvLinked.

(** *** Link records *)

Section records.
Context (cfg : config) {T : Type} `{!AddressTable T (TABLE_SIZE cfg)} (Hcfg : config_ok cfg).
Implicit Types (th : dbm_thread T).

(** Threads that differ in their link records and in used slots. *)
Definition relinked th th' : Prop :=
  Forall2 slot_le (code_cache_meta th) (code_cache_meta th')
  ∧ free_block th' = free_block th ∧ code_cache th' = code_cache th ∧ entry_address th' = entry_address th.

Lemma relinked_refl th : relinked th th.
Proof. split_and!; try done. apply later_le, later_refl. Qed.

Lemma relinked_trans th1 th2 th3 : relinked th1 th2 → relinked th2 th3 → relinked th1 th3.
Proof. intros (? & ? & ? & ?) (? & ? & ? & ?). split_and!; [by eapply le_trans | congruence..]. Qed.

(** Using slots does not concern the link records. *)
Lemma slots_shape th ms F Ls :
  Forall2 slot_later (code_cache_meta th) ms → shape cfg th → links cfg th F Ls →
  shape cfg (set_code_cache_meta ms th) ∧ links cfg (set_code_cache_meta ms th) F Ls.
Proof.
  intros Hl. apply lists_shape. eapply Forall2_impl; [exact Hl|]. by intros m m' (u & _ & ->).
Qed.

(** The same slots. *)
Definition slot_same (m m' : dbm_code_cache_meta) : Prop :=
  trampoline_addr m' = trampoline_addr m ∧ trampoline_slots_used m' = trampoline_slots_used m.

Lemma same_le ms ms' : Forall2 slot_same ms ms' → Forall2 slot_le ms ms'.
Proof. intros Hl. eapply Forall2_impl; [exact Hl|]. intros m m' [? ?]. split; [done | lia]. Qed.

Lemma same_wf ms ms' : Forall2 slot_same ms ms' → slots_wf ms → slots_wf ms'.
Proof.
  intros Hl Hw.
  assert (∀ i m', ms' !! i = Some m' → ∃ m, ms !! i = Some m ∧ slot_same m m') as Hi
    by (intros i m' Hm; by eapply Forall2_lookup_r).
  constructor.
  - intros i m a Hm Ha. destruct (Hi i m Hm) as (m0 & Hm0 & Ht & ->). apply (slots_used_range _ Hw i m0); congruence.
  - intros i j mi mj a b Hne Hmi Hmj Ha Hb. destruct (Hi i mi Hmi) as (mi0 & ? & ? & _).
    destruct (Hi j mj Hmj) as (mj0 & ? & ? & _). apply (slots_apart _ Hw i j mi0 mj0); congruence.
Qed.

Lemma record_same th th' a b :
  record_cc_link cfg th a b = Ok th' →
  Forall2 slot_same (code_cache_meta th) (code_cache_meta th')
  ∧ free_block th' = free_block th ∧ code_cache th' = code_cache th ∧ entry_address th' = entry_address th.
Proof.
  assert (∀ ms : list dbm_code_cache_meta, Forall2 slot_same ms ms) as Hrefl
    by (intros ms; by apply Forall2_same_length_lookup; split; [done|]; intros; simplify_eq).
  unfold record_cc_link. destruct (_ <? 0); [by intros [= <-]|].
  intros H. apply bind_ok_inv in H as ([e li] & _ & H). cbn [fst snd] in H. destruct e as [e|]; [|done].
  apply bind_ok_inv in H as (m & _ & H). apply bind_ok_inv in H as (es & _ & H).
  unfold upd_meta in H. apply bind_ok_inv in H as (ms & Hms & [= <-]). simpl in *. split_and!; try done.
  apply aupd_ok in Hms as (x & Hi & Hx & ->). apply Forall2_same_length_lookup. rewrite length_insert. split; [done|].
  intros j y z Hy Hz. destruct (decide (j = Z.to_nat (addr_to_bb_id cfg th b))) as [->|].
  - rewrite list_lookup_insert_eq in Hz by by apply lookup_lt_Some in Hx. by simplify_eq.
  - rewrite list_lookup_insert_ne in Hz by done. by simplify_eq.
Qed.

(** A record for a link to a block or to a trace but the first. *)
Lemma record_spec th F Ls lfrom lto :
  shape cfg th → links cfg th F Ls → F ≠ [] → lto ≠ traces_addr cfg th → slots_wf (code_cache_meta th) →
  ∃ th' F' Ls', record_cc_link cfg th lfrom lto = Ok th' ∧ shape cfg th' ∧ links cfg th' F' Ls'
    ∧ (length F ≤ S (length F'))%nat ∧ relinked th th' ∧ slots_wf (code_cache_meta th').
Proof.
  intros Hs Hl HF Hne Hw. destruct F as [|f F]; [done|].
  assert (∃ th' F' Ls', record_cc_link cfg th lfrom lto = Ok th' ∧ shape cfg th' ∧ links cfg th' F' Ls'
    ∧ (length (f :: F) ≤ S (length F'))%nat) as (th' & F' & Ls' & Hr & Hs' & Hl' & Hlen).
  { destruct (decide (code_cache th ≤ lto < traces_addr cfg th)) as [Hin|Hout].
    - destruct (record_cc_link_bb cfg Hcfg th F Ls f lfrom lto Hs Hl Hin) as (th' & l & Hr & Hs' & _ & Hl' & _).
      by eexists th', F, _.
    - exists th, (f :: F), Ls. split_and!; [|done|done|lia]. unfold record_cc_link.
      destruct (addr_to_bb_id_range cfg Hcfg th lto) as [Hneg _]. rewrite Hneg by lia. done. }
  destruct (record_same _ _ _ _ Hr) as (Hsame & Hfb & Hcc & He).
  exists th', F', Ls'. split_and!; try done; [split_and!; [by apply same_le | done..] | by eapply same_wf].
Qed.

(** *** The code of one link *)

(** The code of [n] bytes at [write_p] leads to the block translated at [tpc]:
    behind its restore of the context, or to its start with the context saved. *)
Definition exit_to (ms : list dbm_code_cache_meta) (text : cmem) (write_p n tpc : Z) : Prop :=
  (4 ≤ n ∧ ∃ h, (h ≤ RISCV_TRAMPOLINE_MAX_HOPS)%nat ∧ chain ms text h write_p (tpc + 6))
  ∨ ∃ p l, 20 ≤ n ∧ riscv_push (cfg_target cfg) (reg_mask [a0; a1]) = Ok p
      ∧ riscv_jalr_helper (write_p + code_size p) tpc zero a0 = Some l ∧ code_at text write_p (p ++ l).

(** Places in the code cache. *)
Definition placed (write_p tpc : Z) : Prop :=
  0 ≤ write_p ∧ write_p + 20 < 2 ^ 63 ∧ 0 ≤ tpc ∧ tpc + 6 < 2 ^ 63 ∧ - 2 ^ 30 ≤ tpc - write_p ≤ 2 ^ 30 ∧ Z.even tpc = true.

(** Code outside the free slots and [[write_p, write_p + n)] stays. *)
Definition kept_but (ms : list dbm_code_cache_meta) (write_p n : Z) (text text' : cmem) : Prop :=
  ∀ x i, text x = Some i → spare ms x (inst_size i) → disjoint x (inst_size i) write_p n → text' x = Some i.

Lemma push_context t : riscv_target t →
  ∃ p, riscv_push t (reg_mask [a0; a1]) = Ok p ∧ code_size p = 12.
Proof. intros [-> | ->]; by eexists. Qed.

Lemma pad_spec write_p text :
  ∃ text' k, riscv_pad_direct_link cfg write_p text = (write_p + 4 * k, text') ∧ keeps write_p (4 * k) text text' ∧ 0 ≤ k ≤ 4.
Proof.
  unfold riscv_pad_direct_link. destruct (DBM_TRACES cfg).
  - eexists _, 4. split_and!; [done | apply (place_keeps (replicate 4 nop)) | lia | lia].
  - eexists _, 0. rewrite Z.add_0_r. split_and!; [done | apply keeps_refl | lia | lia].
Qed.

(** The result of a link at [write_p]: [k] words are written. *)
Definition link_result th (text : cmem) (write_p tpc : Z) (r : outcome (Z * Z * (dbm_thread T * cmem))) : Prop :=
  ∃ ms' text' k, r = Ok (0, write_p + 4 * k, (set_code_cache_meta ms' th, text'))
    ∧ Forall2 slot_later (code_cache_meta th) ms' ∧ slots_wf ms' ∧ exit_to ms' text' write_p (4 * k) tpc
    ∧ kept_but (code_cache_meta th) write_p (4 * k) text text' ∧ 1 ≤ k ≤ 5.

Lemma set_same_meta th : set_code_cache_meta (code_cache_meta th) th = th.
Proof. by destruct th. Qed.

(** Where the JAL reaches. *)
Lemma link_direct th text write_p tpc j :
  slots_wf (code_cache_meta th) → riscv_jal_helper write_p (tpc + 6) zero = Some j →
  link_result th text write_p tpc
    (let '(write_p', text') := riscv_pad_direct_link cfg (write_p + 4) (put write_p j text) in
     Ok (0, write_p', (th, text'))).
Proof.
  intros Hw Hj. destruct (jal_helper_inv _ _ _ _ Hj) as (f & -> & _).
  destruct (pad_spec (write_p + 4) (put write_p (Jal zero f) text)) as (text' & k & -> & Hk & Hr).
  exists (code_cache_meta th), text', (1 + k). rewrite set_same_meta.
  split_and!; [do 3 f_equal; lia | apply later_refl | done | | | lia | lia].
  - left. split; [lia|]. exists 0%nat. split; [unfold RISCV_TRAMPOLINE_MAX_HOPS; lia|]. eapply chain_last; [done|].
    apply Hk; [apply put_same | unfold disjoint; simpl; lia].
  - intros x i Hx _ Hdj. apply Hk; [apply put_keeps; [done|]|]; unfold disjoint in *; simpl; lia.
Qed.

(** Without a way to jump there. *)
Lemma link_pushed th text write_p tpc :
  riscv_target (cfg_target cfg) → placed write_p tpc → slots_wf (code_cache_meta th) →
  link_result th text write_p tpc
    (push ← riscv_push (cfg_target cfg) (reg_mask [a0; a1]);
     match riscv_jalr_helper (write_p + code_size push) tpc zero a0 with
     | Some l => Ok (0, write_p + code_size push + 8,
         (th, place (write_p + code_size push) l (place write_p push text)))
     | None => Ok (-1, write_p + code_size push, (th, place write_p push text))
     end).
Proof.
  intros Ht (Hw0 & Hw1 & Ht0 & Ht1 & Hd & He) Hw. destruct (push_context _ Ht) as (push & Hp & Hsz).
  assert (∃ l, riscv_jalr_helper (write_p + code_size push) tpc zero a0 = Some l ∧ code_size l = 8) as (l & Hl & Hszl).
  { rewrite Hsz. unfold riscv_jalr_helper. rewrite s64_small by lia.
    change INT_MIN with (- 2 ^ 31). change INT_MAX with (2 ^ 31 - 1).
    replace ((_ <? _) || (_ <? _)) with false by lia. by eexists. }
  rewrite Hp. cbn [mbind outcome_bind]. rewrite Hl, Hsz. rewrite place_app_at by by rewrite Hsz.
  exists (code_cache_meta th), (place write_p (push ++ l) text), 5. rewrite set_same_meta.
  split_and!; [do 3 f_equal; lia | apply later_refl | done | | | lia | lia].
  - right. exists push, l. split_and!; [done | done | exact Hl | apply place_code_at].
  - intros x i Hx _ Hdj. apply place_keeps; [done|]. by rewrite code_size_app, Hsz, Hszl.
Qed.

Lemma clear_part ms x n y k : clear ms x n → x ≤ y → y + k ≤ x + n → clear ms y k.
Proof. intros Hc ? ? i m a Hm Ha. specialize (Hc i m a Hm Ha). unfold disjoint in *. lia. Qed.

Lemma link_code_spec th text write_p tpc :
  riscv_target (cfg_target cfg) → placed write_p tpc →
  trampolines_size_bbs cfg ≤ free_block th ≤ Z.of_nat (length (code_cache_meta th)) →
  slots_wf (code_cache_meta th) → clear (code_cache_meta th) write_p 20 →
  link_result th text write_p tpc (link_code cfg (th, text) write_p tpc).
Proof.
  intros Ht Hpl Hf Hw Hc. pose proof (ok_trampolines _ Hcfg). unfold link_code. cbn [fst snd].
  destruct (riscv_jal_helper write_p (tpc + 6) zero) as [j|] eqn:Hj; [by apply link_direct|].
  pose proof (link_pushed th text write_p tpc Ht Hpl Hw) as Hpush.
  destruct (DBM_JUMP_TRAMPOLINES cfg); [|exact Hpush].
  destruct (try_spec cfg th text write_p (tpc + 6)) as [-> | (ms' & text1 & n & -> & Hlat & Hw' & Hn & Hch & Hk)];
    [lia | done | done | eapply clear_part; [done | lia..] | exact Hpush |].
  cbn [mbind outcome_bind fst snd]. change (0 =? 0) with true. cbn iota.
  destruct (pad_spec (write_p + 4) text1) as (text' & k & -> & Hk' & Hr).
  exists ms', text', (1 + k). split_and!; [do 3 f_equal; lia | done | done | | | lia | lia].
  - left. split; [lia|]. exists n. split; [done|]. destruct (chain_head _ _ _ _ _ Hch) as (j & Hj' & Hsj).
    eapply chain_keep; [done | | apply later_le, later_refl |].
    + rewrite Hj'. apply Hk'; [done|]. rewrite Hsj. unfold disjoint. lia.
    + intros z i Hz Hsi Hzi. apply Hk'; [done|]. rewrite Hsi. eapply used_clear; [done..|].
      eapply clear_le; [by apply later_le|]. eapply clear_part; [done | lia..].
  - intros x i Hx Hs Hdj. apply Hk'; [apply Hk; [done..|]|]; unfold disjoint in *; lia.
Qed.
(** One link, with its record. *)
Lemma link_to_spec th F Ls text write_p tpc :
  riscv_target (cfg_target cfg) → placed write_p tpc → shape cfg th → links cfg th F Ls → F ≠ [] →
  tpc ≠ traces_addr cfg th → slots_wf (code_cache_meta th) → clear (code_cache_meta th) write_p 20 →
  ∃ th' text' k F' Ls', riscv_link_to cfg (th, text) write_p tpc = Ok (0, write_p + 4 * k, (th', text'))
    ∧ shape cfg th' ∧ links cfg th' F' Ls' ∧ (length F ≤ S (length F'))%nat ∧ relinked th th'
    ∧ slots_wf (code_cache_meta th') ∧ exit_to (code_cache_meta th') text' write_p (4 * k) tpc
    ∧ kept_but (code_cache_meta th) write_p (4 * k) text text' ∧ 1 ≤ k ≤ 5.
Proof.
  intros Ht Hpl Hs Hl HF Hne Hw Hc. pose proof (shape_free _ _ Hs) as Hfree. pose proof (shape_metas _ _ Hs) as Hlen.
  pose proof (ok_fragments _ Hcfg).
  destruct (link_code_spec th text write_p tpc Ht Hpl) as (ms & text' & k & Hcode & Hlat & Hw' & Hex & Hk & Hr);
    [lia | done | done |]. unfold riscv_link_to. rewrite Hcode. cbn [mbind outcome_bind].
  destruct (slots_shape th ms F Ls Hlat Hs Hl) as [Hs1 Hl1].
  destruct (record_spec _ _ _ write_p tpc Hs1 Hl1 HF Hne Hw') as (th' & F' & Ls' & -> & Hs' & Hl' & Hlen' & Hrel & Hw2).
  exists th', text', k, F', Ls'. cbn [mbind outcome_bind]. destruct Hrel as (Hle & Hfb & Hcc & He). simpl in *.
  split_and!; [done | done | done | done | | done | | done | lia | lia].
  - split_and!; [by eapply le_trans; [apply later_le|] | done..].
  - destruct Hex as [(Hk4 & n & Hn & Hch) | (p & l & ?)]; [left; split; [done|] | right; by exists p, l]. exists n. split; [done|].
    eapply chain_keep; [done | done | done | done].
Qed.

(** *** Where the exits lead *)

(** A link stays when other code is written outside of it and of the slots. *)
Lemma exit_keep ms ms' text text' write_p len tpc y n :
  riscv_target (cfg_target cfg) → slots_wf ms → exit_to ms text write_p len tpc → Forall2 slot_le ms ms' →
  clear ms write_p len → clear ms y n → kept_but ms y n text text' → disjoint write_p len y n →
  exit_to ms' text' write_p len tpc.
Proof.
  intros Ht Hw Hex Hl Hcw Hcy Hk Hd. destruct Hex as [(Hlen & h & Hh & Hch) | (p & l & Hlen & Hp & Hj & Hc)].
  - left. split; [done|]. exists h. split; [done|]. destruct (chain_head _ _ _ _ _ Hch) as (j & Hj & Hsz).
    assert (∀ z i, used_cell ms z → inst_size i = 4 → text z = Some i → text' z = Some i) as Hku.
    { intros z i Hz Hi Hzi. apply Hk; rewrite ?Hi; [done | by apply used_spare | by eapply used_clear]. }
    eapply chain_keep; [done | | done | done]. rewrite Hj. apply Hk; rewrite ?Hsz; [done | |].
    + apply wf_clear_spare; [done|]. eapply clear_part; [exact Hcw | lia..].
    + unfold disjoint in *. lia.
  - right. exists p, l. split_and!; [done..|].
    assert (code_size (p ++ l) ≤ 20) as Hsz.
    { destruct (push_context _ Ht) as (p' & Hp' & Hsz). rewrite Hp in Hp'. injection Hp' as <-.
      rewrite code_size_app, Hsz. unfold riscv_jalr_helper in Hj. destruct (_ || _); [done|]. by injection Hj as <-. }
    revert Hc Hsz. generalize (p ++ l). intros code.
    assert (∀ l' x, code_at text x l' → write_p ≤ x → x + code_size l' ≤ write_p + len → code_at text' x l') as H.
    { intros l'. induction l' as [|i l' IH]; intros x Hc Hx Hsz; [done|]. destruct Hc as [Hi Hc].
      rewrite code_size_cons in Hsz. pose proof (inst_size_pos i). pose proof (code_size_nonneg l').
      split; [|apply IH; [done | lia..]]. apply Hk; [done | |].
      - apply wf_clear_spare; [done|]. eapply clear_part; [exact Hcw | lia..].
      - unfold disjoint in *. lia. }
    intros Hc Hsz. apply H; [done | lia..].
Qed.

(** The state after a save and a restore below the stack pointer. *)
Definition restored (s s' : machine) : Prop :=
  (∀ r, get s' r = get s r) ∧ csrs s' = csrs s ∧ frame (mem s) (mem s') (get s sp - 16) 0 2.

Lemma same_restored s s' : same_state s s' → restored s s'.
Proof. intros (Hr & Hm & Hc). split_and!; [done | done|]. intros x _. by rewrite Hm. Qed.

Lemma restored_trans s1 s2 s3 : same_state s1 s2 → restored s2 s3 → restored s1 s3.
Proof.
  intros (Hr & Hm & Hc) (Hr' & Hc' & Hf). split_and!; [intros r; by rewrite Hr' | by rewrite Hc'|].
  by rewrite Hr, Hm in Hf.
Qed.

Lemma context_regs :
  0 ≤ reg_mask [a0; a1] < 2 ^ 32 ∧ (0 ∉ regs_of (reg_mask [a0; a1])) ∧ sp ∉ regs_of (reg_mask [a0; a1]).
Proof.
  split_and!; [by vm_compute | by vm_compute | |].
  - by apply (bool_decide_eq_true_1 (0 ∉ regs_of (reg_mask [a0; a1]))).
  - by apply (bool_decide_eq_true_1 (sp ∉ regs_of (reg_mask [a0; a1]))).
Qed.

(** Saving the context, jumping through a0 and restoring the context. *)
Lemma pushed_arrives text write_p tpc p l q s :
  riscv_target (cfg_target cfg) → placed write_p tpc → riscv_push (cfg_target cfg) (reg_mask [a0; a1]) = Ok p →
  riscv_jalr_helper (write_p + code_size p) tpc zero a0 = Some l → code_at text write_p (p ++ l) →
  riscv_pop (cfg_target cfg) (reg_mask [a0; a1]) = Ok q → code_at text tpc q → ok s → pc s = write_p →
  ∃ s', reaches text s s' ∧ pc s' = tpc + code_size q ∧ ok s' ∧ restored s s'.
Proof.
  intros Ht (Hw0 & Hw1 & Ht0 & Ht1 & Hd & He) Hp Hj Hc Hq Hcq Hs Hpc. apply code_at_app in Hc as [Hcp Hcl].
  destruct (push_context _ Ht) as (p' & Hp' & Hsz). rewrite Hp in Hp'. injection Hp' as <-.
  assert (code_size q ≤ 12) as Hszq by (destruct Ht as [Ht|Ht]; rewrite Ht in Hq; vm_compute in Hq; by injection Hq as <-).
  destruct context_regs as (Hm & H0 & Hsp).
  destruct (push_reaches _ _ p text s Ht Hm Hsp Hp Hs) as (s1 & Hr1 & Hp1 & Ho1 & Hc1 & Hsp1 & Hg1 & Hf1 & Hsv1);
    [by rewrite Hpc | lia |]. rewrite Hpc, Hsz in Hp1. rewrite Hsz in *.
  destruct (jalr_goes text s1 tpc zero a0 l) as (s2 & Hr2 & Hp2 & Ho2 & Hm2 & Hc2 & _ & Hg2);
    [by rewrite Hp1 | by rewrite Hp1 | lia | done | lia | done | lia | done |].
  destruct (pop_reaches _ _ q text s2 Ht Hm H0 Hsp Hq Ho2) as (s3 & Hr3 & Hp3 & Ho3 & Hc3 & Hm3 & Hsp3 & Hg3 & Hld);
    [by rewrite Hp2 | lia |].
  assert (get s2 sp = get s1 sp) as Hsp2 by by apply Hg2.
  exists s3. split_and!; [by do 2 (eapply reaches_trans; [done|]) | congruence | done |].
  assert (∀ i r, regs_of (reg_mask [a0; a1]) !! i = Some r → get s3 r = get s r) as Hrest.
  { intros i r Hi. rewrite (Hld i r Hi), Hsp2, Hm2. rewrite <- (u64_small (get s r)) by apply Hs. f_equal.
    rewrite <- (Hsv1 i r Hi). f_equal. lia. }
  assert (get s3 sp = get s sp) as Hspe.
  { rewrite Hsp3, Hsp2, Hsp1, u64_add_l, Z.sub_add. by apply u64_small, Hs. }
  split_and!.
  - intros r. destruct (decide (r = sp)) as [->|Hnsp]; [done|].
    destruct (decide (r = zero)) as [->|Hz]; [done|].
    destruct (decide (r = a0)) as [->|Ha0]; [by apply (Hrest 0%nat)|].
    destruct (decide (r = a1)) as [->|Ha1]; [by apply (Hrest 1%nat)|].
    rewrite Hg3; [rewrite Hg2 by done; by apply Hg1 | | done].
    change (regs_of (reg_mask [a0; a1])) with [a0; a1]. rewrite !not_elem_of_cons.
    split_and!; [done | done | apply not_elem_of_nil].
  - congruence.
  - intros x Hx. rewrite Hm3, Hm2. apply Hf1. intros k Hk ->. apply (Hx k); [done|].
    by rewrite Hsp1, u64_add_l.
Qed.

(** The block translated at [tpc] starts with the restore of the context. *)
Lemma exit_arrives ms text write_p len tpc q s :
  cfg_target cfg = riscv_compressed → placed write_p tpc → slots_wf ms → exit_to ms text write_p len tpc →
  riscv_pop (cfg_target cfg) (reg_mask [a0; a1]) = Ok q → code_at text tpc q → ok s → pc s = write_p →
  ∃ s', reaches text s s' ∧ pc s' = tpc + 6 ∧ ok s' ∧ restored s s'.
Proof.
  intros Ht Hpl Hw Hex Hq Hcq Hs Hpc. destruct Hex as [(_ & n & _ & Hch) | (p & l & _ & Hp & Hj & Hc)].
  - pose proof Hpl as (? & ? & ? & ? & _). destruct (chain_goes _ _ _ _ _ Hw Hch ltac:(lia) s Hpc Hs) as (s' & ? & ? & ? & ?).
    exists s'. split_and!; try done. by apply same_restored.
  - assert (code_size q = 6) as <-; [rewrite Ht in Hq; vm_compute in Hq; by injection Hq as <-|].
    eapply pushed_arrives; [by right | done..].
Qed.

(** *** Linking a conditional branch *)

(** A side of a branch that was translated at [tpc]. *)
Definition branch_side th (text : cmem) (exit tpc : Z) : Prop :=
  0 ≤ tpc ∧ tpc + 6 < 2 ^ 63 ∧ - 2 ^ 29 ≤ tpc - exit ≤ 2 ^ 29 ∧ Z.even tpc = true
  ∧ tpc ≠ traces_addr cfg th ∧ tpc + 6 ≠ traces_addr cfg th
  ∧ clear (code_cache_meta th) tpc 6 ∧ disjoint tpc 6 exit 44
  ∧ ∃ q, riscv_pop (cfg_target cfg) (reg_mask [a0; a1]) = Ok q ∧ code_at text tpc q.

(** While the exit at [exit] is written: [n] bytes are, [m] records are left. *)
Record linking th0 (text0 : cmem) (exit n : Z) (m : nat) (st : dbm_thread T * cmem) : Prop := {
  linking_shape : shape cfg (fst st);
  linking_links : ∃ F Ls, links cfg (fst st) F Ls ∧ (m ≤ length F)%nat;
  linking_same : relinked th0 (fst st);
  linking_slots : slots_wf (code_cache_meta (fst st));
  linking_kept : kept_but (code_cache_meta th0) exit n text0 (snd st)
}.

Lemma linking_record th0 text0 exit n m th text a lto :
  linking th0 text0 exit n (S m) (th, text) → lto ≠ traces_addr cfg th0 →
  ∃ th', record_cc_link cfg th a lto = Ok th' ∧ linking th0 text0 exit n m (th', text).
Proof.
  intros [Hs (F & Ls & Hl & Hm) Hrel Hw Hk] Hne. simpl in *. pose proof Hrel as (_ & _ & Hcc & _).
  destruct (record_spec th F Ls a lto Hs Hl) as (th' & F' & Ls' & Hr & Hs' & Hl' & Hlen & Hrel' & Hw').
  - destruct F; [simpl in Hm; lia | done].
  - unfold traces_addr. by rewrite Hcc.
  - done.
  - exists th'. split; [done|]. constructor; try done; [exists F', Ls'; split; [done | lia] | by eapply relinked_trans].
Qed.

Lemma linking_put th0 text0 exit n n' m th text i :
  linking th0 text0 exit n m (th, text) → n ≤ n' → inst_size i ≤ n' → linking th0 text0 exit n' m (th, put exit i text).
Proof.
  intros [Hs Hl Hrel Hw Hk] Hn Hi. constructor; try done. intros x j Hx Hsp Hd. simpl in *. pose proof (inst_size_pos i).
  apply put_keeps; [apply Hk; [done..|]|]; unfold disjoint in *; lia.
Qed.

(** A link behind the [n] bytes. *)
Lemma linking_link b th0 text0 exit n m th text tpc :
  riscv_target (cfg_target cfg) → linking th0 text0 exit n (S m) (th, text) → 0 ≤ n ≤ 24 →
  0 ≤ exit → exit + 44 < 2 ^ 63 → clear (code_cache_meta th0) exit 44 → (b = true → branch_side th0 text0 exit tpc) →
  ∃ k th' text', link_if cfg b (th, text) (exit + n) tpc = Ok (exit + (n + 4 * k), (th', text')) ∧ 0 ≤ k ≤ 5
    ∧ linking th0 text0 exit (n + 4 * k) m (th', text') ∧ relinked th th'
    ∧ kept_but (code_cache_meta th) (exit + n) (4 * k) text text'
    ∧ if b then 1 ≤ k ∧ exit_to (code_cache_meta th') text' (exit + n) (4 * k) tpc else k = 0.
Proof.
  intros Ht [Hs (F & Ls & Hl & Hm) Hrel Hw Hk] Hn H0 H1 Hc Hb. simpl in *. destruct b.
  2: { exists 0, th, text. rewrite Z.mul_0_r, !Z.add_0_r. split_and!; try done; [|apply relinked_refl | by intros ?].
       constructor; try done. exists F, Ls. split; [done | lia]. }
  pose proof Hrel as (Hle & _ & Hcc & _). destruct (Hb eq_refl) as (? & ? & ? & ? & ? & _).
  destruct (link_to_spec th F Ls text (exit + n) tpc) as (th' & text' & k & F' & Ls' & Hr & Hs' & Hl' & Hlen & Hrel' & Hw' & Hex & Hk' & Hkr);
    [done | unfold placed; split_and!; (done || lia) | done | done | intros ->; simpl in Hm; lia | unfold traces_addr; by rewrite Hcc | done | |].
  { eapply clear_le; [done|]. eapply clear_part; [done | lia..]. }
  exists k, th', text'. unfold link_if, link_checked. rewrite Hr. cbn [mbind outcome_bind fst snd].
  split_and!; [simpl; do 2 f_equal; lia | lia | lia | | done | done | lia | done].
  constructor; try done; [exists F', Ls'; split; [done | lia] | by eapply relinked_trans |].
  intros x i Hx Hsp Hd. simpl. apply Hk'; [apply Hk; [done..|] | by eapply spare_le |]; unfold disjoint in *; lia.
Qed.

Lemma kept_but_code ms y n text text' l : ∀ x,
  kept_but ms y n text text' → slots_wf ms → code_at text x l → clear ms x (code_size l) → disjoint x (code_size l) y n →
  code_at text' x l.
Proof.
  induction l as [|i l IH]; intros x Hk Hw Hc Hcl Hd; [done|]. destruct Hc as [Hi Hc]. rewrite code_size_cons in *.
  pose proof (inst_size_pos i). pose proof (code_size_nonneg l). unfold disjoint in Hd. split.
  - apply Hk; [done | apply wf_clear_spare; [done|]; eapply clear_part; [exact Hcl | lia..] | unfold disjoint; lia].
  - apply IH; [done | done | done | eapply clear_part; [exact Hcl | lia..] | unfold disjoint; lia].
Qed.

(** Execution goes on in the block at [tpc], or behind the six NOPs of the exit. *)
Definition leads (text : cmem) (exit tpc : Z) (s : machine) : Prop :=
  ∃ s', reaches text s s' ∧ ok s'
    ∧ if tpc =? UINT_MAX then pc s' = exit + 24 ∧ same_state s s' else pc s' = tpc + 6 ∧ restored s s'.

Lemma leads_after text exit tpc s a :
  goes_to text s a → (∀ s', ok s' → pc s' = a → leads text exit tpc s') → leads text exit tpc s.
Proof.
  intros (s1 & Hr & Hp & Hss & Ho) H. destruct (H s1 Ho Hp) as (s2 & Hr2 & Ho2 & H2). exists s2.
  split_and!; [by eapply reaches_trans | done |]. destruct (tpc =? UINT_MAX), H2 as [? ?];
    (split; [done|]); [by eapply same_state_trans | by eapply restored_trans].
Qed.

Lemma leads_link th0 text0 exit n m th text write_p len tpc :
  cfg_target cfg = riscv_compressed → linking th0 text0 exit n m (th, text) → slots_wf (code_cache_meta th0) → n ≤ 44 → 0 ≤ exit →
  exit + 44 < 2 ^ 63 → branch_side th0 text0 exit tpc → tpc ≠ UINT_MAX → exit_to (code_cache_meta th) text write_p len tpc →
  exit ≤ write_p ≤ exit + 24 → ∀ s, ok s → pc s = write_p → leads text exit tpc s.
Proof.
  intros Ht [_ _ _ Hw Hk] Hw0 Hn H0 H1 (? & ? & ? & ? & _ & _ & Hcl & Hd & q & Hq & Hcq) Hne Hex Hwp s Hs Hp. simpl in *.
  assert (code_size q = 6) as Hsz by (rewrite Ht in Hq; vm_compute in Hq; by injection Hq as <-).
  destruct (exit_arrives (code_cache_meta th) text write_p len tpc q s) as (s' & Hr & Hp' & Ho & Hres);
    [done | unfold placed; split_and!; (done || lia) | done | done | done | | done | done |].
  { eapply kept_but_code; rewrite ?Hsz; try done. unfold disjoint in *. lia. }
  exists s'. split_and!; [done..|]. by rewrite (proj2 (Z.eqb_neq _ _)).
Qed.

Lemma leads_fall th0 text0 exit k m th text :
  linking th0 text0 exit (4 * k) m (th, text) → slots_wf (code_cache_meta th0) → clear (code_cache_meta th0) exit 44 →
  code_at text0 exit (replicate 6 nop) → 0 ≤ k ≤ 6 → 0 ≤ exit → exit + 44 < 2 ^ 63 →
  ∀ s, ok s → pc s = exit + 4 * k → leads text exit UINT_MAX s.
Proof.
  intros [_ _ _ _ Hk] Hw Hc Hn Hkr H0 H1 s Hs Hp. cbn [fst snd] in *.
  assert (code_at text (exit + 4 * k) (replicate (Z.to_nat (6 - k)) nop)) as Hnops.
  { replace 6%nat with (Z.to_nat k + Z.to_nat (6 - k))%nat in Hn by lia. rewrite replicate_add in Hn.
    assert (∀ n, code_size (replicate n nop) = 4 * Z.of_nat n) as Hsz.
    { intros n. induction n as [|n IH]; [done|]. cbn [replicate]. rewrite code_size_cons, IH. simpl inst_size. lia. }
    apply code_at_app in Hn as [_ Hn]. rewrite Hsz in Hn. replace (4 * Z.of_nat (Z.to_nat k)) with (4 * k) in Hn by lia.
    eapply kept_but_code; rewrite ?Hsz; [done | done | done | |].
    - eapply clear_part; [exact Hc | lia..].
    - unfold disjoint. lia. }
  rewrite <- Hp in Hnops. destruct (goes_to_nops text _ s Hs Hnops) as (s' & Hr & Hp' & Hss & Ho); [lia|].
  exists s'. split_and!; [done..|]. rewrite Z.eqb_refl. split; [lia | done].
Qed.

Section branch.
Context (Ht : cfg_target cfg = riscv_compressed) (th : dbm_thread T) (text : cmem) (exit : Z).
Context (Hw : slots_wf (code_cache_meta th)) (Hclear : clear (code_cache_meta th) exit 44).
Context (Hnops : code_at text exit (replicate 6 nop)) (H0 : 0 ≤ exit) (H1 : exit + 44 < 2 ^ 63).

(** The exit is rewritten so that it leads to the side the condition selects. *)
Definition branch_result (c : branch_condition) (r1 r2 t f : Z) (r : outcome (Z * (dbm_thread T * cmem))) : Prop :=
  ∃ n st, r = Ok (exit + n, st) ∧ 4 ≤ n ≤ 44 ∧ (t = UINT_MAX ∨ f = UINT_MAX → n ≤ 24) ∧ linking th text exit n 0 st
    ∧ ∀ s, ok s → pc s = exit → leads (snd st) exit (if holds c (get s r1) (get s r2) then t else f) s.

Lemma linking_le n n' m st : linking th text exit n m st → n ≤ n' → linking th text exit n' m st.
Proof.
  intros [Hs Hl Hr Hsl Hk] Hn. constructor; try done. intros x i Hx Hsp Hd. apply Hk; [done..|].
  unfold disjoint in *. lia.
Qed.

(** The side behind the [4 * k0] bytes, linked or not. *)
Lemma side_behind f k0 m th1 text1 :
  linking th text exit (4 * k0) (S m) (th1, text1) → 0 ≤ k0 ≤ 6 → (f ≠ UINT_MAX → branch_side th text exit f) →
  ∃ k th' text', link_if cfg (negb (f =? UINT_MAX)) (th1, text1) (exit + 4 * k0) f = Ok (exit + 4 * (k0 + k), (th', text'))
    ∧ 0 ≤ k ≤ 5 ∧ linking th text exit (4 * (k0 + k)) m (th', text') ∧ relinked th1 th'
    ∧ kept_but (code_cache_meta th1) (exit + 4 * k0) (4 * k) text1 text'
    ∧ (f = UINT_MAX → k = 0) ∧ (f ≠ UINT_MAX → 1 ≤ k ∧ exit_to (code_cache_meta th') text' (exit + 4 * k0) (4 * k) f)
    ∧ ∀ s, ok s → pc s = exit + 4 * k0 → leads text' exit f s.
Proof.
  intros Hl Hk0 Hf.
  destruct (linking_link (negb (f =? UINT_MAX)) th text exit (4 * k0) m th1 text1 f) as (k & th' & text' & Hr & Hk & Hl' & Hrel & Hkept & Hex);
    [by right | done | lia | done | done | done | intros Hne; apply Hf; lia |].
  exists k, th', text'. replace (exit + 4 * (k0 + k)) with (exit + (4 * k0 + 4 * k)) by lia. replace (4 * (k0 + k)) with (4 * k0 + 4 * k) by lia.
  split_and!; try done; [lia | lia | by intros -> | |].
  - intros Hne. by rewrite (proj2 (Z.eqb_neq _ _) Hne) in Hex.
  - intros s Hs Hp. destruct (Z.eqb_spec f UINT_MAX) as [->|Hne].
    + simpl in Hex. subst k. eapply (leads_fall th text exit k0 m th' text'); try done.
      by rewrite Z.mul_0_r, Z.add_0_r in Hl'.
    + destruct Hex as [_ Hex]. eapply (leads_link th text exit _ m th' text' (exit + 4 * k0) (4 * k)); [done | exact Hl' | done | lia | done | done | by apply Hf | done | done | lia | done | done].
Qed.

Lemma leads_direct text' t s : goes_to text' s (t + 6) → t ≠ UINT_MAX → leads text' exit t s.
Proof.
  intros (s' & Hr & Hp & Hss & Ho) Hne. exists s'. split_and!; [done..|]. rewrite (proj2 (Z.eqb_neq _ _) Hne).
  split; [done | by apply same_restored].
Qed.

(** The branch, written over the first word of the exit, stays there. *)
Lemma branch_stays th1 text1 text' b y k :
  relinked th th1 → inst_size b = 4 → exit + 4 ≤ y → kept_but (code_cache_meta th1) y k (put exit b text1) text' →
  text' exit = Some b.
Proof.
  intros (Hle & _) Hb Hy Hk. apply Hk; [apply put_same | |].
  - eapply spare_le; [done|]. apply wf_clear_spare; [done|]. eapply clear_part; [exact Hclear | lia..].
  - unfold disjoint. lia.
Qed.

(** The branch reaches the taken side. *)
Lemma branch_direct c r1 r2 t f b th1 :
  linking th text exit 0 1 (th1, text) → t ≠ UINT_MAX → branch_side th text exit t →
  (f ≠ UINT_MAX → branch_side th text exit f) → riscv_branch_helper exit (t + 6) r1 r2 c = Some b →
  branch_result c r1 r2 t f (link_if cfg (negb (f =? UINT_MAX)) (th1, put exit b text) (exit + 4) f).
Proof.
  intros Hl Hne (? & ? & ? & _) Hf Hb.
  assert (inst_size b = 4) as Hsz by (unfold riscv_branch_helper in Hb; destruct (riscv_create_b_imm_pair _); [by injection Hb as <- | done]).
  assert (linking th text exit (4 * 1) 1 (th1, put exit b text)) as Hl1 by (eapply linking_put; [done | lia | lia]).
  pose proof (linking_same _ _ _ _ _ _ Hl) as Hrel.
  destruct (side_behind f 1 0 _ _ Hl1 ltac:(lia) Hf) as (k & th' & text' & Hr & Hk & Hl' & _ & Hkept & Hk0 & _ & Hlead).
  exists (4 * (1 + k)), (th', text'). split_and!; [exact Hr | lia | lia | intros [|Hf0]; [done | rewrite (Hk0 Hf0); lia] | done |].
  intros s Hs Hp. assert (text' exit = Some b) as Hx by (eapply branch_stays; [done | done | | done]; lia).
  rewrite <- Hp in Hb, Hx. pose proof (branch_goes text' s (t + 6) r1 r2 c b Hb) as Hgo.
  destruct (holds c (get s r1) (get s r2)).
  - apply leads_direct; [apply Hgo; (done || lia || unfold near; lia) | done].
  - eapply leads_after; [apply Hgo; (done || lia || unfold near; lia)|]. intros s' Hs' Hp'. apply Hlead; [done | lia].
Qed.

(** A branch over the link of the other side. *)
Lemma branch_over c r1 r2 x y :
  linking th text exit 0 2 (th, text) → x ≠ UINT_MAX → branch_side th text exit x → (y ≠ UINT_MAX → branch_side th text exit y) →
  branch_result c r1 r2 y x
    (r ← link_checked cfg (th, text) (exit + 4) x;
     match riscv_branch_helper exit (fst r) r1 r2 c with
     | None => Err AssertFail
     | Some b => link_if cfg (negb (y =? UINT_MAX)) (fst (snd r), put exit b (snd (snd r))) (fst r) y
     end).
Proof.
  intros Hl Hne Hx Hy.
  destruct (side_behind x 1 1 th text) as (k & th1 & text1 & Hr & Hk & Hl1 & Hrel1 & _ & _ & Hex & _);
    [by eapply linking_le | lia | done |]. rewrite (proj2 (Z.eqb_neq _ _) Hne) in Hr. unfold link_if in Hr. simpl negb in Hr.
  cbn iota in Hr. change (exit + 4 * 1) with (exit + 4) in *. rewrite Hr. cbn [mbind outcome_bind fst snd].
  destruct (Hex Hne) as [Hk1 Hex1].
  destruct (branch_helper_some exit (exit + 4 * (1 + k)) r1 r2 c) as (b & Hb & Hsz);
    [replace (exit + 4 * (1 + k) - exit) with (2 * (2 * (1 + k))) by lia; apply Z.even_mul | lia |]. rewrite Hb.
  assert (linking th text exit (4 * (1 + k)) 1 (th1, put exit b text1)) as Hl2 by (eapply linking_put; [done | lia | lia]).
  destruct (side_behind y (1 + k) 0 _ _ Hl2 ltac:(lia) Hy) as (k' & th' & text' & Hr' & Hk' & Hl' & Hrel' & Hkept & Hk0 & _ & Hlead).
  exists (4 * (1 + k + k')), (th', text'). split_and!; [exact Hr' | lia | lia | intros [Hy0|]; [rewrite (Hk0 Hy0); lia | done] | done |].
  intros s Hs Hp. assert (text' exit = Some b) as Hbx by (eapply branch_stays; [done | done | | done]; lia).
  assert (exit_to (code_cache_meta th') text' (exit + 4) (4 * k) x) as Hex'.
  { pose proof (linking_slots _ _ _ _ _ _ Hl1) as Hw1. destruct Hrel1 as (Hle1 & _). destruct Hrel' as (Hle' & _).
    assert (∀ a n, exit ≤ a → a + n ≤ exit + 44 → clear (code_cache_meta th1) a n) as Hc1.
    { intros a n ? ?. eapply clear_le; [done|]. by eapply clear_part. }
    eapply (exit_keep (code_cache_meta th1) _ (put exit b text1) _ _ _ _ (exit + 4 * (1 + k)) (4 * k')); [by right | done | | done | apply Hc1; lia | apply Hc1; lia | done | unfold disjoint; lia].
    eapply (exit_keep (code_cache_meta th1) _ text1 _ _ _ _ exit 4); [by right | done | done | | apply Hc1; lia | apply Hc1; lia | | unfold disjoint; lia].
    - apply later_le, later_refl.
    - intros z i Hz _ Hd. apply put_keeps; [done | by rewrite Hsz]. }
  rewrite <- Hp in Hb, Hbx. pose proof (branch_goes text' s _ r1 r2 c b Hb) as Hgo.
  destruct (holds c (get s r1) (get s r2)).
  - eapply leads_after; [apply Hgo; (done || lia || unfold near; lia)|]. intros s' Hs' Hp'. apply Hlead; [done | lia].
  - eapply leads_after; [apply Hgo; (done || lia || unfold near; lia)|]. intros s' Hs' Hp'.
    eapply (leads_link th text exit _ _ th' text' (exit + 4) (4 * k)); [done | exact Hl' | done | lia | done | done | done | done | done | lia | done | lia].
Qed.
End branch.

Lemma branch_helper_cond x y r1 r2 c c' : riscv_branch_helper x y r1 r2 c = None → riscv_branch_helper x y r1 r2 c' = None.
Proof. unfold riscv_branch_helper. by destruct (riscv_create_b_imm_pair _). Qed.

(** An untranslated side has no address a branch can be made for. *)
Lemma branch_helper_untranslated x r1 r2 c :
  Z.even x = true → 0 ≤ x < 2 ^ 63 → riscv_branch_helper x (UINT_MAX + 6) r1 r2 c = None.
Proof.
  intros He Hx. unfold riscv_branch_helper. destruct (riscv_create_b_imm_pair _) as [p|] eqn:Hp; [|done].
  apply b_imm_pair_some in Hp as [Ho _]. exfalso. change UINT_MAX with (2 ^ 32 - 1) in Ho. rewrite s64_small in Ho by lia.
  set (d := 2 ^ 32 - 1 + 6 - x) in *. assert (s32 d mod 2 ^ 32 = d mod 2 ^ 32) as Hm by by apply signed_mod_eq.
  apply Z.even_spec in He as [h ->]. apply Z.even_spec in Ho as [o Ho]. rewrite Ho in Hm. subst d.
  clear Ho. Z.div_mod_to_equations. lia.
Qed.

Lemma holds_invert c a b : holds (invert_cond c) a b = negb (holds c a b).
Proof. destruct c; simpl; rewrite ?negb_involutive, ?(Z.leb_antisym _ _), ?negb_involutive; done. Qed.

(** Linking the conditional branch that ends a block makes its exit lead to
    the right block. When at least one side is translated, two link records are
    left and the exit starts with its six NOPs, [riscv_link_branch] succeeds,
    writes at most 44 bytes of the exit (24 when one side is not translated)
    besides free trampoline slots, and from
    then on every execution that arrives at the exit goes on, whichever form
    was written, behind the first six bytes of the block of the side that the
    condition selects, with all registers restored and no memory written but
    the 16 bytes below the stack pointer. A side that is not translated falls
    through to the original exit with nothing changed. *)
Theorem riscv_link_branch_spec th text F Ls bb meta t f :
  cfg_target cfg = riscv_compressed → shape cfg th → links cfg th F Ls → (2 ≤ length F)%nat → slots_wf (code_cache_meta th) →
  0 ≤ bb → code_cache_meta th !! Z.to_nat bb = Some meta →
  let exit := exit_branch_addr meta in
  0 ≤ exit → exit + 44 < 2 ^ 63 → Z.even exit = true → clear (code_cache_meta th) exit 44 → code_at text exit (replicate 6 nop) →
  cc_lookup cfg th (branch_taken_addr meta) = Ok t → cc_lookup cfg th (branch_skipped_addr meta) = Ok f →
  t ≠ UINT_MAX ∨ f ≠ UINT_MAX →
  (t ≠ UINT_MAX → branch_side th text exit t) → (f ≠ UINT_MAX → branch_side th text exit f) →
  ∃ n th' text', riscv_link_branch cfg (th, text) bb = Ok (exit + n, (th', text')) ∧ 4 ≤ n ≤ 44 ∧ (t = UINT_MAX ∨ f = UINT_MAX → n ≤ 24)
    ∧ linking th text exit n 0 (th', text')
    ∧ ∀ s, ok s → pc s = exit →
        leads text' exit (if holds (cond_of (Dbm.branch_condition meta)) (get s (rs1 meta)) (get s (rs2 meta)) then t else f) s.
Proof.
  intros Ht Hs Hl HF Hw Hb Hm exit H0 H1 Heven Hc Hn Htl Hfl Hin Hts Hfs.
  assert (linking th text exit 0 2 (th, text)) as Hstart
    by (constructor; [done | by exists F, Ls | apply relinked_refl | done | by intros ?]).
  assert (∀ c r1 r2 t f r, branch_result th text exit c r1 r2 t f r → ∃ n th' text', r = Ok (exit + n, (th', text'))
    ∧ 4 ≤ n ≤ 44 ∧ (t = UINT_MAX ∨ f = UINT_MAX → n ≤ 24) ∧ linking th text exit n 0 (th', text')
    ∧ ∀ s, ok s → pc s = exit → leads text' exit (if holds c (get s r1) (get s r2) then t else f) s) as Hres.
  { intros c r1 r2 t' f' r (n & [th' text'] & Hr & Hn' & Hlk & Hs'). by exists n, th', text'. }
  unfold riscv_link_branch. cbn [fst snd]. rewrite (aget_lookup _ _ meta) by done. cbn [mbind outcome_bind].
  rewrite Htl, Hfl. cbn [mbind outcome_bind]. set (c := cond_of _).
  assert (c_assert (negb (t =? UINT_MAX) || negb (f =? UINT_MAX)) = Ok tt) as ->
    by (unfold c_assert; destruct (Z.eqb_spec t UINT_MAX), (Z.eqb_spec f UINT_MAX); simpl; tauto).
  cbn [mbind outcome_bind]. fold exit. destruct (Z.eqb_spec t UINT_MAX) as [->|Htn]; simpl negb; cbn iota.
  - destruct Hin as [|Hfn]; [done|]. rewrite (proj2 (Z.eqb_neq _ _) Hfn). simpl negb. cbn iota.
    rewrite branch_helper_untranslated by (done || lia).
    destruct (branch_over Ht th text exit Hw Hc Hn H0 H1 (invert_cond (invert_cond c)) (rs1 meta) (rs2 meta) f UINT_MAX)
      as (n & [th' text'] & Hr & Hrest); [done | done | by apply Hfs | done |].
    exists n, th', text'. split; [exact Hr|]. destruct Hrest as (? & ? & ? & Hlead). split_and!; [lia | lia | tauto | done |].
    intros s Hs' Hp. specialize (Hlead s Hs' Hp). by rewrite !holds_invert, negb_involutive in Hlead.
  - destruct (riscv_branch_helper exit (t + 6) (rs1 meta) (rs2 meta) c) as [b|] eqn:Hbr.
    + destruct (Hts Htn) as (_ & _ & _ & _ & _ & Htr & _).
      destruct (linking_record _ _ _ _ _ _ _ exit (t + 6) Hstart Htr) as (th1 & -> & Hl1). cbn [mbind outcome_bind].
      apply Hres. apply branch_direct; try done. by apply Hts.
    + rewrite (branch_helper_cond _ _ _ _ _ (invert_cond c) Hbr).
      replace (if negb (f =? UINT_MAX) then None else None) with (@None inst) by by destruct (negb _). cbn iota.
      destruct (branch_over Ht th text exit Hw Hc Hn H0 H1 (invert_cond c) (rs1 meta) (rs2 meta) t f)
        as (n & [th' text'] & Hr & Hrest); [done | done | by apply Hts | done |].
      exists n, th', text'. split; [exact Hr|]. destruct Hrest as (? & ? & ? & Hlead). split_and!; [lia | lia | tauto | done |].
      intros s Hs' Hp. specialize (Hlead s Hs' Hp). rewrite holds_invert in Hlead. by destruct (holds c _ _).
Qed.

(** C7. A direct exit that is linked arrives. With a free link record and room
    for 20 bytes, [riscv_link_to] succeeds, whether it writes a JAL, a JAL to a
    chain of at most eight trampoline slots of other blocks, or a save of the
    context with an indirect jump; the code outside of the 20 bytes and of the
    free slots stays; and every execution that arrives at the exit goes on
    behind the context restore of the target's block with all registers
    restored and no memory written but the 16 bytes below the stack pointer. *)
Theorem riscv_link_to_arrives th F Ls text write_p tpc q :
  cfg_target cfg = riscv_compressed → shape cfg th → links cfg th F Ls → F ≠ [] → slots_wf (code_cache_meta th) →
  placed write_p tpc → clear (code_cache_meta th) write_p 20 → tpc ≠ traces_addr cfg th →
  riscv_pop (cfg_target cfg) (reg_mask [a0; a1]) = Ok q → code_at text tpc q →
  clear (code_cache_meta th) tpc 6 → disjoint tpc 6 write_p 20 →
  ∃ k th' text' F' Ls', riscv_link_to cfg (th, text) write_p tpc = Ok (0, write_p + 4 * k, (th', text')) ∧ 1 ≤ k ≤ 5
    ∧ shape cfg th' ∧ links cfg th' F' Ls' ∧ (length F ≤ S (length F'))%nat ∧ relinked th th' ∧ slots_wf (code_cache_meta th')
    ∧ kept_but (code_cache_meta th) write_p (4 * k) text text'
    ∧ ∀ s, ok s → pc s = write_p →
        ∃ s', reaches text' s s' ∧ pc s' = tpc + 6 ∧ ok s' ∧ restored s s'.
Proof.
  intros Ht Hs Hl HF Hw Hp Hc Hne Hq Hcq Hct Hd.
  destruct (link_to_spec th F Ls text write_p tpc) as (th' & text' & k & F' & Ls' & Hr & Hs' & Hl' & Hlen & Hrel & Hw' & Hex & Hk & Hkr);
    [by right | done.. |]. exists k, th', text', F', Ls'. split_and!; try done; try lia. intros s Hos Hps.
  assert (code_size q = 6) as Hsz by (rewrite Ht in Hq; vm_compute in Hq; by injection Hq as <-).
  eapply (exit_arrives (code_cache_meta th')); [done | done | done | done | done | | done | done].
  eapply kept_but_code; rewrite ?Hsz; try done. unfold disjoint in *. lia.
Qed.
End records.

(** ** An instance *)

Definition link_config : config :=
  MkConfig riscv_compressed true true true 8 64 4 2 4096 4 (table_size 3) 1.

Lemma link_config_ok : config_ok link_config.
Proof. constructor; simpl; try lia. by exists 6. Qed.

#[local] Instance link_table : AddressTable CodeCacheHash.hash_table (TABLE_SIZE link_config) :=
  CodeCacheHash_table riscv_compressed 3 ltac:(lia).

(** Block 2 ends with a branch at 4700 to blocks 3 and 5; block 4 has slots. *)
Definition branch_meta : dbm_code_cache_meta :=
  MkMeta 0 0 branch_riscv 0 4700 0x1000 0x2002 1 0 0 15 14 None None 0 false 0 0 0 0 None 0 0 None [].
Definition slots_meta : dbm_code_cache_meta :=
  MkMeta 0 0 unknown 0 0 0 0 0 0 0 0 0 None None 0 false 0 0 0 0 (Some 5200) 0 0 None [].

Definition added (t : CodeCacheHash.hash_table) (k v : Z) : CodeCacheHash.hash_table :=
  match CodeCacheHash.hash_add riscv_compressed t k v with Ok (_, t') => t' | Err _ => t end.

Definition link_thread : dbm_thread CodeCacheHash.hash_table :=
  MkThread 6 false 4096
    ([empty_meta; empty_meta; branch_meta; empty_meta; slots_meta] ++ replicate 7 empty_meta)
    (added (added (CodeCacheHash.MkTable 17 0 0 (replicate 17 (HashEntry 0 0))) 0x1000 4864) 0x2002 5376)
    (replicate 8 0) 6400 8 0 (MkTrace 8 0 0 0 false 0 [])
    (LinkedList.Ll (Some 0) 4 [LinkedList.LlEntry (Some 1) 0; LinkedList.LlEntry (Some 2) 0;
                               LinkedList.LlEntry (Some 3) 0; LinkedList.LlEntry None 0]).

Definition restore : list inst := [C_ldsp a0 0 0; C_ldsp a1 0 8; C_addi16sp 0 16].
Definition link_text : cmem := place 4864 restore (place 5376 restore (place 4700 (replicate 6 nop) (λ _, None))).

Lemma link_shape : shape link_config link_thread.
Proof. constructor; simpl; try done; try lia. by exists 16. Qed.

Lemma link_links : links link_config link_thread [0; 1; 2; 3] (replicate 8 []).
Proof.
  constructor.
  - unfold LinkedList.free_chain. simpl. repeat (split; [done|]; eexists; split; [reflexivity|]). done.
  - vm_compute. repeat constructor.
  - apply (bool_decide_unpack _). vm_compute. exact I.
Qed.

Lemma link_slot i m a : code_cache_meta link_thread !! i = Some m → trampoline_addr m = Some a → i = 4%nat ∧ m = slots_meta ∧ a = 5200.
Proof.
  intros Hm Ha. do 12 (destruct i as [|i]; [cbn in Hm; injection Hm as <-; first [discriminate Ha | by injection Ha as <-]|]).
  discriminate Hm.
Qed.

Lemma link_slots : slots_wf (code_cache_meta link_thread).
Proof.
  constructor.
  - intros i m a Hm Ha. destruct (link_slot i m a Hm Ha) as (-> & -> & ->). unfold RISCV_TRAMPOLINE_SLOTS. simpl. lia.
  - intros i j mi mj a b Hne Hi Hj Ha Hb. destruct (link_slot i mi a Hi Ha) as (-> & _), (link_slot j mj b Hj Hb) as (-> & _). done.
Qed.

Lemma link_clear x n : disjoint x n 5200 24 → clear (code_cache_meta link_thread) x n.
Proof. intros Hd i m a Hm Ha. by destruct (link_slot i m a Hm Ha) as (_ & _ & ->). Qed.

Lemma link_side tpc : tpc = 4864 ∨ tpc = 5376 → branch_side link_config link_thread link_text 4700 tpc.
Proof.
  intros Ht. unfold branch_side. change (traces_addr link_config link_thread) with 6144.
  assert (Z.even tpc = true) as -> by by destruct Ht as [-> | ->].
  split_and!; try lia; [apply link_clear; unfold disjoint; lia | unfold disjoint; lia |].
  exists restore. split; [vm_compute; reflexivity|]. destruct Ht as [-> | ->]; vm_compute; by repeat split.
Qed.

Lemma riscv_link_branch_spec_witness :
  ∃ n th' text', riscv_link_branch link_config (link_thread, link_text) 2 = Ok (4700 + n, (th', text'))
    ∧ ∀ s, ok s → pc s = 4700 → leads text' 4700 (if holds BNE (get s 15) (get s 14) then 4864 else 5376) s.
Proof.
  destruct (riscv_link_branch_spec link_config link_config_ok link_thread link_text [0; 1; 2; 3] (replicate 8 []) 2 branch_meta 4864 5376)
    as (n & th' & text' & Hr & _ & _ & _ & Hl);
    [reflexivity | apply link_shape | apply link_links | simpl; lia | apply link_slots | lia | reflexivity | vm_compute; discriminate
    | reflexivity | reflexivity | apply link_clear; unfold disjoint; simpl; lia | vm_compute; by repeat split
    | vm_compute; reflexivity | vm_compute; reflexivity | left; discriminate | intros _; apply link_side; by left | intros _; apply link_side; by right |].
  by exists n, th', text'.
Defined.

Lemma riscv_link_to_arrives_witness :
  ∃ k th' text', riscv_link_to link_config (link_thread, link_text) 4700 4864 = Ok (0, 4700 + 4 * k, (th', text'))
    ∧ ∀ s, ok s → pc s = 4700 → ∃ s', reaches text' s s' ∧ pc s' = 4864 + 6 ∧ ok s' ∧ restored s s'.
Proof.
  destruct (riscv_link_to_arrives link_config link_config_ok link_thread [0; 1; 2; 3] (replicate 8 []) link_text 4700 4864 restore)
    as (k & th' & text' & F' & Ls' & Hr & _ & _ & _ & _ & _ & _ & _ & Ha);
    [reflexivity | apply link_shape | apply link_links | done | apply link_slots | unfold placed; split_and!; (lia || done)
    | apply link_clear; unfold disjoint; lia | vm_compute; discriminate | reflexivity | vm_compute; by repeat split
    | apply link_clear; unfold disjoint; lia | unfold disjoint; lia |].
  by exists k, th', text'.
Defined.
End RiscvLinked.
