(* ===== verification/RiscvExit.v ===== *)
(** * Exits of RISC-V blocks (arch/riscv/scanner_riscv.c)

    How the scanner ends a block: with direct jumps and with conditional
    branches, which save the context and enter the dispatcher with the target in
    a0 and the number of the block in a1. The code is written to the code memory
    of RiscvProg, where a gap that a branch will fill is left out. *)
From S2P Require Import Prelude LinearProbe CodeCacheHash LinkedList AddressTable Dbm.
From S2P Require Import RegList RiscvImm RiscvAsm RiscvEmit RiscvContext RiscvProg RiscvExec.
Import Dbm RegList RiscvImm RiscvEmit RiscvContext RiscvAsm RiscvProg RiscvExec.

Module RiscvExit.

(** The write pointer and the code memory. *)
Notation out := (Z * cmem)%type.

Definition emit (l : list inst) (st : out) : out := (fst st + code_size l, place (fst st) l (snd st)).
Definition skip (n : Z) (st : out) : out := (fst st + n, snd st).

(** A branch that is written later; its helper may fail and write nothing. *)
Definition patch (h : Z) (i : option inst) (st : out) : out :=
  (fst st, match i with Some i => put h i (snd st) | None => snd st end).

(** The fields that describe an exit. *)
Definition set_exit_branch_addr (v : Z) (r : dbm_code_cache_meta) : dbm_code_cache_meta :=
  MkMeta (source_addr r) (tpc r) (exit_branch_type r) (actual_id r) v (branch_taken_addr r) (branch_skipped_addr r)
    (Dbm.branch_condition r) (branch_cache_status r) (rn r) (rs1 r) (rs2 r) (next_prediction_slot r) (ihlu_address r)
    (number_of_predictions r) (link r) (imm r) (rd r) (Dbm.inst r) (read_addr r) (trampoline_addr r) (trampoline_slots_used r)
    (free_b r) (linked_from r) (saved_exit r).
Definition set_branch (taken skipped cond r1 r2 : Z) (r : dbm_code_cache_meta) : dbm_code_cache_meta :=
  MkMeta (source_addr r) (tpc r) (exit_branch_type r) (actual_id r) (exit_branch_addr r) taken skipped
    cond (branch_cache_status r) (rn r) r1 r2 (next_prediction_slot r) (ihlu_address r)
    (number_of_predictions r) (link r) (imm r) (rd r) (Dbm.inst r) (read_addr r) (trampoline_addr r) (trampoline_slots_used r)
    (free_b r) (linked_from r) (saved_exit r).

Section exits.
Context (t : target) (dispatcher_addr RISCV_LUI : Z).

(** Instructions are numbered so that those of 32 bits follow RISCV_LUI. *)
Definition next_addr (read_address inst : Z) : Z := read_address + (if RISCV_LUI <=? inst then 4 else 2).

Definition riscv_go_to_dispatcher (write_p : Z) : outcome (list inst) :=
  match riscv_jalr_helper write_p dispatcher_addr zero s1 with Some l => Ok l | None => Err AssertFail end.

(** Code, then the jump to the dispatcher. *)
Definition then_dispatcher (code : list inst) (st : out) : outcome out :=
  d ← riscv_go_to_dispatcher (fst st + code_size code);
  Ok (emit (code ++ d) st).

Section thread.
Context {T : Type}.
Implicit Types (th : dbm_thread T).

Definition riscv_jump th (read_address inst basic_block rd target : Z) (st : out) : outcome (dbm_thread T * out) :=
  st ← (if rd =? zero then Ok st
        else
          c_assert (negb (rd =? s1) && negb (rd =? a0) && negb (rd =? a1));;
          l ← riscv_copy_to_reg rd (u64 (next_addr read_address inst));
          Ok (emit l st));
  th ← upd_meta basic_block (λ m, set_exit_branch_addr (fst st) (set_exit_branch_type jal_riscv m)) th;
  save ← riscv_save_context t;
  ca ← riscv_copy_to_reg a0 target;
  cb ← riscv_copy_to_reg a1 basic_block;
  st ← then_dispatcher (save ++ ca ++ cb) st;
  Ok (th, st).

(** The code for one side: [save] and [id] as far as they are still to be done. *)
Definition exit_side (save id : list inst) (addr : Z) (st : out) : outcome out :=
  ca ← riscv_copy_to_reg a0 addr;
  then_dispatcher (save ++ id ++ ca) st.

(** The two sides around the branch that is written last. *)
Definition two_sides (save id : list inst) (fallthrough target rs1 rs2 : Z) (cond : branch_condition) (st : out) : outcome out :=
  let rv_cond_branch := fst st in
  st ← exit_side save id fallthrough (skip 4 st);
  let skip_addr := fst st in
  st ← exit_side save id target st;
  Ok (patch rv_cond_branch (riscv_branch_helper rv_cond_branch skip_addr rs1 rs2 cond) st).

Definition branch_code (basic_block : Z) (cond : branch_condition) (rs1 rs2 target fallthrough : Z) (st : out) : outcome out :=
  let st := emit (replicate 6 nop) st in
  save ← riscv_save_context t;
  id ← riscv_copy_to_reg a1 basic_block;
  if (rs1 =? sp) || (rs2 =? sp) then two_sides save id fallthrough target rs1 rs2 cond st
  else if negb (rs1 =? a1) && negb (rs2 =? a1)
  then two_sides [] [] fallthrough target rs1 rs2 cond (emit (save ++ id) st)
  else two_sides [] id fallthrough target rs1 rs2 cond (emit save st).

Definition riscv_cond_branch th (read_address inst basic_block : Z) (st : out)
    (cond rs1 rs2 target : Z) : outcome (dbm_thread T * out) :=
  let fallthrough_addr := u64 (next_addr read_address inst) in
  th ← upd_meta basic_block (λ m, set_branch target fallthrough_addr cond rs1 rs2
         (set_exit_branch_addr (fst st) (set_exit_branch_type branch_riscv m))) th;
  st ← branch_code basic_block (cond_of cond) rs1 rs2 target fallthrough_addr st;
  Ok (th, st).
End thread.
End exits.

(** ** What the exits do *)

Section proofs.
Context (t : target) (dispatcher_addr RISCV_LUI : Z) (Ht : riscv_target t).

(** The dispatcher is within reach of the code cache. *)
Definition in_reach (write_p : Z) : Prop :=
  0 ≤ write_p ∧ write_p + 500 < 2 ^ 63 ∧ 0 ≤ dispatcher_addr < 2 ^ 63
  ∧ - 2 ^ 30 ≤ dispatcher_addr - write_p ≤ 2 ^ 30 ∧ Z.even dispatcher_addr = true.

Lemma go_to_dispatcher_spec code w :
  forallb straight code = true → in_reach w → code_size code ≤ 200 →
  ∃ d, riscv_go_to_dispatcher dispatcher_addr (w + code_size code) = Ok d ∧ code_size d = 8
    ∧ ∀ text s, code_at text w (code ++ d) → ok s → pc s = w →
        ∃ s', reaches text s s' ∧ pc s' = dispatcher_addr ∧ ok s' ∧ mem s' = mem (run code s) ∧ csrs s' = csrs s
          ∧ ∀ r, r ≠ zero → r ≠ s1 → get s' r = get (run code s) r.
Proof.
  intros Hst (H0 & H1 & H2 & H3 & He) Hsz. unfold riscv_go_to_dispatcher.
  pose proof (code_size_nonneg code) as Hnn.
  assert (∃ d, riscv_jalr_helper (w + code_size code) dispatcher_addr zero s1 = Some d ∧ code_size d = 8) as (d & Hd & Hszd).
  { unfold riscv_jalr_helper. rewrite s64_small by lia. change INT_MIN with (- 2 ^ 31). change INT_MAX with (2 ^ 31 - 1).
    replace ((_ <? _) || (_ <? _)) with false by lia. by eexists. }
  rewrite Hd. exists d. split_and!; [done | done |]. intros text s Hc Hs Hp. apply code_at_app in Hc as [Hc Hcd].
  rewrite <- Hp in Hc. destruct (run_straight text code s Hs Hst Hc) as [Hrun Hpr]; [lia|].
  destruct (jalr_goes text (run code s) dispatcher_addr zero s1 d) as (s' & Hr & Hp' & Ho & Hm & Hcs & _ & Hg);
    [by rewrite Hpr, Hp | by rewrite Hpr, Hp | lia | done | lia | by apply ok_run | lia | done |].
  exists s'. split_and!; [by eapply reaches_trans | done | done | done | by rewrite Hcs, run_csrs |].
  intros r Hrz Hr1. by apply Hg.
Qed.

Lemma then_dispatcher_spec code st :
  forallb straight code = true → in_reach (fst st) → code_size code ≤ 200 →
  ∃ d, then_dispatcher dispatcher_addr code st = Ok (emit (code ++ d) st) ∧ code_size d = 8
    ∧ ∀ text s, code_at text (fst st) (code ++ d) → ok s → pc s = fst st →
        ∃ s', reaches text s s' ∧ pc s' = dispatcher_addr ∧ ok s' ∧ mem s' = mem (run code s) ∧ csrs s' = csrs s
          ∧ ∀ r, r ≠ zero → r ≠ s1 → get s' r = get (run code s) r.
Proof.
  intros Hst Hin Hsz. destruct (go_to_dispatcher_spec code (fst st) Hst Hin Hsz) as (d & Hd & Hrest).
  exists d. unfold then_dispatcher. by rewrite Hd.
Qed.

(** The registers s1, a0 and a1 are on the stack and the others but a1 are
    unchanged. *)
Record pushed (s s' : machine) : Prop := {
  pushed_sp : get s' sp = u64 (get s sp - 24);
  pushed_regs r : r ≠ sp → r ≠ a1 → get s' r = get s r;
  pushed_frame : frame (mem s) (mem s') (get s' sp) 0 3;
  pushed_saved : saved s (mem s') (get s' sp) 0 [s1; a0; a1];
  pushed_csrs : csrs s' = csrs s
}.

(** The dispatcher is entered with the target and the block. *)
Record dispatched (s s' : machine) (addr id : Z) : Prop := {
  dispatched_pc : pc s' = dispatcher_addr;
  dispatched_a0 : get s' a0 = addr;
  dispatched_a1 : get s' a1 = id;
  dispatched_sp : get s' sp = u64 (get s sp - 24);
  dispatched_regs r : r ∉ [sp; s1; a0; a1] → get s' r = get s r;
  dispatched_frame : frame (mem s) (mem s') (get s' sp) 0 3;
  dispatched_saved : saved s (mem s') (get s' sp) 0 [s1; a0; a1];
  dispatched_csrs : csrs s' = csrs s
}.

Lemma save_spec : ∃ save, riscv_save_context t = Ok save ∧ code_size save = 16 ∧ forallb straight save = true
  ∧ ∀ s, ok s → pushed s (run save s) ∧ get (run save s) a1 = get s a1.
Proof.
  assert (∃ save, riscv_save_context t = Ok save ∧ code_size save = 16) as (save & Hsave & Hsz)
    by (destruct Ht as [-> | ->]; by eexists).
  exists save. split_and!; [done | done | by eapply push_straight |]. intros s Hs.
  destruct (riscv_push_spec t (reg_mask [s1; a0; a1]) s) as (p & Hp & Hsp & Hr & Hf & Hsv & _);
    [done | by vm_compute | by apply (bool_decide_eq_true_1 (sp ∉ regs_of (reg_mask [s1; a0; a1]))) | done |].
  unfold riscv_save_context in Hsave. rewrite Hsave in Hp. injection Hp as <-. cbv zeta in *.
  split; [constructor|]; [exact Hsp | intros r ? _; by apply Hr | exact Hf | exact Hsv | by eapply run_csrs, push_straight | by apply Hr].
Qed.

Lemma id_spec reg v : reg ≠ 0 → 0 ≤ v < 2 ^ 64 →
  ∃ l, riscv_copy_to_reg reg v = Ok l ∧ code_size l ≤ 26 ∧ forallb straight l = true ∧ loads l reg v.
Proof.
  intros Hr Hv. destruct (copy_64bits_loads reg 3 v) as (l & Hl & Hld & Hsz); [done | done | lia |].
  exists l. split_and!; [done | done | by eapply copy_straight | done].
Qed.

(** One side: the context is saved by [save] or was before, and the block number
    is loaded by [id] or was before. *)
Lemma exit_side_spec save id bb addr st :
  in_reach (fst st) → 0 ≤ addr < 2 ^ 64 → 0 ≤ bb < 2 ^ 64 → forallb straight save = true → code_size save ≤ 16 →
  id = [] ∨ forallb straight id = true ∧ loads id a1 bb ∧ code_size id ≤ 26 →
  ∃ l, exit_side dispatcher_addr save id addr st = Ok (emit l st) ∧ code_size l ≤ 76
    ∧ ∀ text s s0, code_at text (fst st) l → pushed s (run save s0) → ok s0 → pc s0 = fst st →
        (id = [] → get (run save s0) a1 = bb) → ∃ s', reaches text s0 s' ∧ ok s' ∧ dispatched s s' addr bb.
Proof.
  intros Hin Ha Hb Hss Hsz0 Hid. destruct (id_spec a0 addr) as (ca & Hca & Hsz & Hst & Hld); [done | done |].
  assert (forallb straight id = true ∧ code_size id ≤ 26) as [Hids Hidz] by (destruct Hid as [-> | (? & ? & ?)]; by split).
  destruct (then_dispatcher_spec (save ++ id ++ ca) st) as (d & Hd & Hszd & Hgo);
    [by rewrite !forallb_app, Hss, Hids, Hst | done | rewrite !code_size_app; lia |].
  exists ((save ++ id ++ ca) ++ d). unfold exit_side. rewrite Hca. cbn [mbind outcome_bind].
  split_and!; [done | rewrite !code_size_app; lia |]. intros text s s0 Hc [Hsp Hr Hf Hsv Hcs] Ho Hp Hid0.
  destruct (Hgo text s0 Hc Ho Hp) as (s' & Hrun & Hpc & Ho' & Hm & Hcs' & Hg). exists s'. split_and!; [done | done |].
  assert (csrs (run save s0) = csrs s0) as Hcs0 by by apply run_csrs.
  rewrite !run_app in *. assert (ok (run save s0)) as Ho1 by by apply ok_run. set (s1' := run save s0) in *.
  assert (∃ s2, s2 = run id s1' ∧ ok s2 ∧ get s2 a1 = bb ∧ mem s2 = mem s1' ∧ ∀ r, r ≠ a1 → get s2 r = get s1' r)
    as (s2 & Hs2 & Ho2 & Hb2 & Hm2 & Hg2).
  { exists (run id s1'). split; [done|]. destruct Hid as [-> | (_ & Hl & _)]; [by split_and!; auto|].
    destruct (Hl s1' Ho1) as (Hb2 & Hm2 & _ & _ & Hg2). split_and!; [by apply ok_run | by rewrite Hb2, u64_small | done | done]. }
  destruct (Hld s2 Ho2) as (Ha2 & Hm3 & _ & _ & Hg3). rewrite <- Hs2 in *.
  assert (∀ r, r ∉ [sp; s1; a0; a1] → r ≠ zero → get s' r = get s r) as Hother.
  { intros r Hnr Hz. rewrite !not_elem_of_cons in Hnr. destruct Hnr as (? & ? & ? & ? & _).
    rewrite Hg, Hg3, Hg2 by done. by apply Hr. }
  assert (get s' sp = get s1' sp) as Hsp' by (by rewrite Hg, Hg3, Hg2).
  constructor; rewrite ?Hsp', ?Hm, ?Hm3, ?Hm2; try done.
  - rewrite Hg by done. by rewrite Ha2, u64_small.
  - by rewrite Hg, Hg3.
  - intros r Hnr. destruct (decide (r = zero)) as [->|]; [done | by apply Hother].
  - congruence.
Qed.

Lemma code_size_even l : Z.even (code_size l) = true.
Proof.
  induction l as [|i l IH]; [done|]. rewrite code_size_cons, Z.even_add, IH. by destruct i.
Qed.

(** The code in [[a, a + n)] is still there. *)
Definition intact (a n : Z) (text text' : cmem) : Prop :=
  ∀ x i, text x = Some i → a ≤ x → x + inst_size i ≤ a + n → text' x = Some i.

Lemma intact_refl a n text : intact a n text text.
Proof. by intros ?. Qed.

Lemma intact_sub a n b k text text' : intact a n text text' → a ≤ b → b + k ≤ a + n → intact b k text text'.
Proof. intros Hi ? ? x i Hx ? ?. apply Hi; (done || lia). Qed.

Lemma code_at_intact a n text text' l : ∀ x,
  intact a n text text' → code_at text x l → a ≤ x → x + code_size l ≤ a + n → code_at text' x l.
Proof.
  induction l as [|i l IH]; intros x Hi Hc Hx Hn; [done|]. destruct Hc as [Hxi Hc]. rewrite code_size_cons in Hn.
  pose proof (code_size_nonneg l). pose proof (inst_size_pos i). split; [apply Hi; (done || lia) | apply IH; (done || lia)].
Qed.

(** Both sides and the branch between them. *)
Lemma two_sides_spec save id bb fallthrough target r1 r2 cond st :
  0 ≤ fst st → fst st + 900 < 2 ^ 63 → 0 ≤ dispatcher_addr < 2 ^ 63 → - 2 ^ 29 ≤ dispatcher_addr - fst st ≤ 2 ^ 29 →
  Z.even dispatcher_addr = true → Z.even (fst st) = true →
  0 ≤ fallthrough < 2 ^ 64 → 0 ≤ target < 2 ^ 64 → 0 ≤ bb < 2 ^ 64 → forallb straight save = true → code_size save ≤ 16 →
  id = [] ∨ forallb straight id = true ∧ loads id a1 bb ∧ code_size id ≤ 26 →
  ∃ n text', two_sides dispatcher_addr save id fallthrough target r1 r2 cond st = Ok (fst st + n, text') ∧ 0 ≤ n ≤ 160
    ∧ keeps (fst st) n (snd st) text'
    ∧ ∀ final s s0, intact (fst st) n text' final →
        (∀ s0', same_state s0 s0' → ok s0' → pushed s (run save s0')) → ok s0 → pc s0 = fst st →
        (id = [] → ∀ s0', same_state s0 s0' → ok s0' → get (run save s0') a1 = bb) →
        ∃ s', reaches final s0 s' ∧ ok s'
          ∧ dispatched s s' (if holds cond (get s0 r1) (get s0 r2) then target else fallthrough) bb.
Proof.
  intros H0 H1 Hd Hnear Hde He Hf Htg Hb Hss Hsz Hid. unfold two_sides. set (h := fst st) in *.
  destruct (exit_side_spec save id bb fallthrough (skip 4 st)) as (l1 & -> & Hz1 & Hgo1); [unfold in_reach; simpl; fold h; split_and!; (done || lia) | done.. |].
  cbn [mbind outcome_bind]. set (st1 := emit l1 (skip 4 st)). pose proof (code_size_nonneg l1).
  destruct (exit_side_spec save id bb target st1) as (l2 & -> & Hz2 & Hgo2); [unfold in_reach; simpl; fold h; split_and!; (done || lia) | done.. |].
  cbn [mbind outcome_bind]. pose proof (code_size_nonneg l2).
  assert (fst st1 = h + 4 + code_size l1) as Hst1 by done. rewrite Hst1.
  destruct (branch_helper_some h (h + 4 + code_size l1) r1 r2 cond) as (b & Hbr & Hszb);
    [replace (h + 4 + code_size l1 - h) with (4 + code_size l1) by lia; by rewrite Z.even_add, code_size_even | lia |].
  rewrite Hbr. set (text1 := place (h + 4) l1 (snd st)). set (text2 := place (h + 4 + code_size l1) l2 text1).
  exists (4 + code_size l1 + code_size l2), (put h b text2). unfold patch.
  assert (keeps h 4 text2 (put h b text2)) as Hk by (rewrite <- Hszb; apply put_keeps).
  split_and!; [unfold emit; simpl; do 2 f_equal; lia | lia | lia | |].
  { eapply (keeps_trans (h + 4) (code_size l1 + code_size l2) h 4); [| exact Hk | lia..].
    eapply keeps_trans; [apply place_keeps | apply place_keeps | lia..]. }
  assert (code_at (put h b text2) (h + 4) l1) as Hc1.
  { eapply code_at_keeps; [exact Hk | | unfold disjoint; lia].
    eapply code_at_keeps; [apply place_keeps | apply place_code_at | unfold disjoint; lia]. }
  assert (code_at (put h b text2) (h + 4 + code_size l1) l2) as Hc2.
  { eapply code_at_keeps; [exact Hk | apply place_code_at | unfold disjoint; lia]. }
  intros final s s0 Hfin Hpush Ho Hp Hid0.
  apply (code_at_intact h (4 + code_size l1 + code_size l2) _ final) in Hc1; [|done | lia | lia].
  apply (code_at_intact h (4 + code_size l1 + code_size l2) _ final) in Hc2; [|done | lia | lia].
  assert (final h = Some b) as Hfh by (apply Hfin; [apply put_same | lia | lia]). rewrite <- Hp in Hbr.
  destruct (branch_goes final s0 _ r1 r2 cond b Hbr) as (s0' & Hrun & Hpc & Hss' & Ho');
    [unfold near; lia | by rewrite Hp | lia | done | lia |].
  assert (id = [] → get (run save s0') a1 = bb) as Hid'.
  { intros Hi. by apply Hid0. }
  destruct (holds cond (get s0 r1) (get s0 r2)) in Hpc |- *.
  - destruct (Hgo2 final s s0' Hc2) as (s' & Hr & Hs' & Hd'); [by apply Hpush | done | by rewrite Hpc, Hp, Hst1 | done |].
    exists s'. split_and!; [by eapply reaches_trans | done | done].
  - destruct (Hgo1 final s s0') as (s' & Hr & Hs' & Hd'); [done | by apply Hpush | done | simpl; lia | done |].
    exists s'. split_and!; [by eapply reaches_trans | done | done].
Qed.

Lemma pushed_same s s0 s' : same_state s s0 → pushed s0 s' → pushed s s'.
Proof.
  intros (Hr & Hm & Hc) [H1 H2 H3 H4 H5]. constructor.
  - by rewrite <- Hr.
  - intros r ? ?. rewrite <- Hr. by apply H2.
  - by rewrite <- Hm.
  - intros i r Hi. rewrite <- Hr. by apply H4.
  - by rewrite <- Hc.
Qed.

Lemma same_pushed s s1 s' : pushed s s1 → same_state s1 s' → pushed s s'.
Proof.
  intros [H1 H2 H3 H4 H5] (Hr & Hm & Hc). constructor; rewrite ?Hr, ?Hm; try done.
  - intros r ? ?. rewrite Hr. by apply H2.
  - congruence.
Qed.

(** Room for code from [write_p] on, within [d] of the dispatcher. *)
Definition room (n d write_p : Z) : Prop :=
  0 ≤ write_p ∧ write_p + n < 2 ^ 63 ∧ 0 ≤ dispatcher_addr < 2 ^ 63 ∧ - d ≤ dispatcher_addr - write_p ≤ d
  ∧ Z.even dispatcher_addr = true ∧ Z.even write_p = true.

Definition side (cond : branch_condition) (r1 r2 target fallthrough : Z) (s : machine) : Z :=
  if holds cond (get s r1) (get s r2) then target else fallthrough.

(** Code that precedes the two sides: it has saved the context. *)
Lemma sides_after pre id bb fallthrough target r1 r2 cond st :
  room 950 (2 ^ 28 + 50) (fst st) → 0 ≤ fallthrough < 2 ^ 64 → 0 ≤ target < 2 ^ 64 → 0 ≤ bb < 2 ^ 64 →
  forallb straight pre = true → code_size pre ≤ 42 → id = [] ∨ forallb straight id = true ∧ loads id a1 bb ∧ code_size id ≤ 26 →
  (∀ s, ok s → pushed s (run pre s) ∧ (id = [] → get (run pre s) a1 = bb)
    ∧ get (run pre s) r1 = get s r1 ∧ get (run pre s) r2 = get s r2) →
  ∃ n text', two_sides dispatcher_addr [] id fallthrough target r1 r2 cond (emit pre st) = Ok (fst st + n, text') ∧ 0 ≤ n ≤ 202
    ∧ keeps (fst st) n (snd st) text'
    ∧ ∀ final s, intact (fst st) n text' final → ok s → pc s = fst st →
        ∃ s', reaches final s s' ∧ ok s' ∧ dispatched s s' (side cond r1 r2 target fallthrough s) bb.
Proof.
  intros (H0 & H1 & Hd & Hnear & Hde & He) Hf Htg Hb Hst Hsz Hid Hpre. pose proof (code_size_nonneg pre).
  assert (fst (emit pre st) = fst st + code_size pre) as Hfst by done.
  destruct (two_sides_spec [] id bb fallthrough target r1 r2 cond (emit pre st)) as (n & text' & -> & Hn & Hk & Hgo);
    [rewrite ?Hfst; (done || lia) .. | by rewrite Hfst, Z.even_add, He, code_size_even | done | done | done | done | done | done |].
  rewrite Hfst in *. exists (code_size pre + n), text'. split_and!; [do 2 f_equal; lia | lia | lia | |].
  { eapply keeps_trans; [apply place_keeps | exact Hk | lia..]. }
  intros final s Hfin Hs Hp. assert (code_at final (pc s) pre) as Hc.
  { rewrite Hp. eapply (code_at_intact (fst st) (code_size pre + n) text'); [done | | lia | lia]. eapply code_at_keeps; [exact Hk | apply place_code_at | unfold disjoint; lia]. }
  destruct (run_straight final pre s Hs Hst Hc) as [Hrun Hpc]; [lia|]. destruct (Hpre s Hs) as (Hpu & Hbb & Hr1 & Hr2).
  destruct (Hgo final s (run pre s)) as (s' & Hr & Ho & Hdis).
  - eapply intact_sub; [done | lia | lia].
  - intros s0' Hss _. by eapply same_pushed.
  - by apply ok_run.
  - lia.
  - intros Hi s0' (Hr & _) _. simpl. rewrite Hr. by apply Hbb.
  - exists s'. split_and!; [by eapply reaches_trans | done |]. unfold side. by rewrite <- Hr1, <- Hr2.
Qed.

Lemma branch_code_spec bb cond r1 r2 target fallthrough st :
  room 1000 (2 ^ 28) (fst st) → 0 ≤ fallthrough < 2 ^ 64 → 0 ≤ target < 2 ^ 64 → 0 ≤ bb < 2 ^ 64 →
  ∃ n text', branch_code t dispatcher_addr bb cond r1 r2 target fallthrough st = Ok (fst st + n, text') ∧ 24 ≤ n ≤ 240
    ∧ keeps (fst st) n (snd st) text' ∧ code_at text' (fst st) (replicate 6 nop)
    ∧ ∀ final s, intact (fst st + 24) (n - 24) text' final → ok s → pc s = fst st + 24 →
        ∃ s', reaches final s s' ∧ ok s' ∧ dispatched s s' (side cond r1 r2 target fallthrough s) bb.
Proof.
  intros Hroom Hf Htg Hb. pose proof Hroom as (H0 & H1 & Hd & Hnear & Hde & He). unfold branch_code. set (st1 := emit _ st).
  assert (fst st1 = fst st + 24) as Hfst by done.
  destruct save_spec as (save & -> & Hszs & Hsts & Hsave). destruct (id_spec a1 bb) as (id & -> & Hszi & Hsti & Hldi); [done | done |].
  cbn [mbind outcome_bind].
  assert (∃ n text', (if (r1 =? sp) || (r2 =? sp) then two_sides dispatcher_addr save id fallthrough target r1 r2 cond st1
    else if negb (r1 =? a1) && negb (r2 =? a1) then two_sides dispatcher_addr [] [] fallthrough target r1 r2 cond (emit (save ++ id) st1)
    else two_sides dispatcher_addr [] id fallthrough target r1 r2 cond (emit save st1)) = Ok (fst st1 + n, text') ∧ 0 ≤ n ≤ 202
    ∧ keeps (fst st1) n (snd st1) text'
    ∧ ∀ final s, intact (fst st1) n text' final → ok s → pc s = fst st1 →
        ∃ s', reaches final s s' ∧ ok s' ∧ dispatched s s' (side cond r1 r2 target fallthrough s) bb)
    as (n & text' & -> & Hn & Hk & Hgo).
  { assert (room 950 (2 ^ 28 + 50) (fst st1)) as Hroom1.
    { unfold room. rewrite Hfst, Z.even_add, He. split_and!; (done || lia). }
    destruct (r1 =? sp) eqn:Hr1sp; [|destruct (r2 =? sp) eqn:Hr2sp]; cbn [orb].
    1,2: destruct (two_sides_spec save id bb fallthrough target r1 r2 cond st1) as (n & text' & -> & Hn & Hk & Hgo);
      [rewrite ?Hfst; (done || lia) .. | by rewrite Hfst, Z.even_add, He | done | done | done | done | lia | by right |];
      exists n, text'; split_and!; [done | lia | lia | done |]; intros final s Hfin Hs Hp; apply (Hgo final s s); [done | | done | done |];
      [intros s0' Hss Ho; eapply pushed_same; [done | by apply Hsave]
      |intros Hi s0' _ Ho; subst id; destruct (Hldi (run save s0')) as (Hx & _); [by apply ok_run | etrans; [exact Hx | by apply u64_small]]].
    assert (∀ s, ok s → get (run save s) r1 = get s r1 ∧ get (run save s) r2 = get s r2) as Hregs.
    { intros s Hs. destruct (Hsave s Hs) as [Hpu Ha1].
      split; (destruct (decide (r1 = a1)) as [->|]; destruct (decide (r2 = a1)) as [->|]; (done || apply (pushed_regs _ _ Hpu); (done || lia))). }
    destruct (negb (r1 =? a1) && negb (r2 =? a1)) eqn:Ha1.
    - apply sides_after; try done; [by rewrite forallb_app, Hsts, Hsti | rewrite code_size_app; lia | by left |].
      intros s Hs. rewrite run_app. destruct (Hsave s Hs) as [Hpu _]. destruct (Hregs s Hs) as [Hx1 Hx2].
      destruct (Hldi (run save s)) as (Hxa & Hm & Hc & _ & Hg); [by apply ok_run|].
      apply andb_true_iff in Ha1 as [Hn1%negb_true_iff%Z.eqb_neq Hn2%negb_true_iff%Z.eqb_neq].
      rewrite (Hg r1), (Hg r2) by done. split_and!; [|intros _; by rewrite Hxa, u64_small | done | done].
      destruct Hpu as [P1 P2 P3 P4 P5]. constructor; rewrite ?Hm, ?(Hg sp) by done; try done; [|congruence].
      intros r ? ?. rewrite Hg by done. by apply P2.
    - apply sides_after; try done; [lia | by right |]. intros s Hs. destruct (Hsave s Hs) as [Hpu _]. split_and!; [done | | by apply Hregs | by apply Hregs].
      intros ->. destruct (Hldi (run save s)) as (Hx & _); [by apply ok_run | etrans; [exact Hx | by apply u64_small]]. }
  exists (24 + n), text'. rewrite Hfst in *. assert (code_at text' (fst st) (replicate 6 nop)) as Hnops.
  { eapply code_at_keeps; [exact Hk | apply (place_code_at (replicate 6 nop)) | unfold disjoint; simpl; lia]. }
  split_and!; [do 2 f_equal; lia | lia | lia | | done |].
  { eapply (keeps_trans (fst st) 24); [apply (place_keeps (replicate 6 nop)) | exact Hk | lia..]. }
  intros final s Hfin Hs Hp. apply Hgo; [by replace (24 + n - 24) with n in Hfin by lia | done | done].
Qed.

(** The entry through the NOPs. *)
Lemma dispatched_same s s0 s' addr id : same_state s s0 → dispatched s0 s' addr id → dispatched s s' addr id.
Proof.
  intros (Hr & Hm & Hc) [D1 D2 D3 D4 D5 D6 D7 D8]. constructor; try done.
  - by rewrite <- Hr.
  - intros r Hnr. rewrite <- Hr. by apply D5.
  - by rewrite <- Hm.
  - intros i r Hi. rewrite <- Hr. by apply D7.
  - by rewrite <- Hc.
Qed.

Lemma side_same cond r1 r2 x y s s' : same_state s s' → side cond r1 r2 x y s' = side cond r1 r2 x y s.
Proof. intros (Hr & _). unfold side. by rewrite !Hr. Qed.

Section thread.
Context {T : Type}.
Implicit Types (th : dbm_thread T).

(** C97. The exit of a conditional branch works before it is linked. With the
    dispatcher in reach, [riscv_cond_branch] writes at most 240 bytes that start
    with six NOPs, records in the metadata of the block the exit, its two
    addresses and the condition, and every execution that enters the code, with
    or without the NOPs, arrives at the dispatcher with the address of the side
    that the condition selects in a0, the block in a1, the former values of s1,
    a0 and a1 on the stack, and every other register unchanged: also when the
    branch compares a0, a1 or the stack pointer. *)
Theorem riscv_cond_branch_spec th read_address inst bb meta st cond r1 r2 target :
  0 ≤ bb < 2 ^ 31 → code_cache_meta th !! Z.to_nat bb = Some meta → room 1000 (2 ^ 28) (fst st) → 0 ≤ target < 2 ^ 64 →
  let fallthrough := u64 (next_addr RISCV_LUI read_address inst) in
  let meta' := set_branch target fallthrough cond r1 r2 (set_exit_branch_addr (fst st) (set_exit_branch_type branch_riscv meta)) in
  ∃ n text', riscv_cond_branch t dispatcher_addr RISCV_LUI th read_address inst bb st cond r1 r2 target
      = Ok (set_code_cache_meta (<[Z.to_nat bb := meta']> (code_cache_meta th)) th, (fst st + n, text'))
    ∧ 24 ≤ n ≤ 240 ∧ keeps (fst st) n (snd st) text' ∧ code_at text' (fst st) (replicate 6 nop)
    ∧ (∀ final s, intact (fst st) n text' final → ok s → pc s = fst st →
        ∃ s', reaches final s s' ∧ ok s' ∧ dispatched s s' (side (cond_of cond) r1 r2 target fallthrough s) bb)
    ∧ ∀ final s, intact (fst st + 24) (n - 24) text' final → ok s → pc s = fst st + 24 →
        ∃ s', reaches final s s' ∧ ok s' ∧ dispatched s s' (side (cond_of cond) r1 r2 target fallthrough s) bb.
Proof.
  intros Hb Hm Hroom Htg fallthrough meta'.
  destruct (branch_code_spec bb (cond_of cond) r1 r2 target fallthrough st) as (n & text' & Hr & Hn & Hk & Hnops & Hgo);
    [done | apply u64_range | done | lia |].
  exists n, text'. split_and!; [| lia | lia | done | done | | done].
  2: { destruct Hroom as (? & ? & _). intros final s Hfin Hs Hp.
       assert (code_at final (pc s) (replicate 6 nop)) as Hc by (rewrite Hp; eapply code_at_intact; [exact Hfin | done | lia | simpl; lia]).
       destruct (goes_to_nops final 6 s Hs Hc) as (s1' & Hr1 & Hp1 & Hss & Ho1); [lia|].
       destruct (Hgo final s1') as (s' & Hr' & Ho & Hdis); [eapply intact_sub; [exact Hfin | lia | lia] | done | lia |].
       rewrite (side_same _ _ _ _ _ _ _ Hss) in Hdis.
       exists s'. split_and!; [by eapply reaches_trans | done | by eapply dispatched_same]. }
  unfold riscv_cond_branch, upd_meta.
  rewrite (aupd_lookup _ _ _ meta) by (done || lia). cbn [mbind outcome_bind]. fold fallthrough. rewrite Hr. done.
Qed.

(** The return address of a direct jump. *)
Lemma jump_link_spec read_address inst rd st :
  rd ∉ [s1; a0; a1; sp] →
  ∃ l, (if rd =? zero then Ok st
      else c_assert (negb (rd =? s1) && negb (rd =? a0) && negb (rd =? a1));;
        l ← riscv_copy_to_reg rd (u64 (next_addr RISCV_LUI read_address inst)); Ok (emit l st)) = Ok (emit l st)
    ∧ code_size l ≤ 26 ∧ forallb straight l = true ∧ ∀ s, ok s → mem (run l s) = mem s ∧ csrs (run l s) = csrs s
      ∧ (rd ≠ zero → get (run l s) rd = u64 (next_addr RISCV_LUI read_address inst)) ∧ ∀ r, r ≠ rd → get (run l s) r = get s r.
Proof.
  intros Hrd. destruct (Z.eqb_spec rd zero) as [->|Hz].
  - exists []. split_and!; try done. unfold emit. destruct st as [w x]. simpl. by rewrite Z.add_0_r.
  - destruct (id_spec rd (u64 (next_addr RISCV_LUI read_address inst))) as (l & -> & ? & ? & Hld); [done | apply u64_range |].
    rewrite !not_elem_of_cons in Hrd. destruct Hrd as (Hn1 & Hn2 & Hn3 & _).
    rewrite !(proj2 (Z.eqb_neq _ _)) by done. exists l. split_and!; try done. intros s Hs.
    destruct (Hld s Hs) as (Hg & Hmm & Hc & _ & Hr). split_and!; try done. intros _. by rewrite Hg, u64_u64.
Qed.

(** The exit of a direct jump. *)
Lemma jump_exit_spec bb target st :
  0 ≤ bb < 2 ^ 31 → in_reach (fst st) → 0 ≤ target < 2 ^ 64 →
  ∃ code, (save ← riscv_save_context t; ca ← riscv_copy_to_reg a0 target; cb ← riscv_copy_to_reg a1 bb;
      then_dispatcher dispatcher_addr (save ++ ca ++ cb) st) = Ok (emit code st) ∧ 0 ≤ code_size code ≤ 76
    ∧ ∀ text s, code_at text (fst st) code → ok s → pc s = fst st →
        ∃ s', reaches text s s' ∧ ok s' ∧ dispatched s s' target bb.
Proof.
  intros Hb Hin Htg. destruct save_spec as (save & -> & Hszs & Hsts & Hsave).
  destruct (id_spec a1 bb) as (id & Hid & Hszi & Hsti & Hldi); [done | lia |].
  destruct (id_spec a0 target) as (ca & Hca & Hszc & Hstc & Hldc); [done | done |]. rewrite Hca, Hid. cbn [mbind outcome_bind].
  destruct (then_dispatcher_spec (save ++ ca ++ id) st) as (d & -> & Hszd & Hgo);
    [by rewrite !forallb_app, Hsts, Hsti, Hstc | done | rewrite !code_size_app; lia |].
  eexists. split_and!; [done | apply code_size_nonneg | rewrite !code_size_app; lia |]. intros text s Hc Hs Hp.
  destruct (Hgo text s) as (s' & Hr & Hpc & Ho & Hmm & Hcs & Hg); [done | done | done |].
  exists s'. split_and!; [done | done |]. destruct (Hsave s Hs) as [[P1 P2 P3 P4 P5] _]. rewrite !run_app in *.
  set (x1 := run save s) in *. assert (ok x1) as Hx1 by by apply ok_run. destruct (Hldc x1 Hx1) as (C1 & C2 & C3 & _ & C5).
  set (x2 := run ca x1) in *. assert (ok x2) as Hx2 by by apply ok_run. destruct (Hldi x2 Hx2) as (I1 & I2 & I3 & _ & I5).
  assert (get s' sp = get x1 sp) as Hsp' by (by rewrite Hg, I5, C5).
  constructor; rewrite ?Hsp', ?Hmm, ?I2, ?C2; try done.
  - rewrite Hg, I5 by done. by rewrite C1, u64_small.
  - rewrite Hg by done. rewrite I1, u64_small; [done | lia].
  - intros r Hnr. rewrite !not_elem_of_cons in Hnr. destruct Hnr as (? & ? & ? & ? & _).
    destruct (decide (r = zero)) as [->|]; [done|]. rewrite Hg, I5, C5 by done. by apply P2.
Qed.

(** The direct jump: its exit starts behind the return address. *)
Lemma riscv_jump_spec th read_address inst bb meta st rd target :
  0 ≤ bb < 2 ^ 31 → code_cache_meta th !! Z.to_nat bb = Some meta → room 1000 (2 ^ 28) (fst st) → 0 ≤ target < 2 ^ 64 →
  rd ∉ [s1; a0; a1; sp] →
  ∃ k n text', riscv_jump t dispatcher_addr RISCV_LUI th read_address inst bb rd target st
      = Ok (set_code_cache_meta (<[Z.to_nat bb := set_exit_branch_addr (fst st + k) (set_exit_branch_type jal_riscv meta)]>
              (code_cache_meta th)) th, (fst st + n, text'))
    ∧ 0 ≤ k ≤ n ∧ n ≤ 120 ∧ keeps (fst st) n (snd st) text'
    ∧ (∀ final s, intact (fst st) n text' final → ok s → pc s = fst st →
        ∃ s', reaches final s s' ∧ pc s' = fst st + k ∧ ok s' ∧ mem s' = mem s ∧ csrs s' = csrs s
          ∧ (rd ≠ zero → get s' rd = u64 (next_addr RISCV_LUI read_address inst)) ∧ ∀ r, r ≠ rd → get s' r = get s r)
    ∧ ∀ final s, intact (fst st) n text' final → ok s → pc s = fst st + k → ∃ s', reaches final s s' ∧ ok s' ∧ dispatched s s' target bb.
Proof.
  intros Hb Hm (H0 & H1 & Hd & Hnear & Hde & He) Htg Hrd. unfold riscv_jump.
  destruct (jump_link_spec read_address inst rd st Hrd) as (l & -> & Hszl & Hstl & Hldl).
  unfold upd_meta. cbn [mbind outcome_bind]. rewrite (aupd_lookup _ _ _ meta) by (done || lia). cbn [mbind outcome_bind].
  pose proof (code_size_nonneg l).
  destruct (jump_exit_spec bb target (emit l st)) as (code & Hcode & Hszc & Hgo);
    [done | unfold in_reach; simpl; split_and!; (done || lia) | done |].
  set (text' := place (fst st + code_size l) code (place (fst st) l (snd st))).
  exists (code_size l), (code_size l + code_size code), text'. split_and!; try done; try lia.
  - destruct (riscv_save_context t); [|done]. cbn [mbind outcome_bind] in *. destruct (riscv_copy_to_reg a0 target); [|done].
    cbn [mbind outcome_bind] in *. destruct (riscv_copy_to_reg a1 bb); [|done]. cbn [mbind outcome_bind] in *.
    rewrite Hcode. cbn [mbind outcome_bind]. unfold emit. simpl. by rewrite Z.add_assoc.
  - eapply keeps_trans; [apply place_keeps | apply place_keeps | lia..].
  - intros final s Hfin Hs Hp. destruct (Hldl s Hs) as (Hmm & Hc & Hg & Hr). destruct (run_straight final l s Hs Hstl) as [Hrun Hpr].
    + rewrite Hp. eapply code_at_intact; [exact Hfin | | lia | lia].
      eapply code_at_keeps; [apply place_keeps | apply place_code_at | unfold disjoint; lia].
    + lia.
    + exists (run l s). split_and!; try done; [lia | by apply ok_run].
  - intros final s Hfin Hs Hp. apply Hgo; [|done|done]. eapply code_at_intact; [exact Hfin | apply place_code_at | simpl; lia | simpl; lia].
Qed.
End thread.
End proofs.

Lemma riscv_cond_branch_spec_witness :
  ∃ th' n text', riscv_cond_branch riscv_compressed 4096 77 (small_thread 5) 0x1000 80 2 (4700, λ _, None) 1 a1 sp 0x2000
      = Ok (th', (4700 + n, text'))
    ∧ ∀ s, ok s → pc s = 4700 →
        ∃ s', reaches text' s s' ∧ ok s' ∧ dispatched 4096 s s' (side BNE a1 sp 0x2000 0x1004 s) 2.
Proof.
  destruct (riscv_cond_branch_spec riscv_compressed 4096 77 (or_intror eq_refl) (small_thread 5) 0x1000 80 2 empty_meta
              (4700, λ _, None) 1 a1 sp 0x2000) as (n & text' & Hr & _ & _ & _ & Hgo & _);
    [lia | reflexivity | unfold room; cbn [fst]; split_and!; (lia || reflexivity) | lia |].
  eexists _, n, text'. split; [exact Hr|]. intros s. apply Hgo, intact_refl.
Defined.
End RiscvExit.
