(* ===== verification/RiscvBranch.v ===== *)
(** * The life of a conditional exit

    The code that the scanner writes for a conditional branch (RiscvExit) and
    what linking makes of it (RiscvLinked) fit together: before and after the
    link the exit leads where the branch of the application does. *)
From S2P Require Import Prelude LinearProbe CodeCacheHash LinkedList AddressTable Dbm.
From S2P Require Import RegList RiscvImm RiscvAsm RiscvEmit RiscvContext RiscvProg RiscvExec RiscvLink RiscvLinked RiscvExit.
Import Dbm RegList RiscvImm RiscvEmit RiscvContext RiscvAsm RiscvProg RiscvExec RiscvLink RiscvLinked RiscvExit.

Module RiscvBranch.
Section branch.
Context (cfg : config) {T : Type} `{!AddressTable T (TABLE_SIZE cfg)} (Hcfg : config_ok cfg) (dispatcher_addr RISCV_LUI : Z).

Lemma intact_trans a n text text' text'' : intact a n text text' → intact a n text' text'' → intact a n text text''.
Proof. intros H1 H2 x i Hx Ha Hn. by apply H2; [apply H1|..]. Qed.

(** What linking leaves of the code behind the bytes it writes. *)
Lemma linking_intact th text exit n m th' text' k w :
  linking cfg th text exit n m (th', text') → slots_wf (code_cache_meta th) → clear (code_cache_meta th) exit w → n ≤ k → 0 ≤ k →
  intact (exit + k) (w - k) text text'.
Proof.
  intros [_ _ _ _ Hk] Hw Hc Hn H0 x i Hx Ha Hb. simpl in Hk. pose proof (inst_size_pos i). apply Hk; [done | |].
  - apply wf_clear_spare; [done|]. eapply clear_part; [exact Hc | lia..].
  - unfold disjoint. lia.
Qed.

(** The selected side of a branch in its exit: the block of the side, or the
    dispatcher with the address of the side. *)
Definition follows (text : cmem) (bb addr tpc : Z) (s : machine) : Prop :=
  ∃ s', reaches text s s' ∧ ok s'
    ∧ if tpc =? UINT_MAX then dispatched dispatcher_addr s s' addr bb else pc s' = tpc + 6 ∧ restored s s'.

(** C4. A conditional branch that the scanner has written and the dispatcher has
    linked goes where the branch of the application goes. Take the code and the
    metadata that [riscv_cond_branch] leaves, in any later state of the thread
    in which they are intact and at least one side is translated, and link it
    with [riscv_link_branch]: every execution that arrives at the exit
    continues in the block of the side that the condition selects, or, when
    that side is not translated, in the dispatcher with the address of that
    side and the number of the block. *)
Theorem linked_branch_follows (th0 : dbm_thread T) read_address inst bb meta0 st cond r1 r2 target :
  cfg_target cfg = riscv_compressed → 0 ≤ bb < 2 ^ 31 → 0 ≤ target < 2 ^ 64 →
  code_cache_meta th0 !! Z.to_nat bb = Some meta0 → room dispatcher_addr 1000 (2 ^ 28) (fst st) →
  let fallthrough := u64 (next_addr RISCV_LUI read_address inst) in let exit := fst st in
  let meta := set_branch target fallthrough cond r1 r2 (set_exit_branch_addr exit (set_exit_branch_type branch_riscv meta0)) in
  ∃ n0 text0, riscv_cond_branch (cfg_target cfg) dispatcher_addr RISCV_LUI th0 read_address inst bb st cond r1 r2 target
      = Ok (set_code_cache_meta (<[Z.to_nat bb := meta]> (code_cache_meta th0)) th0, (exit + n0, text0))
    ∧ n0 ≤ 240 ∧ keeps exit n0 (snd st) text0 ∧
    ∀ (th : dbm_thread T) text F Ls t f,
      shape cfg th → links cfg th F Ls → (2 ≤ length F)%nat → slots_wf (code_cache_meta th) → clear (code_cache_meta th) exit 240 →
      intact exit n0 text0 text → code_cache_meta th !! Z.to_nat bb = Some meta →
      cc_lookup cfg th target = Ok t → cc_lookup cfg th fallthrough = Ok f → t ≠ UINT_MAX ∨ f ≠ UINT_MAX →
      (t ≠ UINT_MAX → branch_side cfg th text exit t) → (f ≠ UINT_MAX → branch_side cfg th text exit f) →
      ∃ n th' text', riscv_link_branch cfg (th, text) bb = Ok (exit + n, (th', text')) ∧
        ∀ s, ok s → pc s = exit →
          follows text' bb (side (cond_of cond) r1 r2 target fallthrough s) (side (cond_of cond) r1 r2 t f s) s.
Proof.
  intros Ht Hb Htg Hm0 Hroom fallthrough exit.
  destruct (riscv_cond_branch_spec (cfg_target cfg) dispatcher_addr RISCV_LUI (or_intror Ht) th0 read_address inst bb meta0 st
              cond r1 r2 target Hb Hm0 Hroom Htg) as (n0 & text0 & Hcb & Hn0 & Hkeep & Hnops & _ & Hgo).
  exists n0, text0. split_and!; [exact Hcb | lia | exact Hkeep |]. intros th text F Ls t f Hs Hl HF Hw Hc Hint Hm Htl Hfl Hin Hts Hfs.
  destruct Hroom as (H0 & H1 & Hd & Hnear & Hde & He). fold exit in H0, H1, He, Hnops, Hgo.
  edestruct (riscv_link_branch_spec cfg Hcfg th text F Ls bb) as (n & th' & text' & Hlb & Hn & Hn24 & Hlk & Hlead);
    [done | done | done | done | done | lia | exact Hm | done | simpl; lia | done | eapply clear_part; [exact Hc | simpl; lia..]
    | | exact Htl | exact Hfl | done | done | done |].
  { eapply code_at_intact; [exact Hint | exact Hnops | done | simpl; lia]. }
  exists n, th', text'. split; [exact Hlb|]. intros s Hos Hps. destruct (Hlead s Hos Hps) as (s1 & Hr & Ho & Hres).
  unfold follows. change (if holds _ _ _ then t else f) with (side (cond_of cond) r1 r2 t f s) in Hres.
  set (tpc := side (cond_of cond) r1 r2 t f s) in *. destruct (Z.eqb_spec tpc UINT_MAX) as [Hu|Hu]; [|by exists s1].
  destruct Hres as [Hp1 Hss].
  destruct (Hgo text' s1) as (s2 & Hr2 & Ho2 & Hdis); [| done | done |].
  - eapply intact_trans; [eapply intact_sub; [exact Hint | lia | lia]|].
    eapply linking_intact; [exact Hlk | done | eapply clear_part; [exact Hc | simpl; lia..] | apply Hn24 | lia].
    unfold tpc, side in Hu. destruct (holds _ _ _) in Hu; tauto.
  - exists s2. split_and!; [by eapply reaches_trans | done |].
    rewrite (side_same _ _ _ _ _ _ _ Hss) in Hdis. eapply dispatched_same; [exact Hss | exact Hdis].
Qed.
End branch.

(** ** An instance *)

#[local] Existing Instance link_table.

Definition branch_thread : dbm_thread CodeCacheHash.hash_table :=
  set_entry_address
    (added (added (CodeCacheHash.MkTable 17 0 0 (replicate 17 (HashEntry 0 0))) 0x1000 5376) 0x2002 5632) link_thread.

Lemma branch_restores tpc n text :
  tpc = 5376 ∨ tpc = 5632 → n ≤ 240 → keeps 4700 n (place 5376 restore (place 5632 restore (λ _, None))) text →
  branch_side link_config branch_thread text 4700 tpc.
Proof.
  intros Ht Hn Hk. unfold branch_side. change (traces_addr link_config branch_thread) with 6144.
  change (code_cache_meta branch_thread) with (code_cache_meta link_thread).
  assert (Z.even tpc = true) as -> by by destruct Ht as [-> | ->].
  split_and!; try lia; [apply link_clear; unfold disjoint; lia | unfold disjoint; lia |].
  exists restore. split; [vm_compute; reflexivity|]. eapply code_at_keeps; [exact Hk | | unfold disjoint; simpl; lia].
  destruct Ht as [-> | ->]; vm_compute; by repeat split.
Qed.

Lemma linked_branch_follows_witness :
  ∃ n text0 th' n' text', riscv_cond_branch riscv_compressed 4096 77 branch_thread 0x1FFE 80 2
      (4700, place 5376 restore (place 5632 restore (λ _, None))) 1 15 14 0x1000 = Ok (branch_thread, (4700 + n, text0))
    ∧ riscv_link_branch link_config (branch_thread, text0) 2 = Ok (4700 + n', (th', text'))
    ∧ ∀ s, ok s → pc s = 4700 → follows 4096 text' 2 (side BNE 15 14 0x1000 0x2002 s) (side BNE 15 14 5376 5632 s) s.
Proof.
  destruct (linked_branch_follows link_config link_config_ok 4096 77 branch_thread 0x1FFE 80 2 branch_meta
              (4700, place 5376 restore (place 5632 restore (λ _, None))) 1 15 14 0x1000) as (n & text0 & Hcb & Hn & Hk & Hlink);
    [reflexivity | lia | lia | reflexivity | unfold room; cbn [fst]; split_and!; (lia || reflexivity) |].
  destruct (Hlink branch_thread text0 [0; 1; 2; 3] (replicate 8 []) 5376 5632) as (n' & th' & text' & Hr & Hf);
    [ destruct link_shape; constructor; done | destruct link_links; constructor; done | simpl; lia | apply link_slots
    | apply link_clear; unfold disjoint; simpl; lia | apply intact_refl | reflexivity | vm_compute; reflexivity
    | vm_compute; reflexivity | left; discriminate | intros _; eapply branch_restores; [by left | exact Hn | exact Hk]
    | intros _; eapply branch_restores; [by right | exact Hn | exact Hk] |].
  by exists n, text0, th', n', text'.
Defined.
End RiscvBranch.
