(* ===== verification/RiscvLookup.v ===== *)
(** * Indirect jumps of RISC-V blocks (arch/riscv/scanner_riscv.c)

    An indirect jump does not enter the dispatcher when its target is translated:
    the block ends with code that searches the hash table of CodeCacheHash
    itself. The file has the code generation; RiscvLookupSpec executes it on a
    memory that holds a table and compares it with [hash_lookup]. *)
From S2P Require Import Prelude LinearProbe CodeCacheHash LinkedList AddressTable Dbm.
From S2P Require Import RegList RiscvImm RiscvAsm RiscvEmit RiscvContext RiscvProg RiscvExec RiscvExit.
Import Dbm RegList RiscvImm RiscvEmit RiscvContext RiscvAsm RiscvProg RiscvExec RiscvExit.

Module RiscvLookup.

(** Fields of the metadata. *)
Definition set_rs1 (v : Z) (r : dbm_code_cache_meta) : dbm_code_cache_meta :=
  MkMeta (source_addr r) (tpc r) (exit_branch_type r) (actual_id r) (exit_branch_addr r) (branch_taken_addr r)
    (branch_skipped_addr r) (Dbm.branch_condition r) (branch_cache_status r) (rn r) v (rs2 r) (next_prediction_slot r)
    (ihlu_address r) (number_of_predictions r) (link r) (imm r) (rd r) (Dbm.inst r) (read_addr r) (trampoline_addr r)
    (trampoline_slots_used r) (free_b r) (linked_from r) (saved_exit r).
Definition set_imm (v : Z) (r : dbm_code_cache_meta) : dbm_code_cache_meta :=
  MkMeta (source_addr r) (tpc r) (exit_branch_type r) (actual_id r) (exit_branch_addr r) (branch_taken_addr r)
    (branch_skipped_addr r) (Dbm.branch_condition r) (branch_cache_status r) (rn r) (rs1 r) (rs2 r) (next_prediction_slot r)
    (ihlu_address r) (number_of_predictions r) (link r) v (rd r) (Dbm.inst r) (read_addr r) (trampoline_addr r)
    (trampoline_slots_used r) (free_b r) (linked_from r) (saved_exit r).
Definition set_ihlu_address (v : option Z) (r : dbm_code_cache_meta) : dbm_code_cache_meta :=
  MkMeta (source_addr r) (tpc r) (exit_branch_type r) (actual_id r) (exit_branch_addr r) (branch_taken_addr r)
    (branch_skipped_addr r) (Dbm.branch_condition r) (branch_cache_status r) (rn r) (rs1 r) (rs2 r) (next_prediction_slot r)
    v (number_of_predictions r) (link r) (imm r) (rd r) (Dbm.inst r) (read_addr r) (trampoline_addr r)
    (trampoline_slots_used r) (free_b r) (linked_from r) (saved_exit r).
Definition set_link (l : bool) (v : Z) (r : dbm_code_cache_meta) : dbm_code_cache_meta :=
  MkMeta (source_addr r) (tpc r) (exit_branch_type r) (actual_id r) (exit_branch_addr r) (branch_taken_addr r)
    v (Dbm.branch_condition r) (branch_cache_status r) (rn r) (rs1 r) (rs2 r) (next_prediction_slot r)
    (ihlu_address r) (number_of_predictions r) l (imm r) (rd r) (Dbm.inst r) (read_addr r) (trampoline_addr r)
    (trampoline_slots_used r) (free_b r) (linked_from r) (saved_exit r).
Definition set_next_prediction_slot (v : option Z) (r : dbm_code_cache_meta) : dbm_code_cache_meta :=
  MkMeta (source_addr r) (tpc r) (exit_branch_type r) (actual_id r) (exit_branch_addr r) (branch_taken_addr r)
    (branch_skipped_addr r) (Dbm.branch_condition r) (branch_cache_status r) (rn r) (rs1 r) (rs2 r) v
    (ihlu_address r) (number_of_predictions r) (link r) (imm r) (rd r) (Dbm.inst r) (read_addr r) (trampoline_addr r)
    (trampoline_slots_used r) (free_b r) (linked_from r) (saved_exit r).
Definition set_jump_register (rd_ read_address inst : Z) (r : dbm_code_cache_meta) : dbm_code_cache_meta :=
  MkMeta (source_addr r) (tpc r) (exit_branch_type r) (actual_id r) (exit_branch_addr r) (branch_taken_addr r)
    (branch_skipped_addr r) (Dbm.branch_condition r) (branch_cache_status r) (rn r) (rs1 r) (rs2 r) (next_prediction_slot r)
    (ihlu_address r) (number_of_predictions r) (link r) (imm r) rd_ inst read_address (trampoline_addr r)
    (trampoline_slots_used r) (free_b r) (linked_from r) (saved_exit r).

(** The registers of a lookup: whether a2 is used, the source address and the
    temporary. *)
Record lookup_regs := MkRegs { use_a2 : bool; reg_spc : Z; reg_tmp : Z }.

Definition choose_regs (rs1 : Z) (link : bool) : lookup_regs :=
  if (rs1 =? a0) || (rs1 =? a1) || (link && (rs1 =? ra)) then MkRegs true a1 a2 else MkRegs false rs1 a1.

Section lookup.
Context (cfg : config) (dispatcher_addr RISCV_LUI entries_addr : Z).
Notation t := (cfg_target cfg).

Definition CALC_RET_ADDR (meta : dbm_code_cache_meta) (read_address : Z) : Z :=
  u64 (next_addr RISCV_LUI read_address (Dbm.inst meta)).

(** The source address and the address of the first slot. *)
Definition probe_start (r : lookup_regs) (rs1 imm : Z) : outcome (list inst) :=
  spc ← (if use_a2 r then
           p ← riscv_push t (reg_mask [a2]);
           Ok (p ++ (if rs1 =? reg_spc r then [] else [Addi (reg_spc r) rs1 imm]))
         else Ok [Addi (reg_spc r) (reg_spc r) imm]);
  size ← riscv_copy_to_reg a0 CodeCacheHash.CODE_CACHE_HASH_SIZE;
  base ← riscv_copy_to_reg a0 entries_addr;
  Ok (spc ++ size ++ [Srli (reg_tmp r) (reg_spc r) (CodeCacheHash.HT_SHIFT t); And (reg_tmp r) (reg_tmp r) a0]
      ++ base ++ [Slli (reg_tmp r) (reg_tmp r) 4; Add a0 a0 (reg_tmp r)]).

(** The loop over the slots, with a gap for the branch to the end. *)
Definition probe_loop (r : lookup_regs) (st : out) : out * Z :=
  let loop := fst st in
  let st := emit [Ld (reg_tmp r) a0 0; Addi a0 a0 16] st in
  let branch_to_not_found := fst st in
  let st := emit [Sub (reg_tmp r) (reg_tmp r) (reg_spc r)] (skip 2 st) in
  let st := match riscv_branch_helper (fst st) loop zero (reg_tmp r) BNE with Some b => emit [b] st | None => st end in
  (emit [Ld a0 a0 (-8)] st, branch_to_not_found).

Section thread.
Context {T : Type}.
Implicit Types (th : dbm_thread T).

Definition riscv_inline_hash_lookup th (basic_block : Z) (st : out) (read_address rs1 imm : Z) (link set_meta tribi : bool)
    : outcome (dbm_thread T * out) :=
  let r := choose_regs rs1 link in
  let tribi := tribi && DBM_TRACES cfg && DBM_TRIBI cfg in
  th ← (if set_meta then upd_meta basic_block (set_rs1 (reg_spc r)) th else Ok th);
  y ← (if tribi then th ← upd_meta basic_block (set_ihlu_address (Some (fst st))) th; Ok (th, st)
       else push ← riscv_push t (reg_mask [a0; a1]); Ok (th, emit push st));
  let '(th, st) := (y : dbm_thread T * out) in
  start ← probe_start r rs1 imm;
  let '(st, branch_to_not_found) := probe_loop r (emit start st) in
  y ← (if tribi then
         th ← upd_meta basic_block (λ m, set_imm imm (set_rs1 rs1 m)) th;
         l ← riscv_copy_to_reg (reg_tmp r) (traces_addr cfg th);
         Ok (th, skip 4 (emit l st))
       else Ok (th, st));
  let '(th, st) := (y : dbm_thread T * out) in
  let tribi_branch := fst st - 4 in
  pop ← (if use_a2 r then riscv_pop t (reg_mask [a2]) else Ok []);
  meta ← aget (code_cache_meta th) basic_block;
  ret ← (if rd meta =? zero then Ok [] else riscv_copy_to_reg (rd meta) (CALC_RET_ADDR meta read_address));
  let st := emit (pop ++ ret ++ [C_jr a0]) st in
  let st := patch branch_to_not_found (riscv_c_beqz_helper branch_to_not_found (fst st) (reg_tmp r)) st in
  let st := if tribi then patch tribi_branch (riscv_branch_helper tribi_branch (fst st) a0 (reg_tmp r) BGE) st else st in
  id ← riscv_copy_to_reg a1 basic_block;
  push ← riscv_push t (reg_mask [s1]);
  st ← then_dispatcher dispatcher_addr ([Add a0 (reg_spc r) zero] ++ ret ++ id ++ pop ++ ret ++ push) st;
  Ok (th, st).

Definition PREDICTION_FSPACE : Z := 13.
Definition TRIBI_SLOTS : Z := 4.

Definition insert_tribi_header th (basic_block read_address : Z) (st : out) (rs1 imm : Z) (link : bool)
    : outcome (dbm_thread T * out) :=
  th ← upd_meta basic_block (λ m, set_link link (if link then read_address else branch_skipped_addr m) m) th;
  push ← riscv_push t (reg_mask [a0; a1]);
  let st := emit push st in
  th ← upd_meta basic_block (set_next_prediction_slot (Some (fst st))) th;
  let ihl_jal := fst st in
  let st := skip (PREDICTION_FSPACE * 4 * TRIBI_SLOTS) (skip 4 st) in
  y ← riscv_inline_hash_lookup th basic_block st read_address rs1 imm false false true;
  let '(th, st) := (y : dbm_thread T * out) in
  meta ← aget (code_cache_meta th) basic_block;
  Ok (th, patch ihl_jal (riscv_jal_helper ihl_jal (default 0 (ihlu_address meta)) zero) st).

Definition riscv_jump_register th (read_address inst basic_block : Z) (st : out) (rd rs1 imm : Z)
    : outcome (dbm_thread T * out) :=
  th ← upd_meta basic_block (λ m, set_jump_register rd read_address inst
         (set_exit_branch_addr (fst st) (set_exit_branch_type jalr_riscv m))) th;
  c_assert ((rd =? zero) || negb (rd =? s1) && negb (rd =? a0) && negb (rd =? a1));;
  if DBM_TRACES cfg && DBM_TRIBI cfg && (CODE_CACHE_SIZE cfg <=? basic_block)
  then insert_tribi_header th basic_block read_address st rs1 imm (rd =? ra)
  else riscv_inline_hash_lookup th basic_block st read_address rs1 imm (rd =? ra) true false.
End thread.
End lookup.

(** ** The search *)

(** A table in memory: 16 bytes for an entry, the key first. *)
Definition table_in (m : Z → Z) (base : Z) (es : list hash_entry) : Prop :=
  ∀ i e, es !! i = Some e →
    load 8 m (base + 16 * Z.of_nat i) = key e ∧ load 8 m (base + 16 * Z.of_nat i + 8) = value e.

Lemma cb_imm_pair o :
  Z.even o = true → 0 ≤ o < 64 → ∃ p, riscv_create_cb_imm_pair o = Some p ∧ cb_imm (immhi p) (immlo p) = o.
Proof.
  intros He Ho.
  assert (forall_range 0 64 (λ o, implb (Z.even o)
    (match riscv_create_cb_imm_pair o with Some p => cb_imm (immhi p) (immlo p) =? o | None => false end)) = true) as Hall
    by by vm_compute.
  pose proof (forall_range_spec _ _ _ o Hall ltac:(lia)) as H. simpl in H. rewrite He in H. simpl in H.
  destruct (riscv_create_cb_imm_pair o) as [p|]; [|done]. exists p. split; [done | lia].
Qed.

Section search.
Context (text : cmem) (spc tmp L nf base : Z) (es : list hash_entry) (hi lo bhi blo : Z).
Context (Hspc : spc ≠ tmp) (Hspc0 : spc ≠ a0) (Htmp : tmp ≠ zero) (Htmp0 : tmp ≠ a0) (Hcreg : creg tmp = tmp).
Context (Hhi : cb_imm hi lo = nf - (L + 8)) (Hb : b_imm bhi blo = - 14) (HL : 0 ≤ L) (Hnf : 0 ≤ nf) (HLb : L + 22 < 2 ^ 64) (Hnfb : nf < 2 ^ 64).
Context (Hbase : 0 ≤ base) (Hend : base + 16 * Z.of_nat (length es) < 2 ^ 64).

Definition loop_code : list inst :=
  [Ld tmp a0 0; Addi a0 a0 16; C_beqz tmp hi lo; Sub tmp tmp spc; Branch BNE zero tmp bhi blo; Ld a0 a0 (-8)].

Context (Hcode : code_at text L loop_code).

(** What the search leaves alone. *)
Definition searched (s s' : machine) : Prop :=
  ok s' ∧ mem s' = mem s ∧ csrs s' = csrs s ∧ ∀ r, r ≠ tmp → r ≠ a0 → get s' r = get s r.

Lemma searched_trans s1 s2 s3 : searched s1 s2 → searched s2 s3 → searched s1 s3.
Proof.
  intros (_ & Hm & Hc & Hr) (Ho & Hm' & Hc' & Hr'). split_and!; [done | congruence | congruence |].
  intros r ? ?. rewrite Hr' by done. by apply Hr.
Qed.

(** One slot. *)
Lemma slot_loaded i e s :
  ok s → pc s = L → get s a0 = base + 16 * Z.of_nat i → es !! i = Some e → table_in (mem s) base es → 0 ≤ key e < 2 ^ 64 →
  ∃ s', reaches text s s' ∧ pc s' = L + 8 ∧ searched s s' ∧ get s' tmp = key e ∧ get s' a0 = base + 16 * Z.of_nat (S i).
Proof.
  intros Hs Hp Ha Hi Ht Hk. destruct (Ht i e Hi) as [Hkey _]. apply lookup_lt_Some in Hi.
  destruct Hcode as (H1 & H2 & _).
  destruct (run_straight text [Ld tmp a0 0; Addi a0 a0 16] s Hs) as [Hr Hpr]; [done | | simpl; lia|].
  { rewrite Hp. simpl in H2 |- *. by split_and!. }
  exists (run [Ld tmp a0 0; Addi a0 a0 16] s). simpl in Hpr. split_and!; [done | simpl; lia | | |].
  - split_and!; [by apply ok_run | done | done |]. intros r Hr1 Hr2. cbn [run foldl exec]. by rewrite get_next, get_set_ne, get_next, get_set_ne.
  - cbn [run foldl exec]. rewrite get_next, get_set_ne, get_next, get_set_eq by done.
    change (imm12 0) with 0. rewrite Z.add_0_r, Ha, Hkey. by apply u64_small.
  - cbn [run foldl exec]. rewrite get_next, get_set_eq, get_next, get_set_ne by done. change (imm12 16) with 16.
    rewrite Ha, u64_small by lia. lia.
Qed.

Lemma slot_free i e s :
  ok s → pc s = L → get s a0 = base + 16 * Z.of_nat i → es !! i = Some e → table_in (mem s) base es → key e = 0 →
  ∃ s', reaches text s s' ∧ pc s' = nf ∧ searched s s'.
Proof.
  intros Hs Hp Ha Hi Ht Hk.
  destruct (slot_loaded i e s) as (s1 & Hr & Hp1 & Hse & Htm & _); [done.. | lia |].
  destruct Hcode as (_ & _ & H3 & _). simpl in H3.
  exists (exec (C_beqz tmp hi lo) s1). split_and!.
  - eapply reaches_trans; [done|]. apply reaches_step. rewrite Hp1. by replace (L + 8) with (L + 4 + 4) by lia.
  - cbn [exec]. rewrite Hcreg, Htm, Hk. simpl. rewrite Hp1, Hhi, u64_small by lia. lia.
  - eapply searched_trans; [done|]. split_and!; [by apply ok_exec; destruct Hse | | |];
      cbn [exec]; rewrite Hcreg, Htm, Hk; done.
Qed.

Lemma slot_taken i e s :
  ok s → pc s = L → get s a0 = base + 16 * Z.of_nat i → es !! i = Some e → table_in (mem s) base es → 0 ≤ key e < 2 ^ 64 → key e ≠ 0 →
  ∃ s', reaches text s s' ∧ searched s s' ∧ get s' a0 = base + 16 * Z.of_nat (S i)
    ∧ pc s' = if key e =? get s spc then L + 18 else L.
Proof.
  intros Hs Hp Ha Hi Ht Hk Hk0.
  destruct (slot_loaded i e s) as (s1 & Hr & Hp1 & Hse & Htm & Ha1); [done.. |].
  destruct Hcode as (_ & _ & H3 & H4 & H5 & _). simpl in H3, H4, H5.
  replace (L + 4 + 4) with (L + 8) in * by lia. replace (L + 8 + 2) with (L + 10) in * by lia. replace (L + 10 + 4) with (L + 14) in * by lia.
  assert (get s1 spc = get s spc) as Hsp1 by by apply Hse. destruct Hse as (Ho1 & Hm1 & Hc1 & Hg1).
  set (s2 := exec (C_beqz tmp hi lo) s1).
  assert (s2 = next 2 s1) as Hs2 by (unfold s2; cbn [exec]; rewrite Hcreg, Htm; by rewrite (proj2 (Z.eqb_neq _ _) Hk0)).
  assert (pc s2 = L + 10) as Hp2 by (rewrite Hs2; simpl; rewrite Hp1, u64_small by lia; lia).
  set (s3 := exec (Sub tmp tmp spc) s2).
  assert (pc s3 = L + 14) as Hp3 by (unfold s3; cbn [exec]; simpl; rewrite Hp2, u64_small by lia; lia).
  assert (get s3 tmp = u64 (key e - get s spc)) as Ht3
    by (unfold s3; cbn [exec]; rewrite get_next, get_set_eq by done; by rewrite Hs2, !get_next, Htm, Hsp1).
  assert (ok s3) as Ho3 by by repeat apply ok_exec. set (s4 := exec (Branch BNE zero tmp bhi blo) s3).
  assert (holds BNE (get s3 zero) (get s3 tmp) = negb (key e =? get s spc)) as Hh.
  { cbn [holds]. rewrite Ht3. change (get s3 zero) with 0. f_equal. destruct Hs as [_ Hg]. specialize (Hg spc).
    destruct (Z.eqb_spec (key e) (get s spc)) as [->|Hne]; [by rewrite Z.sub_diag|].
    apply Z.eqb_neq. intros Heq. apply Hne. unfold u64 in Heq. symmetry in Heq. apply Z.mod_divide in Heq as [z Hz]; [|done]. nia. }
  exists s4. split_and!.
  - eapply reaches_trans; [done|]. eapply reaches_trans; [apply reaches_step; by rewrite Hp1|]. fold s2.
    eapply reaches_trans; [apply reaches_step; by rewrite Hp2|]. fold s3. apply reaches_step. by rewrite Hp3.
  - split_and!; [by apply ok_exec | | |]; unfold s4; cbn [exec]; rewrite Hh.
    + destruct (negb _); simpl; by rewrite Hs2.
    + destruct (negb _); simpl; by rewrite Hs2.
    + intros r Hr1 Hr2. destruct (negb _); rewrite ?get_set_pc, ?get_next; unfold s3; cbn [exec];
        rewrite ?get_next, get_set_ne by done; rewrite Hs2; by apply Hg1.
  - rewrite <- Ha1. unfold s4. cbn [exec].
    destruct (holds _ _ _); rewrite ?get_set_pc, ?get_next; unfold s3; cbn [exec]; rewrite ?get_next, get_set_ne by done; by rewrite Hs2.
  - unfold s4. cbn [exec]. rewrite Hh. destruct (key e =? get s spc); cbn [negb].
    + change (u64 (pc s3 + 4) = L + 18). rewrite Hp3, u64_small by lia. lia.
    + change (u64 (pc s3 + b_imm bhi blo) = L). rewrite Hp3, Hb, u64_small by lia. lia.
Qed.

(** The slots from [i] to the one where the search stops. *)
Lemma search_stops n : ∀ i s,
  ok s → pc s = L → get s a0 = base + 16 * Z.of_nat i → table_in (mem s) base es →
  Forall (λ e, 0 ≤ key e < 2 ^ 64 ∧ 0 ≤ value e < 2 ^ 64) es → (i + n < length es)%nat →
  stop_slot es (get s spc) (i + n) → (∀ j, (i ≤ j < i + n)%nat → ¬ stop_slot es (get s spc) j) →
  ∃ s', reaches text s s' ∧ searched s s' ∧
    if key_at es (i + n) =? 0 then pc s' = nf else pc s' = L + 22 ∧ get s' a0 = value_at es (i + n).
Proof.
  induction n as [|n IH]; intros i s Hs Hp Ha Ht Hes Hlen Hstop Hno;
    (destruct (lookup_lt_is_Some_2 es i) as [e Hi]; [lia|]); pose proof (proj1 (Forall_lookup _ _) Hes i e Hi) as [Hke Hve].
  - rewrite Nat.add_0_r in *. unfold stop_slot in Hstop. rewrite (key_at_lookup _ _ _ Hi) in *. rewrite (value_at_lookup _ _ _ Hi).
    destruct (Z.eqb_spec (key e) 0) as [Hk|Hk]; [destruct (slot_free i e s) as (s' & ? & ? & ?); [done..|]; by exists s'|].
    destruct Hstop as [|Hst]; [done|].
    destruct (slot_taken i e s) as (s1 & Hr & Hse & Ha1 & Hp1); [done..|]. rewrite <- Hst, Z.eqb_refl in Hp1.
    destruct Hcode as (_ & _ & _ & _ & _ & H6 & _). simpl in H6. replace (L + 4 + 4 + 2 + 4 + 4) with (L + 18) in H6 by lia.
    pose proof Hse as (Ho1 & Hm1 & _). destruct (Ht i e Hi) as [_ Hv]. rewrite <- Hm1 in Hv.
    exists (exec (Ld a0 a0 (-8)) s1). split_and!.
    + eapply reaches_trans; [done|]. apply reaches_step. by rewrite Hp1.
    + eapply searched_trans; [done|]. split_and!; [by apply ok_exec | done | done |]. intros r Hr1 Hr2. cbn [exec].
      by rewrite get_next, get_set_ne.
    + cbn [exec]. simpl. rewrite Hp1, u64_small by lia. lia.
    + cbn [exec]. rewrite get_next, get_set_eq by done. change (imm12 (-8)) with (-8). rewrite Ha1.
      replace (base + 16 * Z.of_nat (S i) + -8) with (base + 16 * Z.of_nat i + 8) by lia. rewrite Hv. by apply u64_small.
  - assert (¬ stop_slot es (get s spc) i) as Hn by (apply Hno; lia). unfold stop_slot in Hn.
    rewrite (key_at_lookup _ _ _ Hi) in Hn.
    destruct (slot_taken i e s) as (s1 & Hr & Hse & Ha1 & Hp1); [done.. | tauto |].
    rewrite (proj2 (Z.eqb_neq _ _)) in Hp1 by tauto. pose proof Hse as (Ho1 & Hm1 & _ & Hg1).
    assert (get s1 spc = get s spc) as Hsp1 by by apply Hg1.
    replace (i + S n)%nat with (S i + n)%nat in * by lia.
    destruct (IH (S i) s1) as (s' & Hr' & Hse' & Hres); [done | done | done | by rewrite Hm1 | done | lia | by rewrite Hsp1 | |].
    { intros j Hj. rewrite Hsp1. apply Hno. lia. }
    exists s'. split_and!; [by eapply reaches_trans | by eapply searched_trans | done].
Qed.
End search.
End RiscvLookup.
