(* ===== verification/RiscvLookupSpec.v ===== *)
(** * The inline hash lookup refines the table

    What the code of RiscvLookup does: the registers and the stack before the
    search, the search in a table of CodeCacheHash, and the two ways out of it. *)
From S2P Require Import Prelude LinearProbe CodeCacheHash LinkedList AddressTable Dbm.
From S2P Require Import RegList RiscvImm RiscvAsm RiscvEmit RiscvContext RiscvProg RiscvExec RiscvExit RiscvLookup.
Import Dbm RegList RiscvImm RiscvEmit RiscvContext RiscvAsm RiscvProg RiscvExec RiscvExit RiscvLookup.

Module RiscvLookupSpec.

(** ** The registers and the stack before the search *)

Section start.
Context (cfg : config) (Ht : riscv_target (cfg_target cfg)) (entries_addr : Z).
Context (Hent : 0 ≤ entries_addr < 2 ^ 63).

Definition bucket (k : Z) : Z :=
  Z.land (Z.shiftr k (CodeCacheHash.HT_SHIFT (cfg_target cfg))) CodeCacheHash.CODE_CACHE_HASH_SIZE.

Lemma bucket_range k : 0 ≤ bucket k ≤ CodeCacheHash.CODE_CACHE_HASH_SIZE.
Proof.
  unfold bucket. change CodeCacheHash.CODE_CACHE_HASH_SIZE with (Z.ones 19). rewrite land_mask by done.
  change (Z.ones 19) with (2 ^ 19 - 1). pose proof (Z.mod_pos_bound (k ≫ CodeCacheHash.HT_SHIFT (cfg_target cfg)) (2 ^ 19) ltac:(lia)). lia.
Qed.

(** From the source address to the address of its first slot. *)
Lemma first_slot_spec spc tmp :
  tmp ≠ zero → tmp ≠ a0 → spc ≠ a0 → spc ≠ tmp →
  ∃ size base, riscv_copy_to_reg a0 CodeCacheHash.CODE_CACHE_HASH_SIZE = Ok size ∧ riscv_copy_to_reg a0 entries_addr = Ok base
    ∧ let l := size ++ [Srli tmp spc (CodeCacheHash.HT_SHIFT (cfg_target cfg)); And tmp tmp a0] ++ base ++ [Slli tmp tmp 4; Add a0 a0 tmp] in
      forallb straight l = true ∧ code_size l ≤ 68
      ∧ ∀ s, ok s → let s' := run l s in
          get s' a0 = entries_addr + 16 * bucket (get s spc) ∧ (∀ r, r ≠ tmp → r ≠ a0 → get s' r = get s r)
          ∧ mem s' = mem s ∧ csrs s' = csrs s.
Proof.
  intros Htz Hta Hsa Hst.
  destruct (id_spec a0 CodeCacheHash.CODE_CACHE_HASH_SIZE) as (size & -> & Hz1 & Hs1 & Hl1); [done | done |].
  destruct (id_spec a0 entries_addr) as (base & -> & Hz2 & Hs2 & Hl2); [done | lia |].
  exists size, base. cbv zeta. split_and!; [done | done | by rewrite !forallb_app, Hs1, Hs2 | rewrite !code_size_app; unfold code_size at 2 4; simpl; lia |].
  intros s Hs. rewrite !run_app. destruct (Hl1 s Hs) as (A1 & A2 & A3 & _ & A5). set (x1 := run size s) in *.
  assert (ok x1) as Hx1 by by apply ok_run. set (x2 := run [Srli _ _ _; And _ _ _] x1).
  assert (ok x2) as Hx2 by by apply ok_run. destruct (Hl2 x2 Hx2) as (B1 & B2 & B3 & _ & B5). set (x3 := run base x2) in *.
  pose proof (bucket_range (get s spc)) as Hbk. destruct Hs as [_ Hg]. specialize (Hg spc).
  assert (get x2 tmp = bucket (get s spc)) as Htm.
  { unfold x2. cbn [run foldl exec]. rewrite get_next, get_set_eq by done. rewrite get_next, get_set_eq, get_next, get_set_ne by done.
    rewrite A1, A5 by done. change (u64 CodeCacheHash.CODE_CACHE_HASH_SIZE) with CodeCacheHash.CODE_CACHE_HASH_SIZE.
    assert (get s spc / 2 ^ bits 6 0 (CodeCacheHash.HT_SHIFT (cfg_target cfg)) = Z.shiftr (get s spc) (CodeCacheHash.HT_SHIFT (cfg_target cfg))) as ->.
    { destruct Ht as [-> | ->]; by rewrite Z.shiftr_div_pow2 by done. }
    rewrite (u64_small (Z.shiftr _ _)).
    - apply u64_small. fold (bucket (get s spc)). unfold CodeCacheHash.CODE_CACHE_HASH_SIZE in Hbk. lia.
    - assert (0 ≤ CodeCacheHash.HT_SHIFT (cfg_target cfg)) by by destruct (cfg_target cfg).
      rewrite Z.shiftr_div_pow2 by done. pose proof (Z.pow_pos_nonneg 2 (CodeCacheHash.HT_SHIFT (cfg_target cfg)) ltac:(lia) ltac:(lia)).
      split; [apply Z.div_pos; lia|]. apply Z.div_lt_upper_bound; [lia|]. apply Z.lt_le_trans with (1 * 2 ^ 64); [lia|]. apply Z.mul_le_mono_nonneg_r; lia. }
  split_and!.
  - cbn [run foldl exec]. rewrite get_next, get_set_eq by done. rewrite get_next, get_set_ne, get_next, get_set_eq by done.
    rewrite B1, B5 by done. rewrite Htm. change (bits 6 0 4) with 4. change (2 ^ 4) with 16.
    unfold CodeCacheHash.CODE_CACHE_HASH_SIZE in Hbk.
    rewrite (u64_small entries_addr), (u64_small (_ * 16)), u64_small by lia. lia.
  - intros r Hr1 Hr2. cbn [run foldl exec]. rewrite get_next, get_set_ne, get_next, get_set_ne by done. rewrite B5 by done.
    unfold x2. cbn [run foldl exec]. rewrite get_next, get_set_ne, get_next, get_set_ne by done. by apply A5.
  - cbn [run foldl exec]. change (mem x3 = mem s). rewrite B2. change (mem x2) with (mem x1). done.
  - cbn [run foldl exec]. change (csrs x3 = csrs s). rewrite B3. change (csrs x2) with (csrs x1). done.
Qed.

Lemma load_u64 n m a : load n m (u64 a) = load n m a.
Proof.
  assert (∀ n a b, u64 a = u64 b → load n m a = load n m b) as H; [|apply H; apply u64_u64].
  clear. intros n. induction n as [|n IH]; intros a b Hab; [done|]. cbn [load]. f_equal; [by rewrite Hab|]. f_equal. apply IH.
  rewrite <- (u64_add_l a), Hab. apply u64_add_l.
Qed.

(** The context on the stack: 16 bytes with a0 and a1, and a2 below them. *)
Record stacked (b : bool) (s : machine) (m : Z → Z) : Prop := {
  stacked_frame : frame (mem s) m (get s sp - 24) 0 3;
  stacked_a0 : load 8 m (get s sp - 16) = get s a0;
  stacked_a1 : load 8 m (get s sp - 8) = get s a1;
  stacked_a2 : b = true → load 8 m (get s sp - 24) = get s a2
}.

Lemma mask_ok l : l = [a0; a1] ∨ l = [a2] ∨ l = [s1] →
  0 ≤ reg_mask l < 2 ^ 32 ∧ regs_of (reg_mask l) = l ∧ (sp ∉ l) ∧ 0 ∉ l.
Proof.
  intros [-> | [-> | ->]]; (split_and!; [by vm_compute | by vm_compute | by vm_compute | |]);
    by rewrite ?not_elem_of_cons; repeat split; try apply not_elem_of_nil.
Qed.

(** [riscv_push] of some of these registers. *)
Lemma push_regs_spec l :
  l = [a0; a1] ∨ l = [a2] ∨ l = [s1] → let n := 8 * Z.of_nat (length l) in
  ∃ p, riscv_push (cfg_target cfg) (reg_mask l) = Ok p ∧ forallb straight p = true ∧ code_size p = 4 + n / 2
    ∧ ∀ s, ok s → let s' := run p s in
        get s' sp = u64 (get s sp - n) ∧ (∀ r, r ≠ sp → get s' r = get s r)
        ∧ frame (mem s) (mem s') (get s sp - n) 0 (Z.of_nat (length l))
        ∧ (∀ i r, l !! i = Some r → load 8 (mem s') (get s sp - n + 8 * Z.of_nat i) = get s r) ∧ csrs s' = csrs s.
Proof.
  intros Hl n. destruct (mask_ok l Hl) as (Hm & Hregs & Hsp & _).
  assert (∃ p, riscv_push (cfg_target cfg) (reg_mask l) = Ok p ∧ code_size p = 4 + n / 2) as (p & Hp & Hsz).
  { unfold n. destruct Ht as [-> | ->], Hl as [-> | [-> | ->]]; by eexists. }
  exists p. split_and!; [done | by eapply push_straight | done |]. intros s Hs.
  destruct (riscv_push_spec (cfg_target cfg) (reg_mask l) s) as (p' & Hp' & H1 & H2 & H3 & H4 & _); [done | done | by rewrite Hregs | done |].
  rewrite Hp in Hp'. injection Hp' as <-. cbv zeta in *. unfold frame_size in H1. rewrite Hregs in *. fold n in H1.
  split_and!; [done | done | | | by eapply run_csrs, push_straight].
  - intros x Hx. apply H3. intros j Hj ->. apply (Hx j Hj). by rewrite H1, u64_add_l.
  - intros i r Hi. rewrite <- (H4 i r Hi), H1, Z.add_0_r. rewrite <- load_u64, <- (load_u64 8 _ (u64 _ + _)). by rewrite u64_add_l.
Qed.

(** The pop of a2. *)
Lemma pop_a2_spec :
  ∃ q, riscv_pop (cfg_target cfg) (reg_mask [a2]) = Ok q ∧ forallb straight q = true ∧ code_size q ≤ 8
    ∧ ∀ s, ok s → let s' := run q s in
        get s' sp = u64 (get s sp + 8) ∧ get s' a2 = u64 (load 8 (mem s) (get s sp)) ∧ mem s' = mem s ∧ csrs s' = csrs s
        ∧ ∀ r, r ≠ a2 → r ≠ sp → get s' r = get s r.
Proof.
  destruct (mask_ok [a2]) as (Hm & Hregs & Hsp & H0); [by right; left|].
  assert (∃ q, riscv_pop (cfg_target cfg) (reg_mask [a2]) = Ok q ∧ code_size q ≤ 8) as (q & Hq & Hsz)
    by (destruct Ht as [-> | ->]; by eexists).
  exists q. split_and!; [done | by eapply pop_straight | done |]. intros s Hs.
  destruct (riscv_pop_spec (cfg_target cfg) (reg_mask [a2]) s) as (q' & Hq' & H1 & H2 & H3 & H4 & _);
    [done | done | by rewrite Hregs | by rewrite Hregs | done |].
  rewrite Hq in Hq'. injection Hq' as <-. cbv zeta in *. unfold frame_size in H2. rewrite Hregs in *.
  split_and!; [done | | done | by eapply run_csrs, pop_straight |].
  - rewrite (H4 0%nat a2) by done. by rewrite Z.add_0_r.
  - intros r Hr1 Hr2. apply H3; [|done]. by rewrite list_elem_of_singleton.
Qed.

(** Memory that differs below two stack pointers. *)
Lemma frame_move m m' a b o n k : (∀ j, u64 (a + j) = u64 (b + k + j)) → frame m m' a o n → frame m m' b (o + k) n.
Proof. intros Hab Hf x Hx. apply Hf. intros j Hj ->. apply (Hx (j + k)); [lia|]. rewrite Hab. f_equal; lia. Qed.

Lemma frame_widen m m' b o n o' n' : frame m m' b o n → o' ≤ o → o + 8 * n ≤ o' + 8 * n' → frame m m' b o' n'.
Proof. intros Hf ? ? x Hx. apply Hf. intros j Hj. apply Hx. lia. Qed.

Lemma frame_trans m1 m2 m3 b o n : frame m1 m2 b o n → frame m2 m3 b o n → frame m1 m3 b o n.
Proof. intros H1 H2 x Hx. rewrite H2 by done. by apply H1. Qed.

Lemma frame_load k m m' b o n c : frame m m' b o n → (c + Z.of_nat k ≤ o ∨ o + 8 * n ≤ c) → -100 ≤ c ≤ 100 → (k ≤ 100)%nat → -100 ≤ o → 0 ≤ n → o + 8 * n ≤ 100 →
  load k m' (b + c) = load k m (b + c).
Proof.
  intros Hf Hc ? ? ? ? ?. apply load_ext. intros j Hj. apply Hf. intros i Hi. rewrite <- Z.add_assoc.
  assert (∀ x y, -1000 ≤ x ≤ 1000 → -1000 ≤ y ≤ 1000 → x ≠ y → u64 (b + x) ≠ u64 (b + y)) as Hne.
  { intros x y Hx Hy Hxy. replace (b + x) with (b - 1000 + (x + 1000)) by lia. replace (b + y) with (b - 1000 + (y + 1000)) by lia.
    apply u64_add_ne; lia. }
  apply Hne; lia.
Qed.
End start.

(** *** The code before the search *)

Section probe.
Context (cfg : config) (Ht : riscv_target (cfg_target cfg)) (entries_addr : Z) (Hent : 0 ≤ entries_addr < 2 ^ 63).
Context (rs1 imm : Z) (link : bool) (Hrs1 : rs1 ≠ zero) (Hrs1sp : rs1 ≠ sp).
Notation r := (choose_regs rs1 link).

(** The source address that is searched for. *)
Definition sought (s : machine) : Z := u64 (get s rs1 + (if rs1 =? a1 then 0 else imm12 imm)).

Lemma regs_ok : reg_tmp r ≠ zero ∧ reg_tmp r ≠ a0 ∧ reg_tmp r ≠ sp ∧ reg_spc r ≠ a0 ∧ reg_spc r ≠ reg_tmp r
  ∧ reg_spc r ≠ sp ∧ reg_spc r ≠ zero ∧ creg (reg_tmp r) = reg_tmp r ∧ reg_tmp r ≠ s1 ∧ (use_a2 r = true → reg_spc r = a1 ∧ reg_tmp r = a2)
  ∧ (use_a2 r = false → reg_spc r = rs1 ∧ reg_tmp r = a1 ∧ rs1 ≠ a0 ∧ rs1 ≠ a1).
Proof.
  unfold choose_regs. destruct ((rs1 =? a0) || (rs1 =? a1) || (link && (rs1 =? ra))) eqn:Hu; simpl; [by split_and!|].
  apply orb_false_iff in Hu as [[Hu1%Z.eqb_neq Hu2%Z.eqb_neq]%orb_false_iff _]. by split_and!.
Qed.

Record started (s s' : machine) : Prop := {
  started_sp : get s' sp = u64 (get s sp - (if use_a2 r then 24 else 16));
  started_spc : get s' (reg_spc r) = sought s;
  started_a0 : get s' a0 = entries_addr + 16 * bucket cfg (sought s);
  started_regs x : x ≠ sp → x ≠ a0 → x ≠ reg_spc r → x ≠ reg_tmp r → get s' x = get s x;
  started_stack : stacked (use_a2 r) s (mem s');
  started_csrs : csrs s' = csrs s
}.

(** The stack after the pushes of a0 and a1, and of a2. *)
Lemma stacked_ctx s m :
  frame (mem s) m (get s sp - 16) 0 2 →
  (∀ i x, [a0; a1] !! i = Some x → load 8 m (get s sp - 16 + 8 * Z.of_nat i) = get s x) → stacked false s m.
Proof.
  intros Hf Hl. constructor; [| | |done].
  - eapply frame_widen; [eapply (frame_move _ _ (get s sp - 16) (get s sp - 24) 0 2 8); [intros j; f_equal; lia | exact Hf] | lia | lia].
  - rewrite <- (Hl 0%nat a0) by done. f_equal; lia.
  - rewrite <- (Hl 1%nat a1) by done. f_equal; lia.
Qed.

Lemma stacked_a2_push s x1 m :
  stacked false s (mem x1) → get x1 sp = u64 (get s sp - 16) → get x1 a2 = get s a2 →
  frame (mem x1) m (get x1 sp - 8) 0 1 → load 8 m (get x1 sp - 8) = get x1 a2 → stacked true s m.
Proof.
  intros [S1 S2 S3 _] Hsp Ha Hf Hl.
  assert (∀ j, u64 (get x1 sp - 8 + j) = u64 (get s sp + -24 + j)) as Hmv.
  { intros j. rewrite Hsp. replace (u64 (get s sp - 16) - 8 + j) with (u64 (get s sp - 16) + (-8 + j)) by lia.
    rewrite u64_add_l. f_equal; lia. }
  assert (frame (mem x1) m (get s sp) (-24) 1) as F2.
  { change (-24) with (0 + -24). by eapply frame_move. }
  constructor.
  - eapply frame_trans; [exact S1|]. change 0 with (-24 + 24). eapply (frame_move _ _ (get s sp)); [intros j; f_equal; lia|].
    eapply frame_widen; [exact F2 | lia | lia].
  - rewrite <- S2. replace (get s sp - 16) with (get s sp + -16) by lia. apply (frame_load _ _ _ _ _ _ _ F2); lia.
  - rewrite <- S3. replace (get s sp - 8) with (get s sp + -8) by lia. apply (frame_load _ _ _ _ _ _ _ F2); lia.
  - intros _. rewrite <- Ha, <- Hl. rewrite <- load_u64, <- (load_u64 8 m (get x1 sp - 8)). f_equal.
    specialize (Hmv 0). by rewrite !Z.add_0_r in Hmv.
Qed.

(** The source address, with the context on the stack. *)
Lemma spc_code_spec :
  ∃ push spc, riscv_push (cfg_target cfg) (reg_mask [a0; a1]) = Ok push
    ∧ (if use_a2 r then p ← riscv_push (cfg_target cfg) (reg_mask [a2]);
         Ok (p ++ (if rs1 =? reg_spc r then [] else [Addi (reg_spc r) rs1 imm]))
       else Ok [Addi (reg_spc r) (reg_spc r) imm]) = Ok spc
    ∧ forallb straight (push ++ spc) = true ∧ code_size (push ++ spc) ≤ 24
    ∧ ∀ s, ok s → let s' := run (push ++ spc) s in
        get s' sp = u64 (get s sp - (if use_a2 r then 24 else 16)) ∧ get s' (reg_spc r) = sought s
        ∧ (∀ x, x ≠ sp → x ≠ reg_spc r → get s' x = get s x) ∧ stacked (use_a2 r) s (mem s') ∧ csrs s' = csrs s.
Proof.
  destruct regs_ok as (_ & _ & _ & Hsa & Hstmp & Hssp & Hsz0 & _ & _ & HA & HB).
  destruct (push_regs_spec cfg Ht [a0; a1]) as (push & Hpush & Hst & Hsz & Hrun); [by left|]. simpl in Hsz.
  exists push. destruct (use_a2 r) eqn:Hu.
  - destruct (HA eq_refl) as [Hspc Htmp]. rewrite Hspc in *.
    destruct (push_regs_spec cfg Ht [a2]) as (p2 & Hp2 & Hst2 & Hsz2 & Hrun2); [by right; left|]. simpl in Hsz2. rewrite Hp2. cbn [mbind outcome_bind].
    eexists. split_and!; [done | done | | |].
    + rewrite !forallb_app, Hst, Hst2. by destruct (rs1 =? a1).
    + rewrite !code_size_app, Hsz, Hsz2. destruct (rs1 =? a1); simpl; done.
    + intros s Hs. rewrite !run_app. destruct (Hrun s Hs) as (A1 & A2 & A3 & A4 & A5). set (x1 := run push s) in *.
      assert (ok x1) as Hx1 by by apply ok_run. destruct (Hrun2 x1 Hx1) as (B1 & B2 & B3 & B4 & B5). set (x2 := run p2 x1) in *.
      assert (get x2 sp = u64 (get s sp - 24)) as Hsp.
      { rewrite B1, A1. simpl length. change (8 * Z.of_nat 1) with 8. change (8 * Z.of_nat 2) with 16.
        replace (u64 (get s sp - 16) - 8) with (u64 (get s sp - 16) + -8) by lia. rewrite u64_add_l. f_equal; lia. }
      assert (stacked true s (mem x2)) as Hstk.
      { apply (stacked_a2_push s x1); [by apply stacked_ctx | done | by apply A2 | done |].
        rewrite <- (B4 0%nat a2) by done. f_equal. cbn [length]. lia. }
      destruct (Z.eqb_spec rs1 a1) as [He|Hne].
      * cbn [run foldl]. split_and!; [done | | | done | congruence].
        -- unfold sought. rewrite He. change (a1 =? a1) with true. cbn iota. rewrite Z.add_0_r, u64_small by apply Hs. by rewrite B2, A2.
        -- intros x Hx1' Hx2'. by rewrite B2, A2.
      * cbn [run foldl exec]. split_and!; [by rewrite get_next, get_set_ne | | | done | change (csrs x2 = csrs s); congruence].
        -- rewrite get_next, get_set_eq by done. unfold sought. rewrite (proj2 (Z.eqb_neq _ _) Hne). by rewrite B2, A2.
        -- intros x Hx1' Hx2'. rewrite get_next, get_set_ne by done. by rewrite B2, A2.
  - destruct (HB eq_refl) as (Hspc & Htmp & Hna0 & Hna1). rewrite Hspc in *. eexists.
    split_and!; [done | done | by rewrite forallb_app, Hst | rewrite code_size_app, Hsz; simpl; done |].
    intros s Hs. rewrite run_app. destruct (Hrun s Hs) as (A1 & A2 & A3 & A4 & A5). set (x1 := run push s) in *.
    simpl length in *. change (8 * Z.of_nat 2) with 16 in *. change (Z.of_nat 2) with 2 in *.
    cbn [run foldl exec]. split_and!; [by rewrite get_next, get_set_ne | | | | done].
    + rewrite get_next, get_set_eq by done. unfold sought. rewrite (proj2 (Z.eqb_neq _ _) Hna1). by rewrite A2.
    + intros x Hx1' Hx2'. rewrite get_next, get_set_ne by done. by apply A2.
    + change (stacked false s (mem x1)). by apply stacked_ctx.
Qed.

Lemma probe_start_spec :
  ∃ push start, riscv_push (cfg_target cfg) (reg_mask [a0; a1]) = Ok push
    ∧ probe_start cfg entries_addr r rs1 imm = Ok start
    ∧ forallb straight (push ++ start) = true ∧ code_size (push ++ start) ≤ 92
    ∧ ∀ s, ok s → started s (run (push ++ start) s).
Proof.
  destruct regs_ok as (Htz & Hta & Htsp & Hsa & Hst & Hssp & Hsz & _).
  destruct spc_code_spec as (push & spc & Hpush & Hspc & Hstr & Hlen & Hrun).
  destruct (first_slot_spec cfg Ht entries_addr Hent (reg_spc r) (reg_tmp r) Htz Hta Hsa Hst) as (size & base & Hsize & Hbase & Hstr2 & Hlen2 & Hrun2).
  exists push. eexists. unfold probe_start. rewrite Hspc, Hsize, Hbase. cbn [mbind outcome_bind].
  split_and!; [done | done | by rewrite app_assoc, forallb_app, Hstr, Hstr2 | rewrite app_assoc, code_size_app; lia |].
  intros s Hs. rewrite app_assoc, run_app. destruct (Hrun s Hs) as (A1 & A2 & A3 & A4 & A5). set (x1 := run (push ++ spc) s) in *.
  destruct (Hrun2 x1) as (B1 & B2 & B3 & B4); [by apply ok_run|]. constructor.
  - by rewrite B2.
  - by rewrite B2.
  - by rewrite B1, A2.
  - intros x ? ? ? ?. rewrite B2 by done. by apply A3.
  - by rewrite B3.
  - congruence.
Qed.

(** *** After the search *)

Section finish.
Context (rd ret : Z) (Hret : 0 ≤ ret < 2 ^ 64) (Hrd : rd ∉ [s1; a0; a1; sp]).

(** The registers the application sees: rd has the return address, and the
    register of the jump, when it is searched in place, the target. *)
Definition base_reg (s : machine) (x : Z) : Z := if negb (use_a2 r) && (x =? rs1) then sought s else get s x.
Definition app_reg (s : machine) (x : Z) : Z := if negb (rd =? zero) && (x =? rd) then ret else base_reg s x.

(** During the lookup. *)
Record looking (s x : machine) : Prop := {
  looking_ok : ok x;
  looking_sp : get x sp = u64 (get s sp - (if use_a2 r then 24 else 16));
  looking_regs y : y ∉ [sp; a0; a1; reg_tmp r; rd] → get x y = base_reg s y;
  looking_stack : stacked (use_a2 r) s (mem x);
  looking_csrs : csrs x = csrs s
}.

(** At its end. *)
Record restored_to (s x : machine) : Prop := {
  restored_ok : ok x;
  restored_sp : get x sp = u64 (get s sp - 16);
  restored_regs y : y ∉ [sp; a0; a1] → get x y = app_reg s y;
  restored_stack : stacked (use_a2 r) s (mem x);
  restored_csrs : csrs x = csrs s
}.

(** Code that loads the return address. *)
Lemma ret_spec :
  ∃ l, (if rd =? zero then Ok [] else riscv_copy_to_reg rd ret) = Ok l ∧ forallb straight l = true ∧ code_size l ≤ 26
    ∧ ∀ s, ok s → let s' := run l s in
        (rd ≠ zero → get s' rd = ret) ∧ (∀ x, x ≠ rd → get s' x = get s x) ∧ mem s' = mem s ∧ csrs s' = csrs s.
Proof.
  destruct (Z.eqb_spec rd zero) as [->|Hz]; [by exists []|].
  destruct (id_spec rd ret) as (l & -> & Hsz & Hst & Hl); [done | done |]. exists l. split_and!; [done | done | done |].
  intros s Hs. destruct (Hl s Hs) as (A1 & A2 & A3 & _ & A5). split_and!; [|done | done | done]. intros _. by rewrite A1, u64_small.
Qed.

Lemma pop_spec :
  ∃ q, (if use_a2 r then riscv_pop (cfg_target cfg) (reg_mask [a2]) else Ok []) = Ok q ∧ forallb straight q = true ∧ code_size q ≤ 8
    ∧ ∀ s x, ok s → looking s x → let x' := run q x in
        get x' sp = u64 (get s sp - 16) ∧ (∀ y, y ∉ [sp; a0; a1; rd] → get x' y = base_reg s y)
        ∧ get x' a0 = get x a0 ∧ get x' a1 = get x a1 ∧ mem x' = mem x ∧ csrs x' = csrs x.
Proof.
  destruct regs_ok as (Htz & Hta & Htsp & Hsa & Hstmp & Hssp & Hsz0 & _ & _ & HA & HB). destruct (use_a2 r) eqn:Hu.
  - destruct (HA eq_refl) as [_ Htmp]. destruct (pop_a2_spec cfg Ht) as (q & Hq & Hst & Hsz & Hrun). exists q. split_and!; [done | done | done |].
    intros s x Hos [Hox Hsp Hr Hstk Hc]. rewrite Hu in Hsp, Hstk. destruct (Hrun x Hox) as (B1 & B2 & B3 & B4 & B5).
    split_and!; [| | by apply B5 | by apply B5 | done | done].
    + rewrite B1, Hsp, u64_add_l. f_equal; lia.
    + intros y Hy. rewrite !not_elem_of_cons in Hy. destruct Hy as (? & ? & ? & ? & _). destruct (decide (y = a2)) as [->|Hne].
      * rewrite B2, Hsp, load_u64, (stacked_a2 _ _ _ Hstk) by done. unfold base_reg. rewrite Hu. simpl. apply u64_small, Hos.
      * rewrite B5 by done. apply Hr. rewrite Htmp, !not_elem_of_cons. split_and!; (done || apply not_elem_of_nil).
  - destruct (HB eq_refl) as (_ & Htmp & _). exists []. split_and!; [done | done | done |].
    intros s x Hos [Hox Hsp Hr Hstk Hc]. rewrite Hu in Hsp, Hstk. split_and!; [done | | done | done | done | done].
    intros y Hy. apply Hr. rewrite Htmp, !not_elem_of_cons in *. destruct Hy as (? & ? & ? & ? & _). split_and!; (done || apply not_elem_of_nil).
Qed.

(** The end of the lookup: the pop of a2 and the return address. *)
Lemma finish_spec :
  ∃ pop l, (if use_a2 r then riscv_pop (cfg_target cfg) (reg_mask [a2]) else Ok []) = Ok pop
    ∧ (if rd =? zero then Ok [] else riscv_copy_to_reg rd ret) = Ok l
    ∧ forallb straight pop = true ∧ forallb straight l = true ∧ code_size pop ≤ 8 ∧ code_size l ≤ 26
    ∧ (∀ s x, ok s → looking s x → let x' := run (pop ++ l) x in
         restored_to s x' ∧ get x' a0 = get x a0 ∧ get x' a1 = get x a1)
    ∧ ∀ s x, looking s x → looking s (run l x) ∧ get (run l x) a0 = get x a0.
Proof.
  destruct pop_spec as (pop & Hpop & Hstp & Hszp & Hrp). destruct ret_spec as (l & Hl & Hstl & Hszl & Hrl).
  rewrite !not_elem_of_cons in Hrd. destruct Hrd as (Hd1 & Hd2 & Hd3 & Hd4 & _).
  exists pop, l. split_and!; try done.
  - intros s x Hos Hlk. rewrite run_app. destruct (Hrp s x Hos Hlk) as (A1 & A2 & A3 & A4 & A5 & A6). set (x1 := run pop x) in *.
    assert (ok x1) as Hx1 by (apply ok_run, Hlk). destruct (Hrl x1 Hx1) as (B1 & B2 & B3 & B4).
    split_and!; [constructor | by rewrite B2 by done | by rewrite B2 by done].
    + by apply ok_run.
    + by rewrite B2.
    + intros y Hy. unfold app_reg. destruct (Z.eqb_spec y rd) as [->|Hne].
      * destruct (Z.eqb_spec rd zero) as [Hz|Hz]; simpl; [|by apply B1].
        rewrite Hz. unfold base_reg. rewrite (proj2 (Z.eqb_neq zero rs1)) by done. by rewrite andb_false_r.
      * rewrite andb_false_r. rewrite B2 by done. apply A2. rewrite !not_elem_of_cons in *. destruct Hy as (? & ? & ? & _).
        split_and!; (done || apply not_elem_of_nil).
    + rewrite B3, A5. apply Hlk.
    + rewrite B4, A6. apply Hlk.
  - intros s x [L1 L2 L3 L4 L5]. destruct (Hrl x L1) as (B1 & B2 & B3 & B4). split; [constructor | by apply B2].
    + by apply ok_run.
    + by rewrite B2.
    + intros y Hy. rewrite B2; [by apply L3|]. rewrite !not_elem_of_cons in Hy. tauto.
    + by rewrite B3.
    + by rewrite B4.
Qed.
End finish.
End probe.

(** ** The table *)

Section table.
Context (cfg : config) (entries_addr : Z) (Hent : 0 ≤ entries_addr).

(** A table of the size the code is generated for. *)
Record usable (tb : CodeCacheHash.hash_table) : Prop := {
  usable_wf : CodeCacheHash.wf (cfg_target cfg) tb;
  usable_size : CodeCacheHash.size tb = CodeCacheHash.CODE_CACHE_HASH_SIZE + CodeCacheHash.CODE_CACHE_HASH_OVERP;
  usable_words : Forall (λ e, 0 ≤ key e < 2 ^ 64 ∧ 0 ≤ value e < 2 ^ 64) (CodeCacheHash.entries tb);
  usable_end : entries_addr + 16 * Z.of_nat (length (CodeCacheHash.entries tb)) < 2 ^ 64
}.

Lemma home_bucket tb k : usable tb → Z.of_nat (CodeCacheHash.home (cfg_target cfg) tb k) = bucket cfg k.
Proof.
  intros Hu. rewrite CodeCacheHash.home_Z by apply Hu. unfold CodeCacheHash.GET_INDEX. rewrite (usable_size _ Hu).
  replace (_ + CodeCacheHash.CODE_CACHE_HASH_OVERP - CodeCacheHash.CODE_CACHE_HASH_OVERP) with CodeCacheHash.CODE_CACHE_HASH_SIZE by lia.
  change (u64 CodeCacheHash.CODE_CACHE_HASH_SIZE) with CodeCacheHash.CODE_CACHE_HASH_SIZE. fold (bucket cfg k).
  pose proof (bucket_range cfg k) as Hb. unfold CodeCacheHash.CODE_CACHE_HASH_SIZE in Hb. apply s32_small. lia.
Qed.

(** Every search ends, at the latest at the sentinel, and then has the result of
    the map. *)
Lemma search_end tb m k :
  usable tb → represents (CodeCacheHash.entries tb) m →
  let es := CodeCacheHash.entries tb in let h := CodeCacheHash.home (cfg_target cfg) tb k in
  ∃ d, (h + d < length es)%nat ∧ stop_slot es k (h + d) ∧ (∀ j, (h ≤ j < h + d)%nat → ¬ stop_slot es k j)
    ∧ m !! k = if key_at es (h + d) =? 0 then None else Some (value_at es (h + d)).
Proof.
  intros Hu Hm es h. pose proof (usable_wf _ Hu) as Hwf. pose proof (CodeCacheHash.wf_length _ _ Hwf) as Hlen.
  pose proof (CodeCacheHash.GET_INDEX_range _ tb k Hwf) as Hg. pose proof (CodeCacheHash.home_Z _ tb k Hwf) as Hh. fold h in Hh. fold es in Hlen.
  destruct (first_such (λ d, stop_slot es k (h + d)) (length es - 1 - h)) as (d & Hd & Hs & Hf).
  { left. replace (h + (length es - 1 - h))%nat with (length es - 1)%nat by lia. apply (CodeCacheHash.wf_sentinel _ _ Hwf). }
  exists d. assert (h + d < length es)%nat as Hlt by lia. split_and!; [done | done | |].
  { intros j Hj. replace j with (h + (j - h))%nat by lia. apply Hf. lia. }
  destruct (lookup_lt_is_Some_2 es _ Hlt) as [e He]. rewrite (key_at_lookup _ _ _ He), (value_at_lookup _ _ _ He).
  destruct (Z.eqb_spec (key e) 0) as [Hz|Hz].
  - apply eq_None_not_Some. intros [v Hv]. apply Hm in Hv as (Hk & i & Hi).
    destruct (CodeCacheHash.wf_probe _ _ Hwf i _ Hi Hk) as (d' & Hd' & Hsl & Hno). simpl in Hd', Hsl, Hno. unfold CodeCacheHash.slot in *.
    fold h es in Hsl, Hno, Hi.
    destruct (Nat.lt_trichotomy d d') as [Hlt'|[->|Hgt]].
    + apply (Hno d Hlt'). left. by rewrite (key_at_lookup _ _ _ He).
    + rewrite Hsl in He. rewrite He in Hi. by simplify_eq.
    + apply (Hf d' Hgt). right. by rewrite Hsl, (key_at_lookup _ _ _ Hi).
  - unfold stop_slot in Hs. rewrite (key_at_lookup _ _ _ He) in Hs. destruct Hs as [|Hs]; [done|].
    apply Hm. split; [congruence|]. exists (h + d)%nat. fold es. rewrite He. destruct e. simpl in *. congruence.
Qed.

(** The stack below the stack pointer is not in the table. *)
Definition apart (s : machine) (tb : CodeCacheHash.hash_table) : Prop :=
  ∀ j x, 0 ≤ j < 24 → 0 ≤ x < 16 * Z.of_nat (length (CodeCacheHash.entries tb)) → u64 (get s sp - 24 + j) ≠ entries_addr + x.

Lemma table_stays s m tb :
  usable tb → apart s tb → table_in (mem s) entries_addr (CodeCacheHash.entries tb) → frame (mem s) m (get s sp - 24) 0 3 →
  table_in m entries_addr (CodeCacheHash.entries tb).
Proof.
  intros Hu Ha Htb Hf i e He. destruct (Htb i e He) as [<- <-]. apply lookup_lt_Some in He. pose proof (usable_end _ Hu).
  assert (∀ c, 0 ≤ c ≤ 8 → load 8 m (entries_addr + 16 * Z.of_nat i + c) = load 8 (mem s) (entries_addr + 16 * Z.of_nat i + c)) as Hl.
  { intros c Hc. apply load_ext. intros j Hj. apply Hf. intros k Hk Heq. rewrite u64_small in Heq by lia.
    apply (Ha k (16 * Z.of_nat i + c + j)); [lia | lia |]. rewrite <- Heq. lia. }
  split; [|apply Hl; lia]. specialize (Hl 0 ltac:(lia)). by rewrite !Z.add_0_r in Hl.
Qed.
End table.

(** ** The lookup *)

Section final.
Context (cfg : config) (Ht : riscv_target (cfg_target cfg)) (dispatcher_addr RISCV_LUI entries_addr : Z).
Context (Hent : 0 ≤ entries_addr < 2 ^ 63).

(** The code of the loop but for the branch out of it. *)
Lemma probe_loop_spec r st :
  ∃ bhi blo, b_imm bhi blo = -14 ∧ probe_loop r st =
    ((fst st + 22, place (fst st + 10) [Sub (reg_tmp r) (reg_tmp r) (reg_spc r); Branch BNE zero (reg_tmp r) bhi blo; Ld a0 a0 (-8)]
       (place (fst st) [Ld (reg_tmp r) a0 0; Addi a0 a0 16] (snd st))), fst st + 8).
Proof.
  unfold probe_loop, emit, skip. cbn [fst snd]. unfold riscv_branch_helper.
  change (code_size [Ld (reg_tmp r) a0 0; Addi a0 a0 16]) with 8.
  change (code_size [Sub (reg_tmp r) (reg_tmp r) (reg_spc r)]) with 4. change (code_size [Ld a0 a0 (-8)]) with 4.
  replace (fst st + 8 + 2 + 4) with (fst st + 14) by lia. rewrite near_offset by (unfold near; lia).
  replace (fst st - (fst st + 14)) with (-14) by lia.
  destruct (b_imm_pair (-14)) as (p & Hp & Hb); [done | lia |]. rewrite Hp. cbn [mbind option_bind fst snd]. exists (immhi p), (immlo p).
  split; [done|]. change (code_size [Branch BNE zero (reg_tmp r) (immhi p) (immlo p)]) with 4.
  replace (fst st + 8 + 2) with (fst st + 10) by lia. replace (fst st + 14 + 4) with (fst st + 18) by lia.
  f_equal. f_equal; [lia|]. cbn [place inst_size]. replace (fst st + 10 + 4) with (fst st + 14) by lia.
  by replace (fst st + 14 + 4) with (fst st + 18) by lia.
Qed.

(** Where the pieces of the lookup are. *)
Record lookup_code (text : cmem) (w : Z) (r : lookup_regs) (pre hit miss : list inst) : Prop := {
  code_pre : code_at text w pre;
  code_loop : ∃ hi lo bhi blo, b_imm bhi blo = -14
    ∧ cb_imm hi lo = w + code_size pre + 22 + code_size hit - (w + code_size pre + 8)
    ∧ code_at text (w + code_size pre) (loop_code (reg_spc r) (reg_tmp r) hi lo bhi blo);
  code_hit : code_at text (w + code_size pre + 22) hit;
  code_miss : code_at text (w + code_size pre + 22 + code_size hit) miss
}.

(** Writing the pieces in the order of the program. *)
Lemma layout_spec text0 w r pre hit miss :
  code_size hit ≤ 40 → Z.even (code_size hit) = true →
  let L := w + code_size pre in let nf := L + 22 + code_size hit in
  ∃ bhi blo cb, b_imm bhi blo = -14 ∧ riscv_c_beqz_helper (L + 8) nf (reg_tmp r) = Some cb ∧
    let text1 := place (L + 10) [Sub (reg_tmp r) (reg_tmp r) (reg_spc r); Branch BNE zero (reg_tmp r) bhi blo; Ld a0 a0 (-8)]
                   (place L [Ld (reg_tmp r) a0 0; Addi a0 a0 16] (place w pre text0)) in
    probe_loop r (L, place w pre text0) = ((L + 22, text1), L + 8) ∧
    let text := place nf miss (put (L + 8) cb (place (L + 22) hit text1)) in
    lookup_code text w r pre hit miss ∧ keeps w (code_size pre + 22 + code_size hit + code_size miss) text0 text.
Proof.
  intros Hsz He L nf. destruct (probe_loop_spec r (L, place w pre text0)) as (bhi & blo & Hb & Hpl). cbn [fst snd] in Hpl.
  destruct (cb_imm_pair (nf - (L + 8))) as (p & Hp & Hcb).
  { replace (nf - (L + 8)) with (14 + code_size hit) by (unfold nf; lia). by rewrite Z.even_add, He. }
  { pose proof (code_size_nonneg hit). unfold nf. lia. }
  pose proof (code_size_nonneg hit). pose proof (code_size_nonneg pre). pose proof (code_size_nonneg miss).
  assert (riscv_c_beqz_helper (L + 8) nf (reg_tmp r) = Some (C_beqz (reg_tmp r) (immhi p) (immlo p))) as Hh.
  { unfold riscv_c_beqz_helper, riscv_c_bcond_helper. rewrite near_offset by (unfold near, nf; lia). by rewrite Hp. }
  exists bhi, blo, (C_beqz (reg_tmp r) (immhi p) (immlo p)). split_and!; [done | done |].
  set (l1 := [Ld (reg_tmp r) a0 0; Addi a0 a0 16]) in *. set (l2 := [Sub _ _ _; _; _]) in *. set (cb := C_beqz _ _ _) in *.
  cbv zeta. split_and!; [done | |].
  2: { eapply (keeps_trans w (code_size pre + 22 + code_size hit) nf (code_size miss)); [|apply place_keeps | unfold nf, L; lia..].
       eapply (keeps_trans w (code_size pre + 22 + code_size hit) (L + 8) 2); [|apply (put_keeps (L + 8) cb) | unfold L; lia..].
       eapply (keeps_trans w (code_size pre + 22) (L + 22) (code_size hit)); [|apply place_keeps | unfold L; lia..].
       eapply (keeps_trans w (code_size pre + 8) (L + 10) 12); [|apply (place_keeps l2) | unfold L; lia..].
       eapply (keeps_trans w (code_size pre) L 8); [apply place_keeps | apply (place_keeps l1) | unfold L; lia..]. }
  assert (∀ x l, code_at (place (L + 22) hit (place (L + 10) l2 (place L l1 (place w pre text0)))) x l →
    disjoint x (code_size l) (L + 8) 2 → x + code_size l ≤ nf →
    code_at (place nf miss (put (L + 8) cb (place (L + 22) hit (place (L + 10) l2 (place L l1 (place w pre text0)))))) x l) as Hlate.
  { intros x l Hc Hd Hn. eapply code_at_keeps; [apply place_keeps | | unfold disjoint; lia].
    eapply code_at_keeps; [apply (put_keeps (L + 8) cb) | done | exact Hd]. }
  constructor.
  - apply Hlate; [|unfold disjoint, L; lia | unfold nf, L; lia].
    do 3 (eapply code_at_keeps; [apply place_keeps | | unfold disjoint, L; lia]). apply place_code_at.
  - exists (immhi p), (immlo p), bhi, blo. split_and!; [done | unfold nf, L in Hcb; lia |].
    fold L. change (loop_code _ _ _ _ _ _) with (l1 ++ [cb] ++ l2). apply code_at_app. split; [|apply code_at_app; split].
    + apply Hlate; [|unfold disjoint; simpl; lia | unfold nf; simpl; lia].
      do 2 (eapply code_at_keeps; [apply place_keeps | | unfold disjoint; simpl; lia]). apply place_code_at.
    + change (L + code_size l1) with (L + 8). split; [|done]. apply place_keeps; [apply put_same | unfold disjoint, nf; simpl; lia].
    + change (L + code_size l1 + code_size [cb]) with (L + 8 + 2). replace (L + 8 + 2) with (L + 10) by lia.
      apply Hlate; [|unfold disjoint; simpl; lia | unfold nf; simpl; lia].
      eapply code_at_keeps; [apply place_keeps | apply place_code_at | unfold disjoint; simpl; lia].
  - apply Hlate; [apply place_code_at | unfold disjoint; lia | unfold nf; lia].
  - apply place_code_at.
Qed.

Section jump.
Context (rs1 imm : Z) (link : bool) (Hrs1 : rs1 ≠ zero) (Hrs1sp : rs1 ≠ sp) (bb : Z) (Hbb : 0 ≤ bb < 2 ^ 31).
Context (rd ret : Z) (Hret : 0 ≤ ret < 2 ^ 64) (Hrd : rd ∉ [s1; a0; a1; sp]).
Notation r := (choose_regs rs1 link).

(** The dispatcher is entered with the target that was not found. *)
Record missed (s s' : machine) : Prop := {
  missed_pc : pc s' = dispatcher_addr;
  missed_a0 : get s' a0 = sought rs1 imm s;
  missed_a1 : get s' a1 = bb;
  missed_sp : get s' sp = u64 (get s sp - 24);
  missed_regs y : y ∉ [sp; s1; a0; a1] → get s' y = app_reg rs1 imm link rd ret s y;
  missed_frame : frame (mem s) (mem s') (get s sp - 24) 0 3;
  missed_s1 : load 8 (mem s') (get s sp - 24) = app_reg rs1 imm link rd ret s s1;
  missed_saved : load 8 (mem s') (get s sp - 16) = get s a0 ∧ load 8 (mem s') (get s sp - 8) = get s a1;
  missed_csrs : csrs s' = csrs s
}.

(** The block of the target is entered, with a0 and a1 on the stack. *)
Record found (s s' : machine) (v : Z) : Prop := {
  found_pc : pc s' = 2 * (v / 2);
  found_state : restored_to rs1 imm link rd ret s s'
}.

(** The state when the search has ended. *)
Lemma searched_looking s x1 x2 :
  started cfg entries_addr rs1 imm link s x1 → searched (reg_tmp r) x1 x2 → looking rs1 imm link rd s x2 ∧ get x2 (reg_spc r) = sought rs1 imm s.
Proof.
  intros [S1 S2 S3 S4 S5 S6] (Ho & Hm & Hc & Hg). destruct (regs_ok rs1 link Hrs1 Hrs1sp) as (Htz & Hta & Htsp & Hsa & Hst & Hssp & _ & _ & _ & HA & HB).
  split; [constructor|].
  - done.
  - by rewrite Hg.
  - intros y Hy. rewrite !not_elem_of_cons in Hy. destruct Hy as (? & ? & ? & ? & _ & _). rewrite Hg by done. unfold base_reg.
    destruct (use_a2 r) eqn:Hu; simpl.
    + destruct (HA eq_refl) as [Hsp _]. apply S4; [done | done | congruence | done].
    + destruct (HB eq_refl) as (Hsp & _). destruct (Z.eqb_spec y rs1) as [->|]; [by rewrite <- Hsp at 1|]. apply S4; [done | done | congruence | done].
  - by rewrite Hm.
  - congruence.
  - by rewrite Hg.
Qed.

(** The code of a hit. *)
Lemma hit_spec pop l text s x a :
  (∀ s x, ok s → looking rs1 imm link rd s x → let x' := run (pop ++ l) x in
     restored_to rs1 imm link rd ret s x' ∧ get x' a0 = get x a0 ∧ get x' a1 = get x a1) →
  forallb straight (pop ++ l) = true → code_at text a ((pop ++ l) ++ [C_jr a0]) → 0 ≤ a → a + code_size (pop ++ l) < 2 ^ 64 →
  ok s → looking rs1 imm link rd s x → pc x = a → ∃ s', reaches text x s' ∧ ok s' ∧ found s s' (get x a0).
Proof.
  intros Hfin Hst Hc Ha Hb Hs Hlk Hp. apply code_at_app in Hc as [Hc [Hj _]].
  destruct (Hfin s x Hs Hlk) as (Hres & Ha0 & _). rewrite <- Hp in Hc.
  destruct (run_straight text (pop ++ l) x) as [Hrun Hpr]; [apply Hlk | done | done | lia |]. set (x1 := run (pop ++ l) x) in *.
  assert (ok x1) as Ho1 by apply Hres.
  exists (exec (C_jr a0) x1). split_and!; [| by apply ok_exec |].
  - eapply reaches_trans; [done|]. apply reaches_step. by rewrite Hpr, Hp.
  - constructor.
    + cbn [exec set_pc pc]. rewrite Ha0. apply u64_small. destruct Hlk as [[_ Hg] _ _ _ _]. specialize (Hg a0).
      Z.div_mod_to_equations. lia.
    + destruct Hres as [R1 R2 R3 R4 R5]. constructor; try done. by apply ok_exec.
Qed.

(** The code of a miss up to the dispatcher. *)
Lemma miss_spec pop l id push s x :
  (∀ s x, ok s → looking rs1 imm link rd s x → let x' := run (pop ++ l) x in
     restored_to rs1 imm link rd ret s x' ∧ get x' a0 = get x a0 ∧ get x' a1 = get x a1) →
  (∀ s x, looking rs1 imm link rd s x → looking rs1 imm link rd s (run l x) ∧ get (run l x) a0 = get x a0) →
  loads id a1 bb →
  (∀ s, ok s → let s' := run push s in
     get s' sp = u64 (get s sp - 8) ∧ (∀ r, r ≠ sp → get s' r = get s r) ∧ frame (mem s) (mem s') (get s sp - 8) 0 1
     ∧ load 8 (mem s') (get s sp - 8) = get s s1 ∧ csrs s' = csrs s) →
  ok s → looking rs1 imm link rd s x → get x (reg_spc r) = sought rs1 imm s →
  let y := run ([Add a0 (reg_spc r) zero] ++ l ++ id ++ pop ++ l ++ push) x in
  ∀ s', mem s' = mem y → csrs s' = csrs x → (∀ q, q ≠ zero → q ≠ s1 → get s' q = get y q) → pc s' = dispatcher_addr → missed s s'.
Proof.
  intros Hfin Hl Hid Hpush Hs Hlk Hsp y s' Hm Hc Hg Hpc. subst y. rewrite !run_app in *.
  set (x1 := run [Add a0 (reg_spc r) zero] x) in *.
  assert (looking rs1 imm link rd s x1 ∧ get x1 a0 = sought rs1 imm s) as [Hlk1 Ha1].
  { destruct Hlk as [L1 L2 L3 L4 L5]. unfold x1. cbn [run foldl exec]. split; [constructor|].
    - by apply ok_next, ok_set.
    - by rewrite get_next, get_set_ne.
    - intros q Hq. pose proof Hq as Hq'. rewrite !not_elem_of_cons in Hq'. rewrite get_next, get_set_ne by tauto. by apply L3.
    - done.
    - done.
    - rewrite get_next, get_set_eq by done. rewrite Hsp. change (get x zero) with 0. rewrite Z.add_0_r. unfold sought. apply u64_u64. }
  destruct (Hl s x1 Hlk1) as [Hlk2 Ha2]. set (x2 := run l x1) in *. rewrite Ha1 in Ha2.
  destruct (Hid x2 (looking_ok _ _ _ _ _ _ Hlk2)) as (I1 & I2 & I3 & _ & I5). set (x3 := run id x2) in *.
  assert (looking rs1 imm link rd s x3) as Hlk3.
  { destruct Hlk2 as [L1 L2 L3 L4 L5]. constructor.
    - by apply ok_run.
    - by rewrite I5.
    - intros q Hq. pose proof Hq as Hq'. rewrite !not_elem_of_cons in Hq'. rewrite I5 by tauto. by apply L3.
    - by rewrite I2.
    - by rewrite I3. }
  destruct (Hfin s x3 Hs Hlk3) as ([R1 R2 R3 [T1 T2 T3 T4] R5] & Ra0 & Ra1). rewrite run_app in *. set (x5 := run l (run pop x3)) in *.
  destruct (Hpush x5 R1) as (P1 & P2 & P3 & P4 & P5). set (x6 := run push x5) in *.
  assert (∀ j, u64 (get x5 sp - 8 + j) = u64 (get s sp + -24 + j)) as Hmv.
  { intros j. rewrite R2. replace (u64 (get s sp - 16) - 8 + j) with (u64 (get s sp - 16) + (-8 + j)) by lia. rewrite u64_add_l. f_equal; lia. }
  assert (frame (mem x5) (mem x6) (get s sp) (-24) 1) as F2 by (change (-24) with (0 + -24); by eapply frame_move).
  constructor.
  - done.
  - rewrite Hg, P2, Ra0, I5 by done. done.
  - rewrite Hg, P2, Ra1, I1 by done. apply u64_small. lia.
  - rewrite Hg, P1, R2 by done. replace (u64 (get s sp - 16) - 8) with (u64 (get s sp - 16) + -8) by lia. rewrite u64_add_l. f_equal; lia.
  - intros q Hq. rewrite !not_elem_of_cons in Hq. destruct Hq as (? & ? & ? & ? & _). destruct (decide (q = zero)) as [->|Hz].
    + change (get s' zero) with 0. unfold app_reg, base_reg. rewrite (proj2 (Z.eqb_neq zero rs1)) by done. rewrite andb_false_r.
      destruct (Z.eqb_spec rd zero) as [->|Hnz]; [done|]. by rewrite (proj2 (Z.eqb_neq zero rd)) by done.
    + rewrite Hg, P2 by done. apply R3. rewrite !not_elem_of_cons. split_and!; (done || apply not_elem_of_nil).
  - rewrite Hm. eapply frame_trans; [exact T1|]. change 0 with (-24 + 24). eapply (frame_move _ _ (get s sp)); [intros j; f_equal; lia|].
    eapply frame_widen; [exact F2 | lia | lia].
  - rewrite Hm. rewrite <- (R3 s1) by (rewrite !not_elem_of_cons; split_and!; (done || apply not_elem_of_nil)). rewrite <- P4.
    rewrite <- load_u64, <- (load_u64 8 _ (get x5 sp - 8)). f_equal. specialize (Hmv 0). by rewrite !Z.add_0_r in Hmv.
  - rewrite Hm. split; [rewrite <- T2; replace (get s sp - 16) with (get s sp + -16) by lia | rewrite <- T3; replace (get s sp - 8) with (get s sp + -8) by lia];
      apply (frame_load _ _ _ _ _ _ _ F2); lia.
  - rewrite Hc. apply Hlk.
Qed.
End jump.

(** Running the pieces. *)
Lemma lookup_runs rs1 imm link bb rd ret text w push start pop l id pushs d :
  rs1 ≠ zero → rs1 ≠ sp → rd ∉ [s1; a0; a1; sp] → 0 ≤ ret < 2 ^ 64 → 0 ≤ bb < 2 ^ 31 → 0 ≤ w → w + 500 < 2 ^ 63 →
  let r := choose_regs rs1 link in let hit := (pop ++ l) ++ [C_jr a0] in
  let miss := [Add a0 (reg_spc r) zero] ++ l ++ id ++ pop ++ l ++ pushs in
  let pre := push ++ start in
  code_size pre ≤ 92 → code_size hit ≤ 40 → forallb straight pre = true → forallb straight (pop ++ l) = true →
  (∀ s, ok s → started cfg entries_addr rs1 imm link s (run pre s)) →
  (∀ s x, ok s → looking rs1 imm link rd s x → let x' := run (pop ++ l) x in
     restored_to rs1 imm link rd ret s x' ∧ get x' a0 = get x a0 ∧ get x' a1 = get x a1) →
  (∀ s x, looking rs1 imm link rd s x → looking rs1 imm link rd s (run l x) ∧ get (run l x) a0 = get x a0) →
  loads id a1 bb →
  (∀ s, ok s → let s' := run pushs s in
     get s' sp = u64 (get s sp - 8) ∧ (∀ r, r ≠ sp → get s' r = get s r) ∧ frame (mem s) (mem s') (get s sp - 8) 0 1
     ∧ load 8 (mem s') (get s sp - 8) = get s s1 ∧ csrs s' = csrs s) →
  lookup_code text w r pre hit (miss ++ d) →
  (∀ x, ok x → pc x = w + code_size pre + 22 + code_size hit →
     ∃ s', reaches text x s' ∧ pc s' = dispatcher_addr ∧ ok s' ∧ mem s' = mem (run miss x) ∧ csrs s' = csrs x
       ∧ ∀ q, q ≠ zero → q ≠ s1 → get s' q = get (run miss x) q) →
  ∀ tb m s, usable cfg entries_addr tb → represents (CodeCacheHash.entries tb) m → ok s → pc s = w →
    table_in (mem s) entries_addr (CodeCacheHash.entries tb) → apart entries_addr s tb →
    ∃ s', reaches text s s' ∧ ok s' ∧ match m !! sought rs1 imm s with
      | Some v => found rs1 imm link rd ret s s' v | None => missed rs1 imm link bb rd ret s s' end.
Proof.
  intros Hrs1 Hrs1sp Hrd Hret Hbb H0 H1 r hit miss pre Hszp Hszh Hstp Hsth Hstart Hfin Hl Hid Hpush Hcode Hmiss tb m s Hu Hm Hs Hp Htb Hap.
  destruct (regs_ok rs1 link Hrs1 Hrs1sp) as (Htz & Hta & Htsp & Hsa & Hst & Hssp & Hsz & Hcr & _). fold r in Htz, Hta, Htsp, Hsa, Hst, Hssp, Hsz, Hcr.
  destruct Hcode as [C1 (hi & lo & bhi & blo & Hb & Hcb & C2) C3 C4]. rewrite <- Hp in C1.
  destruct (run_straight text pre s Hs Hstp C1) as [Hrun Hpr]; [lia|]. pose proof (Hstart s Hs) as Hsd. set (x1 := run pre s) in *.
  assert (ok x1) as Ho1 by by apply ok_run. pose proof Hsd as [S1 S2 S3 S4 S5 S6]. fold r in S2, S5.
  destruct (search_end cfg entries_addr tb m (sought rs1 imm s) Hu Hm) as (dd & Hd & Hstop & Hno & Hres).
  pose proof (home_bucket cfg entries_addr tb (sought rs1 imm s) Hu) as Hh. pose proof (code_size_nonneg pre). pose proof (code_size_nonneg hit).
  assert (table_in (mem x1) entries_addr (CodeCacheHash.entries tb)) as Htb1.
  { eapply (table_stays cfg entries_addr); [lia | exact Hu | exact Hap | exact Htb | apply S5]. }
  destruct (search_stops text (reg_spc r) (reg_tmp r) (w + code_size pre) (w + code_size pre + 22 + code_size hit) entries_addr
              (CodeCacheHash.entries tb) hi lo bhi blo) with (n := dd) (i := CodeCacheHash.home (cfg_target cfg) tb (sought rs1 imm s)) (s := x1)
    as (x2 & Hr2 & Hse & Hend); (done || lia || idtac).
  { apply (usable_end _ _ _ Hu). }
  { apply (usable_words _ _ _ Hu). }
  { by rewrite S2. }
  { by rewrite S2. }
  rewrite Hres. clear Hres. destruct (searched_looking rs1 imm link Hrs1 Hrs1sp rd s x1 x2 Hsd Hse) as [Hlk Hsp].
  destruct (key_at _ _ =? 0).
  - destruct (Hmiss x2) as (s' & Hr & Hpc & Ho & Hmm & Hc & Hg); [apply Hlk | done |].
    exists s'. split_and!; [by do 2 (eapply reaches_trans; [done|]) | done |].
    eapply miss_spec; eassumption.
  - destruct Hend as [Hpx Hax].
    destruct (hit_spec rs1 imm link bb Hbb rd ret Hret pop l text s x2 _ Hfin Hsth C3) as (s' & Hr & Ho & Hf); [lia | | done | done | done |].
    { unfold hit in Hszh. rewrite code_size_app in Hszh. change (code_size [C_jr a0]) with 2 in Hszh. lia. }
    exists s'. split_and!; [by do 2 (eapply reaches_trans; [done|]) | done | by rewrite <- Hax].
Qed.

(** C6. The code that ends a block with an indirect jump computes what
    [hash_lookup] computes. [riscv_inline_hash_lookup] writes at most 350 bytes;
    executed on a memory that holds a well-formed table of the generated size
    (away from the 24 bytes below the stack pointer), the code always leaves
    the loop and enters the block that the table maps the target to, with a0
    and a1 saved on the stack, or, when the target is not in the table, the
    dispatcher with the target in a0, the block in a1 and the context saved.
    The return address is in rd, and every other register of the application is
    unchanged, except that a jump through a register other than a0, a1 (and ra
    for a call) leaves the target in that register; the target is the register
    plus the immediate, unless the register is a1: then the immediate is
    ignored. *)
Theorem inline_lookup_refines {T : Type} (th : dbm_thread T) bb meta st read_address rs1 imm link set_meta :
  0 ≤ bb < 2 ^ 31 → code_cache_meta th !! Z.to_nat bb = Some meta → rs1 ≠ zero → rs1 ≠ sp → rd meta ∉ [s1; a0; a1; sp] →
  room dispatcher_addr 1000 (2 ^ 28) (fst st) →
  let r := choose_regs rs1 link in let ret := CALC_RET_ADDR RISCV_LUI meta read_address in
  ∃ n text',
    riscv_inline_hash_lookup cfg dispatcher_addr RISCV_LUI entries_addr th bb st read_address rs1 imm link set_meta false
    = Ok (if set_meta then set_code_cache_meta (<[Z.to_nat bb := set_rs1 (reg_spc r) meta]> (code_cache_meta th)) th else th,
          (fst st + n, text'))
    ∧ 0 ≤ n ≤ 350 ∧ keeps (fst st) n (snd st) text'
    ∧ ∀ tb m s, usable cfg entries_addr tb → represents (CodeCacheHash.entries tb) m → ok s → pc s = fst st →
        table_in (mem s) entries_addr (CodeCacheHash.entries tb) → apart entries_addr s tb →
        ∃ s', reaches text' s s' ∧ ok s' ∧ match m !! sought rs1 imm s with
          | Some v => found rs1 imm link (rd meta) ret s s' v | None => missed rs1 imm link bb (rd meta) ret s s' end.
Proof.
  intros Hbb Hm Hrs1 Hrs1sp Hrd (H0 & H1 & Hd & Hnear & Hde & He) r ret. assert (0 ≤ ret < 2 ^ 64) as Hret by apply u64_range.
  destruct (probe_start_spec cfg Ht entries_addr Hent rs1 imm link Hrs1 Hrs1sp) as (push & start & Hpush & Hst & Hstp & Hszp & Hrunp).
  destruct (finish_spec cfg Ht entries_addr Hent rs1 imm link Hrs1 Hrs1sp (rd meta) ret Hret Hrd) as (pop & l & Hpop & Hl & Hsp & Hsl & Hzp & Hzl & Hfin & Hlk).
  destruct (id_spec a1 bb) as (id & Hid & Hzi & Hsi & Hldi); [done | lia |].
  destruct (push_regs_spec cfg Ht [s1]) as (ps & Hps & Hsps & Hzps & Hrunps); [by right; right|].
  change (code_size ps = 8) in Hzps.
  set (hit := (pop ++ l) ++ [C_jr a0]). set (miss := [Add a0 (reg_spc r) zero] ++ l ++ id ++ pop ++ l ++ ps). set (pre := push ++ start) in *.
  assert (code_size hit ≤ 40) as Hzh by (unfold hit; rewrite !code_size_app; change (code_size [C_jr a0]) with 2; lia).
  assert (code_size miss ≤ 120) as Hzm by (unfold miss; rewrite !code_size_app, Hzps; change (code_size [Add _ _ _]) with 4; lia).
  pose proof (code_size_nonneg hit). pose proof (code_size_nonneg pre). pose proof (code_size_nonneg miss).
  set (w := fst st) in *. set (nf := w + code_size pre + 22 + code_size hit).
  destruct (go_to_dispatcher_spec dispatcher_addr miss nf) as (d & Hgo & Hzd & Hdis);
    [unfold miss; by rewrite !forallb_app, Hsl, Hsi, Hsp, Hsps | unfold in_reach, nf; split_and!; (done || lia) | lia |].
  destruct (layout_spec (snd st) w r pre hit (miss ++ d)) as (bhi & blo & cb & _ & Hcb & Hloop & Hcode & Hkeep);
    [done | apply code_size_even |]. fold nf in Hcb, Hcode, Hkeep.
  eexists (code_size pre + 22 + code_size hit + code_size (miss ++ d)), _. split_and!; [| | | exact Hkeep |].
  - fold r in Hst, Hpop. unfold riscv_inline_hash_lookup. fold r. cbn [andb].
    assert ((if set_meta then upd_meta bb (set_rs1 (reg_spc r)) th else Ok th) = Ok (if set_meta
      then set_code_cache_meta (<[Z.to_nat bb := set_rs1 (reg_spc r) meta]> (code_cache_meta th)) th else th)) as ->.
    { destruct set_meta; [|done]. unfold upd_meta. by rewrite (aupd_lookup _ _ _ meta) by (done || lia). }
    set (th' := if set_meta then _ else th).
    assert (∃ meta', code_cache_meta th' !! Z.to_nat bb = Some meta' ∧ rd meta' = rd meta ∧ Dbm.inst meta' = Dbm.inst meta) as (meta' & Hm' & Hrd' & Hin').
    { unfold th'. destruct set_meta; [|by exists meta]. simpl. rewrite list_lookup_insert_eq by by apply lookup_lt_Some in Hm. by eexists. }
    cbn [mbind outcome_bind]. rewrite Hpush. cbn [mbind outcome_bind]. rewrite Hst. cbn [mbind outcome_bind].
    assert (emit start (emit push st) = (w + code_size pre, place w pre (snd st))) as ->.
    { unfold emit, pre. cbn [fst snd]. by rewrite code_size_app, Z.add_assoc, place_app. }
    rewrite Hloop. cbn [mbind outcome_bind]. rewrite Hpop. cbn [mbind outcome_bind].
    rewrite (aget_lookup _ _ meta') by (done || lia). cbn [mbind outcome_bind].
    assert (CALC_RET_ADDR RISCV_LUI meta' read_address = ret) as -> by (unfold ret, CALC_RET_ADDR; by rewrite Hin').
    rewrite Hrd', Hl. cbn [mbind outcome_bind]. rewrite Hid. cbn [mbind outcome_bind]. rewrite Hps. cbn [mbind outcome_bind].
    fold miss. rewrite (app_assoc pop l). fold hit. unfold emit, patch. cbn [fst snd]. fold nf. rewrite Hcb.
    unfold then_dispatcher. cbn [fst snd]. fold nf. rewrite Hgo. cbn [mbind outcome_bind]. unfold emit. cbn [fst snd].
    do 2 f_equal. f_equal. unfold nf. lia.
  - rewrite code_size_app; lia.
  - rewrite code_size_app; lia.
  - eapply (lookup_runs rs1 imm link bb (rd meta) ret _ w push start pop l id ps d); try done; try lia.
    + by rewrite forallb_app, Hsp, Hsl.
    + intros s Hs. destruct (Hrunps s Hs) as (P1 & P2 & P3 & P4 & P5). split_and!; [done | done | done | | done].
      rewrite <- (P4 0%nat s1) by done. f_equal. cbn [length]. lia.
    + intros x Hx Hp. apply Hdis; [apply Hcode | done | done].
Qed.
End final.

(** ** An instance *)

Definition table_length : nat := Z.to_nat (CodeCacheHash.CODE_CACHE_HASH_SIZE + CodeCacheHash.CODE_CACHE_HASH_OVERP).

Definition empty_table : CodeCacheHash.hash_table :=
  CodeCacheHash.MkTable (CodeCacheHash.CODE_CACHE_HASH_SIZE + CodeCacheHash.CODE_CACHE_HASH_OVERP) 0 0
    (replicate table_length (HashEntry 0 0)).

Definition jump_machine : machine := MkMachine 4700 (λ r, u64 (0x10000000 + 8 * r)) (λ _, 0) (λ _, 0).

Lemma zero_load n a : load n (λ _, 0) a = 0.
Proof. revert a. induction n as [|n IH]; intros a; [done|]. cbn [load]. by rewrite IH. Qed.

Lemma count_free n : count occupied (replicate n (HashEntry 0 0)) = 0%nat.
Proof. induction n as [|n IH]; [done|]. cbn [replicate]. rewrite count_occupied_cons, IH. done. Qed.

Lemma table_length_Z : Z.of_nat table_length = CodeCacheHash.CODE_CACHE_HASH_SIZE + CodeCacheHash.CODE_CACHE_HASH_OVERP.
Proof. apply Z2Nat.id. unfold CodeCacheHash.CODE_CACHE_HASH_SIZE, CodeCacheHash.CODE_CACHE_HASH_OVERP. lia. Qed.

Lemma empty_table_usable cfg addr : 0 ≤ addr < 2 ^ 63 → usable cfg addr empty_table.
Proof.
  intros Ha.  pose proof table_length_Z as Hz. unfold CodeCacheHash.CODE_CACHE_HASH_SIZE, CodeCacheHash.CODE_CACHE_HASH_OVERP in Hz.
  unfold empty_table. revert Hz. generalize table_length. intros n Hz.
  constructor; cbn [CodeCacheHash.entries CodeCacheHash.size]; [constructor; cbn [CodeCacheHash.entries CodeCacheHash.size CodeCacheHash.count] | | |].
  - by rewrite length_replicate.
  - by exists 19.
  - apply key_at_lookup with (e := HashEntry 0 0). apply lookup_replicate. rewrite length_replicate. split; [done | lia].
  - by rewrite count_free.
  - intros i e Hi He. apply lookup_replicate in Hi as [-> _]. done.
  - done.
  - apply Forall_replicate. simpl. lia.
  - rewrite length_replicate. lia.
Qed.

Lemma jump_machine_ok : ok jump_machine.
Proof. split; [simpl; lia|]. intros r. unfold get, jump_machine. simpl. destruct (r =? 0); [lia | apply u64_range]. Qed.

Lemma jump_machine_apart : apart 0x10000 jump_machine empty_table.
Proof.
  intros j x Hj Hx. unfold empty_table in Hx. cbn [CodeCacheHash.entries] in Hx. rewrite length_replicate, table_length_Z in Hx.
  unfold CodeCacheHash.CODE_CACHE_HASH_SIZE, CodeCacheHash.CODE_CACHE_HASH_OVERP in Hx. change (get jump_machine sp) with 0x10000010.
  rewrite u64_small by lia. lia.
Qed.

Lemma inline_lookup_refines_witness :
  ∃ th' n text' s', riscv_inline_hash_lookup (dbm_config riscv_compressed true true true 40) 4096 77 0x10000 (small_thread 5) 2
      (4700, λ _, None) 0x2000 ra 12 true true false = Ok (th', (4700 + n, text'))
    ∧ reaches text' jump_machine s' ∧ missed 4096 ra 12 true 2 0 (0x2000 + 2) jump_machine s'.
Proof.
  destruct (inline_lookup_refines (dbm_config riscv_compressed true true true 40) (or_intror eq_refl) 4096 77 0x10000 ltac:(lia)
              (small_thread 5) 2 empty_meta (4700, λ _, None) 0x2000 ra 12 true true) as (n & text' & Hr & _ & _ & Hrun);
    [lia | reflexivity | discriminate | discriminate | rewrite !not_elem_of_cons; repeat split; try discriminate; apply not_elem_of_nil
    | unfold room; cbn [fst]; split_and!; (lia || reflexivity) |].
  destruct (Hrun empty_table ∅ jump_machine) as (s' & Hre & _ & Hres);
    [by apply empty_table_usable | apply represents_replicate | apply jump_machine_ok | reflexivity
    | intros i e Hi; apply lookup_replicate in Hi as [-> _]; split; apply zero_load | apply jump_machine_apart |].
  rewrite lookup_empty in Hres. by eexists _, n, text', s'.
Defined.
End RiscvLookupSpec.
