(* ===== verification/RiscvInst.v ===== *)
(** * The RISC-V instructions that PIE decodes (pie/riscv.txt)

    PIE generates the enumeration of the instructions from its list, in the order
    of the list, so that the instructions of 16 bits precede RISCV_LUI; the
    decoder of the scanner returns one of them. *)
From S2P Require Import Prelude.

Module RiscvInst.

(** [riscv_instruction] of pie-riscv-decoder.h, a constructor per line of
    riscv.txt and one for words that do not decode. *)
Inductive riscv_instruction :=
  | RISCV_C_ILLEGAL | RISCV_C_ADDI4SPN | RISCV_C_FLD | RISCV_C_LW | RISCV_C_LD | RISCV_C_FSD | RISCV_C_SW
  | RISCV_C_SD | RISCV_C_NOP | RISCV_C_ADDI | RISCV_C_JAL | RISCV_C_ADDIW | RISCV_C_LI | RISCV_C_ADDI16SP
  | RISCV_C_LUI | RISCV_C_SRLI | RISCV_C_SRAI | RISCV_C_ANDI | RISCV_C_SUB | RISCV_C_XOR | RISCV_C_OR | RISCV_C_AND
  | RISCV_C_SUBW | RISCV_C_ADDW | RISCV_C_J | RISCV_C_BEQZ | RISCV_C_BNEZ | RISCV_C_SLLI | RISCV_C_FLDSP
  | RISCV_C_LWSP | RISCV_C_FLWSP | RISCV_C_LDSP | RISCV_C_JR | RISCV_C_MV | RISCV_C_EBREAK | RISCV_C_JALR
  | RISCV_C_ADD | RISCV_C_FSDSP | RISCV_C_SWSP | RISCV_C_SDSP | RISCV_LUI | RISCV_AUIPC | RISCV_JAL | RISCV_JALR
  | RISCV_BEQ | RISCV_BNE | RISCV_BLT | RISCV_BGE | RISCV_BLTU | RISCV_BGEU | RISCV_LB | RISCV_LH | RISCV_LW
  | RISCV_LBU | RISCV_LHU | RISCV_SB | RISCV_SH | RISCV_SW | RISCV_ADDI | RISCV_SLTI | RISCV_SLTIU | RISCV_XORI
  | RISCV_ORI | RISCV_ANDI | RISCV_SLLI | RISCV_SRLI | RISCV_SRAI | RISCV_ADD | RISCV_SUB | RISCV_SLL | RISCV_SLT
  | RISCV_SLTU | RISCV_XOR | RISCV_SRL | RISCV_SRA | RISCV_OR | RISCV_AND | RISCV_FENCE | RISCV_ECALL | RISCV_EBREAK
  | RISCV_LWU | RISCV_LD | RISCV_SD | RISCV_ADDIW | RISCV_SLLIW | RISCV_SRLIW | RISCV_SRAIW | RISCV_ADDW
  | RISCV_SUBW | RISCV_SLLW | RISCV_SRLW | RISCV_SRAW | RISCV_FENCEI | RISCV_CSRRW | RISCV_CSRRS | RISCV_CSRRC
  | RISCV_CSRRWI | RISCV_CSRRSI | RISCV_CSRRCI | RISCV_MUL | RISCV_MULH | RISCV_MULHSU | RISCV_MULHU | RISCV_DIV
  | RISCV_DIVU | RISCV_REM | RISCV_REMU | RISCV_MULW | RISCV_DIVW | RISCV_DIVUW | RISCV_REMW | RISCV_REMUW
  | RISCV_LR_W | RISCV_SC_W | RISCV_AMOSWAP_W | RISCV_AMOADD_W | RISCV_AMOXOR_W | RISCV_AMOAND_W | RISCV_AMOOR_W
  | RISCV_AMOMIN_W | RISCV_AMOMAX_W | RISCV_AMOMINU_W | RISCV_AMOMAXU_W | RISCV_LR_D | RISCV_SC_D | RISCV_AMOSWAP_D
  | RISCV_AMOADD_D | RISCV_AMOXOR_D | RISCV_AMOAND_D | RISCV_AMOOR_D | RISCV_AMOMIN_D | RISCV_AMOMAX_D
  | RISCV_AMOMINU_D | RISCV_AMOMAXU_D | RISCV_FLW | RISCV_FSW | RISCV_FMADD_S | RISCV_FMSUB_S | RISCV_FNMSUB_S
  | RISCV_FNMADD_S | RISCV_FADD_S | RISCV_FSUB_S | RISCV_FMUL_S | RISCV_FDIV_S | RISCV_FSQRT_S | RISCV_FSGNJ_S
  | RISCV_FSGNJN_S | RISCV_FSGNJX_S | RISCV_FMIN_S | RISCV_FMAX_S | RISCV_FCVT_W_S | RISCV_FCVT_WU_S | RISCV_FMV_X_W
  | RISCV_FEQ_S | RISCV_FLT_S | RISCV_FLE_S | RISCV_FCLASS_S | RISCV_FCVT_S_W | RISCV_FCVT_S_WU | RISCV_FMV_W_X
  | RISCV_FCVT_L_S | RISCV_FCVT_LU_S | RISCV_FCVT_S_L | RISCV_FCVT_S_LU | RISCV_FLD | RISCV_FSD | RISCV_FMADD_D
  | RISCV_FMSUB_D | RISCV_FNMSUB_D | RISCV_FNMADD_D | RISCV_FADD_D | RISCV_FSUB_D | RISCV_FMUL_D | RISCV_FDIV_D
  | RISCV_FSQRT_D | RISCV_FSGNJ_D | RISCV_FSGNJN_D | RISCV_FSGNJX_D | RISCV_FMIN_D | RISCV_FMAX_D | RISCV_FCVT_S_D
  | RISCV_FCVT_D_S | RISCV_FEQ_D | RISCV_FLT_D | RISCV_FLE_D | RISCV_FCLASS_D | RISCV_FCVT_W_D | RISCV_FCVT_WU_D
  | RISCV_FCVT_D_W | RISCV_FCVT_D_WU | RISCV_FCVT_L_D | RISCV_FCVT_LU_D | RISCV_FMV_X_D | RISCV_FCVT_D_L
  | RISCV_FCVT_D_LU | RISCV_FMV_D_X | RISCV_ADD_UW | RISCV_SH1ADD | RISCV_SH1ADD_UW | RISCV_SH2ADD | RISCV_SH2ADD_UW
  | RISCV_SH3ADD | RISCV_SH3ADD_UW | RISCV_SLLI_UW | RISCV_ANDN | RISCV_ORN | RISCV_XNOR | RISCV_CLZ | RISCV_CLZW
  | RISCV_CTZ | RISCV_CTZW | RISCV_CPOP | RISCV_CPOPW | RISCV_MAX | RISCV_MAXU | RISCV_MIN | RISCV_MINU
  | RISCV_SEXT_B | RISCV_SEXT_H | RISCV_ZEXT_H | RISCV_ROL | RISCV_ROLW | RISCV_ROR | RISCV_RORW | RISCV_RORI
  | RISCV_RORIW | RISCV_ORC_B | RISCV_REV8 | RISCV_CLMUL | RISCV_CLMULH | RISCV_CLMULR | RISCV_BCLR | RISCV_BCLRI
  | RISCV_BEXT | RISCV_BEXTI | RISCV_BINV | RISCV_BINVI | RISCV_BSET | RISCV_BSETI | RISCV_CBO_CLEAN
  | RISCV_CBO_FLUSH | RISCV_CBO_INVAL | RISCV_CBO_ZERO | RISCV_PREFETCH_I | RISCV_PREFETCH_R | RISCV_PREFETCH_W
  | RISCV_CZERO_EQZ | RISCV_CZERO_NEZ | RISCV_FLH | RISCV_FSH | RISCV_FMADD_H | RISCV_FMSUB_H | RISCV_FNMSUB_H
  | RISCV_FNMADD_H | RISCV_FADD_H | RISCV_FSUB_H | RISCV_FMUL_H | RISCV_FDIV_H | RISCV_FSQRT_H | RISCV_FSGNJ_H
  | RISCV_FSGNJN_H | RISCV_FSGNJX_H | RISCV_FMIN_H | RISCV_FMAX_H | RISCV_FCVT_S_H | RISCV_FCVT_H_S | RISCV_FCVT_D_H
  | RISCV_FCVT_H_D | RISCV_FEQ_H | RISCV_FLT_H | RISCV_FLE_H | RISCV_FCLASS_H | RISCV_FCVT_W_H | RISCV_FCVT_WU_H
  | RISCV_FMV_X_H | RISCV_FCVT_H_W | RISCV_FCVT_H_WU | RISCV_FMV_H_X | RISCV_FCVT_L_H | RISCV_FCVT_LU_H
  | RISCV_FCVT_H_L | RISCV_FCVT_H_LU | RISCV_V_OP | RISCV_V_LOAD_B | RISCV_V_LOAD_H | RISCV_V_LOAD_W
  | RISCV_V_LOAD_D | RISCV_V_STORE_B | RISCV_V_STORE_H | RISCV_V_STORE_W | RISCV_V_STORE_D | RISCV_V_AMO_B
  | RISCV_V_AMO_H | RISCV_V_AMO_W | RISCV_V_AMO_D | RISCV_INVALID.

(** The value of the enumeration. *)
Definition enum (i : riscv_instruction) : Z :=
  match i with
  | RISCV_C_ILLEGAL => 0 | RISCV_C_ADDI4SPN => 1 | RISCV_C_FLD => 2 | RISCV_C_LW => 3 | RISCV_C_LD => 4
  | RISCV_C_FSD => 5 | RISCV_C_SW => 6 | RISCV_C_SD => 7 | RISCV_C_NOP => 8 | RISCV_C_ADDI => 9 | RISCV_C_JAL => 10
  | RISCV_C_ADDIW => 11 | RISCV_C_LI => 12 | RISCV_C_ADDI16SP => 13 | RISCV_C_LUI => 14 | RISCV_C_SRLI => 15
  | RISCV_C_SRAI => 16 | RISCV_C_ANDI => 17 | RISCV_C_SUB => 18 | RISCV_C_XOR => 19 | RISCV_C_OR => 20
  | RISCV_C_AND => 21 | RISCV_C_SUBW => 22 | RISCV_C_ADDW => 23 | RISCV_C_J => 24 | RISCV_C_BEQZ => 25
  | RISCV_C_BNEZ => 26 | RISCV_C_SLLI => 27 | RISCV_C_FLDSP => 28 | RISCV_C_LWSP => 29 | RISCV_C_FLWSP => 30
  | RISCV_C_LDSP => 31 | RISCV_C_JR => 32 | RISCV_C_MV => 33 | RISCV_C_EBREAK => 34 | RISCV_C_JALR => 35
  | RISCV_C_ADD => 36 | RISCV_C_FSDSP => 37 | RISCV_C_SWSP => 38 | RISCV_C_SDSP => 39 | RISCV_LUI => 40
  | RISCV_AUIPC => 41 | RISCV_JAL => 42 | RISCV_JALR => 43 | RISCV_BEQ => 44 | RISCV_BNE => 45 | RISCV_BLT => 46
  | RISCV_BGE => 47 | RISCV_BLTU => 48 | RISCV_BGEU => 49 | RISCV_LB => 50 | RISCV_LH => 51 | RISCV_LW => 52
  | RISCV_LBU => 53 | RISCV_LHU => 54 | RISCV_SB => 55 | RISCV_SH => 56 | RISCV_SW => 57 | RISCV_ADDI => 58
  | RISCV_SLTI => 59 | RISCV_SLTIU => 60 | RISCV_XORI => 61 | RISCV_ORI => 62 | RISCV_ANDI => 63 | RISCV_SLLI => 64
  | RISCV_SRLI => 65 | RISCV_SRAI => 66 | RISCV_ADD => 67 | RISCV_SUB => 68 | RISCV_SLL => 69 | RISCV_SLT => 70
  | RISCV_SLTU => 71 | RISCV_XOR => 72 | RISCV_SRL => 73 | RISCV_SRA => 74 | RISCV_OR => 75 | RISCV_AND => 76
  | RISCV_FENCE => 77 | RISCV_ECALL => 78 | RISCV_EBREAK => 79 | RISCV_LWU => 80 | RISCV_LD => 81 | RISCV_SD => 82
  | RISCV_ADDIW => 83 | RISCV_SLLIW => 84 | RISCV_SRLIW => 85 | RISCV_SRAIW => 86 | RISCV_ADDW => 87
  | RISCV_SUBW => 88 | RISCV_SLLW => 89 | RISCV_SRLW => 90 | RISCV_SRAW => 91 | RISCV_FENCEI => 92
  | RISCV_CSRRW => 93 | RISCV_CSRRS => 94 | RISCV_CSRRC => 95 | RISCV_CSRRWI => 96 | RISCV_CSRRSI => 97
  | RISCV_CSRRCI => 98 | RISCV_MUL => 99 | RISCV_MULH => 100 | RISCV_MULHSU => 101 | RISCV_MULHU => 102
  | RISCV_DIV => 103 | RISCV_DIVU => 104 | RISCV_REM => 105 | RISCV_REMU => 106 | RISCV_MULW => 107
  | RISCV_DIVW => 108 | RISCV_DIVUW => 109 | RISCV_REMW => 110 | RISCV_REMUW => 111 | RISCV_LR_W => 112
  | RISCV_SC_W => 113 | RISCV_AMOSWAP_W => 114 | RISCV_AMOADD_W => 115 | RISCV_AMOXOR_W => 116
  | RISCV_AMOAND_W => 117 | RISCV_AMOOR_W => 118 | RISCV_AMOMIN_W => 119 | RISCV_AMOMAX_W => 120
  | RISCV_AMOMINU_W => 121 | RISCV_AMOMAXU_W => 122 | RISCV_LR_D => 123 | RISCV_SC_D => 124 | RISCV_AMOSWAP_D => 125
  | RISCV_AMOADD_D => 126 | RISCV_AMOXOR_D => 127 | RISCV_AMOAND_D => 128 | RISCV_AMOOR_D => 129
  | RISCV_AMOMIN_D => 130 | RISCV_AMOMAX_D => 131 | RISCV_AMOMINU_D => 132 | RISCV_AMOMAXU_D => 133
  | RISCV_FLW => 134 | RISCV_FSW => 135 | RISCV_FMADD_S => 136 | RISCV_FMSUB_S => 137 | RISCV_FNMSUB_S => 138
  | RISCV_FNMADD_S => 139 | RISCV_FADD_S => 140 | RISCV_FSUB_S => 141 | RISCV_FMUL_S => 142 | RISCV_FDIV_S => 143
  | RISCV_FSQRT_S => 144 | RISCV_FSGNJ_S => 145 | RISCV_FSGNJN_S => 146 | RISCV_FSGNJX_S => 147
  | RISCV_FMIN_S => 148 | RISCV_FMAX_S => 149 | RISCV_FCVT_W_S => 150 | RISCV_FCVT_WU_S => 151
  | RISCV_FMV_X_W => 152 | RISCV_FEQ_S => 153 | RISCV_FLT_S => 154 | RISCV_FLE_S => 155 | RISCV_FCLASS_S => 156
  | RISCV_FCVT_S_W => 157 | RISCV_FCVT_S_WU => 158 | RISCV_FMV_W_X => 159 | RISCV_FCVT_L_S => 160
  | RISCV_FCVT_LU_S => 161 | RISCV_FCVT_S_L => 162 | RISCV_FCVT_S_LU => 163 | RISCV_FLD => 164 | RISCV_FSD => 165
  | RISCV_FMADD_D => 166 | RISCV_FMSUB_D => 167 | RISCV_FNMSUB_D => 168 | RISCV_FNMADD_D => 169
  | RISCV_FADD_D => 170 | RISCV_FSUB_D => 171 | RISCV_FMUL_D => 172 | RISCV_FDIV_D => 173 | RISCV_FSQRT_D => 174
  | RISCV_FSGNJ_D => 175 | RISCV_FSGNJN_D => 176 | RISCV_FSGNJX_D => 177 | RISCV_FMIN_D => 178 | RISCV_FMAX_D => 179
  | RISCV_FCVT_S_D => 180 | RISCV_FCVT_D_S => 181 | RISCV_FEQ_D => 182 | RISCV_FLT_D => 183 | RISCV_FLE_D => 184
  | RISCV_FCLASS_D => 185 | RISCV_FCVT_W_D => 186 | RISCV_FCVT_WU_D => 187 | RISCV_FCVT_D_W => 188
  | RISCV_FCVT_D_WU => 189 | RISCV_FCVT_L_D => 190 | RISCV_FCVT_LU_D => 191 | RISCV_FMV_X_D => 192
  | RISCV_FCVT_D_L => 193 | RISCV_FCVT_D_LU => 194 | RISCV_FMV_D_X => 195 | RISCV_ADD_UW => 196
  | RISCV_SH1ADD => 197 | RISCV_SH1ADD_UW => 198 | RISCV_SH2ADD => 199 | RISCV_SH2ADD_UW => 200
  | RISCV_SH3ADD => 201 | RISCV_SH3ADD_UW => 202 | RISCV_SLLI_UW => 203 | RISCV_ANDN => 204 | RISCV_ORN => 205
  | RISCV_XNOR => 206 | RISCV_CLZ => 207 | RISCV_CLZW => 208 | RISCV_CTZ => 209 | RISCV_CTZW => 210
  | RISCV_CPOP => 211 | RISCV_CPOPW => 212 | RISCV_MAX => 213 | RISCV_MAXU => 214 | RISCV_MIN => 215
  | RISCV_MINU => 216 | RISCV_SEXT_B => 217 | RISCV_SEXT_H => 218 | RISCV_ZEXT_H => 219 | RISCV_ROL => 220
  | RISCV_ROLW => 221 | RISCV_ROR => 222 | RISCV_RORW => 223 | RISCV_RORI => 224 | RISCV_RORIW => 225
  | RISCV_ORC_B => 226 | RISCV_REV8 => 227 | RISCV_CLMUL => 228 | RISCV_CLMULH => 229 | RISCV_CLMULR => 230
  | RISCV_BCLR => 231 | RISCV_BCLRI => 232 | RISCV_BEXT => 233 | RISCV_BEXTI => 234 | RISCV_BINV => 235
  | RISCV_BINVI => 236 | RISCV_BSET => 237 | RISCV_BSETI => 238 | RISCV_CBO_CLEAN => 239 | RISCV_CBO_FLUSH => 240
  | RISCV_CBO_INVAL => 241 | RISCV_CBO_ZERO => 242 | RISCV_PREFETCH_I => 243 | RISCV_PREFETCH_R => 244
  | RISCV_PREFETCH_W => 245 | RISCV_CZERO_EQZ => 246 | RISCV_CZERO_NEZ => 247 | RISCV_FLH => 248 | RISCV_FSH => 249
  | RISCV_FMADD_H => 250 | RISCV_FMSUB_H => 251 | RISCV_FNMSUB_H => 252 | RISCV_FNMADD_H => 253
  | RISCV_FADD_H => 254 | RISCV_FSUB_H => 255 | RISCV_FMUL_H => 256 | RISCV_FDIV_H => 257 | RISCV_FSQRT_H => 258
  | RISCV_FSGNJ_H => 259 | RISCV_FSGNJN_H => 260 | RISCV_FSGNJX_H => 261 | RISCV_FMIN_H => 262 | RISCV_FMAX_H => 263
  | RISCV_FCVT_S_H => 264 | RISCV_FCVT_H_S => 265 | RISCV_FCVT_D_H => 266 | RISCV_FCVT_H_D => 267
  | RISCV_FEQ_H => 268 | RISCV_FLT_H => 269 | RISCV_FLE_H => 270 | RISCV_FCLASS_H => 271 | RISCV_FCVT_W_H => 272
  | RISCV_FCVT_WU_H => 273 | RISCV_FMV_X_H => 274 | RISCV_FCVT_H_W => 275 | RISCV_FCVT_H_WU => 276
  | RISCV_FMV_H_X => 277 | RISCV_FCVT_L_H => 278 | RISCV_FCVT_LU_H => 279 | RISCV_FCVT_H_L => 280
  | RISCV_FCVT_H_LU => 281 | RISCV_V_OP => 282 | RISCV_V_LOAD_B => 283 | RISCV_V_LOAD_H => 284
  | RISCV_V_LOAD_W => 285 | RISCV_V_LOAD_D => 286 | RISCV_V_STORE_B => 287 | RISCV_V_STORE_H => 288
  | RISCV_V_STORE_W => 289 | RISCV_V_STORE_D => 290 | RISCV_V_AMO_B => 291 | RISCV_V_AMO_H => 292
  | RISCV_V_AMO_W => 293 | RISCV_V_AMO_D => 294 | RISCV_INVALID => 295
  end.

(** [instruction < RISCV_LUI]. *)
Definition compressed (i : riscv_instruction) : bool := enum i <? enum RISCV_LUI.

Definition inst_length (i : riscv_instruction) : Z := if compressed i then 2 else 4.

Lemma enum_range i : 0 ≤ enum i ≤ enum RISCV_INVALID.
Proof. destruct i; vm_compute; by split. Qed.

Lemma enum_inj i j : enum i = enum j → i = j.
Proof.
  (* The inverse of the enumeration, as a list. *)
  set (all := [
    RISCV_C_ILLEGAL; RISCV_C_ADDI4SPN; RISCV_C_FLD; RISCV_C_LW; RISCV_C_LD; RISCV_C_FSD; RISCV_C_SW; RISCV_C_SD;
    RISCV_C_NOP; RISCV_C_ADDI; RISCV_C_JAL; RISCV_C_ADDIW; RISCV_C_LI; RISCV_C_ADDI16SP; RISCV_C_LUI; RISCV_C_SRLI;
    RISCV_C_SRAI; RISCV_C_ANDI; RISCV_C_SUB; RISCV_C_XOR; RISCV_C_OR; RISCV_C_AND; RISCV_C_SUBW; RISCV_C_ADDW;
    RISCV_C_J; RISCV_C_BEQZ; RISCV_C_BNEZ; RISCV_C_SLLI; RISCV_C_FLDSP; RISCV_C_LWSP; RISCV_C_FLWSP; RISCV_C_LDSP;
    RISCV_C_JR; RISCV_C_MV; RISCV_C_EBREAK; RISCV_C_JALR; RISCV_C_ADD; RISCV_C_FSDSP; RISCV_C_SWSP; RISCV_C_SDSP;
    RISCV_LUI; RISCV_AUIPC; RISCV_JAL; RISCV_JALR; RISCV_BEQ; RISCV_BNE; RISCV_BLT; RISCV_BGE; RISCV_BLTU;
    RISCV_BGEU; RISCV_LB; RISCV_LH; RISCV_LW; RISCV_LBU; RISCV_LHU; RISCV_SB; RISCV_SH; RISCV_SW; RISCV_ADDI;
    RISCV_SLTI; RISCV_SLTIU; RISCV_XORI; RISCV_ORI; RISCV_ANDI; RISCV_SLLI; RISCV_SRLI; RISCV_SRAI; RISCV_ADD;
    RISCV_SUB; RISCV_SLL; RISCV_SLT; RISCV_SLTU; RISCV_XOR; RISCV_SRL; RISCV_SRA; RISCV_OR; RISCV_AND; RISCV_FENCE;
    RISCV_ECALL; RISCV_EBREAK; RISCV_LWU; RISCV_LD; RISCV_SD; RISCV_ADDIW; RISCV_SLLIW; RISCV_SRLIW; RISCV_SRAIW;
    RISCV_ADDW; RISCV_SUBW; RISCV_SLLW; RISCV_SRLW; RISCV_SRAW; RISCV_FENCEI; RISCV_CSRRW; RISCV_CSRRS; RISCV_CSRRC;
    RISCV_CSRRWI; RISCV_CSRRSI; RISCV_CSRRCI; RISCV_MUL; RISCV_MULH; RISCV_MULHSU; RISCV_MULHU; RISCV_DIV;
    RISCV_DIVU; RISCV_REM; RISCV_REMU; RISCV_MULW; RISCV_DIVW; RISCV_DIVUW; RISCV_REMW; RISCV_REMUW; RISCV_LR_W;
    RISCV_SC_W; RISCV_AMOSWAP_W; RISCV_AMOADD_W; RISCV_AMOXOR_W; RISCV_AMOAND_W; RISCV_AMOOR_W; RISCV_AMOMIN_W;
    RISCV_AMOMAX_W; RISCV_AMOMINU_W; RISCV_AMOMAXU_W; RISCV_LR_D; RISCV_SC_D; RISCV_AMOSWAP_D; RISCV_AMOADD_D;
    RISCV_AMOXOR_D; RISCV_AMOAND_D; RISCV_AMOOR_D; RISCV_AMOMIN_D; RISCV_AMOMAX_D; RISCV_AMOMINU_D; RISCV_AMOMAXU_D;
    RISCV_FLW; RISCV_FSW; RISCV_FMADD_S; RISCV_FMSUB_S; RISCV_FNMSUB_S; RISCV_FNMADD_S; RISCV_FADD_S; RISCV_FSUB_S;
    RISCV_FMUL_S; RISCV_FDIV_S; RISCV_FSQRT_S; RISCV_FSGNJ_S; RISCV_FSGNJN_S; RISCV_FSGNJX_S; RISCV_FMIN_S;
    RISCV_FMAX_S; RISCV_FCVT_W_S; RISCV_FCVT_WU_S; RISCV_FMV_X_W; RISCV_FEQ_S; RISCV_FLT_S; RISCV_FLE_S;
    RISCV_FCLASS_S; RISCV_FCVT_S_W; RISCV_FCVT_S_WU; RISCV_FMV_W_X; RISCV_FCVT_L_S; RISCV_FCVT_LU_S; RISCV_FCVT_S_L;
    RISCV_FCVT_S_LU; RISCV_FLD; RISCV_FSD; RISCV_FMADD_D; RISCV_FMSUB_D; RISCV_FNMSUB_D; RISCV_FNMADD_D;
    RISCV_FADD_D; RISCV_FSUB_D; RISCV_FMUL_D; RISCV_FDIV_D; RISCV_FSQRT_D; RISCV_FSGNJ_D; RISCV_FSGNJN_D;
    RISCV_FSGNJX_D; RISCV_FMIN_D; RISCV_FMAX_D; RISCV_FCVT_S_D; RISCV_FCVT_D_S; RISCV_FEQ_D; RISCV_FLT_D;
    RISCV_FLE_D; RISCV_FCLASS_D; RISCV_FCVT_W_D; RISCV_FCVT_WU_D; RISCV_FCVT_D_W; RISCV_FCVT_D_WU; RISCV_FCVT_L_D;
    RISCV_FCVT_LU_D; RISCV_FMV_X_D; RISCV_FCVT_D_L; RISCV_FCVT_D_LU; RISCV_FMV_D_X; RISCV_ADD_UW; RISCV_SH1ADD;
    RISCV_SH1ADD_UW; RISCV_SH2ADD; RISCV_SH2ADD_UW; RISCV_SH3ADD; RISCV_SH3ADD_UW; RISCV_SLLI_UW; RISCV_ANDN;
    RISCV_ORN; RISCV_XNOR; RISCV_CLZ; RISCV_CLZW; RISCV_CTZ; RISCV_CTZW; RISCV_CPOP; RISCV_CPOPW; RISCV_MAX;
    RISCV_MAXU; RISCV_MIN; RISCV_MINU; RISCV_SEXT_B; RISCV_SEXT_H; RISCV_ZEXT_H; RISCV_ROL; RISCV_ROLW; RISCV_ROR;
    RISCV_RORW; RISCV_RORI; RISCV_RORIW; RISCV_ORC_B; RISCV_REV8; RISCV_CLMUL; RISCV_CLMULH; RISCV_CLMULR;
    RISCV_BCLR; RISCV_BCLRI; RISCV_BEXT; RISCV_BEXTI; RISCV_BINV; RISCV_BINVI; RISCV_BSET; RISCV_BSETI;
    RISCV_CBO_CLEAN; RISCV_CBO_FLUSH; RISCV_CBO_INVAL; RISCV_CBO_ZERO; RISCV_PREFETCH_I; RISCV_PREFETCH_R;
    RISCV_PREFETCH_W; RISCV_CZERO_EQZ; RISCV_CZERO_NEZ; RISCV_FLH; RISCV_FSH; RISCV_FMADD_H; RISCV_FMSUB_H;
    RISCV_FNMSUB_H; RISCV_FNMADD_H; RISCV_FADD_H; RISCV_FSUB_H; RISCV_FMUL_H; RISCV_FDIV_H; RISCV_FSQRT_H;
    RISCV_FSGNJ_H; RISCV_FSGNJN_H; RISCV_FSGNJX_H; RISCV_FMIN_H; RISCV_FMAX_H; RISCV_FCVT_S_H; RISCV_FCVT_H_S;
    RISCV_FCVT_D_H; RISCV_FCVT_H_D; RISCV_FEQ_H; RISCV_FLT_H; RISCV_FLE_H; RISCV_FCLASS_H; RISCV_FCVT_W_H;
    RISCV_FCVT_WU_H; RISCV_FMV_X_H; RISCV_FCVT_H_W; RISCV_FCVT_H_WU; RISCV_FMV_H_X; RISCV_FCVT_L_H; RISCV_FCVT_LU_H;
    RISCV_FCVT_H_L; RISCV_FCVT_H_LU; RISCV_V_OP; RISCV_V_LOAD_B; RISCV_V_LOAD_H; RISCV_V_LOAD_W; RISCV_V_LOAD_D;
    RISCV_V_STORE_B; RISCV_V_STORE_H; RISCV_V_STORE_W; RISCV_V_STORE_D; RISCV_V_AMO_B; RISCV_V_AMO_H; RISCV_V_AMO_W;
    RISCV_V_AMO_D; RISCV_INVALID]).
  assert (∀ i, all !! Z.to_nat (enum i) = Some i) as H by by intros [].
  intros He. pose proof (H i) as Hi. rewrite He, H in Hi. by injection Hi.
Qed.

#[global] Instance riscv_instruction_eq_dec : EqDecision riscv_instruction.
Proof.
  intros i j. destruct (decide (enum i = enum j)) as [He|He]; [left; by apply enum_inj | right; congruence].
Defined.

Lemma inst_length_bounds i : 2 ≤ inst_length i ≤ 4.
Proof. unfold inst_length. case_match; lia. Qed.

End RiscvInst.
