(* ===== verification/Pie.v ===== *)
(** * Instruction fields (pie/generate_common.rb, pie/generate_field-decoder.rb)

    The plugin API reads the fields of an instruction with functions that PIE
    generates from the encodings of pie/*.txt. An encoding is a bitmap: a
    character per bit, where a letter stands for a bit of a field. The file
    models what the generated field decoders compute from the bitmap, and the
    part of [mambo_context] that describes the current instruction. *)
From Stdlib Require Export Ascii.
From stdpp Require Export strings.
From S2P Require Import Prelude.

Module Pie.

(** [process_file] joins the groups of the bitmap. *)
Fixpoint join (bitmap : string) : string :=
  match bitmap with
  | EmptyString => EmptyString
  | String c s => if Ascii.eqb c " "%char then join s else String c (join s)
  end.

(** [bitmap.index(label)] and [bitmap.rindex(label)]. *)
Fixpoint index (label : ascii) (s : string) : option Z :=
  match s with
  | EmptyString => None
  | String c s => if Ascii.eqb c label then Some 0 else (λ n, n + 1) <$> index label s
  end.
Fixpoint rindex (label : ascii) (s : string) : option Z :=
  match s with
  | EmptyString => None
  | String c s =>
      match rindex label s with
      | Some n => Some (n + 1)
      | None => if Ascii.eqb c label then Some 0 else None
      end
  end.

(** The generator stops when the label does not occur; here its fields are
    empty. *)
Definition get_field_shift (bitmap : string) (label : ascii) : Z :=
  match rindex label (join bitmap) with
  | Some r => Z.of_nat (String.length (join bitmap)) - r - 1
  | None => 0
  end.
Definition get_field_mask (bitmap : string) (label : ascii) : Z :=
  match rindex label (join bitmap), index label (join bitmap) with
  | Some r, Some i => Z.shiftl 1 (r - i + 1) - 1
  | _, _ => 0
  end.

(** [( instruction >> shift) & mask] of a generated field decoder. *)
Definition field (bitmap : string) (label : ascii) (instruction : Z) : Z :=
  Z.land (Z.shiftr instruction (get_field_shift bitmap label)) (get_field_mask bitmap label).

(** The instruction word, from the halfwords at the address: of 16-bit and of
    32-bit Thumb and RISC-V encodings, and of A32 and A64 encodings. *)
Definition word16 (hw : Z → Z) : Z := hw 0.
Definition word_thumb (hw : Z → Z) : Z := Z.lor (Z.shiftl (hw 0) 16) (hw 1).
Definition word_riscv (hw : Z → Z) : Z := Z.lor (Z.shiftl (hw 1) 16) (hw 0).
Definition word_arm (hw : Z → Z) : Z := Z.lor (Z.shiftl (hw 1) 16) (hw 0).

(** [struct code_ctx] of api/plugin_support.h, as far as the plugin API for loads
    and stores uses it: [ctx->code.inst] (-1 is [None]), the halfwords at
    [ctx->code.read_address], that address and the number of registers on the
    stack. *)
Record code_ctx (inst : Type) := MkCodeCtx {
  code_inst : option inst;
  code : Z → Z;
  read_address : Z;
  plugin_pushed_reg_count : Z }.
Arguments MkCodeCtx {inst}.
Arguments code_inst {inst}.
Arguments code {inst}.
Arguments read_address {inst}.
Arguments plugin_pushed_reg_count {inst}.

(** ** A field is a bit range *)

(** The [w] bits of [x] from bit [pos] on. *)
Definition slice (pos w x : Z) : Z := (x / 2 ^ pos) mod 2 ^ w.

Lemma field_slice bitmap label pos w x :
  get_field_shift bitmap label = pos → get_field_mask bitmap label = 2 ^ w - 1 → 0 ≤ pos → 0 ≤ w →
  field bitmap label x = slice pos w x.
Proof.
  intros Hs Hm Hp Hw. unfold field, slice. by rewrite Hs, Hm, land_pow2_mask, Z.shiftr_div_pow2 by done.
Qed.

Lemma slice_range pos w x : 0 ≤ w → 0 ≤ slice pos w x < 2 ^ w.
Proof. intros. apply Z.mod_pos_bound, Z.pow_pos_nonneg; lia. Qed.

(** A range of bits from two adjacent ones. *)
Lemma slice_split pos a b x :
  0 ≤ pos → 0 ≤ a → 0 ≤ b → slice pos (a + b) x = slice pos a x + 2 ^ a * slice (pos + a) b x.
Proof.
  intros Hp Ha Hb. unfold slice. rewrite !Z.pow_add_r by done.
  assert (0 < 2 ^ pos) by (apply Z.pow_pos_nonneg; lia). assert (0 < 2 ^ a) by (apply Z.pow_pos_nonneg; lia).
  assert (0 < 2 ^ b) by (apply Z.pow_pos_nonneg; lia).
  rewrite Z.rem_mul_r by lia. by rewrite Z.div_div by lia.
Qed.

(** Adjacent bit ranges that are read as one. *)
Lemma slice_parts pos a b x :
  0 ≤ pos → 0 ≤ a → 0 ≤ b →
  slice pos (a + b) x / 2 ^ a = slice (pos + a) b x ∧ slice pos (a + b) x mod 2 ^ a = slice pos a x.
Proof.
  intros Hp Ha Hb. rewrite slice_split by done. pose proof (slice_range pos a x Ha) as Hr.
  rewrite (Z.mul_comm (2 ^ a)). split.
  - rewrite Z.div_add, Z.div_small by lia. lia.
  - rewrite Z.mod_add by lia. by apply Z.mod_small.
Qed.

Lemma slice_0 w x : slice 0 w x = x mod 2 ^ w.
Proof. unfold slice. by rewrite Z.div_1_r. Qed.

Lemma slice_0_small w x : 0 ≤ x < 2 ^ w → slice 0 w x = x.
Proof. intros. rewrite slice_0. by apply Z.mod_small. Qed.

Lemma slice_bit pos x : slice pos 1 x = 0 ∨ slice pos 1 x = 1.
Proof. pose proof (slice_range pos 1 x ltac:(lia)). lia. Qed.

(** A slice of a slice of the same width. *)
Lemma slice_small_slice pos w x : 0 ≤ w → slice 0 w (slice pos w x) = slice pos w x.
Proof. intros. by apply slice_0_small, slice_range. Qed.

Lemma slice_slice w x : 0 ≤ w → slice 0 w (slice 0 w x) = slice 0 w x.
Proof. apply slice_small_slice. Qed.

(** Shifts and masks as slices. *)
Lemma slice_shiftr pos w x : 0 ≤ pos → slice 0 w (Z.shiftr x pos) = slice pos w x.
Proof. intros. by rewrite slice_0, Z.shiftr_div_pow2. Qed.

Lemma land_slice w x : 0 ≤ w → Z.land x (2 ^ w - 1) = slice 0 w x.
Proof. intros. by rewrite slice_0, land_pow2_mask. Qed.

Lemma shiftr_slice pos w x : 0 ≤ pos → 0 ≤ w → Z.land (Z.shiftr x pos) (2 ^ w - 1) = slice pos w x.
Proof. intros. by rewrite land_slice, slice_shiftr. Qed.

(** Bits put above the others. *)
Lemma lor_disjoint k a b : 0 ≤ k → 0 ≤ b < 2 ^ k → Z.lor (Z.shiftl a k) b = a * 2 ^ k + b.
Proof.
  intros Hk Hb. rewrite <- Z.shiftl_mul_pow2 by done.
  assert (Z.land (Z.shiftl a k) b = 0) as Hz.
  { apply Z.bits_inj'. intros n Hn. rewrite Z.land_spec, Z.shiftl_spec, Z.bits_0 by done.
    destruct (decide (n < k)); [by rewrite Z.testbit_neg_r by lia|].
    rewrite <- (Z.mod_small b (2 ^ k)) by done. rewrite Z.mod_pow2_bits_high by lia. apply andb_false_r. }
  by rewrite Z.add_nocarry_lxor, Z.lxor_lor by done.
Qed.

(** A mask of the bits from [k] on. *)
Lemma land_high a k x :
  0 ≤ a → 0 ≤ k → 0 ≤ x < 2 ^ (a + k) → Z.land x (Z.shiftl (2 ^ a - 1) k) = x / 2 ^ k * 2 ^ k.
Proof.
  intros Ha Hk Hx. rewrite <- (Z.shiftl_mul_pow2 (x / 2 ^ k)) by done.
  apply Z.bits_inj'. intros n Hn. rewrite Z.land_spec, !Z.shiftl_spec, Z.sub_1_r, <- Z.ones_equiv by done.
  destruct (decide (n < k)); [rewrite !(Z.testbit_neg_r _ (n - k)) by lia; apply andb_false_r|].
  rewrite Z.div_pow2_bits by lia. replace (n - k + k) with n by lia.
  destruct (decide (n < a + k)); [rewrite Z.ones_spec_low by lia; apply andb_true_r|].
  rewrite Z.ones_spec_high, andb_false_r by lia. symmetry.
  rewrite <- (Z.mod_small x (2 ^ (a + k))) by done. apply Z.mod_pow2_bits_high. lia.
Qed.

Lemma land_upper k x :
  0 ≤ k → 0 ≤ x < 2 ^ (2 * k) → (Z.land x (Z.shiftl (2 ^ k - 1) k) =? 0) = (x / 2 ^ k =? 0).
Proof.
  intros Hk Hx. rewrite land_high by (done || by replace (k + k) with (2 * k) by lia).
  pose proof (Z.pow_pos_nonneg 2 k ltac:(lia) Hk).
  destruct (Z.eqb_spec (x / 2 ^ k) 0) as [->|Hne]; [done|]. apply Z.eqb_neq. nia.
Qed.

(** ** Words that an encoding matches *)

(** The positions and the values of the fixed bits of a bitmap. *)
Fixpoint fixed_mask (s : string) (acc : Z) : Z :=
  match s with
  | EmptyString => acc
  | String c s => fixed_mask s (2 * acc + (if Ascii.eqb c "0"%char || Ascii.eqb c "1"%char then 1 else 0))
  end.
Fixpoint fixed_value (s : string) (acc : Z) : Z :=
  match s with
  | EmptyString => acc
  | String c s => fixed_value s (2 * acc + (if Ascii.eqb c "1"%char then 1 else 0))
  end.
Definition matches (bitmap : string) (w : Z) : bool :=
  Z.land w (fixed_mask (join bitmap) 0) =? fixed_value (join bitmap) 0.

Lemma slice_testbit pos w x n :
  0 ≤ pos → 0 ≤ w → 0 ≤ n → Z.testbit (slice pos w x) n = (n <? w) && Z.testbit x (pos + n).
Proof.
  intros Hp Hw Hn. unfold slice. destruct (Z.ltb_spec n w); simpl.
  - rewrite Z.mod_pow2_bits_low, Z.div_pow2_bits by lia. f_equal. lia.
  - by rewrite Z.mod_pow2_bits_high by lia.
Qed.

(** Fixed bits have their value. *)
Lemma matches_slice bitmap x pos w :
  matches bitmap x = true →
  (0 <=? pos) && (0 <=? w) && (slice pos w (fixed_mask (join bitmap) 0) =? 2 ^ w - 1) = true →
  slice pos w x = slice pos w (fixed_value (join bitmap) 0).
Proof.
  intros Hm Hf. rewrite !andb_true_iff, !Z.leb_le, Z.eqb_eq in Hf. destruct Hf as [[Hp Hw] Hf].
  apply Z.eqb_eq in Hm. rewrite <- Hm. apply Z.bits_inj'. intros n Hn.
  rewrite !slice_testbit, Z.land_spec by done. destruct (Z.ltb_spec n w); [|done]. simpl.
  assert (Z.testbit (slice pos w (fixed_mask (join bitmap) 0)) n = true) as Ht.
  { rewrite Hf, Z.sub_1_r, <- Z.ones_equiv. by rewrite Z.ones_spec_low by lia. }
  rewrite slice_testbit in Ht by done. apply andb_true_iff in Ht as [_ ->]. by rewrite andb_true_r.
Qed.

(** Replaces every field of a known encoding by its bit range. *)
Ltac fields :=
  repeat match goal with
  | |- context [field ?bm ?l ?x] =>
      let p := eval vm_compute in (get_field_shift bm l) in
      let w := eval vm_compute in (Z.log2 (get_field_mask bm l + 1)) in
      rewrite (field_slice bm l p w x) by (vm_compute; (reflexivity || discriminate))
  end.
(** The range of a field of [n] bits, computed from its encoding. *)
Lemma field_range (bitmap : string) (l : ascii) (n x : Z) :
  0 ≤ get_field_shift bitmap l → 0 ≤ n → get_field_mask bitmap l = 2 ^ n - 1 → 0 ≤ field bitmap l x < 2 ^ n.
Proof. intros Hs Hw Hm. rewrite (field_slice bitmap l _ n x eq_refl) by done. by apply slice_range. Qed.

Ltac field_bits n := apply (field_range _ _ n); [by vm_compute | done | by vm_compute].
End Pie.
