(* ===== verification/RiscvScan.v ===== *)
(** * The RISC-V scanner (arch/riscv/scanner_riscv.c)

    [scan_riscv] translates a basic block: it decodes the instructions of the
    application one by one, copies most of them, replaces those that read the
    program counter or call the system, and ends at the first branch, which
    becomes an exit of the block. The code goes to the block, and to overflow
    blocks when that is full; plugins are called around every instruction. The
    decoder is generated by PIE and a parameter. *)
From S2P Require Import Prelude LinearProbe CodeCacheHash LinkedList AddressTable Dbm.
From S2P Require Import RegList Plugin Deliver RiscvImm RiscvAsm RiscvEmit RiscvContext RiscvProg RiscvExec RiscvExit RiscvLookup.
From S2P Require Import RiscvInst Pie.
Import Dbm RegList Plugin Deliver RiscvImm RiscvEmit RiscvContext RiscvAsm RiscvProg RiscvExec RiscvExit RiscvLookup RiscvInst.

#[local] Open Scope Z_scope.

Module RiscvScan.

Definition MIN_FSPACE : Z := 56.
Definition BRANCH_FSPACE : Z := 152.
Definition REG_JUMP_FSPACE : Z := 196.

(** An instruction of the application that was copied: its size and its bits. *)
Record raw := MkRaw { raw_size : Z; raw_bits : Z }.

Definition rawmem := Z → option raw.

(** Writing [n] bytes at [a] makes the instructions they overlap unusable. *)
Definition erase {A} (size : A → Z) (a n : Z) (m : Z → option A) : Z → option A := λ x,
  match m x with Some j => if (x <? a + n) && (a <? x + size j) then None else Some j | None => None end.

(** The build options: the extensions for which the compiler defines
    [__riscv_muldiv], [__riscv_atomic], [__riscv_fdiv] and [__riscv_flen] 64. *)
Record march := MkMarch { muldiv : bool; atomic : bool; fdiv : bool; flen64 : bool }.
Definition rv64g : march := MkMarch true true true true.

Section scanner.
Context (cfg : config) {T : Type} `{!AddressTable T (TABLE_SIZE cfg)} (ext : march).
Context (dispatcher_addr trace_head_incr_addr syscall_wrapper_addr entries_addr : Z).
(** [riscv_decode], on the halfwords at an address. *)
Context (riscv_decode : (Z → Z) → riscv_instruction).
(** The halfwords of the application. *)
Context (source : Z → Z).
Notation t := (cfg_target cfg).
Notation LUI := (enum RISCV_LUI).

(** The thread and the code cache: emitted and copied instructions. *)
Record world := MkWorld { w_th : dbm_thread T; w_code : cmem; w_raw : rawmem }.

(** The halfwords from an address on. *)
Definition code_from (read_address : Z) : Z → Z := λ k, source (read_address + 2 * k).

(** A state of the scanner: besides the code cache the ids and the data of
    the thread for plugins, the read and write pointers and the end of the
    space. *)
Record scan_state := MkScan {
  s_ids : Z * Z * list Z;
  s_world : world;
  s_read : Z;
  s_write : Z;
  s_data : Z;
  s_stop : bool }.

Definition set_actual_id (v : Z) (r : dbm_code_cache_meta) : dbm_code_cache_meta :=
  MkMeta (source_addr r) (tpc r) (exit_branch_type r) v (exit_branch_addr r) (branch_taken_addr r)
    (branch_skipped_addr r) (Dbm.branch_condition r) (branch_cache_status r) (rn r) (rs1 r) (rs2 r) (next_prediction_slot r)
    (ihlu_address r) (number_of_predictions r) (link r) (imm r) (rd r) (Dbm.inst r) (read_addr r) (trampoline_addr r)
    (trampoline_slots_used r) (free_b r) (linked_from r) (saved_exit r).
Definition set_trampoline (a : option Z) (n : Z) (r : dbm_code_cache_meta) : dbm_code_cache_meta :=
  MkMeta (source_addr r) (tpc r) (exit_branch_type r) (actual_id r) (exit_branch_addr r) (branch_taken_addr r)
    (branch_skipped_addr r) (Dbm.branch_condition r) (branch_cache_status r) (rn r) (rs1 r) (rs2 r) (next_prediction_slot r)
    (ihlu_address r) (number_of_predictions r) (link r) (imm r) (rd r) (Dbm.inst r) (read_addr r) a n (free_b r)
    (linked_from r) (saved_exit r).

(** Emitted code replaces what was copied to the same place before. *)
Definition emitted (w : world) (write_p : Z) (r : dbm_thread T * out) : world * Z :=
  (MkWorld (fst r) (snd (snd r)) (erase raw_size write_p (fst (snd r) - write_p) (w_raw w)), fst (snd r)).

Definition emit_code (l : list inst) (w : world) (write_p : Z) : world * Z :=
  emitted w write_p (w_th w, emit l (write_p, w_code w)).

(** [copy_riscv] and [copy_riscv_compressed]. *)
Definition copy_raw (j : raw) (w : world) (write_p : Z) : world * Z :=
  (MkWorld (w_th w) (erase inst_size write_p (raw_size j) (w_code w))
     (λ x, if x =? write_p then Some j else erase raw_size write_p (raw_size j) (w_raw w) x),
   write_p + raw_size j).

(** A block is left when less than [size] bytes are free: for the next block of
    the cache without, for another one with a jump. *)
Definition riscv_check_free_space (w : world) (write_p data_p size cur_block : Z) : outcome (world * Z * Z) :=
  if data_p <=? write_p + size then
    r ← allocate_bb_overflow cfg (w_th w);
    let basic_block := fst r in
    th ← upd_meta basic_block (set_actual_id cur_block) (snd r);
    let block := block_addr cfg th basic_block in
    x ← (if negb (block =? data_p) then
           match riscv_jal_helper write_p block zero with
           | Some i => Ok (fst (emit_code [i] (MkWorld th (w_code w) (w_raw w)) write_p), block)
           | None => Err AssertFail
           end
         else Ok (MkWorld th (w_code w) (w_raw w), write_p));
    Ok (fst x, snd x, block + BASIC_BLOCK_SIZE cfg * 4)
  else Ok (w, write_p, data_p).

(** ** Plugins *)

#[export] Instance riscv_stack : Stack world := {|
  push_regs w write_p regs := l ← riscv_push t regs; let r := emit_code l w write_p in Ok (snd r, fst r);
  pop_regs w write_p regs := l ← riscv_pop t regs; let r := emit_code l w write_p in Ok (snd r, fst r) |}.

(** Whether the instruction is replaced, the read address and the state. [inst]
    is -1 outside of instruction events; [read] is the address to report. *)
Definition riscv_scanner_deliver_callbacks (g : global world) (watched : list (Z * mambo_callback world))
    (cb_id : mambo_cb_idx) (read inst basic_block : Z) (type : cc_type) (allow_write : bool) (s : scan_state)
    : outcome (bool * Z * scan_state) :=
  if 0 <? free_plugin g then
    let '(tid, parent, priv) := s_ids s in
    let c := set_mambo_context_code (Some (MkPThread tid parent priv (s_world s))) cb_id (cc_type_enum type) basic_block
               RISCV_INST inst (AL t) read (Some (s_write s)) (Some (s_data s)) (Some (s_stop s)) in
    x ← deliver_event (λ w write data, riscv_check_free_space w write data MIN_FSPACE basic_block) g watched cb_id read allow_write
          c (s_write s) (s_data s);
    let '(replaced, c, write, data, read) := x in
    k ← code_of c;
    p ← thread_of c;
    Ok (replaced, read,
        MkScan (Plugin.tid p, parent_tid p, plugin_priv p) (Plugin.world p) (s_read s) write data (default false (stop k)))
  else Ok (false, read, s).
(** ** The first pass: the kind of the first branch *)

Definition exit_kind (i : riscv_instruction) : option branch_type :=
  match i with
  | RISCV_C_JAL | RISCV_C_J | RISCV_JAL => Some jal_riscv
  | RISCV_C_JR | RISCV_C_JALR | RISCV_JALR => Some jalr_riscv
  | RISCV_C_BEQZ | RISCV_C_BNEZ | RISCV_BEQ | RISCV_BNE | RISCV_BLT | RISCV_BGE | RISCV_BLTU | RISCV_BGEU => Some branch_riscv
  | RISCV_LR_W | RISCV_SC_W | RISCV_LR_D | RISCV_SC_D => Some atomic_memory_riscv
  | RISCV_INVALID => Some unknown
  | _ => None
  end.

Definition next_instruction (i : riscv_instruction) (read_address : Z) : Z := read_address + inst_length i.

Fixpoint pass1_riscv (fuel : nat) (read_address : Z) : outcome branch_type :=
  match fuel with
  | O => Err OutOfFuel
  | S fuel =>
      let i := riscv_decode (code_from read_address) in
      match exit_kind i with Some ty => Ok ty | None => pass1_riscv fuel (next_instruction i read_address) end
  end.

(** ** One instruction *)

Definition cfield (read_address : Z) (encoding : string) (l : ascii) : Z := Pie.field encoding l (Pie.word16 (code_from read_address)).
Definition wfield (read_address : Z) (encoding : string) (l : ascii) : Z := Pie.field encoding l (Pie.word_riscv (code_from read_address)).

Definition with_space (size basic_block : Z) (s : scan_state) : outcome scan_state :=
  x ← riscv_check_free_space (s_world s) (s_write s) (s_data s) size basic_block;
  let '(w, write, data) := x in Ok (MkScan (s_ids s) w (s_read s) write data (s_stop s)).

(** Code that one of the emitters of RiscvExit and RiscvLookup writes. *)
Definition run_out (f : dbm_thread T → out → outcome (dbm_thread T * out)) (s : scan_state) : outcome scan_state :=
  r ← f (w_th (s_world s)) (s_write s, w_code (s_world s));
  let '(w, write) := emitted (s_world s) (s_write s) r in
  Ok (MkScan (s_ids s) w (s_read s) write (s_data s) (s_stop s)).

Definition put_code (l : list inst) (s : scan_state) : scan_state :=
  let '(w, write) := emit_code l (s_world s) (s_write s) in MkScan (s_ids s) w (s_read s) write (s_data s) (s_stop s).

Definition put_raw (j : raw) (s : scan_state) : scan_state :=
  let '(w, write) := copy_raw j (s_world s) (s_write s) in MkScan (s_ids s) w (s_read s) write (s_data s) (s_stop s).

Definition copy_riscv_compressed (s : scan_state) : scan_state := put_raw (MkRaw 2 (Pie.word16 (code_from (s_read s)))) s.
Definition copy_riscv (s : scan_state) : scan_state := put_raw (MkRaw 4 (Pie.word_riscv (code_from (s_read s)))) s.

Definition end_block (s : scan_state) : scan_state :=
  MkScan (s_ids s) (s_world s) (s_read s) (s_write s) (s_data s) true.

(** Fields of the encodings of pie/riscv.txt. *)
Definition C_J_TXT : string := "101aaaaa aaaaaa01".
Definition C_BEQZ_TXT : string := "110aaabb bccccc01".
Definition C_JR_TXT : string := "1000aaaa a0000010".
Definition C_JALR_TXT : string := "1001aaaa a0000010".
Definition AUIPC_TXT : string := "aaaaaaaa aaaaaaaa aaaabbbb b0010111".
Definition JAL_TXT : string := "aaaaaaaa aaaaaaaa aaaabbbb b1101111".
Definition JALR_TXT : string := "aaaaaaaa aaaabbbb b000cccc c1100111".
Definition BRANCH_TXT : string := "aaaaaaab bbbbcccc cdddeeee e1100011".

Definition scan_jump (i : riscv_instruction) (basic_block rd target : Z) (s : scan_state) : outcome scan_state :=
  s ← run_out (λ th st, riscv_jump t dispatcher_addr LUI th (s_read s) (enum i) basic_block rd target st) s;
  Ok (end_block s).

Definition scan_branch (i : riscv_instruction) (basic_block cond rs1 rs2 target : Z) (s : scan_state) : outcome scan_state :=
  s ← with_space BRANCH_FSPACE basic_block s;
  s ← run_out (λ th st, riscv_cond_branch t dispatcher_addr LUI th (s_read s) (enum i) basic_block st cond rs1 rs2 target) s;
  Ok (end_block s).

Definition scan_jump_register (i : riscv_instruction) (basic_block rd rs1 imm : Z) (s : scan_state) : outcome scan_state :=
  s ← with_space REG_JUMP_FSPACE basic_block s;
  s ← run_out (λ th st, riscv_jump_register cfg dispatcher_addr LUI entries_addr th (s_read s) (enum i) basic_block st rd rs1 imm) s;
  Ok (end_block s).

(** A word that does not decode ends the block, unless it is its first. *)
Definition scan_invalid (i : riscv_instruction) (basic_block start_scan : Z) (s : scan_state) : outcome scan_state :=
  if negb (s_read s =? start_scan) then scan_jump i basic_block zero (s_read s) s else Err Hang.

(** The system call wrapper is called with the return address in s0, and five
    words are left on the stack for it to fill and the code behind to restore. *)
Definition scan_ecall (s : scan_state) : outcome scan_state :=
  push ← riscv_push_offset t (reg_mask [s0; s1; ra]) 2;
  ret ← riscv_copy_to_reg s0 (u64 (s_read s + 4));
  let s := put_code (push ++ ret) s in
  match riscv_jalr_helper (s_write s) syscall_wrapper_addr ra s1 with
  | None => Err AssertFail
  | Some call => restore ← riscv_restore_context t; Ok (put_code (call ++ restore) s)
  end.

Definition has_compressed : bool := match t with riscv_compressed => true | _ => false end.

Definition scan_compressed (i : riscv_instruction) (basic_block : Z) (s : scan_state) : outcome scan_state :=
  let pc := s_read s in
  match i with
  | RISCV_C_J => scan_jump i basic_block zero (u64 (pc + riscv_decode_cj_imm (cfield pc C_J_TXT "a"%char))) s
  | RISCV_C_BEQZ | RISCV_C_BNEZ =>
      let f := cfield pc C_BEQZ_TXT in
      scan_branch i basic_block (if decide (i = RISCV_C_BEQZ) then 0 else 1) (f "b"%char + s0) zero
        (u64 (pc + riscv_decode_cb_offset (f "a"%char) (f "c"%char))) s
  | RISCV_C_JR => scan_jump_register i basic_block zero (cfield pc C_JR_TXT "a"%char) 0 s
  | RISCV_C_JALR => scan_jump_register i basic_block ra (cfield pc C_JALR_TXT "a"%char) 0 s
  | RISCV_C_ILLEGAL | RISCV_C_ADDI4SPN | RISCV_C_FLD | RISCV_C_LW | RISCV_C_LD | RISCV_C_FSD | RISCV_C_SW
    | RISCV_C_SD | RISCV_C_NOP | RISCV_C_ADDI | RISCV_C_ADDIW | RISCV_C_LI | RISCV_C_ADDI16SP | RISCV_C_LUI
    | RISCV_C_SRLI | RISCV_C_SRAI | RISCV_C_ANDI | RISCV_C_SUB | RISCV_C_XOR | RISCV_C_OR | RISCV_C_AND
    | RISCV_C_SUBW | RISCV_C_ADDW | RISCV_C_SLLI | RISCV_C_FLDSP | RISCV_C_LWSP | RISCV_C_LDSP | RISCV_C_ADD
    | RISCV_C_FSDSP | RISCV_C_SWSP | RISCV_C_SDSP | RISCV_C_MV | RISCV_C_EBREAK => Ok (copy_riscv_compressed s)
  | _ => Err Hang
  end.

(** An instruction that is copied where its extension is built in, and otherwise
    not a case of the switch; without double-precision floating point the cases
    run into that of RISCV_INVALID. *)
Definition scan_extension (built : bool) (i : riscv_instruction) (basic_block start_scan : Z) (s : scan_state) : outcome scan_state :=
  if negb built then Err Hang
  else if flen64 ext then Ok (copy_riscv s) else scan_invalid i basic_block start_scan s.

Definition scan_inst (i : riscv_instruction) (basic_block start_scan : Z) (s : scan_state) : outcome scan_state :=
  let pc := s_read s in
  match i with
  | RISCV_AUIPC =>
      let f := wfield pc AUIPC_TXT in
      l ← riscv_copy_to_reg (f "b"%char) (u64 (pc + sign_extend 32 (u32 (Z.shiftl (f "a"%char) 12))));
      Ok (put_code l s)
  | RISCV_JAL =>
      let f := wfield pc JAL_TXT in
      s ← with_space BRANCH_FSPACE basic_block s;
      scan_jump i basic_block (f "b"%char) (u64 (pc + riscv_decode_j_imm (f "a"%char))) s
  | RISCV_JALR => let f := wfield pc JALR_TXT in scan_jump_register i basic_block (f "c"%char) (f "b"%char) (f "a"%char) s
  | RISCV_BEQ | RISCV_BNE | RISCV_BLT | RISCV_BGE | RISCV_BLTU | RISCV_BGEU =>
      let f := wfield pc BRANCH_TXT in
      scan_branch i basic_block (f "d"%char) (f "c"%char) (f "b"%char) (u64 (pc + riscv_decode_b_imm (f "a"%char) (f "e"%char))) s
  | RISCV_ECALL => scan_ecall s
  | RISCV_FENCE | RISCV_FENCEI | RISCV_CSRRW | RISCV_CSRRS | RISCV_CSRRC | RISCV_CSRRWI | RISCV_CSRRSI
    | RISCV_CSRRCI | RISCV_LUI | RISCV_LB | RISCV_LH | RISCV_LW | RISCV_LBU | RISCV_LHU | RISCV_SB | RISCV_SH
    | RISCV_SW | RISCV_ADDI | RISCV_SLTI | RISCV_SLTIU | RISCV_XORI | RISCV_ORI | RISCV_ANDI | RISCV_SLLI
    | RISCV_SRLI | RISCV_SRAI | RISCV_ADD | RISCV_SUB | RISCV_SLL | RISCV_SLT | RISCV_SLTU | RISCV_XOR | RISCV_SRL
    | RISCV_SRA | RISCV_OR | RISCV_AND | RISCV_EBREAK | RISCV_LWU | RISCV_LD | RISCV_SD | RISCV_ADDIW | RISCV_SLLIW
    | RISCV_SRLIW | RISCV_SRAIW | RISCV_ADDW | RISCV_SUBW | RISCV_SLLW | RISCV_SRLW | RISCV_SRAW | RISCV_ADD_UW
    | RISCV_SH1ADD | RISCV_SH1ADD_UW | RISCV_SH2ADD | RISCV_SH2ADD_UW | RISCV_SH3ADD | RISCV_SH3ADD_UW
    | RISCV_SLLI_UW | RISCV_ANDN | RISCV_ORN | RISCV_XNOR | RISCV_CLZ | RISCV_CLZW | RISCV_CTZ | RISCV_CTZW
    | RISCV_CPOP | RISCV_CPOPW | RISCV_MAX | RISCV_MAXU | RISCV_MIN | RISCV_MINU | RISCV_SEXT_B | RISCV_SEXT_H
    | RISCV_ZEXT_H | RISCV_ROL | RISCV_ROLW | RISCV_ROR | RISCV_RORW | RISCV_RORI | RISCV_RORIW | RISCV_ORC_B
    | RISCV_REV8 | RISCV_CLMUL | RISCV_CLMULH | RISCV_CLMULR | RISCV_BCLR | RISCV_BCLRI | RISCV_BEXT | RISCV_BEXTI
    | RISCV_BINV | RISCV_BINVI | RISCV_BSET | RISCV_BSETI | RISCV_CBO_CLEAN | RISCV_CBO_FLUSH | RISCV_CBO_INVAL
    | RISCV_CBO_ZERO | RISCV_PREFETCH_I | RISCV_PREFETCH_R | RISCV_PREFETCH_W | RISCV_CZERO_EQZ | RISCV_CZERO_NEZ
    | RISCV_FLH | RISCV_FSH | RISCV_FMADD_H | RISCV_FMSUB_H | RISCV_FNMSUB_H | RISCV_FNMADD_H | RISCV_FADD_H
    | RISCV_FSUB_H | RISCV_FMUL_H | RISCV_FDIV_H | RISCV_FSQRT_H | RISCV_FSGNJ_H | RISCV_FSGNJN_H | RISCV_FSGNJX_H
    | RISCV_FMIN_H | RISCV_FMAX_H | RISCV_FCVT_S_H | RISCV_FCVT_H_S | RISCV_FCVT_D_H | RISCV_FCVT_H_D | RISCV_FEQ_H
    | RISCV_FLT_H | RISCV_FLE_H | RISCV_FCLASS_H | RISCV_FCVT_W_H | RISCV_FCVT_WU_H | RISCV_FMV_X_H
    | RISCV_FCVT_H_W | RISCV_FCVT_H_WU | RISCV_FMV_H_X | RISCV_FCVT_L_H | RISCV_FCVT_LU_H | RISCV_FCVT_H_L
    | RISCV_FCVT_H_LU | RISCV_V_OP | RISCV_V_LOAD_B | RISCV_V_LOAD_H | RISCV_V_LOAD_W | RISCV_V_LOAD_D
    | RISCV_V_STORE_B | RISCV_V_STORE_H | RISCV_V_STORE_W | RISCV_V_STORE_D | RISCV_V_AMO_B | RISCV_V_AMO_H
    | RISCV_V_AMO_W | RISCV_V_AMO_D => Ok (copy_riscv s)
  | RISCV_MUL | RISCV_MULH | RISCV_MULHSU | RISCV_MULHU | RISCV_DIV | RISCV_DIVU | RISCV_REM | RISCV_REMU
    | RISCV_MULW | RISCV_DIVW | RISCV_DIVUW | RISCV_REMW | RISCV_REMUW => scan_extension (muldiv ext) i basic_block start_scan s
  | RISCV_LR_W | RISCV_SC_W | RISCV_AMOSWAP_W | RISCV_AMOADD_W | RISCV_AMOXOR_W | RISCV_AMOAND_W | RISCV_AMOOR_W
    | RISCV_AMOMIN_W | RISCV_AMOMAX_W | RISCV_AMOMINU_W | RISCV_AMOMAXU_W | RISCV_LR_D | RISCV_SC_D
    | RISCV_AMOSWAP_D | RISCV_AMOADD_D | RISCV_AMOXOR_D | RISCV_AMOAND_D | RISCV_AMOOR_D | RISCV_AMOMIN_D
    | RISCV_AMOMAX_D | RISCV_AMOMINU_D | RISCV_AMOMAXU_D => scan_extension (atomic ext) i basic_block start_scan s
  | RISCV_FLW | RISCV_FSW | RISCV_FMADD_S | RISCV_FMSUB_S | RISCV_FNMSUB_S | RISCV_FNMADD_S | RISCV_FADD_S
    | RISCV_FSUB_S | RISCV_FMUL_S | RISCV_FDIV_S | RISCV_FSQRT_S | RISCV_FSGNJ_S | RISCV_FSGNJN_S | RISCV_FSGNJX_S
    | RISCV_FMIN_S | RISCV_FMAX_S | RISCV_FCVT_W_S | RISCV_FCVT_WU_S | RISCV_FMV_X_W | RISCV_FEQ_S | RISCV_FLT_S
    | RISCV_FLE_S | RISCV_FCLASS_S | RISCV_FCVT_S_W | RISCV_FCVT_S_WU | RISCV_FMV_W_X | RISCV_FCVT_L_S
    | RISCV_FCVT_LU_S | RISCV_FCVT_S_L | RISCV_FCVT_S_LU => scan_extension (fdiv ext) i basic_block start_scan s
  | RISCV_FLD | RISCV_FSD | RISCV_FMADD_D | RISCV_FMSUB_D | RISCV_FNMSUB_D | RISCV_FNMADD_D | RISCV_FADD_D
    | RISCV_FSUB_D | RISCV_FMUL_D | RISCV_FDIV_D | RISCV_FSQRT_D | RISCV_FSGNJ_D | RISCV_FSGNJN_D | RISCV_FSGNJX_D
    | RISCV_FMIN_D | RISCV_FMAX_D | RISCV_FCVT_S_D | RISCV_FCVT_D_S | RISCV_FEQ_D | RISCV_FLT_D | RISCV_FLE_D
    | RISCV_FCLASS_D | RISCV_FCVT_W_D | RISCV_FCVT_WU_D | RISCV_FCVT_D_W | RISCV_FCVT_D_WU | RISCV_FCVT_L_D
    | RISCV_FCVT_LU_D | RISCV_FMV_X_D | RISCV_FCVT_D_L | RISCV_FCVT_D_LU | RISCV_FMV_D_X => if flen64 ext then Ok (copy_riscv s) else Err Hang
  | RISCV_INVALID => scan_invalid i basic_block start_scan s
  | _ => if has_compressed then scan_compressed i basic_block s else Err Hang
  end.

(** ** Blocks *)

Section block.
Context (g : global world) (watched : list (Z * mambo_callback world)).
Context (basic_block : Z) (type : cc_type) (start_scan : Z) (bb_type : branch_type).

(** A round of the loop: the instruction between its callbacks. *)
Definition scan_step (s : scan_state) : outcome scan_state :=
  let i := riscv_decode (code_from (s_read s)) in
  let events := negb (bool_decide (bb_type = atomic_memory_riscv)) in
  x ← (if events then riscv_scanner_deliver_callbacks g watched PRE_INST_C (s_read s) (enum i) basic_block type true s
       else Ok (false, s_read s, s));
  let '(skip_inst, _, s) := (x : bool * Z * scan_state) in
  s ← (if skip_inst then Ok s else scan_inst i basic_block start_scan s);
  if s_data s <=? s_write s then Err Hang
  else
    s ← (if negb (s_stop s) then with_space MIN_FSPACE basic_block s else Ok s);
    x ← (if events
         then riscv_scanner_deliver_callbacks g watched POST_INST_C (s_read s) (enum i) basic_block type (negb (s_stop s)) s
         else Ok (false, s_read s, s));
    let s := snd x in
    Ok (MkScan (s_ids s) (s_world s) (next_instruction i (s_read s)) (s_write s) (s_data s) (s_stop s)).

Fixpoint scan_loop (fuel : nat) (s : scan_state) : outcome scan_state :=
  match fuel with
  | O => Err OutOfFuel
  | S fuel => if s_stop s then Ok s else s ← scan_step s; scan_loop fuel s
  end.

(** The head of a block counts its executions for the traces. *)
Definition trace_head (s : scan_state) : outcome scan_state :=
  push ← riscv_push t (reg_mask [a0; a1]);
  push_ra ← riscv_push t (reg_mask [ra]);
  id ← riscv_copy_to_reg a1 (u64 (s32 basic_block));
  let s := put_code (push ++ push_ra ++ id) s in
  let s := match riscv_jal_helper (s_write s) trace_head_incr_addr ra with
           | Some i => put_code [i] s
           | None => put_code (default [] (riscv_jalr_helper (s_write s) trace_head_incr_addr ra a0)) s
           end in
  pop_ra ← riscv_pop t (reg_mask [ra]);
  pop ← riscv_pop t (reg_mask [a0; a1]);
  Ok (put_code (pop_ra ++ pop) s).

Definition counts_executions : bool :=
  DBM_TRACES cfg && bool_decide (type = mambo_bb)
  && negb (bool_decide (bb_type = jalr_riscv ∨ bb_type = atomic_memory_riscv ∨ bb_type = unknown)).

(** From the counter to the end. *)
Definition scan_body (fuel : nat) (s : scan_state) : outcome scan_state :=
  s ← (if counts_executions then trace_head s else Ok s);
  x ← riscv_scanner_deliver_callbacks g watched PRE_FRAGMENT_C (s_read s) (-1) basic_block type true s;
  let s := snd x in
  x ← riscv_scanner_deliver_callbacks g watched PRE_BB_C (s_read s) (-1) basic_block type true s;
  let '(_, read, s) := (x : bool * Z * scan_state) in
  s ← scan_loop fuel (MkScan (s_ids s) (s_world s) read (s_write s) (s_data s) (s_stop s));
  x ← riscv_scanner_deliver_callbacks g watched POST_BB_C start_scan (-1) basic_block type false s;
  x ← riscv_scanner_deliver_callbacks g watched POST_FRAGMENT_C start_scan (-1) basic_block type false (snd x);
  Ok (snd x).
End block.

(** RISCV_TRAMPOLINE_SLOTS of dbm.h, of four bytes. *)
Definition TRAMPOLINE_SPACE : Z := 6 * 4.

(** The state and the number of halfwords written, as a difference of pointers;
    [write_p] 0 is NULL. *)
Definition scan_riscv (fuel : nat) (g : global world) (watched : list (Z * mambo_callback world)) (ids : Z * Z * list Z)
    (w : world) (read_address basic_block : Z) (type : cc_type) (write_p : Z) : outcome (scan_state * Z) :=
  let write_p := if write_p =? 0 then block_addr cfg (w_th w) basic_block else write_p in
  let is_block := bool_decide (type = mambo_bb) in
  th ← (if DBM_JUMP_TRAMPOLINES cfg && is_block then upd_meta basic_block (set_trampoline None 0) (w_th w) else Ok (w_th w));
  let data_p := if is_block then write_p + BASIC_BLOCK_SIZE cfg * 4 else traces_addr cfg th + TRACE_CACHE_SIZE cfg in
  let s := MkScan ids (MkWorld th (w_code w) (w_raw w)) read_address write_p data_p false in
  s ← (if negb (bool_decide (type = mambo_trace)) then
         restore ← riscv_restore_context t;
         c_assert (code_size restore =? 6);;
         Ok (put_code restore s)
       else Ok s);
  bb_type ← pass1_riscv fuel read_address;
  s ← scan_body g watched basic_block type read_address bb_type fuel s;
  th ← (if DBM_JUMP_TRAMPOLINES cfg && is_block && (TRAMPOLINE_SPACE <=? u64 (s_data s - s_write s))
        then upd_meta basic_block (λ m, set_trampoline (Some (s_write s)) (trampoline_slots_used m) m) (w_th (s_world s))
        else Ok (w_th (s_world s)));
  let s := MkScan (s_ids s) (MkWorld th (w_code (s_world s)) (w_raw (s_world s))) (s_read s) (s_write s) (s_data s) (s_stop s) in
  Ok (s, (s_write s - write_p) / 2).
End scanner.
End RiscvScan.
