(* ===== verification/RiscvScanSpec.v ===== *)
(** * What translated RISC-V blocks do

    The code that [scan_riscv] writes, executed on the machine of RiscvAsm,
    follows the application. An application is its halfwords and the meaning
    [app] of the instructions that are copied, which the processor gives; those
    that MAMBO translates have the meaning of the manual. *)
From stdpp Require Import relations.
From S2P Require Import Prelude LinearProbe CodeCacheHash LinkedList AddressTable Dbm.
From S2P Require Import RegList Plugin RiscvImm RiscvAsm RiscvEmit RiscvContext RiscvProg RiscvExec RiscvExit RiscvLookup.
From S2P Require Import RiscvInst Pie RiscvScan.
Import Dbm RegList Plugin RiscvImm RiscvEmit RiscvContext RiscvAsm RiscvProg RiscvExec RiscvExit RiscvLookup RiscvInst RiscvScan.
#[local] Open Scope Z_scope.

Module RiscvScanSpec.

(** ** Executing emitted and copied code *)

Section machine.
Context {T : Type} (app : raw → machine → option machine).
Implicit Types (w : world (T := T)).

Definition fetch w (x : Z) : option (inst + raw) :=
  match w_code w x with Some i => Some (inl i) | None => inr <$> w_raw w x end.
Definition size_of (e : inst + raw) : Z := match e with inl i => inst_size i | inr j => raw_size j end.
Definition perform (e : inst + raw) (s : machine) : option machine :=
  match e with inl i => Some (exec i s) | inr j => app j s end.

Definition block_step w (s s' : machine) : Prop := ∃ e, fetch w (pc s) = Some e ∧ perform e s = Some s'.
Definition runs w : machine → machine → Prop := rtc (block_step w).

Lemma runs_reaches w s s' : reaches (w_code w) s s' → runs w s s'.
Proof.
  intros H. eapply rtc_subrel; [|exact H]. intros x y (i & Hi & ->). exists (inl i). unfold fetch. by rewrite Hi.
Qed.

(** [w] changes to [w'] only in [[a, a + n)]. *)
Record changes w w' (a n : Z) : Prop := {
  changes_keeps : keeps a n (w_code w) (w_code w');
  changes_adds x i : w_code w' x = Some i → w_code w x = Some i ∨ a ≤ x < a + n;
  changes_raw x j : w_raw w x = Some j → 0 < raw_size j → disjoint x (raw_size j) a n → w_raw w' x = Some j }.

Lemma changes_fetch w w' a n x e :
  changes w w' a n → fetch w x = Some e → 0 < size_of e → disjoint x (size_of e) a n → fetch w' x = Some e.
Proof.
  intros [Hk Ha Hr] Hf Hsz Hd. unfold fetch in *. destruct (w_code w x) as [i|] eqn:Hi.
  - injection Hf as <-. simpl in Hd. by rewrite (Hk x i).
  - destruct (w_raw w x) as [j|] eqn:Hj; [|done]. injection Hf as <-. simpl in *.
    destruct (w_code w' x) as [i|] eqn:Hi'.
    + apply Ha in Hi' as [Hi'|Hi']; [congruence|]. unfold disjoint in Hd. lia.
    + by rewrite (Hr x j).
Qed.

Lemma erase_raw a n (m : rawmem) x j : m x = Some j → disjoint x (raw_size j) a n → erase raw_size a n m x = Some j.
Proof.
  intros Hm Hd. unfold erase. rewrite Hm. replace ((x <? a + n) && (a <? x + raw_size j)) with false; [done|].
  unfold disjoint in Hd. destruct (Z.ltb_spec x (a + n)), (Z.ltb_spec a (x + raw_size j)); (done || lia).
Qed.

Lemma put_adds a i m x k : put a i m x = Some k → m x = Some k ∨ x = a.
Proof.
  unfold put. destruct (Z.eqb_spec x a) as [->|]; [by right|]. destruct (m x); [|done]. case_match; [done|]. by left.
Qed.

Lemma place_adds l : ∀ a m x k, place a l m x = Some k → m x = Some k ∨ a ≤ x < a + code_size l.
Proof.
  induction l as [|i l IH]; intros a m x k Hx; [by left|]. cbn [place] in Hx. rewrite code_size_cons.
  pose proof (inst_size_pos i). pose proof (code_size_nonneg l).
  apply IH in Hx as [Hx|?]; [|right; lia]. apply put_adds in Hx as [?| ->]; [by left | right; lia].
Qed.

Lemma emit_changes l w a : changes w (fst (emit_code l w a)) a (code_size l).
Proof.
  unfold emit_code, emitted, emit. cbn [fst snd w_th w_code w_raw]. replace (a + code_size l - a) with (code_size l) by lia.
  split; cbn [w_code w_raw]; [apply place_keeps | apply place_adds | intros x j Hx _; by apply erase_raw].
Qed.

Lemma erase_inst_keeps a n (m : cmem) : keeps a n m (erase inst_size a n m).
Proof.
  intros x i Hx Hd. unfold erase. rewrite Hx. replace ((x <? a + n) && (a <? x + inst_size i)) with false; [done|].
  unfold disjoint in Hd. destruct (Z.ltb_spec x (a + n)), (Z.ltb_spec a (x + inst_size i)); (done || lia).
Qed.

Lemma copy_changes j w a : 0 < raw_size j → changes w (fst (copy_raw j w a)) a (raw_size j).
Proof.
  intros Hj. split; cbn [copy_raw fst w_code w_raw].
  - apply erase_inst_keeps.
  - intros x i. unfold erase. destruct (w_code w x); [|done]. case_match; [done|]. by left.
  - intros x k Hx Hk Hd. unfold disjoint in Hd. destruct (Z.eqb_spec x a) as [->|]; [lia|]. by apply erase_raw.
Qed.

Lemma copy_fetch j w a : 0 < raw_size j → fetch (fst (copy_raw j w a)) a = Some (inr j).
Proof.
  intros Hj. unfold fetch. cbn [copy_raw fst w_code w_raw]. rewrite Z.eqb_refl. unfold erase.
  destruct (w_code w a) as [i|]; [|done]. pose proof (inst_size_pos i).
  by rewrite (proj2 (Z.ltb_lt _ _)), (proj2 (Z.ltb_lt _ _)) by lia.
Qed.

Lemma changes_refl w a n : changes w w a n.
Proof. split; [apply keeps_refl | by left | done]. Qed.

(** What a later state still holds: everything but [[a, b)] and what starts at
    [c] or above. *)
Definition stays w w' (a b c : Z) : Prop :=
  ∀ x e, fetch w x = Some e → 0 < size_of e → x + size_of e ≤ a ∨ b ≤ x → x + size_of e ≤ c → fetch w' x = Some e.

Lemma stays_refl w a b c : stays w w a b c.
Proof. by intros x e. Qed.

Lemma changes_stays w w1 w' a n a1 b1 c1 a0 b0 c0 :
  changes w w1 a n → stays w1 w' a1 b1 c1 →
  (∀ x k, 0 < k → x + k ≤ a0 ∨ b0 ≤ x → x + k ≤ c0 → disjoint x k a n ∧ (x + k ≤ a1 ∨ b1 ≤ x) ∧ x + k ≤ c1) → stays w w' a0 b0 c0.
Proof.
  intros Hc Hs H x e He Hsz Hx Hxc. destruct (H x (size_of e)) as (Hd & Hx1 & Hx2); [done..|].
  apply Hs; [by eapply changes_fetch | done..].
Qed.

Lemma fetch_code w l : ∀ x, code_at (w_code w) x l → ∀ y i k, l !! k = Some i → y = x + code_size (take k l) → fetch w y = Some (inl i).
Proof.
  induction l as [|i0 l IH]; intros x Hc y i k Hk ->; [done|]. destruct Hc as [Hi Hc]. destruct k as [|k].
  - injection Hk as <-. cbn [take]. change (code_size []) with 0. rewrite Z.add_0_r. unfold fetch. by rewrite Hi.
  - cbn [take]. rewrite code_size_cons. eapply IH; [exact Hc | exact Hk | lia].
Qed.

(** Code that stays is code later. *)
Lemma stays_code w w' a b c x l :
  stays w w' a b c → code_at (w_code w) x l → x + code_size l ≤ a ∨ b ≤ x → x + code_size l ≤ c → code_at (w_code w') x l.
Proof.
  intros Hs. revert x. induction l as [|i l IH]; intros x Hc Hx Hxc; [done|]. destruct Hc as [Hi Hc]. rewrite code_size_cons in *.
  pose proof (inst_size_pos i). pose proof (code_size_nonneg l). split; [|apply IH; [done | lia..]].
  assert (fetch w' x = Some (inl i)) as Hf.
  { apply Hs; [unfold fetch; by rewrite Hi | simpl; lia | simpl; lia | simpl; lia]. }
  unfold fetch in Hf. destruct (w_code w' x); [by injection Hf as -> | by destruct (w_raw w' x)].
Qed.
End machine.
(** ** Where emitters write *)

Definition grown (a : Z) (m : cmem) (st : out) : Prop :=
  a ≤ fst st ∧ ∀ x i, snd st x = Some i → m x = Some i ∨ a ≤ x < fst st.

Lemma grown_refl st : grown (fst st) (snd st) st.
Proof. split; [done | by left]. Qed.

Lemma grown_emit a m l st : grown a m st → grown a m (emit l st).
Proof.
  intros [Hle H]. pose proof (code_size_nonneg l). unfold emit. split; cbn [fst snd]; [lia|]. intros x i Hx.
  apply place_adds in Hx as [Hx|Hx]; [|right; lia]. apply H in Hx as [?|?]; [by left | right; lia].
Qed.

Lemma grown_skip a m n st : 0 ≤ n → grown a m st → grown a m (skip n st).
Proof. intros Hn [Hle H]. split; cbn [skip fst snd]; [lia|]. intros x i Hx. apply H in Hx as [?|?]; [by left | right; lia]. Qed.

Lemma grown_patch a m h i st : a ≤ h < fst st → grown a m st → grown a m (patch h i st).
Proof.
  intros Hh [Hle H]. split; [done|]. intros x k Hx. unfold patch in *. cbn [fst snd] in *. destruct i as [i|]; [|by apply H].
  apply put_adds in Hx as [Hx| ->]; [by apply H | by right].
Qed.

Create HintDb grown.
#[local] Hint Resolve grown_refl grown_emit : grown.

Lemma then_dispatcher_grown d code a m st st' : then_dispatcher d code st = Ok st' → grown a m st → grown a m st' ∧ fst st ≤ fst st'.
Proof.
  unfold then_dispatcher. intros H Hg. inv_ok. split; [by apply grown_emit|]. cbn [emit fst]. pose proof (code_size_nonneg (code ++ x)). lia.
Qed.

Lemma exit_side_grown d save id addr a m st st' :
  exit_side d save id addr st = Ok st' → grown a m st → grown a m st' ∧ fst st ≤ fst st'.
Proof. unfold exit_side. intros H Hg. inv_ok. by eapply then_dispatcher_grown. Qed.

Lemma two_sides_grown d save id f tg r1 r2 c a m st st' :
  two_sides d save id f tg r1 r2 c st = Ok st' → grown a m st → grown a m st'.
Proof.
  unfold two_sides. intros H Hg. inv_ok.
  apply (exit_side_grown _ _ _ _ a m) in Hx as [Hg1 Hle1]; [|by apply grown_skip]. cbn [skip fst] in Hle1.
  apply (exit_side_grown _ _ _ _ a m) in Hx0 as [Hg2 Hle2]; [|done]. apply grown_patch; [|done]. destruct Hg as [? _]. lia.
Qed.

Lemma riscv_jump_grown {T} t d lui (th th' : dbm_thread T) rd_ i bb r tg st st' :
  riscv_jump t d lui th rd_ i bb r tg st = Ok (th', st') → grown (fst st) (snd st) st'.
Proof.
  unfold riscv_jump. intros H. inv_ok. eapply then_dispatcher_grown; [done|].
  case_match; inv_ok; eauto with grown.
Qed.

Lemma riscv_cond_branch_grown {T} t d lui (th th' : dbm_thread T) rd_ i bb c r1 r2 tg st st' :
  riscv_cond_branch t d lui th rd_ i bb st c r1 r2 tg = Ok (th', st') → grown (fst st) (snd st) st'.
Proof.
  unfold riscv_cond_branch, branch_code. intros H. inv_ok. repeat case_match; eapply two_sides_grown; eauto with grown.
Qed.

Section spec.
Context (cfg : config) {T : Type} `{!AddressTable T (TABLE_SIZE cfg)} (ext : march).
Context (dispatcher_addr trace_head_incr_addr syscall_wrapper_addr entries_addr : Z).
Context (riscv_decode : (Z → Z) → riscv_instruction) (source : Z → Z) (app : raw → machine → option machine).
(** States that the application cannot tell apart; [sim a m] relates its state
    to that of the machine. *)
Context (sim : machine → machine → Prop).
Context (Ht : cfg_target cfg = riscv_compressed) (Hext : ext = rv64g) (Hbs : BASIC_BLOCK_SIZE cfg = 64).
Implicit Types (w : world (T := T)) (q : scan_state (T := T)).
Notation decode a := (riscv_decode (code_from source a)).
Notation cf := (cfield source).
Notation wf := (wfield source).
Notation scan_inst := (scan_inst cfg ext dispatcher_addr syscall_wrapper_addr entries_addr source).

(** ** The application *)

(** Copied instructions neither depend on the program counter nor change the
    flow; [app] has no result for those that trap. They keep states alike. *)
Record app_ok : Prop := {
  app_next j s s' : app j s = Some s' → ok s → ok s' ∧ pc s' = u64 (pc s + raw_size j);
  app_anywhere j s s' m : app j s = Some s' → sim s m → ok s → ok m → ∃ m', app j m = Some m' ∧ sim s' m';
  sim_same a a' m m' : sim a m → same_state a a' → same_state m m' → sim a' m';
  sim_get a m r : sim a m → get m r = get a r;
  sim_set a m r v : sim a m → r ≠ sp → sim (set r v a) (set r v m) }.

Definition raw_at (a : Z) : raw :=
  if compressed (decode a) then MkRaw 2 (Pie.word16 (code_from source a)) else MkRaw 4 (Pie.word_riscv (code_from source a)).

(** What the scanner copies: everything but branches, AUIPC, ECALL and what is
    not of RV64GC. *)
Definition is_copied (i : riscv_instruction) : bool :=
  match i with
  | RISCV_C_JAL | RISCV_C_FLWSP | RISCV_C_J | RISCV_C_BEQZ | RISCV_C_BNEZ | RISCV_C_JR | RISCV_C_JALR | RISCV_AUIPC | RISCV_JAL
  | RISCV_JALR | RISCV_BEQ | RISCV_BNE | RISCV_BLT | RISCV_BGE | RISCV_BLTU | RISCV_BGEU | RISCV_ECALL | RISCV_INVALID => false
  | _ => true
  end.

(** CJ-type immediates in the layout of the manual. *)
Definition cj_imm (imm : Z) : Z :=
  signed 12 (bits 3 1 imm * 2 + bits 1 9 imm * 2 ^ 4 + bits 1 0 imm * 2 ^ 5 + bits 1 5 imm * 2 ^ 6 + bits 1 4 imm * 2 ^ 7
             + bits 2 7 imm * 2 ^ 8 + bits 1 6 imm * 2 ^ 10 + bits 1 10 imm * 2 ^ 11).

(** An instruction inside a block. *)
Inductive src_step (s s' : machine) : Prop :=
  | step_copied : is_copied (decode (pc s)) = true → pc s + 4 < 2 ^ 63 → app (raw_at (pc s)) s = Some s' → src_step s s'
  | step_auipc : decode (pc s) = RISCV_AUIPC → pc s + 4 < 2 ^ 63 → wf (pc s) AUIPC_TXT "b"%char ≠ sp →
      s' = exec (Auipc (wf (pc s) AUIPC_TXT "b"%char) (wf (pc s) AUIPC_TXT "a"%char)) s → src_step s s'.

(** A direct branch, and a word that the decoder does not know, where the
    application goes on in a block of its own. *)
Inductive src_exit (s s' : machine) : Prop :=
  | exit_c_j : decode (pc s) = RISCV_C_J → s' = set_pc (pc s + cj_imm (cf (pc s) C_J_TXT "a"%char)) s → src_exit s s'
  | exit_c_beqz : decode (pc s) = RISCV_C_BEQZ →
      s' = exec (C_beqz (cf (pc s) C_BEQZ_TXT "b"%char) (cf (pc s) C_BEQZ_TXT "a"%char) (cf (pc s) C_BEQZ_TXT "c"%char)) s → src_exit s s'
  | exit_c_bnez : decode (pc s) = RISCV_C_BNEZ →
      s' = exec (C_bnez (cf (pc s) C_BEQZ_TXT "b"%char) (cf (pc s) C_BEQZ_TXT "a"%char) (cf (pc s) C_BEQZ_TXT "c"%char)) s → src_exit s s'
  | exit_jal : decode (pc s) = RISCV_JAL → wf (pc s) JAL_TXT "b"%char ≠ sp →
      s' = exec (Jal (wf (pc s) JAL_TXT "b"%char) (wf (pc s) JAL_TXT "a"%char)) s → src_exit s s'
  | exit_branch : decode (pc s) ∈ [RISCV_BEQ; RISCV_BNE; RISCV_BLT; RISCV_BGE; RISCV_BLTU; RISCV_BGEU] →
      s' = exec (Branch (cond_of (wf (pc s) BRANCH_TXT "d"%char)) (wf (pc s) BRANCH_TXT "c"%char) (wf (pc s) BRANCH_TXT "b"%char)
                   (wf (pc s) BRANCH_TXT "a"%char) (wf (pc s) BRANCH_TXT "e"%char)) s → src_exit s s'
  | exit_invalid : decode (pc s) = RISCV_INVALID → s' = s → src_exit s s'.

(** ** The space *)

(** The code cache is in reach of the dispatcher. *)
Record cache_ok (cc : Z) : Prop := {
  cache_range : 0 ≤ cc ∧ cc + CODE_CACHE_SIZE cfg * 256 + 1000 < 2 ^ 63;
  cache_even : Z.even cc = true;
  cache_dispatcher : 0 ≤ dispatcher_addr < 2 ^ 63 ∧ Z.even dispatcher_addr = true;
  cache_near x : cc ≤ x ≤ cc + CODE_CACHE_SIZE cfg * 256 → - 2 ^ 28 ≤ dispatcher_addr - x ≤ 2 ^ 28 }.

Definition first_free w : Z := block_addr cfg (w_th w) (free_block (w_th w)).

(** [k] bytes and one are free at the write pointer, below the free blocks. *)
Record fits (bb k : Z) w (write data : Z) : Prop := {
  fits_cache : cache_ok (code_cache (w_th w));
  fits_bb : 0 ≤ bb < 2 ^ 31;
  fits_meta : is_Some (code_cache_meta (w_th w) !! Z.to_nat bb);
  fits_free : free_block (w_th w) ≤ CODE_CACHE_SIZE cfg;
  fits_write : code_cache (w_th w) ≤ write ∧ Z.even write = true;
  fits_slack : write + k < data;
  fits_data : data ≤ first_free w }.

Lemma block_addr_eq (th : dbm_thread T) i : block_addr cfg th i = code_cache th + i * 256.
Proof. unfold block_addr, sizeof_dbm_block. rewrite Hbs. lia. Qed.

Lemma fits_room bb k w write data : fits bb k w write data → 0 ≤ k → room dispatcher_addr 1000 (2 ^ 28) write.
Proof.
  intros [[[? ?] He [? ?] Hn] ? ? ? [? ?] ? Hd] Hk. unfold first_free in Hd. rewrite block_addr_eq in Hd.
  specialize (Hn write). unfold room. split_and!; (done || lia).
Qed.

Lemma upd_meta_inv i f (th th' : dbm_thread T) :
  upd_meta i f th = Ok th' → ∃ ms, th' = set_code_cache_meta ms th ∧ length ms = length (code_cache_meta th).
Proof.
  unfold upd_meta. intros H. inv_ok. exists x. split; [done|]. apply aupd_ok in Hx as (? & _ & _ & ->). by rewrite length_insert.
Qed.

(** Everything but the space of [q] and what is behind its blocks is left. *)
Definition stays_from q w : Prop := stays (s_world q) w (s_write q) (s_data q) (first_free (s_world q)).

(** After the check the space is at least [size], and the execution gets from
    the old write pointer to the new one. *)
Lemma free_space_spec bb k size w write data w' write' data' :
  fits bb k w write data → 4 ≤ k → 0 ≤ size < 256 →
  riscv_check_free_space cfg w write data size bb = Ok (w', write', data') →
  fits bb size w' write' data' ∧ ∀ final, stays w' final write' data' (first_free w') →
    stays w final write data (first_free w)
    ∧ ∀ m, ok m → pc m = write → ∃ m', runs app final m m' ∧ pc m' = write' ∧ same_state m m' ∧ ok m'.
Proof.
  intros Hf Hk Hsz. unfold riscv_check_free_space. destruct (Z.leb_spec data (write + size)).
  2: { intros [= <- <- <-]. split; [by destruct Hf; split|]. intros final Hst. split; [done|]. intros m Ho Hp.
       exists m. split_and!; [apply rtc_refl | done | apply same_state_refl | done]. }
  intros H1. apply bind_ok_inv in H1 as ([b th1] & Ha & H1). unfold allocate_bb_overflow in Ha.
  destruct (Z.ltb_spec (free_block (w_th w)) (CODE_CACHE_SIZE cfg)) as [Hlt|]; [|done]. injection Ha as <- <-. cbn [fst snd] in H1.
  apply bind_ok_inv in H1 as (th2' & Hup & H1). apply upd_meta_inv in Hup as (ms & -> & Hlen). cbn [code_cache_meta set_free_block] in Hlen.
  pose proof Hf as [Hc Hbb Hm Hfr [Hw He] Hsl Hda]. unfold first_free in Hda. rewrite block_addr_eq in Hda. pose proof Hc as [[? ?] ? _ _].
  set (b := free_block (w_th w)) in *. set (th2 := set_code_cache_meta ms (set_free_block (b + 1) (w_th w))) in *.
  assert (block_addr cfg th2 b = code_cache (w_th w) + b * 256) as Hba by (rewrite block_addr_eq; done). rewrite Hba in H1.
  assert (is_Some (ms !! Z.to_nat bb)) as Hms by (apply lookup_lt_is_Some; rewrite Hlen; by apply lookup_lt_is_Some in Hm).
  assert (∀ w3, w_th w3 = th2 → first_free w3 = code_cache (w_th w) + b * 256 + 256) as Hff
    by (intros w3 Hw3; unfold first_free; rewrite Hw3, block_addr_eq; cbn; lia).
  destruct (Z.eqb_spec (code_cache (w_th w) + b * 256) data) as [Hd|Hd]; cbn [negb] in *; inv_ok; cbn [fst snd] in *.
  - split.
    + split; cbn [w_th]; try done; [cbn; lia | lia | rewrite Hff by done; lia].
    + intros final Hst. rewrite Hff in Hst by done. split.
      * intros x e Hx Hes Hx1 Hx2. apply Hst; [exact Hx | done | | unfold first_free in Hx2; rewrite block_addr_eq in Hx2; fold b in Hx2; lia].
        destruct Hx1 as [?|?]; [by left|]. unfold first_free in Hx2. rewrite block_addr_eq in Hx2. fold b in Hx2. lia.
      * intros m Ho Hp. exists m. split_and!; [apply rtc_refl | done | apply same_state_refl | done].
  - destruct (riscv_jal_helper write (code_cache (w_th w) + b * 256) zero) as [i|] eqn:Hj; [|done]. inv_ok. cbn [fst snd] in *.
    set (w1 := fst (emit_code [i] (MkWorld th2 (w_code w) (w_raw w)) write)) in *.
    destruct (jal_helper_inv _ _ _ _ Hj) as (fi & Hi & _). assert (code_size [i] = 4) as Hsi by by subst i.
    split.
    + split; cbn; try done; [lia | | lia | rewrite Hff by done; lia].
      split; [lia|]. rewrite Z.even_add, Z.even_mul, orb_true_r. by rewrite (cache_even _ Hc).
    + intros final Hst. rewrite Hff in Hst by done. split.
      * eapply (changes_stays w w1); [|exact Hst|].
        { pose proof (emit_changes [i] (MkWorld th2 (w_code w) (w_raw w)) write) as [C1 C2 C3]. rewrite Hsi in *.
          split; [exact C1 | exact C2 | exact C3]. }
        intros x n Hn Hx1 Hx2. unfold first_free in Hx2. rewrite block_addr_eq in Hx2. fold b in Hx2. unfold disjoint. lia.
      * intros m Ho Hp. assert (w_code final (pc m) = Some i) as Hmi.
        { assert (code_at (w_code final) write [i]) as [Hfi _]; [|by rewrite Hp].
          eapply stays_code; [exact Hst | unfold w1, emit_code, emitted, emit; cbn; split; [apply put_same | done] | rewrite Hsi; lia | rewrite Hsi; lia]. }
        destruct (jal_goes (w_code final) m (code_cache (w_th w) + b * 256) i) as (m' & Hr & Hp' & Hss & Ho'); [by rewrite Hp | done | lia | done |].
        exists m'. split_and!; [by apply runs_reaches | done | done | done].
Qed.
(** ** Exits *)

(** [q1] is [q] after code for [k] bytes that ends the block. *)
Record ended q q1 (k : Z) : Prop := {
  ended_stop : s_stop q1 = true;
  ended_read : s_read q1 = s_read q;
  ended_data : s_data q1 = s_data q;
  ended_write : s_write q1 = s_write q + k;
  ended_nonneg : 0 ≤ k;
  ended_free : first_free (s_world q1) = first_free (s_world q);
  ended_changes : changes (s_world q) (s_world q1) (s_write q) k }.

Lemma run_out_ended q f q1 th' n text' :
  (r ← run_out f q; Ok (end_block r)) = Ok q1 → f (w_th (s_world q)) (s_write q, w_code (s_world q)) = Ok (th', (s_write q + n, text')) →
  0 ≤ n → keeps (s_write q) n (w_code (s_world q)) text' → grown (s_write q) (w_code (s_world q)) (s_write q + n, text') →
  (∃ ms, th' = set_code_cache_meta ms (w_th (s_world q))) → ended q q1 n ∧ w_code (s_world q1) = text'.
Proof.
  unfold run_out. intros H Hfo Hn Hk [_ Hg] [ms ->]. rewrite Hfo in H. cbn [mbind outcome_bind] in H. unfold emitted in H. cbn [fst snd] in H.
  injection H as <-. replace (s_write q + n - s_write q) with n by lia. split; [|done].
  split; cbn [end_block s_stop s_read s_data s_write s_world w_th]; try done.
  split; cbn [w_code w_raw]; [done | exact Hg | intros x j Hx _; by apply erase_raw].
Qed.

(** The state after a jump that links: [rd] holds the return address. *)
Record linked_state (rd ret : Z) (m a : machine) : Prop := {
  linked_rd : rd ≠ zero → get a rd = ret;
  linked_regs r : r ≠ rd → get a r = get m r;
  linked_mem : mem a = mem m;
  linked_csrs : csrs a = csrs m }.

Lemma linked_set rd ret m a : linked_state rd (u64 ret) m a → same_state (set rd (u64 ret) m) a.
Proof.
  intros [L1 L2 L3 L4]. split_and!; [|done|done]. intros r. destruct (decide (r = rd)) as [->|]; [|by rewrite L2, get_set_ne].
  destruct (decide (rd = zero)) as [->|]; [done|]. by rewrite L1, get_set_eq, u64_u64.
Qed.

Lemma ended_intact q q1 n w b c :
  ended q q1 n → stays (s_world q1) w (s_write q1) b c → s_write q1 ≤ c → intact (s_write q) n (w_code (s_world q1)) (w_code w).
Proof.
  intros [_ _ _ Hw _ _ _] Hs Hc x i Hx Hlo Hhi. pose proof (inst_size_pos i).
  assert (fetch w x = Some (inl i)) as Hf by (apply Hs; [unfold fetch; by rewrite Hx | simpl; lia | simpl; lia | simpl; lia]).
  unfold fetch in Hf. destruct (w_code w x); [by injection Hf as -> | by destruct (w_raw w x)].
Qed.

(** The code of an exit that stays until it is executed. *)
Definition later q1 w : Prop := ∃ b c, stays (s_world q1) w (s_write q1) b c ∧ s_write q1 ≤ c.

Lemma scan_jump_spec bb k q i rd_ target q1 :
  fits bb k (s_world q) (s_write q) (s_data q) → 0 ≤ k → rd_ ≠ sp → 0 ≤ target < 2 ^ 64 →
  scan_jump cfg dispatcher_addr i bb rd_ target q = Ok q1 →
  ∃ n, ended q q1 n ∧ ∀ w m, later q1 w → ok m → pc m = s_write q →
    ∃ m1 m', linked_state rd_ (u64 (next_addr (enum RISCV_LUI) (s_read q) (enum i))) m m1
      ∧ runs app w m m' ∧ ok m' ∧ dispatched dispatcher_addr m1 m' target bb.
Proof.
  intros Hf Hk Hrd Htg H. pose proof (fits_room _ _ _ _ _ Hf Hk) as Hroom. destruct (fits_meta _ _ _ _ _ Hf) as [meta Hm].
  assert (∃ th' st', riscv_jump (cfg_target cfg) dispatcher_addr (enum RISCV_LUI) (w_th (s_world q)) (s_read q) (enum i) bb rd_ target
    (s_write q, w_code (s_world q)) = Ok (th', st')) as (th' & st' & Hj).
  { unfold scan_jump, run_out in H. destruct (riscv_jump _ _ _ _ _ _ _ _ _ _) as [[th' st']|]; [by exists th', st' | done]. }
  assert (rd_ ∉ [s1; a0; a1; sp]) as Hnot.
  { unfold riscv_jump in Hj. destruct (Z.eqb_spec rd_ zero) as [->|]; [by apply (bool_decide_eq_true_1 (zero ∉ [s1; a0; a1; sp]))|].
    apply bind_ok_inv in Hj as (st1 & Hj & _). apply bind_ok_inv in Hj as ([] & Hj & _). apply c_assert_ok in Hj.
    destruct (Z.eqb_spec rd_ s1), (Z.eqb_spec rd_ a0), (Z.eqb_spec rd_ a1); try done. rewrite !not_elem_of_cons. repeat split; try done. apply not_elem_of_nil. }
  destruct (riscv_jump_spec (cfg_target cfg) dispatcher_addr (enum RISCV_LUI) (or_intror Ht) (w_th (s_world q)) (s_read q) (enum i) bb meta
              (s_write q, w_code (s_world q)) rd_ target) as (k1 & n & text' & Hj' & Hn & _ & Hkp & Hlink & Hexit);
    [by apply fits_bb in Hf | done | done | done | done |]. cbn [fst snd] in *.
  pose proof (riscv_jump_grown _ _ _ _ _ _ _ _ _ _ _ _ Hj') as Hg. cbn [fst snd] in Hg.
  destruct (run_out_ended q _ q1 _ n text' H Hj') as [He Hcode]; [lia | done | done | by eexists |].
  exists n. split; [done|]. intros w m (b & c & Hst & Hc) Ho Hp.
  pose proof (ended_intact _ _ _ _ _ _ He Hst Hc) as Hin. rewrite Hcode in Hin.
  destruct (Hlink _ m Hin Ho Hp) as (m1 & Hr1 & Hp1 & Ho1 & Hm1 & Hc1 & Hrd1 & Hg1).
  destruct (Hexit _ m1 Hin Ho1 Hp1) as (m' & Hr' & Ho' & Hd).
  exists m1, m'. split; [by split|]. split; [apply runs_reaches; by eapply reaches_trans | done].
Qed.

(** What the check of the space leaves, and the way from the old write pointer to
    the new one. *)
Definition hops q q0 : Prop := ∀ final,
  stays_from q0 final → stays_from q final
  ∧ ∀ m, ok m → pc m = s_write q → ∃ m', runs app final m m' ∧ pc m' = s_write q0 ∧ same_state m m' ∧ ok m'.

Lemma with_space_spec bb k size q q0 :
  fits bb k (s_world q) (s_write q) (s_data q) → 4 ≤ k → 0 ≤ size < 256 → with_space cfg size bb q = Ok q0 →
  fits bb size (s_world q0) (s_write q0) (s_data q0) ∧ s_read q0 = s_read q ∧ s_stop q0 = s_stop q ∧ hops q q0.
Proof.
  intros Hf Hk Hsz Hq0. unfold with_space in Hq0. apply bind_ok_inv in Hq0 as ([[w0 write0] data0] & Hsp & Hq0). injection Hq0 as <-.
  destruct (free_space_spec _ _ _ _ _ _ _ _ _ Hf Hk Hsz Hsp) as [Hf0 Hst]. by split_and!.
Qed.

Lemma scan_branch_spec bb k q i cond r1 r2 target q1 :
  fits bb k (s_world q) (s_write q) (s_data q) → 4 ≤ k → 0 ≤ target < 2 ^ 64 →
  scan_branch cfg dispatcher_addr i bb cond r1 r2 target q = Ok q1 →
  ∃ q0 n, fits bb BRANCH_FSPACE (s_world q0) (s_write q0) (s_data q0) ∧ hops q q0 ∧ ended q0 q1 n
    ∧ ∀ w m, later q1 w → ok m → pc m = s_write q0 →
        ∃ m', runs app w m m' ∧ ok m'
          ∧ dispatched dispatcher_addr m m' (side (cond_of cond) r1 r2 target (u64 (next_addr (enum RISCV_LUI) (s_read q) (enum i))) m) bb.
Proof.
  intros Hf Hk Htg H. unfold scan_branch in H. apply bind_ok_inv in H as (q0 & Hq0 & H).
  destruct (with_space_spec bb k BRANCH_FSPACE q q0) as (Hf0 & Hrd & _ & Hhop); [done..|].
  pose proof (fits_room _ _ _ _ _ Hf0 ltac:(done)) as Hroom. destruct (fits_meta _ _ _ _ _ Hf0) as [meta Hm].
  destruct (riscv_cond_branch_spec (cfg_target cfg) dispatcher_addr (enum RISCV_LUI) (or_intror Ht) (w_th (s_world q0)) (s_read q0) (enum i) bb meta
              (s_write q0, w_code (s_world q0)) cond r1 r2 target) as (n & text' & Hj & Hn & Hkp & _ & Hexit & _);
    [by apply fits_bb in Hf | done | done | done |]. cbn [fst snd] in *.
  pose proof (riscv_cond_branch_grown _ _ _ _ _ _ _ _ _ _ _ _ _ _ Hj) as Hg. cbn [fst snd] in Hg.
  destruct (run_out_ended q0 _ q1 _ n text' H Hj) as [He Hcode]; [lia | done | done | by eexists |].
  exists q0, n. split; [exact Hf0|]. split; [exact Hhop|]. split; [exact He|]. rewrite <- Hrd. intros w m (b & c & Hst & Hc) Ho Hp.
  pose proof (ended_intact _ _ _ _ _ _ He Hst Hc) as Hin. rewrite Hcode in Hin.
  destruct (Hexit _ m Hin Ho Hp) as (m' & Hr' & Ho' & Hd).
  exists m'. split; [by apply runs_reaches | done].
Qed.
(** ** Immediates *)

Lemma cj_decode imm : 0 ≤ imm < 2048 → riscv_decode_cj_imm imm = cj_imm imm.
Proof.
  intros Hi. assert (forall_range 0 2048 (λ x, riscv_decode_cj_imm x =? cj_imm x) = true) as Hall by by vm_compute.
  apply (forall_range_spec _ _ _ imm) in Hall; [by apply Z.eqb_eq in Hall | lia].
Qed.

Lemma two_fields (f g : Z → Z → Z) a b hi lo :
  forall_range 0 a (λ x, forall_range 0 b (λ y, f x y =? g x y)) = true → 0 ≤ hi < a → 0 ≤ lo < b → f hi lo = g hi lo.
Proof.
  intros Hall Hh Hl. apply (forall_range_spec _ _ _ hi) in Hall; [|lia]. apply (forall_range_spec _ _ _ lo) in Hall; [|lia].
  by apply Z.eqb_eq in Hall.
Qed.

Lemma b_decode hi lo : 0 ≤ hi < 128 → 0 ≤ lo < 32 → riscv_decode_b_imm hi lo = b_imm hi lo.
Proof. apply two_fields. by vm_compute. Qed.

Lemma cb_decode hi lo : 0 ≤ hi < 8 → 0 ≤ lo < 32 → riscv_decode_cb_offset hi lo = cb_imm hi lo.
Proof. apply two_fields. by vm_compute. Qed.

Lemma auipc_decode imm : 0 ≤ imm < 2 ^ 20 → sign_extend 32 (u32 (Z.shiftl imm 12)) = u_imm imm.
Proof.
  intros Hi. rewrite Z.shiftl_mul_pow2, u32_small by lia. unfold u_imm. apply sign_extend_signed; lia.
Qed.

(** ** Exits of the application *)

Lemma ended_stays q q1 k n bb w :
  ended q q1 k → fits bb n (s_world q) (s_write q) (s_data q) → s_write q1 ≤ s_data q1 → stays_from q1 w → stays_from q w ∧ later q1 w.
Proof.
  intros [_ _ Hd Hw Hn Hff Hc] [_ _ _ _ _ _ Hda] Hle Hst. split.
  - eapply changes_stays; [exact Hc | exact Hst |]. intros x j Hj Hx Hxc. unfold disjoint. lia.
  - exists (s_data q1), (first_free (s_world q1)). split; [exact Hst | lia].
Qed.

(** What the code of an exit does: the dispatcher is entered with a state like
    that of the application behind the branch. *)
Definition arrives bb w (write : Z) (a a' : machine) : Prop :=
  ∀ m, sim a m → ok m → pc m = write →
    ∃ m1 m', sim a' m1 ∧ runs app w m m' ∧ ok m' ∧ dispatched dispatcher_addr m1 m' (pc a') bb.

(** [q1] ends the block that [q] is in, for an application that goes from [a] to
    [a']. *)
Definition exits bb q q1 (a a' : machine) : Prop :=
  s_stop q1 = true ∧ ∀ w, stays_from q1 w → stays_from q w ∧ arrives bb w (s_write q) a a'.

Lemma jump_arrives (Happ : app_ok) bb k q i rd_ target q1 a a' :
  fits bb k (s_world q) (s_write q) (s_data q) → 0 ≤ k → rd_ ≠ sp → 0 ≤ target < 2 ^ 64 →
  scan_jump cfg dispatcher_addr i bb rd_ target q = Ok q1 → s_write q1 ≤ s_data q1 → pc a' = target →
  linked_state rd_ (u64 (next_addr (enum RISCV_LUI) (s_read q) (enum i))) a a' → exits bb q q1 a a'.
Proof.
  intros Hf Hk Hrd Htg H Hle Hpc Hl. destruct (scan_jump_spec bb k q i rd_ target q1) as (n & He & Hgo); [done..|].
  split; [by destruct He|]. intros w Hst. destruct (ended_stays _ _ _ _ _ _ He Hf Hle Hst) as [Hst0 Hla]. split; [done|].
  intros m Hm Ho Hp. destruct (Hgo w m Hla Ho Hp) as (m1 & m' & Hl1 & Hrun & Ho' & Hd). rewrite Hpc. exists m1, m'.
  split; [|by split_and!]. eapply sim_same; [done | by apply sim_set | by apply linked_set | by apply linked_set].
Qed.

(** The way over a hop. *)
Lemma hop_arrives (Happ : app_ok) bb q q0 w a a' : hops q q0 →
  stays_from q0 w ∧ arrives bb w (s_write q0) a a' → stays_from q w ∧ arrives bb w (s_write q) a a'.
Proof.
  intros Hhop [Hst Har]. destruct (Hhop w Hst) as [Hst1 Hgo]. split; [done|]. intros m Hm Ho Hp.
  destruct (Hgo m Ho Hp) as (m1 & Hr1 & Hp1 & Hs1 & Ho1). destruct (Har m1) as (m2 & m' & Hm2 & Hr' & Ho' & Hd);
    [by eapply sim_same; [..|exact Hs1] | done | done |]. exists m2, m'. split; [done|]. split; [by eapply rtc_trans | done].
Qed.

Lemma side_sim (Happ : app_ok) cond r1 r2 x y a m : sim a m → side cond r1 r2 x y m = side cond r1 r2 x y a.
Proof. intros H. unfold side. by rewrite !(sim_get Happ a m). Qed.

Lemma branch_arrives (Happ : app_ok) bb q i cond r1 r2 target q1 a a' :
  fits bb 56 (s_world q) (s_write q) (s_data q) → 0 ≤ target < 2 ^ 64 →
  scan_branch cfg dispatcher_addr i bb cond r1 r2 target q = Ok q1 → s_write q1 ≤ s_data q1 → same_state a a' →
  pc a' = side (cond_of cond) r1 r2 target (u64 (next_addr (enum RISCV_LUI) (s_read q) (enum i))) a → exits bb q q1 a a'.
Proof.
  intros Hf Htg H Hle Hss Hpc. destruct (scan_branch_spec bb 56 q i cond r1 r2 target q1) as (q0 & n & Hf0 & Hhop & He & Hgo); [done..|].
  split; [by destruct He|]. intros w Hst. destruct (ended_stays _ _ _ _ _ _ He Hf0 Hle Hst) as [Hst0 Hla].
  eapply hop_arrives; [done | done |]. split; [done|]. intros m Hm Ho Hp. destruct (Hgo w m Hla Ho Hp) as (m' & Hr' & Ho' & Hd).
  exists m, m'. split; [by eapply sim_same|]. rewrite Hpc, <- (side_sim Happ _ _ _ _ _ _ _ Hm). by split_and!.
Qed.
Ltac field_bits n := Pie.field_bits n.

(** The exit of each instruction; what follows the check of the space is the
    same for all of them. *)
Lemma c_branch_arrives (Happ : app_ok) bb q (eq : bool) q1 a a' :
  let f := cf (pc a) C_BEQZ_TXT in
  let i := if eq then RISCV_C_BEQZ else RISCV_C_BNEZ in
  fits bb 56 (s_world q) (s_write q) (s_data q) → pc a = s_read q →
  a' = exec (if eq then C_beqz (f "b"%char) (f "a"%char) (f "c"%char) else C_bnez (f "b"%char) (f "a"%char) (f "c"%char)) a →
  scan_branch cfg dispatcher_addr i bb (if eq then 0 else 1) (f "b"%char + s0) zero
    (u64 (pc a + riscv_decode_cb_offset (f "a"%char) (f "c"%char))) q = Ok q1 → s_write q1 ≤ s_data q1 →
  exits bb q q1 a a'.
Proof.
  intros f i Hf Hpc -> H Hle. assert (0 ≤ f "b"%char < 8) as Hb by field_bits 3.
  assert (0 ≤ f "a"%char < 8) as Hh by field_bits 3. assert (0 ≤ f "c"%char < 32) as Hl by field_bits 5.
  rewrite cb_decode in H by done.
  assert (creg (f "b"%char) = f "b"%char + s0) as Hcr by (unfold creg, s0; rewrite bits_small by done; lia).
  eapply branch_arrives; [done | done | | exact H | done | |]; [apply u64_range | |]; destruct eq; cbn [exec]; rewrite Hcr;
    [by case_match | by case_match | |]; unfold side; cbn [cond_of holds]; rewrite get_zero, <- Hpc; by destruct (get a _ =? 0).
Qed.

Lemma next_addr_4 i a : (enum RISCV_LUI <=? enum i) = true → next_addr (enum RISCV_LUI) a (enum i) = a + 4.
Proof. intros Hi. unfold next_addr. by rewrite Hi. Qed.

Lemma jal_arrives (Happ : app_ok) bb q q1 a a' :
  fits bb 56 (s_world q) (s_write q) (s_data q) → ok a → pc a = s_read q → decode (pc a) = RISCV_JAL → wf (pc a) JAL_TXT "b"%char ≠ sp →
  a' = exec (Jal (wf (pc a) JAL_TXT "b"%char) (wf (pc a) JAL_TXT "a"%char)) a →
  scan_inst RISCV_JAL bb (s_read q) q = Ok q1 → s_write q1 ≤ s_data q1 →
  exits bb q q1 a a'.
Proof.
  intros Hf Ho Hpc Hi Hrd -> H Hle. unfold RiscvScan.scan_inst in H. apply bind_ok_inv in H as (q0 & Hq0 & H).
  destruct (with_space_spec bb 56 BRANCH_FSPACE q q0) as (Hf0 & Hrd0 & _ & Hhop); [done..|].
  assert (0 ≤ wf (pc a) JAL_TXT "a"%char < 2 ^ 20) as Hr by field_bits 20. rewrite <- Hpc in H. rewrite <- j_imm_decode in H by done.
  destruct (jump_arrives Happ bb BRANCH_FSPACE q0 RISCV_JAL (wf (pc a) JAL_TXT "b"%char) (u64 (pc a + j_imm (wf (pc a) JAL_TXT "a"%char))) q1 a
              (exec (Jal (wf (pc a) JAL_TXT "b"%char) (wf (pc a) JAL_TXT "a"%char)) a)) as [Hs Hst];
    [done | done | done | apply u64_range | exact H | done | done | |].
  - rewrite next_addr_4, Hrd0, <- Hpc by done. split; cbn [exec]; [| |done|done].
    + intros Hz. by rewrite get_set_pc, get_set_eq.
    + intros r Hne. by rewrite get_set_pc, get_set_ne.
  - split; [done|]. intros w Hw. eapply hop_arrives; [done | done | by apply Hst].
Qed.

Lemma b_branch_arrives (Happ : app_ok) bb q q1 a a' :
  let f := wf (pc a) BRANCH_TXT in
  fits bb 56 (s_world q) (s_write q) (s_data q) → pc a = s_read q →
  decode (pc a) ∈ [RISCV_BEQ; RISCV_BNE; RISCV_BLT; RISCV_BGE; RISCV_BLTU; RISCV_BGEU] →
  a' = exec (Branch (cond_of (f "d"%char)) (f "c"%char) (f "b"%char) (f "a"%char) (f "e"%char)) a →
  scan_inst (decode (pc a)) bb (s_read q) q = Ok q1 → s_write q1 ≤ s_data q1 →
  exits bb q q1 a a'.
Proof.
  intros f Hf Hpc Hi -> H Hle.
  assert (scan_branch cfg dispatcher_addr (decode (pc a)) bb (f "d"%char) (f "c"%char) (f "b"%char)
    (u64 (pc a + riscv_decode_b_imm (f "a"%char) (f "e"%char))) q = Ok q1
    ∧ (enum RISCV_LUI <=? enum (decode (pc a))) = true) as [H' Hlui].
  { unfold f. revert H. rewrite Hpc in *.
    repeat (apply elem_of_cons in Hi as [->|Hi]; [by split|]). by apply not_elem_of_nil in Hi. }
  assert (0 ≤ f "a"%char < 128) as Hh by field_bits 7. assert (0 ≤ f "e"%char < 32) as Hl by field_bits 5.
  rewrite b_decode in H' by done.
  eapply branch_arrives; [done | done | | exact H' | done | |]; [apply u64_range | |]; cbn [exec]; [by case_match|].
  unfold side. rewrite next_addr_4, <- Hpc by done. by case_match.
Qed.

Lemma block_exit_arrives (Happ : app_ok) bb start q q1 a a' :
  fits bb 56 (s_world q) (s_write q) (s_data q) → src_exit a a' → ok a → pc a = s_read q →
  scan_inst (decode (pc a)) bb start q = Ok q1 → s_write q1 ≤ s_data q1 →
  exits bb q q1 a a'.
Proof.
  intros Hf Hx Hok Hpc H Hle. pose proof (u64_range (s_read q)).
  assert (has_compressed cfg = true) as Hcomp by (unfold has_compressed; by rewrite Ht).
  assert (∀ ret target : Z, linked_state zero ret a (set_pc target a)) as Hlz by (intros; by split).
  destruct Hx as [Hi Ha | Hi Ha | Hi Ha | Hi Hrd Ha | Hi Ha | Hi Ha].
  - rewrite Hi in H. unfold RiscvScan.scan_inst in H. rewrite Hcomp in H. cbn [scan_compressed] in H.
    assert (0 ≤ cf (pc a) C_J_TXT "a"%char < 2048) as Hr by field_bits 11.
    rewrite <- Hpc, cj_decode in H by done. subst a'.
    eapply (jump_arrives Happ bb 56 q RISCV_C_J zero); [done | done | done | | exact H | done | done | apply Hlz]. apply u64_range.
  - rewrite Hi in H. unfold RiscvScan.scan_inst in H. rewrite Hcomp in H. cbn [scan_compressed] in H. rewrite decide_True in H by done.
    rewrite <- Hpc in H. by apply (c_branch_arrives Happ bb q true).
  - rewrite Hi in H. unfold RiscvScan.scan_inst in H. rewrite Hcomp in H. cbn [scan_compressed] in H. rewrite decide_False in H by done.
    rewrite <- Hpc in H. by apply (c_branch_arrives Happ bb q false).
  - eapply jal_arrives; try done. by rewrite Hi in H.
  - eapply b_branch_arrives; [done | done | done | done | done | | done]. revert H.
    repeat (apply elem_of_cons in Hi as [->|Hi]; [done|]). by apply not_elem_of_nil in Hi.
  - rewrite Hi in H. unfold RiscvScan.scan_inst, scan_invalid in H. destruct (negb (s_read q =? start)); [|done]. subst a'.
    destruct Hok. eapply (jump_arrives Happ bb 56 q RISCV_INVALID zero); [done | done | done | | exact H | done | done | by split]. by rewrite <- Hpc.
Qed.

(** ** Inside of a block *)

Lemma copy_shape fuel : ∀ reg v l, riscv_copy_to_reg_64bits fuel reg v = Ok l →
  code_size l ≤ 8 * Z.of_nat fuel ∧ (reg = zero → Forall (λ i, ∀ s, same_state s (exec i s)) l).
Proof.
  assert (∀ v s, same_state s (set zero v s)) as Hz.
  { intros v s. split_and!; [|done|done]. intros r. destruct (decide (r = zero)) as [->|]; [done | by rewrite get_set_ne]. }
  induction fuel as [|fuel IH]; intros reg v l; [done|]. cbn [riscv_copy_to_reg_64bits]. destruct (_ && _).
  - intros [= <-]. split; [pose proof (copy_32bits_size reg (Z.land v 0xFFFFFFFF)); lia|]. intros ->. unfold riscv_copy_to_reg_32bits.
    apply Forall_app. split; case_match; repeat (apply Forall_cons; split; [intros s; apply Hz|]); apply Forall_nil_2.
  - intros H. apply bind_ok_inv in H as (l' & Hl & [= <-]). apply IH in Hl as [Hsz Hl]. rewrite code_size_app. split.
    + rewrite code_size_cons. cbn [inst_size]. case_match; unfold code_size at 2; simpl; lia.
    + intros Hr. apply Forall_app. split; [by apply Hl|]. subst. case_match; repeat (apply Forall_cons; split; [intros s; apply Hz|]); apply Forall_nil_2.
Qed.

Lemma run_same l : Forall (λ i, ∀ s, same_state s (exec i s)) l → ∀ s, same_state s (run l s).
Proof.
  induction 1 as [|i l Hi _ IH]; intros s; [apply same_state_refl|]. rewrite run_cons. eapply same_state_trans; [apply Hi | apply IH].
Qed.

(** A constant in any register, [zero] included. *)
Lemma copy_sets reg v l : riscv_copy_to_reg reg v = Ok l → 0 ≤ v < 2 ^ 64 →
  code_size l ≤ 32 ∧ ∀ m s, ok s → code_at m (pc s) l → pc s + code_size l < 2 ^ 64 →
    ∃ s', reaches m s s' ∧ pc s' = pc s + code_size l ∧ ok s' ∧ same_state (set reg v s) s'.
Proof.
  intros Hl Hv. destruct (copy_shape _ _ _ _ Hl) as [Hsz Hzero]. split; [exact Hsz|]. intros m s Ho Hc Hp.
  destruct (decide (reg = zero)) as [->|Hr].
  - destruct (run_straight m l s Ho) as [Hrun Hpc]; [by eapply copy_straight | done | done |]. exists (run l s).
    split_and!; [done | done | by apply ok_run |]. destruct (run_same l (Hzero eq_refl) s) as (S1 & S2 & S3).
    split_and!; [|done|done]. intros r. destruct (decide (r = zero)) as [->|]; [done | by rewrite S1, get_set_ne].
  - destruct (copy_reaches reg v Hr Hv) as (l1 & Hl1 & _ & Hgo). rewrite Hl in Hl1. injection Hl1 as <-.
    destruct (Hgo m s Ho Hc Hp) as (s' & H1 & H2 & H3 & H4 & H5 & H6 & H7). exists s'.
    do 3 (split; [assumption|]). split; [|by split].
    intros r. destruct (decide (r = reg)) as [->|]; [by rewrite H6, get_set_eq, u64_small | by rewrite H7, get_set_ne].
Qed.

Lemma scan_inst_copied i bb start q : is_copied i = true → i = decode (s_read q) →
  scan_inst i bb start q = Ok (put_raw (raw_at (s_read q)) q).
Proof.
  intros Hc Hi. assert (has_compressed cfg = true) as Hcomp by (unfold has_compressed; by rewrite Ht).
  unfold raw_at. rewrite <- Hi.
  destruct i; try discriminate Hc; unfold RiscvScan.scan_inst; rewrite ?Hcomp; try reflexivity;
    unfold scan_extension; rewrite Hext; reflexivity.
Qed.

(** What an instruction writes inside a block: [q1] is [q] with at most 32 bytes
    of code, and those take the application from [a] to [a']. *)
Definition advances q q1 (a a' : machine) : Prop :=
  ∃ k, 0 ≤ k ≤ 32 ∧ s_write q1 = s_write q + k ∧ Z.even k = true ∧ s_data q1 = s_data q ∧ s_read q1 = s_read q ∧ s_stop q1 = s_stop q
    ∧ w_th (s_world q1) = w_th (s_world q) ∧ changes (s_world q) (s_world q1) (s_write q) k
    ∧ ∀ w b c m, stays (s_world q1) w (s_write q + k) b c → s_write q + k ≤ c → s_write q + k < 2 ^ 63 →
        sim a m → ok m → pc m = s_write q → ∃ m', runs app w m m' ∧ pc m' = s_write q + k ∧ ok m' ∧ sim a' m'.

Lemma put_code_fields l q :
  s_write (put_code l q) = s_write q + code_size l ∧ s_data (put_code l q) = s_data q ∧ s_read (put_code l q) = s_read q
  ∧ s_stop (put_code l q) = s_stop q ∧ s_world (put_code l q) = fst (emit_code l (s_world q) (s_write q)).
Proof. done. Qed.

Lemma auipc_advances (Happ : app_ok) bb start q q1 a a' :
  decode (pc a) = RISCV_AUIPC → pc a + 4 < 2 ^ 63 → wf (pc a) AUIPC_TXT "b"%char ≠ sp → pc a = s_read q →
  a' = exec (Auipc (wf (pc a) AUIPC_TXT "b"%char) (wf (pc a) AUIPC_TXT "a"%char)) a →
  scan_inst (decode (pc a)) bb start q = Ok q1 → advances q q1 a a' ∧ pc a' = u64 (pc a + 4).
Proof.
  intros Hi Hsmall Hsp Hpc -> H. rewrite Hi in H. unfold RiscvScan.scan_inst in H.
  assert (0 ≤ wf (pc a) AUIPC_TXT "a"%char < 2 ^ 20) as Hr by field_bits 20.
  rewrite <- Hpc, auipc_decode in H by done.
  apply bind_ok_inv in H as (l & Hl & [= <-]). destruct (copy_sets _ _ _ Hl (u64_range _)) as [Hsz Hgo].
  split; [|done]. exists (code_size l). pose proof (code_size_nonneg l). pose proof (code_size_even l).
  split_and!; try done; [apply emit_changes|]. intros w b c m Hst Hc Hw Hm Ho Hp.
  destruct (Hgo (w_code w) m) as (m' & Hrun & Hp' & Ho' & Hs'); [done | | rewrite Hp; lia |].
  - rewrite Hp. eapply stays_code; [exact Hst | | by left | done]. apply place_code_at.
  - exists m'. split; [by apply runs_reaches|]. split; [by rewrite Hp', Hp|]. split; [done|].
    set (v := pc a + u_imm (wf (pc a) AUIPC_TXT "a"%char)) in *.
    eapply sim_same; [done | exact (sim_set Happ a m _ (u64 v) Hm Hsp) | | exact Hs']. cbn [exec]. fold v.
    split_and!; [|done|done]. intros r. rewrite get_next. destruct (decide (r = zero)) as [->|Hz]; [done|].
    destruct (decide (r = wf (pc a) AUIPC_TXT "b"%char)) as [->|Hne]; [by rewrite !get_set_eq, u64_u64 | by rewrite !get_set_ne].
Qed.

Lemma raw_at_size a : raw_size (raw_at a) = inst_length (decode a).
Proof. unfold raw_at, inst_length. by case_match. Qed.

Lemma inst_length_cases i : inst_length i = 2 ∨ inst_length i = 4.
Proof. unfold inst_length. case_match; [by left | by right]. Qed.

Lemma copied_advances (Happ : app_ok) bb start q q1 a a' :
  is_copied (decode (pc a)) = true → pc a = s_read q → ok a → app (raw_at (pc a)) a = Some a' →
  scan_inst (decode (pc a)) bb start q = Ok q1 → advances q q1 a a' ∧ pc a' = u64 (pc a + inst_length (decode (pc a))).
Proof.
  intros Hc Hpc Hoa Ha H. rewrite scan_inst_copied in H by (done || by rewrite Hpc). injection H as <-. rewrite <- Hpc, <- raw_at_size.
  destruct (app_next Happ _ _ _ Ha Hoa) as [Hoa' Hpca']. set (j := raw_at (pc a)) in *.
  assert (raw_size j = 2 ∨ raw_size j = 4) as Hsz by (unfold j; rewrite raw_at_size; apply inst_length_cases).
  assert (Z.even (raw_size j) = true) as Hev by by destruct Hsz as [-> | ->].
  split; [|done]. exists (raw_size j). split_and!; try done; [lia | lia | apply copy_changes; lia |].
  intros w b c m Hst Hc' Hw Hm Ho Hp. destruct (app_anywhere Happ _ _ _ m Ha Hm Hoa Ho) as (m' & Hm' & Hs').
  destruct (app_next Happ _ _ _ Hm' Ho) as [Ho' Hp']. destruct Ho as [Hpm _].
  exists m'. split_and!; [|rewrite Hp', Hp; apply u64_small; lia | done | done].
  apply rtc_once. exists (inr j). split; [|done]. rewrite Hp. apply Hst; simpl; [apply copy_fetch; lia | lia | by left | lia].
Qed.

(** ** The loop *)

Lemma fits_advance bb k j q q1 :
  fits bb k (s_world q) (s_write q) (s_data q) → 0 ≤ j → w_th (s_world q1) = w_th (s_world q) → s_data q1 = s_data q →
  s_write q1 = s_write q + j → Z.even j = true → fits bb (k - j) (s_world q1) (s_write q1) (s_data q1).
Proof.
  intros [F1 F2 F3 F4 [F5 F6] F7 F8] Hj Hth Hd Hw He. unfold first_free in F8. split; unfold first_free; rewrite ?Hth, ?Hd, ?Hw; try done; [|lia].
  split; [lia|]. by rewrite Z.even_add, F6, He.
Qed.

Section block.
Context (Happ : app_ok) (g : global (world (T := T))) (watched : list (Z * mambo_callback (world (T := T)))).
Context (bb : Z) (type : cc_type) (start : Z) (bb_type : branch_type) (Hg : free_plugin g ≤ 0).
Notation scan_step := (scan_step cfg ext dispatcher_addr syscall_wrapper_addr entries_addr riscv_decode source g watched bb type start bb_type).
Notation scan_loop := (scan_loop cfg ext dispatcher_addr syscall_wrapper_addr entries_addr riscv_decode source g watched bb type start bb_type).

Lemma quiet cb_id read i allow q :
  riscv_scanner_deliver_callbacks cfg g watched cb_id read i bb type allow q = Ok (false, read, q).
Proof. unfold riscv_scanner_deliver_callbacks. by rewrite (proj2 (Z.ltb_ge _ _) Hg). Qed.

Lemma scan_step_quiet q : scan_step q =
  (q1 ← scan_inst (decode (s_read q)) bb start q;
   if s_data q1 <=? s_write q1 then Err Hang
   else q2 ← (if negb (s_stop q1) then with_space cfg MIN_FSPACE bb q1 else Ok q1);
        Ok (MkScan (s_ids q2) (s_world q2) (next_instruction (decode (s_read q)) (s_read q2)) (s_write q2) (s_data q2) (s_stop q2))).
Proof.
  unfold RiscvScan.scan_step. cbv zeta. rewrite !quiet.
  assert (∀ (b : bool) (x : outcome (bool * Z * scan_state (T := T))), (if b then x else x) = x) as Hif by by intros [].
  rewrite Hif. cbn [mbind outcome_bind]. destruct (scan_inst _ _ _ _) as [q1|]; [|done]. cbn [mbind outcome_bind].
  destruct (s_data q1 <=? s_write q1); [done|]. destruct (if negb (s_stop q1) then _ else _) as [q2|]; [|done].
  cbn [mbind outcome_bind]. by rewrite quiet, Hif.
Qed.

Lemma src_step_advances q q1 a a' :
  src_step a a' → ok a → pc a = s_read q → scan_inst (decode (pc a)) bb start q = Ok q1 →
  advances q q1 a a' ∧ pc a' = next_instruction (decode (pc a)) (pc a) ∧ ok a'.
Proof.
  intros Hs Ho Hpc H. pose proof (inst_length_cases (decode (pc a))) as Hl. pose proof Ho as [Hp _].
  destruct Hs as [Hc Hsm Ha | Hi Hsm Hsp ->].
  - destruct (copied_advances Happ bb start q q1 a a') as [Had Hpa]; [done..|]. split_and!; [done | | by eapply app_next].
    unfold next_instruction. rewrite Hpa, u64_small; lia.
  - destruct (auipc_advances Happ bb start q q1 a _ Hi Hsm Hsp Hpc eq_refl H) as [Had Hpa]. split_and!; [done | | by apply ok_exec].
    unfold next_instruction. rewrite Hpa, Hi, u64_small; (lia || done).
Qed.

(** An instruction inside the block, and the code of the rest behind it. *)
Lemma advance_arrives q q1 q2 w a a' a2 :
  fits bb 56 (s_world q) (s_write q) (s_data q) → advances q q1 a a' → hops q1 q2 →
  stays_from q2 w ∧ arrives bb w (s_write q2) a' a2 → stays_from q w ∧ arrives bb w (s_write q) a a2.
Proof.
  intros Hf (k & Hk & Hw & Hev & Hd & _ & _ & Hth & Hch & Hgo) Hhop H.
  destruct (hop_arrives Happ _ _ _ _ _ _ Hhop H) as [Hst Har]. clear H Hhop.
  assert (first_free (s_world q1) = first_free (s_world q)) as Hff by (unfold first_free; by rewrite Hth).
  unfold stays_from in *. rewrite Hff, Hw, Hd in *. destruct Hf as [[[? ?] _ _ _] ? ? ? [? ?] ? Hda].
  assert (first_free (s_world q) < 2 ^ 63) as Hb by (unfold first_free; rewrite block_addr_eq; lia).
  split.
  - eapply changes_stays; [exact Hch | exact Hst |]. intros x n Hn Hx Hxc. unfold disjoint. lia.
  - intros m Hm Ho Hp. destruct (Hgo w _ _ m Hst) as (m1 & Hr1 & Hp1 & Ho1 & Hs1); [lia | lia | done | done | done |].
    destruct (Har m1 Hs1 Ho1 Hp1) as (m2 & m' & Hm2 & Hr' & Ho' & Hd'). exists m2, m'. split; [done|]. split; [by eapply rtc_trans | done].
Qed.

Lemma loop_arrives a a1 a2 : rtc src_step a a1 → src_exit a1 a2 → ∀ fuel q q',
  ok a → pc a = s_read q → s_stop q = false → fits bb 56 (s_world q) (s_write q) (s_data q) →
  scan_loop fuel q = Ok q' → ∀ w, stays_from q' w → stays_from q w ∧ arrives bb w (s_write q) a a2.
Proof.
  intros Hpath Hexit. induction Hpath as [a|a b a1 Hstep _ IH]; intros fuel q q' Ho Hpc Hstop Hf H;
    (destruct fuel as [|fuel]; [done|]); cbn [RiscvScan.scan_loop] in H; rewrite Hstop in H;
    apply bind_ok_inv in H as (q3 & Hs & H); rewrite scan_step_quiet in Hs; apply bind_ok_inv in Hs as (q1 & Hq1 & Hs);
    destruct (Z.leb_spec (s_data q1) (s_write q1)); try done.
  - rewrite <- Hpc in Hq1. destruct (block_exit_arrives Happ bb start q q1 a a2) as [Hs1 Hst]; [done..|lia|].
    rewrite Hs1 in Hs. cbn [negb] in Hs. injection Hs as <-. destruct fuel as [|fuel]; [done|]. cbn [RiscvScan.scan_loop s_stop] in H.
    rewrite Hs1 in H. injection H as <-. exact Hst.
  - rewrite <- Hpc in Hq1. destruct (src_step_advances q q1 a b Hstep Ho Hpc Hq1) as (Hadv & Hpb & Hob).
    pose proof Hadv as (k & Hk & Hw & Hev & Hd & Hrd & Hst1 & Hth & _). rewrite Hst1, Hstop in Hs. cbn [negb] in Hs.
    apply bind_ok_inv in Hs as (q2 & Hq2 & [= <-]).
    destruct (with_space_spec bb (56 - k) MIN_FSPACE q1 q2) as (Hf2 & Hr2 & Hs2 & Hhop); [|lia|done|done|].
    { eapply fits_advance; (done || lia). }
    intros w Hwf. eapply advance_arrives; [done | done | exact Hhop |].
    set (q3 := MkScan _ _ _ _ _ _) in H.
    refine (IH Hexit fuel q3 q' Hob _ _ Hf2 H w Hwf); cbn [q3 s_read s_stop]; [by rewrite Hr2, Hrd, <- Hpc | by rewrite Hs2, Hst1].
Qed.
End block.

(** ** Blocks *)

(** A block of the thread, with room for translations. *)
Record block_ok (bb : Z) w : Prop := {
  block_cache : cache_ok (code_cache (w_th w));
  block_range : 0 ≤ bb < 2 ^ 31;
  block_taken : bb < free_block (w_th w) ≤ CODE_CACHE_SIZE cfg;
  block_meta : is_Some (code_cache_meta (w_th w) !! Z.to_nat bb);
  block_not_null : 0 < block_addr cfg (w_th w) bb }.

Lemma trampoline_ok bb f (b : bool) w th :
  block_ok bb w → (if b then upd_meta bb f (w_th w) else Ok (w_th w)) = Ok th → block_ok bb (MkWorld th (w_code w) (w_raw w))
  ∧ block_addr cfg th bb = block_addr cfg (w_th w) bb.
Proof.
  intros Hb H. assert (∃ ms, th = set_code_cache_meta ms (w_th w) ∧ length ms = length (code_cache_meta (w_th w))) as (ms & -> & Hl).
  { destruct b; [by eapply upd_meta_inv|]. injection H as <-. exists (code_cache_meta (w_th w)). by destruct (w_th w). }
  split; [|done]. destruct Hb as [B1 B2 B3 B4 B5]. split; try done. cbn [w_th set_code_cache_meta code_cache_meta].
  apply lookup_lt_is_Some. rewrite Hl. by apply lookup_lt_is_Some.
Qed.

Lemma restore_6 : ∃ restore, riscv_restore_context (cfg_target cfg) = Ok restore ∧ code_size restore = 6 ∧ forallb straight restore = true.
Proof. rewrite Ht. eexists. split_and!; [reflexivity | by vm_compute | by vm_compute]. Qed.

Definition first_state (ids : Z * Z * list Z) (read bb : Z) (restore : list inst) w : scan_state :=
  put_code restore (MkScan ids w read (block_addr cfg (w_th w) bb) (block_addr cfg (w_th w) bb + 256) false).

Lemma first_state_fits ids read bb restore w : code_size restore = 6 → block_ok bb w →
  let q := first_state ids read bb restore w in
  fits bb 56 (s_world q) (s_write q) (s_data q) ∧ s_write q = block_addr cfg (w_th w) bb + 6
  ∧ code_at (w_code (s_world q)) (block_addr cfg (w_th w) bb) restore ∧ s_write q ≤ first_free (s_world q).
Proof.
  intros Hsz [B1 B2 B3 B4 B5] q. destruct B1 as [[? ?] He ? ?]. pose proof (block_addr_eq (w_th w) bb) as Hba.
  destruct (put_code_fields restore (MkScan ids w read (block_addr cfg (w_th w) bb) (block_addr cfg (w_th w) bb + 256) false))
    as (Hw & Hd & _ & _ & _). fold q in Hw, Hd. unfold q, first_state in Hw, Hd. fold (first_state ids read bb restore w) in Hw, Hd. fold q in Hw, Hd.
  cbn [s_write s_data] in Hw, Hd. rewrite Hsz in Hw.
  assert (first_free (s_world q) = code_cache (w_th w) + free_block (w_th w) * 256) as Hff by (unfold first_free; by rewrite block_addr_eq).
  rewrite Hw, Hd, Hff. split_and!; [|done| apply place_code_at | nia].
  split; rewrite ?Hff; try done; [cbn; lia | | lia | nia].
  split; [cbn; nia|]. rewrite Hba. rewrite !Z.even_add, Z.even_mul, He. by rewrite orb_true_r.
Qed.

(** The first state, seen from what is left of it. *)
Lemma first_state_stays ids read bb restore w w' : code_size restore = 6 →
  let q := first_state ids read bb restore w in let tpc := block_addr cfg (w_th w) bb in
  stays_from q w' → block_ok bb w → stays w w' tpc (tpc + 256) (first_free w) ∧ code_at (w_code w') tpc restore.
Proof.
  intros Hsz q tpc Hst Hb. destruct (first_state_fits ids read bb restore w Hsz Hb) as ([_ _ _ _ _ _ Hd] & Hw & Hcode & Hle).
  fold q tpc in Hw, Hcode, Hle, Hd. assert (first_free (s_world q) = first_free w) as Hff by done.
  assert (s_data q = tpc + 256) as Hda by done. unfold stays_from in Hst. rewrite Hff, Hda, Hw in *. split.
  - eapply changes_stays; [apply emit_changes | exact Hst |]. intros x n Hn Hx Hxc. rewrite Hsz. unfold disjoint.
    cbn [s_write]. fold tpc. lia.
  - eapply stays_code; [exact Hst | exact Hcode | rewrite Hsz; left; lia | rewrite Hsz; lia].
Qed.

(** [scan_riscv] for a block without plugins and counters. *)
Lemma scan_riscv_quiet fuel g watched ids w read bb :
  free_plugin g ≤ 0 → DBM_TRACES cfg = false →
  ∃ restore, riscv_restore_context (cfg_target cfg) = Ok restore ∧ code_size restore = 6 ∧ forallb straight restore = true
  ∧ scan_riscv cfg ext dispatcher_addr trace_head_incr_addr syscall_wrapper_addr entries_addr riscv_decode source fuel g watched ids w
      read bb mambo_bb 0
    = (th ← (if DBM_JUMP_TRAMPOLINES cfg then upd_meta bb (set_trampoline None 0) (w_th w) else Ok (w_th w));
       ty ← pass1_riscv riscv_decode source fuel read;
       q ← scan_loop cfg ext dispatcher_addr syscall_wrapper_addr entries_addr riscv_decode source g watched bb mambo_bb read ty fuel
             (put_code restore (MkScan ids (MkWorld th (w_code w) (w_raw w)) read (block_addr cfg (w_th w) bb) (block_addr cfg (w_th w) bb + 256) false));
       th ← (if DBM_JUMP_TRAMPOLINES cfg && (TRAMPOLINE_SPACE <=? u64 (s_data q - s_write q))
             then upd_meta bb (λ m, set_trampoline (Some (s_write q)) (trampoline_slots_used m) m) (w_th (s_world q))
             else Ok (w_th (s_world q)));
       Ok (MkScan (s_ids q) (MkWorld th (w_code (s_world q)) (w_raw (s_world q))) (s_read q) (s_write q) (s_data q) (s_stop q),
           (s_write q - block_addr cfg (w_th w) bb) / 2)).
Proof.
  intros Hg Htr. destruct restore_6 as (restore & Hr & Hsz & Hstr). exists restore. split_and!; [done..|].
  unfold scan_riscv, scan_body, counts_executions. cbn [Z.eqb].
  rewrite !bool_decide_true, (bool_decide_false (mambo_bb = mambo_trace)), !andb_true_r, Hbs, Hr, Htr by done.
  cbn [negb andb mbind outcome_bind]. rewrite Hsz. destruct (if DBM_JUMP_TRAMPOLINES cfg then _ else _) as [th|]; [|done].
  cbn [Z.eqb Pos.eqb c_assert mbind outcome_bind]. destruct (pass1_riscv _ _ _ _) as [ty|]; [|done]. cbn [mbind outcome_bind].
  rewrite quiet by done. cbn [mbind outcome_bind snd]. rewrite quiet by done. cbn [mbind outcome_bind put_code s_ids s_read s_stop s_write s_data s_world].
  change (64 * 4) with 256. destruct (scan_loop _ _ _ _ _ _ _ _ _ _ _ _ _ _ _) as [q|]; [|done]. cbn [mbind outcome_bind].
  rewrite quiet by done. cbn [mbind outcome_bind snd]. rewrite quiet by done. done.
Qed.

Lemma scan_riscv_inv fuel g watched ids w read bb q n :
  free_plugin g ≤ 0 → DBM_TRACES cfg = false → block_ok bb w →
  scan_riscv cfg ext dispatcher_addr trace_head_incr_addr syscall_wrapper_addr entries_addr riscv_decode source fuel g watched ids w
    read bb mambo_bb 0 = Ok (q, n) →
  ∃ w1 restore bb_type q1, block_ok bb w1 ∧ block_addr cfg (w_th w1) bb = block_addr cfg (w_th w) bb
    ∧ first_free w1 = first_free w ∧ (∀ x, fetch w1 x = fetch w x) ∧ riscv_restore_context (cfg_target cfg) = Ok restore
    ∧ scan_loop cfg ext dispatcher_addr syscall_wrapper_addr entries_addr riscv_decode source g watched bb mambo_bb read bb_type
        fuel (first_state ids read bb restore w1) = Ok q1
    ∧ ∀ w', stays_from q w' → stays_from q1 w'.
Proof.
  intros Hg Htr Hb H. destruct (scan_riscv_quiet fuel g watched ids w read bb Hg Htr) as (restore & Hr & _ & _ & Heq). rewrite Heq in H. clear Heq.
  apply bind_ok_inv in H as (th & Hth & H). destruct (trampoline_ok _ _ _ _ _ Hb Hth) as [Hb1 Hba].
  apply bind_ok_inv in H as (ty & _ & H). apply bind_ok_inv in H as (q1 & Hq1 & H). apply bind_ok_inv in H as (th' & Hth' & H). injection H as <- _.
  exists (MkWorld th (w_code w) (w_raw w)), restore, ty, q1. split; [done|]. split; [done|].
  split; [by destruct (DBM_JUMP_TRAMPOLINES cfg); [apply upd_meta_inv in Hth as (ms & -> & _) | injection Hth as <-]|]. split; [done|]. split; [done|].
  split; [unfold first_state; cbn [w_th]; by rewrite Hba|]. intros w' Hw'. unfold stays_from, stays, fetch in *. cbn [s_world s_write s_data w_code w_raw] in Hw'.
  replace (first_free (s_world q1)) with (block_addr cfg th' (free_block th')); [exact Hw'|].
  assert (∃ ms, th' = set_code_cache_meta ms (w_th (s_world q1))) as [ms ->]; [|done].
  destruct (_ && _); [apply upd_meta_inv in Hth' as (ms & -> & _); by exists ms | injection Hth' as <-].
  exists (code_cache_meta (w_th (s_world q1))). by destruct (w_th (s_world q1)).
Qed.

(** Where the translation of a block starts, as the dispatcher enters it: with
    [a0] and [a1] on the stack. *)
Definition enters (tpc : Z) (a m : machine) : Prop :=
  ∃ restore, riscv_restore_context (cfg_target cfg) = Ok restore ∧ sim a (run restore m) ∧ ok m ∧ pc m = tpc.

Lemma block_follows fuel g watched ids w read bb q n a a1 a2 :
  app_ok → free_plugin g ≤ 0 → DBM_TRACES cfg = false → block_ok bb w →
  scan_riscv cfg ext dispatcher_addr trace_head_incr_addr syscall_wrapper_addr entries_addr riscv_decode source fuel g watched ids w
    read bb mambo_bb 0 = Ok (q, n) →
  ok a → pc a = read → rtc src_step a a1 → src_exit a1 a2 → ∀ w', stays_from q w' →
  let tpc := block_addr cfg (w_th w) bb in
  stays w w' tpc (tpc + 256) (first_free w)
  ∧ ∀ m, enters tpc a m ∨ sim a m ∧ ok m ∧ pc m = tpc + 6 →
      ∃ m1 m', sim a2 m1 ∧ runs app w' m m' ∧ ok m' ∧ dispatched dispatcher_addr m1 m' (pc a2) bb.
Proof.
  intros Happ Hg Htr Hb Hscan Ho Hpc Hpath Hexit w' Hw' tpc.
  destruct (scan_riscv_inv _ _ _ _ _ _ _ _ _ Hg Htr Hb Hscan) as (w1 & restore & ty & q1 & Hb1 & Hba & Hff & Hfw & Hr & Hloop & Hfin).
  destruct restore_6 as (restore' & Hr' & Hsz & Hstr). rewrite Hr in Hr'. injection Hr' as <-.
  destruct (first_state_fits ids read bb restore w1 Hsz Hb1) as (Hf & Hw & Hcode & Hle). set (q0 := first_state ids read bb restore w1) in *.
  rewrite Hba in *. fold tpc in Hw, Hcode.
  destruct (loop_arrives Happ g watched bb mambo_bb read ty Hg a a1 a2 Hpath Hexit fuel q0 q1 Ho Hpc eq_refl Hf Hloop w' (Hfin w' Hw')) as [Hst Har].
  destruct (first_state_stays ids read bb restore w1 w' Hsz Hst) as [Hst0 Hat]; [done..|]. rewrite Hba, Hff in *. fold tpc in Hst0, Hat.
  split; [intros x e Hx; apply Hst0; by rewrite Hfw|].
  intros m [(restore'' & Hr'' & Hm & Hom & Hp)|(Hm & Hom & Hp)]; [|by apply Har; [..|by rewrite Hw]].
  rewrite Hr in Hr''. injection Hr'' as <-. rewrite <- Hp in Hat.
  destruct Hb1 as [[? ?] ? [? ?] ? ?]. assert (tpc < 2 ^ 63) as Hlt by (unfold tpc; rewrite <- Hba, block_addr_eq; nia).
  destruct (run_straight (w_code w') restore m Hom Hstr Hat) as [Hrun Hpr]; [rewrite Hp, Hsz; lia|].
  destruct (Har (run restore m)) as (m1 & m' & Hm1 & Hm' & Hrest); [done | by apply ok_run | by rewrite Hpr, Hp, Hsz|].
  exists m1, m'. split; [done|]. split; [|done]. eapply rtc_trans; [by apply runs_reaches | done].
Qed.


(** ** Sizes *)

(** Constants up to 2^52, where the addresses of applications are. *)
Lemma copy_size n : ∀ fuel reg v l, riscv_copy_to_reg_64bits fuel reg v = Ok l → 0 ≤ v ≤ 2 ^ (28 + 12 * Z.of_nat n) → v < 2 ^ 64 →
  code_size l ≤ 8 + 6 * Z.of_nat n.
Proof.
  induction n as [|n IH]; intros [|fuel] reg v l H Hv Hlt; try done; pose proof H as H0;
    destruct (decide (INT_MIN ≤ s64 v ≤ INT_MAX)) as [Hint|Hint].
  1,3: cbn [riscv_copy_to_reg_64bits] in H; replace ((INT_MIN <=? s64 v) && (s64 v <=? INT_MAX)) with true in H by lia;
    injection H as <-; pose proof (copy_32bits_size reg (Z.land v 0xFFFFFFFF)); lia.
  - rewrite s64_small in Hint by lia. unfold INT_MIN, INT_MAX in Hint. lia.
  - destruct (copy_64bits_big fuel reg v) as (h & k & lo & Heq & _ & Hh & _); [lia | done |]. rewrite Heq in H0.
    apply bind_ok_inv in H0 as (l' & Hl & [= <-]). apply IH in Hl; [| |Z.div_mod_to_equations; lia].
    + rewrite code_size_app, code_size_cons. cbn [inst_size]. assert (code_size (if negb (lo =? 0) then [Addi reg reg lo] else []) ≤ 4)
        by (case_match; cbn; lia). lia.
    + replace (28 + 12 * Z.of_nat (S n)) with (12 + (28 + 12 * Z.of_nat n)) in Hv by lia.
      rewrite Z.pow_add_r in Hv by lia. Z.div_mod_to_equations. lia.
Qed.

Lemma copy_addr_size reg v l : riscv_copy_to_reg reg v = Ok l → 0 ≤ v ≤ 2 ^ 52 → code_size l ≤ 20.
Proof. intros H Hv. apply (copy_size 2) in H; lia. Qed.

Lemma copy_id_size reg v l : riscv_copy_to_reg reg v = Ok l → 0 ≤ v < 2 ^ 31 → code_size l ≤ 8.
Proof.
  unfold riscv_copy_to_reg. intros H Hv. cbn [riscv_copy_to_reg_64bits] in H.
  replace ((INT_MIN <=? s64 v) && (s64 v <=? INT_MAX)) with true in H by (rewrite s64_small by lia; unfold INT_MIN, INT_MAX; lia).
  injection H as <-. apply copy_32bits_size.
Qed.

Lemma then_dispatcher_size d code st st' : then_dispatcher d code st = Ok st' → fst st' ≤ fst st + code_size code + 8.
Proof.
  unfold then_dispatcher, riscv_go_to_dispatcher, riscv_jalr_helper. intros H. inv_ok.
  cbn [emit fst]. rewrite code_size_app. repeat case_match; simplify_eq. cbn. lia.
Qed.

Lemma exit_side_size d save id addr st st' :
  exit_side d save id addr st = Ok st' → 0 ≤ addr ≤ 2 ^ 52 → fst st' ≤ fst st + code_size save + code_size id + 28.
Proof.
  unfold exit_side. intros H Ha. inv_ok. apply then_dispatcher_size in H. apply copy_addr_size in Hx; [|done].
  rewrite !code_size_app in H. lia.
Qed.

Lemma two_sides_size d save id f tg r1 r2 c st st' :
  two_sides d save id f tg r1 r2 c st = Ok st' → 0 ≤ f ≤ 2 ^ 52 → 0 ≤ tg ≤ 2 ^ 52 →
  fst st' ≤ fst st + 60 + 2 * (code_size save + code_size id).
Proof.
  unfold two_sides. intros H Hf Ht'. inv_ok. apply exit_side_size in Hx, Hx0; [|done..]. cbn [patch skip fst] in *. lia.
Qed.

Lemma save_size t l : riscv_target t → riscv_save_context t = Ok l → code_size l = 16.
Proof. by intros [-> | ->] [= <-]. Qed.

Lemma riscv_jump_size t d lui (th th' : dbm_thread T) rd_ i bb r tg st st' :
  riscv_target t → riscv_jump t d lui th rd_ i bb r tg st = Ok (th', st') → 0 ≤ bb < 2 ^ 31 → 0 ≤ tg ≤ 2 ^ 52 →
  (r ≠ zero → 0 ≤ next_addr lui rd_ i ≤ 2 ^ 52) → fst st' ≤ fst st + (if r =? zero then 52 else 72).
Proof.
  unfold riscv_jump. intros Ht' H Hb Htg Hn. inv_ok. apply save_size in Hx1; [|done]. apply copy_addr_size in Hx2; [|done].
  apply copy_id_size in Hx3; [|done]. apply then_dispatcher_size in Hx4. rewrite !code_size_app in Hx4.
  destruct (Z.eqb_spec r zero); inv_ok; [lia|]. specialize (Hn n). rewrite u64_small in Hx6 by lia.
  apply copy_addr_size in Hx6; [|done]. cbn [emit fst] in *. lia.
Qed.

Lemma branch_code_size t d bb c r1 r2 tg f st st' :
  riscv_target t → branch_code t d bb c r1 r2 tg f st = Ok st' → 0 ≤ bb < 2 ^ 31 → 0 ≤ f ≤ 2 ^ 52 → 0 ≤ tg ≤ 2 ^ 52 →
  fst st' ≤ fst st + 132.
Proof.
  unfold branch_code. intros Ht' H Hb Hf Htg. inv_ok. apply save_size in Hx; [|done]. apply copy_id_size in Hx0; [|done].
  repeat case_match; apply two_sides_size in H; try done; cbn [emit fst] in H; rewrite ?code_size_app in H;
    change (code_size (replicate 6 nop)) with 24 in H; change (code_size []) with 0 in H; lia.
Qed.

(** ** The scanner returns *)

(** Besides the space in the block: [n] blocks are free, and the next of them is in
    reach of a jump. *)
Record has_blocks (n : nat) w (write : Z) : Prop := {
  blocks_near : first_free w - write < 2 ^ 20;
  blocks_left : free_block (w_th w) + Z.of_nat n ≤ CODE_CACHE_SIZE cfg;
  blocks_metas : CODE_CACHE_SIZE cfg ≤ Z.of_nat (length (code_cache_meta (w_th w))) }.

Lemma jal_near x y : 0 ≤ y - x < 2 ^ 20 → Z.even x = true → Z.even y = true → is_Some (riscv_jal_helper x y zero).
Proof.
  intros Hr Hx Hy. unfold riscv_jal_helper. rewrite s64_small by lia.
  assert (jal_in_range (y - x) = true) as ->; [|by eexists]. unfold jal_in_range. rewrite even_land, Z.even_sub, Hx, Hy. simpl. lia.
Qed.

Lemma upd_meta_some i f (th : dbm_thread T) : 0 ≤ i < Z.of_nat (length (code_cache_meta th)) →
  ∃ ms, upd_meta i f th = Ok (set_code_cache_meta ms th) ∧ length ms = length (code_cache_meta th).
Proof.
  intros Hi. destruct (lookup_lt_is_Some_2 (code_cache_meta th) (Z.to_nat i)) as [m Hm]; [lia|].
  unfold upd_meta. rewrite (aupd_lookup _ _ _ m) by (done || lia). eexists. split; [done|]. by rewrite length_insert.
Qed.

Lemma with_space_ok bb k size n q :
  fits bb k (s_world q) (s_write q) (s_data q) → 4 ≤ k → 0 ≤ size < 256 → has_blocks (S n) (s_world q) (s_write q) →
  ∃ q0, with_space cfg size bb q = Ok q0 ∧ has_blocks n (s_world q0) (s_write q0).
Proof.
  intros [[[F0 F0'] F1 _ _] _ _ _ [F3 F4] F5 F6] Hk Hsize [B1 B2 B3]. unfold with_space, riscv_check_free_space.
  unfold first_free in F6, B1. rewrite block_addr_eq in F6, B1. set (w := s_world q) in *. set (b := free_block (w_th w)) in *.
  destruct (Z.leb_spec (s_data q) (s_write q + size)).
  2: { eexists. split; [done|]. split; cbn [s_world s_write]; [unfold first_free; rewrite block_addr_eq; exact B1 | lia | done]. }
  assert (0 ≤ b) by lia.
  unfold allocate_bb_overflow. fold b. rewrite (proj2 (Z.ltb_lt b (CODE_CACHE_SIZE cfg))) by lia. cbn [c_assert mbind outcome_bind fst snd].
  destruct (upd_meta_some b (set_actual_id bb) (set_free_block (b + 1) (w_th w))) as (ms & -> & Hl); [cbn [code_cache_meta set_free_block]; lia|].
  cbn [code_cache_meta set_free_block] in Hl. cbn [mbind outcome_bind]. rewrite block_addr_eq. cbn [code_cache set_code_cache_meta set_free_block].
  assert (∀ w1 x, w_th w1 = set_code_cache_meta ms (set_free_block (b + 1) (w_th w)) → first_free w1 ≤ x + 2 ^ 19 → has_blocks n w1 x) as Hblocks.
  { intros w1 x Hw1 Hx. split; rewrite ?Hw1; cbn; [|fold b; lia..]. lia. }
  assert (∀ w1, w_th w1 = set_code_cache_meta ms (set_free_block (b + 1) (w_th w)) → first_free w1 = code_cache (w_th w) + b * 256 + 256) as Hff
    by (intros w1 Hw1; unfold first_free; rewrite Hw1, block_addr_eq; cbn; fold b; lia).
  destruct (Z.eqb_spec (code_cache (w_th w) + b * 256) (s_data q)) as [Hd|Hd]; cbn [negb mbind outcome_bind fst snd].
  - eexists. split; [done|]. apply Hblocks; [done|]. cbn [s_world s_write]. rewrite Hff by done. lia.
  - destruct (jal_near (s_write q) (code_cache (w_th w) + b * 256)) as [i ->]; [lia | done | |].
    { by rewrite Z.even_add, F1, Z.even_mul, orb_true_r. }
    eexists. split; [done|]. apply Hblocks; [done|]. cbn [s_world s_write fst snd]. rewrite Hff by done. lia.
Qed.

Lemma run_out_ok f q th' k text' :
  f (w_th (s_world q)) (s_write q, w_code (s_world q)) = Ok (th', (s_write q + k, text')) →
  ∃ q1, (r ← run_out f q; Ok (end_block r)) = Ok q1 ∧ s_stop q1 = true ∧ s_write q1 = s_write q + k ∧ s_data q1 = s_data q
    ∧ w_th (s_world q1) = th'.
Proof. intros H. unfold run_out. rewrite H. eexists. split; [done|]. by split_and!. Qed.

(** The end of a block, within the space. *)
Definition exited q : Prop :=
  s_stop q = true ∧ s_write q < s_data q ∧ CODE_CACHE_SIZE cfg ≤ Z.of_nat (length (code_cache_meta (w_th (s_world q)))).

Lemma scan_jump_ok bb k q i rd_ target :
  fits bb k (s_world q) (s_write q) (s_data q) → 56 ≤ k → 0 ≤ target ≤ 2 ^ 52 → 0 ≤ s_read q ≤ 2 ^ 51 →
  rd_ ∉ [s1; a0; a1; sp] → rd_ = zero ∨ 72 ≤ k → CODE_CACHE_SIZE cfg ≤ Z.of_nat (length (code_cache_meta (w_th (s_world q)))) →
  ∃ q1, scan_jump cfg dispatcher_addr i bb rd_ target q = Ok q1 ∧ exited q1.
Proof.
  intros Hf Hk Htg Hrd Hr Hz Hms. pose proof (fits_room _ _ _ _ _ Hf ltac:(lia)) as Hroom. destruct (fits_meta _ _ _ _ _ Hf) as [meta Hm].
  pose proof (fits_bb _ _ _ _ _ Hf) as Hbb. pose proof (fits_slack _ _ _ _ _ Hf).
  destruct (riscv_jump_spec (cfg_target cfg) dispatcher_addr (enum RISCV_LUI) (or_intror Ht) (w_th (s_world q)) (s_read q) (enum i) bb meta
              (s_write q, w_code (s_world q)) rd_ target) as (? & n & text' & Hj & _); [done | done | done | lia | done |]. cbn [fst] in Hj.
  pose proof Hj as Hsz. apply riscv_jump_size in Hsz; [|by right|done|done|unfold next_addr; case_match; lia]. cbn [fst] in Hsz.
  destruct (run_out_ok (λ th st, riscv_jump (cfg_target cfg) dispatcher_addr (enum RISCV_LUI) th (s_read q) (enum i) bb rd_ target st) q _ _ _ Hj) as (q1 & Hq1 & Hs & Hw & Hd & Hth). exists q1.
  split; [done|]. split_and!; [done | | by rewrite Hth; cbn; rewrite length_insert]. rewrite Hw, Hd. destruct (Z.eqb_spec rd_ zero), Hz; (done || lia).
Qed.

Lemma scan_branch_ok bb k n q i cond r1 r2 target :
  fits bb k (s_world q) (s_write q) (s_data q) → 4 ≤ k → has_blocks (S n) (s_world q) (s_write q) → 0 ≤ target ≤ 2 ^ 52 → 0 ≤ s_read q ≤ 2 ^ 51 →
  ∃ q1, scan_branch cfg dispatcher_addr i bb cond r1 r2 target q = Ok q1 ∧ exited q1.
Proof.
  intros Hf Hk Hbl Htg Hrd. destruct (with_space_ok bb k BRANCH_FSPACE n q) as (q0 & Hq0 & [_ _ Hms]); [done..|].
  unfold scan_branch. rewrite Hq0. cbn [mbind outcome_bind].
  destruct (with_space_spec bb k BRANCH_FSPACE q q0) as (Hf0 & Hr0 & _); [done..|]. unfold BRANCH_FSPACE in Hf0.
  pose proof (fits_room _ _ _ _ _ Hf0 ltac:(done)) as Hroom. destruct (fits_meta _ _ _ _ _ Hf0) as [meta Hm].
  pose proof (fits_bb _ _ _ _ _ Hf0) as Hbb. pose proof (fits_slack _ _ _ _ _ Hf0).
  destruct (riscv_cond_branch_spec (cfg_target cfg) dispatcher_addr (enum RISCV_LUI) (or_intror Ht) (w_th (s_world q0)) (s_read q0) (enum i) bb meta
              (s_write q0, w_code (s_world q0)) cond r1 r2 target) as (m & text' & Hj & _); [done | done | done | lia |]. cbn [fst] in Hj.
  assert (m ≤ 132) as Hsz.
  { unfold riscv_cond_branch in Hj. inv_ok. apply branch_code_size in Hx0; [|by right|done| |done].
    - cbn [fst] in Hx0. lia.
    - unfold next_addr. rewrite u64_small; case_match; lia. }
  destruct (run_out_ok (λ th st, riscv_cond_branch (cfg_target cfg) dispatcher_addr (enum RISCV_LUI) th (s_read q0) (enum i) bb st cond r1 r2 target) q0 _ _ _ Hj) as (q1 & Hq1 & Hs & Hw & Hd & Hth).
  exists q1. split; [done|]. split_and!; [done | lia | by rewrite Hth; cbn; rewrite length_insert].
Qed.

(** Instructions inside of a block, and the exits that do not assert. *)
Definition inside (i : riscv_instruction) : bool := is_copied i || bool_decide (i = RISCV_AUIPC).
Definition direct_exit (x : Z) : bool :=
  match decode x with
  | RISCV_C_J | RISCV_C_BEQZ | RISCV_C_BNEZ | RISCV_BEQ | RISCV_BNE | RISCV_BLT | RISCV_BGE | RISCV_BLTU | RISCV_BGEU => true
  | RISCV_JAL => negb (bool_decide (wf x JAL_TXT "b"%char ∈ [s1; a0; a1; sp]))
  | _ => false
  end.

(** [n] instructions and an exit. *)
Fixpoint block_at (n : nat) (x : Z) : bool :=
  match n with
  | O => direct_exit x
  | S n => inside (decode x) && block_at n (next_instruction (decode x) x)
  end.

Lemma target_small p imm : 2 ^ 20 ≤ p ≤ 2 ^ 51 → - 2 ^ 20 ≤ imm < 2 ^ 20 → 0 ≤ u64 (p + imm) ≤ 2 ^ 52.
Proof. intros. rewrite u64_small; lia. Qed.

Lemma imm_small n x : 0 < n ≤ 21 → - 2 ^ 20 ≤ signed n x < 2 ^ 20.
Proof.
  intros Hn. pose proof (signed_range n x ltac:(lia)). assert (2 ^ (n - 1) ≤ 2 ^ 20) by (apply Z.pow_le_mono_r; lia). lia.
Qed.

Lemma scan_exit_ok bb start n q :
  fits bb 56 (s_world q) (s_write q) (s_data q) → has_blocks (S n) (s_world q) (s_write q) → 2 ^ 20 ≤ s_read q ≤ 2 ^ 51 →
  direct_exit (s_read q) = true → ∃ q1, scan_inst (decode (s_read q)) bb start q = Ok q1 ∧ exited q1.
Proof.
  intros Hf Hbl Hrd Hx. assert (has_compressed cfg = true) as Hcomp by (unfold has_compressed; by rewrite Ht).
  pose proof Hbl as [_ _ Hms].
  assert (zero ∉ [s1; a0; a1; sp]) as Hz by by apply (bool_decide_eq_true_1 (zero ∉ [s1; a0; a1; sp])).
  unfold direct_exit in Hx. destruct (decode (s_read q)) eqn:Hi; try discriminate Hx; unfold RiscvScan.scan_inst; rewrite ?Hcomp; cbn [scan_compressed];
    try (eapply scan_branch_ok; [done | done | done | apply target_small; [done|] | lia];
         rewrite ?cb_decode, ?b_decode by (field_bits 3 || field_bits 5 || field_bits 7); by apply imm_small).
  - assert (0 ≤ cf (s_read q) C_J_TXT "a"%char < 2048) as Hr by field_bits 11. rewrite cj_decode by done.
    apply (scan_jump_ok bb 56); try done; [|lia|by left]. apply target_small; [done|]. by apply imm_small.
  - destruct (with_space_ok bb 56 BRANCH_FSPACE n q) as (q0 & Hq0 & [_ _ Hms0]); [done..|]. rewrite Hq0. cbn [mbind outcome_bind].
    destruct (with_space_spec bb 56 BRANCH_FSPACE q q0) as (Hf0 & Hr0 & _); [done..|].
    assert (0 ≤ wf (s_read q) JAL_TXT "a"%char < 2 ^ 20) as Hr by field_bits 20. rewrite <- j_imm_decode by done.
    apply negb_true_iff, bool_decide_eq_false in Hx.
    apply (scan_jump_ok bb BRANCH_FSPACE); try done; [|lia|by right]. apply target_small; [done|]. by apply imm_small.
Qed.

Lemma copy_returns fuel : ∀ r r' v l, riscv_copy_to_reg_64bits fuel r v = Ok l → ∃ l', riscv_copy_to_reg_64bits fuel r' v = Ok l'.
Proof.
  induction fuel as [|fuel IH]; intros r r' v l; [done|]. cbn [riscv_copy_to_reg_64bits]. destruct (_ && _); [by eexists|].
  intros H. apply bind_ok_inv in H as (l' & Hl & _). apply (IH r r') in Hl as [l1 ->]. by eexists.
Qed.

Lemma scan_inside_ok bb start q :
  inside (decode (s_read q)) = true → ∃ q1 k, scan_inst (decode (s_read q)) bb start q = Ok q1 ∧ 0 ≤ k ≤ 32 ∧ Z.even k = true
    ∧ s_write q1 = s_write q + k ∧ s_data q1 = s_data q ∧ s_read q1 = s_read q ∧ s_stop q1 = s_stop q
    ∧ w_th (s_world q1) = w_th (s_world q).
Proof.
  intros Hi. destruct (is_copied (decode (s_read q))) eqn:Hc.
  - rewrite (scan_inst_copied _ _ _ _ Hc) by done. eexists _, (raw_size (raw_at (s_read q))). split; [done|].
    assert (raw_size (raw_at (s_read q)) = 2 ∨ raw_size (raw_at (s_read q)) = 4) as Hl by (rewrite raw_at_size; apply inst_length_cases).
    split; [lia|]. split; [by destruct Hl as [-> | ->]|]. done.
  - unfold inside in Hi. rewrite Hc in Hi. apply bool_decide_eq_true in Hi. rewrite Hi. unfold RiscvScan.scan_inst.
    set (v := u64 _). destruct (copy_64bits_loads ra 3 v) as (l & Hl & _); [done | apply u64_range | pose proof (u64_range (s_read q)); unfold v; pose proof (u64_range (s_read q + sign_extend 32 (u32 (wf (s_read q) AUIPC_TXT "a"%char ≪ 12)))); lia |].
    destruct (copy_returns 4 ra (wf (s_read q) AUIPC_TXT "b"%char) v l Hl) as [l' Hl'].
    fold (riscv_copy_to_reg (wf (s_read q) AUIPC_TXT "b"%char) v) in Hl'. rewrite Hl'. cbn [mbind outcome_bind].
    destruct (copy_sets _ _ _ Hl' (u64_range _)) as [Hsz _]. pose proof (code_size_nonneg l'). pose proof (code_size_even l').
    eexists _, (code_size l'). split; [done|]. by split_and!.
Qed.

Lemma pass1_returns n : ∀ fuel x, block_at n x = true → (n < fuel)%nat → ∃ ty, pass1_riscv riscv_decode source fuel x = Ok ty.
Proof.
  induction n as [|n IH]; intros [|fuel] x Hb Hfuel; try lia; cbn [pass1_riscv].
  - cbn [block_at] in Hb. unfold direct_exit in Hb. destruct (decode x); try discriminate Hb; by eexists.
  - cbn [block_at] in Hb. apply andb_true_iff in Hb as [_ Hb]. case_match; [by eexists|]. apply IH; [done | lia].
Qed.

Section returns.
Context (g : global (world (T := T))) (watched : list (Z * mambo_callback (world (T := T)))).
Context (bb : Z) (type : cc_type) (start : Z) (bb_type : branch_type) (Hg : free_plugin g ≤ 0).
Notation scan_loop := (scan_loop cfg ext dispatcher_addr syscall_wrapper_addr entries_addr riscv_decode source g watched bb type start bb_type).

Lemma loop_returns n : ∀ fuel q,
  block_at n (s_read q) = true → (n + 1 < fuel)%nat → s_stop q = false → fits bb 56 (s_world q) (s_write q) (s_data q) →
  has_blocks (S n) (s_world q) (s_write q) → 2 ^ 20 ≤ s_read q → s_read q + 4 * Z.of_nat n ≤ 2 ^ 51 →
  ∃ q', scan_loop fuel q = Ok q' ∧ exited q'.
Proof.
  induction n as [|n IH]; intros [|fuel] q Hb Hfuel Hstop Hf Hbl Hlo Hhi; try lia; cbn [RiscvScan.scan_loop]; rewrite Hstop, scan_step_quiet by done.
  - destruct (scan_exit_ok bb start 0 q) as (q1 & -> & Hs & Hw & Hms); [done | done | lia | done |]. cbn [mbind outcome_bind].
    rewrite (proj2 (Z.leb_gt _ _) Hw), Hs. cbn [negb mbind outcome_bind]. destruct fuel as [|fuel]; [lia|]. cbn [RiscvScan.scan_loop s_stop].
    rewrite Hs. eexists. split; [done|]. by split_and!.
  - cbn [block_at] in Hb. apply andb_true_iff in Hb as [Hi Hb].
    destruct (scan_inside_ok bb start q Hi) as (q1 & k & -> & Hk & Hev & Hw & Hd & Hr & Hs & Hth). cbn [mbind outcome_bind].
    assert (fits bb (56 - k) (s_world q1) (s_write q1) (s_data q1)) as Hf1 by (by eapply fits_advance; [done | lia | ..]).
    pose proof (fits_slack _ _ _ _ _ Hf1). rewrite (proj2 (Z.leb_gt (s_data q1) (s_write q1))), Hs, Hstop by lia. cbn [negb].
    destruct (with_space_ok bb (56 - k) MIN_FSPACE (S n) q1) as (q2 & Hq2 & Hbl2); [done | lia | done | |].
    { destruct Hbl as [B1 B2 B3]. unfold first_free in *. split; unfold first_free; rewrite ?Hth, ?Hw; (done || lia). }
    destruct (with_space_spec bb (56 - k) MIN_FSPACE q1 q2) as (Hf2 & Hr2 & Hs2 & _); [done | lia | done..|].
    rewrite Hq2. cbn [mbind outcome_bind].
    apply IH; cbn [s_read s_write s_data s_stop s_world]; rewrite ?Hr2, ?Hr, ?Hs2, ?Hs; try done; [lia | |];
      unfold next_instruction; destruct (inst_length_cases (decode (s_read q))) as [-> | ->]; lia.
Qed.
End returns.

Lemma scan_riscv_ok n fuel g watched ids w read bb :
  free_plugin g ≤ 0 → DBM_TRACES cfg = false → block_ok bb w → block_at n read = true → (n + 1 < fuel)%nat →
  2 ^ 20 ≤ read → read + 4 * Z.of_nat n ≤ 2 ^ 51 → has_blocks (S n) w (block_addr cfg (w_th w) bb) →
  ∃ q k, scan_riscv cfg ext dispatcher_addr trace_head_incr_addr syscall_wrapper_addr entries_addr riscv_decode source fuel g watched ids w
    read bb mambo_bb 0 = Ok (q, k) ∧ exited q.
Proof.
  intros Hg Htr Hb Hblock Hfuel Hlo Hhi Hbl.
  destruct (scan_riscv_quiet fuel g watched ids w read bb Hg Htr) as (restore & Hr & Hsz & _ & ->).
  pose proof Hb as [_ Hr0 [? ?] Hm _]. destruct Hbl as [B1 B2 B3].
  assert (∃ th, (if DBM_JUMP_TRAMPOLINES cfg then upd_meta bb (set_trampoline None 0) (w_th w) else Ok (w_th w)) = Ok th
    ∧ has_blocks (S n) (MkWorld th (w_code w) (w_raw w)) (block_addr cfg (w_th w) bb)) as (th & Hth & Hbl).
  { case_match; [|by eexists]. destruct (upd_meta_some bb (set_trampoline None 0) (w_th w)) as (ms & -> & Hl).
    - apply lookup_lt_is_Some in Hm. lia.
    - eexists. split; [done|]. split; [done | done | by rewrite <- Hl in B3]. }
  rewrite Hth. destruct (trampoline_ok _ _ _ _ _ Hb Hth) as [Hb1 Hba].
  destruct (first_state_fits ids read bb restore _ Hsz Hb1) as (Hf & Hw & _ & _). unfold first_state in Hf, Hw. cbn [w_th] in Hf, Hw. rewrite Hba in Hf, Hw.
  destruct (pass1_returns n fuel read Hblock ltac:(lia)) as [ty ->]. cbn [mbind outcome_bind]. set (q0 := put_code restore _) in *.
  destruct (loop_returns g watched bb mambo_bb read ty Hg n fuel q0) as (q1 & -> & Hs & Hw1 & Hms); try done.
  { destruct Hbl as [C1 C2 C3]. split; [|exact C2 | exact C3]. rewrite Hw. change (first_free (s_world q0)) with (first_free (MkWorld th (w_code w) (w_raw w))). lia. }
  cbn [mbind outcome_bind].
  assert (∃ th', (if DBM_JUMP_TRAMPOLINES cfg && (TRAMPOLINE_SPACE <=? u64 (s_data q1 - s_write q1))
    then upd_meta bb (λ m, set_trampoline (Some (s_write q1)) (trampoline_slots_used m) m) (w_th (s_world q1))
    else Ok (w_th (s_world q1))) = Ok th' ∧ CODE_CACHE_SIZE cfg ≤ Z.of_nat (length (code_cache_meta th'))) as (th' & -> & Hms').
  { destruct (_ && _); [|by eexists]. destruct (upd_meta_some bb (λ m, set_trampoline (Some (s_write q1)) (trampoline_slots_used m) m) (w_th (s_world q1)))
      as (ms & -> & Hl); [lia|]. eexists. split; [done|]. cbn. lia. }
  cbn [mbind outcome_bind]. eexists _, _. split; [reflexivity|]. by split_and!.
Qed.

End spec.

(** ** An instance

    C.ADDI a0, 1, fourteen AUIPC a2, 1 and BEQ a0, zero, 8 at 0x100000, which do
    not fit in a block. *)

Definition demo_config : config := MkConfig riscv_compressed false true true 64 64 4 2 4096 4 (table_size 3) 1.
#[local] Instance demo_table : AddressTable CodeCacheHash.hash_table (TABLE_SIZE demo_config) :=
  CodeCacheHash_table riscv_compressed 3 ltac:(lia).

Definition demo_thread : dbm_thread CodeCacheHash.hash_table :=
  MkThread 3 false 4096 (replicate 64 empty_meta) (CodeCacheHash.MkTable 17 0 0 (replicate 17 (HashEntry 0 0))) (replicate 64 0)
    20480 64 0 (MkTrace 11 0 0 0 false 0 []) (LinkedList.Ll None 0 []).
Definition demo_world : world := MkWorld demo_thread (λ _, None) (λ _, None).

Definition demo_source (x : Z) : Z :=
  let o := x - 0x100000 in
  if o =? 0 then 0x0505 else if o <? 58 then if (o - 2) mod 4 =? 0 then 0x1617 else 0 else if o =? 58 then 0x0463 else 0x0005.

Definition demo_decode (code : Z → Z) : riscv_instruction :=
  if code 0 =? 0x0505 then RISCV_C_ADDI
  else if Z.land (code 0) 0x7F =? 0x17 then RISCV_AUIPC
  else if Z.land (code 0) 0x7F =? 0x63 then RISCV_BEQ else RISCV_INVALID.

Definition demo_app (j : raw) (s : machine) : option machine :=
  if (raw_size j =? 2) && (raw_bits j =? 0x0505) then Some (next 2 (set a0 (get s a0 + 1) s)) else None.

Definition demo_state : machine := MkMachine 0x100000 (λ _, 0) (λ _, 0) (λ _, 0).

Lemma demo_state_ok : ok demo_state.
Proof. split; [done | intros r; unfold get; by destruct (r =? 0)]. Qed.

Lemma demo_app_ok : app_ok demo_app same_state.
Proof.
  split.
  - intros [n b] s s'. unfold demo_app. cbn [raw_size raw_bits]. destruct (Z.eqb_spec n 2) as [->|]; [|done]. cbn [andb].
    destruct (b =? 0x0505); [|done]. intros [= <-] Ho. split; [by apply ok_next, ok_set | done].
  - intros j s s' m. unfold demo_app. destruct (_ && _); [|done]. intros [= <-] (S1 & S2 & S3) _ _. eexists. split; [done|].
    split_and!; [|done|done]. intros r. rewrite !get_next. destruct (decide (r = a0)) as [->|]; [by rewrite !get_set_eq, S1 | by rewrite !get_set_ne, S1].
  - intros a a' m m' (S1 & S2 & S3) (A1 & A2 & A3) (M1 & M2 & M3).
    split_and!; [intros r; by rewrite M1, S1, A1 | by rewrite M2, S2, A2 | by rewrite M3, S3, A3].
  - intros a m r (S1 & _). apply S1.
  - intros a m r v (S1 & S2 & S3) _. split_and!; [|done|done]. intros r'. destruct (decide (r' = r)) as [->|]; [|by rewrite !get_set_ne, S1].
    destruct (decide (r = zero)) as [->|]; [done|]. by rewrite !get_set_eq.
Qed.

Lemma demo_cache_ok : cache_ok demo_config 2048 4096.
Proof. split; [cbn; lia | done | split; [lia | done] | cbn; lia]. Qed.

Lemma demo_block_ok : block_ok demo_config 2048 2 demo_world.
Proof. split; [apply demo_cache_ok | lia | cbn; lia | by eexists | done]. Qed.

Notation demo_scan := (scan_riscv demo_config rv64g 2048 3000 3100 3200 demo_decode demo_source 20 initial [] (1, 1, []) demo_world
  0x100000 2 mambo_bb 0).


Lemma demo_auipcs n : (n ≤ 14)%nat → ∀ s, pc s = 0x10003A - 4 * Z.of_nat n →
  ∃ s', rtc (src_step demo_decode demo_source demo_app) s s' ∧ pc s' = 0x10003A ∧ get s' a0 = get s a0.
Proof.
  induction n as [|n IH]; intros Hn s Hp; [exists s; split; [apply rtc_refl | split; [lia | done]]|].
  assert (forall_range 0 14 (λ k, let f := code_from demo_source (0x10003A - 4 * (k + 1)) in
    bool_decide (demo_decode f = RISCV_AUIPC) && (Pie.field AUIPC_TXT "b"%char (Pie.word_riscv f) =? 12)) = true) as Hall by by vm_compute.
  apply (forall_range_spec _ _ _ (Z.of_nat n)) in Hall; [|lia]. cbv beta zeta in Hall.
  replace (0x10003A - 4 * (Z.of_nat n + 1)) with (pc s) in Hall by lia.
  apply andb_true_iff in Hall as [Hd Hf]. apply bool_decide_eq_true in Hd. apply Z.eqb_eq in Hf.
  destruct (IH ltac:(lia) (exec (Auipc (wfield demo_source (pc s) AUIPC_TXT "b"%char) (wfield demo_source (pc s) AUIPC_TXT "a"%char)) s))
    as (s' & Hs' & Hp' & Ha).
  - cbn [exec next set_pc pc set inst_size]. rewrite u64_small; lia.
  - exists s'. split; [eapply rtc_l; [apply step_auipc; [exact Hd | lia | unfold wfield; by rewrite Hf | reflexivity] | exact Hs']|]. split; [exact Hp'|].
    rewrite Ha. cbn [exec]. unfold wfield. rewrite Hf. by rewrite get_next, get_set_ne.
Qed.

Lemma demo_path : ∃ a1' a2, rtc (src_step demo_decode demo_source demo_app) demo_state a1' ∧ src_exit demo_decode demo_source a1' a2
  ∧ pc a2 = 0x10003E ∧ get a2 a0 = 1.
Proof.
  set (s1' := next 2 (set a0 1 demo_state)).
  destruct (demo_auipcs 14 (le_n _) s1') as (s' & Hs & Hp & Ha); [by vm_compute|].
  exists s'. eexists. split; [|split; [apply exit_branch|]].
  - eapply rtc_l; [|exact Hs]. apply step_copied; reflexivity.
  - rewrite Hp. left.
  - reflexivity.
  - rewrite Hp. cbn [exec]. rewrite Hp.
    change (wfield demo_source 0x10003A BRANCH_TXT "c"%char) with 10. change (wfield demo_source 0x10003A BRANCH_TXT "b"%char) with 0.
    assert (get s' a0 = 1) as H1 by by rewrite Ha.
    replace (holds _ _ _) with false by (change 10 with a0; by rewrite H1). split; [|exact H1].
    cbn [next set_pc pc inst_size]. by rewrite Hp.
Qed.

End RiscvScanSpec.
