(* ===== verification/RiscvRun.v ===== *)
(** * The dispatcher on RISC-V, and the program it runs (dispatcher.c)

    The code blocks call the dispatcher for the address at which the application
    goes on; it looks the address up in the code cache, has the scanner translate
    it when it is not there, and links the block that called it. Here the
    operations of dbm.c, the scanner and the linking are put together over one
    state, and followed while an application runs. *)
From stdpp Require Import relations.
From S2P Require Import Prelude LinearProbe CodeCacheHash LinkedList AddressTable Dbm.
From S2P Require Import RegList Plugin RiscvImm RiscvAsm RiscvEmit RiscvContext RiscvProg RiscvExec RiscvLink RiscvLinked RiscvExit RiscvLookup RiscvLookupSpec.
From S2P Require Import RiscvInst Pie RiscvScan RiscvScanSpec.
Import Dbm RegList Plugin RiscvImm RiscvEmit RiscvContext RiscvAsm RiscvProg RiscvExec RiscvLink RiscvLinked RiscvExit RiscvLookup RiscvInst RiscvScan RiscvScanSpec.
Import RiscvLookupSpec (load_u64).
#[local] Open Scope Z_scope.

Module RiscvRun.

(** ** What scanning does to the thread *)

Section scanned.
Context (cfg : config) {T : Type} `{!AddressTable T (TABLE_SIZE cfg)}.
Implicit Types (th : dbm_thread T) (w : world (T := T)) (q : scan_state (T := T)).

Definition no_stub (m : dbm_code_cache_meta) : Prop := exit_branch_type m ≠ stub.

(** Only metadata and the allocator change, and no block becomes a stub. *)
Definition scanned th th' : Prop := ∃ ms fb,
  th' = set_code_cache_meta ms (set_free_block fb th) ∧ length ms = length (code_cache_meta th)
  ∧ free_block th ≤ fb ∧ (free_block th ≤ CODE_CACHE_SIZE cfg → fb ≤ CODE_CACHE_SIZE cfg)
  ∧ (Forall no_stub (code_cache_meta th) → Forall no_stub ms).

Lemma scanned_refl th : scanned th th.
Proof. exists (code_cache_meta th), (free_block th). by destruct th. Qed.

Lemma scanned_trans th1 th2 th3 : scanned th1 th2 → scanned th2 th3 → scanned th1 th3.
Proof.
  intros (ms & fb & -> & H1 & H2 & H3 & H4) (ms' & fb' & -> & H1' & H2' & H3' & H4'). exists ms', fb'. cbn in *.
  split_and!; [done | congruence | lia | auto | auto].
Qed.

Lemma scanned_upd i f th th' : upd_meta i f th = Ok th' → (∀ m, no_stub m → no_stub (f m)) → scanned th th'.
Proof.
  unfold upd_meta. intros H Hf. inv_ok. apply aupd_ok in Hx as (m & _ & Hm & ->).
  exists (<[Z.to_nat i := f m]> (code_cache_meta th)), (free_block th). split_and!; [by destruct th | by rewrite length_insert | done | done |].
  intros Hall. apply Forall_insert; [done|]. apply Hf. by eapply Forall_lookup_1.
Qed.

Create HintDb scanned.
#[local] Hint Resolve scanned_refl : scanned.

(** The chain of updates that an operation makes. *)
Ltac scans := repeat match goal with
  | H : upd_meta _ _ ?th = Ok _ |- scanned ?th _ => eapply scanned_trans; [eapply scanned_upd; [exact H | intros ? ?; done]|]
  end; auto with scanned.

Lemma riscv_jump_scanned t d lui th th' rd_ i bb r tg st st' :
  riscv_jump t d lui th rd_ i bb r tg st = Ok (th', st') → scanned th th'.
Proof. unfold riscv_jump. intros H. inv_ok. scans. Qed.

Lemma riscv_cond_branch_scanned t d lui th th' rd_ i bb c r1 r2 tg st st' :
  riscv_cond_branch t d lui th rd_ i bb st c r1 r2 tg = Ok (th', st') → scanned th th'.
Proof. unfold riscv_cond_branch. intros H. inv_ok. scans. Qed.

Lemma inline_hash_lookup_scanned d lui en th th' bb st st' rd_ r im (l sm tr : bool) :
  riscv_inline_hash_lookup cfg d lui en th bb st rd_ r im l sm tr = Ok (th', st') → scanned th th'.
Proof.
  unfold riscv_inline_hash_lookup. intros H. apply bind_ok_inv in H as (th1 & H1 & H).
  assert (scanned th th1) as Hs1 by (destruct sm; [by eapply scanned_upd | injection H1 as <-; auto with scanned]).
  apply bind_ok_inv in H as ([th2 st2] & H2 & H).
  assert (scanned th1 th2) as Hs2 by (destruct (_ && _) in H2; inv_ok; scans).
  apply bind_ok_inv in H as (start & _ & H). destruct (probe_loop _ _) as [st3 nf].
  apply bind_ok_inv in H as ([th3 st4] & H3 & H).
  assert (scanned th2 th3) as Hs3 by (destruct (_ && _) in H3; inv_ok; scans).
  inv_ok. eauto using scanned_trans.
Qed.

Lemma riscv_jump_register_scanned d lui en th th' rd_ i bb st st' r r1 im :
  riscv_jump_register cfg d lui en th rd_ i bb st r r1 im = Ok (th', st') → scanned th th'.
Proof.
  unfold riscv_jump_register, insert_tribi_header. intros H. apply bind_ok_inv in H as (th1 & H1 & H).
  eapply scanned_trans; [by eapply scanned_upd|]. apply bind_ok_inv in H as ([] & _ & H).
  destruct (_ && _); [|by eapply inline_hash_lookup_scanned]. inv_ok. destruct x2 as [th2 st2]. inv_ok.
  scans. by eapply inline_hash_lookup_scanned.
Qed.

Context (ext : march) (dispatcher_addr trace_head_incr_addr syscall_wrapper_addr entries_addr : Z).
Context (riscv_decode : (Z → Z) → riscv_instruction) (source : Z → Z).

Lemma space_scanned w write data size b r : riscv_check_free_space cfg w write data size b = Ok r → scanned (w_th w) (w_th (fst (fst r))).
Proof.
  unfold riscv_check_free_space. destruct (data <=? write + size); [|intros [= <-]; auto with scanned]. intros H.
  apply bind_ok_inv in H as ([b' th1] & Ha & H). unfold allocate_bb_overflow in Ha. inv_ok. cbn [fst snd] in *.
  assert (scanned (w_th w) (set_free_block (free_block (w_th w) + 1) (w_th w))) as Hs1.
  { exists (code_cache_meta (w_th w)), (free_block (w_th w) + 1). split_and!; [by destruct (w_th w) | done | lia | lia | done]. }
  eapply scanned_trans; [exact Hs1|]. eapply scanned_trans; [by eapply scanned_upd|].
  destruct (negb _) in Hx0; [|inv_ok; apply scanned_refl]. destruct (riscv_jal_helper _ _ _); inv_ok. apply scanned_refl.
Qed.

Notation quiet_scanned q q1 := (scanned (w_th (s_world q)) (w_th (s_world q1))).

Lemma with_space_scanned size b q q1 : with_space cfg size b q = Ok q1 → quiet_scanned q q1.
Proof. unfold with_space. intros H. inv_ok. destruct x as [[w wr] da]. inv_ok. exact (space_scanned _ _ _ _ _ _ Hx). Qed.

Lemma run_out_scanned f q q1 : (∀ th st th' st', f th st = Ok (th', st') → scanned th th') → run_out f q = Ok q1 → quiet_scanned q q1.
Proof. unfold run_out. intros Hf H. inv_ok. destruct x as [th' st']. unfold emitted in H. inv_ok. cbn. by eapply Hf. Qed.

Lemma scan_jump_scanned i b rd_ tg q q1 : scan_jump cfg dispatcher_addr i b rd_ tg q = Ok q1 → quiet_scanned q q1.
Proof.
  unfold scan_jump. intros H. inv_ok. apply run_out_scanned in Hx; [exact Hx|]. intros. by eapply riscv_jump_scanned.
Qed.

Lemma scan_branch_scanned i b c r1 r2 tg q q1 : scan_branch cfg dispatcher_addr i b c r1 r2 tg q = Ok q1 → quiet_scanned q q1.
Proof.
  unfold scan_branch. intros H. inv_ok. eapply scanned_trans; [by eapply with_space_scanned|].
  apply run_out_scanned in Hx0; [exact Hx0|]. intros. by eapply riscv_cond_branch_scanned.
Qed.

Lemma scan_jump_register_scanned i b rd_ r im q q1 :
  scan_jump_register cfg dispatcher_addr entries_addr i b rd_ r im q = Ok q1 → quiet_scanned q q1.
Proof.
  unfold scan_jump_register. intros H. inv_ok. eapply scanned_trans; [by eapply with_space_scanned|].
  apply run_out_scanned in Hx0; [exact Hx0|]. intros. by eapply riscv_jump_register_scanned.
Qed.

Lemma scan_invalid_scanned i b st q q1 : scan_invalid cfg dispatcher_addr i b st q = Ok q1 → quiet_scanned q q1.
Proof. unfold scan_invalid. case_match; [apply scan_jump_scanned | done]. Qed.

Lemma scan_inst_scanned i b st q q1 :
  scan_inst cfg ext dispatcher_addr syscall_wrapper_addr entries_addr source i b st q = Ok q1 → quiet_scanned q q1.
Proof.
  intros H. destruct i; unfold scan_inst, scan_compressed, scan_extension, copy_riscv, copy_riscv_compressed in H; cbv zeta in H;
    repeat case_match; try discriminate H; try (injection H as <-; apply scanned_refl);
    try (by eapply scan_branch_scanned); try (by eapply scan_jump_scanned); try (by eapply scan_jump_register_scanned); try (by eapply scan_invalid_scanned).
  - inv_ok. apply scanned_refl.
  - inv_ok. eapply scanned_trans; [by eapply with_space_scanned | by eapply scan_jump_scanned].
  - unfold scan_ecall in H. inv_ok. destruct (riscv_jalr_helper _ _ _ _); inv_ok. apply scanned_refl.
Qed.

Context (g : global (world (T := T))) (watched : list (Z * mambo_callback (world (T := T)))) (Hg : free_plugin g ≤ 0).

Lemma scan_loop_scanned bb type start bb_type fuel : ∀ q q1,
  scan_loop cfg ext dispatcher_addr syscall_wrapper_addr entries_addr riscv_decode source g watched bb type start bb_type fuel q = Ok q1 →
  quiet_scanned q q1.
Proof.
  induction fuel as [|fuel IH]; intros q q1 H; [done|]. cbn [scan_loop] in H. destruct (s_stop q); [injection H as <-; apply scanned_refl|].
  apply bind_ok_inv in H as (q2 & H1 & H2). eapply scanned_trans; [|by eapply IH]. clear IH H2.
  rewrite (scan_step_quiet cfg ext dispatcher_addr syscall_wrapper_addr entries_addr riscv_decode source g watched bb type start bb_type Hg q) in H1.
  apply bind_ok_inv in H1 as (q3 & H1 & H2). eapply scanned_trans; [by eapply scan_inst_scanned|].
  destruct (s_data q3 <=? s_write q3); [done|]. apply bind_ok_inv in H2 as (q4 & H2 & H3). injection H3 as <-.
  cbn [s_world]. destruct (negb _) in H2; [|injection H2 as <-; apply scanned_refl]. by eapply with_space_scanned.
Qed.

Lemma scan_riscv_scanned (Ht : cfg_target cfg = riscv_compressed) (Hbs : BASIC_BLOCK_SIZE cfg = 64) fuel ids w read bb q n :
  DBM_TRACES cfg = false →
  scan_riscv cfg ext dispatcher_addr trace_head_incr_addr syscall_wrapper_addr entries_addr riscv_decode source fuel g watched ids w
    read bb mambo_bb 0 = Ok (q, n) → scanned (w_th w) (w_th (s_world q)).
Proof.
  intros Htr H. destruct (scan_riscv_quiet cfg ext dispatcher_addr trace_head_incr_addr syscall_wrapper_addr entries_addr riscv_decode source Ht Hbs
    fuel g watched ids w read bb Hg Htr) as (restore & _ & _ & _ & Heq). rewrite Heq in H. clear Heq.
  apply bind_ok_inv in H as (th & Hth & H). apply bind_ok_inv in H as (ty & _ & H). apply bind_ok_inv in H as (q1 & Hq1 & H).
  apply bind_ok_inv in H as (th' & Hth' & H). injection H as <- _. cbn [s_world w_th].
  eapply scanned_trans; [|eapply scanned_trans; [by eapply scan_loop_scanned|]].
  - cbn. destruct (DBM_JUMP_TRAMPOLINES cfg); [by eapply scanned_upd | injection Hth as <-; apply scanned_refl].
  - destruct (_ && _) in Hth'; [by eapply scanned_upd | injection Hth' as <-; apply scanned_refl].
Qed.
End scanned.

(** ** The dispatcher *)

(** The build options of the linking of direct branches. *)
Record link_options := MkLinkOptions { DBM_LINK_UNCOND_IMM : bool; DBM_LINK_COND_IMM : bool }.

(** What a thread has besides the state of dbm.c: the contents of its code
    cache, and what it holds for plugins. *)
Record contents := MkContents { c_code : cmem; c_raw : rawmem; c_ids : Z * Z * list Z }.

Section dispatcher.
Context (cfg : config) {T : Type} `{!AddressTable T (TABLE_SIZE cfg)}.

(** The contents are carried with the table through the operations of dbm.c,
    which do not look at them. *)
#[refine] Instance table_and_contents : AddressTable (T * contents) (TABLE_SIZE cfg) := {
  at_lookup t k := at_lookup (fst t) k;
  at_add t k v := r ← at_add (fst t) k v; Ok (fst r, (snd r, snd t));
  at_init t n := t' ← at_init (fst t) n; Ok (t', snd t);
  at_repr t m := at_repr (fst t) m;
  at_valid t := at_valid (fst t) }.
Proof.
  - intros t m. apply at_repr_valid.
  - intros t m k. apply at_lookup_law.
  - intros t m k v Hr Hk. destruct (at_add_law _ m k v Hr Hk) as [(t' & -> & Hr')| ->]; [left | by right]. by eexists.
  - intros t Hv. destruct (at_init_law _ Hv) as (t' & -> & Hr). by eexists.
Defined.
Implicit Types (th : dbm_thread (T * contents)).

Context (ext : march) (dispatcher_addr trace_head_incr_addr syscall_wrapper_addr entries_addr : Z).
Context (riscv_decode : (Z → Z) → riscv_instruction) (source : Z → Z).
Context (fuel : nat) (g : global (world (T := T * contents))) (watched : list (Z * mambo_callback (world (T := T * contents)))).
Context (opt : link_options) (trace_dispatcher : Z → Z → dbm_thread (T * contents) → outcome (Z * dbm_thread (T * contents))).

Definition world_of th : world :=
  let c := snd (entry_address th) in MkWorld th (c_code c) (c_raw c).
Definition set_contents (c : contents) th : dbm_thread (T * contents) := set_entry_address (fst (entry_address th), c) th.

(** The scanner as dbm.c calls it. *)
Definition scan_riscv_thread th (address basic_block : Z) (type : cc_type) (write_p : Z) : outcome (dbm_thread (T * contents) * Z) :=
  r ← scan_riscv cfg ext dispatcher_addr trace_head_incr_addr syscall_wrapper_addr entries_addr riscv_decode source fuel g watched
        (c_ids (snd (entry_address th))) (world_of th) address basic_block type write_p;
  let q := fst r in
  Ok (set_contents (MkContents (w_code (s_world q)) (w_raw (s_world q)) (s_ids q)) (w_th (s_world q)), snd r).

(** The other architectures are not built. *)
Definition riscv_scanners : scanners (T := T * contents) :=
  let none th (_ _ : Z) (_ : cc_type) (_ : Z) := Err AssertFail in
  MkScanners none none none scan_riscv_thread (λ _ _ _, Err AssertFail) (λ _ _ _, Err AssertFail).

(** Copied instructions that emitted ones overlap. *)
Definition settle (code : cmem) (raw : rawmem) : rawmem := λ x,
  match raw x with
  | Some j =>
      if existsb (λ y, match code y with Some i => (y <? x + raw_size j) && (x <? y + inst_size i) | None => false end)
           (seqZ (x - 8) (raw_size j + 8)) then None else Some j
  | None => None
  end.

(** The linking of RiscvLink, when the build has it. *)
Definition link_exit th (source_index : Z) (exit_type : branch_type) (block_address : Z) : outcome (dbm_thread (T * contents)) :=
  if match exit_type with branch_riscv => DBM_LINK_COND_IMM opt | jal_riscv => DBM_LINK_UNCOND_IMM opt | _ => false end then
    let c := snd (entry_address th) in
    r ← RiscvLink.dispatcher_riscv cfg (th, c_code c) source_index exit_type block_address;
    let '(th, code) := snd r in
    Ok (set_contents (MkContents code (settle code (c_raw c)) (c_ids c)) th)
  else Ok th.

(** [*next_addr] and the state. *)
Definition dispatcher (target source_index : Z) th : outcome (Z * dbm_thread (T * contents)) :=
  source ← aget (code_cache_meta th) source_index;
  let source_branch_type := exit_branch_type source in
  if DBM_TRACES cfg && (CODE_CACHE_SIZE cfg <=? source_index) then trace_dispatcher target source_index th
  else
    r ← lookup_or_scan cfg riscv_scanners (set_was_flushed false th) target;
    let '(next_addr, th) := r in
    if (source_index =? 0) || was_flushed th then Ok (next_addr, th)
    else th ← link_exit th source_index source_branch_type next_addr; Ok (next_addr, th).

(** ** Around the dispatcher *)

Section follow.
Context (app : raw → machine → option machine) (sim : machine → machine → Prop).
(** MAMBO's own data, and the bytes of the stack that the exits, the dispatcher
    and the scanner use. *)
Context (private : Z → Prop) (STACK : Z).

(** The application minds neither MAMBO's data nor what is below its stack
    pointer, and its stack is not in MAMBO's data. *)
Record system_ok : Prop := {
  system_app : app_ok app sim;
  system_below a m m' : sim a m → (∀ r, get m' r = get m r) → csrs m' = csrs m →
    (∀ x, ¬ private x → (∀ j, 0 < j ≤ STACK → x ≠ u64 (get m sp - j)) → mem m' x = mem m x) → sim a m';
  system_stack a m j : sim a m → 0 < j ≤ 24 → ¬ private (u64 (get m sp - j));
  system_room : 24 ≤ STACK < 2 ^ 63 }.

(** [dispatcher_trampoline] of dispatcher_riscv.S around its call of
    [dispatcher]: it saves what C functions may change on the stack and reloads it,
    with [s1] from the frame of the exit and the new address in [a0]; it pops the
    word of [s1] and jumps. *)
Record returned (next_addr : Z) (m m' : machine) : Prop := {
  returned_pc : pc m' = next_addr;
  returned_sp : get m' sp = u64 (get m sp + 8);
  returned_s1 : get m' s1 = load 8 (mem m) (get m sp);
  returned_regs r : r ∉ [sp; s1; a0; a1] → get m' r = get m r;
  returned_csrs : csrs m' = csrs m;
  returned_mem x : ¬ private x → (∀ j, 0 < j ≤ STACK - 24 → x ≠ u64 (get m sp - j)) → mem m' x = mem m x;
  returned_ok : ok m' }.

Context (Ht : cfg_target cfg = riscv_compressed) (Hsys : system_ok).

Lemma frame_kept (m m0 m1 : machine) target id next_addr a i :
  sim a m1 → dispatched dispatcher_addr m1 m target id → returned next_addr m m0 → 0 ≤ i ≤ 16 →
  load 8 (mem m0) (get m sp + i) = load 8 (mem m) (get m sp + i).
Proof.
  intros Hsim Hd Hr Hi. pose proof (system_room Hsys). apply load_ext. intros j Hj. apply (returned_mem _ _ _ Hr).
  - rewrite (dispatched_sp _ _ _ _ _ Hd), <- Z.add_assoc, u64_add_l.
    replace (get m1 sp - 24 + (i + j)) with (get m1 sp - (24 - (i + j))) by lia. eapply system_stack; [done | done | lia].
  - intros k Hk. replace (get m sp + i + j) with (get m sp - k + (k + i + j)) by lia. rewrite <- (Z.add_0_r (get m sp - k)) at 2.
    apply u64_add_ne; lia.
Qed.

(** The context restore of the block that the dispatcher goes to brings the state
    of the application back. *)
Lemma dispatched_returns (m m0 m1 : machine) target id next_addr a :
  sim a m1 → ok a → dispatched dispatcher_addr m1 m target id → returned next_addr m m0 → enters cfg sim next_addr a m0.
Proof.
  intros Hsim Hoa Hd Hr. pose proof (system_room Hsys). pose proof (returned_ok _ _ _ Hr) as Ho0.
  assert (∀ r, 0 ≤ get m1 r < 2 ^ 64) as Hom1 by (intros r; rewrite (sim_get _ _ (system_app Hsys) a m1) by done; apply Hoa).
  destruct context_regs as (Hm & H0 & Hsp).
  destruct (riscv_pop_spec (cfg_target cfg) (reg_mask [a0; a1]) m0) as (restore & Hq & Hmem & Hsp3 & Hother & Hload & _); [by right | done..|].
  change (regs_of (reg_mask [a0; a1])) with [a0; a1] in *. exists restore. split_and!; [exact Hq | | done | apply (returned_pc _ _ _ Hr)].
  assert (get m0 sp = u64 (get m1 sp - 16)) as Hsp0.
  { rewrite (returned_sp _ _ _ Hr), (dispatched_sp _ _ _ _ _ Hd), u64_add_l. f_equal. lia. }
  assert (∀ i, 0 ≤ i ≤ 8 → load 8 (mem m0) (get m0 sp + i) = load 8 (mem m) (get m sp + 8 + i)) as Hword.
  { intros i Hi. rewrite <- Z.add_assoc, <- (frame_kept m m0 m1 target id next_addr a) by (done || lia).
    rewrite <- load_u64, (returned_sp _ _ _ Hr), u64_add_l, load_u64. f_equal. lia. }
  eapply (system_below Hsys a m1); [exact Hsim | | |].
  - intros r. destruct (decide (r = sp)) as [->|Hnsp].
    { rewrite Hsp3, Hsp0, u64_add_l. change (frame_size (reg_mask [a0; a1])) with 16. rewrite Z.sub_add. by apply u64_small. }
    destruct (decide (r = a0)) as [->|Ha0].
    { rewrite (Hload 0%nat a0) by done. rewrite Hword, Z.add_0_r by lia.
      rewrite <- (u64_small (get m1 a0)) by done. f_equal. rewrite <- (dispatched_saved _ _ _ _ _ Hd 1%nat a0) by done. f_equal. lia. }
    destruct (decide (r = a1)) as [->|Ha1].
    { rewrite (Hload 1%nat a1) by done. rewrite Hword by lia.
      rewrite <- (u64_small (get m1 a1)) by done. f_equal. rewrite <- (dispatched_saved _ _ _ _ _ Hd 2%nat a1) by done. f_equal. lia. }
    rewrite Hother; [|rewrite !not_elem_of_cons; split_and!; [done | done | apply not_elem_of_nil] | done].
    destruct (decide (r = s1)) as [->|Hs1].
    { rewrite (returned_s1 _ _ _ Hr), <- (dispatched_saved _ _ _ _ _ Hd 0%nat s1) by done. f_equal. lia. }
    assert (r ∉ [sp; s1; a0; a1]) as Hn by (rewrite !not_elem_of_cons; split_and!; try done; apply not_elem_of_nil).
    by rewrite (returned_regs _ _ _ Hr), (dispatched_regs _ _ _ _ _ Hd).
  - rewrite <- (dispatched_csrs _ _ _ _ _ Hd), <- (returned_csrs _ _ _ Hr). rewrite Ht in Hq. vm_compute in Hq. injection Hq as <-. done.
  - intros x Hx Hj. rewrite Hmem, (returned_mem _ _ _ Hr); [| done |].
    + apply (dispatched_frame _ _ _ _ _ Hd). intros j Hj2. rewrite (dispatched_sp _ _ _ _ _ Hd), u64_add_l.
      replace (get m1 sp - 24 + j) with (get m1 sp - (24 - j)) by lia. apply Hj. lia.
    + intros j Hj2. rewrite (dispatched_sp _ _ _ _ _ Hd). rewrite <- Z.add_opp_r, u64_add_l.
      replace (get m1 sp - 24 + - j) with (get m1 sp - (24 + j)) by lia. apply Hj. lia.
Qed.

(** ** The state of the thread *)

Notation behind w := (first_free cfg w).
Notation src_path a a1 := (rtc (src_step riscv_decode source app) a a1).

(** Everything in the blocks taken so far is left. *)
Definition kept (w w' : world (T := T * contents)) : Prop := stays w w' (behind w) (behind w) (behind w).

Lemma kept_trans w1 w2 w3 : kept w1 w2 → kept w2 w3 → behind w1 ≤ behind w2 → kept w1 w3.
Proof.
  intros H1 H2 Hle x e Hx Hs Hc Hb. apply H2; [by apply H1 | done | left; lia | lia].
Qed.

(** A block of the application: [n] instructions and a direct branch, which take
    it from [a] to [a2]. *)
Record app_block (n : nat) (a a2 : machine) : Prop := {
  app_decodes : block_at riscv_decode source n (pc a) = true;
  app_low : 2 ^ 20 ≤ pc a;
  app_high : pc a + 4 * Z.of_nat n ≤ 2 ^ 51;
  app_path : ∃ a1, src_path a a1 ∧ src_exit riscv_decode source a1 a2 }.

(** Block [bb] holds the translation of the code at [spc], whatever is later
    behind the blocks taken so far. *)
Definition translated (w : world) (spc bb : Z) : Prop :=
  ∀ w', kept w w' → ∀ n a a2 m, ok a → pc a = spc → app_block n a a2 → enters cfg sim (block_addr cfg (w_th w) bb) a m →
    ∃ m1 m', sim a2 m1 ∧ runs app w' m m' ∧ ok m' ∧ dispatched dispatcher_addr m1 m' (pc a2) bb.

Lemma translated_later w w1 spc bb :
  translated w spc bb → kept w w1 → behind w ≤ behind w1 → block_addr cfg (w_th w1) bb = block_addr cfg (w_th w) bb → translated w1 spc bb.
Proof. intros H Hk Hle Hba w' Hk' n a a2 m Ho Hp Hb He. rewrite Hba in He. eapply H; [by eapply kept_trans | done..]. Qed.

Definition table_ok th (M : gmap Z Z) : Prop := map_Forall (λ spc tpc, ∃ bb,
  trampolines_size_bbs cfg ≤ bb < free_block th ∧ tpc = block_addr cfg th bb ∧ translated (world_of th) spc bb) M.

(** What the dispatcher finds and leaves. *)
Record cache_inv th : Prop := {
  inv_shape : shape cfg th;
  inv_cache : cache_ok cfg dispatcher_addr (code_cache th);
  inv_stubs : Forall no_stub (code_cache_meta th);
  inv_table : ∃ M, at_repr (entry_address th) M ∧ table_ok th M }.

(** The machine at the dispatcher, called for the place where the application is. *)
Record at_dispatcher (a m : machine) : Prop := {
  at_app : ok a;
  at_state : ∃ m1 id, sim a m1 ∧ dispatched dispatcher_addr m1 m (pc a) id ∧ 0 ≤ id < CODE_CACHE_SIZE cfg }.

Context (Hcfg : config_ok cfg) (Hext : ext = rv64g) (Hbs : BASIC_BLOCK_SIZE cfg = 64) (Hsize : CODE_CACHE_SIZE cfg < 2 ^ 31).
Context (Hg : free_plugin g ≤ 0) (Htr : DBM_TRACES cfg = false) (Hopt : opt = MkLinkOptions false false).

Lemma inv_flushed (b : bool) th : cache_inv th → cache_inv (set_was_flushed b th).
Proof. intros [H1 H2 H3 H4]. destruct H1. split; [by split | done | done | exact H4]. Qed.

Lemma flush_contents th th' : flush_code_cache cfg th = Ok th' → snd (entry_address th') = snd (entry_address th).
Proof.
  unfold flush_code_cache. intros H. apply bind_ok_inv in H as (tb & Htb & H). cbn in Htb. apply bind_ok_inv in Htb as (t0 & _ & Htb).
  injection Htb as <-. inv_ok. done.
Qed.

(** A new block is taken, after a flush when few are left. *)
Lemma allocate_inv th : cache_inv th → ∃ th0, allocate_bb cfg th = Ok (free_block th0, set_free_block (free_block th0 + 1) th0)
  ∧ cache_inv th0 ∧ trampolines_size_bbs cfg ≤ free_block th0 < CODE_CACHE_SIZE cfg - CODE_CACHE_OVERP cfg.
Proof.
  intros Hi. destruct (allocate_bb_ok cfg Hcfg th (inv_shape _ Hi)) as (th0 & Ha & Hs & Hb & Hth). exists th0. split; [done|]. split; [|done].
  destruct Hth as [[-> _]|[Hf _]]; [done|].
  destruct (flush_ok cfg Hcfg th (inv_shape _ Hi)) as (th' & Hf' & _ & Hms & _ & _ & Hc & Hr & _).
  rewrite Hf in Hf'. injection Hf' as <-. split; [done | rewrite Hc; by destruct Hi | | exists ∅; split; [done | apply map_Forall_empty]].
  rewrite Hms. apply Forall_app. split; [|apply Forall_drop; by destruct Hi].
  apply Forall_fmap, Forall_true. intros m. done.
Qed.

Lemma plain_entry th target b : adjust_cc_entry cfg (entry_of cfg th target b) = block_addr cfg th b.
Proof. unfold adjust_cc_entry, entry_of. by rewrite Ht. Qed.

(** The state in which the scanner is called for [target] in the block that was
    just taken. *)
Definition called (th0 : dbm_thread (T * contents)) (ms : list dbm_code_cache_meta) (tb : T) : dbm_thread (T * contents) :=
  set_entry_address (tb, snd (entry_address th0)) (set_code_cache_meta ms (set_free_block (free_block th0 + 1) th0)).

Lemma scan_calls th target : cache_inv th → target ≠ 0 →
  scan cfg riscv_scanners th target ALLOCATE_BB = Err Hang
  ∨ ∃ th0 M ms tb cl, cache_inv th0 ∧ trampolines_size_bbs cfg ≤ free_block th0 < CODE_CACHE_SIZE cfg - CODE_CACHE_OVERP cfg ∧ table_ok th0 M
      ∧ at_repr tb (<[target := block_addr cfg th0 (free_block th0)]> M) ∧ length ms = length (code_cache_meta th0) ∧ Forall no_stub ms
      ∧ scan cfg riscv_scanners th target ALLOCATE_BB
        = (x ← scan_riscv_thread (called th0 ms tb) target (free_block th0) mambo_bb 0;
           Ok (block_addr cfg th0 (free_block th0), fst x, cl x)).
Proof.
  intros Hi Hnz. destruct (allocate_inv th Hi) as (th0 & Ha & Hi0 & Hb). pose proof Hi0 as [Hs0 Hc0 Hst0 (M & Hr & HM)].
  pose proof (ok_fragments _ Hcfg). pose proof (ok_overp _ Hcfg). pose proof (ok_trampolines _ Hcfg).
  destruct (meta_at cfg th0 (free_block th0) Hs0) as [mt Hmt]; [lia|].
  unfold scan. change (ALLOCATE_BB =? ALLOCATE_BB) with true. cbn [negb mbind outcome_bind]. rewrite Ha. cbn [mbind outcome_bind fst snd].
  set (f := λ m, set_tpc _ _). rewrite (upd_meta_ok (free_block th0) f _ mt) by (lia || done). cbn [mbind outcome_bind].
  set (ms := <[_ := _]> _). set (th2 := set_code_cache_meta ms _).
  replace (entry_of cfg th2 target (free_block th0)) with (block_addr cfg th0 (free_block th0)) by (unfold entry_of; by rewrite Ht).
  unfold add_entry. cbn [at_add table_and_contents]. change (fst (entry_address th2)) with (fst (entry_address th0)).
  destruct (at_add_law (fst (entry_address th0)) M target (block_addr cfg th0 (free_block th0)) Hr Hnz) as [(tb & -> & Htb)| ->]; [right | by left].
  cbn [mbind outcome_bind fst snd]. exists th0, M, ms, tb. eexists. split_and!; try done; [lia | lia | | |].
  - unfold ms. by rewrite length_insert.
  - apply Forall_insert; [done|]. by apply (Forall_lookup_1 _ _ _ _ Hst0 Hmt).
  - unfold scan_block. rewrite Ht. change (Dbm.scan_riscv riscv_scanners) with scan_riscv_thread. unfold called.
    change (snd (entry_address th2)) with (snd (entry_address th0)). fold ms. fold th2.
    destruct (scan_riscv_thread _ _ _ _ _) as [x|]; [|done]. cbn [mbind outcome_bind]. f_equal.
    replace (adjust_cc_entry cfg (block_addr cfg th0 (free_block th0))) with (block_addr cfg th0 (free_block th0))
      by (unfold adjust_cc_entry; by rewrite Ht).
    match goal with |- (_, _, ?c) = _ => instantiate (1 := λ x, if free_block (fst x) <? free_block th0
       then [(block_addr cfg th0 (free_block th0), traces_addr cfg (fst x));
             (block_addr cfg (fst x) (trampolines_size_bbs cfg), block_addr cfg (fst x) (free_block (fst x)))]
       else [(block_addr cfg th0 (free_block th0), block_addr cfg th0 (free_block th0) + snd x + 1)]) end. done.
Qed.

Notation scan_at th target b := (RiscvScan.scan_riscv cfg ext dispatcher_addr trace_head_incr_addr syscall_wrapper_addr entries_addr riscv_decode
  source fuel g watched (c_ids (snd (entry_address th))) (world_of th) target b mambo_bb 0).

Lemma called_block th0 ms tb : cache_inv th0 → trampolines_size_bbs cfg ≤ free_block th0 < CODE_CACHE_SIZE cfg - CODE_CACHE_OVERP cfg →
  length ms = length (code_cache_meta th0) → block_ok cfg dispatcher_addr (free_block th0) (world_of (called th0 ms tb)).
Proof.
  intros [Hs Hc _ _] Hb Hl. pose proof (ok_trampolines _ Hcfg). pose proof (ok_fragments _ Hcfg). pose proof (ok_overp _ Hcfg).
  pose proof (cache_range _ _ _ Hc). pose proof (shape_metas _ _ Hs).
  split; cbn [world_of w_th called set_entry_address set_code_cache_meta set_free_block free_block code_cache code_cache_meta]; [done | lia | lia | |].
  - apply lookup_lt_is_Some. lia.
  - rewrite (block_addr_eq cfg Hbs). cbn. lia.
Qed.

(** The scanner returns, and the code it writes translates the block. *)
Lemma scan_called th0 ms tb n a a2 : cache_inv th0 →
  trampolines_size_bbs cfg ≤ free_block th0 < CODE_CACHE_SIZE cfg - CODE_CACHE_OVERP cfg → length ms = length (code_cache_meta th0) →
  ok a → app_block n a a2 → Z.of_nat n < CODE_CACHE_OVERP cfg → (n + 1 < fuel)%nat →
  let th3 := called th0 ms tb in
  ∃ q k, scan_at th3 (pc a) (free_block th0) = Ok (q, k) ∧ scanned cfg th3 (w_th (s_world q))
    ∧ kept (world_of th0) (s_world q) ∧ translated (s_world q) (pc a) (free_block th0).
Proof.
  intros Hi Hb Hl Ho Hblk Hn Hfuel th3. pose proof (called_block th0 ms tb Hi Hb Hl) as Hbo. pose proof Hblk as [Hdec Hlo Hhi (a1 & Hpath & Hex)].
  pose proof (ok_fragments _ Hcfg). pose proof (ok_overp _ Hcfg). pose proof (shape_metas _ _ (inv_shape _ Hi)).
  assert (first_free cfg (world_of th3) = block_addr cfg th3 (free_block th0) + 256) as Hff
    by (unfold first_free; rewrite !(block_addr_eq cfg Hbs); cbn; lia).
  destruct (scan_riscv_ok cfg ext dispatcher_addr trace_head_incr_addr syscall_wrapper_addr entries_addr riscv_decode source app Ht Hext Hbs
    n fuel g watched (c_ids (snd (entry_address th3))) (world_of th3) (pc a) (free_block th0)) as (q & k & Hq & _); try done.
  { split; [rewrite Hff; cbn [w_th world_of]; lia | cbn; lia | cbn; lia]. }
  exists q, k. split; [done|]. split; [by eapply (scan_riscv_scanned cfg ext _ _ _ _ _ _ g watched Hg Ht Hbs _ _ (world_of th3))|].
  pose proof (λ x x1 x2, block_follows cfg ext dispatcher_addr trace_head_incr_addr syscall_wrapper_addr entries_addr riscv_decode source app sim
    Ht Hext Hbs fuel g watched (c_ids (snd (entry_address th3))) (world_of th3) (pc a) (free_block th0) q k x x1 x2 (system_app Hsys) Hg Htr Hbo Hq)
    as Hfollow.
  split.
  - destruct (Hfollow a a1 a2 Ho eq_refl Hpath Hex (s_world q)) as [Hst _]; [apply stays_refl|].
    intros x e Hx Hsz _ Hle. apply Hst; [done | done | left | rewrite Hff]; unfold first_free in Hle; cbn [w_th world_of] in *;
      rewrite (block_addr_eq cfg Hbs) in *; cbn in *; lia.
  - intros w' Hk n' a' a2' m Ho' Hpc' [_ _ _ (a1' & Hpath' & Hex')] Hen.
    destruct (Hfollow a' a1' a2' Ho' Hpc' Hpath' Hex' w') as [_ Hrun].
    + intros x e Hx Hsz _ Hle. apply Hk; [done | done | by left | done].
    + apply Hrun. left. replace (block_addr cfg (w_th (s_world q)) (free_block th0)) with (block_addr cfg th3 (free_block th0)) in Hen; [exact Hen|].
      destruct (scan_riscv_scanned cfg ext _ _ _ _ _ _ g watched Hg Ht Hbs _ _ (world_of th3) _ _ _ _ Htr Hq) as (? & ? & -> & _). done.
Qed.

(** A scan for a block of the application keeps the invariant. *)
Lemma scan_keeps_inv th n a a2 : cache_inv th → ok a → app_block n a a2 → Z.of_nat n < CODE_CACHE_OVERP cfg → (n + 1 < fuel)%nat →
  scan cfg riscv_scanners th (pc a) ALLOCATE_BB = Err Hang
  ∨ ∃ th' bb cl, scan cfg riscv_scanners th (pc a) ALLOCATE_BB = Ok (block_addr cfg th' bb, th', cl)
      ∧ cache_inv th' ∧ 0 ≤ bb < CODE_CACHE_SIZE cfg ∧ translated (world_of th') (pc a) bb.
Proof.
  intros Hi Ho Hblk Hn Hfuel. pose proof (app_low _ _ _ Hblk).
  destruct (scan_calls th (pc a) Hi) as [?|(th0 & M & ms & tb & cl & Hi0 & Hb & HM & Htb & Hl & Hms & ->)]; [lia | by left | right].
  destruct (scan_called th0 ms tb n a a2) as (q & k & Hq & Hsc & Hk & Htl); [done..|].
  unfold scan_riscv_thread. rewrite Hq. cbn [mbind outcome_bind fst snd].
  destruct Hsc as (ms' & fb & Heq & Hl' & Hfb & Hfbs & Hst). cbn in Hl', Hfb, Hfbs. rewrite Heq. set (th3 := called th0 ms tb) in *.
  set (th' := set_contents _ _). exists th', (free_block th0). eexists. split; [done|].
  assert (∀ x, fetch (world_of th') x = fetch (s_world q) x) as Hfetch by done.
  assert (behind (world_of th') = behind (s_world q)) as Hbe by (unfold first_free; by rewrite Heq).
  assert (kept (world_of th0) (world_of th')) as Hk' by (intros x e Hx Hsz Hp Hle; rewrite Hfetch; by apply Hk).
  assert (translated (world_of th') (pc a) (free_block th0)) as Htl'.
  { eapply translated_later; [exact Htl | | by rewrite Hbe | by rewrite Heq]. intros x e Hx. by rewrite Hfetch. }
  pose proof (ok_trampolines _ Hcfg). pose proof (ok_overp _ Hcfg). split; [|by split; [lia|]]. pose proof Hi0 as [Hs0 Hc0 _ _]. pose proof (shape_free _ _ Hs0). split; [|done|by apply Hst|].
  - destruct Hs0. split; cbn; try done; [by rewrite Hl', Hl | exact (at_repr_valid _ _ Htb) | lia].
  - exists (<[pc a := block_addr cfg th0 (free_block th0)]> M). split; [exact Htb|].
    apply map_Forall_insert_2; [exists (free_block th0); split; [cbn; lia | done]|].
    intros spc tpc Hlk. destruct (HM spc tpc Hlk) as (bb & Hbb & -> & Hold). exists bb. split; [cbn; lia|]. split; [done|].
    eapply translated_later; [exact Hold | exact Hk' | | done]. unfold first_free. rewrite !(block_addr_eq cfg Hbs). cbn. lia.
Qed.

(** The dispatcher finds the translation of a block or makes it. *)
Lemma lookup_translates th n a a2 : cache_inv th → ok a → app_block n a a2 → Z.of_nat n < CODE_CACHE_OVERP cfg → (n + 1 < fuel)%nat →
  lookup_or_scan cfg riscv_scanners th (pc a) = Err Hang
  ∨ ∃ th' bb, lookup_or_scan cfg riscv_scanners th (pc a) = Ok (block_addr cfg th' bb, th')
      ∧ cache_inv th' ∧ 0 ≤ bb < CODE_CACHE_SIZE cfg ∧ translated (world_of th') (pc a) bb.
Proof.
  intros Hi Ho Hblk Hn Hfuel. pose proof (app_low _ _ _ Hblk). pose proof Hi as [Hs _ Hst (M & Hr & HM)].
  unfold lookup_or_scan, lookup_or_scan_with_cached, cc_lookup. rewrite (at_lookup_law _ M) by (done || lia). cbn [mbind outcome_bind].
  destruct (M !! pc a) as [tpc|] eqn:Hlk; cbn [from_option id].
  - destruct (HM _ _ Hlk) as (bb & Hbb & -> & Htl). right. pose proof (shape_free _ _ Hs). pose proof (ok_trampolines _ Hcfg). pose proof (ok_overp _ Hcfg).
    destruct (entry_point cfg Hcfg th 0 bb Hs) as (_ & Hid & Htrc & Hmax & _); [lia|]. rewrite plain_entry in Hid, Htrc, Hmax.
    unfold adjust_cc_entry. rewrite Ht. cbn [is_arm andb]. rewrite (proj2 (Z.eqb_neq _ _) Hmax), Htrc, Hid. cbn [negb andb].
    pose proof (ok_fragments _ Hcfg). destruct (meta_at cfg th bb Hs) as [m Hm]; [lia|]. rewrite (aget_lookup _ _ m) by (done || lia).
    cbn [mbind outcome_bind fst snd]. rewrite decide_False; [|exact (proj1 (Forall_forall _ _) Hst m (list_elem_of_lookup_2 _ _ _ Hm))].
    rewrite (proj2 (Z.eqb_neq _ _) Hmax). cbn [negb mbind outcome_bind fst snd].
    exists th, bb. split; [done|]. split; [done|]. by split; [lia|].
  - unfold adjust_cc_entry. rewrite Ht. cbn [is_arm andb]. change (UINT_MAX =? UINT_MAX) with true. cbn [negb andb mbind outcome_bind fst snd].
    change (UINT_MAX =? UINT_MAX) with true. cbn [negb].
    destruct (scan_keeps_inv th n a a2 Hi Ho Hblk Hn Hfuel) as [->|(th' & bb & cl & -> & Hi' & Hbb & Htl)]; [by left | right].
    by exists th', bb.
Qed.

Lemma path_ok a a1 : src_path a a1 → ok a → ok a1.
Proof.
  induction 1 as [|s s1 s2 Hstep _ IH]; [done|]. intros Ho. apply IH. destruct Hstep as [_ _ Ha|_ _ _ ->]; [|by apply ok_exec].
  by apply (app_next _ _ (system_app Hsys) _ _ _ Ha).
Qed.

Lemma exit_ok a a2 : src_exit riscv_decode source a a2 → ok a → ok a2.
Proof.
  intros Hex Ho. destruct Hex as [? ->|? ->|? ->|? ? ->|? ->|? ->]; try (by apply ok_exec); [|done].
  split; [apply u64_range | apply Ho].
Qed.

(** One call of the dispatcher and the block it goes to. *)
Lemma dispatcher_step th n a a2 m :
  cache_inv th → at_dispatcher a m → app_block n a a2 → Z.of_nat n < CODE_CACHE_OVERP cfg → (n + 1 < fuel)%nat →
  dispatcher (get m RiscvAsm.a0) (get m RiscvAsm.a1) th = Err Hang
  ∨ ∃ next_addr th', dispatcher (get m RiscvAsm.a0) (get m RiscvAsm.a1) th = Ok (next_addr, th') ∧ cache_inv th'
      ∧ ∀ m0, returned next_addr m m0 → ∃ m', runs app (world_of th') m0 m' ∧ at_dispatcher a2 m'.
Proof.
  intros Hi [Ho (m1 & id & Hsim & Hd & Hid)] Hblk Hn Hfuel. pose proof (inv_shape _ Hi) as Hs. pose proof (ok_fragments _ Hcfg).
  rewrite (dispatched_a0 _ _ _ _ _ Hd), (dispatched_a1 _ _ _ _ _ Hd). destruct (meta_at cfg th id Hs) as [mt Hmt]; [lia|].
  unfold dispatcher. rewrite (aget_lookup _ _ mt), Htr by (done || lia). cbn [andb mbind outcome_bind].
  destruct (lookup_translates (set_was_flushed false th) n a a2) as [->|(th' & bb & -> & Hi' & Hbb & Htl)];
    [by apply inv_flushed | done..| by left | right]. cbn [mbind outcome_bind].
  exists (block_addr cfg th' bb), th'. split; [|split; [done|]].
  - destruct (_ || _); [done|]. unfold link_exit. rewrite Hopt. cbn [DBM_LINK_UNCOND_IMM DBM_LINK_COND_IMM].
    by destruct (exit_branch_type mt).
  - intros m0 Hr. destruct (Htl (world_of th')) with n a a2 m0 as (m2 & m' & Hm2 & Hrun & Hom & Hd'); try done; [by intros x e Hx| |].
    { eapply dispatched_returns; [exact Hsim | exact Ho | exact Hd | exact Hr]. }
    exists m'. split; [done|]. destruct Hblk as [_ _ _ (a1' & Hp & Hx)]. split; [|by exists m2, bb].
    eapply exit_ok; [exact Hx | by eapply path_ok].
Qed.

(** ** Runs of the application *)

(** Calls of the dispatcher and runs of blocks, until [goal] holds at a call or
    the table is full; whatever the dispatcher does to the memory it may use. *)
Inductive follows (goal : dbm_thread (T * contents) → machine → Prop) th m : Prop :=
  | follows_here : goal th m → follows goal th m
  | follows_full : dispatcher (get m RiscvAsm.a0) (get m RiscvAsm.a1) th = Err Hang → follows goal th m
  | follows_on next_addr th' :
      dispatcher (get m RiscvAsm.a0) (get m RiscvAsm.a1) th = Ok (next_addr, th') →
      (∀ m0, returned next_addr m m0 → ∃ m', runs app (world_of th') m0 m' ∧ pc m' = dispatcher_addr ∧ follows goal th' m') →
      follows goal th m.

(** Blocks for which the scanner has the space and the fuel. *)
Definition app_runs (a a2 : machine) : Prop :=
  rtc (λ a a2, ∃ n, app_block n a a2 ∧ Z.of_nat n < CODE_CACHE_OVERP cfg ∧ (n + 1 < fuel)%nat) a a2.

End follow.
End dispatcher.

(** ** An instance

    The application of RiscvScanSpec, from its first dispatch to the end of its
    first block, in a cache of 64 blocks of which 20 are reserved. *)

Definition run_config : config := MkConfig riscv_compressed false true true 64 64 4 20 65536 4 (table_size 3) 1.

Lemma run_config_ok : config_ok run_config.
Proof. constructor; simpl; try lia. by exists 6. Qed.

#[local] Instance run_table : AddressTable CodeCacheHash.hash_table (TABLE_SIZE run_config) := CodeCacheHash_table riscv_compressed 3 ltac:(lia).
#[local] Existing Instance table_and_contents.

Definition run_thread : dbm_thread (CodeCacheHash.hash_table * contents) :=
  MkThread 1 false 4096 (replicate 68 empty_meta)
    (CodeCacheHash.MkTable 17 0 0 (replicate 17 (HashEntry 0 0)), MkContents (λ _, None) (λ _, None) (1, 1, []))
    (replicate 64 0) 20480 64 0 (MkTrace 64 0 0 0 false 0 []) (LinkedList.Ll None 0 (replicate 4 (LinkedList.LlEntry None 0))).

(** The application minds everything but the 1000 bytes below its stack pointer. *)
Definition run_sim (a m : machine) : Prop :=
  (∀ r, get m r = get a r) ∧ csrs m = csrs a ∧ ∀ x, (∀ j, 0 < j ≤ 1000 → x ≠ u64 (get a sp - j)) → mem m x = mem a x.

Lemma run_system_ok : system_ok demo_app run_sim (λ _, False) 1000.
Proof.
  split; [split|intros a m m' (S1 & S2 & S3) Hr Hc Hm|by intros ? ? ? ? ? []|lia].
  - apply demo_app_ok.
  - intros j s s' m. unfold demo_app. destruct (_ && _); [|done]. intros [= <-] (S1 & S2 & S3) _ _. eexists. split; [done|].
    split_and!; [|done | exact S3]. intros r. rewrite !get_next. destruct (decide (r = a0)) as [->|]; [by rewrite !get_set_eq, S1 | by rewrite !get_set_ne, S1].
  - intros a a' m m' (S1 & S2 & S3) (A1 & A2 & A3) (M1 & M2 & M3).
    split_and!; [intros r; by rewrite M1, S1, A1 | by rewrite M3, S2, A3 |]. intros x. rewrite A1, M2, A2. apply S3.
  - intros a m r (S1 & _). apply S1.
  - intros a m r v (S1 & S2 & S3) Hr. split_and!; [|done |].
    + intros r'. destruct (decide (r' = r)) as [->|]; [|by rewrite !get_set_ne, S1].
      destruct (decide (r = zero)) as [->|]; [done|]. by rewrite !get_set_eq.
    + intros x. rewrite get_set_ne by done. apply S3.
  - split_and!; [intros r; by rewrite Hr, S1 | by rewrite Hc|]. intros x Hx. rewrite Hm; [by apply S3 | by intros [] | by rewrite S1].
Qed.

Lemma run_inv : cache_inv run_config 2048 demo_decode demo_source demo_app run_sim run_thread.
Proof.
  split; [|split; [cbn; lia | done | split; [lia | done] | cbn; lia] | by apply Forall_replicate |].
  - constructor; cbn; try done; try lia. by exists 16.
  - exists ∅. split; [|apply map_Forall_empty]. split_and!; [|apply (represents_replicate 17)|done].
    constructor; try done; [by exists 3|]. intros i e Hi He. apply lookup_replicate in Hi as [-> _]. simpl in He. lia.
Qed.

(** The machine after the exit of another block: [demo_state] was saved. *)
Lemma run_dispatched id : 0 ≤ id < 64 → ∃ m, at_dispatcher run_config 2048 run_sim demo_state m ∧ ok m ∧ get m a1 = id.
Proof.
  intros Hid. destruct (save_spec riscv_compressed (or_intror eq_refl)) as (save & _ & _ & _ & Hsave).
  destruct (Hsave demo_state demo_state_ok) as [[P1 P2 P3 P4 P5] _]. set (x := run save demo_state) in *.
  exists (set_pc 2048 (set a1 id (set a0 0x100000 x))). split; [|split].
  - split; [apply demo_state_ok|]. exists demo_state, id. split; [split_and!; [done | done | by intros]|]. split; [|done].
    assert (∀ r, r ≠ a1 → r ≠ a0 → get (set_pc 2048 (set a1 id (set a0 0x100000 x))) r = get x r) as Hget
      by (intros r H1 H0; by rewrite get_set_pc, !get_set_ne).
    split; try done.
    + rewrite get_set_pc, get_set_eq by done. apply u64_small; lia.
    + intros r Hr. rewrite !not_elem_of_cons in Hr. destruct Hr as (H1 & H2 & H3 & H4 & _). rewrite Hget by done. by apply P2.
  - split; [apply u64_range|]. intros r. rewrite get_set_pc. apply ok_set, ok_set, ok_run, demo_state_ok.
  - rewrite get_set_pc, get_set_eq by done. by apply u64_small; lia.
Qed.

End RiscvRun.
