(* ===== verification/RiscvTrace.v ===== *)
(** * Traces on RISC-V (arch/riscv/riscv_traces.c, traces_common.c)

    A trace strings fragments of hot code together in the trace area behind the
    basic blocks. [create_trace] scans the first fragment; at its exit the
    dispatcher for traces, [trace_dispatcher], records the other side of a
    branch as an exit, scans the fragment for the target behind, and so on, until
    the trace meets another one, an indirect jump or a limit. [install_trace]
    then redirects the branches to the head of the trace and writes the exits.
    The state is a thread with the contents of its code cache (RiscvRun). *)
From S2P Require Import Prelude LinearProbe CodeCacheHash LinkedList AddressTable Dbm.
From S2P Require Import CcLinks RegList Plugin RiscvImm RiscvAsm RiscvEmit RiscvContext RiscvProg RiscvExec RiscvLink RiscvLinked RiscvExit RiscvLookup.
From S2P Require Import RiscvInst Pie RiscvScan RiscvScanSpec RiscvRun.
Import Dbm CcLinks RegList Plugin RiscvImm RiscvEmit RiscvContext RiscvAsm RiscvProg RiscvExec RiscvLink RiscvLinked RiscvExit RiscvLookup RiscvInst RiscvScan RiscvRun.
Import RiscvScanSpec (demo_decode, demo_source).
#[local] Open Scope Z_scope.

Module RiscvTrace.

Definition WHOLE_TRACE : Z := 4000.
Definition TRACE_PADDING : Z := 1000.
Definition TRACE_EXIT : Z := 15.
Definition RISCV_B_BRANCH_RANGE : Z := 4096.
Definition RISCV_TRACE_EXIT_STUB_MAX_SIZE : Z := 20.
Definition MAX_TRACE_FRAGMENTS : Z := 20.
Definition MAX_TRACE_REC_EXITS : Z := MAX_TRACE_FRAGMENTS + 1.
Definition TRACE_FRAGMENT_OVERP : Z := 50.
Definition TRACE_LIMIT_OFFSET : Z := 1024 * 1024.
Definition TRACE_ALIGN : Z := 4.
Definition TRACE_ALIGN_MASK : Z := TRACE_ALIGN - 1.
Definition FALLTHROUGH_LINKED : Z := 1.
Definition BRANCH_LINKED : Z := 2.
Definition BOTH_LINKED : Z := 4.
Definition UINTPTR_MAX : Z := 2 ^ 64 - 1.

(** [(uint8_t)x]. *)
Definition u8 (x : Z) : Z := x mod 2 ^ 8.

(** *** Fields *)

Definition set_trace_write_p (v : Z) (r : trace_in_prog) : trace_in_prog :=
  MkTrace (tp_id r) (source_bb r) v (entry_addr r) (active r) (free_exit_rec r) (exits r).
Definition set_active (v : bool) (r : trace_in_prog) : trace_in_prog :=
  MkTrace (tp_id r) (source_bb r) (tp_write_p r) (entry_addr r) v (free_exit_rec r) (exits r).
Definition set_exits (n : Z) (v : list trace_exits) (r : trace_in_prog) : trace_in_prog :=
  MkTrace (tp_id r) (source_bb r) (tp_write_p r) (entry_addr r) (active r) n v.
Definition set_predictions (slot : option Z) (n : Z) (r : dbm_code_cache_meta) : dbm_code_cache_meta :=
  MkMeta (source_addr r) (tpc r) (exit_branch_type r) (actual_id r) (exit_branch_addr r) (branch_taken_addr r)
    (branch_skipped_addr r) (Dbm.branch_condition r) (branch_cache_status r) (rn r) (rs1 r) (rs2 r) slot
    (ihlu_address r) n (link r) (imm r) (rd r) (Dbm.inst r) (read_addr r) (trampoline_addr r)
    (trampoline_slots_used r) (free_b r) (linked_from r) (saved_exit r).

Section trace.
Context (cfg : config) {T : Type} `{!AddressTable T (TABLE_SIZE cfg)}.
#[local] Existing Instance table_and_contents.
Notation thread := (dbm_thread (T * contents)).
Implicit Types (th : thread).
Notation t := (cfg_target cfg).
Context (ext : march) (dispatcher_addr trace_head_incr_addr syscall_wrapper_addr entries_addr : Z).
Context (riscv_decode : (Z → Z) → riscv_instruction) (source : Z → Z).
Context (fuel : nat) (g : global (world (T := T * contents))) (watched : list (Z * mambo_callback (world (T := T * contents)))).

Definition set_active_trace (v : trace_in_prog) th : thread :=
  MkThread (free_block th) (was_flushed th) (code_cache th) (code_cache_meta th) (entry_address th) (exec_count th)
    (trace_cache_next th) (trace_id th) (trace_fragment_count th) v (cc_links th).
Definition upd_trace (f : trace_in_prog → trace_in_prog) th : thread := set_active_trace (f (active_trace th)) th.
Definition set_trace_next (id next : Z) th : thread :=
  MkThread (free_block th) (was_flushed th) (code_cache th) (code_cache_meta th) (entry_address th) (exec_count th)
    next id (trace_fragment_count th) (active_trace th) (cc_links th).
Definition set_trace_fragment_count (n : Z) th : thread :=
  MkThread (free_block th) (was_flushed th) (code_cache th) (code_cache_meta th) (entry_address th) (exec_count th)
    (trace_cache_next th) (trace_id th) n (active_trace th) (cc_links th).

(** Code written outside of the scanner: the state and the end of the code. *)
Definition write_code (l : list inst) (write_p : Z) th : thread * Z :=
  let r := emit_code l (world_of th) write_p in
  (set_contents (MkContents (w_code (fst r)) (w_raw (fst r)) (c_ids (snd (entry_address th)))) th, snd r).

Notation lookup_or_scan := (lookup_or_scan cfg
  (riscv_scanners cfg ext dispatcher_addr trace_head_incr_addr syscall_wrapper_addr entries_addr riscv_decode source fuel g watched)).
Notation scan_riscv_thread :=
  (scan_riscv_thread cfg ext dispatcher_addr trace_head_incr_addr syscall_wrapper_addr entries_addr riscv_decode source fuel g watched).

(** ** The trace under construction (traces_common.c) *)

Definition get_active_trace_spc th : outcome Z :=
  m ← aget (code_cache_meta th) (source_bb (active_trace th)); Ok (source_addr m).

Definition active_trace_lookup_or_scan th (target : Z) : outcome (Z * thread) :=
  spc ← get_active_trace_spc th;
  if target =? spc then Ok (adjust_cc_entry cfg (entry_addr (active_trace th)), th)
  else lookup_or_scan th target.

Definition active_trace_lookup th (target : Z) : outcome Z :=
  spc ← get_active_trace_spc th;
  if target =? spc then Ok (adjust_cc_entry cfg (entry_addr (active_trace th)))
  else
    return_tpc ← at_lookup (entry_address th) target;
    if traces_addr cfg th <=? return_tpc then Ok (adjust_cc_entry cfg return_tpc) else Ok UINT_MAX.

Definition allocate_trace_fragment th : outcome (Z * thread) :=
  let id := tp_id (active_trace th) in
  c_assert (id <? CODE_CACHE_SIZE cfg + TRACE_FRAGMENT_NO cfg);;
  Ok (id, upd_trace (set_tp_id (id + 1)) th).

(** ** Exits *)

(** The result 0 or -1; the counter is increased in both cases. *)
Definition trace_record_exit th (from to cond fragment_id : Z) : outcome (Z * thread) :=
  let record := free_exit_rec (active_trace th) in
  if MAX_TRACE_REC_EXITS <=? record then Ok (-1, upd_trace (λ a, set_exits (record + 1) (exits a) a) th)
  else
    es ← aset (exits (active_trace th)) record (TraceExit from to fragment_id cond);
    Ok (0, upd_trace (set_exits (record + 1) es) th).

(** The result, the write pointer and the state. *)
Definition riscv_jump_to (write_p target : Z) th : outcome (Z * Z * thread) :=
  match riscv_jal_helper write_p (target + 6) zero with
  | Some j => let r := write_code [j] write_p th in Ok (0, snd r, fst r)
  | None =>
      push ← riscv_push t (reg_mask [a0; a1]);
      let r := write_code push write_p th in
      match riscv_jalr_helper (snd r) target zero a0 with
      | Some l => let r := write_code l (snd r) (fst r) in Ok (0, snd r, fst r)
      | None => Ok (-1, snd r, fst r)
      end
  end.

Definition riscv_tribi_jump_to (write_p target : Z) th : outcome (Z * Z * thread) :=
  match riscv_jal_helper write_p target zero with
  | Some j => let r := write_code [j] write_p th in Ok (0, snd r, fst r)
  | None =>
      match riscv_jalr_helper write_p target zero a0 with
      | Some l => let r := write_code l write_p th in Ok (0, snd r, fst r)
      | None => Ok (-1, write_p, th)
      end
  end.

(** [assert(riscv_jump_to(...) == 0);] *)
Definition jump_checked (write_p target : Z) th : outcome (Z * thread) :=
  r ← riscv_jump_to write_p target th; c_assert (fst (fst r) =? 0);; Ok (snd (fst r), snd r).

Definition riscv_b_branch_can_reach (from target : Z) : bool :=
  let offset := s64 (target - from) in
  Z.even offset && (- RISCV_B_BRANCH_RANGE <=? offset) && (offset <? RISCV_B_BRANCH_RANGE).

(** [n] rounds of the loop, from exit [i] on. *)
Fixpoint stubs_fit_loop (n : nat) th (i stub_addr : Z) : outcome bool :=
  match n with
  | O => Ok true
  | S n =>
      e ← aget (exits (active_trace th)) i;
      if riscv_b_branch_can_reach (from e) stub_addr
      then stubs_fit_loop n th (i + 1) (u64 (stub_addr + RISCV_TRACE_EXIT_STUB_MAX_SIZE))
      else Ok false
  end.

Definition trace_exit_stubs_fit th (stub_start : Z) : outcome bool :=
  stubs_fit_loop (Z.to_nat (free_exit_rec (active_trace th))) th 0 stub_start.

Definition set_up_trace_exit th (write_p target : Z) : outcome (Z * thread) :=
  x ← (match riscv_jal_helper write_p (target + 6) zero with
       | Some j => Ok (write_code [j] write_p th, target + 6)
       | None =>
           push ← riscv_push t (reg_mask [a0; a1]);
           let r := write_code push write_p th in
           match riscv_jalr_helper (snd r) target zero a0 with
           | Some l => Ok (write_code l (snd r) (fst r), target)
           | None => Err AssertFail
           end
       end);
  let '((th, end_p), target) := x in
  th ← record_cc_link cfg th write_p target;
  Ok (end_p, th).

Definition patch_trace_branches th (orig_branch tpc : Z) : outcome (Z * thread) := jump_checked orig_branch tpc th.

(** ** Installing a trace *)

(** A conditional branch at the end of block [current_bb] that was linked to the
    head of the trace: one of its sides is a trace by now, the other one is
    translated when it is not. *)
Definition patch_branch th (current_bb : Z) : outcome thread :=
  m ← aget (code_cache_meta th) current_bb;
  taken_trace ← active_trace_lookup th (branch_taken_addr m);
  trace_fallthrough ← active_trace_lookup th (branch_skipped_addr m);
  let br_start := exit_branch_addr m in
  x ← (if negb (taken_trace =? UINT_MAX) then
         r ← active_trace_lookup_or_scan th (branch_skipped_addr m);
         m ← aget (code_cache_meta (snd r)) current_bb;
         taken ← active_trace_lookup (snd r) (branch_taken_addr m);
         Ok (fst r, taken, Dbm.branch_condition m, snd r)
       else if negb (trace_fallthrough =? UINT_MAX) then
         r ← active_trace_lookup_or_scan th (branch_taken_addr m);
         m ← aget (code_cache_meta (snd r)) current_bb;
         taken ← active_trace_lookup (snd r) (branch_skipped_addr m);
         Ok (fst r, taken, Z.lxor (Dbm.branch_condition m) 1, snd r)
       else Err AssertFail);
  let '(not_taken, taken, cond, th) := x in
  c_assert (negb (s32 cond =? -1) && (negb (taken =? UINTPTR_MAX) || negb (not_taken =? UINTPTR_MAX)));;
  r ← jump_checked (br_start + 4) not_taken th;
  let '(orig_branch, th) := r in
  m ← aget (code_cache_meta th) current_bb;
  match riscv_branch_helper br_start orig_branch (rs1 m) (rs2 m) (cond_of cond) with
  | None => Err AssertFail
  | Some b =>
      r ← jump_checked orig_branch taken (fst (write_code [b] br_start th));
      let '(orig_branch, th) := r in
      if not_taken <? traces_addr cfg th then record_cc_link cfg th orig_branch not_taken else Ok th
  end.

(** One recorded link; [None] ends the loop. *)
Definition patch_link th (orig_branch tpc : Z) : outcome (option thread) :=
  if traces_addr cfg th <=? orig_branch then
    r ← patch_trace_branches th orig_branch tpc; Ok (Some (snd r))
  else
    let current_bb := addr_to_bb_id cfg th orig_branch in
    if current_bb <? 0 then Ok None
    else
      m ← aget (code_cache_meta th) current_bb;
      let current_bb := if negb (actual_id m =? 0) then actual_id m else current_bb in
      m ← aget (code_cache_meta th) current_bb;
      if decide (exit_branch_type m = branch_riscv) then Some <$> patch_branch th current_bb
      else r ← jump_checked orig_branch tpc th; Ok (Some (snd r)).

Fixpoint patch_links (n : nat) th (cc_link : option Z) (tpc : Z) : outcome thread :=
  match cc_link, n with
  | None, _ => Ok th
  | Some _, O => Err OutOfFuel
  | Some l, S n =>
      e ← aget (LinkedList.pool (cc_links th)) l;
      r ← patch_link th (LinkedList.data e) tpc;
      match r with
      | None => Ok th
      | Some th =>
          if was_flushed th then Ok th
          else e ← aget (LinkedList.pool (cc_links th)) l; patch_links n th (LinkedList.next e) tpc
      end
  end.

(** The branch of exit [e] and its stub at the end of the trace. *)
Definition install_exit (e : trace_exits) th : outcome thread :=
  m ← aget (code_cache_meta th) (Dbm.fragment_id e);
  match riscv_branch_helper (from e) (tp_write_p (active_trace th)) (rs1 m) (rs2 m) (cond_of (Z.lxor (exit_condition e) 1)) with
  | None => Err AssertFail
  | Some b =>
      let th := fst (write_code [b] (from e) th) in
      r ← set_up_trace_exit th (tp_write_p (active_trace th)) (to e);
      Ok (upd_trace (set_trace_write_p (fst r)) (snd r))
  end.

Definition install_exits th : outcome thread :=
  c_for (Z.to_nat (free_exit_rec (active_trace th))) 0
    (λ i th, e ← aget (exits (active_trace th)) i; install_exit e th) th.

(** [hash_add], whose result is not used. *)
Definition add_trace th (spc tpc : Z) : outcome thread :=
  r ← at_add (entry_address th) spc tpc; Ok (set_entry_address (snd r) th).

(** [links] bounds the list of the branches to the block: records of the pool. *)
Definition install_trace th : outcome thread :=
  let bb_source := source_bb (active_trace th) in
  m ← aget (code_cache_meta th) bb_source;
  let spc := source_addr m in
  let tpc := entry_addr (active_trace th) in
  c_assert (active (active_trace th));;
  let th := upd_trace (set_active false) th in
  th ← patch_links (length (LinkedList.pool (cc_links th))) th (linked_from m) tpc;
  if was_flushed th then Ok th
  else
    th ← add_trace th spc tpc;
    th ← install_exits th;
    Ok (set_trace_next (tp_id (active_trace th)) (tp_write_p (active_trace th)) th).

(** ** Growing a trace *)

(** A NOP for the branch, which is written when the trace is installed, and the
    record of its exit. *)
Definition set_up_trace_exit_branch_placeholder th (write_p fragment_id : Z) (is_taken : bool) : outcome (Z * thread) :=
  bb_meta ← aget (code_cache_meta th) fragment_id;
  let condition := Dbm.branch_condition bb_meta in
  let new_condition := if is_taken then condition else Z.lxor condition 1 in
  let addr := if is_taken then branch_skipped_addr bb_meta else branch_taken_addr bb_meta in
  let th := fst (write_code [nop] write_p th) in
  tpc ← active_trace_lookup th addr;
  x ← (if tpc =? UINT_MAX then lookup_or_scan th addr else Ok (tpc, th));
  let '(tpc, th) := x in
  r ← trace_record_exit th write_p tpc new_condition fragment_id;
  c_assert (fst r =? 0);;
  Ok (write_p + 4, snd r).

(** The length of the fragment, its number and the state. The limit of the
    length of a trace is computed in bytes. *)
Definition scan_trace th (address : Z) (type : cc_type) : outcome (Z * Z * thread) :=
  let write_p := tp_write_p (active_trace th) in
  x ← allocate_trace_fragment th;
  let '(trace_id, th) := x in
  th ← upd_meta trace_id (λ m, set_branch_cache_status 0 (set_tpc write_p (set_source_addr address m))) th;
  r ← scan_riscv_thread th address trace_id type write_p;
  let th := fst r in
  if u8 (WHOLE_TRACE - TRACE_PADDING)
     <=? (write_p - entry_addr (active_trace th)) + u8 ((trace_fragment_count th + 1) * TRACE_EXIT)
  then Ok (0, trace_id, th)
  else Ok (snd r, trace_id, set_trace_fragment_count (trace_fragment_count th + 1) th).

(** The trace ends in a jump to [tpc] and is installed. *)
Definition early_trace_exit th (bb_meta write_p tpc : Z) : outcome thread :=
  r ← riscv_jump_to write_p tpc th;
  th ← install_trace (upd_trace (set_trace_write_p (snd (fst r))) (snd r));
  if was_flushed th then Ok th
  else upd_meta bb_meta (λ m, set_branch_cache_status (Z.lor (branch_cache_status m) BOTH_LINKED) m) th.

(** The address at which the execution goes on, and the state. *)
Definition create_trace th (bb_source : Z) : outcome (Z * thread) :=
  let th := set_trace_fragment_count 0 th in
  m ← aget (code_cache_meta th) bb_source;
  if decide (exit_branch_type m = jal_riscv ∨ exit_branch_type m = branch_riscv) then
    let source_addr := source_addr m in
    let next := trace_cache_next th in
    let next := u64 (next + Z.land (TRACE_ALIGN - Z.land next TRACE_ALIGN_MASK) TRACE_ALIGN_MASK) in
    let th := set_trace_next (trace_id th) next th in
    if (code_cache th + MAX_BRANCH_RANGE cfg - TRACE_LIMIT_OFFSET <=? next)
       || (CODE_CACHE_SIZE cfg + TRACE_FRAGMENT_NO cfg - TRACE_FRAGMENT_OVERP <=? trace_id th)
    then th ← flush_code_cache cfg th; lookup_or_scan th source_addr
    else
      let th := set_active_trace (MkTrace (trace_id th) bb_source next next true 0 (exits (active_trace th))) th in
      x ← scan_trace (set_was_flushed false th) source_addr mambo_trace_entry;
      let '(_, id, th) := x in
      if was_flushed th then lookup_or_scan th source_addr
      else
        m ← aget (code_cache_meta th) id;
        match exit_branch_type m with
        | jal_riscv | branch_riscv => Ok (next, th)
        | _ => Err Hang
        end
  else Err Hang.

(** ** Predictions of indirect jumps *)

(** A comparison of the jump's target with [target] before the hash lookup; when
    the slots are used up the lookup itself replaces the predictions' jump. *)
Definition insert_tribi_prediction th (source_index target : Z) : outcome thread :=
  bb_meta ← aget (code_cache_meta th) source_index;
  let number := number_of_predictions bb_meta in
  if number <? TRIBI_SLOTS then
    slot ← (match next_prediction_slot bb_meta with Some s => Ok s | None => Err NullPointer end);
    let rs2 := if rs1 bb_meta =? a0 then a1 else a0 in
    load ← riscv_copy_to_reg rs2 target;
    let '(th, branch) := write_code load slot th in
    ret ← (if rd bb_meta =? zero then Ok []
           else
             c_assert (negb (rd bb_meta =? s1) && negb (rd bb_meta =? a0) && negb (rd bb_meta =? a1));;
             riscv_copy_to_reg (rd bb_meta)
               (u64 (read_addr bb_meta + (if enum RISCV_LUI <=? Dbm.inst bb_meta then 4 else 2))));
    let '(th, write_p) := write_code ret (branch + 4) th in
    tpc ← active_trace_lookup th target;
    r ← riscv_tribi_jump_to write_p tpc th;
    c_assert (fst (fst r) =? 0);;
    let write_p := snd (fst r) in
    th ← upd_meta source_index (λ m, set_predictions (Some write_p) (number_of_predictions m + 1) m) (snd r);
    let th := fst (write_code (option_list (riscv_branch_helper branch write_p (rs1 bb_meta) rs2 BNE)) branch th) in
    Ok (fst (write_code (option_list (riscv_jal_helper write_p (default 0 (ihlu_address bb_meta)) zero)) write_p th))
  else
    c_assert ((rd bb_meta =? zero) || negb (rd bb_meta =? s1) && negb (rd bb_meta =? a0) && negb (rd bb_meta =? a1));;
    let c := snd (entry_address th) in
    let eba := exit_branch_addr bb_meta in
    r ← riscv_inline_hash_lookup cfg dispatcher_addr (enum RISCV_LUI) entries_addr th source_index (eba, c_code c)
          (branch_skipped_addr bb_meta) (rs1 bb_meta) (imm bb_meta) (link bb_meta) true false;
    let w := fst (emitted (world_of th) eba r) in
    Ok (set_contents (MkContents (w_code w) (w_raw w) (c_ids c)) (fst r)).

(** ** The dispatcher for traces *)

(** Ends of [trace_dispatcher]: the trace is installed with a jump to [addr]. *)
Definition finish_trace th (bb_meta write_p target addr : Z) : outcome (Z * thread) :=
  th ← early_trace_exit th bb_meta write_p addr;
  if was_flushed th then lookup_or_scan th target else Ok (addr, th).

(** The translation of [target], linked when it is no trace. *)
Definition trace_target th (write_p target : Z) : outcome (Z * thread) :=
  addr ← active_trace_lookup th target;
  if addr =? UINT_MAX then
    r ← active_trace_lookup_or_scan th target;
    th ← record_cc_link cfg (snd r) write_p (fst r);
    Ok (fst r, th)
  else Ok (addr, th).

Definition reset_trace (write_p id exit_rec : Z) th : thread :=
  upd_trace (λ a, set_exits exit_rec (exits a) (set_tp_id id (set_trace_write_p write_p a))) th.

(** The code on which the execution goes on is written behind the trace: it
    restores the context and jumps to the new fragment. *)
Definition enter_fragment th (start_addr : Z) : outcome (Z * thread) :=
  let fragment_end := tp_write_p (active_trace th) in
  pop ← riscv_pop t (reg_mask [a0; a1]);
  let r := write_code pop fragment_end th in
  Ok (fragment_end, fst (write_code (option_list (riscv_jal_helper (snd r) start_addr zero)) (snd r) (fst r))).

(** The next fragment, when there is room for it. *)
Definition next_fragment th (source_index write_p target : Z) : outcome (Z * thread) :=
  let trace_id_start := tp_id (active_trace th) in
  let exit_rec_start := free_exit_rec (active_trace th) in
  x ← scan_trace th target mambo_trace;
  let '(fragment_len, fragment_id, th) := x in
  if was_flushed th then lookup_or_scan th target
  else if fragment_len =? 0 then
    r ← trace_target (reset_trace write_p trace_id_start exit_rec_start th) write_p target;
    finish_trace (snd r) source_index write_p target (fst r)
  else
    let th := upd_trace (λ a, set_trace_write_p (tp_write_p a + 2 * fragment_len) a) th in
    fit ← trace_exit_stubs_fit th (tp_write_p (active_trace th));
    if negb fit then
      r ← active_trace_lookup_or_scan (reset_trace write_p trace_id_start exit_rec_start th) target;
      finish_trace (snd r) source_index write_p target (fst r)
    else
      m ← aget (code_cache_meta th) fragment_id;
      th ← (if decide (exit_branch_type m = jalr_riscv) then install_trace th else Ok th);
      if was_flushed th then lookup_or_scan th target else enter_fragment th write_p.

(** The jump at the end of the last fragment, or its exit; [None] when the trace
    ended in an indirect jump. *)
Definition trace_exit_code th (source_index target : Z) : outcome (option Z * thread) :=
  bb_meta ← aget (code_cache_meta th) source_index;
  let is_taken := branch_taken_addr bb_meta =? target in
  let write_p := exit_branch_addr bb_meta in
  match exit_branch_type bb_meta with
  | branch_riscv =>
      x ← set_up_trace_exit_branch_placeholder th write_p source_index is_taken;
      th ← upd_meta source_index (set_branch_cache_status (if is_taken then BRANCH_LINKED else FALLTHROUGH_LINKED)) (snd x);
      Ok (Some (fst x), th)
  | jal_riscv => th ← upd_meta source_index (set_branch_cache_status BRANCH_LINKED) th; Ok (Some write_p, th)
  | jalr_riscv => Ok (None, th)
  | _ => Err Hang
  end.

Definition trace_indirect th (source_index target : Z) : outcome (Z * thread) :=
  r ← lookup_or_scan th target;
  if DBM_TRIBI cfg && (traces_addr cfg (snd r) <=? fst r)
  then th ← insert_tribi_prediction (snd r) source_index target; Ok (fst r, th)
  else Ok r.

Definition trace_dispatcher (target source_index : Z) th : outcome (Z * thread) :=
  x ← trace_exit_code (set_was_flushed false th) source_index target;
  match fst x with
  | None => trace_indirect (snd x) source_index target
  | Some write_p =>
      let th := upd_trace (set_trace_write_p write_p) (snd x) in
      if was_flushed th then lookup_or_scan th target
      else
        fit ← trace_exit_stubs_fit th (u64 (write_p + RISCV_TRACE_EXIT_STUB_MAX_SIZE));
        if negb fit then
          r ← active_trace_lookup_or_scan th target;
          finish_trace (snd r) source_index write_p target (fst r)
        else if MAX_TRACE_FRAGMENTS <? trace_fragment_count th then
          r ← trace_target th write_p target;
          finish_trace (snd r) source_index write_p target (fst r)
        else
          addr ← active_trace_lookup th target;
          if negb (addr =? UINT_MAX) then finish_trace th source_index write_p target addr
          else next_fragment th source_index write_p target
  end.

(** ** Writing and linking *)

Definition code_of th : cmem := c_code (snd (entry_address th)).

Lemma write_code_eq l a th : ∃ c, write_code l a th = (set_contents c th, a + code_size l) ∧ c_code c = place a l (code_of th).
Proof. eexists. split; reflexivity. Qed.

Lemma set_contents_twice c c' th : set_contents c' (set_contents c th) = set_contents c' th.
Proof. done. Qed.

Lemma shape_contents c th : shape cfg th → shape cfg (set_contents c th).
Proof. intros []. by split. Qed.

Lemma links_contents c th F Ls : links cfg th F Ls → links cfg (set_contents c th) F Ls.
Proof. intros []. by split. Qed.

Context (Ht : cfg_target cfg = riscv_compressed).

(** The code that [riscv_jump_to] writes. *)
Lemma jump_code write_p target : placed write_p target →
  (∃ j, riscv_jal_helper write_p (target + 6) zero = Some j ∧ inst_size j = 4 ∧
     ∀ text, code_at text write_p [j] → exit_to cfg [] text write_p 4 target)
  ∨ riscv_jal_helper write_p (target + 6) zero = None ∧ ∃ p l, riscv_push t (reg_mask [a0; a1]) = Ok p ∧ code_size p = 12
    ∧ riscv_jalr_helper (write_p + code_size p) target zero a0 = Some l ∧ code_size l = 8
    ∧ ∀ text, code_at text write_p (p ++ l) → exit_to cfg [] text write_p 20 target.
Proof.
  intros (Hw0 & Hw1 & Ht0 & Ht1 & Hd & He). destruct (riscv_jal_helper write_p (target + 6) zero) as [j|] eqn:Hj; [left | right; split; [done|]].
  - exists j. destruct (jal_helper_inv _ _ _ _ Hj) as (f & -> & _). split_and!; [done | done|]. intros text [Hc _]. left. split; [lia|].
    exists 0%nat. split; [unfold RISCV_TRAMPOLINE_MAX_HOPS; lia|]. by eapply chain_last.
  - destruct (push_context (cfg_target cfg)) as (p & Hp & Hsz); [by right|].
    assert (∃ l, riscv_jalr_helper (write_p + code_size p) target zero a0 = Some l ∧ code_size l = 8) as (l & Hl & Hszl).
    { rewrite Hsz. unfold riscv_jalr_helper. rewrite s64_small by lia.
      change INT_MIN with (- 2 ^ 31). change INT_MAX with (2 ^ 31 - 1).
      replace ((_ <? _) || (_ <? _)) with false by lia. by eexists. }
    exists p, l. split_and!; try done. intros text Hc. right. by exists p, l.
Qed.

(** [n] bytes of code at [write_p] lead to [target]. *)
Definition leads_to (text : cmem) (write_p n target : Z) : Prop := 4 ≤ n ≤ 20 ∧ Z.even n = true ∧ exit_to cfg [] text write_p n target.

Lemma leads_kept text text' a n target :
  leads_to text a n target → (∀ x i, text x = Some i → a ≤ x → x + inst_size i ≤ a + n → text' x = Some i) → leads_to text' a n target.
Proof.
  intros (Hn & He & Hex) Hk. split_and!; [lia | lia | done|]. destruct Hex as [(Hn4 & h & Hh & Hc)|(p & l & Hn20 & Hp & Hj & Hc)].
  - left. split; [done|]. exists h. split; [done|]. destruct Hc as [x y i Hi Hm|n' x z y i _ _ (i' & m & _ & _ & Hm & _)]; [|done].
    destruct (jal_helper_inv _ _ _ _ Hi) as (f & -> & _). eapply chain_last; [exact Hi|]. apply Hk; [done | lia | simpl; lia].
  - right. exists p, l. split_and!; try done.
    destruct (push_context (cfg_target cfg)) as (p' & Hp' & Hsz); [by right|]. rewrite Hp in Hp'. injection Hp' as <-.
    assert (code_size (p ++ l) ≤ n) as Hszl.
    { rewrite code_size_app, Hsz. unfold riscv_jalr_helper in Hj. destruct (_ || _); [done|]. injection Hj as <-. simpl. lia. }
    revert Hc Hszl. generalize (p ++ l). intros code.
    assert (∀ x, a ≤ x → code_at text x code → x + code_size code ≤ a + n → code_at text' x code) as Hat; [|intros; apply Hat; (done || lia)].
    induction code as [|i code IH]; intros x Hx Hc Hsc; [done|]. destruct Hc as [Hi Hc]. rewrite code_size_cons in Hsc.
    pose proof (inst_size_pos i). pose proof (code_size_nonneg code). split; [apply Hk; (done || lia)|]. apply IH; [lia | done | lia].
Qed.

(** Only the code of [th] in the [n] bytes at [a] changes. *)
Definition rewritten th th' (a n : Z) : Prop :=
  ∃ c, th' = set_contents c th ∧ c_ids c = c_ids (snd (entry_address th)) ∧ keeps a n (code_of th) (c_code c).

Lemma jump_checked_spec th write_p target : placed write_p target →
  ∃ n th', jump_checked write_p target th = Ok (write_p + n, th') ∧ rewritten th th' write_p n ∧ leads_to (code_of th') write_p n target.
Proof.
  intros Hpl. unfold jump_checked, riscv_jump_to. destruct (jump_code write_p target Hpl) as [(j & -> & Hsz & Hlead)|(-> & p & l & -> & Hsz & Hl & Hszl & Hlead)].
  - destruct (write_code_eq [j] write_p th) as (c & Hw & Hc). rewrite Hw. cbn [mbind outcome_bind fst snd]. exists 4, (set_contents c th).
    assert (code_size [j] = 4) as Hs4 by (rewrite <- Hsz; cbn; lia). rewrite Hs4. split; [done|]. split.
    + exists c. split_and!; [done | by injection Hw as <- | rewrite Hc, <- Hs4; apply place_keeps].
    + split_and!; [lia | lia | done|]. apply Hlead. unfold code_of. cbn. rewrite Hc. apply (place_code_at [j]).
  - cbn [mbind outcome_bind]. destruct (write_code_eq p write_p th) as (c & Hw & Hc). rewrite Hw. cbn [fst snd]. rewrite Hl.
    destruct (write_code_eq l (write_p + code_size p) (set_contents c th)) as (c' & Hw' & Hc'). rewrite Hw'. cbn [mbind outcome_bind fst snd].
    assert (c_code c' = place write_p (p ++ l) (code_of th)) as Hcc.
    { rewrite Hc'. unfold code_of at 1. cbn. rewrite Hc. by apply place_app_at. }
    exists 20, (set_contents c' th). split; [rewrite Hszl, Hsz; change (0 =? 0) with true; cbn [c_assert mbind outcome_bind]; by replace (write_p + 12 + 8) with (write_p + 20) by lia|]. split.
    + exists c'. split_and!; [done | injection Hw' as <-; by injection Hw as <- |]. rewrite Hcc.
      pose proof (place_keeps (p ++ l) write_p (code_of th)) as Hk. by rewrite code_size_app, Hsz, Hszl in Hk.
    + split_and!; [lia | lia | done|]. apply Hlead. unfold code_of. cbn. rewrite Hcc. apply place_code_at.
Qed.

Context (Hcfg : config_ok cfg).

(** ** Exits of an installed trace *)

Lemma set_up_trace_exit_spec th F Ls w target :
  placed w target → shape cfg th → links cfg th F Ls → F ≠ [] → target ≠ traces_addr cfg th → target + 6 ≠ traces_addr cfg th →
  ∃ n c ms li F' Ls', let th' := set_code_cache_meta ms (set_cc_links li (set_contents c th)) in
    set_up_trace_exit th w target = Ok (w + n, th') ∧ keeps w n (code_of th) (c_code c) ∧ leads_to (c_code c) w n target
    ∧ shape cfg th' ∧ links cfg th' F' Ls' ∧ (length F ≤ S (length F'))%nat ∧ Forall2 relisted (code_cache_meta th) ms.
Proof.
  intros Hpl Hs Hl HF Hne Hne6. unfold set_up_trace_exit.
  destruct (jump_code w target Hpl) as [(j & -> & Hsz & Hlead)|(-> & p & l & -> & Hsz & Hlh & Hszl & Hlead)].
  - destruct (write_code_eq [j] w th) as (c & Hw & Hc). rewrite Hw. cbn [mbind outcome_bind].
    destruct (record_relisted cfg Hcfg (set_contents c th) F Ls w (target + 6)) as (ms & li & F' & Ls' & -> & Hs' & Hl' & Hlen & Hms);
      [by apply shape_contents | by apply links_contents | done | done |].
    assert (code_size [j] = 4) as Hs4 by (rewrite <- Hsz; cbn; lia). rewrite Hs4 in *.
    exists 4, c, ms, li, F', Ls'. split_and!; try done; [rewrite Hc, <- Hs4; apply place_keeps|].
    split_and!; [lia | lia | done|]. apply Hlead. rewrite Hc. apply (place_code_at [j]).
  - cbn [mbind outcome_bind]. destruct (write_code_eq p w th) as (c & Hw & Hc). rewrite Hw. cbn [fst snd]. rewrite Hlh.
    destruct (write_code_eq l (w + code_size p) (set_contents c th)) as (c' & Hw' & Hc'). rewrite Hw'. cbn [mbind outcome_bind fst snd].
    assert (c_code c' = place w (p ++ l) (code_of th)) as Hcc.
    { rewrite Hc'. unfold code_of at 1. cbn. rewrite Hc. by apply place_app_at. }
    destruct (record_relisted cfg Hcfg (set_contents c' th) F Ls w target) as (ms & li & F' & Ls' & Hr & Hs' & Hl' & Hlen & Hms);
      [by apply shape_contents | by apply links_contents | done | done |].
    rewrite set_contents_twice, Hr. cbn [mbind outcome_bind]. rewrite Hsz, Hszl. exists 20, c', ms, li, F', Ls'.
    split_and!; try done; [by replace (w + 12 + 8) with (w + 20) by lia | |].
    + rewrite Hcc. pose proof (place_keeps (p ++ l) w (code_of th)) as Hk. by rewrite code_size_app, Hsz, Hszl in Hk.
    + split_and!; [lia | lia | done|]. apply Hlead. rewrite Hcc. apply place_code_at.
Qed.

(** A recorded exit, for stubs from [W] on. *)
Record exit_ok th (W : Z) (e : trace_exits) : Prop := {
  exit_meta : 0 ≤ Dbm.fragment_id e ∧ is_Some (code_cache_meta th !! Z.to_nat (Dbm.fragment_id e));
  exit_from : 0 ≤ from e ∧ from e + 4 ≤ W;
  exit_placed w : W ≤ w ≤ W + 20 * MAX_TRACE_REC_EXITS → placed w (to e);
  exit_not_first : to e ≠ traces_addr cfg th ∧ to e + 6 ≠ traces_addr cfg th }.

(** The branch at exit [e] goes to a stub between [W] and [lim], and the stub to
    the target. *)
Definition stubbed (ms : list dbm_code_cache_meta) (code : cmem) (W lim : Z) (e : trace_exits) : Prop :=
  ∃ m b stub n, ms !! Z.to_nat (Dbm.fragment_id e) = Some m ∧ W ≤ stub ∧ stub + n ≤ lim ∧ Z.even (stub - from e) = true
    ∧ stub - from e < 4096
    ∧ riscv_branch_helper (from e) stub (rs1 m) (rs2 m) (cond_of (Z.lxor (exit_condition e) 1)) = Some b
    ∧ code (from e) = Some b ∧ leads_to code stub n (to e).

Lemma relisted_stubbed ms ms' code W lim e : Forall2 relisted ms ms' → stubbed ms' code W lim e → stubbed ms code W lim e.
Proof.
  intros Hms (m' & b & stub & n & Hm & H). destruct (Forall2_lookup_r _ _ _ _ _ Hms Hm) as (m & Hm0 & v & ->).
  by exists m, b, stub, n.
Qed.

(** While the exits are installed: [i] of [N] are. *)
Record installing th0 (W N : Z) (i : Z) th : Prop := {
  installing_shape : shape cfg th;
  installing_links : ∃ F Ls, links cfg th F Ls ∧ N - i ≤ Z.of_nat (length F);
  installing_fields : ∃ c ms li w, th = upd_trace (set_trace_write_p w) (set_code_cache_meta ms (set_cc_links li (set_contents c th0)))
    ∧ Forall2 relisted (code_cache_meta th0) ms ∧ W ≤ w ≤ W + 20 * i ∧ Z.even w = true;
  installing_code x k : code_of th0 x = Some k → x + inst_size k ≤ W →
    (∀ j e, (j < Z.to_nat i)%nat → exits (active_trace th0) !! j = Some e → disjoint x (inst_size k) (from e) 4) → code_of th x = Some k;
  installing_exits j e : (j < Z.to_nat i)%nat → exits (active_trace th0) !! j = Some e →
    stubbed (code_cache_meta th0) (code_of th) W (tp_write_p (active_trace th)) e }.

Lemma stubs_fit_each th n : ∀ i stub, 0 ≤ i → 0 ≤ stub → stub + 20 * Z.of_nat n < 2 ^ 64 → stubs_fit_loop n th i stub = Ok true →
  ∀ j e, i ≤ Z.of_nat j < i + Z.of_nat n → exits (active_trace th) !! j = Some e →
    riscv_b_branch_can_reach (from e) (stub + 20 * (Z.of_nat j - i)) = true.
Proof.
  induction n as [|n IH]; intros i stub Hi H0 Hb H j e Hj He; [lia|]. cbn [stubs_fit_loop] in H.
  apply bind_ok_inv in H as (e0 & He0 & H). apply aget_ok in He0 as [_ He0].
  destruct (riscv_b_branch_can_reach (from e0) stub) eqn:Hr; [|done].
  destruct (decide (Z.of_nat j = i)) as [<-|Hne].
  - rewrite Nat2Z.id in He0. simplify_eq. by rewrite Z.sub_diag, Z.mul_0_r, Z.add_0_r.
  - change RISCV_TRACE_EXIT_STUB_MAX_SIZE with 20 in H. rewrite u64_small in H by lia.
    specialize (IH (i + 1) (stub + 20) ltac:(lia) ltac:(lia) ltac:(lia) H j e ltac:(lia) He).
    by replace (stub + 20 + 20 * (Z.of_nat j - (i + 1))) with (stub + 20 * (Z.of_nat j - i)) in IH by lia.
Qed.

(** The code outside of [[a, a + n)] and [[b, b + k)] after two writes. *)
Lemma keeps_two a n b k (m m1 m2 : cmem) x i : keeps a n m m1 → keeps b k m1 m2 → m x = Some i →
  disjoint x (inst_size i) a n → disjoint x (inst_size i) b k → m2 x = Some i.
Proof. intros H1 H2 Hx Ha Hb. apply H2; [by apply H1 | done]. Qed.

Lemma stubbed_kept ms code code' W lim lim' e : stubbed ms code W lim e → lim ≤ lim' → from e + 4 ≤ W →
  (∀ x i, code x = Some i → x = from e ∧ inst_size i = 4 ∨ W ≤ x ∧ x + inst_size i ≤ lim → code' x = Some i) → stubbed ms code' W lim' e.
Proof.
  intros (m & b & stub & n & Hm & Hw & Hl & He & Hr & Hb & Hc & Hlead) Hlim Hf Hk. exists m, b, stub, n.
  assert (inst_size b = 4) as Hsb.
  { destruct Hlead as (Hn & _). destruct (branch_helper_inv _ _ _ _ _ _ Hb) as (hi & lo & -> & _); [unfold near; lia | done]. }
  split_and!; try done; [lia | apply Hk; [done | by left] |].
  eapply leads_kept; [exact Hlead|]. intros x i Hx Hax Hxn. apply Hk; [done | right; lia].
Qed.

Lemma install_exit_step th0 W N i e th :
  0 ≤ i < N → N ≤ MAX_TRACE_REC_EXITS → 0 ≤ W → W + 20 * MAX_TRACE_REC_EXITS < 2 ^ 63 → exits (active_trace th0) !! Z.to_nat i = Some e →
  exit_ok th0 W e → riscv_b_branch_can_reach (from e) (W + 20 * i) = true → Z.even W = true →
  (∀ j e', (j < Z.to_nat i)%nat → exits (active_trace th0) !! j = Some e' → disjoint (from e') 4 (from e) 4 ∧ from e' + 4 ≤ W) →
  installing th0 W N i th → ∃ th', install_exit e th = Ok th' ∧ installing th0 W N (i + 1) th'.
Proof.
  intros Hi HN H0 HW Hes [[Hf0 Hm0] [Hfr Hfw] Hpl [Hn1 Hn2]] Hreach Hev Hdis [Hs (F & Ls & Hl & HF) (c & ms & li & w & Hth & Hms & Hw & Hwe) Hcode Hex].
  destruct Hm0 as [m0 Hm0]. destruct (Forall2_lookup_l _ _ _ _ _ Hms Hm0) as (m & Hm & v & ->).
  unfold riscv_b_branch_can_reach in Hreach. rewrite s64_small in Hreach by lia. change RISCV_B_BRANCH_RANGE with 4096 in Hreach.
  destruct (Z.even (W + 20 * i - from e)) eqn:Hevd; [|done]. cbn [andb] in Hreach.
  assert (Z.even (w - from e) = true) as Hevw.
  { rewrite Z.even_sub, Z.even_add, Z.even_mul, Hev in Hevd. change (Z.even 20) with true in Hevd. cbn in Hevd.
    rewrite Z.even_sub, Hwe. destruct (Z.even (from e)); done. }
  unfold install_exit. assert (aget (code_cache_meta th) (Dbm.fragment_id e) = Ok (set_linked_from v m0)) as ->
    by (apply aget_lookup; [lia | by rewrite Hth]).
  cbn [mbind outcome_bind]. assert (tp_write_p (active_trace th) = w) as Hwp by by rewrite Hth. rewrite Hwp.
  destruct (branch_helper_some (from e) w (rs1 m0) (rs2 m0) (cond_of (Z.lxor (exit_condition e) 1)) Hevw) as (b & Hb & Hsb); [lia|].
  change (rs1 (set_linked_from v m0)) with (rs1 m0). change (rs2 (set_linked_from v m0)) with (rs2 m0). rewrite Hb.
  destruct (write_code_eq [b] (from e) th) as (c1 & Hw1 & Hc1). rewrite Hw1. cbn [fst].
  assert (tp_write_p (active_trace (set_contents c1 th)) = w) as -> by done.
  destruct (set_up_trace_exit_spec (set_contents c1 th) F Ls w (to e)) as (n & c2 & ms2 & li2 & F' & Ls' & -> & Hk2 & Hlead & Hs2 & Hl2 & Hlen & Hms2);
    [apply Hpl; lia | by apply shape_contents | by apply links_contents | intros ->; simpl in HF; lia | | |].
  { rewrite Hth. exact Hn1. }
  { rewrite Hth. exact Hn2. }
  cbn [mbind outcome_bind fst snd]. eexists. split; [reflexivity|].
  assert (keeps (from e) 4 (code_of th) (c_code c1)) as Hk1.
  { rewrite Hc1. pose proof (place_keeps [b] (from e) (code_of th)) as Hk. cbn in Hk. rewrite Hsb in Hk. exact Hk. }
  change (code_of (set_contents c1 th)) with (c_code c1) in Hk2. destruct Hlead as (Hn & Hne & Hexit).
  split.
  - destruct Hs2. by split.
  - exists F', Ls'. split; [destruct Hl2; by split | lia].
  - exists c2, ms2, li2, (w + n). split; [by rewrite Hth|]. split; [|split; [lia | by rewrite Z.even_add, Hwe, Hne]].
    eapply relisted_all_trans; [exact Hms|]. by rewrite Hth in Hms2.
  - intros x k Hx Hxw Hd. apply (keeps_two _ _ _ _ _ _ _ _ _ Hk1 Hk2).
    + apply Hcode; [done..|]. intros j e' Hj He'. apply (Hd j); [lia | done].
    + apply (Hd (Z.to_nat i)); [lia | done].
    + unfold disjoint. lia.
  - intros j e' Hj He'. change (tp_write_p _) with (w + n). change (code_of _) with (c_code c2).
    destruct (decide (j = Z.to_nat i)) as [->|Hne'].
    + rewrite Hes in He'. injection He' as <-. exists m0, b, w, n. split_and!; try done; try lia.
      apply Hk2; [rewrite Hc1; apply put_same | unfold disjoint; rewrite Hsb; lia].
    + destruct (Hdis j e') as [Hdj Hfj]; [lia | done|].
      eapply stubbed_kept; [apply (Hex j); [lia | done] | rewrite Hwp; lia | lia |]. rewrite Hwp.
      intros x k Hx Hor. apply (keeps_two _ _ _ _ _ _ _ _ _ Hk1 Hk2 Hx); unfold disjoint in *; lia.
Qed.

Lemma stubs_fit_exits th n : ∀ i stub, 0 ≤ i → stubs_fit_loop n th i stub = Ok true → ∀ j, i ≤ Z.of_nat j < i + Z.of_nat n →
  is_Some (exits (active_trace th) !! j).
Proof.
  induction n as [|n IH]; intros i stub Hi H j Hj; [lia|]. cbn [stubs_fit_loop] in H.
  apply bind_ok_inv in H as (e0 & He0 & H). apply aget_ok in He0 as [_ He0]. destruct (riscv_b_branch_can_reach _ _); [|done].
  destruct (decide (Z.of_nat j = i)) as [<-|Hne]; [rewrite Nat2Z.id in He0; by eexists|]. eapply IH; [|exact H|]; lia.
Qed.

(** What is known of a trace before it is installed: its exits are in reach of
    their stubs, apart from each other, and link records are left for them. *)
Record installable th : Prop := {
  able_count : 0 ≤ free_exit_rec (active_trace th) ≤ MAX_TRACE_REC_EXITS;
  able_end : 0 ≤ tp_write_p (active_trace th) ∧ tp_write_p (active_trace th) + 20 * MAX_TRACE_REC_EXITS < 2 ^ 63
    ∧ Z.even (tp_write_p (active_trace th)) = true;
  able_fit : trace_exit_stubs_fit th (tp_write_p (active_trace th)) = Ok true;
  able_exits j e : Z.of_nat j < free_exit_rec (active_trace th) → exits (active_trace th) !! j = Some e →
    exit_ok th (tp_write_p (active_trace th)) e;
  able_apart j k e e' : Z.of_nat j < free_exit_rec (active_trace th) → (k < j)%nat → exits (active_trace th) !! j = Some e →
    exits (active_trace th) !! k = Some e' → disjoint (from e') 4 (from e) 4 }.

Lemma install_exits_ok th F Ls : shape cfg th → links cfg th F Ls → free_exit_rec (active_trace th) ≤ Z.of_nat (length F) → installable th →
  ∃ th', install_exits th = Ok th'
    ∧ installing th (tp_write_p (active_trace th)) (free_exit_rec (active_trace th)) (free_exit_rec (active_trace th)) th'.
Proof.
  intros Hs Hl HF [[HN0 HN] (H0 & HW & Hev) Hfit Hok Hap]. unfold install_exits. set (N := free_exit_rec _) in *. set (W := tp_write_p _) in *.
  unfold trace_exit_stubs_fit in Hfit. fold N in Hfit. change MAX_TRACE_REC_EXITS with 21 in *.
  destruct (c_for_inv (installing th W N) (Z.to_nat N) 0 (λ i th, e ← aget (exits (active_trace th)) i; install_exit e th) th)
    as (th' & Hth' & Hin); [| |by replace (0 + Z.of_nat (Z.to_nat N)) with N in Hin by lia; exists th'].
  - split; [done | exists F, Ls; split; [done | lia] | | | intros; lia].
    + exists (snd (entry_address th)), (code_cache_meta th), (cc_links th), W. split_and!; [| apply relisted_all_refl | lia | lia | done].
      unfold W. by destruct th as [? ? ? ? [? ?] ? ? ? ? [] ?].
    + done.
  - intros i th1 Hi Hin. destruct (stubs_fit_exits th (Z.to_nat N) 0 W ltac:(lia) Hfit (Z.to_nat i)) as [e He]; [lia|].
    assert (aget (exits (active_trace th1)) i = Ok e) as ->.
    { destruct Hin as [_ _ (c & ms & li & w & -> & _) _ _]. apply aget_lookup; [lia | done]. }
    cbn [mbind outcome_bind]. apply install_exit_step; [lia | done | done | done | exact He | apply (Hok (Z.to_nat i)); [lia | done] | | done | | exact Hin].
    + pose proof (stubs_fit_each th (Z.to_nat N) 0 W ltac:(lia) ltac:(lia) ltac:(lia) Hfit (Z.to_nat i) e ltac:(lia) He) as Hr.
      by rewrite Z.sub_0_r, Z2Nat.id in Hr by lia.
    + intros j e' Hj He'. split; [apply (Hap (Z.to_nat i) j); (done || lia)|].
      by destruct (exit_from _ _ _ (Hok j e' ltac:(lia) He')).
Qed.

(** The context restore at the start of a translation. *)
Definition restores_at (text : cmem) (tpc : Z) : Prop :=
  ∃ q, riscv_pop t (reg_mask [a0; a1]) = Ok q ∧ code_at text tpc q.

(** Where an exit leads when the trace is left there, and otherwise. *)
Lemma stubbed_goes ms text W lim e : stubbed ms text W lim e → restores_at text (to e) → 0 ≤ from e → from e + 4 ≤ W → 0 ≤ W → lim < 2 ^ 63 →
  (∀ w, W ≤ w → w + 4 ≤ lim → placed w (to e)) →
  ∃ m, ms !! Z.to_nat (Dbm.fragment_id e) = Some m ∧ ∀ s, ok s → pc s = from e →
    if holds (cond_of (Z.lxor (exit_condition e) 1)) (get s (rs1 m)) (get s (rs2 m))
    then ∃ s', reaches text s s' ∧ pc s' = to e + 6 ∧ ok s' ∧ restored s s'
    else goes_to text s (from e + 4).
Proof.
  intros (m & b & stub & n & Hm & Hw & Hlim & He & Hr & Hb & Hc & Hn & _ & Hexit) (q & Hq & Hcq) Hf0 Hfw HW Hl Hpl.
  exists m. split; [done|]. intros s Ho Hp. rewrite <- Hp in Hb, Hc.
  pose proof (branch_goes text s stub (rs1 m) (rs2 m) (cond_of (Z.lxor (exit_condition e) 1)) b Hb) as Hg.
  rewrite Hp in Hg. specialize (Hg ltac:(unfold near; lia)). rewrite Hp in Hc. specialize (Hg Hc ltac:(lia) Ho ltac:(lia)).
  destruct (holds _ _ _); [|done]. destruct Hg as (s1 & Hr1 & Hp1 & Hss & Ho1).
  destruct (exit_arrives cfg [] text stub n (to e) q s1) as (s' & Hr' & Hp' & Ho' & Hres); try done; [apply Hpl; lia|].
  exists s'. split_and!; [by eapply reaches_trans | done | done |]. by eapply restored_trans.
Qed.

(** ** The branches to the head of a trace *)

(** A recorded link at [o] that is redirected to [tpc] by itself: it is in a trace,
    or at the end of a block with another exit than a conditional branch. *)
Definition patchable th (tpc o : Z) : Prop :=
  placed o tpc ∧ (traces_addr cfg th ≤ o
    ∨ o < traces_addr cfg th ∧ 0 ≤ addr_to_bb_id cfg th o ∧ ∃ m0 m, code_cache_meta th !! Z.to_nat (addr_to_bb_id cfg th o) = Some m0
        ∧ let b := if negb (actual_id m0 =? 0) then actual_id m0 else addr_to_bb_id cfg th o in
          0 ≤ b ∧ code_cache_meta th !! Z.to_nat b = Some m ∧ exit_branch_type m ≠ branch_riscv).

Lemma patch_link_spec th tpc o : patchable th tpc o →
  ∃ n th', patch_link th o tpc = Ok (Some th') ∧ rewritten th th' o n ∧ leads_to (code_of th') o n tpc.
Proof.
  intros [Hpl Hcase]. destruct (jump_checked_spec th o tpc Hpl) as (n & th' & Hj & Hrw & Hl). exists n, th'. split; [|done].
  unfold patch_link. destruct Hcase as [Ho|(Ho & Hb & m0 & m & Hm0 & Hb' & Hm & Hne)].
  - rewrite (proj2 (Z.leb_le _ _) Ho). unfold patch_trace_branches. by rewrite Hj.
  - rewrite (proj2 (Z.leb_gt _ _) Ho), (proj2 (Z.ltb_ge _ _) Hb), (aget_lookup _ _ m0) by done. cbn [mbind outcome_bind].
    rewrite (aget_lookup _ _ m) by done. cbn [mbind outcome_bind]. rewrite decide_False by done. by rewrite Hj.
Qed.

Lemma patchable_contents th c tpc o : patchable th tpc o → patchable (set_contents c th) tpc o.
Proof. done. Qed.

(** The links [L], in the order of the list. *)
Definition links_ok th (tpc : Z) (L : list Z) : Prop :=
  ∀ l, l ∈ L → 0 ≤ l ∧ ∃ e, LinkedList.pool (cc_links th) !! Z.to_nat l = Some e ∧ patchable th tpc (LinkedList.data e).
Definition links_apart th (L : list Z) : Prop := ∀ l l' e e', l ∈ L → l' ∈ L → l ≠ l' →
  LinkedList.pool (cc_links th) !! Z.to_nat l = Some e → LinkedList.pool (cc_links th) !! Z.to_nat l' = Some e' →
  disjoint (LinkedList.data e) 20 (LinkedList.data e') 20.

Lemma patch_links_spec tpc L : ∀ n th p, LinkedList.chain (LinkedList.pool_next (LinkedList.pool (cc_links th))) p L → (length L ≤ n)%nat →
  was_flushed th = false → links_ok th tpc L → links_apart th L →
  ∃ c, patch_links n th p tpc = Ok (set_contents c th) ∧ c_ids c = c_ids (snd (entry_address th))
    ∧ (∀ l e, l ∈ L → LinkedList.pool (cc_links th) !! Z.to_nat l = Some e → ∃ k, leads_to (c_code c) (LinkedList.data e) k tpc)
    ∧ ∀ x i, code_of th x = Some i →
        (∀ l e, l ∈ L → LinkedList.pool (cc_links th) !! Z.to_nat l = Some e → disjoint x (inst_size i) (LinkedList.data e) 20) → c_code c x = Some i.
Proof.
  induction L as [|l L IH]; intros n th p Hc Hn Hfl Hok Hap.
  - cbn in Hc. subst p. exists (snd (entry_address th)). split_and!; [|done|by intros l' e' Hl'%not_elem_of_nil|done].
    destruct n; cbn; by destruct th as [? ? ? ? [? ?] ? ? ? ? ? ?].
  - destruct Hc as (-> & q & Hq & Hc). destruct n as [|n]; [simpl in Hn; lia|]. cbn [patch_links].
    destruct (Hok l) as (Hl0 & e & He & Hpa); [by left|]. rewrite (aget_lookup _ _ e) by done. cbn [mbind outcome_bind].
    destruct (patch_link_spec th tpc (LinkedList.data e) Hpa) as (k & th' & -> & (c & -> & Hid & Hk) & Hlead). cbn [mbind outcome_bind].
    change (was_flushed (set_contents c th)) with (was_flushed th). rewrite Hfl. change (cc_links (set_contents c th)) with (cc_links th).
    rewrite (aget_lookup _ _ e) by done. cbn [mbind outcome_bind].
    assert (LinkedList.next e = q) as ->.
    { unfold LinkedList.pool_next in Hq. destruct (Z.ltb_spec l 0) in Hq; try lia; rewrite He in Hq; by injection Hq. }
    destruct (IH n (set_contents c th) q) as (c' & -> & Hid' & Hls & Hkeep); [done | simpl in Hn; lia | done | | |].
    { intros l' Hl'. apply Hok. by right. }
    { intros l1 l2 e1 e2 H1 H2. apply Hap; by right. }
    pose proof (chain_nodup _ _ (l :: L) (conj eq_refl (ex_intro _ q (conj Hq Hc)))) as Hnd. apply NoDup_cons in Hnd as [Hnew _].
    destruct Hlead as (Hk1 & Hk2 & Hlead).
    exists c'. split; [done|]. split; [by rewrite Hid', <- Hid|]. split.
    + intros l' e' Hl' He'. apply elem_of_cons in Hl' as [->|Hl']; [|by eapply Hls].
      rewrite He in He'. injection He' as <-. exists k. eapply leads_kept; [exact (conj Hk1 (conj Hk2 Hlead))|]. intros x i Hx Hax Hxk. apply Hkeep; [done|].
      intros l2 e2 Hl2 He2. assert (disjoint (LinkedList.data e) 20 (LinkedList.data e2) 20) as Hd.
      { apply (Hap l l2); [by left | by right | intros ->; done | done | done]. }
      unfold disjoint in *. pose proof (inst_size_pos i). lia.
    + intros x i Hx Hd. apply Hkeep.
      * apply Hk; [done|]. specialize (Hd l e ltac:(by left) He). unfold disjoint in *. lia.
      * intros l2 e2 Hl2. apply Hd. by right.
Qed.

(** *** The whole installation *)

Lemma stubs_fit_same th th' n : exits (active_trace th') = exits (active_trace th) → ∀ i a, stubs_fit_loop n th' i a = stubs_fit_loop n th i a.
Proof.
  intros He. induction n as [|n IH]; intros i a; [done|]. cbn [stubs_fit_loop]. rewrite He.
  destruct (aget _ _) as [e|]; [|done]. cbn [mbind outcome_bind]. by rewrite IH.
Qed.

Lemma installable_same th th' : installable th → code_cache_meta th' = code_cache_meta th → traces_addr cfg th' = traces_addr cfg th →
  free_exit_rec (active_trace th') = free_exit_rec (active_trace th) → tp_write_p (active_trace th') = tp_write_p (active_trace th) →
  exits (active_trace th') = exits (active_trace th) → installable th'.
Proof.
  intros [A1 A2 A3 A4 A5] Hms Htr Hn Hw He. split; rewrite ?Hn, ?Hw, ?He; try done.
  - unfold trace_exit_stubs_fit in *. rewrite Hn. by rewrite (stubs_fit_same th th').
  - intros j e Hj Hje. destruct (A4 j e Hj Hje) as [E1 E2 E3 E4]. split; rewrite ?Hms, ?Htr; done.
Qed.

Lemma chain_length th p L : LinkedList.chain (LinkedList.pool_next (LinkedList.pool (cc_links th))) p L →
  (∀ l, l ∈ L → 0 ≤ l ∧ is_Some (LinkedList.pool (cc_links th) !! Z.to_nat l)) → (length L ≤ length (LinkedList.pool (cc_links th)))%nat.
Proof.
  intros Hc Hok. assert (L ⊆+ seqZ 0 (Z.of_nat (length (LinkedList.pool (cc_links th))))) as Hsub.
  { apply NoDup_submseteq; [by eapply chain_nodup|]. intros l Hl. destruct (Hok l Hl) as (H0 & Hs). apply lookup_lt_is_Some in Hs.
    apply elem_of_seqZ. lia. }
  apply submseteq_length in Hsub. rewrite length_seqZ in Hsub. lia.
Qed.

(** [n] bytes at [a] that the installation does not write. *)
Definition quiet_at th (L : list Z) (a n : Z) : Prop :=
  a + n ≤ tp_write_p (active_trace th)
  ∧ (∀ l e, l ∈ L → LinkedList.pool (cc_links th) !! Z.to_nat l = Some e → disjoint a n (LinkedList.data e) 20)
  ∧ ∀ j e, Z.of_nat j < free_exit_rec (active_trace th) → exits (active_trace th) !! j = Some e → disjoint a n (from e) 4.

Lemma quiet_part th L a n b k : quiet_at th L a n → a ≤ b → b + k ≤ a + n → quiet_at th L b k.
Proof.
  intros (Hw & Hl & He) Hab Hbn. split; [lia|]. split.
  - intros l e Hin Hp. specialize (Hl l e Hin Hp). unfold disjoint in *. lia.
  - intros j e Hj Hp. specialize (He j e Hj Hp). unfold disjoint in *. lia.
Qed.

Lemma quiet_code th L (text' : cmem) l : ∀ a,
  (∀ x i, code_of th x = Some i → quiet_at th L x (inst_size i) → text' x = Some i) →
  code_at (code_of th) a l → quiet_at th L a (code_size l) → code_at text' a l.
Proof.
  induction l as [|i l IH]; intros a Hk Hc Hq; [done|]. destruct Hc as [Hi Hc]. rewrite code_size_cons in Hq.
  pose proof (inst_size_pos i). pose proof (code_size_nonneg l).
  split; [apply Hk; [done | eapply quiet_part; [exact Hq | lia..]]|]. apply IH; [done | done | eapply quiet_part; [exact Hq | lia..]].
Qed.

Lemma quiet_restore th L (text' : cmem) a :
  (∀ x i, code_of th x = Some i → quiet_at th L x (inst_size i) → text' x = Some i) →
  restores_at (code_of th) a → quiet_at th L a 6 → restores_at text' a.
Proof.
  intros Hk (q & Hq & Hc) Hqt. exists q. split; [done|]. eapply quiet_code; [exact Hk | exact Hc|].
  assert (code_size q = 6) as ->; [|done]. rewrite Ht in Hq. vm_compute in Hq. by injection Hq as <-.
Qed.

(** Control goes on behind the context restore at [tpc] with the state restored. *)
Definition arrives_at (text : cmem) (a tpc : Z) : Prop :=
  ∀ s, ok s → pc s = a → ∃ s', reaches text s s' ∧ pc s' = tpc + 6 ∧ ok s' ∧ restored s s'.

Lemma leads_arrives text a n tpc : leads_to text a n tpc → placed a tpc → restores_at text tpc → arrives_at text a tpc.
Proof.
  intros (_ & _ & Hex) Hpl (q & Hq & Hc) s Ho Hp. eapply (exit_arrives cfg [] text a n tpc q s); try done.
Qed.

(** What the trace at exit [e] does: it is left for [to e] when the condition of
    the branch says so. *)
Definition exit_follows (ms : list dbm_code_cache_meta) (text : cmem) (e : trace_exits) : Prop :=
  ∃ m, ms !! Z.to_nat (Dbm.fragment_id e) = Some m ∧ ∀ s, ok s → pc s = from e →
    if holds (cond_of (Z.lxor (exit_condition e) 1)) (get s (rs1 m)) (get s (rs2 m))
    then ∃ s', reaches text s s' ∧ pc s' = to e + 6 ∧ ok s' ∧ restored s s'
    else goes_to text s (from e + 4).

(** The result of an installation with the links [L]. *)
Record installed th (M : gmap Z Z) (L : list Z) (spc : Z) th' : Prop := {
  installed_shape : shape cfg th';
  installed_table : at_repr (entry_address th') (<[spc := entry_addr (active_trace th)]> M);
  installed_active : active (active_trace th') = false;
  installed_id : trace_id th' = tp_id (active_trace th);
  installed_next : tp_write_p (active_trace th) ≤ trace_cache_next th' ≤ tp_write_p (active_trace th) + 20 * free_exit_rec (active_trace th);
  installed_links l e : l ∈ L → LinkedList.pool (cc_links th) !! Z.to_nat l = Some e →
    arrives_at (code_of th') (LinkedList.data e) (entry_addr (active_trace th));
  installed_exits j e : Z.of_nat j < free_exit_rec (active_trace th) → exits (active_trace th) !! j = Some e →
    exit_follows (code_cache_meta th) (code_of th') e;
  installed_kept x i : code_of th x = Some i → quiet_at th L x (inst_size i) → code_of th' x = Some i }.

(** The places of the installation. *)
Record install_room th (L : list Z) : Prop := {
  room_links l e : l ∈ L → LinkedList.pool (cc_links th) !! Z.to_nat l = Some e →
    LinkedList.data e + 20 ≤ tp_write_p (active_trace th)
    ∧ ∀ j e', Z.of_nat j < free_exit_rec (active_trace th) → exits (active_trace th) !! j = Some e' → disjoint (LinkedList.data e) 20 (from e') 4;
  room_head : restores_at (code_of th) (entry_addr (active_trace th)) ∧ quiet_at th L (entry_addr (active_trace th)) 6;
  room_exits j e : Z.of_nat j < free_exit_rec (active_trace th) → exits (active_trace th) !! j = Some e →
    restores_at (code_of th) (to e) ∧ quiet_at th L (to e) 6 }.

Lemma set_active_same b th : installable th → installable (upd_trace (set_active b) th).
Proof. intros H. by eapply installable_same. Qed.

(** After the links and the table: the exits. *)
Lemma install_finish th th2 F Ls L spc M : shape cfg th2 → links cfg th2 F Ls → free_exit_rec (active_trace th) ≤ Z.of_nat (length F) →
  installable th → active_trace th2 = set_active false (active_trace th) → code_cache_meta th2 = code_cache_meta th →
  code_cache th2 = code_cache th → at_repr (entry_address th2) (<[spc := entry_addr (active_trace th)]> M) → install_room th L →
  links_ok th (entry_addr (active_trace th)) L →
  (∀ l e, l ∈ L → LinkedList.pool (cc_links th) !! Z.to_nat l = Some e → ∃ k, leads_to (code_of th2) (LinkedList.data e) k (entry_addr (active_trace th))) →
  (∀ x i, code_of th x = Some i →
    (∀ l e, l ∈ L → LinkedList.pool (cc_links th) !! Z.to_nat l = Some e → disjoint x (inst_size i) (LinkedList.data e) 20) → code_of th2 x = Some i) →
  ∃ th', (th2 ← install_exits th2; Ok (set_trace_next (tp_id (active_trace th2)) (tp_write_p (active_trace th2)) th2)) = Ok th'
    ∧ installed th M L spc th'.
Proof.
  intros Hs Hl HF Hable Hat Hms Hcc Hr [R1 [R2 R2'] R3] Hok Hlk Hkp.
  assert (installable th2) as Hable2 
    by (apply (installable_same th); [done | done | unfold traces_addr; by rewrite Hcc | by rewrite Hat | by rewrite Hat | by rewrite Hat]).
  destruct (install_exits_ok th2 F Ls Hs Hl) as (th3 & -> & Hin); [by rewrite Hat | done|]. cbn [mbind outcome_bind].
  rewrite Hat in Hin. cbn [set_active free_exit_rec tp_write_p] in Hin. set (N := free_exit_rec (active_trace th)) in *.
  set (W := tp_write_p (active_trace th)) in *. destruct Hin as [I1 _ (c & ms & li & w & Hth3 & Hrel & Hw & _) I4 I5].
  rewrite Hat in I4, I5. cbn [set_active exits] in I4, I5. rewrite Hms in I5.
  pose proof (able_count _ Hable) as [HN0 HN]. fold N in HN0, HN. change MAX_TRACE_REC_EXITS with 21 in *.
  assert (∀ x i, code_of th x = Some i → quiet_at th L x (inst_size i) → code_of th3 x = Some i) as Hkeep.
  { intros x i Hx (Hq1 & Hq2 & Hq3). apply I4; [by apply Hkp | done |]. intros j e Hj. apply Hq3. fold N. lia. }
  eexists. split; [reflexivity|].
  pose proof (able_end _ Hable) as (He1 & He2 & _). fold W in He1, He2. change MAX_TRACE_REC_EXITS with 21 in He2.
  split; [by destruct I1; split | by rewrite Hth3 | by rewrite Hth3; cbn; rewrite Hat | by rewrite Hth3; cbn; rewrite Hat | rewrite Hth3; cbn; fold N W; lia | | |].
  - intros l e Hin Hp. destruct (Hlk l e Hin Hp) as (k & Hld). destruct (Hok l Hin) as (_ & e' & Hp' & [Hpl _]). rewrite Hp in Hp'. injection Hp' as <-.
    destruct (R1 l e Hin Hp) as (Hr1 & Hr2). fold W in Hr1. eapply leads_arrives; [|exact Hpl|].
    + eapply leads_kept; [exact Hld|]. intros x i Hx Hax Hxk. destruct Hld as (Hk & _). change (code_of (set_trace_next _ _ _)) with (code_of th3).
      apply I4; [exact Hx | lia |]. intros j e' Hj He'. specialize (Hr2 j e' ltac:(fold N; lia) He'). unfold disjoint in *. lia.
    + eapply quiet_restore; [exact Hkeep | exact R2 | exact R2'].
  - intros j e Hj He. destruct (R3 j e Hj He) as [Hre Hqe]. pose proof (able_exits _ Hable j e Hj He) as [E1 [E2 E3] E4 E5].
    fold W in E3, E4. eapply stubbed_goes; [apply (I5 j); [lia | exact He] | | done | done | done | |].
    + eapply quiet_restore; [exact Hkeep | exact Hre | exact Hqe].
    + rewrite Hth3. cbn. lia.
    + intros w' Hw1 Hw2. apply E4. change MAX_TRACE_REC_EXITS with 21. rewrite Hth3 in Hw2. cbn in Hw2. lia.
  - exact Hkeep.
Qed.


(** A fragment that starts 184 bytes or more behind the entry of the trace is
    always dropped: the limit of 3000 bytes is cut to a byte. *)
Theorem scan_trace_limit_wrong th address type len id th' : scan_trace th address type = Ok (len, id, th') →
  184 ≤ tp_write_p (active_trace th) - entry_addr (active_trace th') → len = 0.
Proof.
  unfold scan_trace. intros H Hlim. apply bind_ok_inv in H as ([i th1] & _ & H). apply bind_ok_inv in H as (th2 & _ & H).
  apply bind_ok_inv in H as (r & _ & H). destruct (_ <=? _) eqn:Hle in H; [by injection H as <-|]. injection H as _ _ <-.
  apply Z.leb_gt in Hle. change (u8 (WHOLE_TRACE - TRACE_PADDING)) with 184 in Hle. cbn in Hlim.
  pose proof (Z.mod_pos_bound ((trace_fragment_count (fst r) + 1) * TRACE_EXIT) (2 ^ 8) ltac:(lia)) as Hb. unfold u8 in Hle. lia.
Qed.
End trace.

(** ** An instance

    A trace at 6400 with one exit, at 6420, to block 3; its head, block 2, was
    linked from block 3 and from another trace. *)

#[local] Existing Instance table_and_contents.
#[local] Instance trace_table : AddressTable CodeCacheHash.hash_table (TABLE_SIZE link_config) := CodeCacheHash_table riscv_compressed 3 ltac:(lia).

Definition jal_meta : dbm_code_cache_meta := set_exit_branch_type jal_riscv empty_meta.
Definition head_meta : dbm_code_cache_meta := set_linked_from (Some 0) (set_source_addr 0x1000 jal_meta).

Definition trace_thread : dbm_thread (CodeCacheHash.hash_table * contents) :=
  MkThread 6 false 4096 ([empty_meta; empty_meta; head_meta; jal_meta] ++ replicate 5 empty_meta ++ [branch_meta] ++ replicate 2 empty_meta)
    (CodeCacheHash.MkTable 17 0 0 (replicate 17 (HashEntry 0 0)),
     MkContents (place 6400 restore (place 4864 restore (λ _, None))) (λ _, None) (1, 1, []))
    (replicate 8 0) 6400 8 1 (MkTrace 10 2 6500 6400 true 1 (TraceExit 6420 4864 9 1 :: replicate 20 (TraceExit 0 0 0 0)))
    (LinkedList.Ll (Some 2) 4 [LinkedList.LlEntry (Some 1) 4914; LinkedList.LlEntry None 6160;
                               LinkedList.LlEntry (Some 3) 0; LinkedList.LlEntry None 0]).

Lemma trace_shape : shape link_config trace_thread.
Proof. constructor; simpl; try done; try lia. by exists 16. Qed.

Lemma trace_links : links link_config trace_thread [2; 3] (<[2%nat := [0; 1]]> (replicate 8 [])).
Proof.
  constructor.
  - unfold LinkedList.free_chain. simpl. repeat (split; [done|]; eexists; split; [reflexivity|]). done.
  - vm_compute. repeat econstructor.
  - apply (bool_decide_unpack _). vm_compute. exact I.
Qed.

Lemma trace_repr : at_repr (entry_address trace_thread) ∅.
Proof.
  split_and!; [|apply (represents_replicate 17)|done]. constructor; try done; [by exists 3|].
  intros i e Hi He. apply lookup_replicate in Hi as [-> _]. simpl in He. lia.
Qed.

(** The only exit of the trace, and its two links. *)
Lemma trace_exit_only j e : Z.of_nat j < 1 → exits (active_trace trace_thread) !! j = Some e → e = TraceExit 6420 4864 9 1.
Proof. intros Hj. assert (j = 0%nat) as -> by lia. by intros [= <-]. Qed.

Lemma trace_link_only l e : l ∈ [0; 1] → LinkedList.pool (cc_links trace_thread) !! Z.to_nat l = Some e →
  l = 0 ∧ LinkedList.data e = 4914 ∨ l = 1 ∧ LinkedList.data e = 6160.
Proof.
  intros Hl. rewrite !elem_of_cons in Hl. destruct Hl as [->|[->|Hl]]; [intros [= <-]; by left | intros [= <-]; by right |].
  by apply not_elem_of_nil in Hl.
Qed.

Lemma trace_installable : installable link_config trace_thread.
Proof.
  split; [by split | by split_and! | by vm_compute | |].
  - intros j e Hj He. apply trace_exit_only in He as ->; [|done]. split; [split; [done | by eexists] | by split | | split; vm_compute; discriminate]. cbn [to].
    change (tp_write_p (active_trace trace_thread)) with 6500. change MAX_TRACE_REC_EXITS with 21.
    intros w Hw. unfold placed. split_and!; (done || lia).
  - intros j k e e' Hj Hk. cbn in Hj. lia.
Qed.

Lemma trace_room : install_room link_config trace_thread [0; 1].
Proof.
  assert (∀ a, a = 6400 ∨ a = 4864 → quiet_at trace_thread [0; 1] a 6) as Hq.
  { intros a Ha. split; [cbn; lia|]. split.
    - intros l e Hl He. destruct (trace_link_only l e Hl He) as [[_ ->]|[_ ->]]; unfold disjoint; lia.
    - intros j e Hj He. apply trace_exit_only in He as ->; [|done]. unfold disjoint. cbn. lia. }
  split.
  - intros l e Hl He. split; [destruct (trace_link_only l e Hl He) as [[_ ->]|[_ ->]]; cbn; lia|].
    intros j e' Hj He'. apply trace_exit_only in He' as ->; [|done]. unfold disjoint. cbn [from].
    destruct (trace_link_only l e Hl He) as [[_ ->]|[_ ->]]; lia.
  - split; [|apply Hq; by left]. exists restore. by repeat split.
  - intros j e Hj He. apply trace_exit_only in He as ->; [|done]. split; [|apply Hq; by right]. exists restore. by repeat split.
Qed.

Notation trace_install := (install_trace link_config rv64g 2048 3000 3100 3200 demo_decode demo_source 20 initial [] trace_thread).

End RiscvTrace.
