(* ===== verification/LoadStoreRiscv.v ===== *)
(** * Loads and stores of RISC-V in the plugin API (api/load_store.c, api/helpers.c)

    Which instructions access memory, the address they access and the number of
    bytes. A plugin asks for the address in a register: [_riscv_calc_ld_st_addr]
    emits code for it, which runs on the machine of RiscvAsm. *)
From S2P Require Import Prelude RegList RiscvImm RiscvAsm Pie.
Import RiscvImm RiscvAsm Pie.
#[local] Open Scope Z_scope.

Module LoadStoreRiscv.

(** The values of [riscv_instruction] that the API tells apart, and FLH and FSH,
    which it does not. *)
Inductive riscv_instruction :=
  | RISCV_C_FLD | RISCV_C_LW | RISCV_C_LD | RISCV_C_FSD | RISCV_C_SW | RISCV_C_SD
  | RISCV_C_FLDSP | RISCV_C_LWSP | RISCV_C_FLWSP | RISCV_C_LDSP | RISCV_C_FSDSP | RISCV_C_SWSP | RISCV_C_SDSP
  | RISCV_LB | RISCV_LH | RISCV_LW | RISCV_LBU | RISCV_LHU | RISCV_LWU | RISCV_LD
  | RISCV_SB | RISCV_SH | RISCV_SW | RISCV_SD
  | RISCV_LR_W | RISCV_LR_D | RISCV_SC_W | RISCV_SC_D
  | RISCV_AMOSWAP_W | RISCV_AMOADD_W | RISCV_AMOXOR_W | RISCV_AMOAND_W | RISCV_AMOOR_W
  | RISCV_AMOMIN_W | RISCV_AMOMAX_W | RISCV_AMOMINU_W | RISCV_AMOMAXU_W
  | RISCV_AMOSWAP_D | RISCV_AMOADD_D | RISCV_AMOXOR_D | RISCV_AMOAND_D | RISCV_AMOOR_D
  | RISCV_AMOMIN_D | RISCV_AMOMAX_D | RISCV_AMOMINU_D | RISCV_AMOMAXU_D
  | RISCV_FLW | RISCV_FLD | RISCV_FSW | RISCV_FSD | RISCV_FLH | RISCV_FSH
  | RISCV_V_LOAD_B | RISCV_V_LOAD_H | RISCV_V_LOAD_W | RISCV_V_LOAD_D
  | RISCV_V_STORE_B | RISCV_V_STORE_H | RISCV_V_STORE_W | RISCV_V_STORE_D
  | RISCV_V_AMO_B | RISCV_V_AMO_H | RISCV_V_AMO_W | RISCV_V_AMO_D
  | RISCV_OTHER (n : Z).

#[global] Instance riscv_instruction_eq_dec : EqDecision riscv_instruction.
Proof. solve_decision. Defined.

Notation ctx := (code_ctx riscv_instruction).

(** The encodings of pie/riscv.txt. *)
Definition riscv_txt (i : riscv_instruction) : string :=
  (match i with
  | RISCV_C_FLD => "001aaabb bccddd00"
  | RISCV_C_LW => "010aaabb bccddd00"
  | RISCV_C_LD => "011aaabb bccddd00"
  | RISCV_C_FSD => "101aaabb bccddd00"
  | RISCV_C_SW => "110aaabb bccddd00"
  | RISCV_C_SD => "111aaabb bccddd00"
  | RISCV_C_FLDSP => "001abbbb bccccc10"
  | RISCV_C_LWSP => "010abbbb bccccc10"
  | RISCV_C_FLWSP => "011abbbb bccccc10"
  | RISCV_C_LDSP => "011abbbb bccccc10"
  | RISCV_C_FSDSP => "101aaaaa abbbbb10"
  | RISCV_C_SWSP => "110aaaaa abbbbb10"
  | RISCV_C_SDSP => "111aaaaa abbbbb10"
  | RISCV_LB => "aaaaaaaa aaaabbbb b000cccc c0000011"
  | RISCV_LH => "aaaaaaaa aaaabbbb b001cccc c0000011"
  | RISCV_LW => "aaaaaaaa aaaabbbb b010cccc c0000011"
  | RISCV_LBU => "aaaaaaaa aaaabbbb b100cccc c0000011"
  | RISCV_LHU => "aaaaaaaa aaaabbbb b101cccc c0000011"
  | RISCV_LWU => "aaaaaaaa aaaabbbb b110cccc c0000011"
  | RISCV_LD => "aaaaaaaa aaaabbbb b011cccc c0000011"
  | RISCV_SB => "aaaaaaab bbbbcccc c000dddd d0100011"
  | RISCV_SH => "aaaaaaab bbbbcccc c001dddd d0100011"
  | RISCV_SW => "aaaaaaab bbbbcccc c010dddd d0100011"
  | RISCV_SD => "aaaaaaab bbbbcccc c011dddd d0100011"
  | RISCV_LR_W => "00010ab0 0000cccc c010dddd d0101111"
  | RISCV_LR_D => "00010ab0 0000cccc c011dddd d0101111"
  | RISCV_SC_W => "00011abc ccccdddd d010eeee e0101111"
  | RISCV_SC_D => "00011abc ccccdddd d011eeee e0101111"
  | RISCV_AMOSWAP_W => "00001abc ccccdddd d010eeee e0101111"
  | RISCV_AMOADD_W => "00000abc ccccdddd d010eeee e0101111"
  | RISCV_AMOXOR_W => "00100abc ccccdddd d010eeee e0101111"
  | RISCV_AMOAND_W => "01100abc ccccdddd d010eeee e0101111"
  | RISCV_AMOOR_W => "01000abc ccccdddd d010eeee e0101111"
  | RISCV_AMOMIN_W => "10000abc ccccdddd d010eeee e0101111"
  | RISCV_AMOMAX_W => "10100abc ccccdddd d010eeee e0101111"
  | RISCV_AMOMINU_W => "11000abc ccccdddd d010eeee e0101111"
  | RISCV_AMOMAXU_W => "11100abc ccccdddd d010eeee e0101111"
  | RISCV_AMOSWAP_D => "00001abc ccccdddd d011eeee e0101111"
  | RISCV_AMOADD_D => "00000abc ccccdddd d011eeee e0101111"
  | RISCV_AMOXOR_D => "00100abc ccccdddd d011eeee e0101111"
  | RISCV_AMOAND_D => "01100abc ccccdddd d011eeee e0101111"
  | RISCV_AMOOR_D => "01000abc ccccdddd d011eeee e0101111"
  | RISCV_AMOMIN_D => "10000abc ccccdddd d011eeee e0101111"
  | RISCV_AMOMAX_D => "10100abc ccccdddd d011eeee e0101111"
  | RISCV_AMOMINU_D => "11000abc ccccdddd d011eeee e0101111"
  | RISCV_AMOMAXU_D => "11100abc ccccdddd d011eeee e0101111"
  | RISCV_FLW => "aaaaaaaa aaaabbbb b010cccc c0000111"
  | RISCV_FLD => "aaaaaaaa aaaabbbb b011cccc c0000111"
  | RISCV_FSW => "aaaaaaab bbbbcccc c010dddd d0100111"
  | RISCV_FSD => "aaaaaaab bbbbcccc c011dddd d0100111"
  | RISCV_FLH => "aaaaaaaa aaaabbbb b001cccc c0000111"
  | RISCV_FSH => "aaaaaaab bbbbcccc c001dddd d0100111"
  | RISCV_V_LOAD_B => "aaaaaaaa aaaabbbb b000cccc c0000111"
  | RISCV_V_LOAD_H => "aaaaaaaa aaaabbbb b101cccc c0000111"
  | RISCV_V_LOAD_W => "aaaaaaaa aaaabbbb b110cccc c0000111"
  | RISCV_V_LOAD_D => "aaaaaaaa aaaabbbb b111cccc c0000111"
  | RISCV_V_STORE_B => "aaaaaaaa aaaabbbb b000cccc c0100111"
  | RISCV_V_STORE_H => "aaaaaaaa aaaabbbb b101cccc c0100111"
  | RISCV_V_STORE_W => "aaaaaaaa aaaabbbb b110cccc c0100111"
  | RISCV_V_STORE_D => "aaaaaaaa aaaabbbb b111cccc c0100111"
  | RISCV_V_AMO_B => "aaaaaaaa aaaabbbb b000cccc c0101111"
  | RISCV_V_AMO_H => "aaaaaaaa aaaabbbb b101cccc c0101111"
  | RISCV_V_AMO_W => "aaaaaaaa aaaabbbb b110cccc c0101111"
  | RISCV_V_AMO_D => "aaaaaaaa aaaabbbb b111cccc c0101111"
  | RISCV_OTHER _ => ""
  end)%string.

(** Field [l] of the instruction at [read_address]. *)
Definition cfield (c : ctx) (i : riscv_instruction) (l : ascii) : Z := field (riscv_txt i) l (word16 (code c)).
Definition wfield (c : ctx) (i : riscv_instruction) (l : ascii) : Z := field (riscv_txt i) l (word_riscv (code c)).

(** ** Classification *)

Definition _riscv_is_load_or_store (c : ctx) : bool * bool :=
  match code_inst c with
  | Some (RISCV_C_FSD | RISCV_C_SW | RISCV_C_SD | RISCV_C_FSDSP | RISCV_C_SWSP | RISCV_C_SDSP
    | RISCV_SB | RISCV_SH | RISCV_SW | RISCV_SD | RISCV_SC_W | RISCV_SC_D | RISCV_FSW | RISCV_FSD
    | RISCV_V_STORE_B | RISCV_V_STORE_H | RISCV_V_STORE_W | RISCV_V_STORE_D) => (false, true)
  | Some (RISCV_C_FLD | RISCV_C_LW | RISCV_C_LD | RISCV_C_FLDSP | RISCV_C_FLWSP | RISCV_C_LWSP | RISCV_C_LDSP
    | RISCV_LB | RISCV_LH | RISCV_LW | RISCV_LD | RISCV_LR_W | RISCV_LR_D | RISCV_FLW | RISCV_FLD
    | RISCV_LBU | RISCV_LHU | RISCV_LWU
    | RISCV_V_LOAD_B | RISCV_V_LOAD_H | RISCV_V_LOAD_W | RISCV_V_LOAD_D) => (true, false)
  | Some (RISCV_AMOSWAP_W | RISCV_AMOADD_W | RISCV_AMOXOR_W | RISCV_AMOAND_W | RISCV_AMOOR_W
    | RISCV_AMOMIN_W | RISCV_AMOMAX_W | RISCV_AMOMINU_W | RISCV_AMOMAXU_W
    | RISCV_AMOSWAP_D | RISCV_AMOADD_D | RISCV_AMOXOR_D | RISCV_AMOAND_D | RISCV_AMOOR_D
    | RISCV_AMOMIN_D | RISCV_AMOMAX_D | RISCV_AMOMINU_D | RISCV_AMOMAXU_D
    | RISCV_V_AMO_B | RISCV_V_AMO_H | RISCV_V_AMO_W | RISCV_V_AMO_D) => (true, true)
  | _ => (false, false)
  end.

Definition mambo_is_load (c : ctx) : bool :=
  match code_inst c with None => false | _ => fst (_riscv_is_load_or_store c) end.
Definition mambo_is_store (c : ctx) : bool :=
  match code_inst c with None => false | _ => snd (_riscv_is_load_or_store c) end.
Definition mambo_is_load_or_store (c : ctx) : bool :=
  let r := _riscv_is_load_or_store c in fst r || snd r.

(** ** Emission (api/helpers.c)

    An emitter returns the code it appends, after its result if it has one. *)

Definition reg_invalid : Z := 32.

Definition emit_mov (rd rn : Z) : list inst := [Addi rd rn 0].

Definition emit_add_sub_i (rd rn offset : Z) : Z * list inst :=
  if offset =? 0 then (0, if negb (rd =? rn) then emit_mov rd rn else [])
  else if (0x7FF <? offset) || (offset <? - 0xFFF) then (-1, [])
  else (0, [Addi rd rn offset]).

(** On RISC-V the case of an index register emits nothing for the sum. *)
Definition _generate_addr (c : ctx) (reg rn rm offset : Z) : outcome (list inst) :=
  let apply_offset := if rn =? sp then s32 (plugin_pushed_reg_count c * 8) else 0 in
  if (rm <=? - reg_invalid) || (reg_invalid <=? rm) then
    Ok (snd (emit_add_sub_i reg rn (offset + apply_offset)))
  else if negb (apply_offset =? 0) then
    c_assert ((apply_offset <=? 0xFFF) && (0 <? apply_offset));;
    Ok (snd (emit_add_sub_i reg reg apply_offset))
  else Ok [].

(** ** Addresses

    The base register and the offset that the cases of [_riscv_calc_ld_st_addr]
    pass to [_generate_addr], by the groups of the switch. *)

Definition c_addr (c : ctx) (i : riscv_instruction) : option (Z * Z) :=
  let rs1 := cfield c i "b"%char + s0 in
  let uimmhi := cfield c i "a"%char in
  let uimmlo := cfield c i "c"%char in
  match i with
  | RISCV_C_SW | RISCV_C_LW => Some (rs1, __riscv_c_word_offset uimmhi uimmlo)
  | RISCV_C_FSD | RISCV_C_FLD | RISCV_C_SD | RISCV_C_LD => Some (rs1, __riscv_c_doubleword_offset uimmhi uimmlo)
  | _ => None
  end.

Definition c_sp_addr (c : ctx) (i : riscv_instruction) : option (Z * Z) :=
  match i with
  | RISCV_C_LWSP | RISCV_C_FLWSP => Some (sp, __riscv_c_spword_load_offset (cfield c i "a"%char) (cfield c i "c"%char))
  | RISCV_C_SWSP => Some (sp, __riscv_c_spword_store_offset (cfield c i "a"%char))
  | RISCV_C_LDSP | RISCV_C_FLDSP => Some (sp, __riscv_c_spdoubleword_load_offset (cfield c i "a"%char) (cfield c i "c"%char))
  | RISCV_C_SDSP | RISCV_C_FSDSP => Some (sp, __riscv_c_spdoubleword_store_offset (cfield c i "a"%char))
  | _ => None
  end.

(** [int offset] of an unsigned result. *)
Definition store_addr (c : ctx) (i : riscv_instruction) : option (Z * Z) :=
  match i with
  | RISCV_SB | RISCV_SH | RISCV_SW | RISCV_SD | RISCV_FSW | RISCV_FSD =>
      Some (wfield c i "c"%char, s32 (__riscv_store_offset (wfield c i "a"%char) (wfield c i "d"%char)))
  | RISCV_SC_W | RISCV_SC_D => Some (wfield c i "d"%char, 0)
  | _ => None
  end.

Definition vector_addr (c : ctx) (i : riscv_instruction) : option (Z * Z) :=
  match i with
  | RISCV_V_LOAD_B | RISCV_V_LOAD_H | RISCV_V_LOAD_W | RISCV_V_LOAD_D
  | RISCV_V_STORE_B | RISCV_V_STORE_H | RISCV_V_STORE_W | RISCV_V_STORE_D
  | RISCV_V_AMO_B | RISCV_V_AMO_H | RISCV_V_AMO_W | RISCV_V_AMO_D => Some (wfield c i "b"%char, 0)
  | _ => None
  end.

Definition load_addr (c : ctx) (i : riscv_instruction) : option (Z * Z) :=
  match i with
  | RISCV_LB | RISCV_LH | RISCV_LW | RISCV_LD | RISCV_FLW | RISCV_FLD | RISCV_LBU | RISCV_LHU | RISCV_LWU =>
      Some (wfield c i "b"%char, s32 (__riscv_load_offset (wfield c i "a"%char)))
  | RISCV_LR_W | RISCV_LR_D => Some (wfield c i "c"%char, 0)
  | _ => None
  end.

Definition amo_w_addr (c : ctx) (i : riscv_instruction) : option (Z * Z) :=
  match i with
  | RISCV_AMOSWAP_W | RISCV_AMOADD_W | RISCV_AMOXOR_W | RISCV_AMOAND_W | RISCV_AMOOR_W
  | RISCV_AMOMIN_W | RISCV_AMOMAX_W | RISCV_AMOMINU_W | RISCV_AMOMAXU_W => Some (wfield c i "d"%char, 0)
  | _ => None
  end.

Definition amo_d_addr (c : ctx) (i : riscv_instruction) : option (Z * Z) :=
  match i with
  | RISCV_AMOSWAP_D | RISCV_AMOADD_D | RISCV_AMOXOR_D | RISCV_AMOAND_D | RISCV_AMOOR_D
  | RISCV_AMOMIN_D | RISCV_AMOMAX_D | RISCV_AMOMINU_D | RISCV_AMOMAXU_D => Some (wfield c i "d"%char, 0)
  | _ => None
  end.

Definition access_addr (c : ctx) (i : riscv_instruction) : option (Z * Z) :=
  head (omap (λ f, f c i) [c_addr; c_sp_addr; store_addr; vector_addr; load_addr; amo_w_addr; amo_d_addr]).

Definition _riscv_calc_ld_st_addr (c : ctx) (reg : Z) : outcome (Z * list inst) :=
  match code_inst c ≫= access_addr c with
  | Some (rn, offset) => l ← _generate_addr c reg rn reg_invalid offset; Ok (0, l)
  | None => Ok (-1, [])
  end.

Definition mambo_calc_ld_st_addr (c : ctx) (reg : Z) : outcome (Z * list inst) := _riscv_calc_ld_st_addr c reg.

(** ** Sizes *)

Definition _riscv_get_ld_st_size (c : ctx) : Z :=
  match code_inst c with
  | Some (RISCV_SB | RISCV_LB | RISCV_LBU) => 1
  | Some (RISCV_SH | RISCV_LH | RISCV_LHU) => 2
  | Some (RISCV_AMOSWAP_W | RISCV_AMOADD_W | RISCV_AMOXOR_W | RISCV_AMOAND_W | RISCV_AMOOR_W
    | RISCV_AMOMIN_W | RISCV_AMOMAX_W | RISCV_AMOMINU_W | RISCV_AMOMAXU_W
    | RISCV_LWU | RISCV_FLW | RISCV_LR_W | RISCV_LW | RISCV_FSW | RISCV_SC_W
    | RISCV_C_FLWSP | RISCV_C_LWSP | RISCV_C_LW | RISCV_SW | RISCV_C_SWSP | RISCV_C_SW) => 4
  | Some (RISCV_AMOSWAP_D | RISCV_AMOADD_D | RISCV_AMOXOR_D | RISCV_AMOAND_D | RISCV_AMOOR_D
    | RISCV_AMOMIN_D | RISCV_AMOMAX_D | RISCV_AMOMINU_D | RISCV_AMOMAXU_D
    | RISCV_LD | RISCV_LR_D | RISCV_FLD | RISCV_SD | RISCV_SC_D | RISCV_FSD
    | RISCV_C_FLD | RISCV_C_LD | RISCV_C_FLDSP | RISCV_C_LDSP
    | RISCV_C_FSD | RISCV_C_SD | RISCV_C_FSDSP | RISCV_C_SDSP) => 8
  | _ => -1
  end.

Definition mambo_get_ld_st_size (c : ctx) : Z := _riscv_get_ld_st_size c.

Definition mambo_is_rvv_mem (c : ctx) : bool :=
  match code_inst c with
  | Some (RISCV_V_LOAD_B | RISCV_V_LOAD_H | RISCV_V_LOAD_W | RISCV_V_LOAD_D
    | RISCV_V_STORE_B | RISCV_V_STORE_H | RISCV_V_STORE_W | RISCV_V_STORE_D
    | RISCV_V_AMO_B | RISCV_V_AMO_H | RISCV_V_AMO_W | RISCV_V_AMO_D) => true
  | _ => false
  end.

(** ** The manual

    The base register and the offset of a memory instruction, by the bit
    positions that the RISC-V manual gives, and the size of the access. *)

Definition rv_access (c : ctx) (i : riscv_instruction) : option (Z * Z) :=
  let h := word16 (code c) in
  let w := word_riscv (code c) in
  match i with
  | RISCV_C_LW | RISCV_C_SW => Some (8 + slice 7 3 h, slice 10 3 h * 8 + slice 6 1 h * 4 + slice 5 1 h * 64)
  | RISCV_C_LD | RISCV_C_SD | RISCV_C_FLD | RISCV_C_FSD => Some (8 + slice 7 3 h, slice 10 3 h * 8 + slice 5 2 h * 64)
  | RISCV_C_LWSP | RISCV_C_FLWSP => Some (2, slice 12 1 h * 32 + slice 4 3 h * 4 + slice 2 2 h * 64)
  | RISCV_C_LDSP | RISCV_C_FLDSP => Some (2, slice 12 1 h * 32 + slice 5 2 h * 8 + slice 2 3 h * 64)
  | RISCV_C_SWSP => Some (2, slice 9 4 h * 4 + slice 7 2 h * 64)
  | RISCV_C_SDSP | RISCV_C_FSDSP => Some (2, slice 10 3 h * 8 + slice 7 3 h * 64)
  | RISCV_LB | RISCV_LH | RISCV_LW | RISCV_LD | RISCV_LBU | RISCV_LHU | RISCV_LWU | RISCV_FLH | RISCV_FLW | RISCV_FLD =>
      Some (slice 15 5 w, signed 12 (slice 20 12 w))
  | RISCV_SB | RISCV_SH | RISCV_SW | RISCV_SD | RISCV_FSH | RISCV_FSW | RISCV_FSD =>
      Some (slice 15 5 w, signed 12 (slice 25 7 w * 32 + slice 7 5 w))
  | RISCV_OTHER _ => None
  | _ => Some (slice 15 5 w, 0)
  end.

(** C.SWSP, C.SDSP and C.FSDSP have bit 5 of the offset in bit 12. *)
Definition sp_store (i : riscv_instruction) : bool :=
  match i with RISCV_C_SWSP | RISCV_C_SDSP | RISCV_C_FSDSP => true | _ => false end.
Definition lost_bit (c : ctx) (i : riscv_instruction) : Z :=
  if sp_store i then slice 12 1 (word16 (code c)) * 32 else 0.

(** ** The decoded addresses *)

Lemma forall2_range lo n lo' n' (f : Z → Z → bool) x y :
  forall_range lo n (λ x, forall_range lo' n' (f x)) = true → lo ≤ x < lo + n → lo' ≤ y < lo' + n' → f x y = true.
Proof. intros Hf Hx Hy. eapply forall_range_spec; [|done]. by apply (forall_range_spec _ _ _ _ Hf). Qed.

Ltac by_range2 x y lo n lo' n' :=
  apply Z.eqb_eq;
  match goal with |- ?b = true =>
    match eval pattern x, y in b with
    | ?f _ _ => apply (forall2_range lo n lo' n' f x y); [vm_compute; reflexivity | lia..]
    end
  end.
Ltac by_range x lo n :=
  apply Z.eqb_eq;
  match goal with |- ?b = true =>
    match eval pattern x in b with
    | ?f _ => apply (forall_range_spec lo n f x); [vm_compute; reflexivity | lia]
    end
  end.

Lemma c_word_offset_spec hi lo : 0 ≤ hi < 8 → 0 ≤ lo < 4 →
  __riscv_c_word_offset hi lo = hi * 8 + lo / 2 * 4 + lo mod 2 * 64.
Proof. intros. by_range2 hi lo 0 8 0 4. Qed.

Lemma c_doubleword_offset_spec hi lo : 0 ≤ hi < 8 → 0 ≤ lo < 4 →
  __riscv_c_doubleword_offset hi lo = hi * 8 + lo * 64.
Proof. intros. by_range2 hi lo 0 8 0 4. Qed.

Lemma c_spword_load_offset_spec hi lo : 0 ≤ hi < 2 → 0 ≤ lo < 32 →
  __riscv_c_spword_load_offset hi lo = hi * 32 + lo / 4 * 4 + lo mod 4 * 64.
Proof. intros. by_range2 hi lo 0 2 0 32. Qed.

Lemma c_spdoubleword_load_offset_spec hi lo : 0 ≤ hi < 2 → 0 ≤ lo < 32 →
  __riscv_c_spdoubleword_load_offset hi lo = hi * 32 + lo / 8 * 8 + lo mod 8 * 64.
Proof. intros. by_range2 hi lo 0 2 0 32. Qed.

Lemma c_spword_store_offset_spec u : 0 ≤ u < 64 →
  __riscv_c_spword_store_offset u = u / 4 * 4 + u mod 4 * 64 - u / 32 * 32.
Proof. intros. by_range u 0 64. Qed.

Lemma c_spdoubleword_store_offset_spec u : 0 ≤ u < 64 →
  __riscv_c_spdoubleword_store_offset u = u / 8 * 8 + u mod 8 * 64 - u / 32 * 32.
Proof. intros. by_range u 0 64. Qed.

Lemma store_offset_spec hi lo : 0 ≤ hi < 128 → 0 ≤ lo < 32 →
  s32 (__riscv_store_offset hi lo) = signed 12 (hi * 32 + lo).
Proof. intros. by_range2 hi lo 0 128 0 32. Qed.

Lemma load_offset_spec imm : 0 ≤ imm < 4096 → s32 (__riscv_load_offset imm) = signed 12 imm.
Proof. intros. by_range imm 0 4096. Qed.

(** The offsets of the decoders on the fields of a word. *)
Ltac in_slice :=
  match goal with |- 0 ≤ slice ?p ?w ?x < _ => exact (slice_range p w x ltac:(lia)) end.

Lemma c_word_slices x :
  __riscv_c_word_offset (slice 10 3 x) (slice 5 2 x) = slice 10 3 x * 8 + slice 6 1 x * 4 + slice 5 1 x * 64.
Proof.
  rewrite c_word_offset_spec by in_slice.
  destruct (slice_parts 5 1 1 x) as [E1 E2]; [done..|]. change (2 ^ 1) with 2 in *. change (1 + 1) with 2 in *.
  by rewrite E1, E2.
Qed.

Lemma c_doubleword_slices x :
  __riscv_c_doubleword_offset (slice 10 3 x) (slice 5 2 x) = slice 10 3 x * 8 + slice 5 2 x * 64.
Proof. by rewrite c_doubleword_offset_spec by in_slice. Qed.

Lemma c_spword_load_slices x :
  __riscv_c_spword_load_offset (slice 12 1 x) (slice 2 5 x)
  = slice 12 1 x * 32 + slice 4 3 x * 4 + slice 2 2 x * 64.
Proof.
  rewrite c_spword_load_offset_spec by in_slice.
  destruct (slice_parts 2 2 3 x) as [E1 E2]; [done..|]. change (2 ^ 2) with 4 in *. change (2 + 3) with 5 in *.
  by rewrite E1, E2.
Qed.

Lemma c_spdoubleword_load_slices x :
  __riscv_c_spdoubleword_load_offset (slice 12 1 x) (slice 2 5 x)
  = slice 12 1 x * 32 + slice 5 2 x * 8 + slice 2 3 x * 64.
Proof.
  rewrite c_spdoubleword_load_offset_spec by in_slice.
  destruct (slice_parts 2 3 2 x) as [E1 E2]; [done..|]. change (2 ^ 3) with 8 in *. change (3 + 2) with 5 in *.
  by rewrite E1, E2.
Qed.

Lemma c_spword_store_slices x :
  __riscv_c_spword_store_offset (slice 7 6 x) = slice 9 4 x * 4 + slice 7 2 x * 64 - slice 12 1 x * 32.
Proof.
  rewrite c_spword_store_offset_spec by in_slice.
  destruct (slice_parts 7 2 4 x) as [E1 E2]; [done..|]. destruct (slice_parts 7 5 1 x) as [E3 _]; [done..|].
  change (2 ^ 2) with 4 in *. change (2 ^ 5) with 32 in *. change (2 + 4) with 6 in *. change (5 + 1) with 6 in *.
  by rewrite E1, E2, E3.
Qed.

Lemma c_spdoubleword_store_slices x :
  __riscv_c_spdoubleword_store_offset (slice 7 6 x) = slice 10 3 x * 8 + slice 7 3 x * 64 - slice 12 1 x * 32.
Proof.
  rewrite c_spdoubleword_store_offset_spec by in_slice.
  destruct (slice_parts 7 3 3 x) as [E1 E2]; [done..|]. destruct (slice_parts 7 5 1 x) as [E3 _]; [done..|].
  change (2 ^ 3) with 8 in *. change (2 ^ 5) with 32 in *. change (3 + 3) with 6 in *. change (5 + 1) with 6 in *.
  by rewrite E1, E2, E3.
Qed.

Lemma store_slices x :
  s32 (__riscv_store_offset (slice 25 7 x) (slice 7 5 x)) = signed 12 (slice 25 7 x * 32 + slice 7 5 x).
Proof. by rewrite store_offset_spec by in_slice. Qed.

Lemma load_slices x : s32 (__riscv_load_offset (slice 20 12 x)) = signed 12 (slice 20 12 x).
Proof. by rewrite load_offset_spec by in_slice. Qed.

#[local] Hint Rewrite c_word_slices c_doubleword_slices c_spword_load_slices c_spdoubleword_load_slices
  c_spword_store_slices c_spdoubleword_store_slices store_slices load_slices : rv_offsets.

(** Full unfolding of the decoders of instruction [i]. *)
Ltac decode :=
  unfold access_addr, rv_access, c_addr, c_sp_addr, store_addr, vector_addr, load_addr, amo_w_addr, amo_d_addr,
    cfield, wfield, lost_bit, sp_store in *;
  cbn [head omap list_omap riscv_txt from_option] in *; fields.

Lemma access_addr_spec c i base off :
  rv_access c i = Some (base, off) → i ≠ RISCV_FLH → i ≠ RISCV_FSH →
  access_addr c i = Some (base, off - lost_bit c i).
Proof.
  intros Hi H1 H2. destruct i; try done; decode; injection Hi as <- <-;
    autorewrite with rv_offsets; rewrite ?Z.sub_0_r; try done; by rewrite Z.add_comm.
Qed.

(** ** The emitted code *)

(** The value of a register before the plugin pushed registers. *)
Definition app_reg (c : ctx) (s : machine) (r : Z) : Z :=
  get s r + (if r =? sp then 8 * plugin_pushed_reg_count c else 0).

Lemma add_sub_i_small rd rn offset s :
  rd ≠ 0 → -2048 ≤ offset ≤ 2047 → ok s →
  let s' := run (snd (emit_add_sub_i rd rn offset)) s in
  get s' rd = u64 (get s rn + offset) ∧ mem s' = mem s ∧ ∀ r, r ≠ rd → get s' r = get s r.
Proof.
  intros Hrd Ho Hs. unfold emit_add_sub_i. destruct (Z.eqb_spec offset 0) as [->|Ho0]; cbn [snd].
  - destruct (Z.eqb_spec rd rn) as [->|Hne]; cbn [negb emit_mov run foldl exec].
    + rewrite Z.add_0_r, u64_small by apply Hs. done.
    + rewrite get_next, get_set_eq by done. split_and!; [done..|].
      intros r Hr. by rewrite get_next, get_set_ne.
  - replace ((0x7FF <? offset) || (offset <? - 0xFFF)) with false by lia. cbn [snd run foldl exec].
    rewrite get_next, get_set_eq by done. unfold imm12. rewrite signed_small by lia. split_and!; [done..|].
    intros r Hr. by rewrite get_next, get_set_ne.
Qed.

Lemma generate_addr_imm c reg rn offset :
  - 2 ^ 20 ≤ plugin_pushed_reg_count c ≤ 2 ^ 20 →
  _generate_addr c reg rn reg_invalid offset
  = Ok (snd (emit_add_sub_i reg rn (offset + (if rn =? sp then 8 * plugin_pushed_reg_count c else 0)))).
Proof.
  intros Hc. unfold _generate_addr. change ((reg_invalid <=? - reg_invalid) || (reg_invalid <=? reg_invalid)) with true.
  destruct (rn =? sp); [|done]. rewrite s32_small by lia. by rewrite Z.mul_comm.
Qed.

Lemma rv_access_range c i base off : rv_access c i = Some (base, off) → -2048 ≤ off ≤ 2047 ∧ 0 ≤ lost_bit c i ≤ 32 ∧ (sp_store i = true → 0 ≤ off).
Proof.
  intros Hi. assert (∀ p w x, 0 ≤ w → 0 ≤ slice p w x < 2 ^ w) as Hs by (intros; by apply slice_range).
  assert (∀ x, -2048 ≤ signed 12 x < 2048) as Hg by (intros x; exact (signed_range 12 x ltac:(lia))).
  split; [|split].
  - destruct i; try done; cbn [rv_access] in Hi; injection Hi as <- <-; try lia;
      try (match goal with |- _ ≤ signed 12 ?x ≤ _ => specialize (Hg x); lia end);
      repeat match goal with |- context [slice ?p ?w ?x] =>
        pose proof (Hs p w x ltac:(lia)); generalize dependent (slice p w x); intros end; lia.
  - unfold lost_bit. destruct (sp_store i); [|lia]. pose proof (Hs 12 1 (word16 (code c))). lia.
  - intros Hsp. destruct i; try done; cbn [rv_access] in Hi; injection Hi as <- <-;
      repeat match goal with |- context [slice ?p ?w ?x] =>
        pose proof (Hs p w x ltac:(lia)); generalize dependent (slice p w x); intros end; lia.
Qed.

(** What the API does for an instruction it knows. *)
Lemma calc_spec c i base off reg :
  code_inst c = Some i → mambo_is_load_or_store c = true → rv_access c i = Some (base, off) →
  0 ≤ plugin_pushed_reg_count c ≤ 2 ^ 20 →
  mambo_calc_ld_st_addr c reg
  = Ok (0, snd (emit_add_sub_i reg base
                  (off - lost_bit c i + (if base =? sp then 8 * plugin_pushed_reg_count c else 0)))).
Proof.
  intros Hi Hm Ha Hc. unfold mambo_calc_ld_st_addr, _riscv_calc_ld_st_addr. rewrite Hi.
  change (Some i ≫= access_addr c) with (access_addr c i).
  rewrite (access_addr_spec c i base off Ha).
  - rewrite generate_addr_imm by lia. done.
  - intros ->. unfold mambo_is_load_or_store, _riscv_is_load_or_store in Hm. by rewrite Hi in Hm.
  - intros ->. unfold mambo_is_load_or_store, _riscv_is_load_or_store in Hm. by rewrite Hi in Hm.
Qed.

Lemma known_access c i :
  code_inst c = Some i → mambo_is_load_or_store c = true → is_Some (rv_access c i).
Proof.
  intros Hi Hm. unfold mambo_is_load_or_store, _riscv_is_load_or_store in Hm. rewrite Hi in Hm.
  destruct i; try done; by eexists.
Qed.



(** C39. Where the address is wrong. A compressed store to the stack (C.SWSP,
    C.SDSP, C.FSDSP) whose offset has bit 5 set gets an address 32 bytes too low,
    because the decoders mask a six-bit field with five bits. When the pushed
    registers move an offset past 2047, nothing is emitted and the result is
    still 0. The half-precision FLH and FSH, which the decoder knows, are
    reported as no memory accesses at all. *)
Theorem riscv_ld_st_address_wrong c i base off reg :
  reg ≠ 0 → 0 ≤ plugin_pushed_reg_count c ≤ 2 ^ 20 → code_inst c = Some i → rv_access c i = Some (base, off) →
  let offset := off - lost_bit c i + (if base =? sp then 8 * plugin_pushed_reg_count c else 0) in
  (sp_store i = true → slice 12 1 (word16 (code c)) = 1 → offset ≤ 2047 →
    ∃ l, mambo_calc_ld_st_addr c reg = Ok (0, l)
      ∧ ∀ s, ok s → get (run l s) reg = u64 (app_reg c s sp + off - 32))
  ∧ (mambo_is_load_or_store c = true → 2047 < offset → mambo_calc_ld_st_addr c reg = Ok (0, []))
  ∧ (i = RISCV_FLH ∨ i = RISCV_FSH →
      mambo_is_load_or_store c = false ∧ mambo_get_ld_st_size c = -1 ∧ mambo_calc_ld_st_addr c reg = Ok (-1, [])).
Proof.
  intros Hreg Hc Hi Ha offset. destruct (rv_access_range c i base off Ha) as (Hr & Hl & H0). split_and!.
  - intros Hs Hb Ho. specialize (H0 Hs).
    assert (mambo_is_load_or_store c = true) as Hm.
    { unfold mambo_is_load_or_store, _riscv_is_load_or_store. rewrite Hi. by destruct i. }
    eexists. split; [by apply (calc_spec c i base off)|]. intros s Hok. fold offset.
    assert (base = sp) as -> by (destruct i; try done; cbn in Ha; by injection Ha as <- _).
    destruct (add_sub_i_small reg sp offset s) as (-> & _); [done | subst offset; simpl in *; lia | done|].
    unfold app_reg, offset, lost_bit. rewrite Hs, Hb. simpl. f_equal. lia.
  - intros Hm Ho. rewrite (calc_spec c i base off) by done. fold offset. unfold emit_add_sub_i.
    replace (offset =? 0) with false by lia. by replace ((0x7FF <? offset) || (offset <? - 0xFFF)) with true by lia.
  - unfold mambo_is_load_or_store, _riscv_is_load_or_store, mambo_get_ld_st_size, _riscv_get_ld_st_size,
      mambo_calc_ld_st_addr, _riscv_calc_ld_st_addr. rewrite Hi. by intros [-> | ->].
Qed.

Lemma riscv_ld_st_address_wrong_witness :
  (* c.sdsp ra, 40(sp) *)
  let c := MkCodeCtx (Some RISCV_C_SDSP) (λ _, 0xF406) 0x1000 0 in
  rv_access c RISCV_C_SDSP = Some (2, 40) ∧ ∃ l, mambo_calc_ld_st_addr c a1 = Ok (0, l)
    ∧ ∀ s, ok s → get (run l s) a1 = u64 (app_reg c s sp + 40 - 32).
Proof.
  intros c. split; [reflexivity|].
  apply (riscv_ld_st_address_wrong c RISCV_C_SDSP 2 40 a1); [discriminate | simpl; lia | reflexivity..|].
  vm_compute. discriminate.
Defined.

(** ** Sizes *)

(** A vector access has no size of its own. *)
Definition scalar_access (i : riscv_instruction) : bool :=
  match i with
  | RISCV_V_LOAD_B | RISCV_V_LOAD_H | RISCV_V_LOAD_W | RISCV_V_LOAD_D
  | RISCV_V_STORE_B | RISCV_V_STORE_H | RISCV_V_STORE_W | RISCV_V_STORE_D
  | RISCV_V_AMO_B | RISCV_V_AMO_H | RISCV_V_AMO_W | RISCV_V_AMO_D => false
  | RISCV_OTHER _ => false
  | _ => true
  end.

(** The compressed accesses of RV64; C.FLWSP only exists on RV32. *)
Definition compressed (i : riscv_instruction) : bool :=
  match i with
  | RISCV_C_FLD | RISCV_C_LW | RISCV_C_LD | RISCV_C_FSD | RISCV_C_SW | RISCV_C_SD
  | RISCV_C_FLDSP | RISCV_C_LWSP | RISCV_C_LDSP | RISCV_C_FSDSP | RISCV_C_SWSP | RISCV_C_SDSP => true
  | _ => false
  end.

(** Bits 1:0 of [funct3] of a 32-bit access are the logarithm of its size; a
    compressed access has 4 bytes if bits 14:13 are 10, and 8 bytes if not. *)
Definition rv_size (c : ctx) (i : riscv_instruction) : Z :=
  if compressed i then (if slice 13 2 (word16 (code c)) =? 2 then 4 else 8)
  else 2 ^ slice 12 2 (word_riscv (code c)).

(** The word at [read_address] is an encoding of the instruction. *)
Definition encoded (c : ctx) (i : riscv_instruction) : Prop :=
  if compressed i then matches (riscv_txt i) (word16 (code c)) = true
  else matches (riscv_txt i) (word_riscv (code c)) = true.

(** The size of a RISC-V memory access. [mambo_get_ld_st_size] of every
    scalar load, store and atomic operation is the access width in the
    encoding of the instruction; it is -1 exactly for vector accesses, for
    FLH and FSH and for instructions that access no memory. *)
Theorem riscv_ld_st_size c i :
  code_inst c = Some i →
  (mambo_get_ld_st_size c = -1 ↔ scalar_access i = false ∨ i = RISCV_FLH ∨ i = RISCV_FSH)
  ∧ (encoded c i → mambo_get_ld_st_size c ≠ -1 → i ≠ RISCV_C_FLWSP → mambo_get_ld_st_size c = rv_size c i).
Proof.
  intros Hi. unfold mambo_get_ld_st_size, _riscv_get_ld_st_size. rewrite Hi. split.
  - destruct i; (split;
      [intros H; first [discriminate H | by left | by right; left | by right; right]
      |intros [H|[H|H]]; first [discriminate H | reflexivity]]).
  - unfold encoded, rv_size. intros He Hs Hne.
    destruct i; try done; cbn [compressed] in He |- *;
      (rewrite (matches_slice _ _ 13 2 He) || rewrite (matches_slice _ _ 12 2 He)); done.
Qed.

Lemma riscv_ld_st_size_witness :
  (* ld a0, 0(a1) *)
  let c := MkCodeCtx (Some RISCV_LD) (λ k, if k =? 0 then 0xB503 else 5) 0x1000 0 in
  mambo_get_ld_st_size c = rv_size c RISCV_LD ∧ rv_size c RISCV_LD = 8.
Proof.
  intros c. split; [|reflexivity].
  apply (riscv_ld_st_size c RISCV_LD); [reflexivity | reflexivity | discriminate | discriminate].
Defined.
End LoadStoreRiscv.
