(* ===== verification/RiscvVector.v ===== *)
(** * Sizes of RISC-V vector accesses (api/load_store.c)

    The number of bytes a vector load or store touches depends on control
    registers. [mambo_calc_rvv_ld_st_size] emits code that computes it when the
    program runs; the file says what that code computes. *)
From S2P Require Import Prelude RegList RiscvImm RiscvAsm RiscvEmit Pie LoadStoreRiscv.
Import RiscvImm RiscvAsm RiscvEmit Pie LoadStoreRiscv.
#[local] Open Scope Z_scope.

Module RiscvVector.

Definition RISCV_CSR_VSTART : Z := 0x008.
Definition RISCV_CSR_VL : Z := 0xC20.
Definition RISCV_CSR_VTYPE : Z := 0xC21.
Definition RISCV_CSR_VLENB : Z := 0xC22.

Fixpoint log2_loop (fuel : nat) (v log : Z) : outcome Z :=
  match fuel with
  | O => Err OutOfFuel
  | S fuel => if 1 <? v then log2_loop fuel (Z.shiftr v 1) (log + 1) else Ok log
  end.

(** [v] is an unsigned int: 33 rounds. *)
Definition __riscv_log2_pow2 (v : Z) : outcome Z := log2_loop 33 v 0.

Definition eew_bytes (width : Z) : Z :=
  match width with 0x5 => 2 | 0x6 => 4 | 0x7 => 8 | _ => 1 end.

Definition mambo_calc_rvv_ld_st_size (c : ctx) (size_reg scratch_reg : Z) : outcome (Z * list inst) :=
  if negb (mambo_is_rvv_mem c) then Ok (-1, [])
  else
    let w := word_riscv (code c) in
    let opcode := Z.land w 0x7f in
    let width := Z.land (Z.shiftr w 12) 0x7 in
    let lumop := Z.land (Z.shiftr w 20) 0x1f in
    let mop := Z.land (Z.shiftr w 26) 0x3 in
    let nf := Z.land (Z.shiftr w 29) 0x7 in
    let is_amo := opcode =? 0x2f in
    let is_whole_reg := negb is_amo && (mop =? 0) && (lumop =? 0x08) in
    let is_mask := negb is_amo && (mop =? 0) && (lumop =? 0x0b) in
    let is_indexed := negb is_amo && ((mop =? 1) || (mop =? 3)) in
    let nf_count := if is_amo then 1 else nf + 1 in
    log2_nf ← __riscv_log2_pow2 nf_count;
    if is_whole_reg then
      Ok (0, Csrrs size_reg RISCV_CSR_VLENB zero
               :: (if negb (log2_nf =? 0) then [Slli size_reg size_reg log2_nf] else []))
    else if is_mask then
      Ok (0, [Csrrs size_reg RISCV_CSR_VL zero; Addi size_reg size_reg 7; Srli size_reg size_reg 3])
    else
      let active := [Csrrs size_reg RISCV_CSR_VL zero; Csrrs scratch_reg RISCV_CSR_VSTART zero;
                     Sub size_reg size_reg scratch_reg] in
      if is_indexed then
        Ok (0, active
                 ++ [Csrrs scratch_reg RISCV_CSR_VTYPE zero; Srli scratch_reg scratch_reg 3;
                     Andi scratch_reg scratch_reg 7]
                 ++ (if negb (log2_nf =? 0) then [Addi scratch_reg scratch_reg log2_nf] else [])
                 ++ [Sll size_reg size_reg scratch_reg])
      else
        eew_log ← __riscv_log2_pow2 (eew_bytes width);
        let shift := eew_log + log2_nf in
        Ok (0, active ++ (if negb (shift =? 0) then [Slli size_reg size_reg shift] else [])).

(** ** What the manual says

    The fields of a vector memory instruction and the bytes it touches, for
    [n] fields of a segment. *)

Definition vopcode (c : ctx) : Z := slice 0 7 (word_riscv (code c)).
Definition vwidth (c : ctx) : Z := slice 12 3 (word_riscv (code c)).
Definition vlumop (c : ctx) : Z := slice 20 5 (word_riscv (code c)).
Definition vmop (c : ctx) : Z := slice 26 2 (word_riscv (code c)).
Definition vamo (c : ctx) : bool := vopcode c =? 0x2f.
(** The number of fields of a segment, or of registers. *)
Definition nfields (c : ctx) : Z := if vamo c then 1 else slice 29 3 (word_riscv (code c)) + 1.

Definition rvv_bytes (c : ctx) (s : machine) (n : Z) : Z :=
  let vl := csrs s RISCV_CSR_VL in
  let active := vl - csrs s RISCV_CSR_VSTART in
  if negb (vamo c) && (vmop c =? 0) && (vlumop c =? 0x08) then csrs s RISCV_CSR_VLENB * n
  else if negb (vamo c) && (vmop c =? 0) && (vlumop c =? 0x0b) then (vl + 7) / 8
  else if negb (vamo c) && ((vmop c =? 1) || (vmop c =? 3)) then active * 2 ^ slice 3 3 (csrs s RISCV_CSR_VTYPE) * n
  else active * eew_bytes (vwidth c) * n.

(** ** Lemmas *)

Lemma log2_spec v : 1 ≤ v < 9 → __riscv_log2_pow2 v = Ok (Z.log2 v).
Proof.
  intros Hv.
  assert (v = 1 ∨ v = 2 ∨ v = 3 ∨ v = 4 ∨ v = 5 ∨ v = 6 ∨ v = 7 ∨ v = 8) as Hc by lia.
  by repeat destruct Hc as [->|Hc]; try subst v.
Qed.

Lemma nfields_range c : 1 ≤ nfields c ≤ 8.
Proof. unfold nfields. destruct (vamo c); [lia|]. pose proof (slice_range 29 3 (word_riscv (code c))). lia. Qed.

Lemma eew_bytes_pow2 x : ∃ k, eew_bytes x = 2 ^ k ∧ 0 ≤ k ≤ 3.
Proof.
  unfold eew_bytes. destruct x as [|p|p]; [by exists 0| |by exists 0].
  destruct p as [[[]|[]|]|[[]|[]|]|]; (by exists 0) || (by exists 1) || (by exists 2) || (by exists 3).
Qed.

(** The value of a register after a sequence of writes. *)
Ltac regs := repeat first [rewrite get_next | rewrite get_set_eq by done | rewrite get_set_ne by done].

(** Code that only computes in [size_reg] and [scratch_reg]. *)
Definition computes (l : list inst) (size_reg scratch_reg : Z) (s : machine) (v : Z) : Prop :=
  let s' := run l s in
  get s' size_reg = u64 v ∧ mem s' = mem s ∧ csrs s' = csrs s
  ∧ ∀ r, r ≠ size_reg → r ≠ scratch_reg → get s' r = get s r.

Lemma exec_csrrs rd csr s : exec (Csrrs rd csr zero) s = next 4 (set rd (csrs s csr) s).
Proof. done. Qed.

Lemma run_snoc l i s : run (l ++ [i]) s = exec i (run l s).
Proof. by rewrite run_app. Qed.

Lemma computes_shift l size_reg scratch_reg s v k :
  size_reg ≠ 0 → 0 ≤ k < 64 → computes l size_reg scratch_reg s v →
  computes (l ++ (if negb (k =? 0) then [Slli size_reg size_reg k] else [])) size_reg scratch_reg s (v * 2 ^ k).
Proof.
  intros Hr Hk (Hv & Hm & Hc & Ho). destruct (Z.eqb_spec k 0) as [->|Hk0]; cbn [negb].
  - rewrite app_nil_r. by rewrite Z.mul_1_r.
  - unfold computes. rewrite run_snoc. cbn [exec].
    rewrite get_next, get_set_eq, Hv by done. split_and!; [|done..|].
    + unfold bits. change (2 ^ 0) with 1. rewrite Z.div_1_r, (Z.mod_small k) by lia. apply u64_mul_l.
    + intros r H1 H2. rewrite get_next, get_set_ne by done. by apply Ho.
Qed.

Section active.
Context (size_reg scratch_reg : Z) (Hsize : size_reg ≠ 0) (Hscratch : scratch_reg ≠ 0) (Hne : size_reg ≠ scratch_reg).

Definition active_code : list inst :=
  [Csrrs size_reg RISCV_CSR_VL zero; Csrrs scratch_reg RISCV_CSR_VSTART zero; Sub size_reg size_reg scratch_reg].

Lemma active_computes s :
  (∀ r, 0 ≤ csrs s r < 2 ^ 64) →
  computes active_code size_reg scratch_reg s (csrs s RISCV_CSR_VL - csrs s RISCV_CSR_VSTART).
Proof.
  intros Hc. unfold computes, active_code. rewrite !run_cons, !exec_csrrs. cbn [exec run foldl].
  rewrite get_next, get_set_eq, (get_next 4 (set scratch_reg _ _) size_reg), get_set_ne by done.
  rewrite !get_next, !get_set_eq by done. change (csrs (next _ (set _ _ s))) with (csrs s).
  rewrite (u64_small (csrs s RISCV_CSR_VL)), (u64_small (csrs s RISCV_CSR_VSTART)) by apply Hc.
  split_and!; [done..|]. intros r H1 H2. by regs.
Qed.

(** [active << (vsew + k)] *)
Lemma indexed_computes s k :
  (∀ r, 0 ≤ csrs s r < 2 ^ 64) → 0 ≤ k ≤ 3 →
  computes (active_code
            ++ [Csrrs scratch_reg RISCV_CSR_VTYPE zero; Srli scratch_reg scratch_reg 3; Andi scratch_reg scratch_reg 7]
            ++ (if negb (k =? 0) then [Addi scratch_reg scratch_reg k] else [])
            ++ [Sll size_reg size_reg scratch_reg]) size_reg scratch_reg s
    ((csrs s RISCV_CSR_VL - csrs s RISCV_CSR_VSTART) * 2 ^ slice 3 3 (csrs s RISCV_CSR_VTYPE) * 2 ^ k).
Proof.
  intros Hc Hk. destruct (active_computes s Hc) as (Hv & Hm & Hcs & Ho).
  unfold computes. rewrite run_app. set (s1 := run active_code s) in *.
  rewrite !app_assoc, run_snoc, run_app. set (s2 := run [_; _; _] s1).
  assert (get s2 scratch_reg = slice 3 3 (csrs s RISCV_CSR_VTYPE)) as Hsew.
  { unfold s2. rewrite !run_cons, exec_csrrs. cbn [exec run foldl].
    rewrite get_next, get_set_eq, get_next, get_set_eq, get_next, get_set_eq by done.
    change (bits 6 0 3) with 3. change (imm12 7) with 7. change (u64 7) with (2 ^ 3 - 1). rewrite Hcs.
    rewrite (u64_small (csrs s RISCV_CSR_VTYPE)) by apply Hc.
    pose proof (Hc RISCV_CSR_VTYPE) as Hr. rewrite (u64_small (_ / _)).
    - unfold slice. rewrite land_pow2_mask by lia. apply u64_small.
      pose proof (Z.mod_pos_bound (csrs s RISCV_CSR_VTYPE / 2 ^ 3) (2 ^ 3)). lia.
    - split; [apply Z.div_pos; lia | apply Z.div_lt_upper_bound; lia]. }
  assert (∀ r, r ≠ scratch_reg → get s2 r = get s1 r) as Ho2.
  { intros r Hr. unfold s2. rewrite !run_cons, exec_csrrs. cbn [exec run foldl].
    by regs. }
  pose proof (slice_range 3 3 (csrs s RISCV_CSR_VTYPE)) as Hsr.
  set (s3 := run (if negb (k =? 0) then _ else _) s2).
  assert (get s3 scratch_reg = slice 3 3 (csrs s RISCV_CSR_VTYPE) + k ∧ (∀ r, r ≠ scratch_reg → get s3 r = get s2 r)
          ∧ mem s3 = mem s2 ∧ csrs s3 = csrs s2) as (Hk3 & Ho3 & Hm3 & Hc3).
  { unfold s3. destruct (Z.eqb_spec k 0) as [->|]; cbn [negb run foldl exec].
    - rewrite Hsew, Z.add_0_r. by split_and!.
    - rewrite get_next, get_set_eq, Hsew by done. unfold imm12. rewrite signed_small, u64_small by lia.
      split_and!; [done| |done..]. intros r Hr. by rewrite get_next, get_set_ne. }
  cbn [exec]. rewrite get_next, get_set_eq, Ho3, Ho2, Hv, Hk3 by done. split_and!.
  - unfold bits. change (2 ^ 0) with 1. rewrite Z.div_1_r, (Z.mod_small (slice _ _ _ + _)) by lia.
    rewrite u64_mul_l. f_equal. rewrite <- Z.mul_assoc. by rewrite Z.pow_add_r by lia.
  - cbn [mem next set_pc set]. by rewrite Hm3.
  - cbn [csrs next set_pc set]. by rewrite Hc3.
  - intros r H1 H2. rewrite get_next, get_set_ne, Ho3, Ho2 by done. by apply Ho.
Qed.

Lemma mask_computes s :
  (∀ r, 0 ≤ csrs s r < 2 ^ 64) → csrs s RISCV_CSR_VL < 2 ^ 63 →
  computes [Csrrs size_reg RISCV_CSR_VL zero; Addi size_reg size_reg 7; Srli size_reg size_reg 3]
    size_reg scratch_reg s ((csrs s RISCV_CSR_VL + 7) / 8).
Proof.
  intros Hc Hvl. unfold computes. rewrite !run_cons, exec_csrrs. cbn [exec run foldl].
  rewrite get_next, get_set_eq, get_next, get_set_eq, get_next, get_set_eq by done.
  change (imm12 7) with 7. change (bits 6 0 3) with 3. change (2 ^ 3) with 8.
  pose proof (Hc RISCV_CSR_VL). rewrite (u64_small (csrs s RISCV_CSR_VL)), (u64_small (_ + 7)) by lia.
  split_and!; [done..|]. intros r H1 H2. by regs.
Qed.

Lemma vlenb_computes s :
  (∀ r, 0 ≤ csrs s r < 2 ^ 64) →
  computes [Csrrs size_reg RISCV_CSR_VLENB zero] size_reg scratch_reg s (csrs s RISCV_CSR_VLENB).
Proof.
  intros Hc. unfold computes. rewrite run_cons, exec_csrrs. cbn [run foldl].
  rewrite get_next, get_set_eq by done. split_and!; [done..|]. intros r H1 H2. by rewrite get_next, get_set_ne.
Qed.
End active.

Lemma eew_log x k : eew_bytes x = 2 ^ k → 0 ≤ k ≤ 3 → __riscv_log2_pow2 (eew_bytes x) = Ok k.
Proof.
  intros Hk Hr. assert (k = 0 ∨ k = 1 ∨ k = 2 ∨ k = 3) as Hc by lia.
  rewrite Hk, log2_spec, Z.log2_pow2 by (lia || (by destruct Hc as [->|[->|[->| ->]]])). done.
Qed.


End RiscvVector.
