(* ===== verification/LoadStoreA64.v ===== *)
(** * Loads and stores of AArch64 in the plugin API (api/load_store.c, api/helpers.c)

    Which A64 instructions access memory, the address they access and the
    number of bytes. The emitted code is given the meaning of the Arm manual on
    the general-purpose registers. *)
From S2P Require Import Prelude RiscvImm Pie.
Import RiscvImm Pie.
#[local] Open Scope Z_scope.

Module LoadStoreA64.

(** The values of [a64_instruction] that the API tells apart, and the atomic
    maxima and minima, which it does not. *)
Inductive a64_instruction :=
  | A64_LDX_STX | A64_LDR_LIT | A64_LDP_STP
  | A64_LDR_STR_IMMED | A64_LDR_STR_REG | A64_LDR_STR_UNSIGNED_IMMED
  | A64_LDX_STX_MULTIPLE | A64_LDX_STX_MULTIPLE_POST | A64_LDX_STX_SINGLE | A64_LDX_STX_SINGLE_POST
  | A64_LDADD | A64_LDCLR | A64_LDEOR | A64_LDSMAX | A64_LDSMIN | A64_LDUMAX | A64_LDUMIN | A64_LDSET | A64_SWP
  | A64_OTHER (n : Z).

#[global] Instance a64_instruction_eq_dec : EqDecision a64_instruction.
Proof. solve_decision. Defined.

Notation a64_ctx := (code_ctx a64_instruction).

(** The encodings of pie/a64.txt. *)
Definition a64_txt (i : a64_instruction) : string :=
  (match i with
  | A64_LDX_STX => "aa001000 bcdeeeee fggggghh hhhiiiii"
  | A64_LDR_LIT => "aa011b00 cccccccc cccccccc cccddddd"
  | A64_LDP_STP => "aa101b0c cdeeeeee efffffgg ggghhhhh"
  | A64_LDR_STR_IMMED => "aa111b00 cc0ddddd ddddeeff fffggggg"
  | A64_LDR_STR_REG => "aa111b00 cc1ddddd eeef10gg ggghhhhh"
  | A64_LDR_STR_UNSIGNED_IMMED => "aa111b01 ccdddddd ddddddee eeefffff"
  | A64_LDX_STX_MULTIPLE => "0a001100 0b000000 ccccddee eeefffff"
  | A64_LDX_STX_MULTIPLE_POST => "0a001100 1b0ccccc ddddeeff fffggggg"
  | A64_LDX_STX_SINGLE => "0a001101 0bc00000 dddeffgg ggghhhhh"
  | A64_LDX_STX_SINGLE_POST => "0a001101 1bcddddd eeefgghh hhhiiiii"
  | A64_LDADD => "aa111000 bc1ddddd 000000ee eeefffff"
  | A64_LDCLR => "aa111000 bc1ddddd 000100ee eeefffff"
  | A64_LDEOR => "aa111000 bc1ddddd 001000ee eeefffff"
  | A64_LDSMAX => "aa111000 bc1ddddd 010000ee eeefffff"
  | A64_LDSMIN => "aa111000 bc1ddddd 010100ee eeefffff"
  | A64_LDUMAX => "aa111000 bc1ddddd 011000ee eeefffff"
  | A64_LDUMIN => "aa111000 bc1ddddd 011100ee eeefffff"
  | A64_LDSET => "aa111000 bc1ddddd 001100ee eeefffff"
  | A64_SWP => "aa111000 bc1ddddd 100000ee eeefffff"
  | A64_OTHER _ => ""
  end)%string.

Section operations.
Context (c : a64_ctx).

(** [*inst], and a field of it in the encoding of [i]. *)
Definition a64_word : Z := word_arm (code c).
Definition afield (i : a64_instruction) (l : ascii) : Z := field (a64_txt i) l a64_word.

(** ** Classification *)

Definition IS_LOAD : Z := Z.shiftl 1 22.

(** [(is_load, is_store)] *)
Definition _a64_is_load_or_store : bool * bool :=
  match code_inst c with
  | Some A64_LDR_LIT =>
      let opc := afield A64_LDR_LIT "a"%char in
      let v := afield A64_LDR_LIT "b"%char in
      if (opc =? 3) && (v =? 0) then (false, false) else (true, false)
  | Some (A64_LDX_STX | A64_LDP_STP | A64_LDX_STX_MULTIPLE | A64_LDX_STX_MULTIPLE_POST
    | A64_LDX_STX_SINGLE | A64_LDX_STX_SINGLE_POST) =>
      if negb (Z.land a64_word IS_LOAD =? 0) then (true, false) else (false, true)
  | Some (A64_LDR_STR_IMMED | A64_LDR_STR_REG | A64_LDR_STR_UNSIGNED_IMMED) =>
      let sz := afield A64_LDR_STR_UNSIGNED_IMMED "a"%char in
      let v := afield A64_LDR_STR_UNSIGNED_IMMED "b"%char in
      let opc := afield A64_LDR_STR_UNSIGNED_IMMED "c"%char in
      if (sz =? 3) && (v =? 0) && (opc =? 2) then (false, false)
      else if negb (Z.land (Z.shiftr a64_word 22) 3 =? 0) then (true, false) else (false, true)
  | Some (A64_LDADD | A64_LDCLR | A64_LDEOR | A64_LDSET | A64_SWP) => (true, true)
  | _ => (false, false)
  end.

Definition mambo_is_load : bool :=
  match code_inst c with None => false | _ => fst _a64_is_load_or_store end.
Definition mambo_is_store : bool :=
  match code_inst c with None => false | _ => snd _a64_is_load_or_store end.
Definition mambo_is_load_or_store : bool := fst _a64_is_load_or_store || snd _a64_is_load_or_store.

(** ** Emission

    The arguments of the encoders that the emitters call. *)

Inductive a64_inst :=
  | ADD_SUB_immed (sf op s shift imm12 rn rd : Z)
  | ADD_SUB_ext_reg (sf op s rm option imm3 rn rd : Z)
  | logical_reg (sf opc shift n rm imm6 rn rd : Z)
  | MOV_wide (sf opc hw imm16 rd : Z).

Definition reg_invalid : Z := 32.
Definition sp : Z := 31.
Definition x31 : Z := 31.

Definition a64_copy_to_reg_64bits (reg value : Z) : list a64_inst :=
  let first_half_word := Z.land value 0xFFFF in
  let second_half_word := Z.land (Z.shiftr value 16) 0xFFFF in
  let third_half_word := Z.land (Z.shiftr value 32) 0xFFFF in
  let fourth_half_word := Z.land (Z.shiftr value 48) 0xFFFF in
  [MOV_wide 1 2 0 first_half_word reg]
  ++ (if 0 <? second_half_word then [MOV_wide 1 3 1 second_half_word reg] else [])
  ++ (if 0 <? third_half_word then [MOV_wide 1 3 2 third_half_word reg] else [])
  ++ (if 0 <? fourth_half_word then [MOV_wide 1 3 3 fourth_half_word reg] else []).

Definition emit_mov (rd rn : Z) : list a64_inst :=
  if rn =? sp then [ADD_SUB_immed 1 0 0 0 0 rn rd] else [logical_reg 1 1 0 0 rn 0 0x1F rd].

Definition SHIFTED_ADD_SUB_I_BITS : Z := 12.
Definition SHIFTED_ADD_SUB_I_MASK : Z := Z.shiftl 1 SHIFTED_ADD_SUB_I_BITS - 1.
Definition SHIFTED_ADD_SUB_MAX : Z :=
  Z.lor SHIFTED_ADD_SUB_I_MASK (Z.shiftl SHIFTED_ADD_SUB_I_MASK SHIFTED_ADD_SUB_I_BITS).

(** [_emit_add_shift_imm] and [_emit_sub_shift_imm]: [op] is 0 or 1. *)
Definition _emit_shift_imm (op rd rn offset shift : Z) : a64_inst :=
  ADD_SUB_immed 1 op 0 (if shift =? 12 then 1 else 0) offset rn rd.

Definition shifted_add_sub (op rd rn offset : Z) : list a64_inst :=
  let lo := negb (Z.land offset SHIFTED_ADD_SUB_I_MASK =? 0) in
  (if lo then [_emit_shift_imm op rd rn (Z.land offset SHIFTED_ADD_SUB_I_MASK) 0] else [])
  ++ (if negb (Z.land offset (Z.shiftl SHIFTED_ADD_SUB_I_MASK SHIFTED_ADD_SUB_I_BITS) =? 0)
      then [_emit_shift_imm op rd (if lo then rd else rn) (Z.shiftr offset SHIFTED_ADD_SUB_I_BITS) SHIFTED_ADD_SUB_I_BITS]
      else []).

Definition emit_add_sub_i (rd rn offset : Z) : Z * list a64_inst :=
  if offset =? 0 then (0, if negb (rd =? rn) then emit_mov rd rn else [])
  else if (offset <? - SHIFTED_ADD_SUB_MAX) || (SHIFTED_ADD_SUB_MAX <? offset) then (-1, [])
  else if offset <? 0 then (0, shifted_add_sub 1 rd rn (- offset))
  else (0, shifted_add_sub 0 rd rn offset).

Definition emit_a64_add_sub_ext (rd rn rm ext_option shift : Z) : Z * list a64_inst :=
  let op := if rm <? 0 then 1 else 0 in
  if (4 <? shift) || (shift <? 0) then (-1, [])
  else (0, [ADD_SUB_ext_reg 1 op 0 (Z.abs rm) ext_option shift rn rd]).

Definition _generate_addr (reg rn rm offset : Z) : outcome (list a64_inst) :=
  c_assert (negb (rm =? sp));;
  let apply_offset := if rn =? sp then s32 (plugin_pushed_reg_count c * 8) else 0 in
  if (rm <=? - reg_invalid) || (reg_invalid <=? rm) then
    Ok (snd (emit_add_sub_i reg rn (offset + apply_offset)))
  else
    let l := snd (emit_a64_add_sub_ext reg rn rm (Z.land offset 7) (Z.shiftr offset 3)) in
    if negb (apply_offset =? 0) then
      c_assert ((apply_offset <=? 0xFFF) && (0 <? apply_offset));;
      Ok (l ++ snd (emit_add_sub_i reg reg apply_offset))
    else Ok l.

(** ** Addresses *)

(** [b ? size : 0] of the scaled register offset, and of unsigned offsets. *)
Definition access_scale (v opc size : Z) : Z := Z.shiftl (Z.land v (Z.shiftr opc 1)) 2 + size.

Definition _a64_calc_ld_st_addr (reg : Z) : outcome (Z * list a64_inst) :=
  let generate rn rm offset := l ← _generate_addr reg rn rm offset; Ok (0, l) in
  match code_inst c with
  | Some (A64_LDP_STP as i) =>
      let opc := afield i "a"%char in let v := afield i "b"%char in let type := afield i "c"%char in
      let imm7 := afield i "e"%char in let rn := afield i "g"%char in
      let offset := Z.shiftl (sign_extend32 7 imm7) (2 + Z.shiftr opc (1 - v)) in
      generate rn reg_invalid (if negb (type =? 1) then offset else 0)
  | Some (A64_LDR_STR_UNSIGNED_IMMED as i) =>
      let size := afield i "a"%char in let v := afield i "b"%char in let opc := afield i "c"%char in
      let imm12 := afield i "d"%char in let rn := afield i "e"%char in
      generate rn reg_invalid (Z.shiftl imm12 (access_scale v opc size))
  | Some (A64_LDR_STR_IMMED as i) =>
      let imm9 := afield i "d"%char in let type := afield i "e"%char in let rn := afield i "f"%char in
      let offset := sign_extend32 9 imm9 in
      generate rn reg_invalid (if negb (type =? 1) then offset else 0)
  | Some (A64_LDR_LIT as i) =>
      let imm19 := afield i "c"%char in
      let offset := u64 (Z.shiftl (sign_extend64 19 imm19) 2) in
      let addr := u64 (read_address c + offset) in
      Ok (0, a64_copy_to_reg_64bits reg addr)
  | Some (A64_LDR_STR_REG as i) =>
      let size := afield i "a"%char in let v := afield i "b"%char in let opc := afield i "c"%char in
      let rm := afield i "d"%char in let opt := afield i "e"%char in let s := afield i "f"%char in
      let rn := afield i "g"%char in
      if rm =? x31 then generate rn reg_invalid 0
      else
        let shift := if negb (s =? 0) then access_scale v opc size else 0 in
        generate rn rm (Z.lor (Z.shiftl shift 3) opt)
  | Some (A64_LDX_STX as i) => generate (afield i "h"%char) reg_invalid 0
  | Some (A64_LDX_STX_MULTIPLE as i) => generate (afield i "e"%char) reg_invalid 0
  | Some (A64_LDX_STX_MULTIPLE_POST as i) => generate (afield i "f"%char) reg_invalid 0
  | Some (A64_LDX_STX_SINGLE as i) => generate (afield i "g"%char) reg_invalid 0
  | Some (A64_LDX_STX_SINGLE_POST as i) => generate (afield i "h"%char) reg_invalid 0
  | Some (A64_LDADD | A64_LDCLR | A64_LDEOR | A64_LDSET | A64_SWP) =>
      generate (afield A64_LDADD "e"%char) reg_invalid 0
  | _ => Ok (-1, [])
  end.

Definition mambo_calc_ld_st_addr (reg : Z) : outcome (Z * list a64_inst) := _a64_calc_ld_st_addr reg.

(** ** Sizes *)

Definition multiple_regs (op : Z) : outcome Z :=
  match op with
  | 0x0 | 0x2 => Ok 4
  | 0x4 | 0x6 => Ok 3
  | 0x8 | 0xA => Ok 2
  | 0x7 => Ok 1
  | _ => Err Exit
  end.

Definition _a64_get_ld_st_size : outcome Z :=
  match code_inst c with
  | Some (A64_LDR_LIT as i) =>
      let opc := afield i "a"%char in let v := afield i "b"%char in
      Ok (if negb (v =? 0) then Z.shiftl 4 opc else Z.shiftl 4 (Z.land opc 1))
  | Some (A64_LDP_STP as i) =>
      let opc := afield i "a"%char in let v := afield i "b"%char in
      Ok (if negb (v =? 0) then Z.shiftl 8 opc else Z.shiftl 8 (Z.shiftr opc 1))
  | Some (A64_LDR_STR_REG | A64_LDR_STR_IMMED | A64_LDR_STR_UNSIGNED_IMMED) =>
      let i := A64_LDR_STR_UNSIGNED_IMMED in
      let sz := afield i "a"%char in let v := afield i "b"%char in let opc := afield i "c"%char in
      Ok (if negb (v =? 0) then Z.shiftl 1 (sz + Z.shiftl (Z.shiftr opc 1) 2) else Z.shiftl 1 sz)
  | Some (A64_LDX_STX as i) =>
      let sz := afield i "a"%char in let o1 := afield i "d"%char in
      Ok (Z.shiftl 1 (sz + o1))
  | Some (A64_LDX_STX_MULTIPLE | A64_LDX_STX_MULTIPLE_POST) =>
      let i := A64_LDX_STX_MULTIPLE in
      let q := afield i "a"%char in let op := afield i "c"%char in
      regs ← multiple_regs op; Ok (regs * Z.shiftl 8 q)
  | Some (A64_LDX_STX_SINGLE | A64_LDX_STX_SINGLE_POST) =>
      let i := A64_LDX_STX_SINGLE in
      let r := afield i "c"%char in let op := afield i "d"%char in let sz := afield i "f"%char in
      let regs := Z.lor (Z.shiftl (Z.land op 1) 1) r + 1 in
      let scale := Z.shiftr op 1 in
      let scale := match scale with
                   | 3 => sz
                   | 2 => if negb (Z.land sz 1 =? 0) then 3 else scale
                   | _ => scale
                   end in
      Ok (Z.shiftl 1 scale * regs)
  | Some (A64_LDADD | A64_LDCLR | A64_LDEOR | A64_LDSET | A64_SWP) =>
      Ok (Z.shiftl 1 (afield A64_LDADD "a"%char))
  | _ => Ok (-1)
  end.

Definition mambo_get_ld_st_size : outcome Z := _a64_get_ld_st_size.
End operations.

(** ** The meaning of the emitted code

    The general-purpose registers and [sp]; register 31 is [sp] or the zero
    register, by instruction. Only the 64-bit forms that do not set flags are
    given a meaning, since no other is emitted. *)

Record a64_machine := MkA64 { xr : Z → Z; sp_value : Z }.

(** [X[n]] and [X[n]|SP] of the manual. *)
Definition xreg (s : a64_machine) (n : Z) : Z := if n =? 31 then 0 else xr s n.
Definition xsp (s : a64_machine) (n : Z) : Z := if n =? 31 then sp_value s else xr s n.
Definition set_xreg (n v : Z) (s : a64_machine) : a64_machine :=
  if n =? 31 then s else MkA64 (λ k, if k =? n then u64 v else xr s k) (sp_value s).
Definition set_xsp (n v : Z) (s : a64_machine) : a64_machine :=
  if n =? 31 then MkA64 (xr s) (u64 v) else set_xreg n v s.

(** [ExtendReg] *)
Definition extend_reg (option x : Z) : Z :=
  match option with
  | 0 => x mod 2 ^ 8 | 1 => x mod 2 ^ 16 | 2 => x mod 2 ^ 32
  | 4 => signed 8 x | 5 => signed 16 x | 6 => signed 32 x
  | _ => x
  end.

Definition a64_exec (i : a64_inst) (s : a64_machine) : option a64_machine :=
  match i with
  | ADD_SUB_immed 1 op 0 shift imm12 rn rd =>
      let imm := imm12 mod 2 ^ 12 * (if shift =? 0 then 1 else 2 ^ 12) in
      Some (set_xsp rd (xsp s rn + (if op =? 0 then imm else - imm)) s)
  | ADD_SUB_ext_reg 1 op 0 rm option imm3 rn rd =>
      let v := extend_reg option (xreg s rm) * 2 ^ imm3 in
      Some (set_xsp rd (xsp s rn + (if op =? 0 then v else - v)) s)
  | logical_reg 1 1 0 0 rm 0 rn rd => Some (set_xreg rd (Z.lor (xreg s rn) (xreg s rm)) s)
  | MOV_wide 1 2 hw imm16 rd => Some (set_xreg rd (imm16 * 2 ^ (16 * hw)) s)
  | MOV_wide 1 3 hw imm16 rd =>
      let x := xreg s rd in
      Some (set_xreg rd (x + (imm16 - x / 2 ^ (16 * hw) mod 2 ^ 16) * 2 ^ (16 * hw)) s)
  | _ => None
  end.

Fixpoint a64_run (l : list a64_inst) (s : a64_machine) : option a64_machine :=
  match l with [] => Some s | i :: l => s ← a64_exec i s; a64_run l s end.

Definition a64_ok (s : a64_machine) : Prop := 0 ≤ sp_value s < 2 ^ 64 ∧ ∀ n, 0 ≤ xr s n < 2 ^ 64.

(** Code that puts [v] into [reg] and changes nothing else. *)
Definition a64_computes (l : list a64_inst) (reg : Z) (s : a64_machine) (v : Z) : Prop :=
  ∃ s', a64_run l s = Some s' ∧ xr s' reg = u64 v ∧ sp_value s' = sp_value s ∧ ∀ r, r ≠ reg → xr s' r = xr s r.

Lemma a64_run_app l1 l2 s : a64_run (l1 ++ l2) s = (s' ← a64_run l1 s; a64_run l2 s').
Proof. revert s. induction l1 as [|i l1 IH]; intros s; [done|]. simpl. destruct (a64_exec i s); simpl; [apply IH | done]. Qed.

Lemma a64_ok_set reg v s : a64_ok s → a64_ok (set_xreg reg v s).
Proof.
  intros [Hsp Hx]. unfold set_xreg. destruct (reg =? 31); [done|]. split; [done|]. intros n. simpl.
  destruct (n =? reg); [apply u64_range | apply Hx].
Qed.

(** One instruction that writes [reg]. *)
Lemma a64_write i reg v s :
  0 ≤ reg < 31 → a64_exec i s = Some (set_xreg reg v s) → a64_computes [i] reg s v.
Proof.
  intros Hr Hi. exists (set_xreg reg v s). simpl. rewrite Hi. split; [done|]. unfold set_xreg.
  replace (reg =? 31) with false by lia. simpl. rewrite Z.eqb_refl. split_and!; [done..|].
  intros r Hne. by rewrite (proj2 (Z.eqb_neq r reg)).
Qed.

Lemma set_xsp_reg reg v s : 0 ≤ reg < 31 → set_xsp reg v s = set_xreg reg v s.
Proof. intros. unfold set_xsp. by replace (reg =? 31) with false by lia. Qed.

(** Code that continues from a computed value. *)
Lemma a64_computes_app l1 l2 reg s v w :
  a64_computes l1 reg s v →
  (∀ s', xr s' reg = u64 v → sp_value s' = sp_value s → (∀ r, r ≠ reg → xr s' r = xr s r) → a64_computes l2 reg s' w) →
  a64_computes (l1 ++ l2) reg s w.
Proof.
  intros (s1 & Hr1 & Hv & Hsp & Ho) H2. destruct (H2 s1) as (s2 & Hr2 & Hw & Hsp2 & Ho2); [done..|].
  exists s2. rewrite a64_run_app, Hr1. simpl. split_and!; [done | done | by rewrite Hsp2 |].
  intros r Hr. by rewrite Ho2, Ho.
Qed.

Lemma a64_computes_ext l reg s v w : u64 v = u64 w → a64_computes l reg s v → a64_computes l reg s w.
Proof. unfold a64_computes. by intros ->. Qed.

Lemma u64_l x y : u64 (u64 x + y) = u64 (x + y).
Proof. unfold u64. by rewrite Zplus_mod_idemp_l. Qed.

(** *** Constants *)

Lemma land_ffff x n : 0 ≤ n → Z.land (Z.shiftr x n) 0xFFFF = slice n 16 x.
Proof. intros. unfold slice. by rewrite (land_pow2_mask _ 16), Z.shiftr_div_pow2 by lia. Qed.

(** MOVK above the bits that are set. *)
Lemma movk_computes reg hw imm x s :
  0 ≤ reg < 31 → xr s reg = u64 x → 0 ≤ x < 2 ^ (16 * hw) → 0 ≤ hw ≤ 3 → 0 ≤ imm →
  a64_computes (if 0 <? imm then [MOV_wide 1 3 hw imm reg] else []) reg s (x + imm * 2 ^ (16 * hw)).
Proof.
  intros Hr Hx Hlt Hhw Himm.
  assert (2 ^ (16 * hw) ≤ 2 ^ 48) by (apply Z.pow_le_mono_r; lia).
  destruct (Z.ltb_spec 0 imm).
  - apply a64_write; [done|]. cbn [a64_exec]. unfold xreg. replace (reg =? 31) with false by lia.
    rewrite Hx, u64_small by lia. do 2 f_equal. rewrite (Z.div_small x) by lia. rewrite Z.mod_0_l by done. lia.
  - replace imm with 0 by lia. exists s. split_and!; [done | | done | done]. rewrite Hx. f_equal. lia.
Qed.

Lemma copy_to_reg_computes reg value s :
  0 ≤ reg < 31 → 0 ≤ value < 2 ^ 64 → a64_computes (a64_copy_to_reg_64bits reg value) reg s value.
Proof.
  intros Hr Hv. unfold a64_copy_to_reg_64bits.
  rewrite (land_ffff value 16), (land_ffff value 32), (land_ffff value 48) by done.
  assert (Z.land value 0xFFFF = slice 0 16 value) as -> 
    by (unfold slice; rewrite Z.div_1_r; exact (land_pow2_mask value 16 ltac:(lia))).
  pose proof (slice_range 0 16 value ltac:(lia)) as R0. pose proof (slice_range 16 16 value ltac:(lia)) as R1.
  pose proof (slice_range 32 16 value ltac:(lia)) as R2. pose proof (slice_range 48 16 value ltac:(lia)) as R3.
  assert (value = slice 0 16 value + slice 16 16 value * 2 ^ 16 + slice 32 16 value * 2 ^ 32 + slice 48 16 value * 2 ^ 48) as Hsum.
  { assert (value = slice 0 64 value) as E by (unfold slice; by rewrite Z.div_1_r, Z.mod_small).
    rewrite E at 1. change 64 with (16 + (16 + (16 + 16))). rewrite !slice_split by lia.
    change (0 + 16) with 16. change (16 + 16) with 32. change (32 + 16) with 48. lia. }
  set (v0 := slice 0 16 value) in *. set (v1 := slice 16 16 value) in *.
  set (v2 := slice 32 16 value) in *. set (v3 := slice 48 16 value) in *.
  apply (a64_computes_ext _ _ _ (v0 + v1 * 2 ^ (16 * 1) + v2 * 2 ^ (16 * 2) + v3 * 2 ^ (16 * 3))); [f_equal; lia|].
  eapply a64_computes_app with (v := v0).
  { apply a64_write; [done|]. cbn [a64_exec]. by rewrite Z.mul_1_r. }
  intros s1 Hs1 _ _. eapply a64_computes_app; [apply (movk_computes reg 1 v1 v0); (done || lia)|].
  intros s2 Hs2 _ _. eapply a64_computes_app; [apply (movk_computes reg 2 v2 (v0 + v1 * 2 ^ (16 * 1))); (done || lia)|].
  intros s3 Hs3 _ _. apply (movk_computes reg 3 v3 (v0 + v1 * 2 ^ (16 * 1) + v2 * 2 ^ (16 * 2))); (done || lia).
Qed.

(** *** Additions of constants *)

Definition sgn (op x : Z) : Z := if op =? 0 then x else - x.

Lemma add_imm_computes op rd rn imm shift s :
  0 ≤ rd < 31 → 0 ≤ imm < 2 ^ 12 → shift = 0 ∨ shift = 12 →
  a64_computes [_emit_shift_imm op rd rn imm shift] rd s (xsp s rn + sgn op (imm * 2 ^ shift)).
Proof.
  intros Hr Hi Hs. apply a64_write; [done|]. unfold _emit_shift_imm. cbn [a64_exec].
  rewrite set_xsp_reg, Z.mod_small by done. do 2 f_equal. unfold sgn.
  destruct Hs as [-> | ->]; simpl; by rewrite ?Z.mul_1_r.
Qed.

Lemma shifted_computes op rd rn off s :
  0 ≤ rd < 31 → 0 < off < 2 ^ 24 →
  a64_computes (shifted_add_sub op rd rn off) rd s (xsp s rn + sgn op off).
Proof.
  intros Hr Ho. unfold shifted_add_sub.
  change SHIFTED_ADD_SUB_I_MASK with (2 ^ 12 - 1). change SHIFTED_ADD_SUB_I_BITS with 12.
  rewrite land_upper, (land_pow2_mask off 12), Z.shiftr_div_pow2 by (change (2 * 12) with 24; lia).
  pose proof (Z.mod_pos_bound off (2 ^ 12) ltac:(lia)) as Hlo. pose proof (Z.div_mod off (2 ^ 12) ltac:(lia)) as Hdm.
  assert (0 ≤ off / 2 ^ 12 < 2 ^ 12) as Hhi by (split; [apply Z.div_pos | apply Z.div_lt_upper_bound]; lia).
  destruct (Z.eqb_spec (off mod 2 ^ 12) 0) as [Hl|Hl]; cbn [negb].
  - replace (off / 2 ^ 12 =? 0) with false by lia. cbn [negb app].
    eapply a64_computes_ext; [|apply (add_imm_computes op rd rn (off / 2 ^ 12) 12); [done|done|by right]].
    f_equal. unfold sgn. case_match; lia.
  - destruct (Z.eqb_spec (off / 2 ^ 12) 0) as [Hh|Hh]; cbn [negb].
    + rewrite app_nil_r. eapply a64_computes_ext; [|apply (add_imm_computes op rd rn _ 0); [done|done|by left]].
      f_equal. unfold sgn. case_match; lia.
    + eapply a64_computes_app; [apply (add_imm_computes op rd rn _ 0); [done|done|by left]|].
      intros s' Hv _ _. eapply a64_computes_ext; [|apply (add_imm_computes op rd rd _ 12); [done|done|by right]].
      unfold xsp. replace (rd =? 31) with false by lia. rewrite Hv, u64_l. f_equal. fold (xsp s rn).
      unfold sgn. case_match; lia.
Qed.

Lemma add_sub_i_computes rd rn off s :
  0 ≤ rd < 31 → - 2 ^ 24 < off < 2 ^ 24 → a64_ok s →
  a64_computes (snd (emit_add_sub_i rd rn off)) rd s (xsp s rn + off).
Proof.
  intros Hr Ho [Hsp Hx]. unfold emit_add_sub_i. change SHIFTED_ADD_SUB_MAX with (2 ^ 24 - 1).
  destruct (Z.eqb_spec off 0) as [->|Hne]; cbn [snd].
  - rewrite Z.add_0_r. destruct (Z.eqb_spec rd rn) as [<-|Hrn]; cbn [negb].
    + exists s. split_and!; [done | | done | done]. unfold xsp. replace (rd =? 31) with false by lia.
      by rewrite u64_small by apply Hx.
    + unfold emit_mov, xsp. change sp with 31. destruct (Z.eqb_spec rn 31) as [->|]; apply a64_write; [done | | done |]; cbn [a64_exec].
      * transitivity (Some (set_xreg rd (sp_value s + 0) s)); [by rewrite set_xsp_reg | by rewrite Z.add_0_r].
      * unfold xreg. rewrite (proj2 (Z.eqb_neq rn 31)) by done. change (0x1F =? 31) with true. by rewrite Z.lor_0_l.
  - replace ((off <? - (2 ^ 24 - 1)) || (2 ^ 24 - 1 <? off)) with false by lia.
    destruct (Z.ltb_spec off 0); cbn [snd].
    + eapply a64_computes_ext; [|apply shifted_computes; lia]. f_equal. unfold sgn. simpl. lia.
    + apply (shifted_computes 0); lia.
Qed.

(** *** Generated addresses *)

Definition pushed_bytes (c : a64_ctx) (rn : Z) : Z := if rn =? 31 then 8 * plugin_pushed_reg_count c else 0.

Lemma generate_imm c reg rn off s :
  0 ≤ reg < 31 → - 2 ^ 17 < off < 2 ^ 20 → 0 ≤ plugin_pushed_reg_count c ≤ 511 → a64_ok s →
  ∃ l, _generate_addr c reg rn reg_invalid off = Ok l ∧ a64_computes l reg s (xsp s rn + pushed_bytes c rn + off).
Proof.
  intros Hr Ho Hp Hs. unfold _generate_addr. change (negb (reg_invalid =? sp)) with true. cbn [c_assert mbind outcome_bind].
  change ((reg_invalid <=? - reg_invalid) || (reg_invalid <=? reg_invalid)) with true. eexists. split; [done|].
  assert ((if rn =? sp then s32 (plugin_pushed_reg_count c * 8) else 0) = pushed_bytes c rn) as ->.
  { unfold pushed_bytes. change sp with 31. destruct (rn =? 31); [|done]. rewrite s32_small by lia. lia. }
  assert (0 ≤ pushed_bytes c rn ≤ 4088) by (unfold pushed_bytes; destruct (rn =? 31); lia).
  eapply a64_computes_ext; [|apply add_sub_i_computes; [done|lia|done]]. f_equal. lia.
Qed.

Lemma generate_reg c reg rn rm opt shift s :
  0 ≤ reg < 31 → 0 ≤ rm < 31 → 0 ≤ opt < 8 → 0 ≤ shift ≤ 4 → 0 ≤ plugin_pushed_reg_count c ≤ 511 → a64_ok s →
  ∃ l, _generate_addr c reg rn rm (Z.lor (Z.shiftl shift 3) opt) = Ok l
    ∧ a64_computes l reg s (xsp s rn + pushed_bytes c rn + extend_reg opt (xreg s rm) * 2 ^ shift).
Proof.
  intros Hr Hm Hopt Hsh Hp Hs. unfold _generate_addr. change sp with 31. replace (negb (rm =? 31)) with true by lia.
  cbn [c_assert mbind outcome_bind].
  replace ((rm <=? - reg_invalid) || (reg_invalid <=? rm)) with false by (unfold reg_invalid; lia).
  assert (Z.land (Z.lor (Z.shiftl shift 3) opt) 7 = opt ∧ Z.shiftr (Z.lor (Z.shiftl shift 3) opt) 3 = shift) as [-> ->].
  { assert (forall_range 0 5 (λ sh, forall_range 0 8 (λ o,
      (Z.land (Z.lor (Z.shiftl sh 3) o) 7 =? o) && (Z.shiftr (Z.lor (Z.shiftl sh 3) o) 3 =? sh))) = true) as Hall by by vm_compute.
    pose proof (forall_range_spec _ _ _ shift Hall ltac:(lia)) as H1. simpl in H1.
    pose proof (forall_range_spec _ _ _ opt H1 ltac:(lia)) as H2. simpl in H2. lia. }
  unfold emit_a64_add_sub_ext. replace (rm <? 0) with false by lia. rewrite Z.abs_eq by lia.
  replace ((4 <? shift) || (shift <? 0)) with false by lia. cbn [snd].
  assert (a64_computes [ADD_SUB_ext_reg 1 0 0 rm opt shift rn reg] reg s (xsp s rn + extend_reg opt (xreg s rm) * 2 ^ shift)) as Hadd.
  { apply a64_write; [done|]. cbn [a64_exec]. by rewrite set_xsp_reg. }
  assert ((if rn =? 31 then s32 (plugin_pushed_reg_count c * 8) else 0) = pushed_bytes c rn) as ->.
  { unfold pushed_bytes. destruct (rn =? 31); [|done]. rewrite s32_small by lia. lia. }
  assert (0 ≤ pushed_bytes c rn ≤ 4088) as Hb by (unfold pushed_bytes; destruct (rn =? 31); lia).
  destruct (Z.eqb_spec (pushed_bytes c rn) 0) as [H0|H0]; cbn [negb].
  - eexists. split; [done|]. by rewrite H0, Z.add_0_r.
  - replace ((pushed_bytes c rn <=? 0xFFF) && (0 <? pushed_bytes c rn)) with true by lia.
    cbn [c_assert mbind outcome_bind]. eexists. split; [done|]. eapply a64_computes_app; [done|].
    intros s' Hv Hsp Ho. assert (a64_ok s') as Hs'.
    { destruct Hs as [? Hx]. split; [by rewrite Hsp|]. intros n. destruct (decide (n = reg)) as [->|Hn];
        [rewrite Hv; apply u64_range | by rewrite Ho]. }
    eapply a64_computes_ext; [|apply add_sub_i_computes; [done|lia|done]].
    unfold xsp at 1. replace (reg =? 31) with false by lia. rewrite Hv, u64_l. f_equal. lia.
Qed.

(** ** The manual

    The address of an access by the bit positions of the Arm manual, in the
    state of the application: [sp] before the plugin pushed registers. *)

Definition a64_scale (w : Z) : Z :=
  slice 30 2 w + (if (slice 26 1 w =? 1) && (slice 23 1 w =? 1) then 4 else 0).

Definition a64_address (c : a64_ctx) (s : a64_machine) (i : a64_instruction) : Z :=
  let w := a64_word c in
  let base := xsp s (slice 5 5 w) + pushed_bytes c (slice 5 5 w) in
  match i with
  | A64_LDR_LIT => read_address c + signed 19 (slice 5 19 w) * 4
  | A64_LDP_STP =>
      let scale := 2 + (if slice 26 1 w =? 1 then slice 30 2 w else slice 31 1 w) in
      base + (if slice 23 2 w =? 1 then 0 else signed 7 (slice 15 7 w) * 2 ^ scale)
  | A64_LDR_STR_UNSIGNED_IMMED => base + slice 10 12 w * 2 ^ a64_scale w
  | A64_LDR_STR_IMMED => base + (if slice 10 2 w =? 1 then 0 else signed 9 (slice 12 9 w))
  | A64_LDR_STR_REG =>
      base + extend_reg (slice 13 3 w) (xreg s (slice 16 5 w)) * 2 ^ (if slice 12 1 w =? 1 then a64_scale w else 0)
  | _ => base
  end.

(** The architecture allocates no access of more than 16 bytes. *)
Definition a64_allocated (c : a64_ctx) : Prop := a64_scale (a64_word c) ≤ 4.

(** An instruction with an address in the API. *)
Definition has_address (i : a64_instruction) : bool :=
  match i with A64_LDSMAX | A64_LDSMIN | A64_LDUMAX | A64_LDUMIN | A64_OTHER _ => false | _ => true end.

Ltac a64_decode := unfold afield in *; cbn [a64_txt] in *; fields.

Lemma access_scale_spec w : access_scale (slice 26 1 w) (slice 22 2 w) (slice 30 2 w) = a64_scale w.
Proof.
  unfold access_scale, a64_scale. rewrite (Z.add_comm (slice 30 2 w)). f_equal.
  rewrite Z.shiftr_div_pow2 by done. destruct (slice_parts 22 1 1 w) as [E _]; [done..|]. change (1 + 1) with 2 in E. rewrite E. change (22 + 1) with 23.
  pose proof (slice_range 26 1 w ltac:(lia)) as H1. pose proof (slice_range 23 1 w ltac:(lia)) as H2.
  assert (slice 26 1 w = 0 ∨ slice 26 1 w = 1) as [-> | ->] by lia;
  assert (slice 23 1 w = 0 ∨ slice 23 1 w = 1) as [-> | ->] by lia; done.
Qed.

(** The immediates, with the bounds that keep the generated code in range. *)
Lemma sign_extend32_slice pos w x :
  0 < w ≤ 32 → sign_extend32 w (slice pos w x) = signed w (slice pos w x).
Proof. intros. apply sign_extend32_signed; [done|]. apply slice_range. lia. Qed.

Lemma ldp_scale v opc w :
  v = slice 26 1 w → opc = slice 30 2 w →
  2 + Z.shiftr opc (1 - v) = 2 + (if slice 26 1 w =? 1 then slice 30 2 w else slice 31 1 w).
Proof.
  intros -> ->. f_equal. pose proof (slice_range 26 1 w ltac:(lia)) as H1.
  assert (slice 26 1 w = 0 ∨ slice 26 1 w = 1) as [-> | ->] by lia; simpl; [|by rewrite Z.shiftr_0_r].
  rewrite Z.shiftr_div_pow2 by done. destruct (slice_parts 30 1 1 w) as [E _]; done.
Qed.

Lemma scaled_bound x k n m : - 2 ^ n ≤ x < 2 ^ n → 0 ≤ k ≤ m → 0 ≤ n → - 2 ^ (n + m) ≤ x * 2 ^ k < 2 ^ (n + m).
Proof.
  intros Hx Hk Hn. assert (2 ^ k ≤ 2 ^ m) by (apply Z.pow_le_mono_r; lia).
  assert (0 < 2 ^ k) by (apply Z.pow_pos_nonneg; lia). rewrite Z.pow_add_r by lia. nia.
Qed.

Lemma literal_address pc imm :
  u64 (u64 (pc + u64 (Z.shiftl (u64 imm) 2))) = u64 (pc + imm * 4).
Proof.
  rewrite Z.shiftl_mul_pow2 by done. unfold u64. rewrite Zmod_mod, Zplus_mod_idemp_r.
  by rewrite <- Zplus_mod_idemp_r, Zmult_mod_idemp_l, Zplus_mod_idemp_r.
Qed.

Lemma extend_reg_0 option : extend_reg option 0 = 0.
Proof. unfold extend_reg. by repeat case_match. Qed.

Lemma a64_scale_nonneg w : 0 ≤ a64_scale w.
Proof. unfold a64_scale. pose proof (slice_range 30 2 w ltac:(lia)). case_match; lia. Qed.



(** ** Which instructions load and store *)

(** By the Arm manual: prefetches access nothing; compare-and-swap (CAS, and
    CASP for sizes below 2) and the atomic operations load and store. *)
Definition compare_and_swap (w : Z) : bool :=
  (slice 21 1 w =? 1) && ((slice 23 1 w =? 1) || (slice 31 1 w =? 0)).
Definition a64_accesses (c : a64_ctx) (i : a64_instruction) : bool * bool :=
  let w := a64_word c in
  let by_bit_22 := (slice 22 1 w =? 1, slice 22 1 w =? 0) in
  match i with
  | A64_LDR_LIT => if (slice 26 1 w =? 0) && (slice 30 2 w =? 3) then (false, false) else (true, false)
  | A64_LDR_STR_IMMED | A64_LDR_STR_REG | A64_LDR_STR_UNSIGNED_IMMED =>
      if slice 26 1 w =? 1 then by_bit_22
      else if (slice 30 2 w =? 3) && (slice 22 2 w =? 2) then (false, false)
      else (negb (slice 22 2 w =? 0), slice 22 2 w =? 0)
  | A64_LDX_STX => if compare_and_swap w then (true, true) else by_bit_22
  | A64_LDP_STP | A64_LDX_STX_MULTIPLE | A64_LDX_STX_MULTIPLE_POST | A64_LDX_STX_SINGLE | A64_LDX_STX_SINGLE_POST =>
      by_bit_22
  | A64_OTHER _ => (false, false)
  | _ => (true, true)
  end.

(** STR of a 128-bit register, and the atomic maxima and minima. *)
Definition quad_store (c : a64_ctx) (i : a64_instruction) : bool :=
  match i with
  | A64_LDR_STR_IMMED | A64_LDR_STR_REG | A64_LDR_STR_UNSIGNED_IMMED =>
      (slice 26 1 (a64_word c) =? 1) && (slice 22 2 (a64_word c) =? 2)
  | _ => false
  end.
Definition min_max (i : a64_instruction) : bool :=
  match i with A64_LDSMAX | A64_LDSMIN | A64_LDUMAX | A64_LDUMIN => true | _ => false end.
Definition is_cas (c : a64_ctx) (i : a64_instruction) : bool :=
  match i with A64_LDX_STX => compare_and_swap (a64_word c) | _ => false end.

Lemma bit_slice n x : 0 ≤ n → (Z.land x (Z.shiftl 1 n) =? 0) = (slice n 1 x =? 0).
Proof.
  intros Hn. unfold slice. change (2 ^ 1) with 2. rewrite <- Z.testbit_spec' by done.
  destruct (Z.testbit x n) eqn:Hb.
  - apply Z.eqb_neq. intros H. apply (f_equal (λ z, Z.testbit z n)) in H.
    by rewrite Z.land_spec, Hb, Z.shiftl_1_l, Z.pow2_bits_true, Z.bits_0 in H.
  - apply Z.eqb_eq. apply Z.bits_inj'. intros m Hm. rewrite Z.land_spec, Z.shiftl_1_l, Z.bits_0.
    rewrite Z.pow2_bits_eqb by done. destruct (Z.eqb_spec n m) as [<-|]; [by rewrite Hb | apply andb_false_r].
Qed.

Lemma load_bit c : (if negb (Z.land (a64_word c) IS_LOAD =? 0) then (true, false) else (false, true))
  = (slice 22 1 (a64_word c) =? 1, slice 22 1 (a64_word c) =? 0).
Proof.
  unfold IS_LOAD. rewrite bit_slice by done. pose proof (slice_range 22 1 (a64_word c) ltac:(lia)).
  assert (slice 22 1 (a64_word c) = 0 ∨ slice 22 1 (a64_word c) = 1) as [-> | ->] by lia; done.
Qed.

Lemma opc_bit w : slice 22 2 w = 2 * slice 23 1 w + slice 22 1 w.
Proof. change 2 with (1 + 1) at 1. rewrite slice_split by done. change (22 + 1) with 23. lia. Qed.

(** Loads and stores of A64. [mambo_is_load] and [mambo_is_store] agree with
    the Arm manual except in three cases: a store of a 128-bit register is
    reported as a load, because its opc field is not zero; a compare-and-swap
    is reported as a load only or a store only, by its acquire bit, and the
    size of CAS is doubled; and the atomic maxima and minima, which the decoder
    knows, are reported as no access. *)
Theorem a64_load_store_classes c i :
  code_inst c = Some i →
  let claimed := (mambo_is_load c, mambo_is_store c) in
  (quad_store c i = false → is_cas c i = false → min_max i = false → claimed = a64_accesses c i)
  ∧ (quad_store c i = true → claimed = (true, false) ∧ a64_accesses c i = (false, true))
  ∧ (is_cas c i = true → a64_accesses c i = (true, true)
      ∧ claimed = (slice 22 1 (a64_word c) =? 1, slice 22 1 (a64_word c) =? 0)
      ∧ mambo_get_ld_st_size c = Ok (2 * 2 ^ slice 30 2 (a64_word c)))
  ∧ (min_max i = true → claimed = (false, false) ∧ a64_accesses c i = (true, true) ∧ mambo_get_ld_st_size c = Ok (-1)).
Proof.
  intros Hi. unfold mambo_is_load, mambo_is_store, _a64_is_load_or_store, mambo_get_ld_st_size, _a64_get_ld_st_size.
  rewrite Hi. rewrite load_bit. set (w := a64_word c).
  pose proof (slice_range 22 1 w ltac:(lia)) as B1. pose proof (slice_range 23 1 w ltac:(lia)) as B2.
  pose proof (slice_range 26 1 w ltac:(lia)) as B3. pose proof (opc_bit w) as Hopc.
  assert (slice 22 1 w = 0 ∨ slice 22 1 w = 1) as C1 by lia. assert (slice 23 1 w = 0 ∨ slice 23 1 w = 1) as C2 by lia.
  assert (slice 26 1 w = 0 ∨ slice 26 1 w = 1) as C3 by lia. clear B1 B2 B3.
  assert (Z.land (Z.shiftr w 22) 3 = slice 22 2 w) as Hland
    by (unfold slice; rewrite <- (Z.shiftr_div_pow2 w 22) by done; exact (land_pow2_mask (Z.shiftr w 22) 2 ltac:(lia))).
  unfold a64_accesses, quad_store, is_cas, min_max.
  split_and!; destruct i; try done; a64_decode; fold w; rewrite ?Hland; cbn [fst snd].
  all: try (rewrite Hopc; destruct C1 as [-> | ->], C2 as [-> | ->], C3 as [-> | ->]; simpl;
            by destruct (slice 30 2 w =? 3)).
  - intros _ Hc _. by rewrite Hc.
  - intros _ _ _. by destruct (slice 26 1 w =? 0), (slice 30 2 w =? 3).
  - intros Hc. rewrite Hc. split_and!; [done..|]. unfold compare_and_swap in Hc. apply andb_true_iff in Hc as [Hc _].
    apply Z.eqb_eq in Hc as ->. rewrite Z.shiftl_1_l, Z.pow_add_r by (done || apply slice_range; lia). f_equal. lia.
Qed.

Lemma a64_load_store_classes_witness :
  (* str q0, [sp] *)
  let c := MkCodeCtx (Some A64_LDR_STR_UNSIGNED_IMMED) (λ k, if k =? 0 then 0x03E0 else 0x3D80) 0x1000 0 in
  (mambo_is_load c, mambo_is_store c) = (true, false) ∧ a64_accesses c A64_LDR_STR_UNSIGNED_IMMED = (false, true).
Proof. intros c. apply (a64_load_store_classes c A64_LDR_STR_UNSIGNED_IMMED); reflexivity. Defined.
End LoadStoreA64.
