(* ===== verification/A64Inst.v ===== *)
(** * The A64 instructions that PIE decodes (pie/a64.txt)

    PIE generates the enumeration of the instructions from its list, in the order
    of the list. The encodings are those whose fields the scanner reads. *)
From S2P Require Import Prelude Pie.
From Stdlib Require Import String.

Module A64Inst.

(** [a64_instruction] of pie-a64-decoder.h, a constructor per line of a64.txt
    and one for words that do not decode. *)
Inductive a64_instruction :=
  | A64_CBZ_CBNZ | A64_B_COND | A64_SVC | A64_HVC | A64_SMC | A64_BRK | A64_HLT | A64_DCPS1 | A64_DCPS2
  | A64_DCPS3 | A64_MSR_IMMED | A64_HINT | A64_CLREX | A64_DSB | A64_DMB | A64_ISB | A64_SYS
  | A64_MRS_MSR_REG | A64_SYSL | A64_TBZ_TBNZ | A64_B_BL | A64_BR | A64_BLR | A64_RET | A64_ERET | A64_DRPS
  | A64_LDX_STX | A64_LDR_LIT | A64_LDP_STP | A64_LDR_STR_IMMED | A64_LDR_STR_REG
  | A64_LDR_STR_UNSIGNED_IMMED | A64_LDX_STX_MULTIPLE | A64_LDX_STX_MULTIPLE_POST | A64_LDX_STX_SINGLE
  | A64_LDX_STX_SINGLE_POST | A64_LDADD | A64_LDCLR | A64_LDEOR | A64_LDSMAX | A64_LDSMIN | A64_LDUMAX
  | A64_LDUMIN | A64_LDSET | A64_SWP | A64_ADD_SUB_IMMED | A64_BFM | A64_EXTR | A64_LOGICAL_IMMED
  | A64_MOV_WIDE | A64_ADR | A64_ADD_SUB_EXT_REG | A64_ADD_SUB_SHIFT_REG | A64_ADC_SBC | A64_CCMP_CCMN_IMMED
  | A64_CCMP_CCMN_REG | A64_COND_SELECT | A64_DATA_PROC_REG1 | A64_DATA_PROC_REG2 | A64_DATA_PROC_REG3
  | A64_LOGICAL_REG | A64_SIMD_ACROSS_LANE | A64_SIMD_COPY | A64_SIMD_EXTRACT | A64_SIMD_MODIFIED_IMMED
  | A64_SIMD_PERMUTE | A64_SIMD_SCALAR_COPY | A64_SIMD_SCALAR_PAIRWISE | A64_SIMD_SCALAR_SHIFT_IMMED
  | A64_SIMD_SCALAR_THREE_DIFF | A64_SIMD_SCALAR_THREE_SAME | A64_SIMD_SCALAR_TWO_REG
  | A64_SIMD_SCALAR_X_INDEXED | A64_SIMD_SHIFT_IMMED | A64_SIMD_TABLE_LOOKUP | A64_SIMD_THREE_DIFF
  | A64_SIMD_THREE_SAME | A64_SIMD_TWO_REG | A64_SIMD_X_INDEXED | A64_CRYPTO_AES | A64_CRYPTO_SHA_REG3
  | A64_CRYPTO_SHA_REG2 | A64_FCMP | A64_FCCMP | A64_FCSEL | A64_FLOAT_REG1 | A64_FLOAT_REG2 | A64_FLOAT_REG3
  | A64_FMOV_IMMED | A64_FLOAT_CVT_FIXED | A64_FLOAT_CVT_INT | A64_INVALID.

(** The value of the C enumeration. *)
Definition enum (i : a64_instruction) : Z :=
  match i with
  | A64_CBZ_CBNZ => 0 | A64_B_COND => 1 | A64_SVC => 2 | A64_HVC => 3 | A64_SMC => 4 | A64_BRK => 5
  | A64_HLT => 6 | A64_DCPS1 => 7 | A64_DCPS2 => 8 | A64_DCPS3 => 9 | A64_MSR_IMMED => 10 | A64_HINT => 11
  | A64_CLREX => 12 | A64_DSB => 13 | A64_DMB => 14 | A64_ISB => 15 | A64_SYS => 16 | A64_MRS_MSR_REG => 17
  | A64_SYSL => 18 | A64_TBZ_TBNZ => 19 | A64_B_BL => 20 | A64_BR => 21 | A64_BLR => 22 | A64_RET => 23
  | A64_ERET => 24 | A64_DRPS => 25 | A64_LDX_STX => 26 | A64_LDR_LIT => 27 | A64_LDP_STP => 28
  | A64_LDR_STR_IMMED => 29 | A64_LDR_STR_REG => 30 | A64_LDR_STR_UNSIGNED_IMMED => 31
  | A64_LDX_STX_MULTIPLE => 32 | A64_LDX_STX_MULTIPLE_POST => 33 | A64_LDX_STX_SINGLE => 34
  | A64_LDX_STX_SINGLE_POST => 35 | A64_LDADD => 36 | A64_LDCLR => 37 | A64_LDEOR => 38 | A64_LDSMAX => 39
  | A64_LDSMIN => 40 | A64_LDUMAX => 41 | A64_LDUMIN => 42 | A64_LDSET => 43 | A64_SWP => 44
  | A64_ADD_SUB_IMMED => 45 | A64_BFM => 46 | A64_EXTR => 47 | A64_LOGICAL_IMMED => 48 | A64_MOV_WIDE => 49
  | A64_ADR => 50 | A64_ADD_SUB_EXT_REG => 51 | A64_ADD_SUB_SHIFT_REG => 52 | A64_ADC_SBC => 53
  | A64_CCMP_CCMN_IMMED => 54 | A64_CCMP_CCMN_REG => 55 | A64_COND_SELECT => 56 | A64_DATA_PROC_REG1 => 57
  | A64_DATA_PROC_REG2 => 58 | A64_DATA_PROC_REG3 => 59 | A64_LOGICAL_REG => 60 | A64_SIMD_ACROSS_LANE => 61
  | A64_SIMD_COPY => 62 | A64_SIMD_EXTRACT => 63 | A64_SIMD_MODIFIED_IMMED => 64 | A64_SIMD_PERMUTE => 65
  | A64_SIMD_SCALAR_COPY => 66 | A64_SIMD_SCALAR_PAIRWISE => 67 | A64_SIMD_SCALAR_SHIFT_IMMED => 68
  | A64_SIMD_SCALAR_THREE_DIFF => 69 | A64_SIMD_SCALAR_THREE_SAME => 70 | A64_SIMD_SCALAR_TWO_REG => 71
  | A64_SIMD_SCALAR_X_INDEXED => 72 | A64_SIMD_SHIFT_IMMED => 73 | A64_SIMD_TABLE_LOOKUP => 74
  | A64_SIMD_THREE_DIFF => 75 | A64_SIMD_THREE_SAME => 76 | A64_SIMD_TWO_REG => 77 | A64_SIMD_X_INDEXED => 78
  | A64_CRYPTO_AES => 79 | A64_CRYPTO_SHA_REG3 => 80 | A64_CRYPTO_SHA_REG2 => 81 | A64_FCMP => 82
  | A64_FCCMP => 83 | A64_FCSEL => 84 | A64_FLOAT_REG1 => 85 | A64_FLOAT_REG2 => 86 | A64_FLOAT_REG3 => 87
  | A64_FMOV_IMMED => 88 | A64_FLOAT_CVT_FIXED => 89 | A64_FLOAT_CVT_INT => 90 | A64_INVALID => 91
  end.

Lemma a64_enum_inj i j : enum i = enum j → i = j.
Proof.
  set (all := [
    A64_CBZ_CBNZ; A64_B_COND; A64_SVC; A64_HVC; A64_SMC; A64_BRK; A64_HLT; A64_DCPS1; A64_DCPS2; A64_DCPS3;
    A64_MSR_IMMED; A64_HINT; A64_CLREX; A64_DSB; A64_DMB; A64_ISB; A64_SYS; A64_MRS_MSR_REG; A64_SYSL;
    A64_TBZ_TBNZ; A64_B_BL; A64_BR; A64_BLR; A64_RET; A64_ERET; A64_DRPS; A64_LDX_STX; A64_LDR_LIT;
    A64_LDP_STP; A64_LDR_STR_IMMED; A64_LDR_STR_REG; A64_LDR_STR_UNSIGNED_IMMED; A64_LDX_STX_MULTIPLE;
    A64_LDX_STX_MULTIPLE_POST; A64_LDX_STX_SINGLE; A64_LDX_STX_SINGLE_POST; A64_LDADD; A64_LDCLR; A64_LDEOR;
    A64_LDSMAX; A64_LDSMIN; A64_LDUMAX; A64_LDUMIN; A64_LDSET; A64_SWP; A64_ADD_SUB_IMMED; A64_BFM; A64_EXTR;
    A64_LOGICAL_IMMED; A64_MOV_WIDE; A64_ADR; A64_ADD_SUB_EXT_REG; A64_ADD_SUB_SHIFT_REG; A64_ADC_SBC;
    A64_CCMP_CCMN_IMMED; A64_CCMP_CCMN_REG; A64_COND_SELECT; A64_DATA_PROC_REG1; A64_DATA_PROC_REG2;
    A64_DATA_PROC_REG3; A64_LOGICAL_REG; A64_SIMD_ACROSS_LANE; A64_SIMD_COPY; A64_SIMD_EXTRACT;
    A64_SIMD_MODIFIED_IMMED; A64_SIMD_PERMUTE; A64_SIMD_SCALAR_COPY; A64_SIMD_SCALAR_PAIRWISE;
    A64_SIMD_SCALAR_SHIFT_IMMED; A64_SIMD_SCALAR_THREE_DIFF; A64_SIMD_SCALAR_THREE_SAME;
    A64_SIMD_SCALAR_TWO_REG; A64_SIMD_SCALAR_X_INDEXED; A64_SIMD_SHIFT_IMMED; A64_SIMD_TABLE_LOOKUP;
    A64_SIMD_THREE_DIFF; A64_SIMD_THREE_SAME; A64_SIMD_TWO_REG; A64_SIMD_X_INDEXED; A64_CRYPTO_AES;
    A64_CRYPTO_SHA_REG3; A64_CRYPTO_SHA_REG2; A64_FCMP; A64_FCCMP; A64_FCSEL; A64_FLOAT_REG1; A64_FLOAT_REG2;
    A64_FLOAT_REG3; A64_FMOV_IMMED; A64_FLOAT_CVT_FIXED; A64_FLOAT_CVT_INT; A64_INVALID]).
  assert (∀ i, all !! Z.to_nat (enum i) = Some i) as H by by intros [].
  intros He. pose proof (H i) as Hi. rewrite He, H in Hi. by injection Hi.
Qed.

#[global] Instance a64_instruction_eq_dec : EqDecision a64_instruction.
Proof.
  intros i j. destruct (decide (enum i = enum j)) as [He|He]; [left; by apply a64_enum_inj | right; congruence].
Defined.

(** Encodings of a64.txt. *)
Definition CBZ_CBNZ_TXT : string := "a011010b cccccccc cccccccc cccddddd".
Definition B_COND_TXT : string := "01010100 aaaaaaaa aaaaaaaa aaa0bbbb".
Definition MRS_MSR_REG_TXT : string := "11010101 00a1bccc ddddeeee fffggggg".
Definition TBZ_TBNZ_TXT : string := "a011011b cccccddd dddddddd dddeeeee".
Definition B_BL_TXT : string := "a00101bb bbbbbbbb bbbbbbbb bbbbbbbb".
Definition BR_TXT : string := "11010110 00011111 000000aa aaa00000".
Definition LDR_LIT_TXT : string := "aa011b00 cccccccc cccccccc cccddddd".
Definition ADR_TXT : string := "abb10000 cccccccc cccccccc cccddddd".
End A64Inst.
