(* ===== verification/A64Asm.v ===== *)
(** * An AArch64 machine for emitted code

    The scanner of AArch64 writes instructions into the code cache as the
    arguments of PIE's encoders, next to instructions of the application that it
    copies. The file gives the emitted ones the meaning of the Arm manual, on the
    general-purpose registers of LoadStoreA64 with memory, vector registers,
    flags and the thread register, and says what code in memory does. States are
    compared up to [≡], since registers and memory are functions. *)
From stdpp Require Import relations.
From S2P Require Import Prelude RiscvImm RiscvAsm RiscvContext Pie LoadStoreA64.
Import RiscvAsm (load, store, load_store_8).
Import RiscvContext (load_ext).
Import LoadStoreA64.
#[local] Open Scope Z_scope.

Module A64Asm.

Definition lr : Z := 30.
Definition sp : Z := 31.
Definition xzr : Z := 31.

(** ** Instructions

    A constructor has the arguments of its encoder [a64_<name>]; the fields are
    cut to their width when the instruction is executed, as the encoder does.
    [Data] are those of LoadStoreA64; [Copied] is a word of the application. *)
Inductive inst :=
  | Data (i : a64_inst)
  | ADD_SUB_shift_reg (sf op s shift rm imm6 rn rd : Z)
  | logical_immed (sf opc n immr imms rn rd : Z)
  | LDP_STP (opc v type l imm7 rt2 rn rt : Z)
  | LDR_STR_immed (size v opc imm9 type rn rt : Z)
  | LDR_STR_unsigned_immed (size v opc imm12 rn rt : Z)
  | B_BL (op imm26 : Z)
  | B_cond (imm19 cond : Z)
  | CBZ_CBNZ (sf op imm19 rt : Z)
  | TBZ_TBNZ (b5 op b40 imm14 rt : Z)
  | BR (rn : Z)
  | BLR (rn : Z)
  | NOP
  | Copied (w : Z).

(** ** The machine *)

Record machine := MkMachine {
  pc : Z;
  gpr : a64_machine;
  vr : Z → Z;
  nzcv : Z;
  tpidr : Z;
  mem : Z → Z
}.

Definition X (s : machine) (r : Z) : Z := xreg (gpr s) r.
Definition set_pc (p : Z) (s : machine) : machine := MkMachine (u64 p) (gpr s) (vr s) (nzcv s) (tpidr s) (mem s).
Definition set_gpr (g : a64_machine) (s : machine) : machine := MkMachine (pc s) g (vr s) (nzcv s) (tpidr s) (mem s).
Definition set_x (r v : Z) (s : machine) : machine := set_gpr (set_xreg r v (gpr s)) s.
Definition set_sp (v : Z) (s : machine) : machine := set_gpr (MkA64 (xr (gpr s)) (u64 v)) s.
Definition set_v (r v : Z) (s : machine) : machine :=
  MkMachine (pc s) (gpr s) (λ k, if k =? r then v else vr s k) (nzcv s) (tpidr s) (mem s).
Definition set_tpidr (v : Z) (s : machine) : machine := MkMachine (pc s) (gpr s) (vr s) (nzcv s) v (mem s).
Definition set_mem (m : Z → Z) (s : machine) : machine := MkMachine (pc s) (gpr s) (vr s) (nzcv s) (tpidr s) m.
Definition sp_of (s : machine) : Z := sp_value (gpr s).
Definition next (s : machine) : machine := set_pc (pc s + 4) s.

(** [ConditionHolds] of the manual, on the flags N, Z, C, V from the top. *)
Definition cond_holds (cond flags : Z) : bool :=
  let n := Z.testbit flags 3 in let z := Z.testbit flags 2 in let c := Z.testbit flags 1 in let v := Z.testbit flags 0 in
  let result :=
    match cond / 2 with
    | 0 => z | 1 => c | 2 => n | 3 => v | 4 => c && negb z | 5 => eqb n v | 6 => eqb n v && negb z | _ => true
    end in
  if Z.odd cond && negb (cond =? 15) then negb result else result.

(** [DecodeBitMasks] for elements of 64 bits: [imms + 1] ones, rotated. *)
Definition bit_mask (immr imms : Z) : Z :=
  let ones := 2 ^ (imms + 1) - 1 in
  u64 (ones * 2 ^ (64 - immr)) + ones / 2 ^ immr.

Definition zero_reg (sf v : Z) : bool := if sf =? 0 then v mod 2 ^ 32 =? 0 else v =? 0.

(** A branch by a signed number of words. *)
Definition branch_by (w imm : Z) (s : machine) : machine := set_pc (pc s + signed w imm * 4) s.

(** The address of an access and the base register behind it: [type] 3 is
    pre-indexed, 1 post-indexed, the others leave the base. *)
Definition indexed (type base off : Z) : Z * Z :=
  if type =? 3 then (base + off, base + off) else if type =? 1 then (base, base + off) else (base + off, base).

Definition base_reg (rn : Z) (s : machine) : Z := xsp (gpr s) rn.
Definition set_base (rn v : Z) (s : machine) : machine := set_gpr (set_xsp rn v (gpr s)) s.

(** What [LDR_STR_unsigned_immed] accesses, by its size, V and opc fields: a
    general register (also with sign extension), nothing, or a vector register. *)
Inductive access := StoreX | LoadX (n : nat) | LoadSW | Prefetch | LoadV (n : nat).

Definition access_of (size v opc : Z) : option access :=
  match size, v, opc with
  | 3, 0, 0 => Some StoreX
  | 3, 0, 1 => Some (LoadX 8)
  | 2, 0, 1 => Some (LoadX 4)
  | 2, 0, 2 => Some LoadSW
  | 3, 0, 2 => Some Prefetch
  | 2, 1, 1 => Some (LoadV 4)
  | 3, 1, 1 => Some (LoadV 8)
  | 0, 1, 3 => Some (LoadV 16)
  | _, _, _ => None
  end.

(** The offset is in units of the access. *)
Definition scale (a : access) : Z :=
  match a with StoreX | Prefetch => 8 | LoadX n | LoadV n => Z.of_nat n | LoadSW => 4 end.

Definition perform (a : access) (addr rt : Z) (s : machine) : machine :=
  match a with
  | StoreX => set_mem (store 8 addr (X s rt) (mem s)) s
  | LoadX n => set_x rt (load n (mem s) addr) s
  | LoadSW => set_x rt (signed 32 (load 4 (mem s) addr)) s
  | Prefetch => s
  | LoadV n => set_v rt (load n (mem s) addr) s
  end.

Section exec.
(** Instructions of the application; [None] when they trap. *)
Context (app : Z → machine → option machine).

Definition exec (i : inst) (s : machine) : option machine :=
  match i with
  | Data i => g ← a64_exec i (gpr s); Some (next (set_gpr g s))
  | ADD_SUB_shift_reg sf op fl shift rm imm6 rn rd =>
      let v := X s rm * 2 ^ (imm6 mod 64) in
      if (sf =? 1) && (fl =? 0) && (shift =? 0)
      then Some (next (set_x rd (X s rn + (if op =? 0 then v else - v)) s)) else None
  | logical_immed sf opc n immr imms rn rd =>
      if (sf =? 1) && (opc =? 0) && (n =? 1)
      then Some (next (set_base rd (Z.land (X s rn) (bit_mask (immr mod 64) (imms mod 64))) s)) else None
  | LDP_STP opc v type l imm7 rt2 rn rt =>
      let '(a, b) := indexed type (base_reg rn s) (signed 7 imm7 * 8) in
      if (opc =? 2) && (v =? 0) then
        if l =? 0 then
          Some (next (set_base rn b (set_mem (store 8 (a + 8) (X s rt2) (store 8 a (X s rt) (mem s))) s)))
        else Some (next (set_x rt2 (load 8 (mem s) (a + 8)) (set_x rt (load 8 (mem s) a) (set_base rn b s))))
      else None
  | LDR_STR_immed size v opc imm9 type rn rt =>
      let '(a, b) := indexed type (base_reg rn s) (signed 9 imm9) in
      if (size =? 3) && (v =? 0) && (opc =? 0) then Some (next (set_base rn b (set_mem (store 8 a (X s rt) (mem s)) s)))
      else if (size =? 3) && (v =? 0) && (opc =? 1) then Some (next (set_x rt (load 8 (mem s) a) (set_base rn b s)))
      else None
  | LDR_STR_unsigned_immed size v opc imm12 rn rt =>
      a ← access_of size v opc;
      Some (next (perform a (base_reg rn s + imm12 mod 2 ^ 12 * scale a) rt s))
  | B_BL op imm26 => Some (branch_by 26 imm26 (if op =? 0 then s else set_x lr (pc s + 4) s))
  | B_cond imm19 cond => Some (if cond_holds cond (nzcv s) then branch_by 19 imm19 s else next s)
  | CBZ_CBNZ sf op imm19 rt => Some (if eqb (zero_reg sf (X s rt)) (op =? 0) then branch_by 19 imm19 s else next s)
  | TBZ_TBNZ b5 op b40 imm14 rt =>
      Some (if eqb (Z.testbit (X s rt) (b5 * 32 + b40)) (negb (op =? 0)) then branch_by 14 imm14 s else next s)
  | BR rn => Some (set_pc (X s rn) s)
  | BLR rn => Some (set_pc (X s rn) (set_x lr (pc s + 4) s))
  | NOP => Some (next s)
  | Copied w => app w s
  end.
End exec.

(** ** States that cannot be told apart *)

Record same_gpr (g g' : a64_machine) : Prop := {
  same_xr r : r ≠ 31 → xr g r = xr g' r;
  same_sp : sp_value g = sp_value g' }.
#[export] Instance gpr_equiv : Equiv a64_machine := same_gpr.

Record same_machine (s s' : machine) : Prop := {
  same_pc : pc s = pc s';
  same_regs : gpr s ≡ gpr s';
  same_vr r : vr s r = vr s' r;
  same_nzcv : nzcv s = nzcv s';
  same_tpidr : tpidr s = tpidr s';
  same_mem a : mem s a = mem s' a }.
#[export] Instance machine_equiv : Equiv machine := same_machine.

#[export] Instance gpr_equivalence : Equivalence (≡@{a64_machine}).
Proof.
  split.
  - intros g. by split.
  - intros g g' []. split; [|done]. intros r Hr. symmetry. auto.
  - intros g1 g2 g3 [] []. split; [|congruence]. intros r Hr. transitivity (xr g2 r); auto.
Qed.
#[export] Instance machine_equivalence : Equivalence (≡@{machine}).
Proof.
  split.
  - intros s. by split.
  - intros s s' []. by split.
  - intros s1 s2 s3 [] []. split; try congruence. by etrans.
Qed.

(** *** Accesses and updates respect it *)

Notation memeq := (pointwise_relation Z (=)).

Lemma xreg_equiv g g' r : g ≡ g' → xreg g r = xreg g' r.
Proof. intros [H _]. unfold xreg. destruct (Z.eqb_spec r 31); [done | by apply H]. Qed.
Lemma xsp_equiv g g' r : g ≡ g' → xsp g r = xsp g' r.
Proof. intros [H ?]. unfold xsp. destruct (Z.eqb_spec r 31); [done | by apply H]. Qed.
Lemma X_equiv s s' r : s ≡ s' → X s r = X s' r.
Proof. intros [_ H _ _ _ _]. by apply xreg_equiv. Qed.
Lemma sp_equiv s s' : s ≡ s' → sp_of s = sp_of s'.
Proof. by intros [_ [_ ?] _ _ _ _]. Qed.
Lemma base_reg_equiv s s' r : s ≡ s' → base_reg r s = base_reg r s'.
Proof. intros [_ H _ _ _ _]. by apply xsp_equiv. Qed.
Lemma pc_equiv s s' : s ≡ s' → pc s = pc s'.
Proof. by intros []. Qed.
Lemma load_equiv n s s' a : s ≡ s' → load n (mem s) a = load n (mem s') a.
Proof. intros [_ _ _ _ _ H]. apply load_ext. intros. apply H. Qed.

#[export] Instance set_xreg_proper r v : Proper ((≡) ==> (≡)) (set_xreg r v).
Proof.
  intros g g' [H1 H2]. unfold set_xreg. destruct (r =? 31); [done|]. split; [|done]. intros k Hk. cbn [xr].
  destruct (k =? r); [done | by apply H1].
Qed.
#[export] Instance set_xsp_proper r v : Proper ((≡) ==> (≡)) (set_xsp r v).
Proof. intros g g' [H1 H2]. unfold set_xsp. destruct (r =? 31); [by split | by apply set_xreg_proper]. Qed.

#[export] Instance set_pc_proper p : Proper ((≡) ==> (≡)) (set_pc p).
Proof. intros s s' []. by split. Qed.
#[export] Instance next_proper : Proper ((≡) ==> (≡)) next.
Proof. intros s s' H. unfold next. by rewrite (pc_equiv _ _ H), H. Qed.
#[export] Instance set_gpr_proper : Proper ((≡) ==> (≡) ==> (≡)) set_gpr.
Proof. intros g g' Hg s s' []. by split. Qed.
#[export] Instance set_x_proper r v : Proper ((≡) ==> (≡)) (set_x r v).
Proof. intros s s' H. unfold set_x. apply set_gpr_proper; [|done]. apply set_xreg_proper. by destruct H. Qed.
#[export] Instance set_base_proper r v : Proper ((≡) ==> (≡)) (set_base r v).
Proof. intros s s' H. unfold set_base. apply set_gpr_proper; [|done]. apply set_xsp_proper. by destruct H. Qed.
#[export] Instance set_sp_proper v : Proper ((≡) ==> (≡)) (set_sp v).
Proof. intros s s' H. unfold set_sp. apply set_gpr_proper; [|done]. destruct H as [_ [? _] _ _ _ _]. by split. Qed.
#[export] Instance set_v_proper r v : Proper ((≡) ==> (≡)) (set_v r v).
Proof. intros s s' [? ? H ? ? ?]. split; try done. intros k. cbn [set_v vr]. destruct (k =? r); [done | apply H]. Qed.
#[export] Instance set_tpidr_proper v : Proper ((≡) ==> (≡)) (set_tpidr v).
Proof. intros s s' []. by split. Qed.
#[export] Instance set_mem_proper : Proper (memeq ==> (≡) ==> (≡)) set_mem.
Proof. intros m m' Hm s s' []. by split. Qed.
#[export] Instance branch_by_proper w imm : Proper ((≡) ==> (≡)) (branch_by w imm).
Proof. intros s s' H. unfold branch_by. by rewrite (pc_equiv _ _ H), H. Qed.

Lemma store_mem n : ∀ a v m m', memeq m m' → memeq (store n a v m) (store n a v m').
Proof.
  induction n as [|n IH]; intros a v m m' H; [done|]. cbn [store]. apply IH. intros k. by destruct (k =? u64 a).
Qed.
#[export] Instance store_proper n a v : Proper (memeq ==> memeq) (store n a v).
Proof. intros m m'. apply store_mem. Qed.

Lemma a64_exec_equiv i g g' : g ≡ g' → a64_exec i g ≡ a64_exec i g'.
Proof.
  intros H. assert (∀ r, xreg g r = xreg g' r) as Hx by (intros; by apply xreg_equiv).
  assert (∀ r, xsp g r = xsp g' r) as Hs by (intros; by apply xsp_equiv).
  destruct i; cbn [a64_exec]; repeat case_match; try done; rewrite ?Hx, ?Hs; constructor; by rewrite H.
Qed.

Section code.
Context (app : Z → machine → option machine) {Happ : ∀ w, Proper ((≡) ==> (≡)) (app w)}.
Notation exec := (exec app).

Lemma perform_equiv a addr rt s s' : s ≡ s' → perform a addr rt s ≡ perform a addr rt s'.
Proof using.
  intros H. assert (memeq (mem s) (mem s')) as Hm by (intros k; by apply same_mem).
  destruct a; unfold perform; rewrite ?(X_equiv s s' _ H), ?(load_equiv _ s s' _ H).
  - by rewrite Hm, H.
  - by rewrite H.
  - by rewrite H.
  - done.
  - by rewrite H.
Qed.

#[export] Instance exec_proper i : Proper ((≡) ==> (≡)) (exec i).
Proof using Happ.
  intros s s' H. assert (∀ r, X s r = X s' r) as Hx by (intros; by apply X_equiv).
  assert (memeq (mem s) (mem s')) as Hm by (intros a; by apply same_mem).
  assert (nzcv s = nzcv s') as Hf by by destruct H. pose proof (pc_equiv _ _ H) as Hp.
  destruct i; unfold A64Asm.exec; rewrite ?Hx, ?(base_reg_equiv _ _ _ H), ?(load_equiv _ _ _ _ H), ?Hf, ?Hp.
  - assert (a64_exec i (gpr s) ≡ a64_exec i (gpr s')) as He by (apply a64_exec_equiv; by destruct H).
    destruct He as [g g' Hg|]; [|done]. simpl. constructor. by rewrite H, Hg.
  - case_match; [|done]. constructor. by rewrite H.
  - case_match; [|done]. constructor. by rewrite H.
  - destruct (indexed _ _ _) as [a b]. case_match; [|done]. rewrite !(load_equiv _ _ _ _ H).
    case_match; constructor; by rewrite ?Hm, H.
  - destruct (indexed _ _ _) as [a b]. case_match; [constructor; by rewrite Hm, H|]. rewrite (load_equiv _ _ _ _ H).
    case_match; [|done]. constructor. by rewrite H.
  - destruct (access_of _ _ _); [|done]. simpl. constructor. by rewrite (perform_equiv _ _ _ _ _ H).
  - constructor. case_match; by rewrite H.
  - constructor. case_match; by rewrite H.
  - constructor. case_match; by rewrite H.
  - constructor. case_match; by rewrite H.
  - constructor. by rewrite H.
  - constructor. by rewrite H.
  - constructor. by rewrite H.
  - by apply Happ.
Qed.
End code.
End A64Asm.
