(* ===== verification/A64Code.v ===== *)
(** * AArch64 code in memory

    Writing of words into the code cache, and what they do when they are
    executed: [goes text s t] says that execution from [s] reaches [t], up to
    [≡]. The state behind the sequences that the scanner emits (constants,
    pushes and pops) is given by equations. *)
From stdpp Require Import relations.
From S2P Require Import Prelude RiscvAsm RiscvEmit Pie LoadStoreA64 A64Asm.
Import RiscvAsm (load, store).
Import RiscvEmit (u64_u64, u64_add_l).
Import LoadStoreA64 A64Asm.
#[local] Open Scope Z_scope.

Module A64Code.

(** ** Code memory

    All code is words at multiples of four. *)

Definition cmem := Z → option inst.

Definition put (a : Z) (i : inst) (m : cmem) : cmem := λ k, if k =? a then Some i else m k.

Fixpoint place (a : Z) (l : list inst) (m : cmem) : cmem :=
  match l with [] => m | i :: l => place (a + 4) l (put a i m) end.

Fixpoint code_at (m : cmem) (a : Z) (l : list inst) : Prop :=
  match l with [] => True | i :: l => m a = Some i ∧ code_at m (a + 4) l end.

Definition code_size (l : list inst) : Z := 4 * Z.of_nat (length l).

(** The write pointer and the memory; a word that is left out, and written later. *)
Notation out := (Z * cmem)%type.
Definition emit (l : list inst) (st : out) : out := (fst st + code_size l, place (fst st) l (snd st)).
Definition skip (st : out) : out := (fst st + 4, snd st).
Definition patch (a : Z) (i : inst) (st : out) : out := (fst st, put a i (snd st)).

(** Words outside [[a, a + n)] are the same. *)
Definition keeps (a n : Z) (m m' : cmem) : Prop := ∀ k, k + 4 ≤ a ∨ a + n ≤ k → m' k = m k.

Lemma a64_code_size_cons i l : code_size (i :: l) = 4 + code_size l.
Proof. unfold code_size. simpl length. lia. Qed.
Lemma a64_code_size_app l1 l2 : code_size (l1 ++ l2) = code_size l1 + code_size l2.
Proof. unfold code_size. rewrite length_app. lia. Qed.
Lemma a64_code_size_nonneg l : 0 ≤ code_size l.
Proof. unfold code_size. lia. Qed.

Lemma a64_keeps_refl a n m : keeps a n m m.
Proof. done. Qed.
Lemma a64_keeps_trans a n b k c w m m' m'' :
  keeps a n m m' → keeps b k m' m'' → c ≤ a → a + n ≤ c + w → c ≤ b → b + k ≤ c + w → keeps c w m m''.
Proof. intros H1 H2 ? ? ? ? z Hz. rewrite H2 by lia. apply H1. lia. Qed.
Lemma a64_put_keeps a i m : keeps a 4 m (put a i m).
Proof. intros k Hk. unfold put. by rewrite (proj2 (Z.eqb_neq k a)) by lia. Qed.
Lemma a64_put_same a i m : put a i m a = Some i.
Proof. unfold put. by rewrite Z.eqb_refl. Qed.

Lemma a64_place_keeps l : ∀ a m, keeps a (code_size l) m (place a l m).
Proof.
  induction l as [|i l IH]; intros a m; [apply a64_keeps_refl|]. cbn [place]. rewrite a64_code_size_cons. pose proof (a64_code_size_nonneg l).
  eapply a64_keeps_trans; [apply a64_put_keeps | apply IH | lia..].
Qed.

Lemma a64_place_code_at l : ∀ a m, code_at (place a l m) a l.
Proof.
  induction l as [|i l IH]; intros a m; [done|]. cbn [place code_at]. split; [|apply IH].
  rewrite a64_place_keeps by lia. apply a64_put_same.
Qed.

Lemma a64_code_at_app m l1 l2 a : code_at m a (l1 ++ l2) ↔ code_at m a l1 ∧ code_at m (a + code_size l1) l2.
Proof.
  revert a. induction l1 as [|i l1 IH]; intros a; cbn [app code_at].
  - unfold code_size. simpl. rewrite Z.add_0_r. tauto.
  - rewrite IH, a64_code_size_cons. replace (a + 4 + code_size l1) with (a + (4 + code_size l1)) by lia. tauto.
Qed.

Lemma a64_code_at_keeps m m' b k l : keeps b k m m' → ∀ a, code_at m a l → a + code_size l ≤ b ∨ b + k ≤ a → code_at m' a l.
Proof.
  intros Hk. induction l as [|i l IH]; intros a Hc Hd; [done|]. destruct Hc as [Hi Hc]. rewrite a64_code_size_cons in Hd.
  pose proof (a64_code_size_nonneg l). split; [rewrite Hk by lia; exact Hi | apply IH; [done | lia]].
Qed.

Lemma code_at_ext m m' l : ∀ a, code_at m a l → (∀ k, a ≤ k → k + 4 ≤ a + code_size l → m' k = m k) → code_at m' a l.
Proof.
  induction l as [|i l IH]; intros a Hc He; [done|]. destruct Hc as [Hi Hc]. rewrite a64_code_size_cons in He. pose proof (a64_code_size_nonneg l).
  split; [rewrite He by lia; exact Hi | apply IH; [done | intros; apply He; lia]].
Qed.

Lemma a64_place_app l1 l2 a m : place a (l1 ++ l2) m = place (a + code_size l1) l2 (place a l1 m).
Proof.
  revert a m. induction l1 as [|i l1 IH]; intros a m.
  - unfold code_size. simpl. by rewrite Z.add_0_r.
  - cbn [app place]. rewrite IH, a64_code_size_cons. f_equal. lia.
Qed.

Lemma emit_app l1 l2 st : emit l2 (emit l1 st) = emit (l1 ++ l2) st.
Proof. unfold emit. cbn [fst snd]. rewrite a64_place_app, a64_code_size_app. f_equal. lia. Qed.

(** ** Execution *)

Section goes.
Context (app : Z → machine → option machine) {Happ : ∀ w, Proper ((≡) ==> (≡)) (app w)}.
Notation exec := (exec app).

Definition step (text : cmem) (s s' : machine) : Prop := ∃ i, text (pc s) = Some i ∧ exec i s = Some s'.
Definition reaches (text : cmem) : machine → machine → Prop := rtc (step text).
Definition goes (text : cmem) (s t : machine) : Prop := ∃ s', reaches text s s' ∧ s' ≡ t.

Lemma step_equiv text s t s' : s ≡ t → step text s s' → ∃ t', step text t t' ∧ s' ≡ t'.
Proof using Happ.
  intros Hst (i & Hi & He). pose proof (exec_proper app i _ _ Hst) as Hx. rewrite He in Hx.
  inversion Hx as [? t' Ht Heq1 Heq2|]; subst. exists t'. split; [|done]. exists i. by rewrite <- (pc_equiv _ _ Hst).
Qed.

Lemma reaches_equiv text s s' : reaches text s s' → ∀ t, s ≡ t → goes text t s'.
Proof using Happ.
  induction 1 as [s|s s1 s' Hs _ IH]; intros t Ht; [by exists t; split; [apply rtc_refl|]|].
  destruct (step_equiv _ _ _ _ Ht Hs) as (t1 & Ht1 & Heq). destruct (IH t1 Heq) as (t' & Hr & He).
  exists t'. split; [by eapply rtc_l | done].
Qed.

#[export] Instance goes_proper text : Proper ((≡) ==> (≡) ==> iff) (goes text).
Proof using Happ.
  assert (∀ s t u v, s ≡ t → u ≡ v → goes text s u → goes text t v) as H.
  { intros s t u v Hst Huv (s' & Hr & He). destruct (reaches_equiv text s s' Hr t Hst) as (t' & Hr' & He').
    exists t'. split; [done|]. by rewrite He', He. }
  intros s t Hst u v Huv. split; apply H; done.
Qed.

Lemma goes_refl text s : goes text s s.
Proof using. exists s. split; [apply rtc_refl | done]. Qed.

Lemma goes_trans text s t u : goes text s t → goes text t u → goes text s u.
Proof using Happ.
  intros (s' & Hr & He) Hg. rewrite <- He in Hg. destruct Hg as (t' & Hr' & He'). exists t'. split; [by etrans | done].
Qed.

Lemma goes_step text s i s' : text (pc s) = Some i → exec i s = Some s' → goes text s s'.
Proof using. intros Hi He. exists s'. split; [|done]. apply rtc_once. by exists i. Qed.

(** Instructions behind which the next one is executed. *)
Definition straight (i : inst) : bool :=
  match i with B_BL _ _ | B_cond _ _ | CBZ_CBNZ _ _ _ _ | TBZ_TBNZ _ _ _ _ _ | BR _ | BLR _ | Copied _ => false | _ => true end.

Fixpoint run (l : list inst) (s : machine) : option machine :=
  match l with [] => Some s | i :: l => s ← exec i s; run l s end.

Lemma code_run_app l1 l2 s : run (l1 ++ l2) s = (s ← run l1 s; run l2 s).
Proof using. revert s. induction l1 as [|i l1 IH]; intros s; [done|]. cbn [Datatypes.app run]. destruct (exec i s); simpl; [apply IH | done]. Qed.

Lemma a64_straight_pc i s s' : straight i = true → exec i s = Some s' → pc s' = u64 (pc s + 4).
Proof using.
  intros Hi He. destruct i; try done; unfold A64Asm.exec in He.
  - destruct (a64_exec i (gpr s)); simpl in He; by simplify_eq.
  - case_match; by simplify_eq.
  - case_match; by simplify_eq.
  - destruct (indexed _ _ _). repeat case_match; by simplify_eq.
  - destruct (indexed _ _ _). repeat case_match; by simplify_eq.
  - destruct (access_of _ _ _) as [a|]; simpl in He; simplify_eq. by destruct a.
  - by simplify_eq.
Qed.

Lemma run_goes text l : ∀ s s',
  0 ≤ pc s → pc s + code_size l < 2 ^ 64 → forallb straight l = true → code_at text (pc s) l → run l s = Some s' →
  goes text s s' ∧ pc s' = pc s + code_size l.
Proof using Happ.
  induction l as [|i l IH]; intros s s' H0 Hb Hst Hc Hr.
  - injection Hr as <-. unfold code_size. simpl. split; [apply goes_refl | lia].
  - cbn [forallb] in Hst. apply andb_true_iff in Hst as [Hi Hst]. destruct Hc as [Hti Hc]. rewrite a64_code_size_cons in *.
    pose proof (a64_code_size_nonneg l). cbn [run] in Hr. destruct (exec i s) as [s1|] eqn:He; [|done]. simpl in Hr.
    pose proof (a64_straight_pc _ _ _ Hi He) as Hp. rewrite u64_small in Hp by lia.
    destruct (IH s1 s') as [Hg Hp']; [lia | lia | done | by rewrite Hp | done |]. split; [|lia].
    eapply goes_trans; [by eapply goes_step | done].
Qed.
End goes.

(** ** Sequences of the scanner *)

Definition a64_push_pair_reg (Xt1 Xt2 : Z) : inst := LDP_STP 2 0 3 0 (-2) Xt2 sp Xt1.
Definition a64_pop_pair_reg (Xt1 Xt2 : Z) : inst := LDP_STP 2 0 1 1 2 Xt2 sp Xt1.
Definition a64_push_reg (reg : Z) : inst := LDR_STR_immed 3 0 0 (-16) 3 sp reg.
Definition a64_pop_reg (reg : Z) : inst := LDR_STR_immed 3 0 1 16 1 sp reg.
Definition copy_to_reg (reg value : Z) : list inst := Data <$> a64_copy_to_reg_64bits reg value.

(** The states behind them, but for the program counter. *)
Definition push_pair (r1 r2 : Z) (s : machine) : machine :=
  set_sp (sp_of s - 16) (set_mem (store 8 (sp_of s - 16 + 8) (X s r2) (store 8 (sp_of s - 16) (X s r1) (mem s))) s).
Definition pop_pair (r1 r2 : Z) (s : machine) : machine :=
  set_x r2 (load 8 (mem s) (sp_of s + 8)) (set_x r1 (load 8 (mem s) (sp_of s)) (set_sp (sp_of s + 16) s)).
Definition push (r : Z) (s : machine) : machine :=
  set_sp (sp_of s - 16) (set_mem (store 8 (sp_of s - 16) (X s r) (mem s)) s).
Definition pop (r : Z) (s : machine) : machine := set_x r (load 8 (mem s) (sp_of s)) (set_sp (sp_of s + 16) s).

#[export] Instance push_pair_proper r1 r2 : Proper ((≡) ==> (≡)) (push_pair r1 r2).
Proof.
  intros s s' H. unfold push_pair. rewrite (sp_equiv _ _ H), !(X_equiv _ _ _ H).
  assert (memeq (mem s) (mem s')) as Hm by (intros a; by apply same_mem). by rewrite Hm, H.
Qed.
#[export] Instance pop_pair_proper r1 r2 : Proper ((≡) ==> (≡)) (pop_pair r1 r2).
Proof. intros s s' H. unfold pop_pair. by rewrite (sp_equiv _ _ H), !(load_equiv _ _ _ _ H), H. Qed.
#[export] Instance push_proper r : Proper ((≡) ==> (≡)) (push r).
Proof.
  intros s s' H. unfold push. rewrite (sp_equiv _ _ H), !(X_equiv _ _ _ H).
  assert (memeq (mem s) (mem s')) as Hm by (intros a; by apply same_mem). by rewrite Hm, H.
Qed.
#[export] Instance pop_proper r : Proper ((≡) ==> (≡)) (pop r).
Proof. intros s s' H. unfold pop. by rewrite (sp_equiv _ _ H), !(load_equiv _ _ _ _ H), H. Qed.

(** *** Algebra of states *)

Lemma X_set_x_eq r v s : r ≠ 31 → X (set_x r v s) r = u64 v.
Proof. intros Hr. unfold X, set_x, xreg, set_xreg. cbn. rewrite (proj2 (Z.eqb_neq r 31)) by done. cbn. by rewrite Z.eqb_refl. Qed.
Lemma X_set_x_ne r v s r' : r' ≠ r → X (set_x r v s) r' = X s r'.
Proof.
  intros Hr. unfold X, set_x, xreg, set_xreg. cbn. destruct (r' =? 31); [done|]. destruct (r =? 31); [done|]. cbn.
  by rewrite (proj2 (Z.eqb_neq r' r)).
Qed.
Lemma X_zero s : X s 31 = 0.
Proof. done. Qed.

(** Equal registers make equal states. *)
Lemma machine_ext s s' :
  pc s = pc s' → (∀ r, r ≠ 31 → X s r = X s' r) → sp_of s = sp_of s' → (∀ r, vr s r = vr s' r) → nzcv s = nzcv s' →
  tpidr s = tpidr s' → (∀ a, mem s a = mem s' a) → s ≡ s'.
Proof.
  intros H1 H2 H3 H4 H5 H6 H7. split; try done. split; [|done]. intros r Hr. specialize (H2 r Hr). unfold X, xreg in H2.
  by rewrite (proj2 (Z.eqb_neq r 31)) in H2 by done.
Qed.

Lemma set_x_x r v w s : set_x r v (set_x r w s) ≡ set_x r v s.
Proof.
  apply machine_ext; try done.
  - intros k Hk. destruct (decide (k = r)) as [->|]; [by rewrite !X_set_x_eq | by rewrite !X_set_x_ne].
  - unfold set_x, set_xreg, sp_of. cbn. by destruct (r =? 31).
Qed.
Lemma set_x_self r s : 0 ≤ X s r < 2 ^ 64 → set_x r (X s r) s ≡ s.
Proof.
  intros Hr. apply machine_ext; try done.
  - intros k Hk. destruct (decide (k = r)) as [->|]; [rewrite X_set_x_eq by done; by apply u64_small | by apply X_set_x_ne].
  - unfold set_x, set_xreg, sp_of. cbn. by destruct (r =? 31).
Qed.
Lemma set_x_comm r r' v w s : r ≠ r' → set_x r v (set_x r' w s) ≡ set_x r' w (set_x r v s).
Proof.
  intros Hr. apply machine_ext; try done.
  - intros k Hk. destruct (decide (k = r)) as [->|].
    + by rewrite X_set_x_eq, X_set_x_ne, X_set_x_eq by done.
    + rewrite X_set_x_ne by done. destruct (decide (k = r')) as [->|]; [by rewrite !X_set_x_eq | by rewrite !X_set_x_ne].
  - unfold set_x, set_xreg, sp_of. cbn. destruct (r =? 31), (r' =? 31); done.
Qed.
Lemma set_pc_pc p q s : set_pc p (set_pc q s) = set_pc p s.
Proof. done. Qed.
Lemma set_pc_self s : 0 ≤ pc s < 2 ^ 64 → set_pc (pc s) s ≡ s.
Proof. intros H. split; try done. by apply u64_small. Qed.
Lemma set_x_zero v s : set_x 31 v s ≡ s.
Proof. by apply machine_ext. Qed.
Lemma set_x_u64 r v s : set_x r (u64 v) s ≡ set_x r v s.
Proof.
  apply machine_ext; try done.
  - intros k Hk. destruct (decide (k = r)) as [->|]; [by rewrite !X_set_x_eq, u64_u64 by done | by rewrite !X_set_x_ne].
  - unfold set_x, set_xreg, sp_of. cbn. by destruct (r =? 31).
Qed.

(** *** Execution of the sequences *)

Section sequences.
Context (app : Z → machine → option machine) {Happ : ∀ w, Proper ((≡) ==> (≡)) (app w)}.
Notation goes := (goes app).
Notation run := (run app).

Lemma exec_push_pair r1 r2 s : exec app (a64_push_pair_reg r1 r2) s = Some (next (push_pair r1 r2 s)).
Proof using. done. Qed.
Lemma exec_pop_pair r1 r2 s : exec app (a64_pop_pair_reg r1 r2) s = Some (next (pop_pair r1 r2 s)).
Proof using. done. Qed.
Lemma exec_push r s : exec app (a64_push_reg r) s = Some (next (push r s)).
Proof using. done. Qed.
Lemma exec_pop r s : exec app (a64_pop_reg r) s = Some (next (pop r s)).
Proof using. done. Qed.

Lemma a64_run_31 l g : Forall (λ i, ∃ opc hw imm, i = MOV_wide 1 opc hw imm 31 ∧ (opc = 2 ∨ opc = 3)) l → a64_run l g = Some g.
Proof using.
  induction 1 as [|i l (opc & hw & imm & -> & [-> | ->]) _ IH]; [done | exact IH | exact IH].
Qed.

(** Data instructions on the registers only. *)
Lemma run_data l : ∀ s g, 0 ≤ pc s < 2 ^ 64 → a64_run l (gpr s) = Some g →
  run (Data <$> l) s = Some (set_pc (pc s + 4 * Z.of_nat (length l)) (set_gpr g s)) ∨ (l = [] ∧ run (Data <$> l) s = Some s).
Proof using.
  induction l as [|i l IH]; intros s g Hp Hr; [by right|]. left. cbn [a64_run] in Hr. cbn [fmap list_fmap A64Code.run exec].
  destruct (a64_exec i (gpr s)) as [g1|] eqn:Hi; [|done]. cbn [mbind option_bind] in Hr |- *. set (s1 := next (set_gpr g1 s)).
  assert (0 ≤ pc s1 < 2 ^ 64) as Hp1 by apply u64_range.
  destruct (IH s1 g Hp1 Hr) as [-> | [-> ->]]; f_equal.
  - unfold set_pc, s1, next. cbn [pc gpr vr nzcv tpidr mem set_gpr set_pc]. f_equal. unfold u64. rewrite Zplus_mod_idemp_l. f_equal.
    simpl length. lia.
  - by injection Hr as <-.
Qed.

Lemma run_copy reg v s : 0 ≤ reg ≤ 31 → 0 ≤ v < 2 ^ 64 → 0 ≤ pc s < 2 ^ 64 →
  ∃ s', run (copy_to_reg reg v) s = Some s' ∧ s' ≡ set_pc (pc s + code_size (copy_to_reg reg v)) (set_x reg v s).
Proof using.
  intros Hr Hv Hp. assert (∃ g, a64_run (a64_copy_to_reg_64bits reg v) (gpr s) = Some g ∧ g ≡ set_xreg reg v (gpr s)) as (g & Hg & He).
  { destruct (decide (reg = 31)) as [->|Hne].
    - exists (gpr s). split; [|done]. apply a64_run_31. unfold a64_copy_to_reg_64bits.
      repeat (apply Forall_app; split); [apply Forall_singleton; by eexists 2, _, _; split; [|left] | ..];
        (case_match; [apply Forall_singleton; by eexists 3, _, _; split; [|right] | by constructor]).
    - destruct (copy_to_reg_computes reg v (gpr s)) as (g & Hg & Hx & Hsp & Ho); [lia | done |]. exists g. split; [done|].
      unfold set_xreg. rewrite (proj2 (Z.eqb_neq reg 31)) by done. split; [|done]. intros r Hr31. cbn [xr].
      destruct (Z.eqb_spec r reg) as [->|]; [done | by apply Ho]. }
  destruct (run_data _ s g Hp Hg) as [H|[H _]]; [|done].
  eexists. split; [exact H|]. unfold code_size, copy_to_reg. rewrite length_fmap. by rewrite He.
Qed.

Lemma a64_copy_straight reg v : forallb straight (copy_to_reg reg v) = true.
Proof using. unfold copy_to_reg. induction (a64_copy_to_reg_64bits reg v); done. Qed.

Lemma a64_copy_size reg v : 4 ≤ code_size (copy_to_reg reg v) ≤ 16.
Proof using. unfold code_size, copy_to_reg, a64_copy_to_reg_64bits. rewrite length_fmap, !length_app. simpl length at 1 5. repeat case_match; simpl; lia. Qed.

(** Addresses of applications, and numbers of blocks. *)
Lemma copy_size_48 reg v : 0 ≤ v < 2 ^ 48 → code_size (copy_to_reg reg v) ≤ 12.
Proof using.
  intros Hv. unfold code_size, copy_to_reg, a64_copy_to_reg_64bits. rewrite length_fmap, !length_app.
  rewrite (Z.shiftr_div_pow2 v 48), (Z.div_small v (2 ^ 48)) by lia.
  change (0 <? Z.land 0 0xFFFF) with false. repeat case_match; simpl; lia.
Qed.

Lemma copy_size_16 reg v : 0 ≤ v < 2 ^ 16 → code_size (copy_to_reg reg v) = 4.
Proof using.
  intros Hv. unfold code_size, copy_to_reg, a64_copy_to_reg_64bits. rewrite length_fmap, !length_app.
  rewrite !Z.shiftr_div_pow2, !(Z.div_small v) by lia. done.
Qed.

(** A constant, executed. *)
Lemma goes_copy text reg v s : 0 ≤ reg ≤ 31 → 0 ≤ v < 2 ^ 64 → 0 ≤ pc s → pc s + code_size (copy_to_reg reg v) < 2 ^ 64 →
  code_at text (pc s) (copy_to_reg reg v) → goes text s (set_pc (pc s + code_size (copy_to_reg reg v)) (set_x reg v s)).
Proof using Happ.
  intros Hr Hv H0 Hb Hc. pose proof (a64_copy_size reg v). destruct (run_copy reg v s) as (s' & Hrun & He); [done | done | lia |].
  rewrite <- He. by eapply run_goes; [| | |apply a64_copy_straight| |].
Qed.
End sequences.

(** The first part of an execution. *)
Ltac goes_via H := eapply goes_trans; [first [assumption | exact _] | exact H |].
End A64Code.
