(* ===== verification/A64Exit.v ===== *)
(** * Exits of AArch64 blocks (arch/aarch64/scanner_a64.c)

    The branch helpers, and how the scanner ends a block: code that saves X0 and
    X1 and enters the dispatcher with the target in X0 and the block in X1. Two
    words before it are left for the linked branch (A64Link). *)
From S2P Require Import Prelude LinearProbe CodeCacheHash LinkedList AddressTable Dbm.
From S2P Require Import RiscvImm RiscvAsm RiscvEmit Pie RiscvExec RiscvExit LoadStoreA64 A64Inst A64Asm A64Code.
Import Dbm Pie A64Inst A64Asm A64Code.
Import RiscvAsm (load, store).
Import RiscvEmit (u64_u64, u64_add_l).
Import RiscvImm (sign_extend64).
Import RiscvExit (set_exit_branch_addr).
#[local] Open Scope Z_scope.

Module A64Exit.

(** The build options that decide what is linked. *)
Record options := MkOptions {
  DBM_LINK_UNCOND_IMM : bool;
  DBM_LINK_COND_IMM : bool;
  DBM_LINK_CBZ : bool;
  DBM_LINK_TBZ : bool;
  DBM_INLINE_HASH : bool
}.

(** The fields that describe an exit. *)
Definition set_branch_taken_addr (v : Z) (r : dbm_code_cache_meta) : dbm_code_cache_meta :=
  MkMeta (source_addr r) (tpc r) (exit_branch_type r) (actual_id r) (exit_branch_addr r) v (branch_skipped_addr r)
    (branch_condition r) (branch_cache_status r) (rn r) (rs1 r) (rs2 r) (next_prediction_slot r) (ihlu_address r)
    (number_of_predictions r) (link r) (imm r) (rd r) (Dbm.inst r) (read_addr r) (trampoline_addr r) (trampoline_slots_used r)
    (free_b r) (linked_from r) (saved_exit r).
Definition set_branch_skipped_addr (v : Z) (r : dbm_code_cache_meta) : dbm_code_cache_meta :=
  MkMeta (source_addr r) (tpc r) (exit_branch_type r) (actual_id r) (exit_branch_addr r) (branch_taken_addr r) v
    (branch_condition r) (branch_cache_status r) (rn r) (rs1 r) (rs2 r) (next_prediction_slot r) (ihlu_address r)
    (number_of_predictions r) (link r) (imm r) (rd r) (Dbm.inst r) (read_addr r) (trampoline_addr r) (trampoline_slots_used r)
    (free_b r) (linked_from r) (saved_exit r).
Definition set_branch_condition (v : Z) (r : dbm_code_cache_meta) : dbm_code_cache_meta :=
  MkMeta (source_addr r) (tpc r) (exit_branch_type r) (actual_id r) (exit_branch_addr r) (branch_taken_addr r) (branch_skipped_addr r)
    v (branch_cache_status r) (rn r) (rs1 r) (rs2 r) (next_prediction_slot r) (ihlu_address r)
    (number_of_predictions r) (link r) (imm r) (rd r) (Dbm.inst r) (read_addr r) (trampoline_addr r) (trampoline_slots_used r)
    (free_b r) (linked_from r) (saved_exit r).
Definition set_rn (v : Z) (r : dbm_code_cache_meta) : dbm_code_cache_meta :=
  MkMeta (source_addr r) (tpc r) (exit_branch_type r) (actual_id r) (exit_branch_addr r) (branch_taken_addr r) (branch_skipped_addr r)
    (branch_condition r) (branch_cache_status r) v (rs1 r) (rs2 r) (next_prediction_slot r) (ihlu_address r)
    (number_of_predictions r) (link r) (imm r) (rd r) (Dbm.inst r) (read_addr r) (trampoline_addr r) (trampoline_slots_used r)
    (free_b r) (linked_from r) (saved_exit r).

Definition invert_cond (cond : Z) : Z := Z.lxor cond 1.

(** ** Branch helpers: the word for a branch at [write_p] to [target] *)

Definition aligned (difference : Z) : bool := Z.land difference 3 =? 0.

Definition a64_branch_helper (write_p target : Z) (link : bool) : outcome inst :=
  let difference := s64 (target - write_p) in
  c_assert (aligned difference && ((difference <? 128 * 1024 * 1024) && (-128 * 1024 * 1024 <=? difference)));;
  Ok (B_BL (if link then 1 else 0) (Z.shiftr difference 2)).
Definition a64_b_helper (write_p target : Z) : outcome inst := a64_branch_helper write_p target false.
Definition a64_bl_helper (write_p target : Z) : outcome inst := a64_branch_helper write_p target true.

Definition a64_b_cond_helper (write_p target cond : Z) : outcome inst :=
  let difference := s64 (target - write_p) in
  c_assert (aligned difference && ((difference <? 1024 * 1024) && (- 1024 * 1024 <=? difference)));;
  Ok (B_cond (Z.shiftr difference 2) cond).

(** [None] is the result -1, for which nothing is written. *)
Definition a64_cbz_cbnz_helper (write_p : Z) (cbnz : bool) (target sf rt : Z) : option inst :=
  let difference := s64 (target - write_p) in
  if negb (aligned difference) || ((1024 * 1024 <=? difference) && (difference <? - 1024 * 1024)) then None
  else Some (CBZ_CBNZ sf (if cbnz then 1 else 0) (Z.shiftr difference 2) rt).
Definition a64_cbz_helper (write_p target sf rt : Z) : outcome inst :=
  match a64_cbz_cbnz_helper write_p false target sf rt with Some i => Ok i | None => Err AssertFail end.
Definition a64_cbnz_helper (write_p target sf rt : Z) : outcome inst :=
  match a64_cbz_cbnz_helper write_p true target sf rt with Some i => Ok i | None => Err AssertFail end.

Definition a64_tbz_tbnz_helper (write_p : Z) (is_tbnz : bool) (target reg bit : Z) : outcome inst :=
  let difference := s64 (target - write_p) in
  c_assert (aligned difference && ((difference <? 32 * 1024) && (- 32 * 1024 <=? difference)));;
  Ok (TBZ_TBNZ (Z.shiftr bit 5) (if is_tbnz then 1 else 0) (Z.land bit 0x1F) (Z.shiftr difference 2) reg).

(** ** Exits *)

Section exits.
Context (opts : options) (dispatcher_addr : Z).

Definition a64_branch_save_context (st : out) : out := emit [a64_push_pair_reg 0 1] st.

(** The flags [REPLACE_TARGET] and [INSERT_BRANCH]. *)
Definition a64_branch_jump (basic_block target : Z) (replace_target insert_branch : bool) (st : out) : outcome out :=
  let st := if replace_target then emit (copy_to_reg 0 target) st else st in
  if insert_branch then
    let st := emit (copy_to_reg 1 (u64 basic_block)) st in
    b ← a64_b_helper (fst st) dispatcher_addr;
    Ok (emit [b] st)
  else Ok st.

Definition a64_branch_jump_cond (basic_block target read_address cond : Z) (st : out) : outcome out :=
  let st := a64_branch_save_context (emit [NOP; NOP] st) in
  let st := emit (copy_to_reg 1 (u64 basic_block)) st in
  let cond_branch := fst st in
  let st := emit (copy_to_reg 0 target) (skip st) in
  b ← a64_b_helper (fst st) dispatcher_addr;
  let st := emit [b] st in
  c ← a64_b_cond_helper cond_branch (fst st) (invert_cond cond);
  let st := emit (copy_to_reg 0 (u64 (read_address + 4))) (patch cond_branch c st) in
  b ← a64_b_helper (fst st) dispatcher_addr;
  Ok (emit [b] st).

(** A compare-and-branch or test-and-branch word: its type, whether it tests for
    ones, the offset, the register, and the size or the bit. *)
Record branch_fields := MkFields { f_op : Z; f_offset : Z; f_rt : Z; f_sel : Z }.

Definition cbz_fields (word : Z) : branch_fields :=
  let f := field CBZ_CBNZ_TXT in
  MkFields (f "b"%char word) (u64 (Z.shiftl (sign_extend64 19 (f "c"%char word)) 2)) (f "d"%char word) (f "a"%char word).
Definition tbz_fields (word : Z) : branch_fields :=
  let f := field TBZ_TBNZ_TXT in
  MkFields (f "b"%char word) (u64 (Z.shiftl (sign_extend64 14 (f "d"%char word)) 2)) (f "e"%char word)
    (Z.lor (Z.shiftl (f "a"%char word) 5) (f "c"%char word)).

(** The branch to the fall-through side: [op ^ 1]. *)
Definition skip_branch (is_tbz : bool) (f : branch_fields) (write_p target : Z) : outcome (option inst) :=
  let op := negb (Z.lxor (f_op f) 1 =? 0) in
  if is_tbz then i ← a64_tbz_tbnz_helper write_p op target (f_rt f) (f_sel f); Ok (Some i)
  else Ok (a64_cbz_cbnz_helper write_p op target (f_sel f) (f_rt f)).

Definition imm_reg_code (basic_block : Z) (is_tbz : bool) (f : branch_fields) (target fallthrough : Z) (st : out) : outcome out :=
  let st := a64_branch_save_context (emit [NOP; NOP] st) in
  let cbz_branch := fst st in
  st ← a64_branch_jump basic_block target true true (skip st);
  c ← skip_branch is_tbz f cbz_branch (fst st);
  a64_branch_jump basic_block fallthrough true true (match c with Some i => patch cbz_branch i st | None => st end).

Section thread.
Context {T : Type}.
Implicit Types (th : dbm_thread T).

Definition set_linkable (is_tbz : bool) (f : branch_fields) (m : dbm_code_cache_meta) : dbm_code_cache_meta :=
  if (if is_tbz then DBM_LINK_TBZ opts else DBM_LINK_CBZ opts) then
    set_rn (Z.lor (Z.shiftl (f_sel f) 5) (f_rt f)) (set_branch_condition (f_op f)
      (set_exit_branch_type (if is_tbz then tbz_a64 else cbz_a64) m))
  else m.

Definition imm_reg_meta (is_tbz : bool) (f : branch_fields) (target fallthrough exit : Z) (m : dbm_code_cache_meta) : dbm_code_cache_meta :=
  set_branch_skipped_addr fallthrough (set_branch_taken_addr target (set_exit_branch_addr exit (set_linkable is_tbz f m))).

(** Other instructions leave the fields uninitialised. *)
Definition a64_branch_imm_reg th (basic_block : Z) (i : a64_instruction) (word read_address : Z) (st : out)
    : outcome (dbm_thread T * out) :=
  is_tbz ← match i with A64_CBZ_CBNZ => Ok false | A64_TBZ_TBNZ => Ok true | _ => Err Uninitialised end;
  let f := if is_tbz : bool then tbz_fields word else cbz_fields word in
  let target := u64 (read_address + f_offset f) in
  let fallthrough := u64 (read_address + 4) in
  th ← upd_meta basic_block (imm_reg_meta is_tbz f target fallthrough (fst st)) th;
  st ← imm_reg_code basic_block is_tbz f target fallthrough st;
  Ok (th, st).

Definition b_cond_meta (cond target fallthrough exit : Z) (m : dbm_code_cache_meta) : dbm_code_cache_meta :=
  set_branch_cache_status 0 (set_branch_condition cond (set_branch_skipped_addr fallthrough (set_branch_taken_addr target
    (set_exit_branch_addr exit (set_exit_branch_type cond_imm_a64 m))))).

(** The branch [A64_B_COND] of the scanner. *)
Definition a64_b_cond_exit th (basic_block word read_address : Z) (st : out) : outcome (dbm_thread T * out) :=
  let cond := field B_COND_TXT "b"%char word in
  let target := u64 (read_address + u64 (Z.shiftl (sign_extend64 19 (field B_COND_TXT "a"%char word)) 2)) in
  th ← (if DBM_LINK_COND_IMM opts then
          upd_meta basic_block (b_cond_meta cond target (u64 (read_address + 4)) (fst st)) th
        else Ok th);
  st ← a64_branch_jump_cond basic_block target read_address cond st;
  Ok (th, st).
End thread.
End exits.

(** ** What the exits do *)

Lemma pc_set_pc p s : 0 ≤ p < 2 ^ 64 → pc (set_pc p s) = p.
Proof. apply u64_small. Qed.

(** A distance that a field of [w] words holds. *)
Lemma branch_by_to w d s : 0 < w → aligned d = true → - 2 ^ (w + 1) ≤ d < 2 ^ (w + 1) →
  branch_by w (Z.shiftr d 2) s = set_pc (pc s + d) s.
Proof.
  intros Hw Ha Hd. unfold branch_by. f_equal. unfold aligned in Ha. apply Z.eqb_eq in Ha.
  change 3 with (2 ^ 2 - 1) in Ha. rewrite land_pow2_mask in Ha by done. rewrite Z.shiftr_div_pow2 by done.
  assert (2 ^ (w + 1) = 4 * 2 ^ (w - 1)) as Hp by (replace (w + 1) with (2 + (w - 1)) by lia; rewrite Z.pow_add_r by lia; done).
  rewrite signed_small; [|done|]; Z.div_mod_to_equations; lia.
Qed.

Lemma to_target x y : 0 ≤ y < 2 ^ 64 → u64 (x + s64 (y - x)) = y.
Proof. apply RiscvExec.u64_to. Qed.

Lemma set_pc_to s y : 0 ≤ y < 2 ^ 64 → set_pc (pc s + s64 (y - pc s)) s = set_pc y s.
Proof. intros Hy. unfold set_pc. by rewrite to_target, (u64_small y). Qed.

Section branches.
Context (app : Z → machine → option machine) {Happ : ∀ w, Proper ((≡) ==> (≡)) (app w)}.
Notation goes := (goes app).

Lemma goes_b text s y i : a64_b_helper (pc s) y = Ok i → text (pc s) = Some i → 0 ≤ y < 2 ^ 64 → goes text s (set_pc y s).
Proof using.
  unfold a64_b_helper, a64_branch_helper. intros H Ht Hy. apply bind_ok_inv in H as ([] & Hc & [= <-]). apply c_assert_ok in Hc.
  apply andb_true_iff in Hc as [Ha Hr]. eapply goes_step; [done|]. cbn [exec Z.eqb]. f_equal. rewrite <- set_pc_to by done.
  apply branch_by_to; [done | done | lia].
Qed.

Lemma goes_b_cond text s y c i : a64_b_cond_helper (pc s) y c = Ok i → text (pc s) = Some i → 0 ≤ y < 2 ^ 64 →
  goes text s (if cond_holds c (nzcv s) then set_pc y s else next s).
Proof using.
  unfold a64_b_cond_helper. intros H Ht Hy. apply bind_ok_inv in H as ([] & Hc & [= <-]). apply c_assert_ok in Hc.
  apply andb_true_iff in Hc as [Ha Hr]. eapply goes_step; [done|]. cbn [exec]. f_equal. destruct (cond_holds _ _); [|done].
  rewrite <- set_pc_to by done. apply branch_by_to; [done | done | lia].
Qed.

Lemma goes_cbz text s y (op : bool) sf rt i :
  a64_cbz_cbnz_helper (pc s) op y sf rt = Some i → text (pc s) = Some i → 0 ≤ y < 2 ^ 64 → - 2 ^ 20 ≤ s64 (y - pc s) < 2 ^ 20 →
  goes text s (if eqb (zero_reg sf (X s rt)) (negb op) then set_pc y s else next s).
Proof using.
  unfold a64_cbz_cbnz_helper. intros H Ht Hy Hd. destruct (aligned _) eqn:Ha; [|done]. cbn [negb orb] in H. case_match; [done|].
  injection H as <-. eapply goes_step; [done|]. cbn [exec]. f_equal.
  replace ((if op then 1 else 0) =? 0) with (negb op) by by destruct op. destruct (eqb _ _); [|done].
  rewrite <- set_pc_to by done. apply branch_by_to; [done | done | lia].
Qed.

Lemma bit_split b : 0 ≤ b → Z.shiftr b 5 * 32 + Z.land b 0x1F = b.
Proof using.
  intros Hb. change 0x1F with (2 ^ 5 - 1). rewrite land_pow2_mask, Z.shiftr_div_pow2 by done. change (2 ^ 5) with 32.
  Z.div_mod_to_equations. lia.
Qed.

Lemma goes_tbz text s y (op : bool) rt bit i :
  a64_tbz_tbnz_helper (pc s) op y rt bit = Ok i → text (pc s) = Some i → 0 ≤ y < 2 ^ 64 → 0 ≤ bit →
  goes text s (if eqb (Z.testbit (X s rt) bit) op then set_pc y s else next s).
Proof using.
  unfold a64_tbz_tbnz_helper. intros H Ht Hy Hb. apply bind_ok_inv in H as ([] & Hc & [= <-]). apply c_assert_ok in Hc.
  apply andb_true_iff in Hc as [Ha Hr]. eapply goes_step; [done|]. cbn [exec]. f_equal. rewrite bit_split by done.
  replace (negb ((if op then 1 else 0) =? 0)) with op by by destruct op. destruct (eqb _ _); [|done].
  rewrite <- set_pc_to by done. apply branch_by_to; [done | done | lia].
Qed.

(** *** To the dispatcher *)

Context (dispatcher_addr : Z).

(** [n] bytes from [w] are within reach of the dispatcher. *)
Record room (n w : Z) : Prop := {
  room_low : 0 ≤ w;
  room_high : w + n + 200 < 2 ^ 63;
  room_dispatcher : 0 ≤ dispatcher_addr < 2 ^ 63;
  room_reach : - 2 ^ 26 + n ≤ dispatcher_addr - w ≤ 2 ^ 26;
  room_small : 0 ≤ n ≤ 2 ^ 20;
  room_aligned : aligned w = true ∧ aligned dispatcher_addr = true }.

Lemma aligned_mod a : aligned a = true ↔ a mod 4 = 0.
Proof using.
  unfold aligned. change 3 with (2 ^ 2 - 1). rewrite land_pow2_mask by done. apply Z.eqb_eq.
Qed.

Lemma aligned_code w l : aligned w = true → aligned (w + code_size l) = true.
Proof using. rewrite !aligned_mod. unfold code_size. intros H. Z.div_mod_to_equations. lia. Qed.

Lemma aligned_sub x y : aligned x = true → aligned y = true → aligned (x - y) = true.
Proof using. rewrite !aligned_mod. intros H1 H2. Z.div_mod_to_equations. lia. Qed.

Lemma room_at n w m p : room n w → 0 ≤ m → w ≤ p → p + m ≤ w + n → aligned p = true → room m p.
Proof using. intros [? ? ? ? ? [? ?]] ? ? ? ?. by split; try lia. Qed.

Lemma b_helper_ok n w k : room n w → 0 ≤ k ≤ n → aligned (w + k) = true → ∃ i, a64_b_helper (w + k) dispatcher_addr = Ok i ∧ i = B_BL 0 (Z.shiftr (dispatcher_addr - (w + k)) 2).
Proof using.
  intros [? ? ? ? ? [? ?]] Hk Ha. unfold a64_b_helper, a64_branch_helper. rewrite s64_small by lia.
  rewrite aligned_sub by done. replace ((_ <? _) && (_ <=? _)) with true by lia. by eexists.
Qed.

(** The state in which the dispatcher is entered, for the address and the block. *)
Definition dispatched (addr id : Z) (s : machine) : machine := set_pc dispatcher_addr (set_x 1 id (set_x 0 addr (push_pair 0 1 s))).

#[export] Instance dispatched_proper addr id : Proper ((≡) ==> (≡)) (dispatched addr id).
Proof using. intros s s' H. unfold dispatched. by rewrite H. Qed.

(** One side of an exit: the address, the block unless it is set, the jump. *)
Definition side_code (set_id : bool) (bb addr w : Z) : list inst :=
  let l := copy_to_reg 0 addr ++ (if set_id then copy_to_reg 1 (u64 bb) else []) in
  l ++ [B_BL 0 (Z.shiftr (dispatcher_addr - (w + code_size l)) 2)].

Lemma side_size set_id bb addr w : 8 ≤ code_size (side_code set_id bb addr w) ≤ 36.
Proof using.
  unfold side_code. rewrite !a64_code_size_app. pose proof (a64_copy_size 0 addr). pose proof (a64_copy_size 1 (u64 bb)).
  change (code_size [_]) with 4. destruct set_id; [lia|]. change (code_size []) with 0. lia.
Qed.

Lemma side_goes text set_id bb addr n s : room n (pc s) → code_size (side_code set_id bb addr (pc s)) ≤ n → 0 ≤ addr < 2 ^ 64 →
  code_at text (pc s) (side_code set_id bb addr (pc s)) →
  goes text s (set_pc dispatcher_addr ((if set_id then set_x 1 (u64 bb) else id) (set_x 0 addr s))).
Proof using Happ.
  intros Hroom Hsz Ha Hc. pose proof Hroom as [? ? ? ? ? [? ?]]. unfold side_code in *. cbv zeta in *. remember (if set_id then copy_to_reg 1 (u64 bb) else []) as l2 eqn:Hl2.
  pose proof (a64_copy_size 0 addr) as Hz. rewrite !a64_code_at_app in Hc. destruct Hc as [[Hc1 Hc2] [Hb _]].
  rewrite !a64_code_size_app in *. change (code_size [_]) with 4 in Hsz. pose proof (a64_code_size_nonneg l2).
  remember (pc s + code_size (copy_to_reg 0 addr)) as p1 eqn:Hp. set (s1 := set_pc p1 (set_x 0 addr s)).
  assert (0 ≤ p1 ∧ p1 + code_size l2 + 4 < 2 ^ 63) as [Hp0 Hpb] by lia.
  assert (goes text s s1) as Hg1 by (unfold s1; rewrite Hp; apply goes_copy; (done || lia)).
  assert (pc s1 = p1) as Hp1 by (apply pc_set_pc; lia).
  set (s2 := set_pc (p1 + code_size l2) ((if set_id then set_x 1 (u64 bb) else id) (set_x 0 addr s))).
  assert (pc s2 = p1 + code_size l2) as Hp2 by (apply pc_set_pc; lia).
  assert (goes text s1 s2) as Hg2.
  { unfold s2. destruct set_id; cbn [id]; subst l2.
    - pose proof (u64_range bb). pose proof (goes_copy app text 1 (u64 bb) s1) as Hg. rewrite Hp1 in Hg. apply Hg; (done || lia).
    - change (code_size []) with 0. rewrite Z.add_0_r. apply goes_refl. }
  destruct (b_helper_ok n (pc s) (code_size (copy_to_reg 0 addr) + code_size l2)) as (i & Hi & ->);
    [done | lia | rewrite <- a64_code_size_app; by apply aligned_code |].
  rewrite Z.add_assoc in Hi. rewrite <- Hp, <- Hp2 in Hi.
  assert (goes text s2 (set_pc dispatcher_addr s2)) as Hg3.
  { eapply goes_b; [exact Hi | | lia]. rewrite Hp2, Hp, <- Z.add_assoc. exact Hb. }
  goes_via Hg1. goes_via Hg2. exact Hg3.
Qed.

(** *** Two sides around a branch *)

Definition exit_pre (set_id : bool) (bb : Z) : list inst :=
  [NOP; NOP; a64_push_pair_reg 0 1] ++ (if set_id then [] else copy_to_reg 1 (u64 bb)).

(** The state in which the branch is executed. *)
Definition saved (set_id : bool) (bb p : Z) (s : machine) : machine :=
  set_pc p ((if set_id then id else set_x 1 (u64 bb)) (push_pair 0 1 s)).

Lemma pre_size set_id bb : 12 ≤ code_size (exit_pre set_id bb) ≤ 28.
Proof using.
  unfold exit_pre. rewrite a64_code_size_app. change (code_size [_; _; _]) with 12. pose proof (a64_copy_size 1 (u64 bb)).
  destruct set_id; [|lia]. change (code_size []) with 0. lia.
Qed.

Lemma goes_nop text s p : text p = Some NOP → pc s = p → 0 ≤ p → p + 4 < 2 ^ 64 → goes text s (set_pc (p + 4) s).
Proof using. intros Ht <- ? ?. by eapply goes_step. Qed.

(** At the exit behind the words for the linked branch, or before them while they
    are free. *)
Definition at_exit (text : cmem) (w : Z) (s : machine) : Prop :=
  pc s = w + 8 ∨ pc s = w ∧ text w = Some NOP ∧ text (w + 4) = Some NOP.

Lemma at_exit_goes text w s : at_exit text w s → 0 ≤ w → w + 8 < 2 ^ 64 → goes text s (set_pc (w + 8) s).
Proof using Happ.
  intros [Hp|(Hp & Hn1 & Hn2)] H0 Hb.
  - rewrite <- Hp, set_pc_self by lia. apply goes_refl.
  - pose proof (goes_nop text s w Hn1 Hp H0 ltac:(lia)) as Hg. goes_via Hg.
    pose proof (goes_nop text (set_pc (w + 4) s) (w + 4) Hn2 (pc_set_pc (w + 4) s ltac:(lia)) ltac:(lia) ltac:(lia)) as Hg'.
    replace (w + 4 + 4) with (w + 8) in Hg' by lia. exact Hg'.
Qed.

Lemma goes_push_pair text s p r1 r2 : text p = Some (a64_push_pair_reg r1 r2) → pc s = p → 0 ≤ p → p + 4 < 2 ^ 64 →
  goes text s (set_pc (p + 4) (push_pair r1 r2 s)).
Proof using.
  intros Ht Hp ? ?. pose proof (goes_step app text s _ _ ltac:(rewrite Hp; exact Ht) (exec_push_pair app r1 r2 _)) as Hg.
  unfold next in Hg. change (pc (push_pair r1 r2 s)) with (pc s) in Hg. by rewrite Hp in Hg.
Qed.

Lemma pre_goes text set_id bb w s : 0 ≤ w → w + 100 < 2 ^ 64 → code_at text (w + 8) (drop 2 (exit_pre set_id bb)) → at_exit text w s →
  goes text s (saved set_id bb (w + code_size (exit_pre set_id bb)) s).
Proof using Happ.
  intros H0 Hb Hc Hp. pose proof (pre_size set_id bb) as Hz. unfold exit_pre in *.
  rewrite a64_code_size_app in *. change (code_size [_; _; _]) with 12 in *. destruct Hc as [Hpu Hid].
  pose proof (at_exit_goes text w s Hp H0 ltac:(lia)) as Hg1. goes_via Hg1.
  pose proof (goes_push_pair text (set_pc (w + 8) s) (w + 8) 0 1 Hpu (pc_set_pc (w + 8) s ltac:(lia)) ltac:(lia) ltac:(lia)) as Hg2. goes_via Hg2.
  replace (w + 8 + 4) with (w + 12) in * by lia. set (s1 := set_pc (w + 12) (push_pair 0 1 (set_pc (w + 8) s))).
  assert (pc s1 = w + 12) as Hp1 by (apply pc_set_pc; lia). unfold saved. rewrite Z.add_assoc. destruct set_id.
  - change (code_size []) with 0. rewrite Z.add_0_r. apply goes_refl.
  - pose proof (goes_copy app text 1 (u64 bb) s1) as Hg. rewrite Hp1 in Hg. pose proof (a64_copy_size 1 (u64 bb)). pose proof (u64_range bb).
    apply Hg; (done || lia).
Qed.

Section two_sides.
Context (set_id : bool) (bb target fallthrough w : Z) (Hroom : room 200 w) (Hbb : 0 ≤ bb < 2 ^ 63).
Context (Htg : 0 ≤ target < 2 ^ 64) (Hft : 0 ≤ fallthrough < 2 ^ 64).

Definition branch_addr : Z := w + code_size (exit_pre set_id bb).
Definition taken_code : list inst := side_code set_id bb target (branch_addr + 4).
Definition skipped_addr : Z := branch_addr + 4 + code_size taken_code.
Definition skipped_code : list inst := side_code set_id bb fallthrough skipped_addr.
Definition exit_code (c : inst) : list inst := exit_pre set_id bb ++ [c] ++ taken_code ++ skipped_code.

Lemma exit_bounds : w + 12 ≤ branch_addr ≤ w + 28 ∧ branch_addr + 12 ≤ skipped_addr ≤ branch_addr + 40
  ∧ aligned branch_addr = true ∧ aligned (branch_addr + 4) = true ∧ aligned skipped_addr = true.
Proof using Hroom.
  pose proof (pre_size set_id bb). pose proof (side_size set_id bb target (branch_addr + 4)) as Hs. fold taken_code in Hs.
  assert (aligned branch_addr = true) as Ha by (unfold branch_addr; apply aligned_code; by destruct Hroom as [_ _ _ _ _ [? _]]).
  assert (aligned (branch_addr + 4) = true) as Ha4 by exact (aligned_code branch_addr [NOP] Ha).
  unfold skipped_addr. split_and!; try done; try (unfold branch_addr; lia). by apply aligned_code.
Qed.

Lemma exit_size c : 32 ≤ code_size (exit_code c) ≤ 104.
Proof using.
  unfold exit_code. rewrite !a64_code_size_app. change (code_size [c]) with 4. pose proof (pre_size set_id bb).
  pose proof (side_size set_id bb target (branch_addr + 4)). pose proof (side_size set_id bb fallthrough skipped_addr).
  unfold taken_code, skipped_code. lia.
Qed.

(** For addresses below 2^48 and a number below 2^16. *)
Lemma side_size_small set_id' bb' addr p : 0 ≤ bb' < 2 ^ 16 → 0 ≤ addr < 2 ^ 48 → code_size (side_code set_id' bb' addr p) ≤ if set_id' then 20 else 16.
Proof using.
  intros Hb Ha. unfold side_code. rewrite !a64_code_size_app. change (code_size [_]) with 4. pose proof (copy_size_48 0 addr Ha).
  rewrite u64_small by lia. destruct set_id'; [rewrite (copy_size_16 1 bb') by done; lia|]. change (code_size []) with 0. lia.
Qed.

Lemma exit_size_small c : bb < 2 ^ 16 → target < 2 ^ 48 → fallthrough < 2 ^ 48 → code_size (exit_code c) ≤ 56.
Proof using Hbb Htg Hft.
  intros Hb Ht Hf. unfold exit_code, taken_code, skipped_code, exit_pre. rewrite !a64_code_size_app. change (code_size [c]) with 4. change (code_size [_; _; _]) with 12.
  pose proof (side_size_small set_id bb target (branch_addr + 4) ltac:(lia) ltac:(lia)).
  pose proof (side_size_small set_id bb fallthrough skipped_addr ltac:(lia) ltac:(lia)). rewrite u64_small by lia.
  destruct set_id; [change (code_size []) with 0; lia|]. rewrite (copy_size_16 1 bb) by lia. lia.
Qed.

Lemma exit_branch_at c text : code_at text (w + 8) (drop 2 (exit_code c)) → text branch_addr = Some c.
Proof using.
  intros Hc. assert (code_at text (w + 8) (drop 2 (exit_pre set_id bb) ++ [c] ++ taken_code ++ skipped_code)) as Hc' by exact Hc.
  rewrite !a64_code_at_app in Hc'. destruct Hc' as (_ & [Hb _] & _). rewrite <- Hb. f_equal.
  unfold branch_addr, exit_pre. cbn [Datatypes.app drop]. rewrite !a64_code_size_cons. lia.
Qed.

(** The code with the branch [c], which goes to the second side when [test]. *)
Lemma exit_goes c (test : machine → bool) text s :
  code_at text (w + 8) (drop 2 (exit_code c)) → at_exit text w s →
  (let m := saved set_id bb branch_addr s in test m = test s
     ∧ goes text m (if test m then set_pc skipped_addr m else next m)) →
  goes text s (dispatched (if test s then fallthrough else target) bb s).
Proof using Hroom Hbb Htg Hft Happ.
  intros Hc Hp. cbv zeta. intros [Hts Hg]. pose proof exit_bounds as (B1 & B2 & Ba & Ba4 & Bs). pose proof Hroom as [? ? ? ? ? [? ?]].
  assert (code_at text (w + 8) (drop 2 (exit_pre set_id bb) ++ [c] ++ taken_code ++ skipped_code)) as Hc' by exact Hc. clear Hc.
  rewrite !a64_code_at_app in Hc'. destruct Hc' as (Hpre & _ & Ht & Hs).
  assert (w + 8 + code_size (drop 2 (exit_pre set_id bb)) = branch_addr) as Hba
    by (unfold branch_addr, exit_pre; cbn [Datatypes.app drop]; rewrite !a64_code_size_cons; lia).
  rewrite Hba in Ht, Hs. change (code_size [c]) with 4 in Ht, Hs. fold skipped_addr in Hs.
  pose proof (pre_goes text set_id bb w s ltac:(lia) ltac:(lia) Hpre Hp) as Hg1. fold branch_addr in Hg1.
  goes_via Hg1. goes_via Hg. rewrite Hts. set (m := saved set_id bb branch_addr s).
  set (a := if test s then fallthrough else target). set (p := if test s then skipped_addr else branch_addr + 4).
  assert (set_pc p m = if test s then set_pc skipped_addr m else next m) as Hm.
  { unfold p, next. destruct (test s); [done|]. unfold m, saved at 2. by rewrite pc_set_pc by lia. }
  rewrite <- Hm. assert (pc (set_pc p m) = p) as Hpp by (apply pc_set_pc; unfold p; destruct (test s); lia).
  pose proof (side_size set_id bb a p) as Hz.
  assert (goes text (set_pc p m) (set_pc dispatcher_addr ((if set_id then set_x 1 (u64 bb) else id) (set_x 0 a (set_pc p m))))) as Hside.
  { apply (side_goes text set_id bb a 100); rewrite ?Hpp; [| lia | |].
    - split; try lia; unfold p; destruct (test s); (done || lia).
    - unfold a. by destruct (test s).
    - unfold a, p. destruct (test s); [exact Hs | exact Ht]. }
  goes_via Hside. rewrite (u64_small bb) by lia. unfold dispatched, m, saved. destruct set_id; cbn [id].
  - apply goes_refl.
  - rewrite (u64_small bb) by lia. rewrite (set_x_comm 1 0) by done. apply goes_refl.
Qed.
End two_sides.

(** *** What the emitters write *)

Lemma exit_layout b w pre c l1 l2 m : b = w + code_size pre →
  let text := place (b + 4 + code_size l1) l2 (put b c (place (b + 4) l1 (place w pre m))) in
  code_at text w (pre ++ [c] ++ l1 ++ l2) ∧ keeps w (code_size (pre ++ [c] ++ l1 ++ l2)) m text.
Proof using.
  intros Hb text. pose proof (a64_code_size_nonneg pre). pose proof (a64_code_size_nonneg l1). pose proof (a64_code_size_nonneg l2).
  assert (keeps b 4 (place (b + 4) l1 (place w pre m)) (put b c (place (b + 4) l1 (place w pre m)))) as K1 by apply a64_put_keeps.
  assert (keeps (b + 4 + code_size l1) (code_size l2) (put b c (place (b + 4) l1 (place w pre m))) text) as K2 by apply a64_place_keeps.
  split.
  - rewrite !a64_code_at_app, <- Hb. change (code_size [c]) with 4. split_and!.
    + eapply a64_code_at_keeps; [exact K2 | | lia]. eapply a64_code_at_keeps; [exact K1 | | lia].
      eapply a64_code_at_keeps; [apply a64_place_keeps | apply a64_place_code_at | lia].
    + split; [|done]. rewrite K2 by lia. apply a64_put_same.
    + eapply a64_code_at_keeps; [exact K2 | | lia]. eapply a64_code_at_keeps; [exact K1 | apply a64_place_code_at | lia].
    + apply a64_place_code_at.
  - rewrite !a64_code_size_app. change (code_size [c]) with 4.
    apply (a64_keeps_trans w (code_size pre) b (4 + code_size l1 + code_size l2) _ _ _ (place w pre m)); [apply a64_place_keeps | | lia..].
    apply (a64_keeps_trans (b + 4) (code_size l1) b (4 + code_size l1 + code_size l2) _ _ _ (place (b + 4) l1 (place w pre m)));
      [apply a64_place_keeps | | lia..].
    eapply a64_keeps_trans; [exact K1 | exact K2 | lia..].
Qed.

Lemma branch_jump_code bb target n st : room n (fst st) → 36 ≤ n →
  a64_branch_jump dispatcher_addr bb target true true st = Ok (emit (side_code true bb target (fst st)) st).
Proof using.
  intros Hroom Hn. unfold a64_branch_jump, side_code. cbv zeta. rewrite emit_app.
  set (l := copy_to_reg 0 target ++ copy_to_reg 1 (u64 bb)).
  assert (0 ≤ code_size l ≤ 32) as Hl.
  { unfold l. rewrite a64_code_size_app. pose proof (a64_copy_size 0 target). pose proof (a64_copy_size 1 (u64 bb)). lia. }
  cbn [emit fst]. destruct (b_helper_ok n (fst st) (code_size l) Hroom) as (i & -> & ->); [lia | |].
  - apply aligned_code. by destruct Hroom as [_ _ _ _ _ [? _]].
  - cbn [mbind outcome_bind]. by rewrite <- emit_app.
Qed.

(** Fields that a word can have. *)
Definition fields_ok (f : branch_fields) : Prop := (f_op f = 0 ∨ f_op f = 1) ∧ 0 ≤ f_sel f.

(** Whether the branch of the application is taken. *)
Definition branch_taken (is_tbz : bool) (f : branch_fields) (s : machine) : bool :=
  if is_tbz then eqb (Z.testbit (X s (f_rt f)) (f_sel f)) (negb (f_op f =? 0))
  else eqb (zero_reg (f_sel f) (X s (f_rt f))) (f_op f =? 0).

(** The emitted branch is the opposite one. *)
Lemma skip_branch_goes is_tbz f w y c text m : skip_branch is_tbz f w y = Ok (Some c) → pc m = w → text w = Some c → fields_ok f →
  0 ≤ y < 2 ^ 64 → - 2 ^ 15 ≤ y - w < 2 ^ 15 → goes text m (if negb (branch_taken is_tbz f m) then set_pc y m else next m).
Proof using.
  intros H <- Ht [Hop Hsel] Hy Hd. unfold skip_branch, branch_taken in *. cbv zeta in H.
  assert (negb (Z.lxor (f_op f) 1 =? 0) = (f_op f =? 0)) as Hx by by destruct Hop as [-> | ->]. rewrite Hx in H. destruct is_tbz.
  - apply bind_ok_inv in H as (i & Hi & [= <-]). pose proof (goes_tbz text m y _ _ _ _ Hi Ht Hy Hsel) as Hg.
    replace (negb (eqb _ (negb (f_op f =? 0)))) with (eqb (Z.testbit (X m (f_rt f)) (f_sel f)) (f_op f =? 0)); [done|].
    by destruct (Z.testbit _ _), (f_op f =? 0).
  - injection H as H. pose proof (goes_cbz text m y _ _ _ _ H Ht Hy) as Hg. rewrite s64_small in Hg by lia.
    replace (negb (eqb _ _)) with (eqb (zero_reg (f_sel f) (X m (f_rt f))) (negb (f_op f =? 0))).
    + apply Hg. lia.
    + by destruct (zero_reg _ _), (f_op f =? 0).
Qed.

Lemma skip_branch_ok is_tbz f n w k : room n w → 0 ≤ k ≤ 100 → 100 ≤ n → aligned k = true → ∃ c, skip_branch is_tbz f w (w + k) = Ok (Some c).
Proof using.
  intros [? ? ? ? ? [? ?]] Hk Hn Ha. unfold skip_branch. cbv zeta.
  assert (s64 (w + k - w) = k) as Hd by (rewrite s64_small; lia).
  destruct is_tbz.
  - unfold a64_tbz_tbnz_helper. rewrite Hd, Ha. replace ((k <? 32 * 1024) && (- 32 * 1024 <=? k)) with true by lia. by eexists.
  - unfold a64_cbz_cbnz_helper. rewrite Hd, Ha. replace ((1024 * 1024 <=? k) && (k <? - 1024 * 1024)) with false by lia. by eexists.
Qed.

Lemma X_saved set_id bb p r s : r ≠ 1 → X (saved set_id bb p s) r = X s r.
Proof using. intros Hr. unfold saved. destruct set_id; [done|]. change (X (set_x 1 (u64 bb) (push_pair 0 1 s)) r = X s r). by rewrite X_set_x_ne. Qed.

Lemma imm_reg_code_spec bb is_tbz f target fallthrough st :
  room 200 (fst st) → 0 ≤ bb < 2 ^ 63 → 0 ≤ target < 2 ^ 64 → 0 ≤ fallthrough < 2 ^ 64 → fields_ok f →
  ∃ c text', let code := exit_code true bb target fallthrough (fst st) c in
    imm_reg_code dispatcher_addr bb is_tbz f target fallthrough st = Ok (fst st + code_size code, text')
    ∧ code_at text' (fst st) code ∧ keeps (fst st) (code_size code) (snd st) text'
    ∧ ∀ text s, code_at text (fst st + 8) (drop 2 code) → at_exit text (fst st) s →
        goes text s (dispatched (if branch_taken is_tbz f s then target else fallthrough) bb s).
Proof using Happ.
  intros Hroom Hbb Htg Hft Hf. set (w := fst st) in *. set (b := branch_addr true bb w).
  pose proof (exit_bounds true bb target w Hroom) as (B1 & B2 & Ba & Ba4 & Bs). fold b in B1, B2, Ba, Ba4.
  set (l1 := taken_code true bb target w). set (sk := skipped_addr true bb target w) in *.
  set (l2 := skipped_code true bb target fallthrough w).
  pose proof (side_size true bb target (b + 4)) as Hz1. change (side_code true bb target (b + 4)) with l1 in Hz1.
  pose proof (side_size true bb fallthrough sk) as Hz2. change (side_code true bb fallthrough sk) with l2 in Hz2.
  assert (sk = b + 4 + code_size l1) as Hsk by done.
  destruct (skip_branch_ok is_tbz f 150 b (sk - b)) as (c & Hc); [| lia | lia | by apply aligned_sub |].
  { eapply room_at; [exact Hroom | lia..| done]. }
  assert (room 160 (b + 4)) as Hr1 by (eapply room_at; [exact Hroom | lia.. | done]).
  assert (room 100 sk) as Hr2 by (eapply room_at; [exact Hroom | lia.. | done]).
  replace (b + (sk - b)) with sk in Hc by lia.
  destruct (exit_layout b w (exit_pre true bb) c l1 l2 (snd st) eq_refl) as [Hcode Hkeep].
  eexists c, _. cbv zeta. split_and!; [| exact Hcode | exact Hkeep |].
  - unfold imm_reg_code, a64_branch_save_context. rewrite emit_app. change ([NOP; NOP] ++ [a64_push_pair_reg 0 1]) with (exit_pre true bb).
    change (fst (emit (exit_pre true bb) st)) with b.
    rewrite (branch_jump_code bb target 160) by (exact Hr1 || lia).
    change (fst (skip (emit (exit_pre true bb) st))) with (b + 4). change (side_code true bb target (b + 4)) with l1.
    cbn [mbind outcome_bind]. change (fst (emit l1 (skip (emit (exit_pre true bb) st)))) with sk. rewrite Hc. cbn [mbind outcome_bind].
    rewrite (branch_jump_code bb fallthrough 100) by (exact Hr2 || lia).
    change (fst (patch b c (emit l1 (skip (emit (exit_pre true bb) st))))) with sk. change (side_code true bb fallthrough sk) with l2.
    unfold emit, patch, skip. cbn [fst snd]. f_equal. f_equal.
    change (exit_code true bb target fallthrough w c) with (exit_pre true bb ++ [c] ++ l1 ++ l2). rewrite !a64_code_size_app.
    change (code_size [c]) with 4. assert (b = w + code_size (exit_pre true bb)) as Hb by done. lia.
  - intros text s Hct Hp. assert (text b = Some c) as Htb.
    { by eapply exit_branch_at. }
    pose proof (exit_goes true bb target fallthrough w Hroom Hbb Htg Hft c (λ m, negb (branch_taken is_tbz f m)) text s Hct Hp) as Hgo.
    cbv zeta beta in Hgo. fold b sk in Hgo.
    replace (if branch_taken is_tbz f s then target else fallthrough) with (if negb (branch_taken is_tbz f s) then fallthrough else target)
      by by destruct (branch_taken is_tbz f s).
    pose proof Hroom as [? ? _ _ _ _]. apply Hgo. split; [done|]. eapply skip_branch_goes; [exact Hc | apply pc_set_pc; lia | exact Htb | exact Hf | lia | lia].
Qed.

(** *** Conditional branches *)

Lemma invert_cond_holds c flags : 0 ≤ c < 14 → cond_holds (invert_cond c) flags = negb (cond_holds c flags).
Proof using.
  intros Hc. assert (c ∈ [0; 1; 2; 3; 4; 5; 6; 7; 8; 9; 10; 11; 12; 13]) as Hin
    by (assert (c = 0 ∨ c = 1 ∨ c = 2 ∨ c = 3 ∨ c = 4 ∨ c = 5 ∨ c = 6 ∨ c = 7 ∨ c = 8 ∨ c = 9 ∨ c = 10 ∨ c = 11 ∨ c = 12 ∨ c = 13) as Hx by lia;
        rewrite !elem_of_cons; tauto).
  unfold cond_holds. repeat (apply elem_of_cons in Hin as [->|Hin]; [cbn; by rewrite ?negb_involutive|]). by apply not_elem_of_nil in Hin.
Qed.

Lemma side_after_id bb addr n st : room n (fst st) → 20 ≤ n →
  ∃ i, a64_b_helper (fst (emit (copy_to_reg 0 addr) st)) dispatcher_addr = Ok i
    ∧ emit [i] (emit (copy_to_reg 0 addr) st) = emit (side_code false bb addr (fst st)) st.
Proof using.
  intros Hroom Hn. pose proof (a64_copy_size 0 addr) as Hz. cbn [emit fst].
  destruct (b_helper_ok n (fst st) (code_size (copy_to_reg 0 addr)) Hroom) as (i & Hi & ->); [lia | |].
  - apply aligned_code. by destruct Hroom as [_ _ _ _ _ [? _]].
  - eexists. split; [exact Hi|]. change (fst st + code_size (copy_to_reg 0 addr), place (fst st) (copy_to_reg 0 addr) (snd st)) with (emit (copy_to_reg 0 addr) st).
    rewrite emit_app. unfold side_code. cbv zeta. by rewrite app_nil_r.
Qed.

Lemma jump_cond_spec bb target read cond st :
  room 200 (fst st) → 0 ≤ bb < 2 ^ 63 → 0 ≤ target < 2 ^ 64 →
  let fallthrough := u64 (read + 4) in
  ∃ c text', let code := exit_code false bb target fallthrough (fst st) c in
    a64_branch_jump_cond dispatcher_addr bb target read cond st = Ok (fst st + code_size code, text')
    ∧ code_at text' (fst st) code ∧ keeps (fst st) (code_size code) (snd st) text'
    ∧ ∀ text s, code_at text (fst st + 8) (drop 2 code) → at_exit text (fst st) s →
        goes text s (dispatched (if cond_holds (invert_cond cond) (nzcv s) then fallthrough else target) bb s).
Proof using Happ.
  intros Hroom Hbb Htg fallthrough. pose proof (u64_range (read + 4)) as Hft. fold fallthrough in Hft.
  set (w := fst st) in *. set (b := branch_addr false bb w).
  pose proof (exit_bounds false bb target w Hroom) as (B1 & B2 & Ba & Ba4 & Bs). fold b in B1, B2, Ba, Ba4.
  set (l1 := taken_code false bb target w). set (sk := skipped_addr false bb target w) in *.
  set (l2 := skipped_code false bb target fallthrough w).
  pose proof (side_size false bb target (b + 4)) as Hz1. change (side_code false bb target (b + 4)) with l1 in Hz1.
  assert (sk = b + 4 + code_size l1) as Hsk by done.
  assert (room 160 (b + 4)) as Hr1 by (eapply room_at; [exact Hroom | lia.. | done]).
  assert (room 100 sk) as Hr2 by (eapply room_at; [exact Hroom | lia.. | done]).
  assert (∃ c, a64_b_cond_helper b sk (invert_cond cond) = Ok c) as (c & Hc).
  { unfold a64_b_cond_helper. pose proof Hroom as [? ? _ _ _ _]. rewrite s64_small by lia. rewrite aligned_sub by done.
    replace ((sk - b <? 1024 * 1024) && (- 1024 * 1024 <=? sk - b)) with true by lia. by eexists. }
  destruct (exit_layout b w (exit_pre false bb) c l1 l2 (snd st) eq_refl) as [Hcode Hkeep].
  eexists c, _. cbv zeta. split_and!; [| exact Hcode | exact Hkeep |].
  - unfold a64_branch_jump_cond, a64_branch_save_context. cbv zeta. rewrite !emit_app.
    change ([NOP; NOP] ++ [a64_push_pair_reg 0 1] ++ copy_to_reg 1 (u64 bb)) with (exit_pre false bb). set (st1 := emit (exit_pre false bb) st).
    change (fst st1) with b. destruct (side_after_id bb target 160 (skip st1)) as (i1 & -> & He1); [exact Hr1 | lia |]. cbn [mbind outcome_bind].
    rewrite He1. change (fst (skip st1)) with (b + 4). change (side_code false bb target (b + 4)) with l1.
    change (fst (emit l1 (skip st1))) with sk. rewrite Hc. cbn [mbind outcome_bind]. set (st2 := patch b c (emit l1 (skip st1))). fold fallthrough.
    destruct (side_after_id bb fallthrough 100 st2) as (i2 & -> & He2); [exact Hr2 | lia |]. cbn [mbind outcome_bind]. rewrite He2.
    change (fst st2) with sk. change (side_code false bb fallthrough sk) with l2.
    unfold st2, st1, emit, patch, skip. cbn [fst snd]. f_equal. f_equal.
    change (exit_code false bb target fallthrough w c) with (exit_pre false bb ++ [c] ++ l1 ++ l2). rewrite !a64_code_size_app.
    change (code_size [c]) with 4. assert (b = w + code_size (exit_pre false bb)) as Hb by done. lia.
  - intros text s Hct Hp. assert (text b = Some c) as Htb.
    { by eapply exit_branch_at. }
    pose proof (exit_goes false bb target fallthrough w Hroom Hbb Htg Hft c (λ m, cond_holds (invert_cond cond) (nzcv m)) text s Hct Hp) as Hgo.
    cbv zeta beta in Hgo. fold b sk in Hgo. pose proof Hroom as [? ? _ _ _ _]. apply Hgo. split; [done|].
    set (m1 := saved false bb b s). assert (pc m1 = b) as Hp1 by (apply pc_set_pc; lia).
    eapply goes_b_cond; [by rewrite Hp1; exact Hc | by rewrite Hp1 | lia].
Qed.
End branches.
End A64Exit.
