(* ===== verification/A64Link.v ===== *)
(** * Linking of A64 blocks (arch/aarch64/dispatcher_aarch64.c)

    When the dispatcher has found the translation of the target of an exit, it
    writes branches into the two words that the exit starts with, so that the
    next execution does not leave the code cache. *)
From S2P Require Import Prelude LinearProbe CodeCacheHash LinkedList AddressTable Dbm.
From S2P Require Import RiscvAsm RiscvEmit Pie RiscvExec RiscvExit RiscvLinked LoadStoreA64 A64Inst A64Asm A64Code A64Exit.
Import Dbm A64Inst A64Asm A64Code A64Exit.
Import RiscvExit (set_exit_branch_addr).
#[local] Open Scope Z_scope.

Module A64Link.

Definition FALLTHROUGH_LINKED : Z := 1.
Definition BRANCH_LINKED : Z := 2.
Definition BOTH_LINKED : Z := 4.

Section link.
Context (cfg : config) {T : Type} `{!AddressTable T (TABLE_SIZE cfg)} (opts : options).
Implicit Types (th : dbm_thread T).

(** The thread and the code cache. *)
Notation linked := (dbm_thread T * cmem)%type.

Definition a64_cc_branch (x : linked) (write_p target : Z) : outcome linked :=
  b ← a64_b_helper write_p target;
  th ← record_cc_link cfg (fst x) write_p target;
  Ok (th, put write_p b (snd x)).

(** A branch over the next word when the condition holds. *)
Definition insert_cond_exit_branch (m : dbm_code_cache_meta) (write_p cond : Z) (text : cmem) : outcome (cmem * Z) :=
  match exit_branch_type m with
  | uncond_imm_a64 => Ok (text, write_p)
  | cond_imm_a64 => i ← a64_b_cond_helper write_p (u64 (write_p + 8)) cond; Ok (put write_p i text, write_p + 4)
  | cbz_a64 =>
      Ok (match a64_cbz_cbnz_helper write_p (negb (cond =? 0)) (u64 (write_p + 8)) (Z.shiftr (rn m) 5) (Z.land (rn m) 0x1F) with
          | Some i => put write_p i text
          | None => text
          end, write_p + 4)
  | tbz_a64 =>
      i ← a64_tbz_tbnz_helper write_p (negb (cond =? 0)) (u64 (write_p + 8)) (Z.land (rn m) 0x1F) (Z.shiftr (rn m) 5);
      Ok (put write_p i text, write_p + 4)
  | _ => Err Hang
  end.

(** A conditional exit: the side that was taken first, and the other one when it
    is translated or taken later. *)
Definition link_conditional (x : linked) (source_index target block_address : Z) : outcome linked :=
  meta ← aget (code_cache_meta (fst x)) source_index;
  let branch_addr := exit_branch_addr meta in
  let is_taken := target =? branch_taken_addr meta in
  y ← (if branch_cache_status meta =? 0 then
         other_target ← cc_lookup cfg (fst x) (if is_taken then branch_skipped_addr meta else branch_taken_addr meta);
         let cond := branch_condition meta in
         z ← insert_cond_exit_branch meta branch_addr (if is_taken then invert_cond cond else cond) (snd x);
         th ← upd_meta source_index (set_branch_cache_status (if is_taken then BRANCH_LINKED else FALLTHROUGH_LINKED)) (fst x);
         Ok ((th, fst z), snd z, if other_target =? UINT_MAX then None else Some other_target)
       else
         th ← upd_meta source_index (λ m, set_branch_cache_status (Z.lor (branch_cache_status m) BOTH_LINKED) m) (fst x);
         Ok ((th, snd x), branch_addr + 8, None));
  let '(x, branch_addr, other) := (y : linked * Z * option Z) in
  x ← a64_cc_branch x branch_addr (u64 (block_address + 4));
  match other with
  | Some other_target =>
      x ← a64_cc_branch x (branch_addr + 4) (u64 (other_target + 4));
      th ← upd_meta source_index (λ m, set_branch_cache_status (Z.lor (branch_cache_status m) BOTH_LINKED) m) (fst x);
      Ok (th, snd x)
  | None => Ok x
  end.

Definition dispatcher_aarch64 (x : linked) (source_index : Z) (exit_type : branch_type) (target block_address : Z) : outcome linked :=
  match exit_type with
  | uncond_imm_a64 =>
      if DBM_LINK_UNCOND_IMM opts then
        meta ← aget (code_cache_meta (fst x)) source_index;
        x ← a64_cc_branch x (exit_branch_addr meta) (u64 (block_address + 4));
        th ← upd_meta source_index (set_branch_cache_status BRANCH_LINKED) (fst x);
        Ok (th, snd x)
      else Ok x
  | cond_imm_a64 => if DBM_LINK_COND_IMM opts then link_conditional x source_index target block_address else Ok x
  | cbz_a64 => if DBM_LINK_CBZ opts then link_conditional x source_index target block_address else Ok x
  | tbz_a64 => if DBM_LINK_TBZ opts then link_conditional x source_index target block_address else Ok x
  | _ => Ok x
  end.
End link.
End A64Link.
