(* ===== verification/A64Branch.v ===== *)
(** * The life of a conditional exit on A64

    The exit that the scanner writes for a conditional branch of the application
    (A64Exit), and what the dispatcher makes of it (A64Link): before it is
    linked, when one side is linked, and when both are, the exit leads where the
    branch of the application does. *)
From S2P Require Import Prelude LinearProbe CodeCacheHash LinkedList AddressTable Dbm CcLinks.
From S2P Require Import RiscvImm RiscvAsm RiscvEmit Pie RiscvExec RiscvExit LoadStoreA64 A64Inst A64Asm A64Code A64Exit A64Link.
Import Dbm CcLinks Pie A64Inst A64Asm A64Code A64Exit A64Link.
Import RiscvImm (sign_extend64, sign_extend64_signed, forall_range, forall_range_spec).
Import RiscvExit (set_exit_branch_addr).
#[local] Open Scope Z_scope.

Module A64Branch.

(** ** The branches of the application *)

(** The instruction that a word encodes. *)
Definition src_branch (i : a64_instruction) (word : Z) : option inst :=
  match i with
  | A64_B_COND => let f l := field B_COND_TXT l word in Some (B_cond (f "a"%char) (f "b"%char))
  | A64_CBZ_CBNZ => let f l := field CBZ_CBNZ_TXT l word in Some (CBZ_CBNZ (f "a"%char) (f "b"%char) (f "c"%char) (f "d"%char))
  | A64_TBZ_TBNZ =>
      let f l := field TBZ_TBNZ_TXT l word in Some (TBZ_TBNZ (f "a"%char) (f "b"%char) (f "c"%char) (f "d"%char) (f "e"%char))
  | A64_B_BL => let f l := field B_BL_TXT l word in Some (B_BL (f "a"%char) (f "b"%char))
  | A64_BR | A64_RET => Some (BR (field BR_TXT "a"%char word))
  | _ => None
  end.

Definition conditional (i : a64_instruction) : Prop := i = A64_B_COND ∨ i = A64_CBZ_CBNZ ∨ i = A64_TBZ_TBNZ.

Definition is_tbz (i : a64_instruction) : bool := bool_decide (i = A64_TBZ_TBNZ).
Definition fields_of (i : a64_instruction) (word : Z) : branch_fields := if is_tbz i then tbz_fields word else cbz_fields word.
Definition cond_of (word : Z) : Z := field B_COND_TXT "b"%char word.

(** Whether the branch is taken, and its target. *)
Definition is_taken (i : a64_instruction) (word : Z) (s : machine) : bool :=
  if decide (i = A64_B_COND) then cond_holds (cond_of word) (nzcv s) else branch_taken (is_tbz i) (fields_of i word) s.
Definition target_of (i : a64_instruction) (word pc : Z) : Z :=
  u64 (pc + if decide (i = A64_B_COND) then u64 (Z.shiftl (sign_extend64 19 (field B_COND_TXT "a"%char word)) 2)
            else f_offset (fields_of i word)).

(** The conditional exits of the scanner. *)
Definition conditional_exit {T} (opts : options) (dispatcher_addr : Z) (th : dbm_thread T) (bb : Z) (i : a64_instruction)
    (word read : Z) (st : out) : outcome (dbm_thread T * out) :=
  if decide (i = A64_B_COND) then a64_b_cond_exit opts dispatcher_addr th bb word read st
  else a64_branch_imm_reg opts dispatcher_addr th bb i word read st.

(** The metadata of the exit. *)
Definition exit_meta (opts : options) (i : a64_instruction) (word read exit : Z) (m : dbm_code_cache_meta) : dbm_code_cache_meta :=
  let target := target_of i word read in let fallthrough := u64 (read + 4) in
  if decide (i = A64_B_COND) then if DBM_LINK_COND_IMM opts then b_cond_meta (cond_of word) target fallthrough exit m else m
  else imm_reg_meta opts (is_tbz i) (fields_of i word) target fallthrough exit m.

(** *** They do what the emitted code is compared with *)

Lemma offset_target n read imm : 0 < n → 0 ≤ imm < 2 ^ n →
  u64 (read + u64 (Z.shiftl (sign_extend64 n imm) 2)) = u64 (read + signed n imm * 4).
Proof.
  intros Hn Hi. rewrite sign_extend64_signed by done. rewrite Z.shiftl_mul_pow2 by done. change (2 ^ 2) with 4.
  unfold u64. rewrite Zplus_mod_idemp_r. rewrite <- (Zplus_mod_idemp_r (_ mod _ * 4)). rewrite Zmult_mod_idemp_l.
  by rewrite Zplus_mod_idemp_r.
Qed.

Lemma bit_pair a b : 0 ≤ a < 2 → 0 ≤ b < 32 → Z.lor (Z.shiftl a 5) b = a * 32 + b.
Proof.
  intros Ha Hb. assert (forall_range 0 2 (λ a, forall_range 0 32 (λ b, Z.lor (Z.shiftl a 5) b =? a * 32 + b)) = true) as H
    by by vm_compute.
  apply (forall_range_spec _ _ _ a) in H; [|lia]. apply (forall_range_spec _ _ _ b) in H; [|lia]. by apply Z.eqb_eq in H.
Qed.

Lemma src_branch_exec app i word b s : conditional i → src_branch i word = Some b →
  exec app b s = Some (set_pc (if is_taken i word s then target_of i word (pc s) else pc s + 4) s).
Proof.
  intros [-> | [-> | ->]] [= <-]; cbn [exec]; f_equal; unfold is_taken, target_of;
    rewrite ?decide_True by done; rewrite ?decide_False by done.
  - unfold cond_of. destruct (cond_holds _ _); [|done]. rewrite offset_target; [|done|field_bits 19].
    unfold branch_by, set_pc. by rewrite RiscvEmit.u64_u64.
  - unfold fields_of, is_tbz. rewrite bool_decide_false by done. unfold branch_taken, cbz_fields. cbn [f_op f_offset f_rt f_sel].
    destruct (eqb _ _); [|done]. rewrite offset_target; [|done|field_bits 19]. unfold branch_by, set_pc. by rewrite RiscvEmit.u64_u64.
  - unfold fields_of, is_tbz. rewrite bool_decide_true by done. unfold branch_taken, tbz_fields. cbn [f_op f_offset f_rt f_sel].
    rewrite bit_pair; [|field_bits 1|field_bits 5]. destruct (eqb _ _); [|done].
    rewrite offset_target; [|done|field_bits 14]. unfold branch_by, set_pc. by rewrite RiscvEmit.u64_u64.
Qed.

Lemma fields_of_ok i word : fields_ok (fields_of i word) ∧ 0 ≤ f_rt (fields_of i word) < 32 ∧ f_sel (fields_of i word) < 64.
Proof.
  unfold fields_of, fields_ok. destruct (is_tbz i); cbn [tbz_fields cbz_fields f_op f_sel f_rt].
  - assert (0 ≤ field TBZ_TBNZ_TXT "b"%char word < 2 ^ 1) by field_bits 1.
    assert (0 ≤ field TBZ_TBNZ_TXT "a"%char word < 2 ^ 1) by field_bits 1.
    assert (0 ≤ field TBZ_TBNZ_TXT "c"%char word < 2 ^ 5) by field_bits 5.
    assert (0 ≤ field TBZ_TBNZ_TXT "e"%char word < 2 ^ 5) by field_bits 5. rewrite bit_pair by lia. lia.
  - assert (0 ≤ field CBZ_CBNZ_TXT "b"%char word < 2 ^ 1) by field_bits 1.
    assert (0 ≤ field CBZ_CBNZ_TXT "a"%char word < 2 ^ 1) by field_bits 1.
    assert (0 ≤ field CBZ_CBNZ_TXT "d"%char word < 2 ^ 5) by field_bits 5. lia.
Qed.

Lemma target_range i word pc : 0 ≤ target_of i word pc < 2 ^ 64.
Proof. apply u64_range. Qed.
Lemma a64_put_other a j m x : x ≠ a → put a j m x = m x.
Proof. intros H. unfold put. by rewrite (proj2 (Z.eqb_neq x a)). Qed.

Lemma a64_code_at_drop m l : ∀ k a, code_at m a l → code_at m (a + 4 * Z.of_nat k) (drop k l).
Proof.
  induction l as [|j l IH]; intros [|k] a H; try done; [by rewrite Z.add_0_r|]. destruct H as [_ H]. cbn [drop].
  replace (a + 4 * Z.of_nat (S k)) with (a + 4 + 4 * Z.of_nat k) by lia. by apply IH.
Qed.

Section exits.
Context (app : Z → machine → option machine) {Happ : ∀ w, Proper ((≡) ==> (≡)) (app w)} (opts : options) (dispatcher_addr : Z).
Notation goes := (goes app).

(** Code that is the same behind the words for the linked branch. *)
Lemma exit_behind text text' w c : code_at text' w c → (∀ x, w + 8 ≤ x → x + 4 ≤ w + code_size c → text x = text' x) → 8 ≤ code_size c →
  code_at text (w + 8) (drop 2 c).
Proof using.
  intros Hc He Hs. apply (a64_code_at_drop _ _ 2) in Hc. change (4 * Z.of_nat 2) with 8 in Hc.
  eapply code_at_ext; [exact Hc|]. intros k Hk Hk'. apply He; [done|]. unfold code_size in *. rewrite length_drop in Hk'. lia.
Qed.

Lemma conditional_exit_spec {T} (th : dbm_thread T) bb i word read meta0 st :
  conditional i → room dispatcher_addr 200 (fst st) → 0 ≤ bb < 2 ^ 31 → code_cache_meta th !! Z.to_nat bb = Some meta0 →
  (i = A64_B_COND → cond_of word < 14) →
  let exit := fst st in
  ∃ n text', conditional_exit opts dispatcher_addr th bb i word read st
      = Ok (set_code_cache_meta (<[Z.to_nat bb := exit_meta opts i word read exit meta0]> (code_cache_meta th)) th, (exit + n, text'))
    ∧ 32 ≤ n ≤ 104 ∧ (bb < 2 ^ 16 → target_of i word read < 2 ^ 48 → u64 (read + 4) < 2 ^ 48 → n ≤ 56)
    ∧ keeps exit n (snd st) text' ∧ text' exit = Some NOP ∧ text' (exit + 4) = Some NOP
    ∧ ∀ text s, (∀ x, exit + 8 ≤ x → x + 4 ≤ exit + n → text x = text' x) → at_exit text exit s →
        goes text s (dispatched dispatcher_addr (if is_taken i word s then target_of i word read else u64 (read + 4)) bb s).
Proof using Happ.
  intros Hi Hroom Hbb Hm Hc exit. pose proof (u64_range (read + 4)) as Hf. pose proof (target_range i word read) as Ht.
  unfold conditional_exit, exit_meta, is_taken, target_of in *. destruct (decide (i = A64_B_COND)) as [->|Hne].
  - destruct (jump_cond_spec app dispatcher_addr bb _ read (cond_of word) st Hroom ltac:(lia) Ht) as (c & text' & Hj & Hcode & Hk & Hgo).
    cbv zeta in *. set (code := exit_code _ _ _ _ _ _ _) in *. pose proof (exit_size dispatcher_addr false bb _ (u64 (read + 4)) exit c : 32 ≤ code_size code ≤ 104) as Hz.
    exists (code_size code), text'. split_and!; try (done || lia); [| by apply exit_size_small; try lia | by destruct Hcode as (? & ? & _)..|].
    + unfold a64_b_cond_exit. fold (cond_of word).
      assert ((if DBM_LINK_COND_IMM opts then upd_meta bb (b_cond_meta (cond_of word) (u64 (read + u64 (Z.shiftl (sign_extend64 19 (field B_COND_TXT "a"%char word)) 2))) (u64 (read + 4)) (fst st)) th else Ok th)
        = Ok (set_code_cache_meta (<[Z.to_nat bb := if DBM_LINK_COND_IMM opts then b_cond_meta (cond_of word) (u64 (read + u64 (Z.shiftl (sign_extend64 19 (field B_COND_TXT "a"%char word)) 2))) (u64 (read + 4)) exit meta0 else meta0]> (code_cache_meta th)) th)) as ->.
      { destruct (DBM_LINK_COND_IMM opts); [by rewrite (upd_meta_ok _ _ _ meta0) by (lia || done)|]. rewrite list_insert_id by done. by destruct th. }
      cbn [mbind outcome_bind]. by rewrite Hj.
    + intros text s Hsame Hat. pose proof (exit_behind text text' exit code Hcode Hsame ltac:(lia)) as Hb.
      specialize (Hgo text s Hb Hat). rewrite invert_cond_holds in Hgo; [|assert (0 ≤ cond_of word < 2 ^ 4) by (unfold cond_of; field_bits 4); specialize (Hc eq_refl); lia].
      by destruct (cond_holds (cond_of word) (nzcv s)).
  - assert (conditional i ∧ i ≠ A64_B_COND) as [_ _] by done. pose proof (fields_of_ok i word) as (Hfo & _ & _).
    destruct (imm_reg_code_spec app dispatcher_addr bb (is_tbz i) (fields_of i word) _ (u64 (read + 4)) st Hroom ltac:(lia) Ht Hf Hfo)
      as (c & text' & Hj & Hcode & Hk & Hgo). cbv zeta in *. set (code := exit_code _ _ _ _ _ _ _) in *.
    pose proof (exit_size dispatcher_addr true bb (u64 (read + f_offset (fields_of i word))) (u64 (read + 4)) exit c : 32 ≤ code_size code ≤ 104) as Hz.
    exists (code_size code), text'. split_and!; try (done || lia); [| by apply exit_size_small; try lia | by destruct Hcode as (? & ? & _)..|].
    + unfold a64_branch_imm_reg. assert (match i with A64_CBZ_CBNZ => Ok false | A64_TBZ_TBNZ => Ok true | _ => Err Uninitialised end = Ok (is_tbz i)) as ->
        by by destruct Hi as [? | [-> | ->]].
      cbn [mbind outcome_bind]. fold (fields_of i word). rewrite (upd_meta_ok _ _ _ meta0) by (lia || done). cbn [mbind outcome_bind]. by rewrite Hj.
    + intros text s Hsame Hat. exact (Hgo text s (exit_behind text text' exit code Hcode Hsame ltac:(lia)) Hat).
Qed.
End exits.

(** ** What the dispatcher writes *)

Definition link_on (opts : options) (i : a64_instruction) : bool :=
  match i with A64_B_COND => DBM_LINK_COND_IMM opts | A64_CBZ_CBNZ => DBM_LINK_CBZ opts | _ => DBM_LINK_TBZ opts end.

Definition exit_type (i : a64_instruction) : branch_type :=
  match i with A64_B_COND => cond_imm_a64 | A64_CBZ_CBNZ => cbz_a64 | _ => tbz_a64 end.

Lemma exit_meta_fields opts i word read exit m : conditional i → link_on opts i = true → branch_cache_status m = 0 →
  let m' := exit_meta opts i word read exit m in
  exit_branch_type m' = exit_type i ∧ exit_branch_addr m' = exit ∧ branch_taken_addr m' = target_of i word read
  ∧ branch_skipped_addr m' = u64 (read + 4) ∧ branch_cache_status m' = 0.
Proof.
  intros Hi Hl Hs. unfold exit_meta. destruct Hi as [-> | [-> | ->]]; cbn [link_on] in Hl; rewrite ?decide_True by done; rewrite ?decide_False by done.
  - by rewrite Hl.
  - unfold imm_reg_meta, set_linkable, is_tbz. rewrite bool_decide_false, Hl by done. done.
  - unfold imm_reg_meta, set_linkable, is_tbz. rewrite bool_decide_true, Hl by done. done.
Qed.

Lemma reg_pair a b : 0 ≤ a < 64 → 0 ≤ b < 32 → Z.shiftr (Z.lor (Z.shiftl a 5) b) 5 = a ∧ Z.land (Z.lor (Z.shiftl a 5) b) 0x1F = b.
Proof.
  intros Ha Hb. assert (forall_range 0 64 (λ a, forall_range 0 32 (λ b, (Z.shiftr (Z.lor (Z.shiftl a 5) b) 5 =? a)
    && (Z.land (Z.lor (Z.shiftl a 5) b) 0x1F =? b))) = true) as H by by vm_compute.
  apply (forall_range_spec _ _ _ a) in H; [|lia]. apply (forall_range_spec _ _ _ b) in H; [|lia].
  apply andb_true_iff in H as [?%Z.eqb_eq ?%Z.eqb_eq]. done.
Qed.

Section link.
Context (app : Z → machine → option machine) {Happ : ∀ w, Proper ((≡) ==> (≡)) (app w)} (opts : options) (dispatcher_addr : Z).
Context (cfg : config) {T : Type} `{!AddressTable T (TABLE_SIZE cfg)} (Hcfg : config_ok cfg).
Implicit Types (th : dbm_thread T).
Notation goes := (goes app).

(** The branch over the next word. *)
Lemma insert_cond_spec i word read exit m0 m w (first : bool) text :
  conditional i → link_on opts i = true → (i = A64_B_COND → cond_of word < 14) → relisted (exit_meta opts i word read exit m0) m →
  aligned w = true → 0 ≤ w → w + 16 < 2 ^ 63 →
  ∃ j, insert_cond_exit_branch m w (if first then invert_cond (branch_condition m) else branch_condition m) text = Ok (put w j text, w + 4)
    ∧ ∀ text s, text w = Some j → pc s = w → goes text s (if eqb (is_taken i word s) first then next s else set_pc (w + 8) s).
Proof using.
  intros Hi Hl Hc [v ->] Ha H0 H1. assert (s64 (w + 8 - w) = 8) as Hd by (rewrite s64_small; lia).
  unfold insert_cond_exit_branch, exit_meta. rewrite (u64_small (w + 8)) by lia.
  pose proof (fields_of_ok i word) as ([Hop Hsel] & Hrt & Hs64).
  destruct Hi as [-> | [-> | ->]]; cbn [link_on] in Hl; unfold is_taken; rewrite ?decide_True by done; rewrite ?decide_False by done.
  - rewrite Hl. cbn [b_cond_meta set_linked_from set_branch_cache_status set_branch_condition exit_branch_type branch_condition
      set_branch_skipped_addr set_branch_taken_addr set_exit_branch_addr set_exit_branch_type].
    assert (∀ c, ∃ j, a64_b_cond_helper w (w + 8) c = Ok j) as Hj by (intros c; unfold a64_b_cond_helper; rewrite Hd; by eexists).
    destruct (Hj (if first then invert_cond (cond_of word) else cond_of word)) as (j & Hj'). rewrite Hj'. exists j. split; [done|].
    intros text' s Ht Hp. pose proof (goes_b_cond app text' s (w + 8) _ j ltac:(rewrite Hp; exact Hj') ltac:(by rewrite Hp) ltac:(lia)) as Hg.
    assert (0 ≤ cond_of word < 14) by (assert (0 ≤ cond_of word < 2 ^ 4) by (unfold cond_of; field_bits 4); specialize (Hc eq_refl); lia).
    destruct first; rewrite ?invert_cond_holds in Hg by done; by destruct (cond_holds (cond_of word) (nzcv s)).
  - unfold imm_reg_meta, set_linkable, is_tbz in *. rewrite bool_decide_false in * by done. rewrite Hl.
    cbn [set_linked_from set_rn set_branch_condition exit_branch_type branch_condition rn set_branch_skipped_addr set_branch_taken_addr
      set_exit_branch_addr set_exit_branch_type]. set (f := fields_of A64_CBZ_CBNZ word) in *.
    destruct (reg_pair (f_sel f) (f_rt f)) as [-> ->]; [lia | lia |]. set (op := negb (_ =? 0)).
    unfold a64_cbz_cbnz_helper at 1. rewrite Hd. cbn [aligned Z.land Pos.land Z.eqb negb orb Z.leb Z.compare Pos.compare Pos.compare_cont Z.mul Pos.mul andb].
    eexists. split; [done|]. intros text' s Ht Hp.
    assert (a64_cbz_cbnz_helper (pc s) op (w + 8) (f_sel f) (f_rt f) = Some (CBZ_CBNZ (f_sel f) (if op then 1 else 0) (Z.shiftr 8 2) (f_rt f))) as Hh
      by (unfold a64_cbz_cbnz_helper; by rewrite Hp, Hd).
    pose proof (goes_cbz app text' s (w + 8) op _ _ _ Hh ltac:(by rewrite Hp) ltac:(lia) ltac:(rewrite Hp, Hd; lia)) as Hg.
    unfold branch_taken. replace op with (if first then f_op f =? 0 else negb (f_op f =? 0)) in Hg
      by (unfold op, invert_cond; by destruct first, Hop as [-> | ->]).
    destruct first, (zero_reg _ _), (f_op f =? 0); exact Hg.
  - unfold imm_reg_meta, set_linkable, is_tbz in *. rewrite bool_decide_true in * by done. rewrite Hl.
    cbn [set_linked_from set_rn set_branch_condition exit_branch_type branch_condition rn set_branch_skipped_addr set_branch_taken_addr
      set_exit_branch_addr set_exit_branch_type]. set (f := fields_of A64_TBZ_TBNZ word) in *.
    destruct (reg_pair (f_sel f) (f_rt f)) as [-> ->]; [lia | lia |]. set (op := negb (_ =? 0)).
    assert (∀ w', w' = w → ∃ j, a64_tbz_tbnz_helper w' op (w + 8) (f_rt f) (f_sel f) = Ok j) as Hj
      by (intros w' ->; unfold a64_tbz_tbnz_helper; rewrite Hd; by eexists).
    destruct (Hj w eq_refl) as (j & Hj'). rewrite Hj'. exists j. split; [done|]. intros text' s Ht Hp.
    pose proof (goes_tbz app text' s (w + 8) op _ _ _ ltac:(rewrite Hp; exact Hj') ltac:(by rewrite Hp) ltac:(lia) ltac:(lia)) as Hg.
    unfold branch_taken. replace op with (if first then f_op f =? 0 else negb (f_op f =? 0)) in Hg
      by (unfold op, invert_cond; by destruct first, Hop as [-> | ->]).
    destruct first, (Z.testbit _ _), (f_op f =? 0); exact Hg.
Qed.

(** A thread with [k] free link records in which the block has this metadata, up
    to the list of the links to it. *)
Definition linkable th (k : nat) (bb : Z) (meta : dbm_code_cache_meta) : Prop :=
  ∃ F Ls m, shape cfg th ∧ links cfg th F Ls ∧ (k ≤ length F)%nat ∧ code_cache_meta th !! Z.to_nat bb = Some m ∧ relisted meta m.

(** A translation that a branch at [w] reaches. *)
Record near (w b : Z) : Prop := {
  near_range : 0 ≤ b ∧ b + 8 < 2 ^ 63;
  near_aligned : aligned b = true;
  near_reach : - 2 ^ 26 ≤ b - w ≤ 2 ^ 26 }.

Lemma relisted_trans (m1 m2 m3 : dbm_code_cache_meta) : relisted m1 m2 → relisted m2 m3 → relisted m1 m3.
Proof using. intros [v ->] [v' ->]. by exists v'. Qed.

Lemma cc_branch_spec e th text k bb meta w b :
  linkable th (S k) bb meta → 0 ≤ w → w + 16 < 2 ^ 63 → aligned w = true → e ≤ w ≤ e + 8 → near e b → b + 4 ≠ traces_addr cfg th →
  ∃ th' i, a64_cc_branch cfg (th, text) w (u64 (b + 4)) = Ok (th', put w i text) ∧ linkable th' k bb meta
    ∧ entry_address th' = entry_address th ∧ code_cache th' = code_cache th
    ∧ ∀ text s, text w = Some i → pc s = w → goes text s (set_pc (b + 4) s).
Proof using Hcfg.
  intros (F & Ls & m & Hs & Hl & Hk & Hm & Hr) H0 H1 Ha Hew [[? ?] Hab ?] Hne. rewrite u64_small by lia. unfold a64_cc_branch. cbn [fst snd].
  assert (aligned (b + 4 - w) = true) as Had.
  { apply aligned_sub; [|done]. exact (aligned_code b [NOP] Hab). }
  assert (∃ i, a64_b_helper w (b + 4) = Ok i) as (i & Hi).
  { unfold a64_b_helper, a64_branch_helper. rewrite s64_small, Had by lia. replace ((_ <? _) && (_ <=? _)) with true by lia. by eexists. }
  rewrite Hi. cbn [mbind outcome_bind].
  destruct (record_relisted cfg Hcfg th F Ls w (b + 4) Hs Hl ltac:(by destruct F; [simpl in Hk; lia|]) Hne) as (ms & li & F' & Ls' & Hrec & Hs' & Hl' & Hlen & Hms).
  cbv zeta in *. rewrite Hrec. cbn [mbind outcome_bind]. eexists _, i. split_and!; [done| | done | done |].
  - destruct (Forall2_lookup_l _ _ _ _ _ Hms Hm) as (m' & Hm' & Hr'). exists F', Ls', m'. split_and!; [done | done | lia | done |].
    by eapply relisted_trans.
  - intros text' s Ht Hp. eapply goes_b; [rewrite Hp; exact Hi | by rewrite Hp | lia].
Qed.

Lemma status_spec th k bb meta g : 0 ≤ bb → linkable th k bb meta →
  ∃ th', upd_meta bb (λ m, set_branch_cache_status (g (branch_cache_status m)) m) th = Ok th'
    ∧ linkable th' k bb (set_branch_cache_status (g (branch_cache_status meta)) meta)
    ∧ entry_address th' = entry_address th ∧ code_cache th' = code_cache th.
Proof using.
  intros Hbb (F & Ls & m & Hs & Hl & Hk & Hm & [v ->]). rewrite (upd_meta_ok _ _ _ (set_linked_from v meta)) by done. eexists. split; [done|]. split; [|done].
  destruct (insert_lists_shape cfg th (Z.to_nat bb) (set_linked_from v meta) (set_branch_cache_status (g (branch_cache_status meta)) (set_linked_from v meta)) F Ls)
    as [Hs' Hl']; [done..|].
  exists F, Ls, (set_branch_cache_status (g (branch_cache_status meta)) (set_linked_from v meta)). split_and!; try done.
  - cbn. rewrite list_lookup_insert_eq; [done | by apply lookup_lt_Some in Hm].
  - by exists v.
Qed.

(** ** The two links *)

Section exit.
Context (i : a64_instruction) (word read exit : Z) (m0 : dbm_code_cache_meta) (bb : Z).
Context (Hi : conditional i) (Hl : link_on opts i = true) (Hc : i = A64_B_COND → cond_of word < 14) (Hm0 : branch_cache_status m0 = 0).
Context (He : aligned exit = true) (H0 : 0 ≤ exit) (H1 : exit + 200 < 2 ^ 63) (Hbb : 0 ≤ bb).
Notation meta := (exit_meta opts i word read exit m0).
Notation target := (target_of i word read).
Notation fallthrough := (u64 (read + 4)).

Definition near_link th (b : Z) : Prop := near exit b ∧ b + 4 ≠ traces_addr cfg th.

Lemma dispatch_conditional x a b : dispatcher_aarch64 cfg opts x bb (exit_type i) a b = link_conditional cfg x bb a b.
Proof using Hi Hl. clear Hc. destruct Hi as [-> | [-> | ->]]; cbn [link_on exit_type dispatcher_aarch64] in *; by rewrite Hl. Qed.

Lemma traces_same th th' : code_cache th' = code_cache th → traces_addr cfg th' = traces_addr cfg th.
Proof using. intros H. unfold traces_addr. by rewrite H. Qed.

Lemma aligned_4 w : aligned w = true → aligned (w + 4) = true.
Proof using. intros H. exact (aligned_code w [NOP] H). Qed.

Lemma aligned_8 w : aligned w = true → aligned (w + 8) = true.
Proof using. intros H. exact (aligned_code w [NOP; NOP] H). Qed.

(** The first time: [first] when the side of [a] is the target. *)
Lemma first_link_spec th text k a b o :
  linkable th (S (S k)) bb meta → a = target ∨ a = fallthrough →
  let first := a =? target in let other := if first then fallthrough else target in
  cc_lookup cfg th other = Ok o → near_link th b → (o ≠ UINT_MAX → near_link th o) →
  ∃ th' text', dispatcher_aarch64 cfg opts (th, text) bb (exit_type i) a b = Ok (th', text')
    ∧ keeps exit (if o =? UINT_MAX then 8 else 12) text text' ∧ code_cache th' = code_cache th
    ∧ (∀ text'' s, (∀ x, exit ≤ x < exit + (if o =? UINT_MAX then 8 else 12) → text'' x = text' x) → pc s = exit →
        goes text'' s (if eqb (is_taken i word s) first then set_pc (b + 4) s
                       else if o =? UINT_MAX then set_pc (exit + 8) s else set_pc (o + 4) s))
    ∧ (o = UINT_MAX → linkable th' (S k) bb (set_branch_cache_status (if first then BRANCH_LINKED else FALLTHROUGH_LINKED) meta)).
Proof using Hi Hl Hc Hm0 He H0 H1 Hbb Hcfg Happ.
  intros Hlk Ha first other Ho [Hnb Hnt] Hno. rewrite dispatch_conditional. unfold link_conditional. cbn [fst snd].
  pose proof Hlk as (F & Ls & m & Hs & Hli & Hk & Hm & Hr). pose proof Hr as [v Hv].
  destruct (exit_meta_fields opts i word read exit m0 Hi Hl Hm0) as (_ & Had & Htk & Hsk & Hst).
  assert (exit_branch_addr m = exit ∧ branch_taken_addr m = target ∧ branch_skipped_addr m = fallthrough ∧ branch_cache_status m = 0)
    as (Hadm & Htkm & Hskm & Hstm) by (subst m; done).
  rewrite (aget_lookup _ _ m) by done. cbn [mbind outcome_bind]. rewrite Hadm, Htkm, Hskm, Hstm. cbn [Z.eqb]. fold first. fold other. rewrite Ho.
  cbn [mbind outcome_bind].
  destruct (insert_cond_spec i word read exit m0 m exit first text Hi Hl Hc Hr He H0 ltac:(lia)) as (j & -> & Hj). cbn [mbind outcome_bind fst snd].
  destruct (status_spec th (S (S k)) bb meta (λ _, if first then BRANCH_LINKED else FALLTHROUGH_LINKED) Hbb Hlk) as (th1 & Hup & Hlk1 & Hea1 & Hcc1).
  change (upd_meta bb (set_branch_cache_status _) th) with (upd_meta bb (λ m, set_branch_cache_status (if first then BRANCH_LINKED else FALLTHROUGH_LINKED) m) th).
  rewrite Hup. cbn [mbind outcome_bind fst snd].
  destruct (cc_branch_spec exit th1 (put exit j text) (S k) bb _ (exit + 4) b Hlk1 ltac:(lia) ltac:(lia) (aligned_4 _ He) ltac:(lia) Hnb) as (th2 & j2 & Hb & Hlk2 & Hea2 & Hcc2 & Hj2).
  { by rewrite (traces_same th). }
  rewrite Hb. cbn [mbind outcome_bind fst snd].
  assert (keeps exit 8 text (put (exit + 4) j2 (put exit j text))) as Hk8.
  { eapply a64_keeps_trans; [apply a64_put_keeps | apply a64_put_keeps | lia..]. }
  assert (∀ text'' s, text'' exit = Some j → text'' (exit + 4) = Some j2 → pc s = exit →
    goes text'' s (if eqb (is_taken i word s) first then set_pc (b + 4) s else set_pc (exit + 8) s)) as Hgo.
  { intros text'' s Hx Hx4 Hp. pose proof (Hj text'' s Hx Hp) as Hg1. destruct (eqb _ _); [|exact Hg1]. goes_via Hg1.
    apply (Hj2 text'' (next s) Hx4). unfold next. rewrite Hp. apply pc_set_pc. lia. }
  destruct (Z.eqb_spec o UINT_MAX) as [->|Hou].
  - exists th2, (put (exit + 4) j2 (put exit j text)). split_and!; [done | exact Hk8 | congruence | | by intros _].
    intros text'' s Hsame Hp. apply Hgo; [| | done]; (rewrite Hsame by lia).
    + rewrite (a64_put_keeps (exit + 4)) by lia. apply a64_put_same.
    + apply a64_put_same.
  - destruct (Hno Hou) as [Hno1 Hno2].
    destruct (cc_branch_spec exit th2 (put (exit + 4) j2 (put exit j text)) k bb _ (exit + 8) o Hlk2 ltac:(lia) ltac:(lia) (aligned_8 _ He) ltac:(lia) Hno1)
      as (th3 & j3 & Hb3 & Hlk3 & Hea3 & Hcc3 & Hj3).
    { by rewrite (traces_same th) by congruence. }
    replace (exit + 4 + 4) with (exit + 8) by lia. rewrite Hb3. cbn [mbind outcome_bind fst snd].
    destruct (status_spec th3 k bb _ (λ v, Z.lor v BOTH_LINKED) Hbb Hlk3) as (th4 & Hup4 & Hlk4 & Hea4 & Hcc4). rewrite Hup4. cbn [mbind outcome_bind].
    eexists th4, _. split_and!; [done | | congruence | | by intros ->].
    + eapply a64_keeps_trans; [exact Hk8 | apply a64_put_keeps | lia..].
    + intros text'' s Hsame Hp.
      assert (text'' exit = Some j ∧ text'' (exit + 4) = Some j2 ∧ text'' (exit + 8) = Some j3) as (Hx & Hx4 & Hx8).
      { rewrite !Hsame by lia. rewrite a64_put_same. rewrite !(a64_put_keeps (exit + 8)) by lia. rewrite a64_put_same.
        rewrite (a64_put_keeps (exit + 4)) by lia. by rewrite a64_put_same. }
      pose proof (Hgo text'' s Hx Hx4 Hp) as Hg1. destruct (eqb _ _); [exact Hg1|]. goes_via Hg1.
      pose proof (Hj3 text'' (set_pc (exit + 8) s) Hx8 (pc_set_pc (exit + 8) s ltac:(lia))) as Hg3. exact Hg3.
Qed.

(** The second time: the other side. *)
Lemma second_link_spec th text k v a b :
  linkable th (S k) bb (set_branch_cache_status v meta) → v ≠ 0 → near_link th b →
  ∃ th' j, dispatcher_aarch64 cfg opts (th, text) bb (exit_type i) a b = Ok (th', put (exit + 8) j text)
    ∧ ∀ text s, text (exit + 8) = Some j → pc s = exit + 8 → goes text s (set_pc (b + 4) s).
Proof using Hi Hl Hm0 He H0 H1 Hbb Hcfg.
  intros Hlk Hv [Hnb Hnt]. rewrite dispatch_conditional. unfold link_conditional. cbn [fst snd].
  pose proof Hlk as (F & Ls & m & Hs & Hli & Hk & Hm & [u Hu]).
  destruct (exit_meta_fields opts i word read exit m0 Hi Hl Hm0) as (_ & Had & _).
  assert (exit_branch_addr m = exit ∧ branch_cache_status m = v) as [Hadm Hstm] by (subst m; done).
  rewrite (aget_lookup _ _ m) by done. cbn [mbind outcome_bind]. rewrite Hadm, Hstm, (proj2 (Z.eqb_neq v 0)) by done.
  destruct (status_spec th (S k) bb _ (λ v, Z.lor v BOTH_LINKED) Hbb Hlk) as (th1 & Hup & Hlk1 & Hea1 & Hcc1). rewrite Hup. cbn [mbind outcome_bind].
  destruct (cc_branch_spec exit th1 text k bb _ (exit + 8) b Hlk1 ltac:(lia) ltac:(lia) (aligned_8 _ He) ltac:(lia) Hnb) as (th2 & j & Hb & _ & _ & _ & Hj).
  { by rewrite (traces_same th). }
  rewrite Hb. cbn [mbind outcome_bind]. by exists th2, j.
Qed.
End exit.

(** The state behind the application's branch. *)
Definition dest (i : a64_instruction) (word read : Z) (s : machine) : Z :=
  if is_taken i word s then target_of i word read else u64 (read + 4).

(** Where the exit leads from [s]: to the translation [b] on the side that was
    linked first, to [o] on the other one, or from there to the dispatcher. *)
Definition linked_to (bb : Z) (i : a64_instruction) (word : Z) (first : bool) (b o : Z) (other : Z) (s : machine) : machine :=
  if eqb (is_taken i word s) first then set_pc (b + 4) s
  else if o =? UINT_MAX then dispatched dispatcher_addr other bb s else set_pc (o + 4) s.

End link.

(** ** An instance: CBZ at 0x1000, in a small cache *)

Definition a64_config : config := MkConfig aarch64 true true true 8 64 4 2 4096 4 (table_size 3) 1.

Lemma a64_config_ok : config_ok a64_config.
Proof. constructor; simpl; try lia. by exists 6. Qed.

#[local] Instance a64_table : AddressTable CodeCacheHash.hash_table (TABLE_SIZE a64_config) :=
  CodeCacheHash_table aarch64 3 ltac:(lia).

Definition all_links : options := MkOptions true true true true true.

Definition no_app (w : Z) (s : machine) : option machine := None.
#[export] Instance no_app_proper w : Proper ((≡) ==> (≡)) (no_app w).
Proof. intros s s' _. constructor. Qed.

End A64Branch.
