(* ===== verification/A64Stack.v ===== *)
(** * Pushing and popping registers on A64 (api/helpers.c)

    The registers that plugins use are saved on the stack and restored, in pairs,
    so that the stack pointer stays a multiple of sixteen. *)
From S2P Require Import Prelude CodeCacheHash RegList RiscvImm RiscvAsm RiscvEmit RiscvContext LoadStoreA64 A64Asm A64Code.
Import RegList.
Import RiscvAsm (load, store, load_store_8, load_store_disjoint, store_frame).
Import RiscvEmit (clear_reg).
Import RiscvContext (regs_of, regs_of_nil, clear_reg_spec, clear_reg_range, u32_lnot_testbit, filter_all, filter_ext_in, load_ext).
Import LoadStoreA64 A64Asm A64Code.
#[local] Open Scope Z_scope.

Module A64Stack.

Notation t := aarch64.

(** [regs &= ~((1 << r1) | (1 << r2))]. *)
Definition clear_pair (regs r1 r2 : Z) : Z := Z.land regs (u32 (Z.lnot (Z.lor (Z.shiftl 1 r1) (Z.shiftl 1 r2)))).

Definition reg_at (l : list Z) (i : nat) : Z := default 0 (l !! i).

(** The loop of [emit_a64_push]: pairs from the highest registers down. *)
Fixpoint push_pairs (fuel : nat) (regs : Z) : outcome (list inst) :=
  match fuel with
  | O => Err OutOfFuel
  | S fuel =>
      if regs =? 0 then Ok []
      else
        x ← get_highest_n_regs t regs 2;
        let '(reg_no, to_push) := x in
        c_assert (reg_no =? 2);;
        l ← push_pairs fuel (clear_pair regs (reg_at to_push 0) (reg_at to_push 1));
        Ok (a64_push_pair_reg (reg_at to_push 1) (reg_at to_push 0) :: l)
  end.

(** The code of [emit_a64_push]; the highest register of an odd number is alone. *)
Definition emit_a64_push (regs : Z) : outcome (list inst) :=
  reg_no ← count_bits regs;
  if Z.odd reg_no then
    x ← get_highest_n_regs t regs 1;
    let '(reg_no, to_push) := x in
    c_assert (reg_no =? 1);;
    l ← push_pairs 17 (clear_reg regs (reg_at to_push 0));
    Ok (a64_push_reg (reg_at to_push 0) :: l)
  else push_pairs 17 regs.

(** The code of [emit_a64_pop]. *)
Fixpoint pop_pairs (fuel : nat) (regs : Z) : outcome (list inst) :=
  match fuel with
  | O => Err OutOfFuel
  | S fuel =>
      if regs =? 0 then Ok []
      else
        x ← get_lowest_n_regs t regs 2;
        let '(reg_no, to_pop) := x in
        c_assert ((reg_no =? 1) || (reg_no =? 2));;
        if reg_no =? 2 then
          l ← pop_pairs fuel (clear_pair regs (reg_at to_pop 0) (reg_at to_pop 1));
          Ok (a64_pop_pair_reg (reg_at to_pop 0) (reg_at to_pop 1) :: l)
        else
          l ← pop_pairs fuel (clear_reg regs (reg_at to_pop 0));
          Ok (a64_pop_reg (reg_at to_pop 0) :: l)
  end.
Definition emit_a64_pop (regs : Z) : outcome (list inst) := pop_pairs 17 regs.

Example push_three : emit_a64_push 11 = Ok [a64_push_reg 3; a64_push_pair_reg 0 1].
Proof. by vm_compute. Qed.
Example pop_three : emit_a64_pop 11 = Ok [a64_pop_pair_reg 0 1; a64_pop_reg 3].
Proof. by vm_compute. Qed.

(** ** The emitted code, by the registers of the set *)

(** Pairs from the lowest register on; the last of an odd number is alone. *)
Fixpoint push_code (l : list Z) : list inst :=
  match l with
  | [] => []
  | [r] => [a64_push_reg r]
  | r1 :: r2 :: l => push_code l ++ [a64_push_pair_reg r1 r2]
  end.
Fixpoint pop_code (l : list Z) : list inst :=
  match l with
  | [] => []
  | [r] => [a64_pop_reg r]
  | r1 :: r2 :: l => a64_pop_pair_reg r1 r2 :: pop_code l
  end.

Lemma pairs_ind (P : list Z → Prop) : P [] → (∀ r, P [r]) → (∀ r1 r2 l, P l → P (r1 :: r2 :: l)) → ∀ l, P l.
Proof.
  intros H0 H1 H2 l. assert (P l ∧ ∀ r, P (r :: l)) as [? _]; [|done].
  induction l as [|r l [IH IH']]; [done|]. split; [apply IH'|]. intros r'. by apply H2.
Qed.

Lemma push_code_pair l a b : Nat.Even (length l) → push_code (l ++ [a; b]) = a64_push_pair_reg a b :: push_code l.
Proof.
  induction l as [|r|r1 r2 l IH] using pairs_ind; intros [k Hk]; [done | simpl in Hk; lia|].
  cbn [Datatypes.app push_code]. rewrite IH; [done|]. exists (k - 1)%nat. simpl in Hk. lia.
Qed.

Lemma push_code_single l r : Nat.Even (length l) → push_code (l ++ [r]) = a64_push_reg r :: push_code l.
Proof.
  induction l as [|r0|r1 r2 l IH] using pairs_ind; intros [k Hk]; [done | simpl in Hk; lia|].
  cbn [Datatypes.app push_code]. rewrite IH; [done|]. exists (k - 1)%nat. simpl in Hk. lia.
Qed.

(** *** The sets that remain *)

Lemma clear_pair_spec rs a b n : 0 ≤ a < 32 → 0 ≤ b < 32 → 0 ≤ n < 32 →
  Z.testbit (clear_pair rs a b) n = Z.testbit rs n && negb (n =? a) && negb (n =? b).
Proof.
  intros Ha Hb Hn. unfold clear_pair. rewrite Z.land_spec, u32_lnot_testbit, Z.lor_spec, !Z.shiftl_1_l, !Z.pow2_bits_eqb by lia.
  rewrite (Z.eqb_sym a), (Z.eqb_sym b). rewrite negb_orb. by rewrite andb_assoc.
Qed.

Lemma clear_pair_range rs a b : 0 ≤ clear_pair rs a b < 2 ^ 32.
Proof.
  unfold clear_pair, u32. rewrite <- Z.land_ones by lia. rewrite Z.land_assoc, Z.land_ones by lia. by apply Z.mod_pos_bound.
Qed.

Lemma regs_of_filter rs rs' (P : Z → Prop) `{∀ x, Decision (P x)} :
  (∀ n, 0 ≤ n < 32 → Z.testbit rs' n = true ↔ Z.testbit rs n = true ∧ P n) → regs_of rs' = filter P (regs_of rs).
Proof.
  intros Hn. unfold regs_of, regs_between. rewrite list_filter_filter. apply filter_ext_in. intros n Hin. apply elem_of_seqZ in Hin.
  rewrite Hn by lia. tauto.
Qed.

Lemma regs_of_range rs r : r ∈ regs_of rs → 0 ≤ r < 32.
Proof. intros Hr. apply elem_of_regs_between in Hr. lia. Qed.

Lemma regs_of_nodup rs : NoDup (regs_of rs).
Proof. apply NoDup_filter, NoDup_seqZ. Qed.

Lemma regs_of_clear rs r l1 l2 : regs_of rs = l1 ++ r :: l2 → regs_of (clear_reg rs r) = l1 ++ l2.
Proof.
  intros Hl. pose proof (regs_of_nodup rs) as Hnd. rewrite Hl in Hnd. apply NoDup_app in Hnd as (_ & Hd & Hnd). apply NoDup_cons in Hnd as [Hr _].
  assert (0 ≤ r < 32) as Hrr by (apply (regs_of_range rs); rewrite Hl; set_solver).
  rewrite (regs_of_filter rs _ (λ n, n ≠ r)) by (intros n Hn; rewrite clear_reg_spec, andb_true_iff, negb_true_iff, Z.eqb_neq by lia; tauto).
  rewrite Hl, filter_app, filter_cons_False by (intros H; by apply H).
  rewrite !filter_all; [done | intros x Hx ->; done | intros x Hx ->; apply (Hd r Hx); set_solver].
Qed.

Lemma regs_of_clear_pair rs a b l1 l2 : regs_of rs = l1 ++ a :: b :: l2 →
  regs_of (clear_pair rs a b) = l1 ++ l2 ∧ regs_of (clear_pair rs b a) = l1 ++ l2.
Proof.
  intros Hl. assert (0 ≤ a < 32 ∧ 0 ≤ b < 32) as [Ha Hb] by (split; apply (regs_of_range rs); rewrite Hl; set_solver).
  assert (regs_of (clear_reg (clear_reg rs a) b) = l1 ++ l2) as Hcc by (eapply regs_of_clear, regs_of_clear, Hl).
  rewrite <- Hcc. unfold regs_of, regs_between.
  split; (apply filter_ext_in; intros n Hn; apply elem_of_seqZ in Hn; rewrite clear_pair_spec, !clear_reg_spec by lia; rewrite !andb_true_iff; tauto).
Qed.

(** *** The loops *)

Lemma push_pairs_spec : ∀ fuel rs, 0 ≤ rs < 2 ^ 32 → Nat.Even (length (regs_of rs)) → (length (regs_of rs) < 2 * fuel)%nat →
  push_pairs fuel rs = Ok (push_code (regs_of rs)).
Proof.
  induction fuel as [|fuel IH]; intros rs Hrs He Hf; [lia|]. cbn [push_pairs].
  destruct (Z.eqb_spec rs 0) as [->|Hne]; [done|].
  assert (∃ M a b, regs_of rs = M ++ [a; b]) as (M & a & b & Hl).
  { destruct (regs_of rs) as [|b M _] eqn:Hl using rev_ind; [by apply (regs_of_nil rs) in Hl|].
    destruct M as [|a M _] using rev_ind; [destruct He as [k Hk]; simpl in Hk; lia|]. exists M, a, b. by rewrite <- app_assoc. }
  unfold get_highest_n_regs. cbn [Z.ltb Z.compare Pos.compare Pos.compare_cont]. change (Z.to_nat 2) with 2%nat.
  rewrite highest_loop_spec by done. change (RegList.reg_invalid t - 1) with 31. fold (regs_of rs). rewrite Hl, length_app, decide_True by (simpl; lia).
  rewrite reverse_app. cbn [reverse rev_append Datatypes.app take mbind outcome_bind fst snd]. cbn.
  destruct (regs_of_clear_pair rs a b M [] Hl) as [_ Hcl]. rewrite app_nil_r in Hcl.
  assert (Nat.Even (length M)) as HeM by (rewrite Hl, length_app in He; destruct He as [k Hk]; exists (k - 1)%nat; simpl in Hk; lia).
  rewrite IH; [| apply clear_pair_range | by rewrite Hcl | rewrite Hcl; rewrite Hl, length_app in Hf; simpl in Hf; lia].
  cbn. by rewrite Hcl, push_code_pair.
Qed.

Lemma emit_a64_push_code rs : 0 ≤ rs < 2 ^ 32 → emit_a64_push rs = Ok (push_code (regs_of rs)).
Proof.
  intros Hrs. unfold emit_a64_push. rewrite count_bits_spec by done. fold (regs_of rs). cbn [mbind outcome_bind].
  assert (length (regs_of rs) ≤ 32)%nat as Hlen.
  { unfold regs_of, regs_between. etrans; [apply length_filter|]. by rewrite length_seqZ. }
  assert (∀ n, Z.odd (Z.of_nat n) = Nat.odd n) as Hodd.
  { intros n. induction n as [|n IH]; [done|]. by rewrite Nat2Z.inj_succ, Z.odd_succ, Nat.odd_succ, <- Z.negb_odd, <- Nat.negb_odd, IH. }
  rewrite Hodd. destruct (Nat.odd _) eqn:Ho.
  - apply Nat.odd_spec in Ho as [k Hk]. destruct (regs_of rs) as [|r M _] eqn:Hl using rev_ind; [simpl in Hk; lia|]. rewrite length_app in *. simpl in Hk.
    unfold get_highest_n_regs. cbn [Z.ltb Z.compare Pos.compare Pos.compare_cont]. change (Z.to_nat 1) with 1%nat.
    rewrite highest_loop_spec by done. change (RegList.reg_invalid t - 1) with 31. fold (regs_of rs). rewrite Hl, length_app, decide_True by (simpl; lia).
    rewrite reverse_app. change (take 1 (reverse [r] ++ reverse M)) with [r]. cbn [mbind outcome_bind]. change (0 + Z.of_nat 1 =? 1) with true.
    cbn [c_assert mbind outcome_bind]. change (reg_at [r] 0) with r. pose proof (regs_of_clear rs r M [] Hl) as Hcl. rewrite app_nil_r in Hcl.
    assert (Nat.Even (length M)) as HeM by (exists k; lia).
    rewrite push_pairs_spec; [| apply clear_reg_range | by rewrite Hcl | rewrite Hcl; simpl in Hlen; lia].
    cbn [mbind outcome_bind]. by rewrite Hcl, push_code_single.
  - apply push_pairs_spec; [done | apply Nat.even_spec; by rewrite <- Nat.negb_odd, Ho | lia].
Qed.

Lemma pop_pairs_spec : ∀ fuel rs, 0 ≤ rs < 2 ^ 32 → (length (regs_of rs) + 1 < 2 * fuel)%nat → pop_pairs fuel rs = Ok (pop_code (regs_of rs)).
Proof.
  induction fuel as [|fuel IH]; intros rs Hrs Hf; [lia|]. cbn [pop_pairs].
  destruct (Z.eqb_spec rs 0) as [->|Hne]; [done|].
  unfold get_lowest_n_regs. cbn [Z.ltb Z.compare Pos.compare Pos.compare_cont]. change (Z.to_nat 2) with 2%nat.
  rewrite lowest_loop_spec by done. change (-1 + 1) with 0. change (last_reg t) with 31. fold (regs_of rs).
  destruct (regs_of rs) as [|a [|b L]] eqn:Hl; [by apply (regs_of_nil rs) in Hl| |].
  - match goal with |- context [@Ok (Z * list Z) ?x] => change x with (1, [a; 32]) end. cbn [mbind outcome_bind]. change ((1 =? 1) || (1 =? 2)) with true. change (1 =? 2) with false.
    cbn [c_assert mbind outcome_bind]. change (reg_at [a; 32] 0) with a.
    rewrite IH; [| apply clear_reg_range |]; rewrite (regs_of_clear rs a [] []) by done; [done | simpl in *; lia].
  - match goal with |- context [@Ok (Z * list Z) ?x] => change x with (2, [a; b]) end. cbn [mbind outcome_bind]. change ((2 =? 1) || (2 =? 2)) with true. change (2 =? 2) with true.
    cbn [c_assert mbind outcome_bind]. change (reg_at [a; b] 0) with a. change (reg_at [a; b] 1) with b.
    destruct (regs_of_clear_pair rs a b [] L Hl) as [Hcl _]. rewrite IH; [| apply clear_pair_range |]; rewrite Hcl; [done | simpl in *; lia].
Qed.

Lemma emit_a64_pop_code rs : 0 ≤ rs < 2 ^ 32 → emit_a64_pop rs = Ok (pop_code (regs_of rs)).
Proof.
  intros Hrs. apply pop_pairs_spec; [done|]. unfold regs_of, regs_between.
  pose proof (length_filter (λ r, Z.testbit rs r = true) (seqZ 0 (31 + 1 - 0))) as Hl. rewrite length_seqZ in Hl. lia.
Qed.

(** ** What the code does *)

(** The space of [n] registers. *)
Definition slots (l : list Z) : Z := 16 * ((Z.of_nat (length l) + 1) / 2).

Lemma slots_pair r1 r2 l : slots (r1 :: r2 :: l) = slots l + 16.
Proof. unfold slots. simpl length. Z.div_mod_to_equations. lia. Qed.

Lemma slots_fit l k r : l !! k = Some r → 8 * Z.of_nat k + 8 ≤ slots l.
Proof. intros Hk. apply lookup_lt_Some in Hk. unfold slots. Z.div_mod_to_equations. lia. Qed.

Lemma slots_nonneg l : 0 ≤ slots l.
Proof. unfold slots. Z.div_mod_to_equations. lia. Qed.

(** Registers and stack pointer in range. *)
Definition regs_ok (s : machine) : Prop := ∀ r, 0 ≤ X s r < 2 ^ 64.

Lemma load_other a b v m : 0 ≤ a → a + 8 ≤ 2 ^ 64 → 0 ≤ b → b + 8 ≤ 2 ^ 64 → a + 8 ≤ b ∨ b + 8 ≤ a → load 8 (store 8 b v m) a = load 8 m a.
Proof. intros. apply load_store_disjoint. intros i j Hi Hj. rewrite !u64_small by lia. lia. Qed.

Lemma store_other b v m x : 0 ≤ b → b + 8 ≤ 2 ^ 64 → x < b ∨ b + 8 ≤ x → store 8 b v m x = m x.
Proof. intros. apply store_frame. intros j Hj. rewrite u64_small by lia. lia. Qed.

Section running.
Context (app : Z → machine → option machine).
Notation run := (run app).

Lemma a64_push_code_run l : ∀ s, regs_ok s → slots l ≤ sp_of s < 2 ^ 64 →
  ∃ s1, run (push_code l) s = Some s1 ∧ (∀ r, X s1 r = X s r) ∧ sp_of s1 = sp_of s - slots l
    ∧ (∀ k r, l !! k = Some r → load 8 (mem s1) (sp_of s1 + 8 * Z.of_nat k) = X s r) ∧ (∀ x, sp_of s ≤ x → mem s1 x = mem s x).
Proof using.
  induction l as [|r|r1 r2 l IH] using pairs_ind; intros s Hok Hsp.
  - exists s. split_and!; try done. change (slots []) with 0. lia.
  - change (slots [r]) with 16 in *. exists (next (push r s)). split; [reflexivity|].
    assert (sp_of (next (push r s)) = sp_of s - 16) as Hs1 by (change (u64 (sp_of s - 16) = sp_of s - 16); apply u64_small; lia). rewrite Hs1.
    split_and!; [done | done | |].
    + intros [|k] r' [= <-]. rewrite Z.add_0_r. by apply load_store_8.
    + intros x Hx. apply store_other; lia.
  - rewrite slots_pair in *. pose proof (slots_nonneg l). destruct (IH s Hok ltac:(lia)) as (s1 & Hrun & HX & Hs1 & Hld & Hm).
    cbn [push_code]. rewrite code_run_app, Hrun. exists (next (push_pair r1 r2 s1)). split; [reflexivity|]. set (s2 := next (push_pair r1 r2 s1)).
    assert (sp_of s2 = sp_of s1 - 16) as Hs2 by (change (sp_of s2) with (u64 (sp_of s1 - 16)); apply u64_small; lia).
    change (mem s2) with (store 8 (sp_of s1 - 16 + 8) (X s1 r2) (store 8 (sp_of s1 - 16) (X s1 r1) (mem s1))).
    rewrite Hs2. split_and!; [done | lia | |].
    + intros [|[|k]] r; cbn [lookup list_lookup].
      * intros [= <-]. rewrite Z.add_0_r, load_other, load_store_8 by (done || lia || rewrite HX; apply Hok). apply HX.
      * intros [= <-]. change (8 * Z.of_nat 1) with 8. rewrite load_store_8 by (rewrite HX; apply Hok). apply HX.
      * intros Hk. pose proof (slots_fit _ _ _ Hk). replace (sp_of s1 - 16 + 8 * Z.of_nat (S (S k))) with (sp_of s1 + 8 * Z.of_nat k) by lia.
        rewrite !load_other by lia. by apply Hld.
    + intros x Hx. rewrite !store_other by lia. by apply Hm.
Qed.

Lemma a64_pop_code_run v l : ∀ s, (∀ r, 0 ≤ v r < 2 ^ 64) → (∀ r, r ∈ l → r ≠ 31) → NoDup l → 0 ≤ sp_of s → sp_of s + slots l < 2 ^ 64 →
  (∀ k r, l !! k = Some r → load 8 (mem s) (sp_of s + 8 * Z.of_nat k) = v r) →
  ∃ s1, run (pop_code l) s = Some s1 ∧ sp_of s1 = sp_of s + slots l ∧ mem s1 = mem s
    ∧ (∀ r, r ∈ l → X s1 r = v r) ∧ (∀ r, r ∉ l → X s1 r = X s r).
Proof using.
  induction l as [|r|r1 r2 l IH] using pairs_ind; intros s Hv H31 Hnd Hsp Hb Hld.
  - exists s. split_and!; try done; [change (slots []) with 0; lia | intros r Hr; by apply not_elem_of_nil in Hr].
  - change (slots [r]) with 16 in *. exists (next (pop r s)). split; [reflexivity|]. assert (r ≠ 31) as Hr by (apply H31; set_solver).
    pose proof (Hld 0%nat r eq_refl) as Hl. rewrite Z.add_0_r in Hl.
    set (s1 := next (pop r s)). assert (s1 = next (set_x r (v r) (set_sp (sp_of s + 16) s))) as Hs1 by (unfold s1, pop; by rewrite Hl).
    rewrite Hs1. split_and!.
    + unfold set_x, set_xreg. cbn. rewrite (proj2 (Z.eqb_neq r 31)) by done. apply u64_small. lia.
    + done.
    + intros r' ->%list_elem_of_singleton. change (X (set_x r (v r) (set_sp (sp_of s + 16) s)) r = v r). rewrite X_set_x_eq by done. by apply u64_small.
    + intros r' Hr'. apply not_elem_of_cons in Hr' as [Hne _]. change (X (set_x r (v r) (set_sp (sp_of s + 16) s)) r' = X s r'). by rewrite X_set_x_ne.
  - rewrite slots_pair in *. pose proof (slots_nonneg l). apply NoDup_cons in Hnd as [Hn1 Hnd]. apply NoDup_cons in Hnd as [Hn2 Hnd].
    apply not_elem_of_cons in Hn1 as [H12 Hn1]. assert (r1 ≠ 31 ∧ r2 ≠ 31) as [Hr1 Hr2] by (split; apply H31; set_solver).
    pose proof (Hld 0%nat r1 eq_refl) as Hl1. rewrite Z.add_0_r in Hl1. pose proof (Hld 1%nat r2 eq_refl) as Hl2. change (8 * Z.of_nat 1) with 8 in Hl2.
    set (s1 := next (pop_pair r1 r2 s)). change (run (pop_code (r1 :: r2 :: l)) s) with (run (pop_code l) s1).
    assert (s1 = next (set_x r2 (v r2) (set_x r1 (v r1) (set_sp (sp_of s + 16) s)))) as Hs1 by (unfold s1, pop_pair; by rewrite Hl1, Hl2).
    assert (sp_of s1 = sp_of s + 16) as Hsp1.
    { rewrite Hs1. unfold set_x, set_xreg. cbn. rewrite (proj2 (Z.eqb_neq r2 31)), (proj2 (Z.eqb_neq r1 31)) by done. apply u64_small. lia. }
    assert (mem s1 = mem s) as Hm1 by (rewrite Hs1; done).
    assert (∀ r, X s1 r = X (set_x r2 (v r2) (set_x r1 (v r1) (set_sp (sp_of s + 16) s))) r) as HX1 by (intros r; by rewrite Hs1).
    destruct (IH s1) as (s3 & Hrun & Hs3 & Hm3 & Hin & Hout); [done | intros r Hr; apply H31; set_solver | done | lia | lia | |].
    { intros k r Hk. rewrite Hm1, Hsp1. rewrite <- (Hld (S (S k)) r Hk). f_equal. lia. }
    exists s3. split_and!; [done | lia | congruence | |].
    + intros r Hr. destruct (decide (r ∈ l)) as [Hl|Hnl]; [by apply Hin|]. rewrite Hout by done. rewrite HX1.
      apply elem_of_cons in Hr as [->|Hr]; [|apply elem_of_cons in Hr as [->|Hr]; [|done]].
      * rewrite X_set_x_ne, X_set_x_eq by done. by apply u64_small.
      * rewrite X_set_x_eq by done. by apply u64_small.
    + intros r Hr. rewrite !not_elem_of_cons in Hr. destruct Hr as (? & ? & ?). rewrite Hout, HX1 by done. by rewrite !X_set_x_ne.
Qed.

(** C25. On A64 the pop restores what the push has saved, for every set of
    registers without SP. The push moves the stack pointer down by a multiple of
    sixteen and changes no register and nothing above the stack pointer; after
    any code that leaves the saved words and the stack pointer as they are, the
    pop gives the registers of the set their old values, leaves the others, and
    restores the stack pointer. *)
Theorem a64_push_pop_roundtrip rs s : 0 ≤ rs < 2 ^ 31 → regs_ok s → 256 ≤ sp_of s < 2 ^ 64 →
  ∃ push pop s1, emit_a64_push rs = Ok push ∧ emit_a64_pop rs = Ok pop ∧ run push s = Some s1
    ∧ (16 | sp_of s - sp_of s1) ∧ (∀ r, X s1 r = X s r) ∧ (∀ x, sp_of s ≤ x → mem s1 x = mem s x)
    ∧ ∀ s2, sp_of s2 = sp_of s1 → (∀ x, sp_of s1 ≤ x < sp_of s → mem s2 x = mem s1 x) →
      ∃ s3, run pop s2 = Some s3 ∧ sp_of s3 = sp_of s ∧ mem s3 = mem s2
        ∧ ∀ r, X s3 r = if (0 <=? r) && (r <? 31) && Z.testbit rs r then X s r else X s2 r.
Proof using.
  intros Hrs Hok Hsp. set (L := regs_of rs).
  assert (∀ r, r ∈ L ↔ 0 ≤ r < 31 ∧ Z.testbit rs r = true) as HL.
  { intros r. unfold L, regs_of. rewrite elem_of_regs_between. split; intros [Hr Hb]; (split; [|done]); [|lia].
    destruct (decide (r = 31)) as [->|]; [|lia]. by rewrite (RiscvImm.testbit_small 31) in Hb by lia. }
  assert (slots L ≤ 256 ∧ (16 | slots L)) as [Hsl Hdiv].
  { split; [|by apply Z.divide_factor_l]. unfold slots, L, regs_of, regs_between.
    pose proof (length_filter (λ r, Z.testbit rs r = true) (seqZ 0 (31 + 1 - 0))) as Hl. rewrite length_seqZ in Hl. Z.div_mod_to_equations. lia. }
  destruct (a64_push_code_run L s Hok ltac:(lia)) as (s1 & Hrun & HX & Hs1 & Hld & Hm).
  exists (push_code L), (pop_code L), s1. split_and!; [apply emit_a64_push_code; lia | apply emit_a64_pop_code; lia | done | | done | done |].
  { rewrite Hs1. by replace (sp_of s - (sp_of s - slots L)) with (slots L) by lia. }
  intros s2 Hs2 Hsame.
  destruct (a64_pop_code_run (X s) L s2) as (s3 & Hrun3 & Hs3 & Hm3 & Hin & Hout); [done | intros r Hr; apply HL in Hr; lia | apply regs_of_nodup | lia | lia | |].
  { intros k r Hk. rewrite <- (Hld k r Hk), Hs2. pose proof (slots_fit _ _ _ Hk). apply load_ext. intros j Hj. rewrite u64_small by lia. apply Hsame. lia. }
  exists s3. split_and!; [done | lia | done |]. intros r.
  destruct (decide (r ∈ L)) as [Hr|Hr].
  - rewrite (Hin r Hr). apply HL in Hr as [Hr ->]. by replace ((0 <=? r) && (r <? 31)) with true by lia.
  - rewrite (Hout r Hr). destruct ((0 <=? r) && (r <? 31) && Z.testbit rs r) eqn:Hb; [|done]. exfalso. apply Hr, HL.
    apply andb_true_iff in Hb as [Hb ?]. split; [lia | done].
Qed.
End running.

(** X0, X1 and X3, in a machine whose registers hold their numbers. *)
Definition numbered : machine := MkMachine 0 (MkA64 (λ r, r mod 32) 0x1000) (λ _, 0) 0 0 (λ _, 0).

Lemma a64_push_pop_roundtrip_witness :
  ∃ push pop s1 s3, emit_a64_push 11 = Ok push ∧ emit_a64_pop 11 = Ok pop ∧ run (λ _ _, None) push numbered = Some s1
    ∧ run (λ _ _, None) pop (set_x 0 77 s1) = Some s3 ∧ X s3 0 = 0 ∧ X s3 3 = 3.
Proof.
  destruct (a64_push_pop_roundtrip (λ _ _, None) 11 numbered) as (push & pop & s1 & Hpu & Hpo & Hr & _ & HX & _ & Hpop); [lia | | cbn; lia |].
  - intros r. unfold X, xreg, numbered. cbn. destruct (r =? 31); [lia|]. pose proof (Z.mod_pos_bound r 32). lia.
  - destruct (Hpop (set_x 0 77 s1)) as (s3 & Hr3 & _ & _ & H3); [done | done |]. exists push, pop, s1, s3.
    split_and!; [exact Hpu | exact Hpo | exact Hr | exact Hr3 | exact (H3 0) | exact (H3 3)].
Defined.
End A64Stack.
