(* ===== verification/A64Lookup.v ===== *)
(** * Indirect branches of A64 blocks (arch/aarch64/scanner_a64.c)

    [a64_inline_hash_lookup] emits code that searches the hash table of
    CodeCacheHash for the target and branches to its translation, or enters the
    dispatcher. *)
From S2P Require Import Prelude LinearProbe CodeCacheHash LinkedList AddressTable Dbm.
From S2P Require Import RiscvAsm LoadStoreA64 A64Asm A64Code A64Exit.
Import Dbm LoadStoreA64 A64Asm A64Code A64Exit.
#[local] Open Scope Z_scope.

Module A64Lookup.

Definition mov (rd rn : Z) : inst := Data (logical_reg 1 1 0 0 rn 0 xzr rd).

(** Whether X2 is used, the register of the target and the temporary. *)
Record lookup_regs := MkRegs { use_x2 : bool; reg_spc : Z; reg_tmp : Z }.

Definition choose_regs (rn : Z) (link : bool) : lookup_regs :=
  if (rn =? 0) || (rn =? 1) || (link && (rn =? lr)) then MkRegs true 1 2 else MkRegs false rn 1.

Section lookup.
Context (dispatcher_addr entries_addr : Z).

Definition lookup_head (r : lookup_regs) (read_address rn : Z) (link : bool) : list inst :=
  [a64_push_pair_reg 0 1]
  ++ (if use_x2 r then [a64_push_reg 2] ++ (if negb (rn =? reg_spc r) then [mov (reg_spc r) rn] else []) else [])
  ++ (if link then copy_to_reg lr (u64 (read_address + 4)) else [])
  ++ copy_to_reg 0 entries_addr
  ++ [logical_immed 1 0 1 62 18 (reg_spc r) (reg_tmp r); ADD_SUB_shift_reg 1 0 0 0 (reg_tmp r) 2 0 0].

Definition pop_x2 (r : lookup_regs) : list inst := if use_x2 r then [a64_pop_reg 2] else [].

Definition lookup_code (r : lookup_regs) (basic_block read_address rn : Z) (link : bool) (st : out) : outcome out :=
  let st := emit (lookup_head r read_address rn link) st in
  let loop := fst st in
  let st := emit [LDR_STR_immed 3 0 1 16 1 0 (reg_tmp r)] st in
  let branch_to_not_found := fst st in
  let st := emit [ADD_SUB_shift_reg 1 1 0 0 (reg_spc r) 0 (reg_tmp r) (reg_tmp r)] (skip st) in
  again ← a64_cbnz_helper (fst st) loop 1 (reg_tmp r);
  let st := emit ([again; LDR_STR_immed 3 0 1 (-8) 0 0 0] ++ pop_x2 r ++ [BR 0]) st in
  miss ← a64_cbz_helper branch_to_not_found (fst st) 1 (reg_tmp r);
  let st := emit ([mov 0 (reg_spc r)] ++ copy_to_reg 1 (u64 basic_block) ++ pop_x2 r) (patch branch_to_not_found miss st) in
  b ← a64_b_helper (fst st) dispatcher_addr;
  Ok (emit [b] st).

Section thread.
Context {T : Type}.

Definition a64_inline_hash_lookup (th : dbm_thread T) (basic_block read_address rn : Z) (link set_meta : bool) (st : out)
    : outcome (dbm_thread T * out) :=
  let r := choose_regs rn link in
  th ← (if set_meta then upd_meta basic_block (set_rn (reg_spc r)) th else Ok th);
  st ← lookup_code r basic_block read_address rn link st;
  Ok (th, st).
End thread.
End lookup.
End A64Lookup.
