(* ===== verification/A64LookupSpec.v ===== *)
(** * The inline hash lookup of A64 refines the table

    What the code of A64Lookup does when it is executed: the registers that it
    prepares, the search in a table of CodeCacheHash, and the two ways out. *)
From stdpp Require Import relations.
From S2P Require Import Prelude LinearProbe CodeCacheHash LinkedList AddressTable Dbm.
From S2P Require Import RiscvAsm RiscvEmit RiscvContext RiscvLookup RiscvLookupSpec LoadStoreA64 A64Asm A64Code A64Exit A64Branch A64Lookup.
Import Dbm A64Asm A64Code A64Exit A64Lookup.
Import A64Branch (no_app, no_app_proper, a64_config).
Import RiscvAsm (load, store, load_store_8, store_frame, load_store_disjoint).
Import RiscvEmit (u64_u64, u64_add_l).
Import RiscvContext (load_ext).
Import RiscvLookup (table_in).
Import RiscvLookupSpec (bucket, bucket_range, usable, usable_end, usable_words, search_end, home_bucket, load_u64, empty_table, empty_table_usable, table_length, table_length_Z, zero_load).
Import LoadStoreA64 (MkA64, xr, logical_reg, set_xreg, set_xsp, xreg).
#[local] Open Scope Z_scope.

Module A64LookupSpec.

(** ** States and stores *)

Lemma X_set_x r v s k : k ≠ 31 → X (set_x r v s) k = if decide (k = r) then u64 v else X s k.
Proof. intros Hk. case_decide as Hr; [subst; by apply X_set_x_eq | by apply X_set_x_ne]. Qed.

Lemma X_push_pair r1 r2 s k : X (push_pair r1 r2 s) k = X s k.
Proof. done. Qed.
Lemma X_push r s k : X (push r s) k = X s k.
Proof. done. Qed.
Lemma X_set_mem m s k : X (set_mem m s) k = X s k.
Proof. done. Qed.
Lemma X_set_sp v s k : X (set_sp v s) k = X s k.
Proof. done. Qed.
Lemma pc_push_pair r1 r2 s : pc (push_pair r1 r2 s) = pc s.
Proof. done. Qed.
Lemma pc_push r s : pc (push r s) = pc s.
Proof. done. Qed.
Lemma pc_set_mem m s : pc (set_mem m s) = pc s.
Proof. done. Qed.
Lemma pc_set_sp v s : pc (set_sp v s) = pc s.
Proof. done. Qed.
Lemma sp_push_pair r1 r2 s : sp_of (push_pair r1 r2 s) = u64 (sp_of s - 16).
Proof. done. Qed.
Lemma sp_push r s : sp_of (push r s) = u64 (sp_of s - 16).
Proof. done. Qed.
Lemma sp_set_mem m s : sp_of (set_mem m s) = sp_of s.
Proof. done. Qed.
Lemma sp_set_sp v s : sp_of (set_sp v s) = u64 v.
Proof. done. Qed.
Lemma mem_set_x r v s : mem (set_x r v s) = mem s.
Proof. done. Qed.
Lemma mem_set_sp v s : mem (set_sp v s) = mem s.
Proof. done. Qed.

Lemma pc_set_x r v s : pc (set_x r v s) = pc s.
Proof. done. Qed.

Lemma sp_set_x r v s : sp_of (set_x r v s) = sp_of s.
Proof. unfold set_x, set_xreg, sp_of. cbn. by destruct (r =? 31). Qed.

(** What the code below does not touch. *)
Definition rest (s : machine) : (Z → Z) * Z * Z := (vr s, nzcv s, tpidr s).
Lemma rest_set_x r v s : rest (set_x r v s) = rest s.
Proof. done. Qed.
Lemma rest_push_pair r1 r2 s : rest (push_pair r1 r2 s) = rest s.
Proof. done. Qed.
Lemma rest_push r s : rest (push r s) = rest s.
Proof. done. Qed.
Lemma rest_set_mem m s : rest (set_mem m s) = rest s.
Proof. done. Qed.
Lemma rest_set_sp v s : rest (set_sp v s) = rest s.
Proof. done. Qed.

Lemma state_ext s s' : pc s = pc s' → (∀ r, r ≠ 31 → X s r = X s' r) → sp_of s = sp_of s' → rest s = rest s' → (∀ a, mem s a = mem s' a) → s ≡ s'.
Proof. intros H1 H2 H3 [= H4 H5 H6] H7. apply machine_ext; try done. intros r. by rewrite H4. Qed.

(** The parts of a state behind updates. *)
Create HintDb a64_state.
#[export] Hint Rewrite X_push_pair X_push X_set_mem X_set_sp pc_push_pair pc_push pc_set_mem pc_set_sp pc_set_x sp_push_pair sp_push
  sp_set_mem sp_set_sp sp_set_x mem_set_x mem_set_sp
  rest_set_x rest_push_pair rest_push rest_set_mem rest_set_sp : a64_state.
#[export] Hint Rewrite X_set_x using done : a64_state.

(** An address is among those of an access, or not. *)
Lemma covered n x a : (∃ j, 0 ≤ j < Z.of_nat n ∧ x = u64 (a + j)) ∨ ∀ j, 0 ≤ j < Z.of_nat n → x ≠ u64 (a + j).
Proof.
  destruct (decide (x ∈ (λ i, u64 (a + Z.of_nat i)) <$> seq 0 n)) as [(i & Hi & Hin%elem_of_seq)%list_elem_of_fmap|Hno].
  - left. exists (Z.of_nat i). split; [lia | done].
  - right. intros j Hj He. apply Hno, list_elem_of_fmap. exists (Z.to_nat j). rewrite Z2Nat.id, elem_of_seq by lia. split; [done | lia].
Qed.

Lemma store_inside n x j : ∀ a v m m', 0 ≤ j < Z.of_nat n → x = u64 (a + j) → store n a v m x = store n a v m' x.
Proof.
  revert j. induction n as [|n IH]; intros j a v m m' Hj Hx; [lia|]. cbn [store]. destruct (covered n x (a + 1)) as [(i & Hi & Hxi)|Hno].
  - by apply (IH i).
  - rewrite !store_frame by done. destruct (decide (j = 0)) as [->|Hj0].
    + rewrite Z.add_0_r in Hx. subst x. by rewrite Z.eqb_refl.
    + exfalso. apply (Hno (j - 1)); [lia|]. rewrite Hx. f_equal. lia.
Qed.

Lemma store_cong n : ∀ a b v m, u64 a = u64 b → store n a v m = store n b v m.
Proof.
  induction n as [|n IH]; intros a b v m Hab; [done|]. cbn [store]. rewrite Hab. apply IH. by rewrite <- (u64_add_l a), <- (u64_add_l b), Hab.
Qed.

(** Stores to different places commute. *)
Lemma store_store n k a b v w m : (∀ i j, 0 ≤ i < Z.of_nat n → 0 ≤ j < Z.of_nat k → u64 (a + i) ≠ u64 (b + j)) →
  memeq (store n a v (store k b w m)) (store k b w (store n a v m)).
Proof.
  intros Hd x. destruct (covered n x a) as [(i & Hi & Hx)|Hna].
  - rewrite (store_inside n x i a v _ m) by done. symmetry. apply store_frame. intros j Hj. rewrite Hx. by apply Hd.
  - rewrite store_frame by done. destruct (covered k x b) as [(i & Hi & Hx)|Hnb]; [by apply (store_inside k x i)|].
    by rewrite !(store_frame k), store_frame by done.
Qed.

(** ** Straight code

    [does l s t]: wherever [l] is, it leads from [s] to [t]. *)

Section does.
Context (app : Z → machine → option machine) {Happ : ∀ w, Proper ((≡) ==> (≡)) (app w)}.
Notation goes := (goes app).
Notation exec := (exec app).

Definition does (l : list inst) (s t : machine) : Prop := ∀ text p, 0 ≤ p → p + code_size l < 2 ^ 64 → code_at text p l →
  goes text (set_pc p s) (set_pc (p + code_size l) t).

#[export] Instance does_proper l : Proper ((≡) ==> (≡) ==> iff) (does l).
Proof using Happ. intros s s' Hs t t' Ht. unfold does. by setoid_rewrite Hs; setoid_rewrite Ht. Qed.

Lemma does_nil s t : s ≡ t → does [] s t.
Proof using Happ. intros Hs text p _ _ _. unfold code_size. simpl. rewrite Z.add_0_r, Hs. apply goes_refl. Qed.

Lemma does_app l1 l2 s t u : does l1 s t → does l2 t u → does (l1 ++ l2) s u.
Proof using Happ.
  intros H1 H2 text p H0 Hb Hc. apply a64_code_at_app in Hc as [Hc1 Hc2]. rewrite a64_code_size_app in *.
  pose proof (a64_code_size_nonneg l1). pose proof (a64_code_size_nonneg l2).
  eapply goes_trans; [exact Happ | apply H1; (done || lia) |]. rewrite Z.add_assoc. apply H2; (done || lia).
Qed.

Lemma does_one i s t : (∀ p, 0 ≤ p → p + 4 < 2 ^ 64 → ∃ t', exec i (set_pc p s) = Some t' ∧ t' ≡ set_pc (p + 4) t) → does [i] s t.
Proof using Happ.
  intros He text p H0 Hb [Hi _]. change (code_size [i]) with 4 in *. destruct (He p H0 Hb) as (t' & Hx & <-).
  eapply goes_step; [|done]. by rewrite pc_set_pc by lia.
Qed.

Lemma does_copy reg v s : 0 ≤ reg ≤ 31 → 0 ≤ v < 2 ^ 64 → does (copy_to_reg reg v) s (set_x reg v s).
Proof using Happ.
  intros Hr Hv text p H0 Hb Hc. pose proof (a64_copy_size reg v). pose proof (goes_copy app text reg v (set_pc p s) Hr Hv) as Hg.
  rewrite pc_set_pc in Hg by lia. by apply Hg.
Qed.

(** Instructions that go on behind themselves. *)
Lemma does_next i s t : (∀ p, exec i (set_pc p s) = Some (next (set_pc p t))) → does [i] s t.
Proof using Happ.
  intros He. apply does_one. intros p H0 Hb. exists (next (set_pc p t)). split; [apply He|]. unfold next. by rewrite pc_set_pc by lia.
Qed.

Lemma does_push_pair r1 r2 s : does [a64_push_pair_reg r1 r2] s (push_pair r1 r2 s).
Proof using Happ. by apply does_next. Qed.
Lemma does_push r s : does [a64_push_reg r] s (push r s).
Proof using Happ. by apply does_next. Qed.
Lemma does_pop r s : does [a64_pop_reg r] s (pop r s).
Proof using Happ. by apply does_next. Qed.
Lemma does_mov rd rn s : does [mov rd rn] s (set_x rd (X s rn) s).
Proof using Happ. apply does_next. intros p. cbn. do 2 f_equal. Qed.
End does.

(** The first piece of a code. *)
Ltac does_by H := first [assumption | eapply H; (assumption || done || lia || apply u64_range)].
Ltac does_via H := eapply does_app; [assumption | does_by H |].

(** ** Before the search *)

Section head.
Context (cfg : config) (Htarget : cfg_target cfg = aarch64) (entries_addr : Z) (Hent : 0 ≤ entries_addr < 2 ^ 63).
Context (app : Z → machine → option machine) {Happ : ∀ w, Proper ((≡) ==> (≡)) (app w)}.
Notation does := (does app).
Notation bucket := (bucket cfg).

(** The mask in the AND, and the shift behind it. *)
Lemma bucket_mask k : Z.land k (bit_mask 62 18) = bucket k * 4.
Proof using Htarget.
  unfold bucket. rewrite Htarget. change (bit_mask 62 18) with (Z.shiftl CodeCacheHash.CODE_CACHE_HASH_SIZE 2).
  change (CodeCacheHash.HT_SHIFT aarch64) with 2. change 4 with (2 ^ 2). rewrite <- Z.shiftl_mul_pow2 by done.
  rewrite Z.shiftl_land. apply Z.bits_inj'. intros n Hn. rewrite !Z.land_spec. destruct (decide (n < 2)).
  - by rewrite !(Z.shiftl_spec_low _ 2 n), !andb_false_r by done.
  - rewrite !Z.shiftl_spec, Z.shiftr_spec by lia. by replace (n - 2 + 2) with n by lia.
Qed.

(** The registers and the stack that the lookup prepares. *)
Definition linked (link : bool) (ret : Z) (s : machine) : machine := if link then set_x lr ret s else s.
Definition context (r : lookup_regs) (s : machine) : machine := if use_x2 r then push 2 (push_pair 0 1 s) else push_pair 0 1 s.
Definition prepared (r : lookup_regs) (rn : Z) (link : bool) (ret : Z) (s : machine) : machine :=
  linked link ret (set_x (reg_spc r) (X s rn) (context r s)).

Lemma chosen rn link : 0 ≤ rn ≤ 31 → let r := choose_regs rn link in
  0 ≤ reg_spc r ≤ 31 ∧ 0 < reg_tmp r ≤ 2 ∧ reg_spc r ≠ 0 ∧ reg_spc r ≠ reg_tmp r ∧ (link = true → reg_spc r ≠ lr)
  ∧ (if use_x2 r then reg_spc r = 1 ∧ reg_tmp r = 2 else reg_spc r = rn ∧ reg_tmp r = 1).
Proof using.
  intros Hrn. unfold choose_regs. destruct ((rn =? 0) || (rn =? 1) || (link && (rn =? lr))) eqn:H; simpl; [split_and!; (done || lia)|].
  apply orb_false_iff in H as [[H1 H2]%orb_false_iff H3]. split_and!; try done; try lia. intros ->. simpl in H3. lia.
Qed.

Section lookup_in_rn.
Context (rn : Z) (link : bool) (Hrn : 0 ≤ rn ≤ 31).
Notation r := (choose_regs rn link).

Definition spill_code : list inst := if use_x2 r then [a64_push_reg 2] ++ (if negb (rn =? reg_spc r) then [mov (reg_spc r) rn] else []) else [].

Lemma spill_does s : (∀ k, 0 ≤ X s k < 2 ^ 64) → does spill_code (push_pair 0 1 s) (set_x (reg_spc r) (X s rn) (context r s)).
Proof using Happ Hrn.
  intros Hok. destruct (chosen rn link Hrn) as (_ & _ & _ & _ & _ & Hu). unfold spill_code, context. destruct (use_x2 r).
  - does_via does_push. destruct (Z.eqb_spec rn (reg_spc r)) as [He|He]; cbn [negb].
    + apply does_nil; [done|]. symmetry. rewrite <- He. apply (set_x_self rn (push 2 (push_pair 0 1 s))), Hok.
    + by apply (does_mov app (reg_spc r) rn (push 2 (push_pair 0 1 s))).
  - destruct Hu as [-> _]. apply does_nil; [done|]. symmetry. apply (set_x_self rn (push_pair 0 1 s)), Hok.
Qed.

Lemma prepared_spc ret s : (∀ k, 0 ≤ X s k < 2 ^ 64) → X (prepared r rn link ret s) (reg_spc r) = X s rn.
Proof using Hrn.
  intros Hok. destruct (chosen rn link Hrn) as (_ & _ & _ & _ & Hl & Hu).
  assert (X (set_x (reg_spc r) (X s rn) (context r s)) (reg_spc r) = X s rn) as Hk.
  { destruct (decide (reg_spc r = 31)) as [He|He]; [|rewrite X_set_x_eq by done; apply u64_small, Hok].
    rewrite He. destruct (use_x2 r); [lia|]. destruct Hu as [<- _]. by rewrite He. }
  unfold prepared, linked. destruct link eqn:Hlk; [|done]. rewrite X_set_x_ne; [done | by apply Hl].
Qed.

Lemma slot_does c : 0 ≤ X c (reg_spc r) → 
  does [logical_immed 1 0 1 62 18 (reg_spc r) (reg_tmp r); ADD_SUB_shift_reg 1 0 0 0 (reg_tmp r) 2 0 0] (set_x 0 entries_addr c)
    (set_x (reg_tmp r) (bucket (X c (reg_spc r)) * 4) (set_x 0 (entries_addr + 16 * bucket (X c (reg_spc r))) c)).
Proof using Htarget Happ Hent Hrn.
  intros Hc. destruct (chosen rn link Hrn) as (_ & Ht & Hs0 & _). set (k := X c (reg_spc r)) in *. pose proof (bucket_range cfg k) as Hb.
  change CodeCacheHash.CODE_CACHE_HASH_SIZE with (2 ^ 19 - 1) in Hb. fold bucket in Hb. set (tmp := reg_tmp r) in *.
  change [?a; ?b] with ([a] ++ [b]). eapply (does_app app _ _ _ (set_x tmp (bucket k * 4) (set_x 0 entries_addr c))).
  - apply does_next; [done|]. intros p. cbn [exec Z.eqb andb Pos.eqb]. do 2 f_equal.
    change (X (set_pc p (set_x 0 entries_addr c)) (reg_spc r)) with (X (set_x 0 entries_addr c) (reg_spc r)).
    rewrite X_set_x_ne by done. fold k. change (62 mod 64) with 62. change (18 mod 64) with 18. rewrite bucket_mask.
    unfold set_base, set_x, set_xsp. by rewrite (proj2 (Z.eqb_neq tmp 31)) by lia.
  - apply does_one; [done|]. intros p H0 Hp. eexists. split; [reflexivity|].
    match goal with |- next (set_x 0 ?v ?s) ≡ _ => assert (u64 v = entries_addr + 16 * bucket k) as Hv end.
    { cbn [Z.eqb]. change (2 ^ (2 mod 64)) with 4. change (X (set_pc p ?t)) with (X t).
      rewrite (X_set_x_ne tmp _ _ 0), (X_set_x_eq 0), (X_set_x_eq tmp) by lia. rewrite (u64_small entries_addr), (u64_small (_ * 4)), u64_small by lia. lia. }
    rewrite <- Hv, set_x_u64. unfold next. change (pc _ + 4) with (u64 p + 4). rewrite u64_small by lia.
    change (set_pc (p + 4) (set_x 0 ?v (set_pc p ?t))) with (set_pc (p + 4) (set_x 0 v t)). apply set_pc_proper.
    rewrite (set_x_comm 0 tmp), set_x_x by lia. done.
Qed.

Lemma head_does ret read s : ret = u64 (read + 4) → (∀ k, 0 ≤ X s k < 2 ^ 64) →
  ∃ t, does (lookup_head entries_addr r read rn link) s
         (set_x (reg_tmp r) t (set_x 0 (entries_addr + 16 * bucket (X s rn)) (prepared r rn link ret s))).
Proof using Htarget Happ Hent Hrn.
  intros -> Hok. exists (bucket (X s rn) * 4). pose proof (prepared_spc (u64 (read + 4)) s Hok) as Hc. unfold lookup_head.
  does_via does_push_pair. eapply does_app; [done | by apply spill_does |].
  eapply (does_app app _ _ _ (prepared r rn link (u64 (read + 4)) s)).
  { unfold prepared, linked. destruct link; [|by apply does_nil]. apply does_copy; [done | done | apply u64_range]. }
  does_via does_copy. pose proof (slot_does (prepared r rn link (u64 (read + 4)) s)) as Hd. rewrite Hc in Hd. apply Hd, Hok.
Qed.
End lookup_in_rn.
End head.

(** ** The search *)

Section search.
Context (app : Z → machine → option machine) {Happ : ∀ w, Proper ((≡) ==> (≡)) (app w)}.
Context (text : cmem) (L nf spc tmp base : Z) (es : list hash_entry) (c : machine) (miss again : inst).
Context (Hspc : 0 ≤ spc ≤ 31) (Htmp : 0 < tmp ≤ 2) (Hspc0 : spc ≠ 0) (Hne : spc ≠ tmp) (Hk : 0 ≤ X c spc < 2 ^ 64).
Context (HL : 0 ≤ L) (HLb : L + 100 < 2 ^ 63) (Hnf : L ≤ nf ≤ L + 100).
Context (Hmiss : a64_cbz_helper (L + 4) nf 1 tmp = Ok miss) (Hagain : a64_cbnz_helper (L + 12) L 1 tmp = Ok again).
Context (Hbase : 0 ≤ base) (Hend : base + 16 * Z.of_nat (length es) < 2 ^ 64) (Htable : table_in (mem c) base es).
Context (Hwords : Forall (λ e, 0 ≤ key e < 2 ^ 64 ∧ 0 ≤ value e < 2 ^ 64) es).
Notation goes := (goes app text).

Definition loop_code : list inst :=
  [LDR_STR_immed 3 0 1 16 1 0 tmp; miss; ADD_SUB_shift_reg 1 1 0 0 spc 0 tmp tmp; again; LDR_STR_immed 3 0 1 (-8) 0 0 0].
Context (Hcode : code_at text L loop_code).

(** At a slot of the table, with the temporary. *)
Definition at_slot (i : nat) (t : Z) : machine := set_x tmp t (set_x 0 (base + 16 * Z.of_nat i) c).

Lemma X_at_slot i t k : k ≠ 31 → X (at_slot i t) k = if decide (k = tmp) then u64 t else if decide (k = 0) then u64 (base + 16 * Z.of_nat i) else X c k.
Proof using. intros. unfold at_slot. by rewrite !X_set_x. Qed.

Lemma spc_at_slot i t : X (at_slot i t) spc = X c spc.
Proof using Hspc0 Hne. unfold at_slot. by rewrite !X_set_x_ne. Qed.

Lemma at_slot_set i t v : set_x tmp v (at_slot i t) ≡ at_slot i v.
Proof using. apply set_x_x. Qed.

(** A slot is loaded. *)
Lemma a64_slot_loaded i e t : es !! i = Some e → goes (set_pc L (at_slot i t)) (set_pc (L + 4) (at_slot (S i) (key e))).
Proof using All.
  intros He. destruct (Htable i e He) as [Hkey _]. apply lookup_lt_Some in He. destruct Hcode as [Hi _].
  assert (does app [LDR_STR_immed 3 0 1 16 1 0 tmp] (at_slot i t) (at_slot (S i) (key e))) as Hd.
  { apply does_one; [done|]. intros p H0 Hp. eexists. split; [reflexivity|]. cbn [fst snd].
    change (base_reg 0 (set_pc p (at_slot i t))) with (X (at_slot i t) 0). change (signed 9 16) with 16.
    rewrite X_at_slot by done. rewrite decide_False by lia. rewrite decide_True by done. rewrite u64_small by lia.
    change (mem (set_pc p (at_slot i t))) with (mem c). rewrite Hkey. unfold next. change (pc _ + 4) with (u64 p + 4). rewrite u64_small by lia.
    change (set_base 0 ?b (set_pc p ?s)) with (set_pc p (set_x 0 b s)). unfold at_slot.
    change (set_pc (p + 4) (set_x tmp ?v (set_pc p ?s))) with (set_pc (p + 4) (set_x tmp v s)). apply set_pc_proper.
    rewrite (set_x_comm 0 tmp), !set_x_x by lia. by replace (base + 16 * Z.of_nat i + 16) with (base + 16 * Z.of_nat (S i)) by lia. }
  apply (Hd text L); [lia | change (code_size [_]) with 4; lia | by split].
Qed.

Lemma cbz_some p y i : a64_cbz_helper p y 1 tmp = Ok i → a64_cbz_cbnz_helper p false y 1 tmp = Some i.
Proof using. clear. unfold a64_cbz_helper. destruct (a64_cbz_cbnz_helper _ _ _ _ _); [by intros [= ->] | done]. Qed.

Lemma cbnz_some p y i : a64_cbnz_helper p y 1 tmp = Ok i → a64_cbz_cbnz_helper p true y 1 tmp = Some i.
Proof using. clear. unfold a64_cbnz_helper. destruct (a64_cbz_cbnz_helper _ _ _ _ _); [by intros [= ->] | done]. Qed.

Lemma cbz_goes (op : bool) p y i s : a64_cbz_cbnz_helper p op y 1 tmp = Some i → text p = Some i → 0 ≤ p < 2 ^ 63 → 0 ≤ y < 2 ^ 63 → - 2 ^ 10 ≤ y - p ≤ 2 ^ 10 →
  goes (set_pc p s) (set_pc (if eqb (X s tmp =? 0) (negb op) then y else p + 4) s).
Proof using.
  clear. intros Hi Ht Hp Hy Hd. assert (pc (set_pc p s) = p) as Hpc by (apply pc_set_pc; lia).
  pose proof (goes_cbz app text (set_pc p s) y op 1 tmp i) as Hg. rewrite Hpc in Hg. specialize (Hg Hi Ht ltac:(lia)).
  rewrite s64_small in Hg by lia. specialize (Hg ltac:(lia)). change (zero_reg 1 (X (set_pc p s) tmp)) with (X s tmp =? 0) in Hg.
  destruct (eqb _ _); [exact Hg|]. unfold next in Hg. rewrite Hpc in Hg. exact Hg.
Qed.

Lemma a64_slot_free i e t : es !! i = Some e → key e = 0 → goes (set_pc L (at_slot i t)) (set_pc nf (at_slot (S i) 0)).
Proof using All.
  intros He Hz. eapply goes_trans; [done | by apply (a64_slot_loaded i e) |]. rewrite Hz. destruct Hcode as (_ & Hi & _).
  pose proof (cbz_goes false (L + 4) nf miss (at_slot (S i) 0) (cbz_some _ _ _ Hmiss) Hi ltac:(lia) ltac:(lia) ltac:(lia)) as Hg.
  rewrite X_at_slot, decide_True in Hg by (done || lia). exact Hg.
Qed.

Lemma a64_slot_taken i e t : es !! i = Some e → key e ≠ 0 →
  goes (set_pc L (at_slot i t)) (set_pc (if key e =? X c spc then L + 16 else L) (at_slot (S i) (key e - X c spc))).
Proof using All.
  intros He Hz. pose proof (proj1 (Forall_lookup _ _) Hwords i e He) as [Hke _]. simpl in Hke.
  eapply goes_trans; [done | by apply (a64_slot_loaded i e) |]. destruct Hcode as (_ & H1 & H2 & H3 & _).
  replace (L + 4 + 4) with (L + 8) in * by lia. replace (L + 8 + 4) with (L + 12) in * by lia.
  pose proof (cbz_goes false (L + 4) nf miss (at_slot (S i) (key e)) (cbz_some _ _ _ Hmiss) H1 ltac:(lia) ltac:(lia) ltac:(lia)) as Hg.
  rewrite X_at_slot, decide_True, u64_small, (proj2 (Z.eqb_neq _ _) Hz) in Hg by (done || lia). cbn [eqb negb] in Hg.
  replace (L + 4 + 4) with (L + 8) in Hg by lia. goes_via Hg.
  assert (does app [ADD_SUB_shift_reg 1 1 0 0 spc 0 tmp tmp] (at_slot (S i) (key e)) (at_slot (S i) (key e - X c spc))) as Hd.
  { apply does_one; [done|]. intros p H0 Hp. eexists. split; [reflexivity|]. change (X (set_pc p ?s)) with (X s).
    rewrite spc_at_slot, X_at_slot, decide_True, u64_small by (done || lia). cbn [Z.eqb]. change (2 ^ (0 mod 64)) with 1. rewrite Z.mul_1_r.
    unfold next. change (pc _ + 4) with (u64 p + 4). rewrite u64_small by lia.
    change (set_pc (p + 4) (set_x tmp ?v (set_pc p ?s))) with (set_pc (p + 4) (set_x tmp v s)). apply set_pc_proper. apply at_slot_set. }
  specialize (Hd text (L + 8) ltac:(lia)). change (code_size [_]) with 4 in Hd. replace (L + 8 + 4) with (L + 12) in Hd by lia.
  specialize (Hd ltac:(lia) ltac:(by split)). goes_via Hd.
  pose proof (cbz_goes true (L + 12) L again (at_slot (S i) (key e - X c spc)) (cbnz_some _ _ _ Hagain) H3 ltac:(lia) ltac:(lia) ltac:(lia)) as Hg2.
  rewrite X_at_slot, decide_True in Hg2 by (done || lia). replace (L + 12 + 4) with (L + 16) in Hg2 by lia.
  replace (u64 (key e - X c spc) =? 0) with (key e =? X c spc) in Hg2; [by destruct (key e =? X c spc)|].
  destruct (Z.eqb_spec (key e) (X c spc)) as [->|Hd']; [by rewrite Z.sub_diag|]. symmetry. apply Z.eqb_neq. intros Hu. apply Hd'.
  unfold u64 in Hu. apply Z.mod_divide in Hu as [z Hz']; [|done]. nia.
Qed.

(** From a slot to the one where the search ends. *)
Lemma a64_search_stops n : ∀ i t, (i + n < length es)%nat → stop_slot es (X c spc) (i + n) → (∀ j, (i ≤ j < i + n)%nat → ¬ stop_slot es (X c spc) j) →
  ∃ v, if key_at es (i + n) =? 0 then goes (set_pc L (at_slot i t)) (set_pc nf (set_x tmp 0 (set_x 0 v c)))
    else goes (set_pc L (at_slot i t)) (set_pc (L + 20) (set_x tmp 0 (set_x 0 (value_at es (i + n)) c))).
Proof using All.
  induction n as [|n IH]; intros i t Hlen Hstop Hno; (destruct (lookup_lt_is_Some_2 es i) as [e He]; [lia|]).
  - rewrite Nat.add_0_r in *. unfold stop_slot in Hstop. rewrite (key_at_lookup _ _ _ He) in *. rewrite (value_at_lookup _ _ _ He).
    exists (base + 16 * Z.of_nat (S i)). destruct (Z.eqb_spec (key e) 0) as [Hz|Hz]; [by apply (a64_slot_free i e)|].
    destruct Hstop as [|Hst]; [done|]. pose proof (a64_slot_taken i e t He Hz) as Hg. rewrite Hst, Z.eqb_refl, Z.sub_diag in Hg. goes_via Hg.
    assert (does app [LDR_STR_immed 3 0 1 (-8) 0 0 0] (at_slot (S i) 0) (set_x tmp 0 (set_x 0 (value e) c))) as Hd.
    { apply does_one; [done|]. intros p H0 Hp. eexists. split; [reflexivity|]. cbn [fst snd].
      change (base_reg 0 (set_pc p (at_slot (S i) 0))) with (X (at_slot (S i) 0) 0). change (signed 9 (-8)) with (-8).
      destruct (Htable i e He) as [_ Hv]. apply lookup_lt_Some in He.
      rewrite X_at_slot by done. rewrite decide_False by lia. rewrite decide_True by done. rewrite u64_small by lia.
      change (mem (set_pc p (at_slot (S i) 0))) with (mem c). replace (base + 16 * Z.of_nat (S i) + -8) with (base + 16 * Z.of_nat i + 8) by lia. rewrite Hv.
      unfold next. change (pc _ + 4) with (u64 p + 4). rewrite u64_small by lia. change (set_base 0 ?b (set_pc p ?s)) with (set_pc p (set_x 0 b s)).
      change (set_pc (p + 4) (set_x 0 ?v (set_pc p ?s))) with (set_pc (p + 4) (set_x 0 v s)). apply set_pc_proper. unfold at_slot.
      rewrite set_x_x. rewrite (set_x_comm 0 tmp), set_x_x by lia. done. }
    destruct Hcode as (_ & _ & _ & _ & H5 & _). replace (L + 4 + 4 + 4 + 4) with (L + 16) in H5 by lia.
    specialize (Hd text (L + 16) ltac:(lia)). change (code_size [_]) with 4 in Hd. replace (L + 16 + 4) with (L + 20) in Hd by lia.
    apply Hd; [lia | done].
  - assert (¬ stop_slot es (X c spc) i) as Hn by (apply Hno; lia). unfold stop_slot in Hn. rewrite (key_at_lookup _ _ _ He) in Hn.
    assert (key e ≠ 0) as Hz by tauto. pose proof (a64_slot_taken i e t He Hz) as Hg. rewrite (proj2 (Z.eqb_neq _ _)) in Hg by tauto.
    replace (i + S n)%nat with (S i + n)%nat in * by lia. destruct (IH (S i) (key e - X c spc)) as [v Hv]; [lia | done | |].
    { intros j Hj. apply Hno. lia. }
    exists v. destruct (key_at _ _ =? 0); by goes_via Hg.
Qed.
End search.

(** ** The code *)

Section code.
Context (dispatcher_addr entries_addr : Z).

(** Everything that the lookup writes, with its three branches. *)
Definition hit_code (r : lookup_regs) : list inst := pop_x2 r ++ [BR 0].
Definition miss_code (r : lookup_regs) (bb : Z) : list inst := [mov 0 (reg_spc r)] ++ copy_to_reg 1 (u64 bb) ++ pop_x2 r.
Definition whole_code (r : lookup_regs) (bb read rn : Z) (link : bool) (miss again b : inst) : list inst :=
  lookup_head entries_addr r read rn link ++ loop_code (reg_spc r) (reg_tmp r) miss again ++ hit_code r ++ miss_code r bb ++ [b].

Lemma pop_size r : code_size (pop_x2 r) = if use_x2 r then 4 else 0.
Proof using. unfold pop_x2. by destruct (use_x2 r). Qed.

Lemma head_size r read rn link : 0 ≤ code_size (lookup_head entries_addr r read rn link) ≤ 52.
Proof using.
  unfold lookup_head. rewrite !a64_code_size_app. change (code_size [a64_push_pair_reg 0 1]) with 4. change (code_size [_; _]) with 8.
  pose proof (a64_copy_size 0 entries_addr). pose proof (a64_copy_size lr (u64 (read + 4))).
  assert (0 ≤ code_size (if use_x2 r then [a64_push_reg 2] ++ (if negb (rn =? reg_spc r) then [mov (reg_spc r) rn] else []) else []) ≤ 8)
    by (destruct (use_x2 r), (negb (rn =? reg_spc r)); by vm_compute).
  assert (0 ≤ code_size (if link then copy_to_reg lr (u64 (read + 4)) else []) ≤ 16) by (destruct link; [lia | by vm_compute]). lia.
Qed.

Lemma cbz_near p y (op : bool) tmp : aligned (y - p) = true → - 2 ^ 10 ≤ y - p ≤ 2 ^ 10 → ∃ i, a64_cbz_cbnz_helper p op y 1 tmp = Some i.
Proof using.
  intros Ha Hd. unfold a64_cbz_cbnz_helper. rewrite s64_small by lia. rewrite Ha. cbn [negb orb].
  rewrite (proj2 (Z.leb_gt _ _)) by lia. by eexists.
Qed.

Lemma lookup_emitted r bb read rn link st : room dispatcher_addr 200 (fst st) →
  let L := fst st + code_size (lookup_head entries_addr r read rn link) in
  ∃ miss again b, let l := whole_code r bb read rn link miss again b in ∃ text',
    lookup_code dispatcher_addr entries_addr r bb read rn link st = Ok (fst st + code_size l, text')
    ∧ a64_cbz_helper (L + 4) (L + 20 + code_size (hit_code r)) 1 (reg_tmp r) = Ok miss ∧ a64_cbnz_helper (L + 12) L 1 (reg_tmp r) = Ok again
    ∧ a64_b_helper (L + 20 + code_size (hit_code r) + code_size (miss_code r bb)) dispatcher_addr = Ok b
    ∧ code_at text' (fst st) l ∧ keeps (fst st) (code_size l) (snd st) text'.
Proof using.
  intros Hroom L. pose proof Hroom as [? ? ? ? ? [Ha ?]]. set (head := lookup_head entries_addr r read rn link) in *.
  pose proof (head_size r read rn link) as Hh. fold head in Hh. set (nf := L + 20 + code_size (hit_code r)). set (tmp := reg_tmp r).
  assert (code_size (hit_code r) = code_size (pop_x2 r) + 4) as Hhit by (unfold hit_code; by rewrite a64_code_size_app).
  pose proof (pop_size r) as Hpop. pose proof (a64_copy_size 1 (u64 bb)) as Hcp.
  assert (code_size (miss_code r bb) = 4 + (code_size (copy_to_reg 1 (u64 bb)) + code_size (pop_x2 r))) as Hms by (unfold miss_code; by rewrite !a64_code_size_app).
  assert (0 ≤ code_size (pop_x2 r) ≤ 4) as Hp4 by (rewrite Hpop; by destruct (use_x2 r)).
  destruct (cbz_near (L + 12) L true tmp) as [again Hag]; [by replace (L - (L + 12)) with (-12) by lia | lia |].
  destruct (cbz_near (L + 4) nf false tmp) as [miss Hmi]; [|unfold nf; lia |].
  { replace (nf - (L + 4)) with (16 + code_size (hit_code r)) by (unfold nf; lia). apply aligned_code. done. }
  pose proof (a64_code_size_nonneg (miss_code r bb)). pose proof (a64_code_size_nonneg (hit_code r)).
  destruct (b_helper_ok dispatcher_addr 200 (fst st) (nf + code_size (miss_code r bb) - fst st) Hroom) as (b & Hb & _).
  { unfold nf, L. lia. }
  { replace (fst st + (nf + code_size (miss_code r bb) - fst st)) with (nf + code_size (miss_code r bb)) by lia. apply aligned_code. unfold nf.
    apply aligned_code. replace (L + 20) with (L + code_size (loop_code 0 0 NOP NOP)) by done. apply aligned_code. by apply aligned_code. }
  replace (fst st + (nf + code_size (miss_code r bb) - fst st)) with (nf + code_size (miss_code r bb)) in Hb by lia.
  exists miss, again, b. set (l1 := [ADD_SUB_shift_reg 1 1 0 0 (reg_spc r) 0 tmp tmp]). set (l2 := [again; LDR_STR_immed 3 0 1 (-8) 0 0 0] ++ pop_x2 r ++ [BR 0]).
  set (l0 := head ++ [LDR_STR_immed 3 0 1 16 1 0 tmp]).
  pose proof (exit_layout (L + 4) (fst st) l0 miss (l1 ++ l2) (miss_code r bb ++ [b]) (snd st)) as Hlay.
  assert (whole_code r bb read rn link miss again b = l0 ++ [miss] ++ (l1 ++ l2) ++ miss_code r bb ++ [b]) as Hw.
  { unfold whole_code, l0, l1, l2, loop_code, hit_code. fold head. by rewrite <- !app_assoc. }
  specialize (Hlay ltac:(unfold l0; rewrite a64_code_size_app; change (code_size [LDR_STR_immed 3 0 1 16 1 0 tmp]) with 4; unfold L; lia)). rewrite <- Hw in Hlay. cbv zeta in Hlay.
  eexists. split_and!; [| by unfold a64_cbz_helper; rewrite Hmi | by unfold a64_cbnz_helper; rewrite Hag | done | apply Hlay | apply Hlay].
  unfold lookup_code. cbv zeta. fold head tmp. rewrite emit_app. fold l0. set (st2 := emit l0 st).
  assert (code_size l0 = code_size head + 4) as Hl0 by (unfold l0; by rewrite a64_code_size_app).
  assert (fst st2 = L + 4) as HL2 by (cbn [st2 emit fst]; unfold L; lia). assert (fst (emit head st) = L) as HL1 by done. rewrite HL1.
  assert (fst (emit l1 (skip st2)) = L + 12) as HL3 by (cbn [emit skip fst]; change (code_size l1) with 4; lia). fold l1. rewrite HL3.
  unfold a64_cbnz_helper. rewrite Hag. cbn [mbind outcome_bind]. fold l2. rewrite emit_app.
  assert (code_size (l1 ++ l2) = 16 + code_size (pop_x2 r)) as Hl12.
  { unfold l2. rewrite !a64_code_size_app. change (code_size l1) with 4. change (code_size [again; _]) with 8. change (code_size [BR 0]) with 4. lia. }
  assert (fst (emit (l1 ++ l2) (skip st2)) = nf) as HL4 by (cbn [emit skip fst]; unfold nf; lia). rewrite HL4, HL2.
  unfold a64_cbz_helper. rewrite Hmi. cbn [mbind outcome_bind]. fold (miss_code r bb).
  set (st5 := emit (miss_code r bb) _). assert (fst st5 = nf + code_size (miss_code r bb)) as HL5 by (cbn [st5 emit patch fst]; by rewrite <- HL4). rewrite HL5, Hb.
  cbn [mbind outcome_bind]. unfold st5. rewrite emit_app. f_equal. unfold emit at 1, patch. rewrite HL4. cbn [fst snd]. f_equal.
  - rewrite Hw, !a64_code_size_app, Hl0. rewrite a64_code_size_app in Hl12. change (code_size [miss]) with 4. change (code_size [b]) with 4. unfold nf, L. lia.
  - unfold emit, skip. cbn [fst snd]. rewrite HL2. replace (L + 4 + 4 + code_size (l1 ++ l2)) with nf by (unfold nf; lia). done.
Qed.
End code.

(** ** The two ways out *)

Section out.
Context (app : Z → machine → option machine) {Happ : ∀ w, Proper ((≡) ==> (≡)) (app w)}.
Context (rn : Z) (link : bool) (Hrn : 0 ≤ rn ≤ 31) (ret : Z).
Notation r := (choose_regs rn link).
Notation does := (does app).

(** The state of the application, with the return address, and a word below the
    stack pointer. *)
Definition below (s : machine) : machine := if use_x2 r then set_mem (store 8 (sp_of s - 32) (X s 2) (mem s)) s else s.
Definition left (s : machine) : machine := linked link ret (below s).

Lemma push_pair_linked s : push_pair 0 1 (linked link ret s) ≡ linked link ret (push_pair 0 1 s).
Proof using. by destruct link. Qed.

Lemma X_linked s k : k ≠ 31 → X (linked link ret s) k = if decide (link = true ∧ k = lr) then u64 ret else X s k.
Proof using. clear. intros Hk. destruct link; simpl; [rewrite X_set_x by done|]; repeat case_decide; naive_solver. Qed.
Lemma pc_linked s : pc (linked link ret s) = pc s.
Proof using. by destruct link. Qed.
Lemma sp_linked s : sp_of (linked link ret s) = sp_of s.
Proof using. by destruct link. Qed.
Lemma mem_linked s : mem (linked link ret s) = mem s.
Proof using. by destruct link. Qed.
Lemma rest_linked s : rest (linked link ret s) = rest s.
Proof using. by destruct link. Qed.
#[local] Hint Rewrite pc_linked sp_linked mem_linked rest_linked : a64_state.
#[local] Hint Rewrite X_linked using done : a64_state.

(** The stack pointer and the memory with X0, X1 and X2 on the stack. *)
Lemma context_stack s : let c := push 2 (push_pair 0 1 s) in
  sp_of c = u64 (sp_of s - 32) ∧ memeq (mem c) (mem (push_pair 0 1 (set_mem (store 8 (sp_of s - 32) (X s 2) (mem s)) s))).
Proof using.
  clear. intros c. assert (u64 (u64 (sp_of s - 16) - 16) = u64 (sp_of s - 32)) as Hsp.
  { change (u64 (sp_of s - 16) - 16) with (u64 (sp_of s - 16) + -16). rewrite u64_add_l. f_equal. lia. }
  split; [exact Hsp|]. change (mem c) with (store 8 (u64 (sp_of s - 16) - 16) (X s 2) (mem (push_pair 0 1 s))).
  rewrite (store_cong 8 _ _ _ _ Hsp). cbn [push_pair mem set_sp set_mem set_gpr].
  assert (∀ i j, 0 ≤ i < Z.of_nat 8 → 0 ≤ j < Z.of_nat 8 → u64 (sp_of s - 32 + i) ≠ u64 (sp_of s - 16 + 8 + j)) as H1.
  { intros i j Hi Hj. replace (sp_of s - 16 + 8 + j) with (sp_of s - 32 + (24 + j)) by lia. apply RiscvAsm.u64_add_ne; lia. }
  assert (∀ i j, 0 ≤ i < Z.of_nat 8 → 0 ≤ j < Z.of_nat 8 → u64 (sp_of s - 32 + i) ≠ u64 (sp_of s - 16 + j)) as H2.
  { intros i j Hi Hj. replace (sp_of s - 16 + j) with (sp_of s - 32 + (16 + j)) by lia. apply RiscvAsm.u64_add_ne; lia. }
  rewrite (store_store _ _ _ _ _ _ _ H1). apply store_proper. by rewrite (store_store _ _ _ _ _ _ _ H2).
Qed.

(** Popping X2 leaves only what the lookup keeps in X0 and X1. *)
Lemma pop_does s a b t : (∀ k, 0 ≤ X s k < 2 ^ 64) → 0 ≤ sp_of s < 2 ^ 64 →
  does (pop_x2 r) (set_x 1 b (set_x 0 a (if use_x2 r then set_x 2 t (prepared r rn link ret s) else prepared r rn link ret s)))
    (set_x 1 b (set_x 0 a (push_pair 0 1 (left s)))).
Proof using Happ Hrn.
  intros Hok Hsp. destruct (chosen rn link Hrn) as (Hs & _ & Hs0 & _ & Hl & Hu). unfold pop_x2, left, below, prepared, context. destruct (use_x2 r).
  - destruct Hu as [-> _]. set (g := set_x 1 b _). assert (pop 2 g ≡ set_x 1 b (set_x 0 a (push_pair 0 1 (linked link ret (set_mem (store 8 (sp_of s - 32) (X s 2) (mem s)) s))))) as <-;
      [|by apply does_pop].
    destruct (context_stack s) as [Hcs Hcm]. set (c := push 2 (push_pair 0 1 s)) in *.
    assert (sp_of g = u64 (sp_of s - 32)) as Hg by (unfold g; by autorewrite with a64_state).
    assert (mem g = mem c) as Hgm by (unfold g; by autorewrite with a64_state).
    assert (load 8 (mem g) (sp_of g) = X s 2) as Hld.
    { rewrite Hgm, Hg, load_u64. unfold c. cbn [push mem set_sp set_mem set_gpr]. rewrite (store_cong 8 _ (sp_of s - 32)); [apply load_store_8, Hok|].
      change (u64 (sp_of (push_pair 0 1 s) - 16) = u64 (sp_of s - 32)). exact Hcs. }
    unfold pop. rewrite Hld, push_pair_linked. apply state_ext.
    + unfold g, c. by autorewrite with a64_state.
    + intros k Hk. autorewrite with a64_state. unfold g, c. autorewrite with a64_state. rewrite (u64_small (X s 2)) by apply Hok. unfold lr in *.
      repeat case_decide; naive_solver lia.
    + autorewrite with a64_state. rewrite Hg, u64_add_l. f_equal. lia.
    + unfold g, c. by autorewrite with a64_state.
    + autorewrite with a64_state. rewrite Hgm. exact Hcm.
  - destruct Hu as [-> _]. apply does_nil; [done|]. rewrite push_pair_linked. apply set_x_proper, set_x_proper.
    unfold linked. assert (set_x rn (X s rn) (push_pair 0 1 s) ≡ push_pair 0 1 s) as Hrn'; [|destruct link; by rewrite Hrn'].
    apply (set_x_self rn (push_pair 0 1 s)), Hok.
Qed.

(** The state when the search has ended. *)
Definition searched (v : Z) (s : machine) : machine := set_x (reg_tmp r) 0 (set_x 0 v (prepared r rn link ret s)).

Lemma hit_does s v : (∀ k, 0 ≤ X s k < 2 ^ 64) → 0 ≤ sp_of s < 2 ^ 64 →
  does (pop_x2 r) (searched v s) (set_x 1 (if use_x2 r then X s rn else 0) (set_x 0 v (push_pair 0 1 (left s)))).
Proof using Happ Hrn.
  intros Hok Hsp. pose proof (pop_does s v (if use_x2 r then X s rn else 0) 0 Hok Hsp) as Hd.
  pose proof (prepared_spc rn link Hrn ret s Hok) as Hspc. destruct (chosen rn link Hrn) as (_ & _ & _ & _ & _ & Hu).
  unfold searched. set (c := prepared r rn link ret s) in *. destruct (use_x2 r); destruct Hu as [Hu1 Hu2]; rewrite Hu2 in *; [|exact Hd].
  rewrite Hu1 in Hspc. rewrite <- Hspc in Hd at 1. revert Hd. apply does_proper; [done | | done].
  rewrite (set_x_comm 0 2), (set_x_comm 1 2), (set_x_comm 1 0) by done. apply set_x_proper, set_x_proper. symmetry. apply set_x_self. rewrite Hspc. apply Hok.
Qed.

Lemma miss_does s v bb : 0 ≤ bb < 2 ^ 64 → (∀ k, 0 ≤ X s k < 2 ^ 64) → 0 ≤ sp_of s < 2 ^ 64 →
  does (miss_code r bb) (searched v s) (set_x 1 bb (set_x 0 (X s rn) (push_pair 0 1 (left s)))).
Proof using Happ Hrn.
  intros Hbb Hok Hsp. pose proof (pop_does s (X s rn) bb 0 Hok Hsp) as Hd. pose proof (prepared_spc rn link Hrn ret s Hok) as Hspc.
  destruct (chosen rn link Hrn) as (_ & Ht & Hs0 & Hst & _ & Hu). unfold miss_code. rewrite (u64_small bb) by done.
  eapply does_app; [done | by apply does_mov |]. eapply does_app; [done | by apply does_copy |].
  assert (X (searched v s) (reg_spc r) = X s rn) as -> by (unfold searched; by rewrite !X_set_x_ne).
  revert Hd. apply does_proper; [done | | done]. unfold searched. set (c := prepared r rn link ret s) in *.
  destruct (use_x2 r); destruct Hu as [_ ->].
  - apply set_x_proper. rewrite (set_x_comm 0 2), set_x_x by done. by rewrite (set_x_comm 0 2).
  - rewrite (set_x_comm 0 1), set_x_x, set_x_x by done. done.
Qed.
End out.

(** ** The lookup *)

Section lookup.
Context (cfg : config) (Htarget : cfg_target cfg = aarch64) (dispatcher_addr entries_addr : Z) (Hent : 0 ≤ entries_addr < 2 ^ 63).
Context (app : Z → machine → option machine) {Happ : ∀ w, Proper ((≡) ==> (≡)) (app w)}.
Notation usable := (usable cfg entries_addr).

(** The stack below the stack pointer is not in the table. *)
Definition apart (s : machine) (tb : CodeCacheHash.hash_table) : Prop :=
  ∀ j x, 0 ≤ j < 32 → 0 ≤ x < 16 * Z.of_nat (length (CodeCacheHash.entries tb)) → u64 (sp_of s - 32 + j) ≠ entries_addr + x.

(** Where the code goes: into the block that the table has for the target, with
    X0 and X1 on the stack, or to the dispatcher. *)
Definition lookup_end (rn : Z) (link : bool) (ret bb : Z) (s : machine) (v : option Z) : machine :=
  match v with
  | Some v => set_pc v (set_x 1 (if use_x2 (choose_regs rn link) then X s rn else 0) (set_x 0 v (push_pair 0 1 (left rn link ret s))))
  | None => dispatched dispatcher_addr (X s rn) bb (left rn link ret s)
  end.

Lemma a64_table_stays rn link ret s tb : 0 ≤ rn ≤ 31 → usable tb → apart s tb → table_in (mem s) entries_addr (CodeCacheHash.entries tb) →
  table_in (mem (prepared (choose_regs rn link) rn link ret s)) entries_addr (CodeCacheHash.entries tb).
Proof using Hent.
  intros Hrn Hu Ha Htb i e He. destruct (Htb i e He) as [<- <-]. apply lookup_lt_Some in He. pose proof (usable_end _ _ _ Hu).
  assert (∀ c, 0 ≤ c ≤ 8 → load 8 (mem (prepared (choose_regs rn link) rn link ret s)) (entries_addr + 16 * Z.of_nat i + c)
    = load 8 (mem s) (entries_addr + 16 * Z.of_nat i + c)) as Hl.
  { intros c Hc. assert (∀ m k v, 0 ≤ k ≤ 24 → load 8 (store 8 (sp_of s - 32 + k) v m) (entries_addr + 16 * Z.of_nat i + c) = load 8 m (entries_addr + 16 * Z.of_nat i + c)) as Hs.
    { intros m k v Hk. apply load_store_disjoint. intros a b Ha' Hb Heq. assert (u64 (entries_addr + 16 * Z.of_nat i + c + a) = entries_addr + 16 * Z.of_nat i + c + a) as Hsm by (apply u64_small; lia). rewrite Hsm in Heq.
      apply (Ha (k + b) (16 * Z.of_nat i + c + a)); [lia | lia |]. rewrite Z.add_assoc, <- Heq. lia. }
    assert (∀ t, load 8 (mem (push_pair 0 1 t)) (entries_addr + 16 * Z.of_nat i + c) = load 8 (mem t) (entries_addr + 16 * Z.of_nat i + c) ∨ sp_of t ≠ sp_of s) as Hpp.
    { intros t. destruct (decide (sp_of t = sp_of s)) as [Hts|]; [left | by right]. cbn [push_pair mem set_sp set_mem set_gpr]. rewrite Hts.
      replace (sp_of s - 16 + 8) with (sp_of s - 32 + 24) by lia. replace (sp_of s - 16) with (sp_of s - 32 + 16) by lia. by rewrite !Hs by lia. }
    unfold prepared, context. rewrite mem_linked, mem_set_x. destruct (use_x2 _); [|by destruct (Hpp s)].
    destruct (context_stack s) as [_ Hcm]. etrans; [apply load_ext; intros j Hj; exact (Hcm _)|].
    destruct (Hpp (set_mem (store 8 (sp_of s - 32) (X s 2) (mem s)) s)) as [->|]; [|done]. specialize (Hs (mem s) 0 (X s 2) ltac:(lia)). by rewrite Z.add_0_r in Hs. }
  split; [|apply Hl; lia]. specialize (Hl 0 ltac:(lia)). by rewrite !Z.add_0_r in Hl.
Qed.

(** Executed, the code searches the table. *)
Lemma lookup_goes rn link bb read w final miss again b tb m s : 0 ≤ rn ≤ 31 → 0 ≤ bb < 2 ^ 64 → 0 ≤ w → w + 400 < 2 ^ 63 → 0 ≤ dispatcher_addr < 2 ^ 63 →
  let r := choose_regs rn link in let L := w + code_size (lookup_head entries_addr r read rn link) in
  code_size (whole_code entries_addr r bb read rn link miss again b) ≤ 200 →
  a64_cbz_helper (L + 4) (L + 20 + code_size (hit_code r)) 1 (reg_tmp r) = Ok miss → a64_cbnz_helper (L + 12) L 1 (reg_tmp r) = Ok again →
  a64_b_helper (L + 20 + code_size (hit_code r) + code_size (miss_code r bb)) dispatcher_addr = Ok b →
  code_at final w (whole_code entries_addr r bb read rn link miss again b) →
  usable tb → represents (CodeCacheHash.entries tb) m → (∀ k, 0 ≤ X s k < 2 ^ 64) → 0 ≤ sp_of s < 2 ^ 64 → pc s = w →
  table_in (mem s) entries_addr (CodeCacheHash.entries tb) → apart s tb →
  goes app final s (lookup_end rn link (u64 (read + 4)) bb s (m !! X s rn)).
Proof using Htarget Hent Happ.
  intros Hrn Hbb Hw Hwb Hd r L Hsz Hmi Hag Hb Hc Hu Hm Hok Hsp Hp Htb Hap. unfold whole_code in Hsz, Hc. rewrite !a64_code_size_app in Hsz. rewrite !a64_code_at_app in Hc.
  destruct Hc as (C1 & C2 & C3 & C4 & C5). change (code_size (loop_code _ _ _ _)) with 20 in *. change (code_size [b]) with 4 in *. fold L in C2, C3, C4, C5.
  pose proof (a64_code_size_nonneg (hit_code r)). pose proof (a64_code_size_nonneg (miss_code r bb)). pose proof (head_size entries_addr r read rn link).
  assert (code_size (hit_code r) ≤ 8) by (unfold hit_code; rewrite a64_code_size_app, pop_size; by destruct (use_x2 r)).
  set (nf := L + 20 + code_size (hit_code r)) in *. set (ret := u64 (read + 4)). set (k := X s rn). set (c := prepared r rn link ret s).
  destruct (chosen rn link Hrn) as (Hs & Ht & Hs0 & Hst & _ & Hux). fold r in Hs, Ht, Hs0, Hst, Hux.
  pose proof (prepared_spc rn link Hrn ret s Hok) as Hcs. fold r c k in Hcs.
  destruct (head_does cfg Htarget entries_addr Hent app rn link Hrn ret read s eq_refl Hok) as [t Hhead]. fold r c k in Hhead.
  rewrite <- (set_pc_self s) at 1 by lia. rewrite Hp. specialize (Hhead final w Hw ltac:(lia) C1). fold L in Hhead. goes_via Hhead.
  destruct (search_end cfg entries_addr tb m k Hu Hm) as (d & Hlt & Hstop & Hno & Hres). rewrite <- (home_bucket cfg entries_addr tb k Hu).
  set (h := CodeCacheHash.home (cfg_target cfg) tb k) in *. set (es := CodeCacheHash.entries tb) in *.
  destruct (a64_search_stops app final L nf (reg_spc r) (reg_tmp r) entries_addr es c miss again) with (n := d) (i := h) (t := t) as [v Hv];
    [done | done | done | done | by rewrite Hcs; apply Hok | unfold L; lia | unfold L; lia | unfold nf; lia | done | done | lia | by apply (usable_end _ _ _ Hu)
    | by apply a64_table_stays | by apply (usable_words _ _ _ Hu) | done | done | by rewrite Hcs | by rewrite Hcs |].
  rewrite Hres. destruct (key_at es (h + d) =? 0).
  - goes_via Hv. pose proof (miss_does app rn link Hrn ret s v bb Hbb Hok Hsp) as Hg. fold r k in Hg.
    specialize (Hg final nf ltac:(unfold nf; lia) ltac:(unfold nf, L; lia)). specialize (Hg C4). goes_via Hg.
    pose proof (goes_b app final (set_pc (nf + code_size (miss_code r bb)) (set_x 1 bb (set_x 0 k (push_pair 0 1 (left rn link ret s))))) dispatcher_addr b) as Hgb.
    rewrite pc_set_pc in Hgb by (unfold nf, L; lia). destruct C5 as [C5 _]. exact (Hgb Hb C5 ltac:(lia)).
  - goes_via Hv. pose proof (hit_does app rn link Hrn ret s (value_at es (h + d)) Hok Hsp) as Hg. fold r k in Hg.
    unfold hit_code in C3. rewrite a64_code_at_app in C3. destruct C3 as [C3 [C6 _]].
    assert (0 ≤ L + 20 + code_size (pop_x2 r) < 2 ^ 64) by (rewrite pop_size; unfold L; destruct (use_x2 r); lia).
    specialize (Hg final (L + 20) ltac:(unfold L; lia) ltac:(lia) C3). goes_via Hg.
    eapply goes_step; [rewrite pc_set_pc by lia; exact C6|]. cbn [exec]. f_equal. set (v0 := value_at es (h + d)).
    change (X (set_pc ?p ?g) 0) with (X g 0). rewrite X_set_x_ne, X_set_x_eq by done. rewrite set_pc_pc. unfold set_pc, lookup_end. by rewrite u64_u64.
Qed.

(** The code, wherever what it wrote is still there, and what it does. *)
Lemma a64_inline_lookup_spec {T : Type} (th : dbm_thread T) bb meta st read_address rn link set_meta :
  0 ≤ bb < 2 ^ 31 → code_cache_meta th !! Z.to_nat bb = Some meta → 0 ≤ rn ≤ 31 → room dispatcher_addr 200 (fst st) →
  ∃ n text',
    a64_inline_hash_lookup dispatcher_addr entries_addr th bb read_address rn link set_meta st
    = Ok (if set_meta then set_code_cache_meta (<[Z.to_nat bb := set_rn (reg_spc (choose_regs rn link)) meta]> (code_cache_meta th)) th else th,
          (fst st + n, text'))
    ∧ 0 ≤ n ≤ 120 ∧ keeps (fst st) n (snd st) text'
    ∧ ∀ final, (∀ x, fst st ≤ x → x + 4 ≤ fst st + n → final x = text' x) →
      ∀ tb m s, usable tb → represents (CodeCacheHash.entries tb) m → (∀ k, 0 ≤ X s k < 2 ^ 64) → 0 ≤ sp_of s < 2 ^ 64 → pc s = fst st →
        table_in (mem s) entries_addr (CodeCacheHash.entries tb) → apart s tb →
        goes app final s (lookup_end rn link (u64 (read_address + 4)) bb s (m !! X s rn)).
Proof using Htarget Hent Happ.
  intros Hbb Hm Hrn Hroom. set (r := choose_regs rn link). pose proof Hroom as [? ? ? ? ? [Ha ?]].
  destruct (lookup_emitted dispatcher_addr entries_addr r bb read_address rn link st Hroom) as (miss & again & b & text' & Hlk & Hmi & Hag & Hb & Hc & Hk).
  set (l := whole_code entries_addr r bb read_address rn link miss again b) in *.
  assert (code_size l ≤ 120) as Hl.
  { unfold l, whole_code, hit_code, miss_code. rewrite !a64_code_size_app, pop_size. change (code_size (loop_code _ _ _ _)) with 20.
    change (code_size [_]) with 4. pose proof (head_size entries_addr r read_address rn link). pose proof (a64_copy_size 1 (u64 bb)). destruct (use_x2 r); lia. }
  exists (code_size l), text'. split_and!; [| apply a64_code_size_nonneg | done | done |].
  - unfold a64_inline_hash_lookup. cbv zeta. fold r. destruct set_meta; cbn [mbind outcome_bind]; [rewrite (upd_meta_ok _ _ _ meta) by (lia || done); cbn [mbind outcome_bind]|];
      by rewrite Hlk.
  - intros final Hf tb m s Hu Hrep Hok Hsp Hp Htb Hap.
    eapply lookup_goes; [done | lia | | | done | | exact Hmi | exact Hag | exact Hb | | done..]; [lia | lia | fold r l; lia |].
    eapply code_at_ext; [exact Hc | exact Hf].
Qed.

(** C0. The code that ends an A64 block with an indirect branch computes what
    [hash_lookup] computes. [a64_inline_hash_lookup] writes at most 120 bytes;
    executed on a memory that holds a well-formed table of the generated size
    (away from the 32 bytes below the stack pointer), the code always leaves the
    loop, and enters the block that [hash_lookup] returns for the target, with X0
    and X1 on the stack, or, when the target is not in the table, the dispatcher
    with the target in X0, the block in X1 and the context saved. The link register
    has the return address if the branch links; every other register of the
    application and the stack pointer are what they were. *)
Theorem a64_inline_lookup_refines {T : Type} (th : dbm_thread T) bb meta st read_address rn link set_meta :
  0 ≤ bb < 2 ^ 31 → code_cache_meta th !! Z.to_nat bb = Some meta → 0 ≤ rn ≤ 31 → room dispatcher_addr 200 (fst st) →
  ∃ n text',
    a64_inline_hash_lookup dispatcher_addr entries_addr th bb read_address rn link set_meta st
    = Ok (if set_meta then set_code_cache_meta (<[Z.to_nat bb := set_rn (reg_spc (choose_regs rn link)) meta]> (code_cache_meta th)) th else th,
          (fst st + n, text'))
    ∧ 0 ≤ n ≤ 120 ∧ keeps (fst st) n (snd st) text'
    ∧ ∀ final, (∀ x, fst st ≤ x → x + 4 ≤ fst st + n → final x = text' x) →
      ∀ tb m s, usable tb → represents (CodeCacheHash.entries tb) m → (∀ k, 0 ≤ X s k < 2 ^ 64) → 0 ≤ sp_of s < 2 ^ 64 → pc s = fst st →
        table_in (mem s) entries_addr (CodeCacheHash.entries tb) → apart s tb →
        (X s rn ≠ 0 → CodeCacheHash.hash_lookup (cfg_target cfg) tb (X s rn) = Ok (default UINT_MAX (m !! X s rn)))
        ∧ goes app final s (lookup_end rn link (u64 (read_address + 4)) bb s (m !! X s rn)).
Proof using Htarget Hent Happ.
  intros Hbb Hm Hrn Hroom. destruct (a64_inline_lookup_spec th bb meta st read_address rn link set_meta Hbb Hm Hrn Hroom) as (n & text' & Hr & Hn & Hk & Hgo).
  exists n, text'. split_and!; [done | lia | lia | done |]. intros final Hf tb m s Hu Hrep Hok Hsp Hp Htb Hap. split; [|by eapply Hgo].
  intros Hz. apply CodeCacheHash.hash_lookup_map; [by apply Hu | done | done].
Qed.
End lookup.

(** ** An instance *)

Definition lookup_machine : machine := MkMachine 4096 (MkA64 (λ r, 0x100 + r mod 32) 0x8000) (λ _, 0) 0 0 (λ _, 0).

Lemma lookup_machine_apart : apart 0x10000 lookup_machine empty_table.
Proof. intros j x Hj Hx. change (sp_of lookup_machine) with 0x8000. rewrite u64_small by lia. lia. Qed.

Lemma a64_inline_lookup_refines_witness :
  ∃ n text', a64_inline_hash_lookup 0x200000 0x10000 (small_thread 5) 2 0x3000 5 true true (4096, λ _, None)
      = Ok (set_code_cache_meta (<[2%nat := set_rn 5 empty_meta]> (code_cache_meta (small_thread 5))) (small_thread 5), (4096 + n, text'))
    ∧ goes no_app text' lookup_machine (dispatched 0x200000 0x105 2 (set_x lr 0x3004 lookup_machine)).
Proof.
  destruct (a64_inline_lookup_refines a64_config eq_refl 0x200000 0x10000 ltac:(lia) no_app (small_thread 5) 2 empty_meta (4096, λ _, None) 0x3000 5 true true)
    as (n & text' & Hr & _ & _ & Hrun); [lia | done | lia | split; try split; (lia || done) |].
  exists n, text'. split; [exact Hr|].
  pose proof (Hrun text' ltac:(done) empty_table ∅ lookup_machine (empty_table_usable a64_config 0x10000 ltac:(lia)) ltac:(apply represents_replicate)) as Hg.
  rewrite lookup_empty in Hg. eapply Hg; [intros k | by vm_compute | done | |].
  - unfold X, xreg, lookup_machine. cbn [gpr xr]. pose proof (Z.mod_pos_bound k 32). destruct (k =? 31); lia.
  - intros i e Hi. apply lookup_replicate in Hi as [-> _]. split; apply zero_load.
  - apply lookup_machine_apart.
Defined.
End A64LookupSpec.
