(* ===== verification/A64Scan.v ===== *)
(** * The A64 scanner (arch/aarch64/scanner_a64.c)

    [scan_a64] translates a basic block: it decodes the instructions of the
    application one by one, copies most of them, replaces those that read the
    program counter or the thread register or call the system, and ends at the
    first branch, which becomes an exit of the block. The code goes to the block,
    and to overflow blocks when that is full; plugins are called around every
    instruction. The decoder is generated by PIE and a parameter. *)
From S2P Require Import Prelude LinearProbe CodeCacheHash LinkedList AddressTable Dbm.
From S2P Require Import RegList Plugin Deliver RiscvImm RiscvAsm RiscvExit Pie LoadStoreA64 A64Inst A64Asm A64Code A64Exit A64Stack A64Lookup.
Import Dbm RegList Plugin Deliver A64Inst A64Asm A64Code A64Exit A64Stack A64Lookup.
Import Pie (field).
Import RiscvImm (sign_extend64).
Import RiscvExit (set_exit_branch_addr).
#[local] Open Scope Z_scope.

Module A64Scan.

Definition MIN_FSPACE : Z := 60.

Definition set_actual_id (v : Z) (r : dbm_code_cache_meta) : dbm_code_cache_meta :=
  MkMeta (source_addr r) (tpc r) (exit_branch_type r) v (exit_branch_addr r) (branch_taken_addr r)
    (branch_skipped_addr r) (Dbm.branch_condition r) (branch_cache_status r) (rn r) (rs1 r) (rs2 r) (next_prediction_slot r)
    (ihlu_address r) (number_of_predictions r) (link r) (imm r) (rd r) (Dbm.inst r) (read_addr r) (trampoline_addr r)
    (trampoline_slots_used r) (free_b r) (linked_from r) (saved_exit r).
Definition set_free_b (v : Z) (r : dbm_code_cache_meta) : dbm_code_cache_meta :=
  MkMeta (source_addr r) (tpc r) (exit_branch_type r) (actual_id r) (exit_branch_addr r) (branch_taken_addr r)
    (branch_skipped_addr r) (Dbm.branch_condition r) (branch_cache_status r) (rn r) (rs1 r) (rs2 r) (next_prediction_slot r)
    (ihlu_address r) (number_of_predictions r) (link r) (imm r) (rd r) (Dbm.inst r) (read_addr r) (trampoline_addr r)
    (trampoline_slots_used r) v (linked_from r) (saved_exit r).

Section scanner.
Context (cfg : config) {T : Type} `{!AddressTable T (TABLE_SIZE cfg)} (opts : options).
Context (dispatcher_addr trace_head_incr_addr syscall_wrapper_addr entries_addr tls_addr : Z).
(** [a64_decode], on a word. *)
Context (a64_decode : Z → a64_instruction).
(** The words of the application. *)
Context (source : Z → Z).

(** The thread and the code cache. *)
Record world := MkWorld { w_th : dbm_thread T; w_code : cmem }.

(** A state of the scanner: the ids and the data of the thread for plugins, the
    thread and the code cache, the read and write pointers, the end of the
    space, and where the basic block started. *)
Record scan_state := MkScan {
  s_ids : Z * Z * list Z;
  s_world : world;
  s_read : Z;
  s_write : Z;
  s_data : Z;
  s_stop : bool;
  s_entry : Z }.

Definition emit_code (l : list inst) (w : world) (write_p : Z) : world * Z :=
  let st := emit l (write_p, w_code w) in (MkWorld (w_th w) (snd st), fst st).

(** A block is left when less than [size] bytes are free: for the next block of
    the cache without, for another one with a branch. Traces cannot be left. *)
Definition a64_check_free_space (w : world) (write_p data_p size cur_block : Z) : outcome (world * Z * Z) :=
  if data_p <=? write_p + size then
    c_assert (cur_block <? CODE_CACHE_SIZE cfg);;
    r ← allocate_bb_overflow cfg (w_th w);
    let basic_block := fst r in
    th ← upd_meta basic_block (set_actual_id cur_block) (snd r);
    let block := block_addr cfg th basic_block in
    x ← (if negb (block =? data_p) then
           b ← a64_b_helper write_p block;
           Ok (fst (emit_code [b] (MkWorld th (w_code w)) write_p), block)
         else Ok (MkWorld th (w_code w), write_p));
    Ok (fst x, snd x, block + BASIC_BLOCK_SIZE cfg * 4)
  else Ok (w, write_p, data_p).

(** ** Plugins *)

#[export] Instance a64_stack : Stack world := {|
  push_regs w write_p regs := l ← emit_a64_push regs; let r := emit_code l w write_p in Ok (snd r, fst r);
  pop_regs w write_p regs := l ← emit_a64_pop regs; let r := emit_code l w write_p in Ok (snd r, fst r) |}.

(** Whether the instruction is replaced, the read address and the state. [inst]
    is -1 outside of instruction events; [read] is the address to report. *)
Definition a64_scanner_deliver_callbacks (g : global world) (watched : list (Z * mambo_callback world))
    (cb_id : mambo_cb_idx) (read : Z) (inst : option a64_instruction) (basic_block : Z) (type : cc_type) (allow_write : bool)
    (s : scan_state) : outcome (bool * Z * scan_state) :=
  if 0 <? free_plugin g then
    let cond := if decide (inst = Some A64_B_COND) then field B_COND_TXT "b"%char (source read) else AL aarch64 in
    let '(tid, parent, priv) := s_ids s in
    let c := set_mambo_context_code (Some (MkPThread tid parent priv (s_world s))) cb_id (cc_type_enum type) basic_block
               A64_INST (match inst with Some i => enum i | None => -1 end) cond read (Some (s_write s)) (Some (s_data s))
               (Some (s_stop s)) in
    x ← deliver_event (λ w write data, a64_check_free_space w write data MIN_FSPACE basic_block) g watched cb_id read allow_write
          c (s_write s) (s_data s);
    let '(replaced, c, write, data, read) := x in
    k ← code_of c;
    p ← thread_of c;
    Ok (replaced, read,
        MkScan (Plugin.tid p, parent_tid p, plugin_priv p) (Plugin.world p) (s_read s) write data (default false (stop k)) (s_entry s))
  else Ok (false, read, s).

(** ** The first pass: the kind of the first branch *)

Definition exit_kind (i : a64_instruction) : option branch_type :=
  match i with
  | A64_B_BL => Some uncond_imm_a64
  | A64_CBZ_CBNZ => Some cbz_a64
  | A64_B_COND => Some cond_imm_a64
  | A64_TBZ_TBNZ => Some tbz_a64
  | A64_BR | A64_BLR | A64_RET => Some uncond_branch_reg
  | A64_INVALID => Some unknown
  | _ => None
  end.

Fixpoint pass1_a64 (fuel : nat) (read_address : Z) : outcome branch_type :=
  match fuel with
  | O => Err OutOfFuel
  | S fuel =>
      match exit_kind (a64_decode (source read_address)) with Some ty => Ok ty | None => pass1_a64 fuel (read_address + 4) end
  end.

(** ** One instruction *)

Definition set_world (w : world) (write data : Z) (s : scan_state) : scan_state :=
  MkScan (s_ids s) w (s_read s) write data (s_stop s) (s_entry s).

Definition with_space (size basic_block : Z) (s : scan_state) : outcome scan_state :=
  x ← a64_check_free_space (s_world s) (s_write s) (s_data s) size basic_block;
  let '(w, write, data) := x in Ok (set_world w write data s).

(** Code that one of the emitters of A64Exit and A64Lookup writes. *)
Definition run_out (f : dbm_thread T → out → outcome (dbm_thread T * out)) (s : scan_state) : outcome scan_state :=
  r ← f (w_th (s_world s)) (s_write s, w_code (s_world s));
  let '(th, (write, code)) := (r : dbm_thread T * out) in
  Ok (set_world (MkWorld th code) write (s_data s) s).

Definition put_code (l : list inst) (s : scan_state) : scan_state :=
  let '(w, write) := emit_code l (s_world s) (s_write s) in set_world w write (s_data s) s.

Definition a64_copy (s : scan_state) : scan_state := put_code [Copied (source (s_read s))] s.

Definition end_block (s : scan_state) : scan_state :=
  MkScan (s_ids s) (s_world s) (s_read s) (s_write s) (s_data s) true (s_entry s).
Definition at_read (read : Z) (s : scan_state) : scan_state :=
  MkScan (s_ids s) (s_world s) read (s_write s) (s_data s) (s_stop s) (s_entry s).
Definition at_entry (entry : Z) (s : scan_state) : scan_state :=
  MkScan (s_ids s) (s_world s) (s_read s) (s_write s) (s_data s) (s_stop s) entry.

Definition wfield (s : scan_state) (encoding : string) (l : ascii) : Z := field encoding l (source (s_read s)).

(** CBZ, CBNZ, TBZ, TBNZ. *)
Definition scan_imm_reg (i : a64_instruction) (basic_block : Z) (s : scan_state) : outcome scan_state :=
  s ← run_out (λ th st, a64_branch_imm_reg opts dispatcher_addr th basic_block i (source (s_read s)) (s_read s) st) s;
  Ok (end_block s).

Definition scan_b_cond (basic_block : Z) (s : scan_state) : outcome scan_state :=
  s ← run_out (λ th st, a64_b_cond_exit opts dispatcher_addr th basic_block (source (s_read s)) (s_read s) st) s;
  Ok (end_block s).

(** A branch with link sets LR first. *)
Definition scan_b_bl (basic_block : Z) (s : scan_state) : outcome scan_state :=
  let op := wfield s B_BL_TXT "a"%char in
  let target := u64 (s_read s + u64 (Z.shiftl (sign_extend64 26 (wfield s B_BL_TXT "b"%char)) 2)) in
  let s := if op =? 1 then put_code (copy_to_reg lr (u64 (s_read s + 4))) s else s in
  s ← run_out (λ th st,
        th ← (if DBM_LINK_UNCOND_IMM opts then
                upd_meta basic_block (λ m, set_branch_taken_addr target
                  (set_exit_branch_addr (fst st) (set_exit_branch_type uncond_imm_a64 m))) th
              else Ok th);
        let st := if DBM_LINK_UNCOND_IMM opts then emit [NOP] st else st in
        st ← a64_branch_jump dispatcher_addr basic_block target true true (a64_branch_save_context st);
        Ok (th, st)) s;
  Ok (end_block s).

(** BR, BLR and RET. *)
Definition scan_branch_reg (i : a64_instruction) (basic_block : Z) (s : scan_state) : outcome scan_state :=
  let rn := wfield s BR_TXT "a"%char in
  let blr := bool_decide (i = A64_BLR) in
  s ← (if DBM_INLINE_HASH opts then with_space 88 basic_block s else Ok s);
  s ← run_out (λ th st,
        th ← upd_meta basic_block (λ m, set_rn rn (set_exit_branch_addr (fst st) (set_exit_branch_type uncond_branch_reg m))) th;
        if DBM_INLINE_HASH opts then
          a64_inline_hash_lookup dispatcher_addr entries_addr th basic_block (s_read s) rn blr true st
        else
          let st := emit [mov 0 rn] (a64_branch_save_context st) in
          let st := if blr then emit (copy_to_reg lr (u64 (s_read s + 4))) st else st in
          st ← a64_branch_jump dispatcher_addr basic_block 0 false true st;
          Ok (th, st)) s;
  Ok (end_block s).

(** MRS and MSR; the thread register is in [thread_data->tls]. *)
Definition scan_mrs_msr (s : scan_state) : scan_state :=
  let f := wfield s MRS_MSR_REG_TXT in
  let R := f "a"%char in
  let Rt := f "g"%char in
  let TPIDR_EL0 := (f "b"%char =? 1) && (f "c"%char =? 3) && (f "d"%char =? 13) && (f "e"%char =? 0) && (f "f"%char =? 2) in
  if TPIDR_EL0 then
    let spilled_reg := if Rt =? 0 then 1 else 0 in
    put_code ([a64_push_reg spilled_reg] ++ copy_to_reg spilled_reg tls_addr
              ++ [LDR_STR_immed 3 0 (if R =? 0 then 0 else 1) 0 0 spilled_reg Rt; a64_pop_reg spilled_reg]) s
  else a64_copy s.

(** LDR, LDRSW and PRFM of a literal. The registers are loaded at their own
    size; vectors through X0. *)
Definition scan_ldr_lit (s : scan_state) : outcome scan_state :=
  let f := wfield s LDR_LIT_TXT in
  let opc := f "a"%char in
  let V := f "b"%char in
  let Rt := f "d"%char in
  let PC_relative_address := u64 (s_read s + u64 (Z.shiftl (sign_extend64 19 (f "c"%char)) 2)) in
  let by_rt size op := copy_to_reg Rt PC_relative_address ++ [LDR_STR_unsigned_immed size V op 0 Rt Rt] in
  let by_x0 size op :=
    [a64_push_reg 0] ++ copy_to_reg 0 PC_relative_address ++ [LDR_STR_unsigned_immed size V op 0 0 Rt; a64_pop_reg 0] in
  if V =? 0 then
    Ok (match opc with
        | 0 => put_code (by_rt 2 1) s
        | 1 => put_code (by_rt 3 1) s
        | 2 => put_code (by_rt 2 2) s
        | 3 => put_code (by_x0 3 2) s
        | _ => s
        end)
  else if V =? 1 then
    match opc with
    | 0 => Ok (put_code (by_x0 2 1) s)
    | 1 => Ok (put_code (by_x0 3 1) s)
    | 2 => Ok (put_code (by_x0 0 3) s)
    | _ => Err Hang
    end
  else Ok s.

(** ADR and ADRP. *)
Definition scan_adr (s : scan_state) : scan_state :=
  let f := wfield s ADR_TXT in
  let imm := Z.lor (Z.shiftl (f "c"%char) 2) (f "b"%char) in
  let '(imm, base) :=
    if f "a"%char =? 0 then (sign_extend64 21 imm, s_read s)
    else (u64 (Z.shiftl (sign_extend64 21 imm) 12), Z.land (s_read s) (u64 (Z.lnot 0xFFF))) in
  put_code (copy_to_reg (f "d"%char) (u64 (base + imm))) s.

(** A word that does not decode ends the block, unless it is its first. *)
Definition scan_invalid (basic_block start_scan : Z) (s : scan_state) : outcome scan_state :=
  if negb (s_read s =? start_scan) then
    s ← run_out (λ th st,
          st ← a64_branch_jump dispatcher_addr basic_block (s_read s) true true (a64_branch_save_context st);
          Ok (th, st)) s;
    Ok (end_block s)
  else Ok (a64_copy s).

(** ** Blocks *)

Section block.
Context (g : global world) (watched : list (Z * mambo_callback world)).
Context (basic_block : Z) (type : cc_type) (start_scan : Z).

(** The system call wrapper is called with X29 and X30 on the stack and the
    return address in X29, and leaves X0 and X1 there; a basic block ends and
    another begins. *)
Definition scan_svc (s : scan_state) : outcome scan_state :=
  let s := put_code ([a64_push_pair_reg 29 30] ++ copy_to_reg 29 (u64 (s_read s + 4))) s in
  call ← a64_bl_helper (s_write s) syscall_wrapper_addr;
  let s := put_code [call; a64_pop_pair_reg 0 1] s in
  x ← a64_scanner_deliver_callbacks g watched POST_BB_C (s_entry s) None basic_block type false s;
  let s := snd x in
  let s := at_entry (s_read s + 4) (at_read (s_read s + 4) s) in
  x ← a64_scanner_deliver_callbacks g watched PRE_BB_C (s_read s) None basic_block type true s;
  let '(_, read, s) := (x : bool * Z * scan_state) in
  Ok (at_read (read - 4) s).

Definition scan_inst (i : a64_instruction) (s : scan_state) : outcome scan_state :=
  match i with
  | A64_CBZ_CBNZ | A64_TBZ_TBNZ => scan_imm_reg i basic_block s
  | A64_B_COND => scan_b_cond basic_block s
  | A64_SVC => scan_svc s
  | A64_MRS_MSR_REG => Ok (scan_mrs_msr s)
  | A64_B_BL => scan_b_bl basic_block s
  | A64_BR | A64_BLR | A64_RET => scan_branch_reg i basic_block s
  | A64_LDR_LIT => scan_ldr_lit s
  | A64_ADR => Ok (scan_adr s)
  | A64_ADC_SBC | A64_ADD_SUB_EXT_REG | A64_ADD_SUB_IMMED | A64_ADD_SUB_SHIFT_REG | A64_BFM | A64_BRK
    | A64_CCMP_CCMN_IMMED | A64_CCMP_CCMN_REG | A64_CLREX | A64_COND_SELECT | A64_CRYPTO_AES | A64_CRYPTO_SHA_REG2
    | A64_CRYPTO_SHA_REG3 | A64_DATA_PROC_REG1 | A64_DATA_PROC_REG2 | A64_DATA_PROC_REG3 | A64_DMB | A64_DSB | A64_EXTR
    | A64_FCCMP | A64_FCMP | A64_FCSEL | A64_FLOAT_CVT_FIXED | A64_FLOAT_CVT_INT | A64_FLOAT_REG1 | A64_FLOAT_REG2
    | A64_FLOAT_REG3 | A64_FMOV_IMMED | A64_HINT | A64_HVC | A64_ISB | A64_LDADD | A64_LDCLR | A64_LDEOR | A64_LDP_STP
    | A64_LDR_STR_IMMED | A64_LDR_STR_REG | A64_LDR_STR_UNSIGNED_IMMED | A64_LDSET | A64_LDSMAX | A64_LDSMIN | A64_LDUMAX
    | A64_LDUMIN | A64_LDX_STX | A64_LDX_STX_MULTIPLE | A64_LDX_STX_MULTIPLE_POST | A64_LDX_STX_SINGLE
    | A64_LDX_STX_SINGLE_POST | A64_LOGICAL_IMMED | A64_LOGICAL_REG | A64_MOV_WIDE | A64_SIMD_ACROSS_LANE | A64_SIMD_COPY
    | A64_SIMD_EXTRACT | A64_SIMD_MODIFIED_IMMED | A64_SIMD_PERMUTE | A64_SIMD_SCALAR_COPY | A64_SIMD_SCALAR_PAIRWISE
    | A64_SIMD_SCALAR_SHIFT_IMMED | A64_SIMD_SCALAR_THREE_DIFF | A64_SIMD_SCALAR_THREE_SAME | A64_SIMD_SCALAR_TWO_REG
    | A64_SIMD_SCALAR_X_INDEXED | A64_SIMD_SHIFT_IMMED | A64_SIMD_TABLE_LOOKUP | A64_SIMD_THREE_DIFF | A64_SIMD_THREE_SAME
    | A64_SIMD_TWO_REG | A64_SIMD_X_INDEXED | A64_SWP | A64_SYS => Ok (a64_copy s)
  | A64_INVALID => scan_invalid basic_block start_scan s
  | _ => Err Hang
  end.

(** A round of the loop: the instruction between its callbacks. *)
Definition scan_step (s : scan_state) : outcome scan_state :=
  let i := a64_decode (source (s_read s)) in
  x ← a64_scanner_deliver_callbacks g watched PRE_INST_C (s_read s) (Some i) basic_block type true s;
  let '(skip_inst, read, s) := (x : bool * Z * scan_state) in
  let s := at_read read s in
  s ← (if skip_inst then Ok s else scan_inst i s);
  if s_data s <=? s_write s then Err Hang
  else
    s ← (if negb (s_stop s) then with_space MIN_FSPACE basic_block s else Ok s);
    x ← a64_scanner_deliver_callbacks g watched POST_INST_C (s_read s) (Some i) basic_block type (negb (s_stop s)) s;
    let '(_, read, s) := (x : bool * Z * scan_state) in
    Ok (at_read (read + 4) s).

Fixpoint scan_loop (fuel : nat) (s : scan_state) : outcome scan_state :=
  match fuel with
  | O => Err OutOfFuel
  | S fuel => if s_stop s then Ok s else s ← scan_step s; scan_loop fuel s
  end.

(** The head of a block counts its executions for the traces. *)
Definition trace_head (s : scan_state) : outcome scan_state :=
  let s := put_code ([a64_push_pair_reg 1 30] ++ copy_to_reg 1 (u64 (s32 basic_block))) s in
  call ← a64_bl_helper (s_write s) trace_head_incr_addr;
  Ok (put_code [call; a64_pop_pair_reg 1 30] s).

(** From the counter to the end. *)
Definition scan_body (fuel : nat) (s : scan_state) : outcome scan_state :=
  s ← (if DBM_TRACES cfg then
         bb_type ← pass1_a64 fuel start_scan;
         if bool_decide (type = mambo_bb) && negb (bool_decide (bb_type = uncond_branch_reg ∨ bb_type = unknown))
         then trace_head s else Ok s
       else Ok s);
  x ← a64_scanner_deliver_callbacks g watched PRE_FRAGMENT_C (s_read s) None basic_block type true s;
  let '(_, read, s) := (x : bool * Z * scan_state) in
  let s := at_read read s in
  x ← a64_scanner_deliver_callbacks g watched PRE_BB_C (s_read s) None basic_block type true s;
  let '(_, read, s) := (x : bool * Z * scan_state) in
  s ← scan_loop fuel (at_read read s);
  x ← a64_scanner_deliver_callbacks g watched POST_BB_C (s_entry s) None basic_block type false s;
  x ← a64_scanner_deliver_callbacks g watched POST_FRAGMENT_C start_scan None basic_block type false (snd x);
  Ok (snd x).
End block.

(** The state and the number of bytes; [write_p] 0 is NULL. *)
Definition scan_a64 (fuel : nat) (g : global world) (watched : list (Z * mambo_callback world)) (ids : Z * Z * list Z)
    (w : world) (read_address basic_block : Z) (type : cc_type) (write_p : Z) : outcome (scan_state * Z) :=
  let write_p := if write_p =? 0 then block_addr cfg (w_th w) basic_block else write_p in
  let is_block := bool_decide (type = mambo_bb) in
  th ← (if is_block then Ok (w_th w) else upd_meta basic_block (set_free_b 0) (w_th w));
  let data_p := if is_block then write_p + BASIC_BLOCK_SIZE cfg * 4 else traces_addr cfg th + TRACE_CACHE_SIZE cfg / 4 * 4 in
  let s := MkScan ids (MkWorld th (w_code w)) read_address write_p data_p false read_address in
  let s := if negb (bool_decide (type = mambo_trace)) then put_code [a64_pop_pair_reg 0 1] s else s in
  s ← scan_body g watched basic_block type read_address fuel s;
  Ok (s, ((s_write s - write_p) / 4 + 1) * 4).
End scanner.
End A64Scan.
