(* ===== verification/A64ScanSpec.v ===== *)
(** * What translated A64 blocks do

    A block that [scan_a64] has written, executed in a state that the application
    cannot tell from its own, does what the application does until the branch
    that ends the block, and enters the dispatcher with the address where the
    application goes on. *)
From stdpp Require Import relations.
From S2P Require Import Prelude LinearProbe CodeCacheHash LinkedList AddressTable Dbm CcLinks RegList Plugin Deliver.
From S2P Require Import RiscvImm RiscvAsm RiscvEmit RiscvContext RiscvLookupSpec Pie RiscvExec RiscvExit LoadStoreA64 A64Inst A64Asm A64Code A64Exit A64Link A64Branch.
From S2P Require Import RiscvLookup A64Stack A64Lookup A64LookupSpec A64Scan.
Import Dbm CcLinks Plugin Deliver Pie A64Inst A64Asm A64Code A64Exit A64Branch A64Stack A64Lookup A64Scan.
Import LoadStoreA64 (MkA64, set_xreg, xreg, xr, xsp, set_xsp, sp_value, logical_reg).
Import RiscvAsm (load, store, load_store_8).
Import RiscvImm (sign_extend64, sign_extend64_signed, forall_range, forall_range_spec).
Import RiscvLookup (table_in).
Import RiscvLookupSpec (load_u64, usable, usable_words, empty_table, empty_table_usable, table_length, table_length_Z, zero_load).
Import A64LookupSpec (X_push, sp_set_x, state_ext, linked, below, left, lookup_end, apart, a64_inline_lookup_spec).
Import RiscvExit (set_exit_branch_addr).
Import RiscvContext (load_ext).
#[local] Open Scope Z_scope.

Module A64ScanSpec.

(** ** Code that stays *)

(** What a later memory still holds: all words but those in [[a, b)] and behind
    [c]. *)
Definition stays (m m' : cmem) (a b c : Z) : Prop := ∀ x, x + 4 ≤ a ∨ b ≤ x → x + 4 ≤ c → m' x = m x.

Lemma a64_stays_refl m a b c : stays m m a b c.
Proof. by intros x _ _. Qed.

Lemma keeps_stays m m1 m' a n a1 b1 c1 a0 b0 c0 : keeps a n m m1 → stays m1 m' a1 b1 c1 →
  (∀ x, x + 4 ≤ a0 ∨ b0 ≤ x → x + 4 ≤ c0 → (x + 4 ≤ a ∨ a + n ≤ x) ∧ (x + 4 ≤ a1 ∨ b1 ≤ x) ∧ x + 4 ≤ c1) → stays m m' a0 b0 c0.
Proof. intros Hk Hs Hr x Hx Hc. destruct (Hr x Hx Hc) as (H1 & H2 & H3). by rewrite Hs, Hk. Qed.

Lemma a64_stays_code m m' a b c l : ∀ x, stays m m' a b c → code_at m x l → x + code_size l ≤ a ∨ b ≤ x → x + code_size l ≤ c → code_at m' x l.
Proof.
  intros x Hs Hc H1 H2. revert x Hc H1 H2. induction l as [|i l IH]; intros x Hc H1 H2; [done|]. destruct Hc as [Hi Hc].
  rewrite a64_code_size_cons in *. pose proof (a64_code_size_nonneg l). split; [rewrite Hs by lia; done | apply IH; [done | lia | lia]].
Qed.

(** Registers and the program counter in range. *)
Record ok (s : machine) : Prop := {
  ok_pc : 0 ≤ pc s < 2 ^ 64;
  ok_x r : 0 ≤ X s r < 2 ^ 64;
  ok_sp : 0 ≤ sp_of s < 2 ^ 64 }.

#[export] Instance ok_proper : Proper ((≡) ==> iff) ok.
Proof.
  assert (∀ s s', s ≡ s' → ok s → ok s') as H; [|by intros s s' Hs; split; apply H].
  intros s s' Hs [H1 H2 H3]. split; [by rewrite <- (pc_equiv _ _ Hs) | intros r; by rewrite <- (X_equiv _ _ r Hs) | by rewrite <- (sp_equiv _ _ Hs)].
Qed.

Lemma a64_ok_set_pc p s : ok s → ok (set_pc p s).
Proof. intros [H1 H2 H3]. split; [apply u64_range | exact H2 | exact H3]. Qed.

Lemma ok_set_x r v s : ok s → ok (set_x r v s).
Proof.
  intros [H1 H2 H3]. split; [done | | unfold set_x, set_xreg, sp_of in *; cbn; by destruct (r =? 31)].
  intros k. destruct (decide (r = 31)) as [->|Hr]; [apply H2|]. destruct (decide (k = r)) as [->|]; [rewrite X_set_x_eq by done; apply u64_range | by rewrite X_set_x_ne].
Qed.

Lemma a64_ok_set_mem m s : ok s → ok (set_mem m s).
Proof. by intros []. Qed.
Lemma ok_set_v r v s : ok s → ok (set_v r v s).
Proof. by intros []. Qed.
Lemma ok_set_tpidr v s : ok s → ok (set_tpidr v s).
Proof. by intros []. Qed.
Create HintDb a64_ok.
#[local] Hint Resolve a64_ok_set_pc ok_set_x a64_ok_set_mem ok_set_v ok_set_tpidr : a64_ok.

Lemma returned {A} (x y : A) : Ok x = Ok y → x = y.
Proof. by intros [= ->]. Qed.

(** ** Constants *)

Lemma lor_shift a b k : 0 ≤ k → 0 ≤ b < 2 ^ k → Z.lor (Z.shiftl a k) b = a * 2 ^ k + b.
Proof.
  intros Hk Hb. rewrite Z.shiftl_mul_pow2 by done. assert (Z.land (a * 2 ^ k) b = 0) as Hl.
  { apply Z.bits_inj'. intros n Hn. rewrite Z.land_spec, Z.bits_0. destruct (decide (n < k)).
    - by rewrite Z.mul_pow2_bits_low.
    - by rewrite (RiscvImm.testbit_small k b), andb_false_r by lia. }
  rewrite <- Z.lxor_lor by done. symmetry. by apply Z.add_nocarry_lxor.
Qed.

Lemma u64_add_r x y : u64 (x + u64 y) = u64 (x + y).
Proof. unfold u64. apply Zplus_mod_idemp_r. Qed.

Lemma land_page x : 0 ≤ x < 2 ^ 64 → Z.land x (u64 (Z.lnot 0xFFF)) = x - x mod 4096.
Proof.
  intros Hx. change (u64 (Z.lnot 0xFFF)) with (Z.shiftl (Z.ones 52) 12). rewrite (Z.div_mod x 4096) at 1 by done.
  assert (Z.shiftl (x / 4096) 12 = x / 4096 * 4096) as Hs by by rewrite Z.shiftl_mul_pow2.
  replace (4096 * (x / 4096) + x mod 4096) with (Z.lor (Z.shiftl (x / 4096) 12) (x mod 4096)).
  - rewrite Z.land_lor_distr_l. rewrite <- Z.shiftl_land. rewrite Z.land_ones by done.
    rewrite (Z.mod_small (x / 4096)) by (Z.div_mod_to_equations; lia).
    assert (Z.land (x mod 4096) (Z.shiftl (Z.ones 52) 12) = 0) as ->.
    { apply Z.bits_inj'. intros n Hn. rewrite Z.land_spec, Z.bits_0. pose proof (Z.mod_pos_bound x 4096 ltac:(done)). destruct (decide (n < 12)).
      - rewrite Z.shiftl_spec_low by done. apply andb_false_r.
      - rewrite (RiscvImm.testbit_small 12) by (change (2 ^ 12) with 4096; lia). done. }
    rewrite Z.lor_0_r, Hs. pose proof (Z.div_mod x 4096). lia.
  - rewrite lor_shift; [lia | done |]. apply Z.mod_pos_bound. done.
Qed.

Section spec.
Context (cfg : config) {T : Type} `{!AddressTable T (TABLE_SIZE cfg)} (opts : options).
Context (dispatcher_addr trace_head_incr_addr syscall_wrapper_addr entries_addr tls_addr : Z).
Context (a64_decode : Z → a64_instruction) (source : Z → Z).
Context (app : Z → machine → option machine) {Happ : ∀ w, Proper ((≡) ==> (≡)) (app w)}.
Context (Hbs : BASIC_BLOCK_SIZE cfg = 64).
Implicit Types (w : world (T := T)) (q : scan_state (T := T)).
Notation goes := (goes app).

(** ** The space *)

(** The code cache is in reach of the dispatcher. *)
Record cache_ok (cc : Z) : Prop := {
  cache_range : 0 ≤ cc ∧ cc + CODE_CACHE_SIZE cfg * 256 + 1000 < 2 ^ 63;
  cache_aligned : aligned cc = true;
  cache_small : CODE_CACHE_SIZE cfg * 256 ≤ 2 ^ 25;
  cache_dispatcher : 0 ≤ dispatcher_addr < 2 ^ 63 ∧ aligned dispatcher_addr = true;
  cache_near x : cc ≤ x ≤ cc + CODE_CACHE_SIZE cfg * 256 → - 2 ^ 25 ≤ dispatcher_addr - x ≤ 2 ^ 25 }.

Definition first_free w : Z := block_addr cfg (w_th w) (free_block (w_th w)).

(** [k] bytes and one are free at the write pointer, below the free blocks. *)
Record fits (bb k : Z) w (write data : Z) : Prop := {
  fits_cache : cache_ok (code_cache (w_th w));
  fits_bb : 0 ≤ bb < 2 ^ 31;
  fits_meta : is_Some (code_cache_meta (w_th w) !! Z.to_nat bb);
  fits_free : free_block (w_th w) ≤ CODE_CACHE_SIZE cfg;
  fits_write : code_cache (w_th w) ≤ write ∧ aligned write = true;
  fits_slack : write + k < data;
  fits_data : data ≤ first_free w }.

Lemma a64_block_addr (th : dbm_thread T) i : block_addr cfg th i = code_cache th + i * 256.
Proof using Hbs. unfold block_addr, sizeof_dbm_block. rewrite Hbs. lia. Qed.

Lemma a64_fits_room bb k w write data : fits bb k w write data → 0 ≤ k → room dispatcher_addr 300 write.
Proof using Hbs.
  intros [[[? ?] He ? [? ?] Hn] ? ? ? [? ?] ? Hd] Hk. unfold first_free in Hd. rewrite a64_block_addr in Hd.
  specialize (Hn write). split; try done; try lia. 
Qed.

Definition stays_from q (final : cmem) : Prop := stays (w_code (s_world q)) final (s_write q) (s_data q) (first_free (s_world q)).

(** After the check the space is at least [size], and the execution gets from
    the old write pointer to the new one. *)
Lemma check_space_spec bb k size w write data w' write' data' :
  fits bb k w write data → 4 ≤ k → 0 ≤ size < 256 →
  a64_check_free_space cfg w write data size bb = Ok (w', write', data') →
  fits bb size w' write' data' ∧ ∀ final, stays (w_code w') final write' data' (first_free w') →
    stays (w_code w) final write data (first_free w) ∧ ∀ m, pc m = write → goes final m (set_pc write' m).
Proof using Hbs Happ.
  intros Hf Hk Hsz. pose proof Hf as [Hc Hbb Hm Hfr [Hw He] Hsl Hda]. pose proof Hc as [[? ?] Hca Hcs [? ?] Hcn].
  unfold first_free in Hda. rewrite a64_block_addr in Hda.
  unfold a64_check_free_space. destruct (Z.leb_spec data (write + size)).
  2: { intros [= <- <- <-]. split; [split; try done; unfold first_free; rewrite a64_block_addr; lia|]. intros final Hst. split; [done|]. intros m Hp.
       rewrite <- Hp, set_pc_self by lia. apply goes_refl. }
  intros Hck. apply bind_ok_inv in Hck as ([] & Hcur & Hck). apply bind_ok_inv in Hck as ([b th1] & Ha & Hck). unfold allocate_bb_overflow in Ha.
  destruct (Z.ltb_spec (free_block (w_th w)) (CODE_CACHE_SIZE cfg)) as [Hlt|]; [|done]. injection Ha as <- <-. cbn [fst snd] in Hck.
  apply bind_ok_inv in Hck as (th2' & Hup & Hck). unfold upd_meta in Hup. apply bind_ok_inv in Hup as (ms & Hms & [= <-]).
  apply aupd_ok in Hms as (x & _ & _ & Hms). assert (length ms = length (code_cache_meta (w_th w))) as Hlen by (rewrite Hms; apply length_insert). clear Hms.
  set (b := free_block (w_th w)) in *. set (th2 := set_code_cache_meta ms (set_free_block (b + 1) (w_th w))) in *.
  assert (block_addr cfg th2 b = code_cache (w_th w) + b * 256) as Hba by (rewrite a64_block_addr; done). rewrite Hba in Hck.
  assert (is_Some (ms !! Z.to_nat bb)) as Hms by (apply lookup_lt_is_Some; rewrite Hlen; by apply lookup_lt_is_Some in Hm).
  assert (∀ c, first_free (MkWorld th2 c) = code_cache (w_th w) + b * 256 + 256) as Hff by (intros c; unfold first_free; rewrite a64_block_addr; cbn; lia).
  assert (aligned (code_cache (w_th w) + b * 256) = true) as Hab.
  { rewrite aligned_mod in *. replace (b * 256) with (b * 64 * 4) by lia. by rewrite Z.mod_add. }
  set (blk := code_cache (w_th w) + b * 256) in *. assert (data ≤ blk) as Hdb by (unfold blk; lia).
  assert (blk + 256 ≤ code_cache (w_th w) + CODE_CACHE_SIZE cfg * 256) as Hbb2 by (unfold blk; lia).
  assert (first_free w = blk) as Hffw by (unfold first_free; by rewrite a64_block_addr). rewrite Hffw.
  destruct (Z.eqb_spec blk data) as [Hd|Hd]; cbn [negb] in Hck; apply bind_ok_inv in Hck as (y & Hy & Hck).
  - injection Hy as <-. cbn [fst snd] in Hck. injection Hck as <- <- <-. rewrite Hbs. split.
    + split; cbn [w_th]; try done; [cbn; lia | lia | rewrite Hff; lia].
    + intros final Hst. rewrite Hff in Hst. split.
      * intros x0 Hx Hx2. apply Hst; lia.
      * intros m Hp. rewrite <- Hp, set_pc_self by lia. apply goes_refl.
  - apply bind_ok_inv in Hy as (i & Hj & Hy). injection Hy as <-. cbn [fst snd] in Hck. injection Hck as <- <- <-. rewrite Hbs.
    change (w_code (fst (emit_code [i] (MkWorld th2 (w_code w)) write))) with (put write i (w_code w)).
    change (fst (emit_code [i] (MkWorld th2 (w_code w)) write)) with (MkWorld th2 (put write i (w_code w))).
    split.
    + split; cbn [w_th]; try done; [cbn; lia | split; [cbn; unfold blk; lia | done] | lia | rewrite Hff; lia].
    + intros final Hst. cbn [w_code] in Hst. rewrite Hff in Hst. split.
      * eapply keeps_stays; [apply a64_put_keeps | exact Hst |]. intros y Hy1 Hy2. lia.
      * intros m Hp. eapply goes_b; [rewrite Hp; exact Hj | | lia]. rewrite Hp, Hst by lia. apply a64_put_same.
Qed.

(** ** The application *)

(** States that the application cannot tell apart: [sim a m] relates its state to
    that of the machine. The thread register of the application is in memory at
    [tls_addr], and what is below the stack pointer is nobody's. [text] are the
    addresses of literals. *)
Context (sim : machine → machine → Prop) (text : Z → Prop).

(** The table that inline lookups search, when they are generated. *)
Context (tb : CodeCacheHash.hash_table) (translated : gmap Z Z).

(** Copied instructions neither depend on the program counter nor change the
    flow; [app] has no result for those that trap. They keep states alike. *)
Record app_ok : Prop := {
  app_next i s s' : app i s = Some s' → ok s → ok s' ∧ pc s' = u64 (pc s + 4);
  tls_range : 0 ≤ tls_addr < 2 ^ 64;
  app_anywhere i s s' m : app i s = Some s' → sim s m → ok s → ok m → ∃ m', app i m = Some m' ∧ sim s' m';
  sim_equiv : Proper ((≡) ==> (≡) ==> iff) sim;
  sim_pc a m p p' : sim a m → sim (set_pc p a) (set_pc p' m);
  sim_x a m r : sim a m → X m r = X a r;
  sim_nzcv a m : sim a m → nzcv m = nzcv a;
  sim_set_x a m r v : sim a m → sim (set_x r v a) (set_x r v m);
  sim_set_v a m r v : sim a m → sim (set_v r v a) (set_v r v m);
  sim_text a m x : sim a m → text x → mem m x = mem a x;
  sim_below a m d v : sim a m → 8 ≤ d ≤ 32 → sim a (set_mem (store 8 (sp_of m - d) v (mem m)) m);
  sim_tls a m : sim a m → load 8 (mem m) tls_addr = tpidr a;
  sim_set_tls a m v : sim a m → 0 ≤ v < 2 ^ 64 → sim (set_tpidr v a) (set_mem (store 8 tls_addr v (mem m)) m);
  sim_tls_apart a m v x : sim a m → load 8 (store 8 tls_addr v x) (u64 (sp_of m - 16)) = load 8 x (u64 (sp_of m - 16));
  table_kept : DBM_INLINE_HASH opts = true → cfg_target cfg = aarch64 ∧ 0 ≤ entries_addr < 2 ^ 63 ∧ usable cfg entries_addr tb
    ∧ represents (CodeCacheHash.entries tb) translated;
  sim_table a m : DBM_INLINE_HASH opts = true → sim a m → table_in (mem m) entries_addr (CodeCacheHash.entries tb) ∧ apart entries_addr m tb }.
#[local] Existing Instance sim_equiv.

(** Memory that holds a literal. *)
Definition literal (n : nat) (p : Z) : Prop := ∀ j, 0 ≤ j < Z.of_nat n → text (u64 (p + j)).

Lemma sim_load (Ha : app_ok) a m n p : sim a m → literal n p → load n (mem m) p = load n (mem a) p.
Proof using. intros Hs Hl. apply load_ext. intros j Hj. apply (sim_text Ha); [done | by apply Hl]. Qed.

(** What the scanner copies: everything but branches, what reads the program
    counter or the system registers, SVC, and what has no case. *)
Definition is_copied (i : a64_instruction) : bool :=
  match i with
  | A64_CBZ_CBNZ | A64_TBZ_TBNZ | A64_B_COND | A64_SVC | A64_MRS_MSR_REG | A64_B_BL | A64_BR | A64_BLR | A64_RET | A64_LDR_LIT
  | A64_ADR | A64_INVALID | A64_SMC | A64_HLT | A64_DCPS1 | A64_DCPS2 | A64_DCPS3 | A64_MSR_IMMED | A64_SYSL | A64_ERET | A64_DRPS => false
  | _ => true
  end.

Notation decode a := (a64_decode (source a)).
Notation fld a enc l := (field enc l%char (source a)).

(** The address that ADR and ADRP compute. *)
Definition adr_value (a : Z) : Z :=
  let imm := signed 21 (fld a ADR_TXT "c" * 4 + fld a ADR_TXT "b") in
  if fld a ADR_TXT "a" =? 0 then a + imm else (a - a mod 4096) + imm * 4096.

(** The thread register is accessed. *)
Definition is_tpidr (a : Z) : bool :=
  (fld a MRS_MSR_REG_TXT "b" =? 1) && (fld a MRS_MSR_REG_TXT "c" =? 3) && (fld a MRS_MSR_REG_TXT "d" =? 13)
  && (fld a MRS_MSR_REG_TXT "e" =? 0) && (fld a MRS_MSR_REG_TXT "f" =? 2).

(** What a literal load does with its register, by opc and V. *)
Definition lit_access (opc v : Z) : option access :=
  match opc, v with
  | 0, 0 => Some (LoadX 4) | 1, 0 => Some (LoadX 8) | 2, 0 => Some LoadSW | 3, 0 => Some Prefetch
  | 0, 1 => Some (LoadV 4) | 1, 1 => Some (LoadV 8) | 2, 1 => Some (LoadV 16)
  | _, _ => None
  end.
Definition access_size (a : access) : nat := match a with StoreX | Prefetch => 0 | LoadX n | LoadV n => n | LoadSW => 4 end.
Definition lit_addr (a : Z) : Z := u64 (a + signed 19 (fld a LDR_LIT_TXT "c") * 4).

(** An instruction inside a block that starts at [start]. *)
Inductive src_step (start : Z) (s s' : machine) : Prop :=
  | step_copied : is_copied (decode (pc s)) = true → app (source (pc s)) s = Some s' → src_step start s s'
  | step_adr : decode (pc s) = A64_ADR → s' = next (set_x (fld (pc s) ADR_TXT "d") (adr_value (pc s)) s) → src_step start s s'
  | step_ldr_lit acc : decode (pc s) = A64_LDR_LIT → lit_access (fld (pc s) LDR_LIT_TXT "a") (fld (pc s) LDR_LIT_TXT "b") = Some acc →
      literal (access_size acc) (lit_addr (pc s)) → s' = next (perform acc (lit_addr (pc s)) (fld (pc s) LDR_LIT_TXT "d") s) → src_step start s s'
  | step_mrs_tpidr : decode (pc s) = A64_MRS_MSR_REG → is_tpidr (pc s) = true → fld (pc s) MRS_MSR_REG_TXT "a" = 1 →
      s' = next (set_x (fld (pc s) MRS_MSR_REG_TXT "g") (tpidr s) s) → src_step start s s'
  | step_msr_tpidr : decode (pc s) = A64_MRS_MSR_REG → is_tpidr (pc s) = true → fld (pc s) MRS_MSR_REG_TXT "a" = 0 →
      s' = next (set_tpidr (X s (fld (pc s) MRS_MSR_REG_TXT "g")) s) → src_step start s s'
  | step_mrs_other : decode (pc s) = A64_MRS_MSR_REG → is_tpidr (pc s) = false → app (source (pc s)) s = Some s' → src_step start s s'
  | step_unknown : decode (pc s) = A64_INVALID → pc s = start → app (source (pc s)) s = Some s' → src_step start s s'.

(** A branch, and a word that the decoder does not know behind other
    instructions, where the application goes on in a block of its own. *)
Inductive src_exit (start : Z) (s s' : machine) : Prop :=
  | exit_conditional b : conditional (decode (pc s)) → (decode (pc s) = A64_B_COND → cond_of (source (pc s)) < 14) →
      src_branch (decode (pc s)) (source (pc s)) = Some b → exec app b s = Some s' → src_exit start s s'
  | exit_b_bl b : decode (pc s) = A64_B_BL → src_branch A64_B_BL (source (pc s)) = Some b → exec app b s = Some s' → src_exit start s s'
  | exit_br : decode (pc s) = A64_BR ∨ decode (pc s) = A64_RET → s' = set_pc (X s (fld (pc s) BR_TXT "a")) s → src_exit start s s'
  | exit_blr : decode (pc s) = A64_BLR → s' = set_pc (X s (fld (pc s) BR_TXT "a")) (set_x lr (pc s + 4) s) → src_exit start s s'
  | exit_invalid : decode (pc s) = A64_INVALID → pc s ≠ start → s' = s → src_exit start s s'.

(** ** Sequences with a spilled register *)

(** An instruction between the code that saves a register and loads a constant,
    and the code that restores it. *)
Lemma spill_goes final m r v i s3 : ok m → 0 ≤ r ≤ 30 → 0 ≤ v < 2 ^ 64 → pc m + 100 < 2 ^ 64 →
  let p := pc m + 4 + code_size (copy_to_reg r v) in
  code_at final (pc m) ([a64_push_reg r] ++ copy_to_reg r v ++ [i; a64_pop_reg r]) →
  exec app i (set_pc p (set_x r v (push r m))) = Some s3 → pc s3 = p + 4 → sp_of s3 = u64 (sp_of m - 16) →
  load 8 (mem s3) (u64 (sp_of m - 16)) = X m r →
  goes final m (set_pc (p + 8) (set_x r (X m r) (set_sp (sp_of m) s3))).
Proof using Happ.
  intros [Hpc Hx Hsp] Hr Hv Hb p Hc He Hp3 Hsp3 Hld. pose proof (a64_copy_size r v) as Hz. rewrite !a64_code_at_app in Hc.
  destruct Hc as [[Hpu _] [Hcp (Hi & Hpo & _)]]. change (code_size [a64_push_reg r]) with 4 in *.
  replace (pc m + 4 + code_size (copy_to_reg r v)) with p in Hi, Hpo by done.
  assert (goes final m (next (push r m))) as Hg1 by (eapply goes_step; [exact Hpu | apply exec_push]). goes_via Hg1.
  assert (pc (next (push r m)) = pc m + 4) as Hp1 by (apply pc_set_pc; change (pc (push r m)) with (pc m); lia).
  pose proof (goes_copy app final r v (next (push r m))) as Hg2. rewrite Hp1 in Hg2.
  specialize (Hg2 ltac:(lia) Hv ltac:(lia) ltac:(lia) Hcp). fold p in Hg2. goes_via Hg2.
  change (set_pc p (set_x r v (next (push r m)))) with (set_pc p (set_x r v (push r m))).
  assert (goes final (set_pc p (set_x r v (push r m))) s3) as Hg3.
  { eapply goes_step; [|exact He]. rewrite pc_set_pc by (unfold p; lia). exact Hi. }
  goes_via Hg3. replace (set_pc (p + 8) (set_x r (X m r) (set_sp (sp_of m) s3))) with (next (pop r s3)); [eapply goes_step; [rewrite Hp3; exact Hpo | apply exec_pop]|].
  unfold next, pop. rewrite Hsp3, Hld. replace (set_sp (u64 (sp_of m - 16) + 16) s3) with (set_sp (sp_of m) s3).
  - change (pc (set_x r (X m r) (set_sp (sp_of m) s3))) with (pc s3). rewrite Hp3. by replace (p + 4 + 4) with (p + 8) by lia.
  - unfold set_sp. f_equal. f_equal. unfold u64. rewrite Zplus_mod_idemp_l. f_equal. lia.
Qed.

(** ** Inside of a block *)

(** What an instruction writes inside a block: [q1] is [q] with at most 28 bytes
    that do what the application does. *)
Definition advances q q1 (a a' : machine) : Prop :=
  ∃ k, 0 < k ≤ 28 ∧ s_write q1 = s_write q + k ∧ aligned k = true ∧ s_data q1 = s_data q ∧ s_read q1 = s_read q ∧ s_stop q1 = s_stop q
    ∧ w_th (s_world q1) = w_th (s_world q) ∧ keeps (s_write q) k (w_code (s_world q)) (w_code (s_world q1))
    ∧ ∀ final b c m, stays (w_code (s_world q1)) final (s_write q1) b c → s_write q1 ≤ c → 0 ≤ s_write q → s_write q + 200 < 2 ^ 63 →
        sim a m → ok m → pc m = s_write q → ∃ m', goes final m m' ∧ pc m' = s_write q1 ∧ ok m' ∧ sim a' m'.

Lemma put_code_advances l q a a' : 0 < code_size l ≤ 28 →
  (∀ final m, code_at final (pc m) l → 0 ≤ pc m → pc m + 200 < 2 ^ 63 → sim a m → ok m →
    ∃ m', goes final m m' ∧ pc m' = pc m + code_size l ∧ ok m' ∧ sim a' m') →
  advances q (put_code l q) a a'.
Proof using.
  intros Hl Hgo. exists (code_size l). split_and!; try done; try lia.
  - apply aligned_mod. unfold code_size. rewrite Z.mul_comm. by apply Z.mod_mul.
  - apply a64_place_keeps.
  - assert (s_write (put_code l q) = s_write q + code_size l) as Hw by done.
    intros final b c m Hst Hc H0 H1 Hs Ho Hp. rewrite Hw in *.
    assert (code_at final (s_write q) l) as Hcl.
    { eapply a64_stays_code; [exact Hst | apply (a64_place_code_at l (s_write q) (w_code (s_world q))) | lia | lia]. }
    destruct (Hgo final m) as (m' & Hg & Hp' & Ho' & Hs'); [by rewrite Hp | lia | lia | done | done |].
    exists m'. split_and!; try done. lia.
Qed.

Lemma a64_copied_advances (Ha : app_ok) q a a' : app (source (s_read q)) a = Some a' → ok a → advances q (a64_copy source q) a a'.
Proof using Happ.
  intros Hap Hoa. apply put_code_advances; [done|]. intros final m [Hc _] H0 H1 Hs Ho.
  destruct (app_anywhere Ha _ _ _ m Hap Hs Hoa Ho) as (m' & Hm' & Hs'). destruct (app_next Ha _ _ _ Hm' Ho) as [Ho' Hp'].
  exists m'. split_and!; try done; [by eapply goes_step | rewrite Hp'; change (code_size _) with 4; apply u64_small; lia].
Qed.

(** *** Constants *)

Lemma scan_adr_code q : 0 ≤ s_read q < 2 ^ 64 → ∃ v, scan_adr source q = put_code (copy_to_reg (fld (s_read q) ADR_TXT "d") (u64 v)) q
  ∧ u64 v = u64 (adr_value (s_read q)).
Proof using.
  intros Hr. unfold scan_adr, adr_value, wfield.
  assert (0 ≤ fld (s_read q) ADR_TXT "b" < 2 ^ 2) as Hlo by field_bits 2. assert (0 ≤ fld (s_read q) ADR_TXT "c" < 2 ^ 19) as Hhi by field_bits 19.
  rewrite (lor_shift _ _ 2) by done. change (2 ^ 2) with 4 in *. rewrite sign_extend64_signed by lia.
  destruct (fld (s_read q) ADR_TXT "a" =? 0); eexists; (split; [reflexivity|]).
  - by rewrite u64_add_r.
  - rewrite u64_add_r, land_page by done. rewrite Z.shiftl_mul_pow2 by done. change (2 ^ 12) with 4096.
    unfold u64. rewrite <- (Zplus_mod_idemp_r (_ mod _ * 4096)), Zmult_mod_idemp_l. by rewrite Zplus_mod_idemp_r.
Qed.

Lemma const_goes (Ha : app_ok) final r v a m : code_at final (pc m) (copy_to_reg r (u64 v)) → 0 ≤ pc m → pc m + 200 < 2 ^ 63 → 0 ≤ r < 32 →
  sim a m → ok m → ∃ m', goes final m m' ∧ pc m' = pc m + code_size (copy_to_reg r (u64 v)) ∧ ok m' ∧ sim (next (set_x r v a)) m'.
Proof using Happ.
  intros Hc H0 H1 Hr Hs Ho. pose proof (u64_range v). pose proof (a64_copy_size r (u64 v)).
  pose proof (goes_copy app final r (u64 v) m ltac:(lia) ltac:(lia) ltac:(lia) ltac:(lia) Hc) as Hg.
  eexists. split_and!; [exact Hg | apply pc_set_pc; lia | auto with a64_ok |].
  apply (sim_pc Ha). pose proof (sim_equiv Ha). rewrite set_x_u64. by apply (sim_set_x Ha).
Qed.

Lemma adr_advances (Ha : app_ok) q a a' : ok a → pc a = s_read q → a' = next (set_x (fld (pc a) ADR_TXT "d") (adr_value (pc a)) a) →
  advances q (scan_adr source q) a a'.
Proof using Happ.
  intros Hoa Hp ->. destruct (scan_adr_code q) as (v & -> & Hv); [rewrite <- Hp; by destruct Hoa|]. rewrite Hp.
  pose proof (a64_copy_size (fld (s_read q) ADR_TXT "d") (u64 v)). assert (0 ≤ fld (s_read q) ADR_TXT "d" < 2 ^ 5) as Hd by field_bits 5.
  apply put_code_advances; [lia|]. intros final m Hc H0 H1 Hs Ho.
  destruct (const_goes Ha final _ v a m Hc H0 H1 ltac:(lia) Hs Ho) as (m' & Hg & Hp' & Ho' & Hs'). exists m'. split_and!; try done.
  pose proof (sim_equiv Ha). assert (set_x (fld (s_read q) ADR_TXT "d") v a ≡ set_x (fld (s_read q) ADR_TXT "d") (adr_value (s_read q)) a) as He.
  { rewrite <- (set_x_u64 _ v), Hv. apply set_x_u64. }
  by rewrite (next_proper _ _ He) in Hs'.
Qed.

(** *** Loads of literals *)

Lemma perform_load acc addr rt m : acc ≠ StoreX → pc (perform acc addr rt m) = pc m ∧ sp_of (perform acc addr rt m) = sp_of m ∧ mem (perform acc addr rt m) = mem m.
Proof using. intros Ha. destruct acc; try done; split_and!; try done; unfold perform, set_x, set_xreg, sp_of; cbn; by destruct (rt =? 31). Qed.

Lemma ok_perform acc addr rt m : acc ≠ StoreX → ok m → ok (perform acc addr rt m).
Proof using. intros Ha Ho. destruct acc; try done; cbn [perform]; auto with a64_ok. Qed.

Lemma perform_sim (Ha : app_ok) acc p rt a m : acc ≠ StoreX → literal (access_size acc) p → sim a m → sim (perform acc p rt a) (perform acc p rt m).
Proof using.
  intros Hacc Hl Hs. destruct acc; try done; cbn [perform access_size] in *; rewrite (sim_load Ha a m _ p Hs Hl);
    [by apply (sim_set_x Ha) | by apply (sim_set_x Ha) | by apply (sim_set_v Ha)].
Qed.

(** The address is in the register that is loaded. *)
Lemma load_goes final size op acc r p m :
  access_of size 0 op = Some acc → acc = LoadSW ∨ (∃ n, acc = LoadX n) → 0 ≤ r < 32 → 0 ≤ p < 2 ^ 64 → ok m → pc m + 100 < 2 ^ 64 →
  let l := copy_to_reg r p ++ [LDR_STR_unsigned_immed size 0 op 0 r r] in
  code_at final (pc m) l → goes final m (set_pc (pc m + code_size l) (perform acc p r m)).
Proof using Happ.
  intros Hacc Hk Hr Hp [Hpc Hx Hsp] Hb l Hc. unfold l in *. pose proof (a64_copy_size r p) as Hz. rewrite a64_code_at_app in Hc. destruct Hc as [Hc [Hi _]].
  rewrite a64_code_size_app. change (code_size [_]) with 4.
  pose proof (goes_copy app final r p m ltac:(lia) Hp ltac:(lia) ltac:(lia) Hc) as Hg. goes_via Hg. set (q := pc m + code_size (copy_to_reg r p)) in *.
  assert (pc (set_pc q (set_x r p m)) = q) as Hq by (apply pc_set_pc; lia).
  pose proof (goes_step app final (set_pc q (set_x r p m)) (LDR_STR_unsigned_immed size 0 op 0 r r)) as Hs. rewrite Hq in Hs.
  cbn [A64Asm.exec] in Hs. rewrite Hacc in Hs. cbn [mbind option_bind] in Hs. specialize (Hs _ Hi eq_refl).
  match type of Hs with A64Code.goes _ _ _ ?t => assert (t ≡ set_pc (pc m + (code_size (copy_to_reg r p) + 4)) (perform acc p r m)) as <-; [|exact Hs] end.
  rewrite Z.mul_0_l, Z.add_0_r. unfold next. rewrite Z.add_assoc. fold q.
  set (b := base_reg r _). set (s := set_pc q (set_x r p m)) in *.
  assert (pc (perform acc b r s) = q) as -> by (destruct Hk as [-> | [n ->]]; exact Hq).
  destruct (decide (r = 31)) as [->|Hne].
  - destruct Hk as [-> | [n ->]]; cbn [perform]; rewrite !set_x_zero; unfold s; by rewrite set_pc_pc, set_x_zero.
  - assert (b = p) as ->.
    { unfold b, s, base_reg, xsp, set_x, set_xreg. rewrite (proj2 (Z.eqb_neq r 31)) by done. cbn [set_pc set_gpr gpr xr]. rewrite Z.eqb_refl. by apply u64_small. }
    assert (∀ v, set_pc (q + 4) (set_x r v s) ≡ set_pc (q + 4) (set_x r v m)) as He; [|destruct Hk as [-> | [n ->]]; apply He].
    intros v. unfold s. change (set_x r v (set_pc q (set_x r p m))) with (set_pc q (set_x r v (set_x r p m))). by rewrite set_pc_pc, set_x_x.
Qed.

(** *** Spills *)

(** The state behind the code that restores the register. *)
Lemma spill_restored e r m m' s3 : (∀ k, k ≠ 31 → k ≠ r → X s3 k = X m' k) → 0 ≤ r ≤ 30 → ok m → X m' r = X m r → sp_of m' = sp_of m →
  (∀ k, vr s3 k = vr m' k) → nzcv s3 = nzcv m' → tpidr s3 = tpidr m' → (∀ x, mem s3 x = mem m' x) →
  set_pc e (set_x r (X m r) (set_sp (sp_of m) s3)) ≡ set_pc e m'.
Proof using.
  intros HX Hr [_ Hx Hsp] Hr' Hsp' H4 H5 H6 H7. apply machine_ext; try done.
  - intros k Hk. change (X (set_pc e ?s) k) with (X s k). destruct (decide (k = r)) as [->|Hne].
    + rewrite X_set_x_eq by lia. rewrite Hr'. by apply u64_small.
    + rewrite X_set_x_ne by done. rewrite <- HX by done. done.
  - change (sp_of (set_pc e ?s)) with (sp_of s). rewrite Hsp'. unfold set_x, set_xreg, sp_of at 1. rewrite (proj2 (Z.eqb_neq r 31)) by lia.
    cbn. by apply u64_small.
Qed.

(** What is left of a push: the word below the stack. *)
Definition pushed (r : Z) (m : machine) : machine := set_mem (store 8 (sp_of m - 16) (X m r) (mem m)) m.

Lemma load_pushed r m : ok m → load 8 (mem (pushed r m)) (u64 (sp_of m - 16)) = X m r.
Proof using. intros [_ Hx _]. rewrite load_u64. by apply load_store_8. Qed.
Lemma spill_block final r v i m m' s3 : ok m → 0 ≤ r ≤ 30 → 0 ≤ v < 2 ^ 64 → pc m + 100 < 2 ^ 64 →
  let l := [a64_push_reg r] ++ copy_to_reg r v ++ [i; a64_pop_reg r] in let p := pc m + 4 + code_size (copy_to_reg r v) in
  code_at final (pc m) l → exec app i (set_pc p (set_x r v (push r m))) = Some s3 → pc s3 = p + 4 → sp_of s3 = u64 (sp_of m - 16) →
  load 8 (mem s3) (u64 (sp_of m - 16)) = X m r → (∀ k, k ≠ 31 → k ≠ r → X s3 k = X m' k) → X m' r = X m r → sp_of m' = sp_of m →
  (∀ k, vr s3 k = vr m' k) → nzcv s3 = nzcv m' → tpidr s3 = tpidr m' → (∀ x, mem s3 x = mem m' x) →
  goes final m (set_pc (pc m + code_size l) m').
Proof using Happ.
  intros Ho Hr Hv Hb l p Hc He Hp3 Hsp3 Hld H1 H2 H3 H4 H5 H6 H7.
  pose proof (spill_goes final m r v i s3 Ho Hr Hv Hb Hc He Hp3 Hsp3 Hld) as Hg. fold p in Hg.
  rewrite (spill_restored (p + 8) r m m' s3) in Hg by done. replace (pc m + code_size l) with (p + 8); [exact Hg|].
  unfold p, l. rewrite !a64_code_size_app. change (code_size [a64_push_reg r]) with 4. change (code_size [i; _]) with 8. lia.
Qed.

(** The spilled register holds an address. *)
Lemma base_spilled r v p m : 0 ≤ r ≤ 30 → 0 ≤ v < 2 ^ 64 → base_reg r (set_pc p (set_x r v m)) = v.
Proof using.
  intros Hr Hv. unfold base_reg, xsp, set_x, set_xreg. rewrite (proj2 (Z.eqb_neq r 31)) by lia. cbn [set_pc set_gpr gpr xr].
  rewrite Z.eqb_refl. by apply u64_small.
Qed.

(** A vector register, or nothing. *)
Lemma load_v_goes final size v op acc rt p m :
  access_of size v op = Some acc → acc = Prefetch ∨ (∃ n, acc = LoadV n) → 0 ≤ p < 2 ^ 64 → ok m → pc m + 100 < 2 ^ 64 →
  let l := [a64_push_reg 0] ++ copy_to_reg 0 p ++ [LDR_STR_unsigned_immed size v op 0 0 rt; a64_pop_reg 0] in
  code_at final (pc m) l → goes final m (set_pc (pc m + code_size l) (perform acc p rt (pushed 0 m))).
Proof using Happ.
  intros Hacc Hk Hp Ho Hb l Hc. pose proof (a64_copy_size 0 p) as Hz. pose proof Ho as [Hpc Hx Hsp].
  set (q := pc m + 4 + code_size (copy_to_reg 0 p)). set (s := set_pc q (set_x 0 p (push 0 m))).
  assert (exec app (LDR_STR_unsigned_immed size v op 0 0 rt) s = Some (next (perform acc p rt s))) as He.
  { cbn [A64Asm.exec]. rewrite Hacc. cbn [mbind option_bind]. unfold s. rewrite base_spilled by lia. by rewrite Z.mul_0_l, Z.add_0_r. }
  assert (acc ≠ StoreX) as Hacc' by (destruct Hk as [-> | [n ->]]; done).
  destruct (perform_load acc p rt s Hacc') as (Hp1 & Hp2 & Hp3). destruct (perform_load acc p rt (pushed 0 m) Hacc') as (Hq1 & Hq2 & Hq3).
  assert (∀ k, X (perform acc p rt s) k = X s k ∧ X (perform acc p rt (pushed 0 m)) k = X m k) as HX by (by destruct Hk as [-> | [n ->]]).
  eapply spill_block; [done | done | done | done | exact Hc | exact He | | | | | | | | | |].
  - unfold next. rewrite Hp1. unfold s. rewrite !pc_set_pc by (rewrite ?pc_set_pc; lia). done.
  - change (sp_of (perform acc p rt s) = u64 (sp_of m - 16)). rewrite Hp2. unfold s. change (sp_of (set_x 0 p (push 0 m)) = u64 (sp_of m - 16)). by rewrite sp_set_x.
  - change (load 8 (mem (perform acc p rt s)) (u64 (sp_of m - 16)) = X m 0). rewrite Hp3. by apply load_pushed.
  - intros k _ Hne. destruct (HX k) as [H1 ->]. change (X (perform acc p rt s) k = X m k). rewrite H1. unfold s.
    change (X (set_x 0 p (push 0 m)) k = X m k). by rewrite X_set_x_ne.
  - by apply HX.
  - by rewrite Hq2.
  - intros k. by destruct Hk as [-> | [n ->]].
  - by destruct Hk as [-> | [n ->]].
  - by destruct Hk as [-> | [n ->]].
  - intros x. change (mem (perform acc p rt s) x = mem (perform acc p rt (pushed 0 m)) x). by rewrite Hp3, Hq3.
Qed.

(** The thread register is at [p]. *)
Lemma mrs_goes final r rt p m : 0 ≤ r ≤ 30 → rt ≠ r → 0 ≤ p < 2 ^ 64 → ok m → pc m + 100 < 2 ^ 64 →
  let l := [a64_push_reg r] ++ copy_to_reg r p ++ [LDR_STR_immed 3 0 1 0 0 r rt; a64_pop_reg r] in
  code_at final (pc m) l → goes final m (set_pc (pc m + code_size l) (set_x rt (load 8 (mem (pushed r m)) p) (pushed r m))).
Proof using Happ.
  intros Hr Hne Hp Ho Hb l Hc. pose proof (a64_copy_size r p) as Hz. pose proof Ho as [Hpc Hx Hsp].
  set (q := pc m + 4 + code_size (copy_to_reg r p)). set (s := set_pc q (set_x r p (push r m))).
  assert (exec app (LDR_STR_immed 3 0 1 0 0 r rt) s = Some (next (set_x rt (load 8 (mem s) p) (set_base r p s)))) as He.
  { cbn [A64Asm.exec indexed Z.eqb Pos.eqb andb]. unfold s. rewrite base_spilled by lia. change (signed 9 0) with 0. by rewrite Z.add_0_r. }
  assert (∀ k, k ≠ r → X (set_base r p s) k = X m k) as HX.
  { intros k Hk. unfold set_base, set_xsp. rewrite (proj2 (Z.eqb_neq r 31)) by lia. change (X (set_x r p s) k = X m k). rewrite X_set_x_ne by done.
    change (X (set_x r p (push r m)) k = X m k). by rewrite X_set_x_ne. }
  assert (sp_of (set_base r p s) = u64 (sp_of m - 16)) as Hb'.
  { unfold set_base, set_xsp. rewrite (proj2 (Z.eqb_neq r 31)) by lia. change (sp_of (set_x r p s) = u64 (sp_of m - 16)). rewrite sp_set_x.
    change (sp_of (set_x r p (push r m)) = u64 (sp_of m - 16)). by rewrite sp_set_x. }
  eapply spill_block; [done | done | done | done | exact Hc | exact He | | | | | | | | | |]; try done.
  - change (pc (next (set_pc q s)) = q + 4). unfold next. by rewrite !pc_set_pc by (rewrite ?pc_set_pc; unfold q; lia).
  - change (sp_of (next ?t)) with (sp_of t). by rewrite sp_set_x.
  - by apply load_pushed.
  - intros k _ Hk. change (X (next ?t) k) with (X t k). change (mem s) with (mem (pushed r m)). destruct (decide (k = rt)) as [->|].
    + destruct (decide (rt = 31)) as [->|]; [done|]. by rewrite !X_set_x_eq.
    + rewrite !X_set_x_ne by done. by rewrite HX.
  - by rewrite X_set_x_ne by done.
  - by rewrite sp_set_x.
Qed.

Lemma msr_goes final r rt p m : 0 ≤ r ≤ 30 → rt ≠ r → 0 ≤ p < 2 ^ 64 → ok m → pc m + 100 < 2 ^ 64 →
  load 8 (store 8 p (X m rt) (mem (pushed r m))) (u64 (sp_of m - 16)) = X m r →
  let l := [a64_push_reg r] ++ copy_to_reg r p ++ [LDR_STR_immed 3 0 0 0 0 r rt; a64_pop_reg r] in
  code_at final (pc m) l → goes final m (set_pc (pc m + code_size l) (set_mem (store 8 p (X m rt) (mem (pushed r m))) (pushed r m))).
Proof using Happ.
  intros Hr Hne Hp Ho Hb Hld l Hc. pose proof (a64_copy_size r p) as Hz. pose proof Ho as [Hpc Hx Hsp].
  set (q := pc m + 4 + code_size (copy_to_reg r p)). set (s := set_pc q (set_x r p (push r m))).
  assert (X s rt = X m rt) as Hrt by (change (X (set_x r p (push r m)) rt = X m rt); by rewrite X_set_x_ne).
  assert (exec app (LDR_STR_immed 3 0 0 0 0 r rt) s = Some (next (set_base r p (set_mem (store 8 p (X m rt) (mem s)) s)))) as He.
  { cbn [A64Asm.exec indexed Z.eqb Pos.eqb andb]. rewrite Hrt. unfold s. rewrite base_spilled by lia. change (signed 9 0) with 0. by rewrite Z.add_0_r. }
  set (s1 := set_mem _ s) in He.
  assert (∀ k, k ≠ r → X (set_base r p s1) k = X m k) as HX.
  { intros k Hk. unfold set_base, set_xsp. rewrite (proj2 (Z.eqb_neq r 31)) by lia. change (X (set_x r p s1) k = X m k). rewrite X_set_x_ne by done.
    change (X (set_x r p (push r m)) k = X m k). by rewrite X_set_x_ne. }
  assert (sp_of (set_base r p s1) = u64 (sp_of m - 16)) as Hb'.
  { unfold set_base, set_xsp. rewrite (proj2 (Z.eqb_neq r 31)) by lia. change (sp_of (set_x r p s1) = u64 (sp_of m - 16)). rewrite sp_set_x.
    change (sp_of (set_x r p (push r m)) = u64 (sp_of m - 16)). by rewrite sp_set_x. }
  eapply spill_block; [done | done | done | done | exact Hc | exact He | | | | | | | | | |]; try done.
  - change (pc (next (set_pc q s)) = q + 4). unfold next. by rewrite !pc_set_pc by (rewrite ?pc_set_pc; unfold q; lia).
  - intros k _ Hk. change (X (next ?t) k) with (X t k). by rewrite HX.
Qed.
(** *** Advances of the translated instructions *)

Lemma sim_pushed (Ha : app_ok) a m r : sim a m → sim a (pushed r m).
Proof using. intros Hs. by apply (sim_below Ha). Qed.

Lemma ok_pushed r m : ok m → ok (pushed r m).
Proof using. apply a64_ok_set_mem. Qed.

Lemma lit_cases opc v acc : lit_access opc v = Some acc →
  v = 0 ∧ (opc = 0 ∧ acc = LoadX 4 ∨ opc = 1 ∧ acc = LoadX 8 ∨ opc = 2 ∧ acc = LoadSW ∨ opc = 3 ∧ acc = Prefetch)
  ∨ v = 1 ∧ (opc = 0 ∧ acc = LoadV 4 ∨ opc = 1 ∧ acc = LoadV 8 ∨ opc = 2 ∧ acc = LoadV 16).
Proof using. clear. unfold lit_access. intros H. repeat case_match; simplify_eq; tauto. Qed.

Ltac kind_of := first [by left | right; by eexists].

(** What the code of a literal is, by the kind of its access. *)
Lemma scan_ldr_lit_code q acc : lit_access (fld (s_read q) LDR_LIT_TXT "a") (fld (s_read q) LDR_LIT_TXT "b") = Some acc →
  let p := lit_addr (s_read q) in let rt := fld (s_read q) LDR_LIT_TXT "d" in
  ∃ size v op, access_of size v op = Some acc
    ∧ ((acc = LoadSW ∨ (∃ n, acc = LoadX n)) ∧ v = 0
         ∧ scan_ldr_lit source q = Ok (put_code (copy_to_reg rt p ++ [LDR_STR_unsigned_immed size 0 op 0 rt rt]) q)
       ∨ (acc = Prefetch ∨ (∃ n, acc = LoadV n))
         ∧ scan_ldr_lit source q = Ok (put_code ([a64_push_reg 0] ++ copy_to_reg 0 p ++ [LDR_STR_unsigned_immed size v op 0 0 rt; a64_pop_reg 0]) q)).
Proof using.
  intros Hacc p rt. unfold scan_ldr_lit, wfield. cbv zeta. fold rt. rewrite offset_target by (done || field_bits 19). fold (lit_addr (s_read q)). fold p.
  apply lit_cases in Hacc as [[-> Hk]|[-> Hk]]; cbn [Z.eqb Pos.eqb].
  - destruct Hk as [[-> ->]|[[-> ->]|[[-> ->]|[-> ->]]]].
    + exists 2, 0, 1. split; [done|]. left. split; [kind_of|done].
    + exists 3, 0, 1. split; [done|]. left. split; [kind_of|done].
    + exists 2, 0, 2. split; [done|]. left. split; [kind_of|done].
    + exists 3, 0, 2. split; [done|]. right. split; [kind_of|done].
  - destruct Hk as [[-> ->]|[[-> ->]|[-> ->]]].
    + exists 2, 1, 1. split; [done|]. right. split; [kind_of|done].
    + exists 3, 1, 1. split; [done|]. right. split; [kind_of|done].
    + exists 0, 1, 3. split; [done|]. right. split; [kind_of|done].
Qed.

Lemma ldr_lit_advances (Ha : app_ok) q q1 a a' acc : pc a = s_read q →
  lit_access (fld (pc a) LDR_LIT_TXT "a") (fld (pc a) LDR_LIT_TXT "b") = Some acc → literal (access_size acc) (lit_addr (pc a)) →
  a' = next (perform acc (lit_addr (pc a)) (fld (pc a) LDR_LIT_TXT "d") a) → scan_ldr_lit source q = Ok q1 → advances q q1 a a' ∧ acc ≠ StoreX.
Proof using Happ.
  intros Hp Hacc Hlit -> H. rewrite Hp in *. destruct (scan_ldr_lit_code q acc Hacc) as (size & v & op & Hof & Hk).
  set (p := lit_addr (s_read q)) in *. set (rt := fld (s_read q) LDR_LIT_TXT "d") in *.
  assert (0 ≤ rt < 2 ^ 5) as Hrt by (unfold rt; field_bits 5). assert (0 ≤ p < 2 ^ 64) as Hpr by apply u64_range.
  assert (acc ≠ StoreX) as Hns by (intros ->; destruct Hk as [[[?|[? ?]] _]|[[?|[? ?]] _]]; done). split; [|done].
  destruct Hk as [(Hk & -> & Hq)|[Hk Hq]]; rewrite Hq in H; apply returned in H as <-.
  - pose proof (a64_copy_size rt p) as Hz. apply put_code_advances; [rewrite a64_code_size_app; change (code_size [_]) with 4; lia|].
    intros final m Hc H0 H1 Hs Ho. eexists. split_and!; [apply (load_goes final size op acc rt p m); [exact Hof | exact Hk | lia | done | done | lia | exact Hc] | | |].
    + apply pc_set_pc. rewrite a64_code_size_app. change (code_size [_]) with 4. lia.
    + apply a64_ok_set_pc. by apply ok_perform.
    + apply (sim_pc Ha). by apply perform_sim.
  - pose proof (a64_copy_size 0 p) as Hz.
    assert (code_size ([a64_push_reg 0] ++ copy_to_reg 0 p ++ [LDR_STR_unsigned_immed size v op 0 0 rt; a64_pop_reg 0]) = 12 + code_size (copy_to_reg 0 p)) as Hsz
      by (rewrite !a64_code_size_app; change (code_size [a64_push_reg 0]) with 4; change (code_size [_; _]) with 8; lia).
    apply put_code_advances; [lia|]. intros final m Hc H0 H1 Hs Ho.
    eexists. split_and!; [apply (load_v_goes final size v op acc rt p m); [exact Hof | exact Hk | done | done | lia | exact Hc] | | |].
    + apply pc_set_pc. lia.
    + apply a64_ok_set_pc, ok_perform; [done|]. by apply ok_pushed.
    + apply (sim_pc Ha). apply perform_sim; [done..|]. by apply sim_pushed.
Qed.

Lemma mrs_msr_advances (Ha : app_ok) q a a' : pc a = s_read q → is_tpidr (pc a) = true →
  fld (pc a) MRS_MSR_REG_TXT "a" = 1 ∧ a' = next (set_x (fld (pc a) MRS_MSR_REG_TXT "g") (tpidr a) a)
  ∨ fld (pc a) MRS_MSR_REG_TXT "a" = 0 ∧ a' = next (set_tpidr (X a (fld (pc a) MRS_MSR_REG_TXT "g")) a) →
  advances q (scan_mrs_msr tls_addr source q) a a'.
Proof using Happ.
  intros Hp Ht Hk. rewrite Hp in *. unfold scan_mrs_msr, wfield. cbv zeta. unfold is_tpidr in Ht. rewrite Ht.
  set (rt := fld (s_read q) MRS_MSR_REG_TXT "g") in *. set (r := if rt =? 0 then 1 else 0).
  assert (0 ≤ r ≤ 30 ∧ rt ≠ r) as [Hr Hne] by (unfold r; destruct (Z.eqb_spec rt 0); lia).
  pose proof (a64_copy_size r tls_addr) as Hz. pose proof (tls_range Ha) as Htls.
  assert (∀ i, code_size ([a64_push_reg r] ++ copy_to_reg r tls_addr ++ [i; a64_pop_reg r]) = 12 + code_size (copy_to_reg r tls_addr)) as Hsz
    by (intros i; rewrite !a64_code_size_app; change (code_size [a64_push_reg r]) with 4; change (code_size [i; _]) with 8; lia).
  apply put_code_advances; [rewrite Hsz; lia|]. intros final m Hc H0 H1 Hs Ho. pose proof (sim_pushed Ha a m r Hs) as Hsp.
  destruct Hk as [[HR ->]|[HR ->]]; rewrite HR in *; cbn [Z.eqb] in *.
  - eexists. split_and!; [apply (mrs_goes final r rt tls_addr m); [exact Hr | exact Hne | exact Htls | done | lia | exact Hc] | | |].
    + apply pc_set_pc. rewrite Hsz. lia.
    + apply a64_ok_set_pc, ok_set_x. by apply ok_pushed.
    + apply (sim_pc Ha). rewrite (sim_tls Ha a (pushed r m)) by done. by apply (sim_set_x Ha).
  - eexists. split_and!; [apply (msr_goes final r rt tls_addr m); [exact Hr | exact Hne | exact Htls | done | lia | | exact Hc] | | |].
    + rewrite (sim_tls_apart Ha a m) by done. by apply load_pushed.
    + apply pc_set_pc. rewrite Hsz. lia.
    + apply a64_ok_set_pc, a64_ok_set_mem. by apply ok_pushed.
    + apply (sim_pc Ha). rewrite (sim_x Ha a m) by done. apply (sim_set_tls Ha); [done|]. rewrite <- (sim_x Ha a m) by done. by destruct Ho.
Qed.

(** The way of an instruction inside a block. *)
Lemma a64_src_step_advances (Ha : app_ok) bb start g watched type q q1 a a' :
  src_step start a a' → ok a → pc a = s_read q → pc a + 4 < 2 ^ 64 →
  scan_inst cfg opts dispatcher_addr syscall_wrapper_addr entries_addr tls_addr source g watched bb type start (decode (pc a)) q = Ok q1 →
  advances q q1 a a' ∧ pc a' = pc a + 4 ∧ ok a'.
Proof using Happ.
  intros Hs Ho Hp Hsm H. pose proof Ho as [Hpc _ _].
  assert (∀ i, app (source (pc a)) a = Some i → pc i = pc a + 4 ∧ ok i) as Hn.
  { intros i Hi. destruct (app_next Ha _ _ _ Hi Ho) as [Hoi ->]. by rewrite u64_small by lia. }
  assert (∀ s, pc s = pc a → ok s → pc (next s) = pc a + 4 ∧ ok (next s)) as Hnx.
  { intros s Hps Hos. split; [|by apply a64_ok_set_pc]. unfold next. by rewrite Hps, pc_set_pc by lia. }
  destruct Hs as [Hc Hi | Hd Hi | acc Hd Hacc Hlit Hi | Hd Ht HR Hi | Hd Ht HR Hi | Hd Ht Hi | Hd Hst Hi].
  - split; [|by apply Hn]. assert (q1 = a64_copy source q) as ->; [|apply a64_copied_advances; by rewrite <- ?Hp].
    destruct (decode (pc a)); try discriminate Hc; by injection H as <-.
  - rewrite Hd in H. injection H as <-. split; [by eapply adr_advances|]. subst a'. apply Hnx; [done | by apply ok_set_x].
  - rewrite Hd in H. cbn [A64Scan.scan_inst] in H. destruct (ldr_lit_advances Ha q q1 a a' acc Hp Hacc Hlit Hi H) as [Hadv Hns].
    split; [done|]. subst a'. apply Hnx; [by apply perform_load | by apply ok_perform].
  - rewrite Hd in H. injection H as <-. split; [apply mrs_msr_advances; auto|]. subst a'. apply Hnx; [done | by apply ok_set_x].
  - rewrite Hd in H. injection H as <-. split; [apply mrs_msr_advances; auto|]. subst a'. apply Hnx; [done | by apply ok_set_tpidr].
  - rewrite Hd in H. injection H as <-. split; [|by apply Hn]. unfold scan_mrs_msr, wfield. rewrite Hp in Ht. unfold is_tpidr in Ht. cbv zeta. rewrite Ht.
    apply a64_copied_advances; by rewrite <- ?Hp.
  - rewrite Hd in H. cbn [A64Scan.scan_inst] in H. unfold scan_invalid in H. rewrite <- Hp, Hst, Z.eqb_refl in H. injection H as <-.
    split; [|by apply Hn]. apply a64_copied_advances; by rewrite <- ?Hp.
Qed.
(** ** Exits of the application *)

(** The dispatcher is entered with a state like that of the application behind
    its branch, or, after an inline lookup, the block that the table has for the
    application, with X0 and X1 on the stack. *)
Definition leaves (bb : Z) (final : cmem) (m a' : machine) : Prop :=
  (∃ m1, sim a' m1 ∧ goes final m (dispatched dispatcher_addr (pc a') bb m1))
  ∨ DBM_INLINE_HASH opts = true ∧ ∃ v m1, translated !! pc a' = Some v ∧ goes final m m1 ∧ pc m1 = v ∧ sim a' (pop_pair 0 1 m1).

Definition arrives (bb : Z) (final : cmem) (write : Z) (a a' : machine) : Prop :=
  ∀ m, sim a m → ok m → pc m = write → leaves bb final m a'.

Lemma leaves_via bb final m m' a' : goes final m m' → leaves bb final m' a' → leaves bb final m a'.
Proof using Happ.
  intros Hg [(m1 & Hm1 & Hg1)|(Hin & v & m1 & Hv & Hg1 & Hp)]; [left | right; split; [done|]].
  - exists m1. split; [done|]. by goes_via Hg.
  - exists v, m1. split_and!; [done | by goes_via Hg | by apply Hp | by apply Hp].
Qed.

(** The code from the write pointer of [q] on, as far as [final] has it. *)
Definition follows (bb : Z) (final : cmem) q (a a' : machine) : Prop := stays_from q final ∧ arrives bb final (s_write q) a a'.

(** [q1] ends the block that [q] is in, for an application that goes from [a] to
    [a']. *)
Definition exits (bb : Z) q q1 (a a' : machine) : Prop := s_stop q1 = true ∧ ∀ final, stays_from q1 final → follows bb final q a a'.

Lemma run_out_exits bb k q f q1 th' n text' a a' :
  fits bb k (s_world q) (s_write q) (s_data q) → (s ← run_out f q; Ok (end_block s)) = Ok q1 → s_write q1 ≤ s_data q1 →
  f (w_th (s_world q)) (s_write q, w_code (s_world q)) = Ok (th', (s_write q + n, text')) →
  0 ≤ n → keeps (s_write q) n (w_code (s_world q)) text' → (∃ ms, th' = set_code_cache_meta ms (w_th (s_world q))) →
  (∀ final m, (∀ x, s_write q ≤ x → x + 4 ≤ s_write q + n → final x = text' x) → sim a m → ok m → pc m = s_write q →
    leaves bb final m a') → exits bb q q1 a a'.
Proof using.
  intros Hf H Hle Ho Hn Hk [ms ->] Hgo. unfold run_out in H. rewrite Ho in H. apply returned in H as <-. split; [done|].
  intros final Hst. unfold stays_from in *. cbn [set_world s_world s_write s_data w_code end_block] in *.
  change (first_free (MkWorld _ text')) with (first_free (s_world q)) in Hst. destruct Hf as [_ _ _ _ _ _ Hd]. split.
  - eapply keeps_stays; [exact Hk | exact Hst |]. intros x Hx Hc. lia.
  - intros m Hs Hom Hp. apply Hgo; [|done..]. intros x H0 H1. apply Hst; lia.
Qed.

(** *** Jumps to the dispatcher *)

(** With the word for the linked branch, or without. *)
Definition jump_code (reserve : bool) (bb target p : Z) : list inst :=
  (if reserve then [NOP] else []) ++ [a64_push_pair_reg 0 1] ++ side_code dispatcher_addr true bb target (p + if reserve then 8 else 4).

Lemma jump_size reserve bb target p : 12 ≤ code_size (jump_code reserve bb target p) ≤ 44.
Proof using.
  unfold jump_code. rewrite !a64_code_size_app. change (code_size [a64_push_pair_reg 0 1]) with 4.
  pose proof (side_size dispatcher_addr true bb target (p + if reserve then 8 else 4)).
  destruct reserve; [change (code_size [NOP]) with 4 | change (code_size []) with 0]; lia.
Qed.

Lemma jump_code_emitted reserve bb target st : room dispatcher_addr 200 (fst st) →
  a64_branch_jump dispatcher_addr bb target true true (a64_branch_save_context (if reserve : bool then emit [NOP] st else st))
  = Ok (emit (jump_code reserve bb target (fst st)) st).
Proof using.
  intros Hr. pose proof Hr as [_ _ _ _ _ [Ha _]]. unfold a64_branch_save_context, jump_code.
  set (l := (if reserve then [NOP] else []) ++ [a64_push_pair_reg 0 1]).
  assert (emit [a64_push_pair_reg 0 1] (if reserve then emit [NOP] st else st) = emit l st) as -> by (unfold l; destruct reserve; [apply emit_app | done]).
  assert (fst (emit l st) = fst st + if reserve then 8 else 4) as Hl by by destruct reserve.
  rewrite (branch_jump_code dispatcher_addr bb target 100), Hl; [unfold l; by rewrite emit_app, <- app_assoc | | lia].
  apply (room_at dispatcher_addr 200 (fst st)); [done | lia | destruct reserve; lia | destruct reserve; lia |].
  by apply aligned_code.
Qed.

Lemma jump_code_goes reserve bb target final m : room dispatcher_addr 200 (pc m) → 0 ≤ bb < 2 ^ 64 → 0 ≤ target < 2 ^ 64 →
  code_at final (pc m) (jump_code reserve bb target (pc m)) → goes final m (dispatched dispatcher_addr target bb m).
Proof using Happ.
  intros Hr Hbb Ht Hc. pose proof Hr as [H0 H1 _ _ _ [Ha _]]. set (p := pc m) in *. set (k := if reserve then 4 else 0).
  assert (code_at final (p + k) ([a64_push_pair_reg 0 1] ++ side_code dispatcher_addr true bb target (p + k + 4)) ∧ goes final m (set_pc (p + k) m)) as [[Hpu Hsd] Hg1].
  { unfold jump_code, k in *. destruct reserve; [destruct Hc as [Hno Hc] | rewrite Z.add_0_r].
    - replace (p + 4 + 4) with (p + 8) by lia. split; [exact Hc|]. by apply goes_nop; try lia.
    - split; [exact Hc|]. unfold p. rewrite set_pc_self by lia. apply goes_refl. }
  assert (0 ≤ k ≤ 4 ∧ aligned (p + k + 4) = true) as [Hk Hak].
  { unfold k. destruct reserve; [|rewrite Z.add_0_r; split; [lia | by apply aligned_4]]. split; [lia | by do 2 apply aligned_4]. }
  goes_via Hg1. assert (pc (set_pc (p + k) m) = p + k) as Hpk by (apply pc_set_pc; lia).
  pose proof (goes_push_pair app final (set_pc (p + k) m) (p + k) 0 1 Hpu Hpk ltac:(lia) ltac:(lia)) as Hg2. goes_via Hg2.
  set (s := set_pc (p + k + 4) (push_pair 0 1 (set_pc (p + k) m))). assert (pc s = p + k + 4) as Hps by (apply pc_set_pc; lia).
  pose proof (side_size dispatcher_addr true bb target (p + k + 4)) as Hz.
  pose proof (side_goes app dispatcher_addr final true bb target 100 s) as Hg3. rewrite Hps in Hg3.
  rewrite u64_small in Hg3 by done. apply Hg3; [|lia|done|exact Hsd]. eapply room_at; [exact Hr | lia.. | done].
Qed.
Lemma aligned_fits bb k w write data n : fits bb k w write data → 0 ≤ k → n ≤ 300 → 0 ≤ n → room dispatcher_addr n write.
Proof using Hbs.
  intros Hf Hk Hn Hn0. eapply room_at; [by eapply a64_fits_room | done | lia | lia |]. by destruct Hf as [_ _ _ _ [_ ?] _ _].
Qed.

Lemma same_thread w : w_th w = set_code_cache_meta (code_cache_meta (w_th w)) (w_th w).
Proof using. by destruct (w_th w). Qed.

(** B, and a word that does not decode. *)
Lemma jump_exits (Ha : app_ok) bb k q f (reserve : bool) target q1 a a' (ms : list dbm_code_cache_meta) :
  fits bb k (s_world q) (s_write q) (s_data q) → 0 ≤ k → (s ← run_out f q; Ok (end_block s)) = Ok q1 → s_write q1 ≤ s_data q1 →
  f (w_th (s_world q)) (s_write q, w_code (s_world q))
    = (st ← a64_branch_jump dispatcher_addr bb target true true
              (a64_branch_save_context (if reserve then emit [NOP] (s_write q, w_code (s_world q)) else (s_write q, w_code (s_world q))));
       Ok (set_code_cache_meta ms (w_th (s_world q)), st)) →
  0 ≤ target < 2 ^ 64 → pc a' = target → (∀ m, sim a m → ok m → sim a' m) → exits bb q q1 a a'.
Proof using Happ Hbs.
  intros Hf Hk H Hle Hfo Ht Hp Hsim. pose proof (aligned_fits bb k _ _ _ 200 Hf Hk ltac:(lia) ltac:(lia)) as Hr.
  set (st := (s_write q, w_code (s_world q))) in *. rewrite (jump_code_emitted reserve bb target st Hr) in Hfo. cbn [mbind outcome_bind] in Hfo.
  set (l := jump_code reserve bb target (fst st)) in *.
  eapply (run_out_exits bb k q f q1 _ (code_size l) (snd (emit l st))); [exact Hf | exact H | exact Hle | exact Hfo | apply a64_code_size_nonneg | apply a64_place_keeps | by exists ms |].
  intros final m Hsame Hs Ho Hpc. left. exists m. split; [by apply Hsim|]. rewrite Hp.
  pose proof (fits_bb _ _ _ _ _ Hf). apply (jump_code_goes reserve); [by rewrite Hpc | lia | done |]. rewrite Hpc.
  eapply code_at_ext; [apply a64_place_code_at|]. exact Hsame.
Qed.

(** *** Indirect branches *)

Definition reg_code (blr : bool) (rn ret bb p : Z) : list inst :=
  let l := [a64_push_pair_reg 0 1; mov 0 rn] ++ (if blr then copy_to_reg lr ret else []) ++ copy_to_reg 1 (u64 bb) in
  l ++ [B_BL 0 (Z.shiftr (dispatcher_addr - (p + code_size l)) 2)].

Lemma reg_size (blr : bool) rn ret bb :
  12 ≤ code_size ([a64_push_pair_reg 0 1; mov 0 rn] ++ (if blr then copy_to_reg lr ret else []) ++ copy_to_reg 1 (u64 bb)) ≤ 40.
Proof using.
  rewrite !a64_code_size_app. change (code_size [_; _]) with 8. pose proof (a64_copy_size 1 (u64 bb)). pose proof (a64_copy_size lr ret).
  destruct blr; [lia|]. change (code_size []) with 0. lia.
Qed.

Lemma reg_code_emitted (blr : bool) rn ret bb st : room dispatcher_addr 200 (fst st) →
  (let st := emit [mov 0 rn] (a64_branch_save_context st) in
   let st := if blr then emit (copy_to_reg lr ret) st else st in
   a64_branch_jump dispatcher_addr bb 0 false true st) = Ok (emit (reg_code blr rn ret bb (fst st)) st).
Proof using.
  intros Hr. pose proof Hr as [_ _ _ _ _ [Ha _]]. cbv zeta. unfold a64_branch_save_context, a64_branch_jump, reg_code. cbv zeta.
  pose proof (reg_size blr rn ret bb) as Hz. set (l := [a64_push_pair_reg 0 1; mov 0 rn] ++ _) in *.
  match goal with |- context [emit (copy_to_reg 1 (u64 bb)) ?s] => assert (emit (copy_to_reg 1 (u64 bb)) s = emit l st) as Hl end.
  { unfold l. destruct blr; by rewrite !emit_app, <- ?app_assoc. }
  rewrite Hl. change (fst (emit l st)) with (fst st + code_size l).
  destruct (b_helper_ok dispatcher_addr 200 (fst st) (code_size l) Hr) as (i & -> & ->); [lia | by apply aligned_code |].
  cbn [mbind outcome_bind]. by rewrite emit_app.
Qed.

Lemma push_pair_lr v m : push_pair 0 1 (set_x lr v m) = set_x lr v (push_pair 0 1 m).
Proof using. done. Qed.

Lemma reg_code_goes (blr : bool) rn ret bb final m : room dispatcher_addr 200 (pc m) → 0 ≤ bb < 2 ^ 64 → 0 ≤ ret < 2 ^ 64 → ok m →
  code_at final (pc m) (reg_code blr rn ret bb (pc m)) →
  goes final m (dispatched dispatcher_addr (X m rn) bb (if blr then set_x lr ret m else m)).
Proof using Happ.
  intros Hr Hbb Ht [Hpm Hx Hsp] Hc. pose proof Hr as [H0 H1 Hd _ _ [Ha _]]. unfold reg_code in Hc. cbv zeta in Hc.
  pose proof (reg_size blr rn ret bb) as Hz. set (l := [a64_push_pair_reg 0 1; mov 0 rn] ++ _) in *. set (p := pc m) in *.
  apply a64_code_at_app in Hc as [Hl [Hb _]]. unfold l in Hl. apply a64_code_at_app in Hl as [[Hpu [Hmo _]] Hl].
  change (code_size [_; _]) with 8 in Hl. apply a64_code_at_app in Hl as [Hlr Hid].
  pose proof (goes_push_pair app final m p 0 1 Hpu eq_refl ltac:(lia) ltac:(lia)) as Hg1. goes_via Hg1.
  set (s1 := set_pc (p + 4) (push_pair 0 1 m)). assert (pc s1 = p + 4) as Hp1 by (apply pc_set_pc; lia).
  assert (goes final s1 (set_pc (p + 8) (set_x 0 (X m rn) (push_pair 0 1 m)))) as Hg2.
  { eapply goes_step; [by rewrite Hp1|]. cbn [exec mov A64Asm.exec LoadStoreA64.a64_exec mbind option_bind]. f_equal. unfold next. rewrite Z.lor_0_l.
    change (pc (set_gpr _ s1)) with (pc s1). rewrite Hp1. by replace (p + 4 + 4) with (p + 8) by lia. }
  goes_via Hg2. set (s2 := set_pc (p + 8) _). assert (pc s2 = p + 8) as Hp2 by (apply pc_set_pc; lia).
  set (lrc := if blr then copy_to_reg lr ret else []) in *. set (s3 := set_x 0 (X m rn) (push_pair 0 1 (if blr then set_x lr ret m else m))).
  pose proof (a64_copy_size 1 (u64 bb)) as Hz1.
  assert (code_size l = 8 + code_size lrc + code_size (copy_to_reg 1 (u64 bb))) as Hsl
    by (unfold l; rewrite !a64_code_size_app; change (code_size [_; _]) with 8; lia).
  assert (0 ≤ code_size lrc) as Hlrc by apply a64_code_size_nonneg.
  assert (goes final s2 (set_pc (p + 8 + code_size lrc) s3)) as Hg3.
  { unfold s3, lrc in *. destruct blr; [|change (code_size []) with 0; rewrite Z.add_0_r; apply goes_refl].
    pose proof (goes_copy app final lr ret s2) as Hg. rewrite Hp2 in Hg. rewrite push_pair_lr, <- (set_x_comm lr 0) by done.
    apply Hg; (done || lia). }
  goes_via Hg3. set (s4 := set_pc _ s3). assert (pc s4 = p + 8 + code_size lrc) as Hp4 by (apply pc_set_pc; lia).
  pose proof (goes_copy app final 1 (u64 bb) s4) as Hg4. rewrite Hp4 in Hg4. pose proof (u64_range bb).
  specialize (Hg4 ltac:(lia) ltac:(lia) ltac:(lia) ltac:(lia) Hid). goes_via Hg4. rewrite (u64_small bb) in * by done.
  set (s5 := set_pc _ _). assert (pc s5 = p + code_size l) as Hp5 by (unfold s5; rewrite pc_set_pc; lia).
  destruct (b_helper_ok dispatcher_addr 200 p (code_size l) Hr) as (i & Hi & ->); [lia | by apply aligned_code |].
  assert (goes final s5 (set_pc dispatcher_addr s5)) as Hg5; [|exact Hg5].
  eapply goes_b; [rewrite Hp5; exact Hi | by rewrite Hp5 | lia].
Qed.
(** *** The exit of each instruction *)

Lemma sim_at (Ha : app_ok) p a m : sim a m → ok m → sim (set_pc p a) m.
Proof using. intros Hs [Hp _ _]. pose proof (sim_equiv Ha). rewrite <- (set_pc_self m) by done. by apply (sim_pc Ha). Qed.

Lemma meta_upd bb k w write data f (b : bool) : fits bb k w write data → ∃ ms,
  (if b then upd_meta bb f (w_th w) else Ok (w_th w)) = Ok (set_code_cache_meta ms (w_th w)).
Proof using.
  intros [_ Hbb [m Hm] _ _ _ _]. destruct b; [|eexists; by rewrite same_thread at 1].
  eexists. rewrite (upd_meta_ok _ _ _ m) by (lia || done). done.
Qed.

Lemma branch_reg_exits (Ha : app_ok) bb k q i q1 a : DBM_INLINE_HASH opts = false →
  fits bb k (s_world q) (s_write q) (s_data q) → 0 ≤ k → ok a → pc a = s_read q →
  scan_branch_reg cfg opts dispatcher_addr entries_addr source i bb q = Ok q1 → s_write q1 ≤ s_data q1 →
  exits bb q q1 a (set_pc (X a (fld (pc a) BR_TXT "a")) (if decide (i = A64_BLR) then set_x lr (pc a + 4) a else a)).
Proof using Happ Hbs.
  intros Hin Hf Hk Hoa Hpa H Hle. unfold scan_branch_reg in H. rewrite Hin in H. cbv zeta in H. cbn [mbind outcome_bind] in H.
  unfold wfield in H. rewrite <- Hpa in H. set (rn := fld (pc a) BR_TXT "a") in *. set (ret := u64 (pc a + 4)) in *.
  pose proof (aligned_fits bb k _ _ _ 200 Hf Hk ltac:(lia) ltac:(lia)) as Hr. set (st := (s_write q, w_code (s_world q))).
  set (l := reg_code (bool_decide (i = A64_BLR)) rn ret bb (fst st)).
  destruct (meta_upd bb k _ _ _ (λ m, set_rn rn (set_exit_branch_addr (fst st) (set_exit_branch_type uncond_branch_reg m))) true Hf) as [ms Hms].
  eapply (run_out_exits bb k q _ q1 (set_code_cache_meta ms (w_th (s_world q))) (code_size l) (snd (emit l st)));
    [exact Hf | exact H | exact Hle | | apply a64_code_size_nonneg | apply a64_place_keeps | by exists ms |].
  - cbv beta. fold st. rewrite Hms. cbn [mbind outcome_bind].
    pose proof (reg_code_emitted (bool_decide (i = A64_BLR)) rn ret bb st Hr) as He. cbv zeta in He. rewrite He. done.
  - intros final m Hsame Hs Hom Hpm. pose proof (fits_bb _ _ _ _ _ Hf).
    pose proof (reg_code_goes (bool_decide (i = A64_BLR)) rn ret bb final m) as Hg. rewrite Hpm in Hg.
    specialize (Hg Hr ltac:(lia) (u64_range _) Hom). rewrite (sim_x Ha a m) in Hg by done.
    left. exists (if bool_decide (i = A64_BLR) then set_x lr ret m else m). pose proof Hoa as [_ Hx _]. rewrite pc_set_pc by done. split.
    + pose proof (sim_equiv Ha). destruct (decide (i = A64_BLR)) as [Hi|Hi]; [rewrite bool_decide_true by done | rewrite bool_decide_false by done];
        apply (sim_at Ha); auto with a64_ok. unfold ret. rewrite set_x_u64. by apply (sim_set_x Ha).
    + apply Hg. eapply code_at_ext; [apply a64_place_code_at|]. exact Hsame.
Qed.
(** The check of the space. *)
Lemma space_follows (Ha : app_ok) bb size k q q0 : fits bb k (s_world q) (s_write q) (s_data q) → 4 ≤ k → 0 ≤ size < 256 → with_space cfg size bb q = Ok q0 →
  fits bb size (s_world q0) (s_write q0) (s_data q0) ∧ s_read q0 = s_read q ∧ s_stop q0 = s_stop q
  ∧ ∀ final a a', ok a → follows bb final q0 a a' → follows bb final q a a'.
Proof using Happ Hbs.
  intros Hf Hk Hsz H. unfold with_space in H. apply bind_ok_inv in H as ([[w0 write0] data0] & Hsp & H). apply returned in H as <-.
  destruct (check_space_spec bb k size _ _ _ _ _ _ Hf Hk Hsz Hsp) as [Hf0 Hgo]. split_and!; [exact Hf0 | done | done |].
  intros final a a' Hoa [Hst Har]. destruct (Hgo final Hst) as [Hst0 Hgo']. split; [exact Hst0|]. intros m Hs Hom Hp.
  pose proof (aligned_fits bb size _ _ _ 200 Hf0 ltac:(lia) ltac:(lia) ltac:(lia)) as [Hr1 Hr2 _ _ _ _].
  eapply leaves_via; [by apply Hgo'|]. apply Har.
  - pose proof Hoa as [Hpa _ _]. pose proof (sim_equiv Ha). rewrite <- (set_pc_self a) by done. by apply (sim_pc Ha).
  - by apply a64_ok_set_pc.
  - cbn [set_world s_write]. apply pc_set_pc. lia.
Qed.

(** X0 and X1 are restored where a block is entered behind a lookup. *)
Lemma pop_pushed (Ha : app_ok) v t p g : ok g →
  pop_pair 0 1 (set_pc p (set_x 1 t (set_x 0 v (push_pair 0 1 g))))
  ≡ set_pc p (set_mem (store 8 (sp_of g - 8) (X g 1) (store 8 (sp_of g - 16) (X g 0) (mem g))) g).
Proof using.
  intros [Hp Hx Hsp]. set (x := set_pc p _). set (mm := store 8 (sp_of g - 8) _ _).
  assert (mem x = mm) as Hm by (unfold x, mm; cbn [set_pc push_pair mem set_x set_sp set_mem set_gpr]; by replace (sp_of g - 16 + 8) with (sp_of g - 8) by lia).
  assert (sp_of x = u64 (sp_of g - 16)) as Hs by (change (sp_of (set_x 1 t (set_x 0 v (push_pair 0 1 g))) = u64 (sp_of g - 16)); by rewrite !sp_set_x).
  assert (load 8 (mem x) (sp_of x) = X g 0) as H0.
  { rewrite Hm, Hs, load_u64. unfold mm. rewrite RiscvAsm.load_store_disjoint; [by apply load_store_8|]. intros i j Hi Hj.
    replace (sp_of g - 8 + j) with (sp_of g - 16 + (8 + j)) by lia. apply RiscvAsm.u64_add_ne; lia. }
  assert (load 8 (mem x) (sp_of x + 8) = X g 1) as H1.
  { rewrite Hm, <- load_u64, Hs, RiscvEmit.u64_add_l, load_u64. replace (sp_of g - 16 + 8) with (sp_of g - 8) by lia. by apply load_store_8. }
  unfold pop_pair. rewrite H0, H1. apply state_ext.
  - by rewrite !A64LookupSpec.pc_set_x.
  - intros k Hk. rewrite !A64LookupSpec.X_set_x by done. change (X (set_pc _ (set_mem _ g)) k) with (X g k). rewrite A64LookupSpec.X_set_sp.
    change (X x k) with (X (set_x 1 t (set_x 0 v (push_pair 0 1 g))) k). rewrite !A64LookupSpec.X_set_x, A64LookupSpec.X_push_pair by done.
    rewrite !u64_small by apply Hx. repeat case_decide; by subst.
  - rewrite !sp_set_x, A64LookupSpec.sp_set_sp, Hs, RiscvEmit.u64_add_l. change (sp_of (set_pc _ (set_mem _ g))) with (sp_of g).
    replace (sp_of g - 16 + 16) with (sp_of g) by lia. by apply u64_small.
  - done.
  - intros y. change (mem (set_x 1 (X g 1) (set_x 0 (X g 0) (set_sp (sp_of x + 16) x))) y) with (mem x y). by rewrite Hm.
Qed.

Lemma lookup_exits (Ha : app_ok) bb k q i q1 a : DBM_INLINE_HASH opts = true →
  fits bb k (s_world q) (s_write q) (s_data q) → 4 ≤ k → ok a → pc a = s_read q →
  scan_branch_reg cfg opts dispatcher_addr entries_addr source i bb q = Ok q1 → s_write q1 ≤ s_data q1 →
  exits bb q q1 a (set_pc (X a (fld (pc a) BR_TXT "a")) (if decide (i = A64_BLR) then set_x lr (pc a + 4) a else a)).
Proof using Happ Hbs.
  intros Hin Hf Hk Hoa Hpa H Hle. destruct (table_kept Ha Hin) as (Htgt & Hent & Hu & Hrep).
  unfold scan_branch_reg in H. rewrite Hin in H. cbv zeta in H. apply bind_ok_inv in H as (q0 & Hq0 & H).
  destruct (space_follows Ha bb 88 k q q0 Hf Hk ltac:(lia) Hq0) as (Hf0 & Hrd & _ & Hhop).
  unfold wfield in H. rewrite <- Hpa in H. rewrite Hrd, <- Hpa in H. set (rn := fld (pc a) BR_TXT "a") in *.
  assert (0 ≤ rn < 2 ^ 5) as Hrn by (unfold rn; field_bits 5).
  set (blr := bool_decide (i = A64_BLR)) in *.
  assert (exits bb q0 q1 a (set_pc (X a rn) (if decide (i = A64_BLR) then set_x lr (pc a + 4) a else a))) as [Hs1 Hx];
    [|split; [exact Hs1|]; intros final Hst; by apply Hhop, Hx].
  pose proof (aligned_fits bb 88 _ _ _ 200 Hf0 ltac:(lia) ltac:(lia) ltac:(lia)) as Hr. set (st := (s_write q0, w_code (s_world q0))).
  pose proof (fits_bb _ _ _ _ _ Hf0) as Hbb. destruct (fits_meta _ _ _ _ _ Hf0) as [m0 Hm0].
  set (f := λ m, set_rn rn (set_exit_branch_addr (fst st) (set_exit_branch_type uncond_branch_reg m))).
  set (th := set_code_cache_meta (<[Z.to_nat bb := f m0]> (code_cache_meta (w_th (s_world q0)))) (w_th (s_world q0))).
  destruct (a64_inline_lookup_spec cfg Htgt dispatcher_addr entries_addr Hent app th bb (f m0) st (pc a) rn blr true Hbb) as (n & text' & Hr' & Hn & Hkp & Hgo);
    [unfold th; cbn; rewrite list_lookup_insert_eq; [done | by apply lookup_lt_Some in Hm0] | lia | exact Hr |].
  eapply (run_out_exits bb 88 q0 _ q1 _ n text'); [exact Hf0 | exact H | exact Hle | | lia | exact Hkp | |].
  - cbv beta. fold st f. rewrite (upd_meta_ok _ _ _ m0) by (lia || done). cbn [mbind outcome_bind]. fold th. rewrite Hr'. reflexivity.
  - by eexists.
  - intros final m Hsame Hs Hom Hpm. destruct (sim_table Ha a m Hin Hs) as [Htb Hap]. pose proof Hom as [Hpm' Hxm Hspm].
    specialize (Hgo final Hsame tb translated m Hu Hrep Hxm Hspm Hpm Htb Hap). rewrite (sim_x Ha a m) in Hgo by done. set (ret := u64 (pc a + 4)) in *.
    pose proof (sim_equiv Ha). pose proof Hoa as [_ Hxa _]. set (a' := set_pc (X a rn) _). assert (pc a' = X a rn) as Hpa' by (apply pc_set_pc, Hxa).
    set (g := left rn blr ret m) in *. assert (sim a' g ∧ ok g) as [Hsg Hog].
    { unfold g, left, linked, a', blr. assert (sim a (below rn (bool_decide (i = A64_BLR)) m) ∧ ok (below rn (bool_decide (i = A64_BLR)) m)) as [Hb Hob].
      { unfold below. destruct (use_x2 _); [|done]. split; [by apply (sim_below Ha); [|lia] | by apply a64_ok_set_mem]. }
      split; [apply (sim_at Ha)|]; destruct (decide (i = A64_BLR)) as [Hi|Hi]; rewrite ?(bool_decide_true (i = A64_BLR)), ?(bool_decide_false (i = A64_BLR)) in * by done; auto with a64_ok.
      unfold ret. rewrite set_x_u64. by apply (sim_set_x Ha). }
    unfold lookup_end in Hgo. fold g in Hgo. unfold leaves. rewrite Hpa'. rewrite (sim_x Ha a m) in Hgo by done.
    destruct (translated !! X a rn) as [v|] eqn:Hv; [right; split; [done|] | left; by exists g].
    assert (0 ≤ v < 2 ^ 64) as Hv64.
    { apply Hrep in Hv as (_ & e & He). apply (proj1 (Forall_lookup _ _) (usable_words _ _ _ Hu)) in He. apply He. }
    eexists v, _. split_and!; [done | exact Hgo | by apply pc_set_pc |].
    rewrite pop_pushed by done. rewrite <- (set_pc_self a') by (rewrite Hpa'; apply Hxa). apply (sim_pc Ha).
    assert (sim a' (set_mem (store 8 (sp_of g - 16) (X g 0) (mem g)) g)) as Hg1 by (apply (sim_below Ha); [done | lia]).
    by apply (sim_below Ha a' _ 8 (X g 1)) in Hg1.
Qed.
Lemma is_taken_sim (Ha : app_ok) i word a m : sim a m → is_taken i word m = is_taken i word a.
Proof using. intros Hs. unfold is_taken, branch_taken. by rewrite (sim_nzcv Ha a m), !(sim_x Ha a m) by done. Qed.

Lemma conditional_exits (Ha : app_ok) bb k q i q1 a a' b : conditional i → (i = A64_B_COND → cond_of (source (pc a)) < 14) →
  fits bb k (s_world q) (s_write q) (s_data q) → 0 ≤ k → ok a → pc a = s_read q →
  src_branch i (source (pc a)) = Some b → exec app b a = Some a' →
  (s ← run_out (λ th st, conditional_exit opts dispatcher_addr th bb i (source (s_read q)) (s_read q) st) q; Ok (end_block s)) = Ok q1 →
  s_write q1 ≤ s_data q1 → exits bb q q1 a a'.
Proof using Happ Hbs.
  intros Hi Hcd Hf Hk Hoa Hpa Hb Hex H Hle. rewrite (src_branch_exec app i _ b a Hi Hb) in Hex. injection Hex as <-.
  pose proof (aligned_fits bb k _ _ _ 200 Hf Hk ltac:(lia) ltac:(lia)) as Hr. pose proof Hf as [_ Hbb [m0 Hm0] _ _ _ _].
  rewrite Hpa in *. set (word := source (s_read q)) in *.
  destruct (conditional_exit_spec app opts dispatcher_addr (w_th (s_world q)) bb i word (s_read q) m0 (s_write q, w_code (s_world q)) Hi Hr Hbb Hm0 Hcd)
    as (n & text' & Heq & Hn & _ & Hkp & Hn1 & Hn2 & Hgo). cbn [fst snd] in *.
  eapply (run_out_exits bb k q _ q1 _ n text'); [exact Hf | exact H | exact Hle | exact Heq | lia | exact Hkp | by eexists |].
  intros final m Hsame Hs Hom Hpm. left. exists m.
  assert (goes final m (dispatched dispatcher_addr (if is_taken i word m then target_of i word (s_read q) else u64 (s_read q + 4)) bb m)) as Hg.
  { apply Hgo; [intros x Hx Hx'; apply Hsame; lia|]. right. by rewrite !Hsame by lia. }
  rewrite (is_taken_sim Ha i word a m) in Hg by done. split; [by apply (sim_at Ha)|].
  replace (pc (set_pc _ a)) with (if is_taken i word a then target_of i word (s_read q) else u64 (s_read q + 4)); [done|].
  destruct (is_taken i word a); [|done]. symmetry. apply pc_set_pc, u64_range.
Qed.

(** An instruction inside the block, and the code of the rest behind it. *)
Lemma advances_follows bb k final q q1 a b a' : fits bb k (s_world q) (s_write q) (s_data q) → 28 ≤ k →
  advances q q1 a b → follows bb final q1 b a' → follows bb final q a a'.
Proof using Happ Hbs.
  intros Hf Hk (j & Hj & Hw & Hev & Hd & _ & _ & Hth & Hkp & Hgo) [Hst Har]. unfold follows, stays_from in *.
  assert (first_free (s_world q1) = first_free (s_world q)) as Hff by (unfold first_free; by rewrite Hth).
  rewrite Hff, Hd in *. pose proof Hf as [[[? ?] _ _ _ _] _ _ ? [? ?] ? Hda]. unfold first_free in Hda. rewrite a64_block_addr in Hda.
  assert (data_ok : s_data q ≤ first_free (s_world q)) by (unfold first_free; by rewrite a64_block_addr). split.
  - eapply keeps_stays; [exact Hkp | exact Hst |]. intros x Hx Hc. lia.
  - intros m Hs Hom Hp. destruct (Hgo final _ _ m Hst) as (m' & Hg & Hp' & Ho' & Hs'); [lia | lia | lia | done..|].
    eapply leaves_via; [exact Hg | by apply Har].
Qed.

Lemma a64_fits_advance bb k j q q1 : fits bb k (s_world q) (s_write q) (s_data q) → 0 ≤ j → w_th (s_world q1) = w_th (s_world q) →
  s_data q1 = s_data q → s_write q1 = s_write q + j → aligned j = true → fits bb (k - j) (s_world q1) (s_write q1) (s_data q1).
Proof using.
  intros [F1 F2 F3 F4 [F5 F6] F7 F8] Hj Hth Hd Hw He. unfold first_free in F8. split; unfold first_free; rewrite ?Hth, ?Hd, ?Hw; try done; [|lia].
  split; [lia|]. apply aligned_mod in F6, He. apply aligned_mod. by rewrite Z.add_mod, F6, He.
Qed.

Lemma b_bl_exits (Ha : app_ok) bb q q1 a a' b : fits bb 60 (s_world q) (s_write q) (s_data q) → ok a → pc a = s_read q → pc a + 4 < 2 ^ 64 →
  src_branch A64_B_BL (source (pc a)) = Some b → exec app b a = Some a' →
  scan_b_bl opts dispatcher_addr source bb q = Ok q1 → s_write q1 ≤ s_data q1 → exits bb q q1 a a'.
Proof using Happ Hbs.
  intros Hf Hoa Hpa Hsm [= <-] Hex H Hle. cbn [A64Asm.exec] in Hex. apply (inj Some) in Hex as <-. unfold scan_b_bl, wfield in H. cbv zeta in H. rewrite <- Hpa in H.
  assert (0 ≤ fld (pc a) B_BL_TXT "b" < 2 ^ 26) as Hb by field_bits 26. assert (0 ≤ fld (pc a) B_BL_TXT "a" < 2 ^ 1) as Hop by field_bits 1.
  rewrite offset_target in H by done. set (imm := fld (pc a) B_BL_TXT "b") in *. set (op := fld (pc a) B_BL_TXT "a") in *.
  set (target := u64 (pc a + signed 26 imm * 4)) in *. set (ret := u64 (pc a + 4)) in *. pose proof Hoa as [Hpr _ _].
  assert (∀ s, pc s = pc a → branch_by 26 imm s = set_pc target s) as Hbr
    by (intros s Hps; unfold branch_by; rewrite Hps; unfold target, set_pc; by rewrite RiscvEmit.u64_u64).
  assert (∀ k q0 (x : machine), fits bb k (s_world q0) (s_write q0) (s_data q0) → 0 ≤ k →
    (s ← run_out (λ th st,
        th ← (if DBM_LINK_UNCOND_IMM opts then
                upd_meta bb (λ m, set_branch_taken_addr target (set_exit_branch_addr (fst st) (set_exit_branch_type uncond_imm_a64 m))) th
              else Ok th);
        let st := if DBM_LINK_UNCOND_IMM opts then emit [NOP] st else st in
        st ← a64_branch_jump dispatcher_addr bb target true true (a64_branch_save_context st);
        Ok (th, st)) q0; Ok (end_block s)) = Ok q1 → ok x → exits bb q0 q1 x (set_pc target x)) as Hjump.
  { intros k q0 x Hf0 Hk Hq0 Hox. destruct (meta_upd bb k _ _ _ (λ m, set_branch_taken_addr target
      (set_exit_branch_addr (s_write q0) (set_exit_branch_type uncond_imm_a64 m))) (DBM_LINK_UNCOND_IMM opts) Hf0) as [ms Hms].
    eapply (jump_exits Ha bb k q0 _ (DBM_LINK_UNCOND_IMM opts) target q1 x _ ms Hf0 Hk Hq0 Hle).
    - cbv zeta. cbn [fst]. rewrite Hms. done.
    - apply u64_range.
    - apply pc_set_pc, u64_range.
    - intros m Hm Hom. by apply (sim_at Ha). }
  pose proof (a64_copy_size lr ret) as Hz. destruct (Z.eqb_spec op 1) as [->|Hop1].
  - change (exits bb q q1 a (branch_by 26 imm (set_x lr (pc a + 4) a))). rewrite Hbr by done.
    set (q0 := put_code (copy_to_reg lr ret) q) in *. set (a0 := next (set_x lr (pc a + 4) a)).
    assert (advances q q0 a a0) as Hadv.
    { apply put_code_advances; [lia|]. intros final m Hc H0 H1 Hs Hom. by apply (const_goes Ha). }
    assert (exits bb q0 q1 a0 (set_pc target a0)) as [Hs0 Hx].
    { apply (Hjump (60 - code_size (copy_to_reg lr ret))); [|lia|exact H|by apply a64_ok_set_pc, ok_set_x].
      apply (a64_fits_advance bb 60 _ q); [done | lia | done | done | done |]. apply aligned_mod. unfold code_size. rewrite Z.mul_comm. by apply Z.mod_mul. }
    split; [done|]. intros final Hst. eapply advances_follows; [exact Hf | lia | exact Hadv | by apply Hx].
  - replace op with 0 by lia. cbn [Z.eqb]. rewrite Hbr by done. by apply (Hjump 60).
Qed.
Lemma src_exit_exits (Ha : app_ok) bb start g watched type q q1 a a' :
  fits bb 60 (s_world q) (s_write q) (s_data q) → src_exit start a a' → ok a → pc a = s_read q → pc a + 4 < 2 ^ 64 →
  scan_inst cfg opts dispatcher_addr syscall_wrapper_addr entries_addr tls_addr source g watched bb type start (decode (pc a)) q = Ok q1 →
  s_write q1 ≤ s_data q1 → exits bb q q1 a a'.
Proof using Happ Hbs.
  intros Hf Hx Hoa Hpa Hsm H Hle.
  assert (∀ i, scan_branch_reg cfg opts dispatcher_addr entries_addr source i bb q = Ok q1 →
    exits bb q q1 a (set_pc (X a (fld (pc a) BR_TXT "a")) (if decide (i = A64_BLR) then set_x lr (pc a + 4) a else a))) as Hreg.
  { intros i Hq. destruct (DBM_INLINE_HASH opts) eqn:Hin; [by eapply (lookup_exits Ha bb 60) | by eapply (branch_reg_exits Ha bb 60)]. }
  destruct Hx as [b Hi Hc Hb Hex | b Hi Hb Hex | Hi Hr | Hi Hr | Hi Hst Hr].
  - eapply (conditional_exits Ha bb 60 q (decode (pc a))); try done. destruct Hi as [Hi | [Hi | Hi]]; rewrite Hi in H |- *; exact H.
  - eapply (b_bl_exits Ha bb q q1 a a' b); try done. rewrite Hi in H. exact H.
  - specialize (Hreg (decode (pc a))). rewrite decide_False in Hreg by (destruct Hi as [-> | ->]; done). rewrite Hr. apply Hreg. destruct Hi as [Hi | Hi]; rewrite Hi in *; exact H.
  - specialize (Hreg (decode (pc a))). rewrite decide_True in Hreg by done. rewrite Hr. apply Hreg. rewrite Hi in *. exact H.
  - rewrite Hi in H. cbn [A64Scan.scan_inst] in H. unfold scan_invalid in H. rewrite <- Hpa, (proj2 (Z.eqb_neq _ _) Hst) in H. cbn [negb] in H.
    subst a'. pose proof Hoa as [Hp _ _].
    eapply (jump_exits Ha bb 60 q _ false (pc a) q1 a a (code_cache_meta (w_th (s_world q))) Hf ltac:(lia) H Hle); [|done|done|done].
    by rewrite <- same_thread.
Qed.

(** ** The loop *)

Section block.
Context (Ha : app_ok) (g : global (world (T := T))) (watched : list (Z * mambo_callback (world (T := T)))).
Context (bb : Z) (type : cc_type) (start : Z) (Hg : free_plugin g ≤ 0).
Notation scan_inst := (scan_inst cfg opts dispatcher_addr syscall_wrapper_addr entries_addr tls_addr source g watched bb type start).
Notation scan_step := (scan_step cfg opts dispatcher_addr syscall_wrapper_addr entries_addr tls_addr a64_decode source g watched bb type start).
Notation scan_loop := (scan_loop cfg opts dispatcher_addr syscall_wrapper_addr entries_addr tls_addr a64_decode source g watched bb type start).

Lemma a64_quiet cb_id read i allow q :
  a64_scanner_deliver_callbacks cfg source g watched cb_id read i bb type allow q = Ok (false, read, q).
Proof using Hg. unfold a64_scanner_deliver_callbacks. by rewrite (proj2 (Z.ltb_ge _ _) Hg). Qed.

Lemma a64_scan_step_quiet q : scan_step q =
  (q1 ← scan_inst (decode (s_read q)) q;
   if s_data q1 <=? s_write q1 then Err Hang
   else q2 ← (if negb (s_stop q1) then with_space cfg MIN_FSPACE bb q1 else Ok q1); Ok (at_read (s_read q2 + 4) q2)).
Proof using Hg.
  unfold A64Scan.scan_step. cbv zeta. rewrite a64_quiet. cbn [mbind outcome_bind]. replace (at_read (s_read q) q) with q by by destruct q.
  destruct (scan_inst _ _) as [q1|]; [|done]. cbn [mbind outcome_bind].
  destruct (s_data q1 <=? s_write q1); [done|]. destruct (if negb (s_stop q1) then _ else _) as [q2|]; [|done].
  cbn [mbind outcome_bind]. by rewrite a64_quiet.
Qed.

Lemma a64_loop_follows a a1 a2 : rtc (src_step start) a a1 → src_exit start a1 a2 → ∀ fuel q q',
  ok a → pc a = s_read q → s_read q + 4 * Z.of_nat fuel < 2 ^ 64 → s_stop q = false → fits bb 60 (s_world q) (s_write q) (s_data q) →
  scan_loop fuel q = Ok q' → ∀ final, stays_from q' final → follows bb final q a a2.
Proof using Happ Hbs Ha Hg.
  intros Hpath Hexit. induction Hpath as [a|a b a1 Hstep _ IH]; intros fuel q q' Ho Hpc Hsm Hstop Hf H;
    (destruct fuel as [|fuel]; [done|]); cbn [A64Scan.scan_loop] in H; rewrite Hstop in H;
    apply bind_ok_inv in H as (q3 & Hs & H); rewrite a64_scan_step_quiet in Hs; apply bind_ok_inv in Hs as (q1 & Hq1 & Hs);
    destruct (Z.leb_spec (s_data q1) (s_write q1)); try done.
  - rewrite <- Hpc in Hq1. destruct (src_exit_exits Ha bb start g watched type q q1 a a2) as [Hs1 Hx]; [done..|lia|done|lia|].
    rewrite Hs1 in Hs. cbn [negb mbind outcome_bind] in Hs. apply returned in Hs as <-. destruct fuel as [|fuel]; [done|]. cbn [A64Scan.scan_loop at_read s_stop] in H.
    rewrite Hs1 in H. apply returned in H as <-. exact Hx.
  - rewrite <- Hpc in Hq1. destruct (a64_src_step_advances Ha bb start g watched type q q1 a b Hstep Ho Hpc ltac:(lia) Hq1) as (Hadv & Hpb & Hob).
    pose proof Hadv as (k & Hk & Hw & Hev & Hd & Hrd & Hst1 & Hth & _). rewrite Hst1, Hstop in Hs. cbn [negb] in Hs.
    apply bind_ok_inv in Hs as (q2 & Hq2 & Hs). apply returned in Hs as <-.
    destruct (space_follows Ha bb MIN_FSPACE (60 - k) q1 q2) as (Hf2 & Hr2 & Hs2 & Hhop); [|lia|done|done|].
    { eapply a64_fits_advance; (done || lia). }
    intros final Hst. eapply advances_follows; [exact Hf | lia | exact Hadv |]. apply Hhop; [done|].
    refine (IH Hexit fuel (at_read (s_read q2 + 4) q2) q' Hob _ _ _ Hf2 H final Hst); cbn [at_read s_read s_stop].
    + by rewrite Hr2, Hrd, <- Hpc.
    + rewrite Hr2, Hrd. lia.
    + by rewrite Hs2, Hst1.
Qed.
End block.
(** ** Blocks *)

(** A block of the thread, with room for translations. *)
Record block_ok (bb : Z) w : Prop := {
  block_cache : cache_ok (code_cache (w_th w));
  block_range : 0 ≤ bb < 2 ^ 31;
  block_taken : bb < free_block (w_th w) ≤ CODE_CACHE_SIZE cfg;
  block_meta : is_Some (code_cache_meta (w_th w) !! Z.to_nat bb);
  block_not_null : 0 < block_addr cfg (w_th w) bb }.

Definition first_state (ids : Z * Z * list Z) (read bb : Z) w : scan_state :=
  put_code [a64_pop_pair_reg 0 1] (MkScan ids w read (block_addr cfg (w_th w) bb) (block_addr cfg (w_th w) bb + 256) false read).

Lemma a64_first_state_fits ids read bb w : block_ok bb w →
  let q := first_state ids read bb w in fits bb 60 (s_world q) (s_write q) (s_data q) ∧ s_write q = block_addr cfg (w_th w) bb + 4.
Proof using Hbs.
  intros [B1 B2 B3 B4 B5] q. pose proof B1 as [[? ?] He ? ? ?]. pose proof (a64_block_addr (w_th w) bb) as Hba.
  assert (s_write q = block_addr cfg (w_th w) bb + 4) as Hw by done. assert (s_data q = block_addr cfg (w_th w) bb + 256) as Hd by done.
  assert (first_free (s_world q) = code_cache (w_th w) + free_block (w_th w) * 256) as Hff by (unfold first_free; by rewrite a64_block_addr).
  split; [|done]. split; rewrite ?Hw, ?Hd, ?Hff, ?Hba; try done; cbn; try lia. split; [lia|].
  rewrite aligned_mod in *. replace (_ + 4) with (code_cache (w_th w) + (bb * 64 + 1) * 4) by lia. by rewrite Z.mod_add.
Qed.

Lemma a64_first_state_stays ids read bb w final : block_ok bb w → let tpc := block_addr cfg (w_th w) bb in
  stays_from (first_state ids read bb w) final → stays (w_code w) final tpc (tpc + 256) (first_free w) ∧ final tpc = Some (a64_pop_pair_reg 0 1).
Proof using Hbs.
  intros Hb tpc Hst. destruct (a64_first_state_fits ids read bb w Hb) as ([_ _ _ _ _ _ Hd] & Hw). pose proof Hb as [_ [? ?] _ _ _].
  change (first_free (s_world (first_state ids read bb w))) with (first_free w) in Hd.
  change (s_data (first_state ids read bb w)) with (tpc + 256) in Hd. unfold stays_from in Hst. rewrite Hw in Hst.
  change (stays (put tpc (a64_pop_pair_reg 0 1) (w_code w)) final (tpc + 4) (tpc + 256) (first_free w)) in Hst. split.
  - eapply keeps_stays; [apply a64_put_keeps | exact Hst |]. intros x Hx Hc. lia.
  - rewrite Hst by lia. apply a64_put_same.
Qed.

(** [scan_a64] for a block without plugins and counters. *)
Lemma scan_a64_quiet fuel g watched ids w read bb :
  free_plugin g ≤ 0 → DBM_TRACES cfg = false →
  scan_a64 cfg opts dispatcher_addr trace_head_incr_addr syscall_wrapper_addr entries_addr tls_addr a64_decode source fuel g watched ids w read bb mambo_bb 0
  = (q ← scan_loop cfg opts dispatcher_addr syscall_wrapper_addr entries_addr tls_addr a64_decode source g watched bb mambo_bb read fuel
           (first_state ids read bb w);
     Ok (q, ((s_write q - block_addr cfg (w_th w) bb) / 4 + 1) * 4)).
Proof using Hbs.
  intros Hg Htr. unfold scan_a64, scan_body. cbn [Z.eqb]. rewrite bool_decide_true, (bool_decide_false (mambo_bb = mambo_trace)), Htr, Hbs by done.
  cbn [negb mbind outcome_bind]. change (64 * 4) with 256. replace (MkWorld (w_th w) (w_code w)) with w by by destruct w.
  change (put_code _ _) with (first_state ids read bb w). set (q0 := first_state ids read bb w).
  rewrite a64_quiet by done. cbn [mbind outcome_bind]. rewrite a64_quiet by done. cbn [mbind outcome_bind].
  replace (at_read (s_read (at_read (s_read q0) q0)) (at_read (s_read q0) q0)) with q0 by done.
  destruct (scan_loop _ _ _ _ _ _ _ _ _ _ _ _ _ _ _) as [q|]; [|done]. cbn [mbind outcome_bind].
  rewrite a64_quiet by done. cbn [mbind outcome_bind snd]. by rewrite a64_quiet by done.
Qed.

End spec.
(** ** An instance

    ADD X3, X3, 1; LDR X5, .+0x1000; MRS X6, TPIDR_EL0; MSR TPIDR_EL0, X6; 24 times
    ADR X7, .+4; BR X9 at 0x100000, which do not fit in a block; the table is empty. *)

Definition demo_config : config := MkConfig aarch64 false true true 64 64 4 2 4096 4 (table_size 3) 1.
#[local] Instance demo_table : AddressTable CodeCacheHash.hash_table (TABLE_SIZE demo_config) := CodeCacheHash_table aarch64 3 ltac:(lia).

Definition demo_thread : dbm_thread CodeCacheHash.hash_table :=
  MkThread 5 false 4096 (replicate 64 empty_meta) (CodeCacheHash.MkTable 17 0 0 (replicate 17 (HashEntry 0 0))) (replicate 64 0)
    20480 64 0 (MkTrace 11 0 0 0 false 0 []) (LinkedList.Ll None 0 []).
Definition demo_world : world := MkWorld demo_thread (λ _, None).

Definition demo_source (x : Z) : Z :=
  let o := x - 0x100000 in
  if o =? 0 then 0x91000463 else if o =? 4 then 0x58008005 else if o =? 8 then 0xD53BD046 else if o =? 12 then 0xD51BD046
  else if o <? 112 then 0x10000027 else 0xD61F0120.

Definition demo_decode (word : Z) : a64_instruction :=
  if word =? 0x91000463 then A64_ADD_SUB_IMMED else if word =? 0x58008005 then A64_LDR_LIT
  else if (word =? 0xD53BD046) || (word =? 0xD51BD046) then A64_MRS_MSR_REG
  else if word =? 0x10000027 then A64_ADR else if word =? 0xD61F0120 then A64_BR else A64_INVALID.

Definition demo_app (word : Z) (s : machine) : option machine :=
  if word =? 0x91000463 then Some (next (set_x 3 (X s 3 + 1) s)) else None.

(** The stack pointer is 0x8000, the thread register at 0x3000, the application
    between 0x100000 and 0x200000 and the table at 0x40000000. *)
Definition demo_text (x : Z) : Prop := 0x100000 ≤ x < 0x200000.
Record demo_sim (a m : machine) : Prop := {
  demo_x r : X m r = X a r;
  demo_sp : sp_of m = 0x8000 ∧ sp_of a = 0x8000;
  demo_v r : vr m r = vr a r;
  demo_nzcv : nzcv m = nzcv a;
  demo_tls : load 8 (mem m) 0x3000 = tpidr a;
  demo_mem x : demo_text x → mem m x = mem a x;
  demo_entries x : 0x40000000 ≤ x < 0x41000000 → mem m x = 0 }.

#[export] Instance demo_app_proper word : Proper ((≡) ==> (≡)) (demo_app word).
Proof. intros s s' H. unfold demo_app. case_match; [|constructor]. constructor. by rewrite (X_equiv _ _ 3 H), H. Qed.

Lemma demo_store a v (m : Z → Z) x : 0 ≤ a → a + 8 ≤ 0x10000 → 0x10000 ≤ x → store 8 a v m x = m x.
Proof. intros H0 H1 ?. apply store_other; lia. Qed.

Definition demo_options : options := MkOptions true true true true true.

Lemma a64_demo_app_ok : app_ok demo_config demo_options 0x40000000 0x3000 demo_app demo_sim demo_text empty_table ∅.
Proof.
  split.
  - intros i s s'. unfold demo_app. case_match; [|done]. intros [= <-] Ho. split; [|done]. by apply a64_ok_set_pc, ok_set_x.
  - lia.
  - intros i s s' m. unfold demo_app. case_match; [|done]. intros [= <-] [S1 S2 S3 S4 S5 S6 S7] _ _. eexists. split; [done|].
    split; try done. intros r. destruct (decide (r = 31)) as [->|]; [done|]. change (X (set_x 3 (X m 3 + 1) m) r = X (set_x 3 (X s 3 + 1) s) r).
    rewrite S1. destruct (decide (r = 3)) as [->|]; [by rewrite !X_set_x_eq | by rewrite !X_set_x_ne].
  - assert (∀ a a' m m', a ≡ a' → m ≡ m' → demo_sim a m → demo_sim a' m') as H; [|intros a a' Ha m m' Hm; by split; apply H].
    intros a a' m m' Ha Hm [S1 S2 S3 S4 S5 S6 S7]. split.
    + intros r. by rewrite <- (X_equiv _ _ r Ha), <- (X_equiv _ _ r Hm).
    + by rewrite <- (sp_equiv _ _ Ha), <- (sp_equiv _ _ Hm).
    + intros r. by rewrite <- (same_vr _ _ Ha), <- (same_vr _ _ Hm).
    + by rewrite <- (same_nzcv _ _ Ha), <- (same_nzcv _ _ Hm).
    + by rewrite <- (load_equiv 8 _ _ _ Hm), <- (same_tpidr _ _ Ha).
    + intros x Hx. rewrite <- (same_mem _ _ Ha), <- (same_mem _ _ Hm). by apply S6.
    + intros x Hx. rewrite <- (same_mem _ _ Hm). by apply S7.
  - by intros a m p p' [].
  - by intros a m r [].
  - by intros a m [].
  - intros a m r v [S1 S2 S3 S4 S5 S6 S7]. split; try done; [|by rewrite !sp_set_x].
    intros k. destruct (decide (k = 31)) as [->|]; [done|]. destruct (decide (k = r)) as [->|]; [by rewrite !X_set_x_eq | by rewrite !X_set_x_ne].
  - intros a m r v [S1 S2 S3 S4 S5 S6 S7]. split; try done. intros k. cbn. by case_match.
  - intros a m x [_ _ _ _ _ S6 _] Hx. by apply S6.
  - intros a m d v [S1 [S2 S2'] S3 S4 S5 S6 S7] Hd. rewrite S2. split; try done.
    + change (load 8 (store 8 (0x8000 - d) v (mem m)) 0x3000 = tpidr a). rewrite load_other by lia. done.
    + intros x Hx. change (store 8 (0x8000 - d) v (mem m) x = mem a x). rewrite demo_store by (unfold demo_text in Hx; lia). by apply S6.
    + intros x Hx. change (store 8 (0x8000 - d) v (mem m) x = 0). rewrite demo_store by lia. by apply S7.
  - by intros a m [].
  - intros a m v [S1 S2 S3 S4 S5 S6 S7] Hv. split; try done.
    + by apply load_store_8.
    + intros x Hx. change (store 8 0x3000 v (mem m) x = mem a x). rewrite demo_store by (unfold demo_text in Hx; lia). by apply S6.
    + intros x Hx. change (store 8 0x3000 v (mem m) x = 0). rewrite demo_store by lia. by apply S7.
  - intros a m v x [S1 [-> S2'] S3 S4 S5 S6 S7]. change (u64 (0x8000 - 16)) with 0x7FF0. apply load_other; lia.
  - intros _. split_and!; [done | lia | lia | by apply empty_table_usable | apply represents_replicate].
  - intros a m _ [S1 [S2 _] S3 S4 S5 S6 S7]. pose proof table_length_Z as Hl. change (CodeCacheHash.entries empty_table) with (replicate table_length (HashEntry 0 0)).
    change (Z.of_nat table_length = 524297) in Hl. split.
    + intros i e Hi. apply lookup_replicate in Hi as [-> Hi].
      assert (∀ k, 0 ≤ k ≤ 8 → load 8 (mem m) (0x40000000 + 16 * Z.of_nat i + k) = 0) as Hz.
      { intros k Hk. rewrite (load_ext _ _ _ (λ _, 0)); [apply zero_load|]. intros j Hj. rewrite u64_small by lia. apply S7. lia. }
      cbn [key value]. split; [|apply Hz; lia]. specialize (Hz 0). rewrite Z.add_0_r in Hz. apply Hz. lia.
    + intros j x Hj Hx. rewrite S2, u64_small by lia. change (CodeCacheHash.entries empty_table) with (replicate table_length (HashEntry 0 0)) in Hx. rewrite length_replicate in Hx. lia.
Qed.
Definition demo_state : machine := MkMachine 0x100000 (MkA64 (λ r, if r =? 9 then 0x1000B0 else 0) 0x8000) (λ _, 0) 0 0 (λ _, 0).
Notation demo_step := (src_step demo_decode demo_source demo_app demo_text 0x100000).
Notation demo_scan := (scan_a64 demo_config demo_options 2048 3000 3100 0x40000000 0x3000 demo_decode demo_source 40 initial [] (1, 1, []) demo_world
  0x100000 2 mambo_bb 0).

Lemma a64_demo_state_ok : ok demo_state.
Proof. split; [done | | done]. intros r. unfold X, xreg, demo_state. cbn [gpr xr]. destruct (r =? 31), (r =? 9); lia. Qed.

Lemma a64_demo_cache_ok : cache_ok demo_config 2048 4096.
Proof. split; [cbn; lia | done | cbn; lia | split; [lia | done] | cbn; lia]. Qed.

Lemma a64_demo_block_ok : block_ok demo_config 2048 2 demo_world.
Proof. split; [apply a64_demo_cache_ok | lia | cbn; lia | by eexists | done]. Qed.

Lemma demo_adrs n : (n ≤ 24)%nat → ∀ s, pc s = 0x100070 - 4 * Z.of_nat n →
  ∃ s', rtc demo_step s s' ∧ pc s' = 0x100070 ∧ X s' 3 = X s 3 ∧ X s' 9 = X s 9.
Proof.
  induction n as [|n IH]; intros Hn s Hp; [exists s; split; [apply rtc_refl | split; [lia | done]]|].
  assert (forall_range 0 24 (λ k, let w := demo_source (0x100070 - 4 * (k + 1)) in
    bool_decide (demo_decode w = A64_ADR) && (field ADR_TXT "d"%char w =? 7)) = true) as Hall by by vm_compute.
  apply (forall_range_spec _ _ _ (Z.of_nat n)) in Hall; [|lia]. cbv beta zeta in Hall.
  replace (0x100070 - 4 * (Z.of_nat n + 1)) with (pc s) in Hall by lia.
  apply andb_true_iff in Hall as [Hd Hf]. apply bool_decide_eq_true in Hd. apply Z.eqb_eq in Hf.
  destruct (IH ltac:(lia) (next (set_x 7 (adr_value demo_source (pc s)) s))) as (s' & Hs' & Hp' & H3 & H9).
  - unfold next. rewrite pc_set_pc; change (pc (set_x _ _ s)) with (pc s); lia.
  - exists s'. split; [eapply rtc_l; [|exact Hs']; apply step_adr; [exact Hd | by rewrite Hf]|]. split; [exact Hp'|].
    rewrite H3, H9. split; apply X_set_x_ne with (v := adr_value demo_source (pc s)); done.
Qed.

Lemma a64_demo_path : ∃ a1 a2, rtc demo_step demo_state a1 ∧ src_exit demo_decode demo_source demo_app 0x100000 a1 a2
  ∧ pc a2 = 0x1000B0 ∧ X a2 3 = 1.
Proof.
  set (s1 := next (set_x 3 1 demo_state)). set (s2 := next (perform (LoadX 8) 0x101004 5 s1)). set (s3 := next (set_x 6 0 s2)). set (s4 := next (set_tpidr 0 s3)).
  destruct (demo_adrs 24 (le_n _) s4) as (s' & Hs & Hp & H3 & H9); [by vm_compute|].
  exists s', (set_pc 0x1000B0 s'). split; [|split; [|split; [done | change (X s' 3 = 1); by rewrite H3]]].
  - eapply rtc_l; [by apply (step_copied _ _ _ _ _ demo_state s1)|].
    eapply rtc_l; [apply (step_ldr_lit _ _ _ _ _ s1 s2 (LoadX 8)); try done|].
    { intros j Hj. change (lit_addr demo_source (pc s1)) with 0x101004. unfold demo_text. rewrite u64_small; cbn in Hj; lia. }
    eapply rtc_l; [by apply (step_mrs_tpidr _ _ _ _ _ s2 s3)|].
    eapply rtc_l; [by apply (step_msr_tpidr _ _ _ _ _ s3 s4) | exact Hs].
  - apply exit_br; rewrite ?Hp; [by left|]. change (field BR_TXT "a"%char (demo_source 0x100070)) with 9. by rewrite H9.
Qed.

End A64ScanSpec.
