(* ===== verification/A64Returns.v ===== *)
(** * The A64 scanner returns

    The space that [scan_a64] reserves between two instructions is enough for
    every exit of a block, and that of an inline lookup for the lookup: for
    applications below 2^48 no assertion of the scanner fails and its loops end. *)
From S2P Require Import Prelude LinearProbe CodeCacheHash LinkedList AddressTable Dbm CcLinks RegList Plugin Deliver.
From S2P Require Import RiscvImm RiscvAsm RiscvEmit RiscvExit Pie LoadStoreA64 A64Inst A64Asm A64Code A64Exit A64Branch A64Stack A64Lookup A64LookupSpec A64Scan A64ScanSpec.
Import A64LookupSpec (lookup_emitted, whole_code, hit_code, miss_code, loop_code, pop_size).
Import Dbm CcLinks Plugin Deliver Pie A64Inst A64Asm A64Code A64Exit A64Branch A64Lookup A64Scan A64ScanSpec.
Import RiscvImm (sign_extend64, sign_extend64_signed).
Import RiscvExit (set_exit_branch_addr).
#[local] Open Scope Z_scope.

Module A64Returns.

Section returns.
Context (cfg : config) {T : Type} `{!AddressTable T (TABLE_SIZE cfg)} (opts : options).
Context (dispatcher_addr trace_head_incr_addr syscall_wrapper_addr entries_addr tls_addr : Z).
Context (a64_decode : Z → a64_instruction) (source : Z → Z).
Context (Hbs : BASIC_BLOCK_SIZE cfg = 64) (Hentries : 0 ≤ entries_addr < 2 ^ 48).
Implicit Types (w : world (T := T)) (q : scan_state (T := T)).
Notation fits := (fits cfg dispatcher_addr).
Notation decode a := (a64_decode (source a)).
Notation fld a enc l := (field enc l%char (source a)).

(** [n] blocks are free, and have metadata. *)
Record has_blocks (n : nat) w : Prop := {
  blocks_left : free_block (w_th w) + Z.of_nat n ≤ CODE_CACHE_SIZE cfg;
  blocks_metas : CODE_CACHE_SIZE cfg ≤ Z.of_nat (length (code_cache_meta (w_th w))) }.

(** The branch to an overflow block. *)
Lemma overflow_near bb k w write data : fits bb k w write data → 0 ≤ k → 0 ≤ free_block (w_th w) < CODE_CACHE_SIZE cfg →
  ∃ i, a64_b_helper write (block_addr cfg (w_th w) (free_block (w_th w))) = Ok i.
Proof using Hbs.
  intros [[[? ?] Hca ? _ _] _ _ ? [? Ha] ? Hd] Hk Hb. unfold first_free in Hd. rewrite a64_block_addr in * by done.
  set (x := code_cache (w_th w) + free_block (w_th w) * 256) in *. assert (aligned x = true) as Hx.
  { rewrite aligned_mod in *. unfold x. replace (free_block (w_th w) * 256) with (free_block (w_th w) * 64 * 4) by lia. by rewrite Z.mod_add. }
  unfold a64_b_helper, a64_branch_helper. rewrite s64_small by lia. rewrite aligned_sub by done.
  replace ((_ <? _) && (_ <=? _)) with true by lia. by eexists.
Qed.

Lemma a64_with_space_ok bb k size n q : fits bb k (s_world q) (s_write q) (s_data q) → 4 ≤ k → bb < free_block (w_th (s_world q)) →
  has_blocks (S n) (s_world q) → ∃ q0, with_space cfg size bb q = Ok q0 ∧ has_blocks n (s_world q0) ∧ bb < free_block (w_th (s_world q0)).
Proof using Hbs.
  intros Hf Hk Hbf [B1 B2]. unfold with_space, a64_check_free_space. destruct (_ <=? _); [|eexists; split; [done|]; split; [split; cbn; lia | done]].
  pose proof (fits_bb _ _ _ _ _ _ _ Hf). set (w := s_world q) in *. set (b := free_block (w_th w)) in *.
  rewrite (proj2 (Z.ltb_lt bb (CODE_CACHE_SIZE cfg))) by lia.
  unfold allocate_bb_overflow. fold b. rewrite (proj2 (Z.ltb_lt b (CODE_CACHE_SIZE cfg))) by lia. unfold c_assert. cbn [mbind outcome_bind fst snd].
  assert (is_Some (code_cache_meta (w_th w) !! Z.to_nat b)) as [m Hm] by (apply lookup_lt_is_Some; lia).
  rewrite (upd_meta_ok _ _ _ m) by (lia || done). cbn [mbind outcome_bind].
  set (th := set_code_cache_meta _ _). change (block_addr cfg th b) with (block_addr cfg (w_th w) b).
  assert (∀ c, has_blocks n (MkWorld th c) ∧ bb < free_block th) as Hb by (intros c; split; [split; cbn; rewrite ?length_insert; lia | cbn; lia]).
  destruct (overflow_near bb k w _ _ Hf ltac:(lia)) as (i & Hi); [fold b; lia|]. fold b in Hi.
  destruct (block_addr cfg (w_th w) b =? s_data q); cbn [negb mbind outcome_bind fst snd].
  - eexists. split; [done|]. apply Hb.
  - rewrite Hi. cbn [mbind outcome_bind]. eexists. split; [done|]. apply Hb.
Qed.

(** ** Inside of blocks *)

(** What a block may consist of before its exit: literals that are allocated. *)
Definition inside (x : Z) : bool :=
  is_copied (decode x) ||
  match decode x with
  | A64_ADR | A64_MRS_MSR_REG => true
  | A64_LDR_LIT => match lit_access (fld x LDR_LIT_TXT "a") (fld x LDR_LIT_TXT "b") with Some _ => true | None => false end
  | _ => false
  end.

(** The exits: branches, but no B.AL, and a word that does not decode behind the
    start. *)
Definition exit_at (start x : Z) : bool :=
  match decode x with
  | A64_B_COND => cond_of (source x) <? 14
  | A64_CBZ_CBNZ | A64_TBZ_TBNZ | A64_B_BL | A64_BR | A64_BLR | A64_RET => true
  | A64_INVALID => negb (x =? start)
  | _ => false
  end.

(** [n] instructions and an exit. *)
Fixpoint block_at (n : nat) (start x : Z) : bool :=
  match n with O => exit_at start x | S n => inside x && block_at n start (x + 4) end.

Section block.
Context (g : global (world (T := T))) (watched : list (Z * mambo_callback (world (T := T)))).
Context (bb : Z) (type : cc_type) (start : Z) (Hg : free_plugin g ≤ 0) (Hbb : bb < 2 ^ 16).
Notation scan_inst := (scan_inst cfg opts dispatcher_addr syscall_wrapper_addr entries_addr tls_addr source g watched bb type start).
Notation scan_loop := (scan_loop cfg opts dispatcher_addr syscall_wrapper_addr entries_addr tls_addr a64_decode source g watched bb type start).

Lemma inside_ok q : inside (s_read q) = true → ∃ l, scan_inst (decode (s_read q)) q = Ok (put_code l q) ∧ code_size l ≤ 28.
Proof using.
  intros Hi. unfold inside in Hi. destruct (is_copied (decode (s_read q))) eqn:Hc.
  - exists [Copied (source (s_read q))]. split; [|done]. destruct (decode (s_read q)); try discriminate Hc; reflexivity.
  - cbn [orb] in Hi. destruct (decode (s_read q)) eqn:Hd; try discriminate Hi; cbn [A64Scan.scan_inst].
    + unfold scan_mrs_msr. cbv zeta. destruct (_ && _); [|by exists [Copied (source (s_read q))]]. eexists. split; [done|].
      rewrite !a64_code_size_app. change (code_size [a64_push_reg _]) with 4. change (code_size [_; _]) with 8.
      match goal with |- context [copy_to_reg ?r tls_addr] => pose proof (a64_copy_size r tls_addr) end. lia.
    + destruct (lit_access _ _) as [acc|] eqn:Hacc; [|done].
      destruct (scan_ldr_lit_code source q acc Hacc) as (size & v & op & _ & [(_ & _ & Hq)|[_ Hq]]); rewrite Hq; eexists; (split; [done|]);
        rewrite !a64_code_size_app; change (code_size [_]) with 4; change (code_size [_; _]) with 8;
        match goal with |- context [copy_to_reg ?r ?v] => pose proof (a64_copy_size r v) end; lia.
    + unfold scan_adr. cbv zeta. destruct (if _ =? _ then _ else _) as [imm base]. eexists. split; [done|].
      match goal with |- context [copy_to_reg ?r ?v] => pose proof (a64_copy_size r v) end. lia.
Qed.
(** ** Exits *)

(** The block has ended within its space. *)
Definition exited q : Prop := s_stop q = true ∧ s_write q < s_data q.

Lemma a64_run_out_ok q k f th' n text' : fits bb k (s_world q) (s_write q) (s_data q) →
  f (w_th (s_world q)) (s_write q, w_code (s_world q)) = Ok (th', (s_write q + n, text')) → n ≤ k →
  ∃ q1, (s ← run_out f q; Ok (end_block s)) = Ok q1 ∧ exited q1.
Proof using.
  intros [_ _ _ _ _ Hsl _] Ho Hn. unfold run_out. rewrite Ho. cbn [mbind outcome_bind]. eexists. split; [reflexivity|].
  split; [done|]. cbn [end_block set_world s_write s_data]. lia.
Qed.

Lemma near_target n read imm : 0 < n ≤ 26 → 2 ^ 27 ≤ read ≤ 2 ^ 47 → 0 ≤ u64 (read + signed n imm * 4) < 2 ^ 48.
Proof using.
  clear. intros Hn Hr. pose proof (signed_range n imm ltac:(lia)) as Hs. assert (2 ^ (n - 1) ≤ 2 ^ 25) by (apply Z.pow_le_mono_r; lia). rewrite u64_small; lia.
Qed.

Lemma target_near i word read : conditional i → 2 ^ 27 ≤ read ≤ 2 ^ 47 → target_of i word read < 2 ^ 48.
Proof using.
  clear. intros Hi Hr. unfold target_of. destruct Hi as [-> | [-> | ->]]; rewrite ?decide_True by done; rewrite ?decide_False by done.
  - rewrite offset_target; [|done|field_bits 19]. by apply near_target.
  - unfold fields_of, is_tbz. rewrite bool_decide_false by done. cbn [cbz_fields f_offset]. rewrite offset_target; [|done|field_bits 19]. by apply near_target.
  - unfold fields_of, is_tbz. rewrite bool_decide_true by done. cbn [tbz_fields f_offset]. rewrite offset_target; [|done|field_bits 14]. by apply near_target.
Qed.

Lemma next_small read : 2 ^ 27 ≤ read ≤ 2 ^ 47 → u64 (read + 4) = read + 4.
Proof using. clear. intros Hr. apply u64_small. lia. Qed.

Lemma conditional_ok q i : conditional i → (i = A64_B_COND → cond_of (source (s_read q)) < 14) →
  fits bb 60 (s_world q) (s_write q) (s_data q) → 2 ^ 27 ≤ s_read q ≤ 2 ^ 47 →
  ∃ q1, (s ← run_out (λ th st, conditional_exit opts dispatcher_addr th bb i (source (s_read q)) (s_read q) st) q; Ok (end_block s)) = Ok q1 ∧ exited q1.
Proof using Hbs Hbb.
  intros Hi Hc Hf Hr. pose proof (aligned_fits cfg dispatcher_addr Hbs bb 60 _ _ _ 200 Hf ltac:(lia) ltac:(lia) ltac:(lia)) as Hroom.
  pose proof Hf as [_ Hbr [m0 Hm0] _ _ _ _].
  destruct (conditional_exit_spec no_app opts dispatcher_addr (w_th (s_world q)) bb i (source (s_read q)) (s_read q) m0 (s_write q, w_code (s_world q)) Hi Hroom Hbr Hm0 Hc)
    as (n & text' & Heq & _ & Hn & _). cbn [fst snd] in *.
  eapply (a64_run_out_ok q 60); [exact Hf | exact Heq |]. specialize (Hn Hbb (target_near i _ _ Hi Hr)). rewrite next_small in Hn by done. specialize (Hn ltac:(lia)). lia.
Qed.

(** A jump to the dispatcher. *)
Lemma jump_size_small reserve target p : 0 ≤ bb → 0 ≤ target < 2 ^ 48 → code_size (jump_code dispatcher_addr reserve bb target p) ≤ 28.
Proof using Hbb.
  intros Hb Ht. unfold jump_code. rewrite !a64_code_size_app. change (code_size [a64_push_pair_reg 0 1]) with 4.
  pose proof (side_size_small dispatcher_addr true bb target (p + if reserve then 8 else 4) ltac:(lia) Ht).
  destruct reserve; [change (code_size [NOP]) with 4 | change (code_size []) with 0]; lia.
Qed.

Lemma jump_ok q k f (reserve : bool) target (ms : list dbm_code_cache_meta) : fits bb k (s_world q) (s_write q) (s_data q) → 28 ≤ k → 0 ≤ target < 2 ^ 48 →
  f (w_th (s_world q)) (s_write q, w_code (s_world q))
    = (st ← a64_branch_jump dispatcher_addr bb target true true
              (a64_branch_save_context (if reserve then emit [NOP] (s_write q, w_code (s_world q)) else (s_write q, w_code (s_world q))));
       Ok (set_code_cache_meta ms (w_th (s_world q)), st)) →
  ∃ q1, (s ← run_out f q; Ok (end_block s)) = Ok q1 ∧ exited q1.
Proof using Hbs Hbb.
  intros Hf Hk Ht Hfo. pose proof (aligned_fits cfg dispatcher_addr Hbs bb k _ _ _ 200 Hf ltac:(lia) ltac:(lia) ltac:(lia)) as Hroom.
  set (st := (s_write q, w_code (s_world q))) in *. rewrite (jump_code_emitted dispatcher_addr reserve bb target st Hroom) in Hfo. cbn [mbind outcome_bind] in Hfo.
  pose proof (fits_bb _ _ _ _ _ _ _ Hf). eapply (a64_run_out_ok q k); [exact Hf | exact Hfo |].
  pose proof (jump_size_small reserve target (fst st) ltac:(lia) Ht). lia.
Qed.

Lemma aligned_size l : aligned (code_size l) = true.
Proof using. clear. apply aligned_mod. unfold code_size. rewrite Z.mul_comm. by apply Z.mod_mul. Qed.

Lemma aligned_add x y : aligned x = true → aligned y = true → aligned (x + y) = true.
Proof using. clear. rewrite !aligned_mod. intros H1 H2. Z.div_mod_to_equations. lia. Qed.

Lemma b_bl_ok q : fits bb 60 (s_world q) (s_write q) (s_data q) → 2 ^ 27 ≤ s_read q ≤ 2 ^ 47 →
  ∃ q1, scan_b_bl opts dispatcher_addr source bb q = Ok q1 ∧ exited q1.
Proof using Hbs Hbb.
  intros Hf Hr. unfold scan_b_bl, wfield. cbv zeta. rewrite offset_target by (done || field_bits 26).
  pose proof (near_target 26 (s_read q) (fld (s_read q) B_BL_TXT "b") ltac:(done) Hr) as Ht. set (target := u64 (s_read q + _)) in *.
  set (q0 := if fld (s_read q) B_BL_TXT "a" =? 1 then _ else q).
  assert (∃ j, 0 ≤ j ≤ 12 ∧ aligned j = true ∧ s_write q0 = s_write q + j ∧ s_data q0 = s_data q ∧ w_th (s_world q0) = w_th (s_world q)) as (j & Hj & Haj & Hw & Hd & Hth).
  { unfold q0. destruct (_ =? 1); [|exists 0; by rewrite Z.add_0_r]. rewrite next_small by done.
    pose proof (copy_size_48 lr (s_read q + 4) ltac:(lia)). pose proof (a64_copy_size lr (s_read q + 4)). exists (code_size (copy_to_reg lr (s_read q + 4))).
    split_and!; [lia | lia | apply aligned_size | done..]. }
  pose proof (a64_fits_advance cfg dispatcher_addr bb 60 j q q0 Hf ltac:(lia) Hth Hd Hw Haj) as Hf0.
  destruct (meta_upd cfg dispatcher_addr bb _ _ _ _ (λ m, set_branch_taken_addr target
      (set_exit_branch_addr (s_write q0) (set_exit_branch_type uncond_imm_a64 m))) (DBM_LINK_UNCOND_IMM opts) Hf0) as [ms Hms].
  eapply (jump_ok q0 (60 - j) _ (DBM_LINK_UNCOND_IMM opts) target ms Hf0); [lia | exact Ht |]. cbn [fst]. by rewrite Hms.
Qed.

(** *** Inline lookups *)

Lemma lookup_code_ok r read rn link st : 0 ≤ bb → room dispatcher_addr 200 (fst st) → 2 ^ 27 ≤ read ≤ 2 ^ 47 →
  ∃ st', lookup_code dispatcher_addr entries_addr r bb read rn link st = Ok st' ∧ fst st' ≤ fst st + 88.
Proof using Hbb Hentries.
  intros Hb Hroom Hr. destruct (lookup_emitted dispatcher_addr entries_addr r bb read rn link st Hroom) as (miss & again & b & text' & -> & _).
  eexists. split; [done|]. cbn [fst]. unfold whole_code, hit_code, miss_code, lookup_head. rewrite !a64_code_size_app, pop_size.
  rewrite (u64_small bb), (copy_size_16 1) by lia. change (code_size (loop_code _ _ _ _)) with 20. change (code_size [_; _]) with 8. change (code_size [_]) with 4.
  pose proof (copy_size_48 0 entries_addr ltac:(lia)).
  assert (0 ≤ code_size (if use_x2 r then [a64_push_reg 2] ++ (if negb (rn =? reg_spc r) then [mov (reg_spc r) rn] else []) else []) ≤ if use_x2 r then 8 else 0)
    by (destruct (use_x2 r), (negb (rn =? reg_spc r)); by vm_compute).
  assert (code_size (if link then copy_to_reg lr (u64 (read + 4)) else []) ≤ 12); [|destruct (use_x2 r); lia].
  destruct link; [|by vm_compute]. rewrite next_small by done. apply copy_size_48. lia.
Qed.
Lemma branch_reg_ok q i : fits bb 60 (s_world q) (s_write q) (s_data q) → 2 ^ 27 ≤ s_read q ≤ 2 ^ 47 →
  bb < free_block (w_th (s_world q)) → has_blocks 1 (s_world q) →
  ∃ q1, scan_branch_reg cfg opts dispatcher_addr entries_addr source i bb q = Ok q1 ∧ exited q1.
Proof using Hbs Hbb Hentries.
  intros Hf Hr Hbf Hbl. pose proof (fits_bb _ _ _ _ _ _ _ Hf). unfold scan_branch_reg. cbv zeta. unfold wfield. set (rn := fld (s_read q) BR_TXT "a").
  destruct (DBM_INLINE_HASH opts) eqn:Hin; cbn [mbind outcome_bind].
  - destruct (a64_with_space_ok bb 60 88 0 q Hf ltac:(lia) Hbf Hbl) as (q0 & Hq0 & _ & _). rewrite Hq0. cbn [mbind outcome_bind].
    unfold with_space in Hq0. apply bind_ok_inv in Hq0 as ([[w0 write0] data0] & Hsp & Hq0). apply returned in Hq0 as <-.
    destruct (check_space_spec cfg dispatcher_addr no_app Hbs bb 60 88 _ _ _ _ _ _ Hf ltac:(lia) ltac:(lia) Hsp) as [Hf0 _].
    change (s_read (set_world w0 write0 data0 q)) with (s_read q).
    pose proof (aligned_fits cfg dispatcher_addr Hbs bb 88 _ _ _ 200 Hf0 ltac:(lia) ltac:(lia) ltac:(lia)) as Hroom.
    set (q0 := set_world w0 write0 data0 q). set (st := (s_write q0, w_code (s_world q0))).
    destruct (fits_meta _ _ _ _ _ _ _ Hf0) as [m Hm]. set (f := λ m, set_rn rn (set_exit_branch_addr (fst st) (set_exit_branch_type uncond_branch_reg m))).
    set (ms := <[Z.to_nat bb := f m]> (code_cache_meta (w_th w0))).
    destruct (lookup_code_ok (choose_regs rn (bool_decide (i = A64_BLR))) (s_read q) rn (bool_decide (i = A64_BLR)) st ltac:(lia) Hroom Hr) as ([write' text'] & Hlk & Hsz).
    cbn [fst] in Hsz. change (fst st) with (s_write q0) in Hsz.
    eapply (a64_run_out_ok q0 88 _ _ (write' - s_write q0) text'); [exact Hf0 | | lia]. cbv beta. fold st f. change (w_th (s_world q0)) with (w_th w0).
    rewrite (upd_meta_ok _ _ _ m) by (lia || done). fold ms. cbn [mbind outcome_bind]. unfold a64_inline_hash_lookup. cbv zeta.
    rewrite (upd_meta_ok _ _ _ (f m)); [|lia|unfold ms; cbn; rewrite list_lookup_insert_eq; [done | by apply lookup_lt_Some in Hm]].
    cbn [mbind outcome_bind]. rewrite Hlk. cbn [mbind outcome_bind]. by replace (s_write q0 + (write' - s_write q0)) with write' by lia.
  - pose proof (aligned_fits cfg dispatcher_addr Hbs bb 60 _ _ _ 200 Hf ltac:(lia) ltac:(lia) ltac:(lia)) as Hroom. set (st := (s_write q, w_code (s_world q))).
    destruct (meta_upd cfg dispatcher_addr bb _ _ _ _ (λ m, set_rn rn (set_exit_branch_addr (fst st) (set_exit_branch_type uncond_branch_reg m))) true Hf) as [ms Hms].
    eapply (a64_run_out_ok q 60 _ _ (code_size (reg_code dispatcher_addr (bool_decide (i = A64_BLR)) rn (u64 (s_read q + 4)) bb (fst st)))); [exact Hf | |].
    + cbv beta. fold st. rewrite Hms. cbn [mbind outcome_bind].
      pose proof (reg_code_emitted dispatcher_addr (bool_decide (i = A64_BLR)) rn (u64 (s_read q + 4)) bb st Hroom) as He. cbv zeta in He. rewrite He. done.
    + unfold reg_code. cbv zeta. rewrite a64_code_size_app. change (code_size [B_BL _ _]) with 4.
      pose proof (reg_size (bool_decide (i = A64_BLR)) rn (u64 (s_read q + 4)) bb). lia.
Qed.

Lemma a64_exit_ok q : exit_at start (s_read q) = true → fits bb 60 (s_world q) (s_write q) (s_data q) → 2 ^ 27 ≤ s_read q ≤ 2 ^ 47 →
  bb < free_block (w_th (s_world q)) → has_blocks 1 (s_world q) → ∃ q1, scan_inst (decode (s_read q)) q = Ok q1 ∧ exited q1.
Proof using Hbs Hbb Hentries.
  intros Hx Hf Hr Hbf Hbl. unfold exit_at in Hx. destruct (decode (s_read q)) eqn:Hd; try discriminate Hx; cbn [A64Scan.scan_inst].
  - apply (conditional_ok q A64_CBZ_CBNZ); [right; by left | done..].
  - apply (conditional_ok q A64_B_COND); [by left | lia | done..].
  - apply (conditional_ok q A64_TBZ_TBNZ); [right; by right | done..].
  - by apply b_bl_ok.
  - by apply branch_reg_ok.
  - by apply branch_reg_ok.
  - by apply branch_reg_ok.
  - unfold scan_invalid. rewrite Hx. eapply (jump_ok q 60 _ false (s_read q) (code_cache_meta (w_th (s_world q)))); [exact Hf | lia | lia |].
    by rewrite <- same_thread.
Qed.

(** ** The loops *)

Lemma a64_loop_returns n : ∀ fuel q,
  block_at n start (s_read q) = true → (n + 1 < fuel)%nat → s_stop q = false → fits bb 60 (s_world q) (s_write q) (s_data q) →
  bb < free_block (w_th (s_world q)) → has_blocks (S n) (s_world q) → 2 ^ 27 ≤ s_read q → s_read q + 4 * Z.of_nat n ≤ 2 ^ 47 →
  ∃ q', scan_loop fuel q = Ok q' ∧ exited q'.
Proof using Hbs Hbb Hentries Hg.
  induction n as [|n IH]; intros [|fuel] q Hb Hfuel Hstop Hf Hbf Hbl Hlo Hhi; try lia; cbn [A64Scan.scan_loop]; rewrite Hstop, a64_scan_step_quiet by done.
  - destruct (a64_exit_ok q Hb Hf ltac:(lia) Hbf Hbl) as (q1 & -> & Hs & Hw). cbn [mbind outcome_bind].
    rewrite (proj2 (Z.leb_gt _ _) Hw), Hs. cbn [negb mbind outcome_bind]. destruct fuel as [|fuel]; [lia|]. cbn [A64Scan.scan_loop at_read s_stop].
    rewrite Hs. eexists. split; [reflexivity|]. by split.
  - cbn [block_at] in Hb. apply andb_true_iff in Hb as [Hi Hb].
    destruct (inside_ok q Hi) as (l & -> & Hl). cbn [mbind outcome_bind]. set (q1 := put_code l q). pose proof (a64_code_size_nonneg l).
    assert (fits bb (60 - code_size l) (s_world q1) (s_write q1) (s_data q1)) as Hf1.
    { apply (a64_fits_advance cfg dispatcher_addr bb 60 _ q); [done | lia | done | done | done | apply aligned_size]. }
    pose proof (fits_slack _ _ _ _ _ _ _ Hf1). rewrite (proj2 (Z.leb_gt (s_data q1) (s_write q1))) by lia. change (s_stop q1) with (s_stop q). rewrite Hstop. cbn [negb].
    assert (has_blocks (S (S n)) (s_world q1)) as Hbl1 by (destruct Hbl; by split).
    destruct (a64_with_space_ok bb (60 - code_size l) MIN_FSPACE (S n) q1 Hf1 ltac:(lia) Hbf Hbl1) as (q2 & Hq2 & Hbl2 & Hbf2).
    rewrite Hq2. cbn [mbind outcome_bind].
    assert (fits bb 60 (s_world q2) (s_write q2) (s_data q2) ∧ s_read q2 = s_read q ∧ s_stop q2 = false) as (Hf2 & Hr2 & Hs2).
    { unfold with_space in Hq2. apply bind_ok_inv in Hq2 as ([[w0 write0] data0] & Hsp & Hq2). apply returned in Hq2 as <-.
      destruct (check_space_spec cfg dispatcher_addr no_app Hbs bb _ MIN_FSPACE _ _ _ _ _ _ Hf1 ltac:(lia) ltac:(done) Hsp) as [Hf2 _]. by split_and!. }
    apply IH; cbn [at_read s_read s_write s_data s_stop s_world]; rewrite ?Hr2; (done || lia).
Qed.
End block.

(** C11. [scan_a64] returns: for a block of the application of [n] instructions
    that are copied, ADRs, accesses to system registers or allocated loads of
    literals, and a branch behind them (no B.AL) or a word that does not decode,
    between 2^27 and 2^47, without plugins and counters, no assertion fails, and
    the 60 bytes that are reserved between two instructions and the 88 bytes for
    an inline lookup are enough for the code of every exit, when [n + 1] blocks
    are free behind the block, whose number is below 2^16. *)
Theorem scan_a64_returns n fuel g watched ids w read bb :
  free_plugin g ≤ 0 → DBM_TRACES cfg = false → block_ok cfg dispatcher_addr bb w → bb < 2 ^ 16 → block_at n read read = true → (n + 1 < fuel)%nat →
  2 ^ 27 ≤ read → read + 4 * Z.of_nat n ≤ 2 ^ 47 → has_blocks (S n) w →
  ∃ q k, scan_a64 cfg opts dispatcher_addr trace_head_incr_addr syscall_wrapper_addr entries_addr tls_addr a64_decode source fuel g watched ids w
    read bb mambo_bb 0 = Ok (q, k) ∧ exited q.
Proof using Hbs Hentries.
  intros Hg Htr Hb Hbb Hblock Hfuel Hlo Hhi Hbl. rewrite scan_a64_quiet by done.
  destruct (a64_first_state_fits cfg dispatcher_addr Hbs ids read bb w Hb) as [Hf _].
  destruct (a64_loop_returns g watched bb mambo_bb read Hg Hbb n fuel (first_state cfg ids read bb w) Hblock Hfuel eq_refl Hf) as (q & -> & Hx);
    [by destruct Hb as [_ _ [? ?] _ _] | destruct Hbl; by split | done | done |].
  cbn [mbind outcome_bind]. by eexists _, _.
Qed.
End returns.

(** The block of A64ScanSpec, at 2^30. *)
Definition demo_far (x : Z) : Z := demo_source (x - 0x40000000 + 0x100000).

Lemma scan_a64_returns_witness : ∃ q k, scan_a64 demo_config demo_options 2048 3000 3100 0x40000000 0x3000 demo_decode demo_far 40 initial [] (1, 1, [])
  demo_world 0x40000000 2 mambo_bb 0 = Ok (q, k) ∧ exited q.
Proof.
  apply (scan_a64_returns demo_config demo_options 2048 3000 3100 0x40000000 0x3000 demo_decode demo_far eq_refl ltac:(lia) 28);
    [done | done | apply a64_demo_block_ok | lia | by vm_compute | lia | lia | lia | split; by vm_compute].
Defined.
End A64Returns.
