(* ===== verification/LoadStoreArm.v ===== *)
(** * Loads and stores of AArch32 in the plugin API (api/load_store.c, api/helpers.c)

    Which T32 and A32 instructions access memory, the address they access and
    the number of bytes. A plugin asks for the address in a register; the
    emitted code has the meaning of the Arm manual on 32-bit registers. *)
From S2P Require Import Prelude RegList RiscvImm Pie.
Import RegList RiscvImm Pie.
#[local] Open Scope Z_scope.

Module LoadStoreArm.

(** The values of [thumb_instruction] and [arm_instruction] that the API tells
    apart. *)
Inductive thumb_instruction :=
  | THUMB_LDMFD16 | THUMB_LDR16 | THUMB_LDRB16 | THUMB_LDRBI16 | THUMB_LDRH16 | THUMB_LDRHI16 | THUMB_LDRI16
  | THUMB_LDR_PC_16 | THUMB_LDRSB16 | THUMB_LDRSH16 | THUMB_LDR_SP16 | THUMB_POP16 | THUMB_LDC232 | THUMB_LDC32
  | THUMB_LDMEA32 | THUMB_LDMFD32 | THUMB_LDR32 | THUMB_LDRB32 | THUMB_LDRBI32 | THUMB_LDRBL32 | THUMB_LDRBT32
  | THUMB_LDRBWI32 | THUMB_LDRD32 | THUMB_LDREX32 | THUMB_LDREXB32 | THUMB_LDREXD32 | THUMB_LDREXH32
  | THUMB_LDRH32 | THUMB_LDRHI32 | THUMB_LDRHL32 | THUMB_LDRHT32 | THUMB_LDRHWI32 | THUMB_LDRI32 | THUMB_LDRL32
  | THUMB_LDRSB32 | THUMB_LDRSBI32 | THUMB_LDRSBL32 | THUMB_LDRSBT32 | THUMB_LDRSBWI32 | THUMB_LDRSH32
  | THUMB_LDRSHI32 | THUMB_LDRSHL32 | THUMB_LDRSHT32 | THUMB_LDRSHWI32 | THUMB_LDRT32 | THUMB_LDRWI32
  | THUMB_NEON_VLDX_M | THUMB_NEON_VLDX_S_O | THUMB_NEON_VLDX_S_A | THUMB_VFP_VLDM_DP | THUMB_VFP_VLDM_SP
  | THUMB_VFP_VLDR_DP | THUMB_VFP_VLDR_SP | THUMB_VFP_VPOP | THUMB_STMEA16 | THUMB_STR16 | THUMB_STRB16
  | THUMB_STRBI16 | THUMB_STRH16 | THUMB_STRHI16 | THUMB_STRI16 | THUMB_STR_SP16 | THUMB_PUSH16 | THUMB_STC32
  | THUMB_STC232 | THUMB_STMEA32 | THUMB_STMFD32 | THUMB_STR32 | THUMB_STRB32 | THUMB_STRBI32 | THUMB_STRBT32
  | THUMB_STRBWI32 | THUMB_STRD32 | THUMB_STREX32 | THUMB_STREXB32 | THUMB_STREXD32 | THUMB_STREXH32
  | THUMB_STRH32 | THUMB_STRHI32 | THUMB_STRHT32 | THUMB_STRHWI32 | THUMB_STRI32 | THUMB_STRT32 | THUMB_STRWI32
  | THUMB_NEON_VSTX_M | THUMB_NEON_VSTX_S_O | THUMB_VFP_VSTM_DP | THUMB_VFP_VSTM_SP | THUMB_VFP_VSTR_DP
  | THUMB_VFP_VSTR_SP | THUMB_VFP_VPUSH
  | THUMB_OTHER (n : Z).

Inductive arm_instruction :=
  | ARM_LDC | ARM_LDM | ARM_LDR | ARM_LDRB | ARM_LDRBT | ARM_LDRD | ARM_LDREX | ARM_LDREXB | ARM_LDREXD
  | ARM_LDREXH | ARM_LDRH | ARM_LDRHT | ARM_LDRSB | ARM_LDRSBT | ARM_LDRSH | ARM_LDRSHT | ARM_LDRT
  | ARM_NEON_VLDX_M | ARM_NEON_VLDX_S_O | ARM_NEON_VLDX_S_A | ARM_VFP_VLDM_DP | ARM_VFP_VLDM_SP
  | ARM_VFP_VLDR_DP | ARM_VFP_VLDR_SP | ARM_VFP_VPOP_DP | ARM_VFP_VPOP_SP | ARM_STC | ARM_STM | ARM_STR
  | ARM_STRB | ARM_STRBT | ARM_STRD | ARM_STREX | ARM_STREXB | ARM_STREXD | ARM_STREXH | ARM_STRH | ARM_STRHT
  | ARM_STRT | ARM_NEON_VSTX_M | ARM_NEON_VSTX_S_O | ARM_VFP_VSTM_DP | ARM_VFP_VSTM_SP | ARM_VFP_VSTR_DP
  | ARM_VFP_VSTR_SP | ARM_VFP_VPUSH_DP | ARM_VFP_VPUSH_SP
  | ARM_OTHER (n : Z).

(** [ctx->code.inst_type] and [ctx->code.inst]. *)
Inductive aarch32_instruction := Thumb (i : thumb_instruction) | Arm (i : arm_instruction).

Notation ctx32 := (code_ctx aarch32_instruction).

(** The encodings of pie/thumb.txt and pie/arm.txt whose field decoders are used. *)
Definition thumb_txt (i : thumb_instruction) : string :=
  (match i with
  | THUMB_STMEA16 => "11000aaa bbbbbbbb"
  | THUMB_LDR16 => "0101100a aabbbccc"
  | THUMB_LDRI16 => "01101aaa aabbbccc"
  | THUMB_LDR_PC_16 => "01001aaa bbbbbbbb"
  | THUMB_LDR_SP16 => "10011aaa bbbbbbbb"
  | THUMB_PUSH16 => "1011010a aaaaaaaa"
  | THUMB_LDMEA32 => "11101001 00a1bbbb cccccccc cccccccc"
  | THUMB_LDR32 => "11111000 0101aaaa bbbb0000 00ccdddd"
  | THUMB_LDRI32 => "11111000 0101cccc dddd1puw eeeeeeee"
  | THUMB_LDRWI32 => "11111000 1101cccc ddddeeee eeeeeeee"
  | THUMB_LDRD32 => "1110100a b1c1dddd eeeeffff gggggggg"
  | THUMB_LDRL32 => "11111000 a1011111 ddddeeee eeeeeeee"
  | THUMB_VFP_VPUSH => "11101101 0d101101 aaaa101s bbbbbbbb"
  | THUMB_STREX32 => "11101000 0100aaaa bbbbcccc dddddddd"
  | THUMB_VFP_VSTM_DP => "1110110p udw0aaaa bbbb1011 cccccccc"
  | THUMB_VFP_VSTR_SP => "11101101 ud00aaaa bbbb1010 cccccccc"
  | THUMB_LDREXB32 => "11101000 1101aaaa bbbb1111 01001111"
  | THUMB_NEON_VLDX_M => "11111001 0a10bbbb ccccdddd eeffgggg"
  | THUMB_STMFD32 => "11101001 00a0bbbb cccccccc cccccccc"
  | THUMB_LDMFD16 => "11001aaa bbbbbbbb"
  | THUMB_NEON_VLDX_S_O => "11111001 1a10bbbb ccccddee ffffgggg"
  | THUMB_NEON_VLDX_S_A => "11111001 1a10bbbb cccc11dd eetgffff"
  | _ => ""
  end)%string.

Definition arm_txt (i : arm_instruction) : string :=
  (match i with
  | ARM_STR => "aaaa01bc d0e0ffff gggghhhh hhhhhhhh"
  | ARM_LDRD => "aaaa000b cde0ffff gggghhhh 1101iiii"
  | ARM_STM => "aaaa100b cde0ffff gggggggg gggggggg"
  | ARM_NEON_VLDX_M => "11110100 0a10bbbb ccccdddd eeffgggg"
  | ARM_LDREX => "aaaa0001 1001bbbb cccc1111 10011111"
  | ARM_VFP_VLDM_DP => "aaaa110b cde1ffff gggg1011 hhhhhhhh"
  | ARM_VFP_VLDR_DP => "aaaa1101 bc01dddd eeee1011 ffffffff"
  | ARM_LDM => "aaaa100b cde1ffff gggggggg gggggggg"
  | ARM_VFP_VLDM_SP => "aaaa110b cde1ffff gggg1010 hhhhhhhh"
  | ARM_NEON_VLDX_S_O => "11110100 1a10bbbb ccccddee ffffgggg"
  | ARM_NEON_VLDX_S_A => "11110100 1a10bbbb cccc11dd eetgffff"
  | _ => ""
  end)%string.

Section operations.
Context (c : ctx32).

(** Field [l], by the decoder of [i]. *)
Definition t16 (i : thumb_instruction) (l : ascii) : Z := field (thumb_txt i) l (word16 (code c)).
Definition t32 (i : thumb_instruction) (l : ascii) : Z := field (thumb_txt i) l (word_thumb (code c)).
Definition a32 (i : arm_instruction) (l : ascii) : Z := field (arm_txt i) l (word_arm (code c)).

(** ** Classification *)

Definition mambo_is_load : bool :=
  match code_inst c with
  | Some (Thumb (THUMB_LDMFD16 | THUMB_LDR16 | THUMB_LDRB16 | THUMB_LDRBI16 | THUMB_LDRH16 | THUMB_LDRHI16 | THUMB_LDRI16
    | THUMB_LDR_PC_16 | THUMB_LDRSB16 | THUMB_LDRSH16 | THUMB_LDR_SP16 | THUMB_POP16 | THUMB_LDC232
    | THUMB_LDC32 | THUMB_LDMEA32 | THUMB_LDMFD32 | THUMB_LDR32 | THUMB_LDRB32 | THUMB_LDRBI32 | THUMB_LDRBL32
    | THUMB_LDRBT32 | THUMB_LDRBWI32 | THUMB_LDRD32 | THUMB_LDREX32 | THUMB_LDREXB32 | THUMB_LDREXD32
    | THUMB_LDREXH32 | THUMB_LDRH32 | THUMB_LDRHI32 | THUMB_LDRHL32 | THUMB_LDRHT32 | THUMB_LDRHWI32
    | THUMB_LDRI32 | THUMB_LDRL32 | THUMB_LDRSB32 | THUMB_LDRSBI32 | THUMB_LDRSBL32 | THUMB_LDRSBT32
    | THUMB_LDRSBWI32 | THUMB_LDRSH32 | THUMB_LDRSHI32 | THUMB_LDRSHL32 | THUMB_LDRSHT32 | THUMB_LDRSHWI32
    | THUMB_LDRT32 | THUMB_LDRWI32 | THUMB_NEON_VLDX_M | THUMB_NEON_VLDX_S_O | THUMB_NEON_VLDX_S_A
    | THUMB_VFP_VLDM_DP | THUMB_VFP_VLDM_SP | THUMB_VFP_VLDR_DP | THUMB_VFP_VLDR_SP | THUMB_VFP_VPOP)) => true
  | Some (Arm (ARM_LDC | ARM_LDM | ARM_LDR | ARM_LDRB | ARM_LDRBT | ARM_LDRD | ARM_LDREX | ARM_LDREXB | ARM_LDREXD
    | ARM_LDREXH | ARM_LDRH | ARM_LDRHT | ARM_LDRSB | ARM_LDRSBT | ARM_LDRSH | ARM_LDRSHT | ARM_LDRT
    | ARM_NEON_VLDX_M | ARM_NEON_VLDX_S_O | ARM_NEON_VLDX_S_A | ARM_VFP_VLDM_DP | ARM_VFP_VLDM_SP
    | ARM_VFP_VLDR_DP | ARM_VFP_VLDR_SP | ARM_VFP_VPOP_DP | ARM_VFP_VPOP_SP)) => true
  | _ => false
  end.

Definition mambo_is_store : bool :=
  match code_inst c with
  | Some (Thumb (THUMB_STMEA16 | THUMB_STR16 | THUMB_STRB16 | THUMB_STRBI16 | THUMB_STRH16 | THUMB_STRHI16 | THUMB_STRI16
    | THUMB_STR_SP16 | THUMB_PUSH16 | THUMB_STC32 | THUMB_STC232 | THUMB_STMEA32 | THUMB_STMFD32 | THUMB_STR32
    | THUMB_STRB32 | THUMB_STRBI32 | THUMB_STRBT32 | THUMB_STRBWI32 | THUMB_STRD32 | THUMB_STREX32
    | THUMB_STREXB32 | THUMB_STREXD32 | THUMB_STREXH32 | THUMB_STRH32 | THUMB_STRHI32 | THUMB_STRHT32
    | THUMB_STRHWI32 | THUMB_STRI32 | THUMB_STRT32 | THUMB_STRWI32 | THUMB_NEON_VSTX_M | THUMB_NEON_VSTX_S_O
    | THUMB_VFP_VSTM_DP | THUMB_VFP_VSTM_SP | THUMB_VFP_VSTR_DP | THUMB_VFP_VSTR_SP | THUMB_VFP_VPUSH)) => true
  | Some (Arm (ARM_STC | ARM_STM | ARM_STR | ARM_STRB | ARM_STRBT | ARM_STRD | ARM_STREX | ARM_STREXB | ARM_STREXD
    | ARM_STREXH | ARM_STRH | ARM_STRHT | ARM_STRT | ARM_NEON_VSTX_M | ARM_NEON_VSTX_S_O | ARM_VFP_VSTM_DP
    | ARM_VFP_VSTM_SP | ARM_VFP_VSTR_DP | ARM_VFP_VSTR_SP | ARM_VFP_VPUSH_DP | ARM_VFP_VPUSH_SP)) => true
  | _ => false
  end.

Definition mambo_is_load_or_store : bool := mambo_is_load || mambo_is_store.

(** ** Emission

    The arguments of the encoders that the emitters call; an encoder keeps the
    bits of a field. [mambo_get_inst_type] is the kind of the instruction. *)

Inductive emit :=
  | thumb_addwi32 (imm1 rn imm3 rd imm8 : Z)
  | thumb_subwi32 (imm1 rn imm3 rd imm8 : Z)
  | thumb_add32 (set_flags rn imm3 rd imm2 shift_type rm : Z)
  | thumb_sub32 (set_flags rn imm3 rd imm2 shift_type rm : Z)
  | thumb_movh16 (dn rm rdn : Z)
  | thumb_movwi32 (imm1 imm4 imm3 rd imm8 : Z)
  | thumb_movti32 (imm1 imm4 imm3 rd imm8 : Z)
  | thumb_push16 (regs : Z)
  | thumb_pop16 (regs : Z)
  | arm_add (immediate set_condition rd rn operand2 : Z)
  | arm_sub (immediate set_condition rd rn operand2 : Z)
  | arm_mov (immediate set_condition rd operand2 : Z)
  | arm_movw (rd rn operand2 : Z)
  | arm_movt (rd rn operand2 : Z)
  | arm_push_regs (regs : Z)
  | arm_pop_regs (regs : Z).

Definition sp : Z := 13.
Definition pc : Z := 15.
Definition reg_invalid : Z := 16.
Definition LSL : Z := 0.
Definition ROR : Z := 3.
Definition REG_PROC : Z := 0.
Definition IMM_PROC : Z := 1.
Definition IMM_LDR : Z := 0.

Definition is_thumb : bool := match code_inst c with Some (Thumb _) => true | _ => false end.

Definition thumb_copy (reg value : Z) (f : Z → Z → Z → Z → Z → emit) : emit :=
  f (Z.land (Z.shiftr value 11) 0x1) (Z.land (Z.shiftr value 12) 0xF) (Z.land (Z.shiftr value 8) 0x7) reg
    (Z.land value 0xFF).
Definition copy_to_reg_16bit (reg value : Z) : list emit := [thumb_copy reg value thumb_movwi32].
Definition copy_to_reg_32bit (reg value : Z) : list emit :=
  [thumb_copy reg value thumb_movwi32; thumb_copy reg (Z.shiftr value 16) thumb_movti32].
Definition emit_thumb_copy_to_reg_32bit (reg value : Z) : list emit :=
  if value <=? 0xFFFF then copy_to_reg_16bit reg value else copy_to_reg_32bit reg value.

Definition arm_copy_to_reg_16bit (reg value : Z) : list emit :=
  [arm_movw reg (Z.land (Z.shiftr value 12) 0xF) (Z.land value 0xFFF)].
Definition arm_copy_to_reg_32bit (reg value : Z) : list emit :=
  [arm_movw reg (Z.land (Z.shiftr value 12) 0xF) (Z.land value 0xFFF);
   arm_movt reg (Z.shiftr value 28) (Z.land (Z.shiftr value 16) 0xFFF)].
Definition emit_arm_copy_to_reg_32bit (reg value : Z) : list emit :=
  if value <=? 0xFFFF then arm_copy_to_reg_16bit reg value else arm_copy_to_reg_32bit reg value.

Definition emit_set_reg (reg value : Z) : list emit :=
  if is_thumb then emit_thumb_copy_to_reg_32bit reg value else emit_arm_copy_to_reg_32bit reg value.

(** [emit_push] and [emit_pop] of one low register, all that is used here. The
    count of pushed registers is the same after the pair. *)
Definition emit_push (regs : Z) : list emit := if is_thumb then [thumb_push16 regs] else [arm_push_regs regs].
Definition emit_pop (regs : Z) : list emit := if is_thumb then [thumb_pop16 regs] else [arm_pop_regs regs].

Definition emit_arm_add_sub_shift (rd rn rm shift_type shift : Z) : Z * list emit :=
  if (31 <? shift) || (ROR <? shift_type) then (-1, [])
  else
    let operand2 rm := Z.lor (Z.lor rm (Z.shiftl shift_type 5)) (Z.shiftl shift 7) in
    if rm <? 0 then (0, [arm_sub REG_PROC 0 rd rn (operand2 (- rm))])
    else (0, [arm_add REG_PROC 0 rd rn (operand2 rm)]).

Definition emit_thumb_add_sub_shift (rd rn rm shift_type shift : Z) : Z * list emit :=
  if (31 <? shift) || (ROR <? shift_type) then (-1, [])
  else if rm <? 0 then (0, [thumb_sub32 0 rn (Z.shiftr shift 2) rd shift shift_type (- rm)])
  else (0, [thumb_add32 0 rn (Z.shiftr shift 2) rd shift shift_type rm]).

(** [shift_type] and [shift] are unsigned. *)
Definition emit_add_sub_shift (rd rn rm shift_type shift : Z) : Z * list emit :=
  if is_thumb then emit_thumb_add_sub_shift rd rn rm (u32 shift_type) (u32 shift)
  else emit_arm_add_sub_shift rd rn rm (u32 shift_type) (u32 shift).

Definition emit_mov (rd rn : Z) : outcome (list emit) :=
  c_assert ((0 <=? rd) && (rd <? pc) && (0 <=? rn) && (rn <? pc));;
  Ok (if is_thumb then [thumb_movh16 (Z.shiftr rd 3) rn rd] else [arm_mov REG_PROC 0 rd rn]).

Definition SHIFTED_ADD_SUB_I_BITS : Z := 8.
Definition SHIFTED_ADD_SUB_I_MASK : Z := Z.shiftl 1 SHIFTED_ADD_SUB_I_BITS - 1.
Definition SHIFTED_ADD_SUB_MAX : Z :=
  Z.lor SHIFTED_ADD_SUB_I_MASK (Z.shiftl SHIFTED_ADD_SUB_I_MASK SHIFTED_ADD_SUB_I_BITS).

(** [_emit_add_shift_imm] and [_emit_sub_shift_imm]. *)
Definition shift_imm (shift offset : Z) : Z := Z.lor (Z.shiftl (16 - shift / 2) 8) offset.

Definition arm_shifted (f : Z → Z → Z → Z → Z → emit) (rd rn offset : Z) : list emit :=
  let lo := negb (Z.land offset SHIFTED_ADD_SUB_I_MASK =? 0) in
  (if lo then [f IMM_PROC 0 rd rn (shift_imm 0 (Z.land offset SHIFTED_ADD_SUB_I_MASK))] else [])
  ++ (if negb (Z.land offset (Z.shiftl SHIFTED_ADD_SUB_I_MASK SHIFTED_ADD_SUB_I_BITS) =? 0)
      then [f IMM_PROC 0 rd (if lo then rd else rn)
              (shift_imm SHIFTED_ADD_SUB_I_BITS (Z.shiftr offset SHIFTED_ADD_SUB_I_BITS))]
      else []).

Definition emit_add_sub_i (rd rn offset : Z) : outcome (Z * list emit) :=
  if offset =? 0 then
    if negb (rd =? rn) then l ← emit_mov rd rn; Ok (0, l) else Ok (0, [])
  else if is_thumb then
    if (0xFFF <? offset) || (offset <? - 0xFFF) then Ok (-1, [])
    else if offset <? 0 then
      Ok (0, [thumb_subwi32 (Z.shiftr (- offset) 11) rn (Z.shiftr (- offset) 8) rd (- offset)])
    else Ok (0, [thumb_addwi32 (Z.shiftr offset 11) rn (Z.shiftr offset 8) rd offset])
  else if (offset <? - SHIFTED_ADD_SUB_MAX) || (SHIFTED_ADD_SUB_MAX <? offset) then Ok (-1, [])
  else if offset <? 0 then Ok (0, arm_shifted arm_sub rd rn (- offset))
  else Ok (0, arm_shifted arm_add rd rn offset).

Definition read_addr_to_pc (addr : Z) : Z := Z.land (u32 (u32 addr + 4)) 0xFFFFFFFC.

Definition _generate_addr (reg rn rm offset : Z) : outcome (list emit) :=
  c_assert (negb (rm =? pc) && negb (rm =? sp));;
  let apply_offset := if rn =? sp then s32 (plugin_pushed_reg_count c * 4) else 0 in
  let is_imm := (rm <=? - reg_invalid) || (reg_invalid <=? rm) in
  (* the base in a register, and what releases the temporary *)
  let '(before, rn, offset, after) :=
    if rn =? pc then
      let addr := read_addr_to_pc (read_address c) in
      let '(addr, offset) := if is_imm then (u32 (addr + offset), 0) else (addr, offset) in
      if reg =? rm then
        let rtmp := if reg =? 0 then 1 else 0 in
        (emit_push (Z.shiftl 1 rtmp) ++ emit_set_reg rtmp addr, rtmp, offset, emit_pop (Z.shiftl 1 rtmp))
      else (emit_set_reg reg addr, reg, offset, [])
    else ([], rn, offset, []) in
  sum ← (if is_imm then r ← emit_add_sub_i reg rn (offset + apply_offset); Ok (snd r)
         else
           let l := snd (emit_add_sub_shift reg rn rm (Z.land offset 3) (Z.shiftr offset 2)) in
           if negb (apply_offset =? 0) then
             c_assert ((apply_offset <=? 0xFFF) && (0 <? apply_offset));;
             r ← emit_add_sub_i reg reg apply_offset; Ok (l ++ snd r)
           else Ok l);
  Ok (before ++ sum ++ after).

(** ** Addresses

    What a case of the address functions does: a call of [_generate_addr], a
    constant, an assertion that fails, or nothing. *)
Inductive access :=
  | Generate (rn rm offset : Z)
  | Constant (addr : Z)
  | Unimplemented
  | NoAccess.

(** [-x] on an unsigned int, passed as an int. *)
Definition neg32 (x : Z) : Z := s32 (u32 (- x)).

Definition bits_of (x : Z) : Z := match count_bits x with Ok n => n | Err _ => 0 end.

Definition thumb_access16 (i : thumb_instruction) : access :=
  match i with
  | THUMB_LDMFD16 | THUMB_STMEA16 =>
      Generate (t16 THUMB_STMEA16 "a"%char) reg_invalid 0
  | THUMB_LDR16 | THUMB_LDRB16 | THUMB_LDRH16 | THUMB_LDRSB16 | THUMB_LDRSH16 | THUMB_STR16 | THUMB_STRB16
    | THUMB_STRH16 =>
      Generate (t16 THUMB_LDR16 "b"%char) (t16 THUMB_LDR16 "a"%char) 0
  | THUMB_LDRI16 | THUMB_LDRBI16 | THUMB_LDRHI16 | THUMB_STRI16 | THUMB_STRBI16 | THUMB_STRHI16 =>
      let imm5 := t16 THUMB_LDRI16 "a"%char in
      let imm5 := match i with
                  | THUMB_LDRI16 | THUMB_STRI16 => Z.shiftl imm5 2
                  | THUMB_LDRHI16 | THUMB_STRHI16 => Z.shiftl imm5 1
                  | _ => imm5
                  end in
      Generate (t16 THUMB_LDRI16 "b"%char) reg_invalid imm5
  | THUMB_LDR_PC_16 =>
      Constant (u32 (Z.land (u32 (u32 (read_address c) + 4)) (u32 (Z.lnot 3)) + Z.shiftl (t16 THUMB_LDR_PC_16 "b"%char) 2))
  | THUMB_LDR_SP16 | THUMB_STR_SP16 => Generate sp reg_invalid (Z.shiftl (t16 THUMB_LDR_SP16 "b"%char) 2)
  | THUMB_POP16 | THUMB_VFP_VPOP => Generate sp reg_invalid 0
  | THUMB_PUSH16 => Generate sp reg_invalid (neg32 (Z.shiftl (bits_of (t16 THUMB_PUSH16 "a"%char)) 2))
  | _ => NoAccess
  end.

Definition thumb_access32 (i : thumb_instruction) : access :=
  match i with
  | THUMB_LDMEA32 | THUMB_LDMFD32 | THUMB_STMEA32 | THUMB_STMFD32 =>
      let offset := match i with
                    | THUMB_LDMEA32 | THUMB_STMFD32 => Z.shiftl (bits_of (t32 THUMB_LDMEA32 "c"%char)) 2
                    | _ => 0
                    end in
      Generate (t32 THUMB_LDMEA32 "b"%char) reg_invalid (neg32 offset)
  | THUMB_LDR32 | THUMB_LDRB32 | THUMB_LDRH32 | THUMB_LDRSB32 | THUMB_LDRSH32 | THUMB_STR32 | THUMB_STRB32
    | THUMB_STRH32 =>
      Generate (t32 THUMB_LDR32 "a"%char) (t32 THUMB_LDR32 "d"%char) (Z.lor LSL (Z.shiftl (t32 THUMB_LDR32 "c"%char) 2))
  | THUMB_LDRI32 | THUMB_LDRBI32 | THUMB_LDRHI32 | THUMB_LDRSBI32 | THUMB_LDRSHI32 | THUMB_LDRT32
    | THUMB_LDRBT32 | THUMB_LDRHT32 | THUMB_LDRSBT32 | THUMB_LDRSHT32 | THUMB_STRI32 | THUMB_STRBI32
    | THUMB_STRHI32 | THUMB_STRT32 | THUMB_STRBT32 | THUMB_STRHT32 =>
      let imm8 := t32 THUMB_LDRI32 "e"%char in
      let imm8 := if t32 THUMB_LDRI32 "u"%char =? 0 then neg32 imm8 else imm8 in
      Generate (t32 THUMB_LDRI32 "c"%char) reg_invalid (if negb (t32 THUMB_LDRI32 "p"%char =? 0) then imm8 else 0)
  | THUMB_LDRWI32 | THUMB_LDRBWI32 | THUMB_LDRHWI32 | THUMB_LDRSBWI32 | THUMB_LDRSHWI32 | THUMB_STRWI32
    | THUMB_STRBWI32 | THUMB_STRHWI32 => Generate (t32 THUMB_LDRWI32 "c"%char) reg_invalid (t32 THUMB_LDRWI32 "e"%char)
  | THUMB_LDRD32 | THUMB_STRD32 =>
      let imm8 := Z.shiftl (t32 THUMB_LDRD32 "g"%char) 2 in
      let imm8 := if t32 THUMB_LDRD32 "b"%char =? 0 then neg32 imm8 else imm8 in
      Generate (t32 THUMB_LDRD32 "d"%char) reg_invalid (if negb (t32 THUMB_LDRD32 "a"%char =? 0) then imm8 else 0)
  | THUMB_LDRBL32 | THUMB_LDRHL32 | THUMB_LDRL32 | THUMB_LDRSBL32 | THUMB_LDRSHL32 =>
      let imm12 := t32 THUMB_LDRL32 "e"%char in
      Constant (u32 (read_addr_to_pc (read_address c)
                     + (if negb (t32 THUMB_LDRL32 "a"%char =? 0) then imm12 else u32 (- imm12))))
  | THUMB_VFP_VPUSH => Generate sp reg_invalid (neg32 (4 * t32 THUMB_VFP_VPUSH "b"%char))
  | THUMB_STREX32 | THUMB_LDREX32 => Generate (t32 THUMB_STREX32 "a"%char) reg_invalid (Z.shiftl (t32 THUMB_STREX32 "d"%char) 2)
  | THUMB_VFP_VLDM_SP | THUMB_VFP_VLDM_DP | THUMB_VFP_VSTM_SP | THUMB_VFP_VSTM_DP =>
      let p := t32 THUMB_VFP_VSTM_DP "p"%char in
      let u := t32 THUMB_VFP_VSTM_DP "u"%char in
      if p =? u then Unimplemented
      else Generate (t32 THUMB_VFP_VSTM_DP "a"%char) reg_invalid
             (if u =? 0 then - bits_of (t32 THUMB_VFP_VSTM_DP "c"%char) * 4 else 0)
  | THUMB_VFP_VLDR_SP | THUMB_VFP_VLDR_DP | THUMB_VFP_VSTR_SP | THUMB_VFP_VSTR_DP =>
      let imm8 := t32 THUMB_VFP_VSTR_SP "c"%char in
      let imm8 := if t32 THUMB_VFP_VSTR_SP "u"%char =? 0 then u32 (- imm8) else imm8 in
      Generate (t32 THUMB_VFP_VSTR_SP "a"%char) reg_invalid (s32 (u32 (Z.shiftl imm8 2)))
  | THUMB_LDREXB32 | THUMB_LDREXD32 | THUMB_LDREXH32 | THUMB_STREXB32 | THUMB_STREXD32 | THUMB_STREXH32 => Generate (t32 THUMB_LDREXB32 "a"%char) reg_invalid 0
  | THUMB_NEON_VLDX_M | THUMB_NEON_VLDX_S_O | THUMB_NEON_VLDX_S_A | THUMB_NEON_VSTX_M | THUMB_NEON_VSTX_S_O => Generate (t32 THUMB_NEON_VLDX_M "b"%char) reg_invalid 0
  | THUMB_LDC32 | THUMB_LDC232 | THUMB_STC32 | THUMB_STC232 => Unimplemented
  | _ => NoAccess
  end.

Definition thumb_access (i : thumb_instruction) : access :=
  match thumb_access16 i with NoAccess => thumb_access32 i | a => a end.

(** The results [rm] and [imm] of [_decode_arm]. *)
Definition _decode_arm (is_imm : bool) (p u op2 : Z) : Z * Z :=
  if negb (p =? 0) then
    if is_imm then (reg_invalid, if negb (u =? 0) then op2 else neg32 op2)
    else
      let rm := Z.land op2 0xF in
      (if u =? 0 then - rm else rm, Z.shiftr op2 5)
  else (reg_invalid, 0).

Definition arm_access (i : arm_instruction) : access :=
  match i with
  | ARM_LDR | ARM_STR | ARM_LDRB | ARM_STRB | ARM_LDRT | ARM_STRT | ARM_LDRBT | ARM_STRBT =>
      let '(rm, imm) := _decode_arm (a32 ARM_STR "b"%char =? IMM_LDR) (a32 ARM_STR "c"%char) (a32 ARM_STR "d"%char)
                          (a32 ARM_STR "h"%char) in
      Generate (a32 ARM_STR "f"%char) rm imm
  | ARM_LDRD | ARM_STRD | ARM_LDRH | ARM_STRH | ARM_LDRSB | ARM_LDRSH | ARM_LDRHT | ARM_STRHT | ARM_LDRSBT
    | ARM_LDRSHT =>
      let i := a32 ARM_LDRD "d"%char in
      let '(rm, imm) := _decode_arm (negb (i =? 0)) (a32 ARM_LDRD "b"%char) (a32 ARM_LDRD "c"%char)
                          (Z.lor (Z.shiftl (a32 ARM_LDRD "h"%char) 4) (a32 ARM_LDRD "i"%char)) in
      Generate (a32 ARM_LDRD "f"%char) rm (if i =? 0 then 0 else imm)
  | ARM_LDM | ARM_STM =>
      let u := a32 ARM_STM "c"%char in
      let offset := if negb (u =? 0) then 0 else -4 * (bits_of (a32 ARM_STM "g"%char) - 1) in
      Generate (a32 ARM_STM "f"%char) reg_invalid
        (if negb (a32 ARM_STM "b"%char =? 0) then offset + (if negb (u =? 0) then 4 else -4) else offset)
  | ARM_NEON_VLDX_M | ARM_NEON_VLDX_S_O | ARM_NEON_VLDX_S_A | ARM_NEON_VSTX_M | ARM_NEON_VSTX_S_O => Generate (a32 ARM_NEON_VLDX_M "b"%char) reg_invalid 0
  | ARM_LDREX | ARM_LDREXB | ARM_LDREXD | ARM_LDREXH | ARM_STREX | ARM_STREXB | ARM_STREXD | ARM_STREXH => Generate (a32 ARM_LDREX "b"%char) reg_invalid 0
  | ARM_VFP_VLDM_DP | ARM_VFP_VLDM_SP | ARM_VFP_VSTM_DP | ARM_VFP_VSTM_SP | ARM_VFP_VPOP_DP | ARM_VFP_VPOP_SP
    | ARM_VFP_VPUSH_DP | ARM_VFP_VPUSH_SP =>
      let p := a32 ARM_VFP_VLDM_DP "b"%char in
      let u := a32 ARM_VFP_VLDM_DP "c"%char in
      if p =? u then Unimplemented
      else Generate (a32 ARM_VFP_VLDM_DP "f"%char) reg_invalid
             (if negb (u =? 0) then 0 else neg32 (Z.shiftl (a32 ARM_VFP_VLDM_DP "h"%char) 2))
  | ARM_VFP_VLDR_DP | ARM_VFP_VLDR_SP | ARM_VFP_VSTR_DP | ARM_VFP_VSTR_SP =>
      let imm8 := a32 ARM_VFP_VLDR_DP "f"%char in
      let imm8 := if a32 ARM_VFP_VLDR_DP "b"%char =? 0 then u32 (- imm8) else imm8 in
      Generate (a32 ARM_VFP_VLDR_DP "d"%char) reg_invalid (s32 (u32 (Z.shiftl imm8 2)))
  | ARM_LDC | ARM_STC => Unimplemented
  | _ => NoAccess
  end.

Definition calc_access (reg : Z) (a : access) : outcome (Z * list emit) :=
  match a with
  | Generate rn rm offset => l ← _generate_addr reg rn rm offset; Ok (0, l)
  | Constant addr => Ok (0, emit_thumb_copy_to_reg_32bit reg addr)
  | Unimplemented => Err AssertFail
  | NoAccess => Ok (-1, [])
  end.

Definition _thumb_calc_ld_st_addr (i : thumb_instruction) (reg : Z) : outcome (Z * list emit) :=
  calc_access reg (thumb_access i).
Definition _arm_calc_ld_st_addr (i : arm_instruction) (reg : Z) : outcome (Z * list emit) :=
  calc_access reg (arm_access i).

Definition mambo_calc_ld_st_addr (reg : Z) : outcome (Z * list emit) :=
  match code_inst c with
  | Some (Thumb i) => _thumb_calc_ld_st_addr i reg
  | Some (Arm i) => _arm_calc_ld_st_addr i reg
  | None => Ok (-1, [])
  end.

(** ** Sizes *)

Definition _get_size_vldx_vstx_m (op : Z) : outcome Z :=
  regs ← match op with
         | 0x7 => Ok 1
         | 0x8 | 0x9 | 0xA => Ok 2
         | 0x4 | 0x5 | 0x6 => Ok 3
         | 0x0 | 0x1 | 0x2 | 0x3 => Ok 4
         | _ => Err Exit
         end;
  Ok (regs * 8).

Definition _thumb_get_ld_st_size (i : thumb_instruction) : outcome Z :=
  match i with
  | THUMB_LDRB16 | THUMB_LDRBI16 | THUMB_LDRSB16 | THUMB_STRB16 | THUMB_STRBI16 | THUMB_LDRB32 | THUMB_LDRBI32
    | THUMB_LDRBL32 | THUMB_LDRBT32 | THUMB_LDRBWI32 | THUMB_LDRSB32 | THUMB_LDRSBI32 | THUMB_LDRSBL32
    | THUMB_LDRSBT32 | THUMB_LDRSBWI32 | THUMB_STRB32 | THUMB_STRBI32 | THUMB_STRBT32 | THUMB_STRBWI32
    | THUMB_LDREXB32 | THUMB_STREXB32 => Ok 1
  | THUMB_LDRH16 | THUMB_LDRHI16 | THUMB_LDRSH16 | THUMB_STRH16 | THUMB_STRHI16 | THUMB_LDRH32 | THUMB_LDRHI32
    | THUMB_LDRHL32 | THUMB_LDRHT32 | THUMB_LDRHWI32 | THUMB_LDRSH32 | THUMB_LDRSHI32 | THUMB_LDRSHL32
    | THUMB_LDRSHT32 | THUMB_LDRSHWI32 | THUMB_STRH32 | THUMB_STRHI32 | THUMB_STRHT32 | THUMB_STRHWI32
    | THUMB_LDREXH32 | THUMB_STREXH32 => Ok 2
  | THUMB_LDR16 | THUMB_LDRI16 | THUMB_LDR_PC_16 | THUMB_LDR_SP16 | THUMB_STR16 | THUMB_STRI16 | THUMB_STR_SP16
    | THUMB_LDR32 | THUMB_LDRI32 | THUMB_LDRL32 | THUMB_LDRT32 | THUMB_LDRWI32 | THUMB_STR32 | THUMB_STRI32
    | THUMB_STRT32 | THUMB_STRWI32 | THUMB_LDREX32 | THUMB_STREX32 | THUMB_VFP_VLDR_SP | THUMB_VFP_VSTR_SP => Ok 4
  | THUMB_LDRD32 | THUMB_STRD32 | THUMB_LDREXD32 | THUMB_STREXD32 | THUMB_VFP_VLDR_DP | THUMB_VFP_VSTR_DP => Ok 8
  | THUMB_LDMFD32 | THUMB_STMFD32 | THUMB_LDMEA32 | THUMB_STMEA32 => Ok (bits_of (t32 THUMB_STMFD32 "c"%char) * 4)
  | THUMB_LDMFD16 | THUMB_STMEA16 => Ok (bits_of (t16 THUMB_LDMFD16 "b"%char) * 4)
  | THUMB_PUSH16 | THUMB_POP16 => Ok (bits_of (t16 THUMB_PUSH16 "a"%char) * 4)
  | THUMB_VFP_VPUSH | THUMB_VFP_VPOP | THUMB_VFP_VLDM_DP | THUMB_VFP_VLDM_SP | THUMB_VFP_VSTM_DP
    | THUMB_VFP_VSTM_SP => Ok (t32 THUMB_VFP_VPUSH "b"%char * 4)
  | THUMB_NEON_VLDX_S_O | THUMB_NEON_VSTX_S_O =>
      Ok (Z.shiftl 1 (t32 THUMB_NEON_VLDX_S_O "d"%char) * (t32 THUMB_NEON_VLDX_S_O "e"%char + 1))
  | THUMB_NEON_VLDX_S_A =>
      Ok (Z.shiftl 1 (t32 THUMB_NEON_VLDX_S_A "e"%char) * (t32 THUMB_NEON_VLDX_S_A "d"%char + 1))
  | THUMB_NEON_VLDX_M | THUMB_NEON_VSTX_M => _get_size_vldx_vstx_m (t32 THUMB_NEON_VLDX_M "d"%char)
  | THUMB_LDC232 | THUMB_LDC32 | THUMB_STC32 | THUMB_STC232 => Err AssertFail
  | _ => Ok (-1)
  end.

Definition _arm_get_ld_st_size (i : arm_instruction) : outcome Z :=
  match i with
  | ARM_LDRB | ARM_LDRBT | ARM_LDRSB | ARM_LDRSBT | ARM_STRB | ARM_STRBT | ARM_LDREXB | ARM_STREXB => Ok 1
  | ARM_LDRH | ARM_LDRHT | ARM_LDRSH | ARM_LDRSHT | ARM_STRH | ARM_STRHT | ARM_LDREXH | ARM_STREXH => Ok 2
  | ARM_LDR | ARM_LDRT | ARM_STR | ARM_STRT | ARM_LDREX | ARM_STREX | ARM_VFP_VLDR_SP | ARM_VFP_VSTR_SP => Ok 4
  | ARM_LDRD | ARM_STRD | ARM_LDREXD | ARM_STREXD | ARM_VFP_VLDR_DP | ARM_VFP_VSTR_DP => Ok 8
  | ARM_LDM | ARM_STM => Ok (bits_of (a32 ARM_LDM "g"%char) * 4)
  | ARM_VFP_VLDM_DP | ARM_VFP_VLDM_SP | ARM_VFP_VSTM_DP | ARM_VFP_VSTM_SP | ARM_VFP_VPUSH_DP | ARM_VFP_VPUSH_SP
    | ARM_VFP_VPOP_DP | ARM_VFP_VPOP_SP => Ok (a32 ARM_VFP_VLDM_SP "h"%char * 4)
  | ARM_NEON_VLDX_S_O | ARM_NEON_VSTX_S_O =>
      Ok (Z.shiftl 1 (a32 ARM_NEON_VLDX_S_O "d"%char) * (a32 ARM_NEON_VLDX_S_O "e"%char + 1))
  | ARM_NEON_VLDX_S_A =>
      Ok (Z.shiftl 1 (a32 ARM_NEON_VLDX_S_A "e"%char) * (a32 ARM_NEON_VLDX_S_A "d"%char + 1))
  | ARM_NEON_VLDX_M | ARM_NEON_VSTX_M => _get_size_vldx_vstx_m (a32 ARM_NEON_VLDX_M "d"%char)
  | ARM_LDC | ARM_STC => Err AssertFail
  | _ => Ok (-1)
  end.

Definition mambo_get_ld_st_size : outcome Z :=
  match code_inst c with
  | Some (Thumb i) => _thumb_get_ld_st_size i
  | Some (Arm i) => _arm_get_ld_st_size i
  | None => Ok (-1)
  end.
End operations.

(** ** The meaning of the emitted code

    The registers and the carry flag. Saving a temporary on the stack, which is
    only needed for an index register relative to [pc], is given no meaning. *)

Record machine32 := MkM32 { ar : Z → Z; cf : bool }.

Definition set32 (rd v : Z) (s : machine32) : machine32 :=
  MkM32 (λ r, if r =? rd then u32 v else ar s r) (cf s).

Definition ror32 (x n : Z) : Z := u32 (x / 2 ^ n + x * 2 ^ (32 - n)).

(** [Shift] of the manual with an immediate amount. *)
Definition shifted (carry : bool) (type n x : Z) : Z :=
  match type with
  | 0 => x * 2 ^ n
  | 1 => if n =? 0 then 0 else x / 2 ^ n
  | 2 => signed 32 x / 2 ^ (if n =? 0 then 32 else n)
  | _ => if n =? 0 then (if carry then 2 ^ 31 else 0) + x / 2 else ror32 x n
  end.

Definition operand2_value (s : machine32) (immediate op2 : Z) : Z :=
  if immediate =? 1 then ror32 (slice 0 8 op2) (2 * slice 8 4 op2)
  else shifted (cf s) (slice 5 2 op2) (slice 7 5 op2) (ar s (slice 0 4 op2)).

Definition exec32 (i : emit) (s : machine32) : option machine32 :=
  match i with
  | thumb_addwi32 imm1 rn imm3 rd imm8 =>
      Some (set32 rd (ar s rn + (slice 0 1 imm1 * 2048 + slice 0 3 imm3 * 256 + slice 0 8 imm8)) s)
  | thumb_subwi32 imm1 rn imm3 rd imm8 =>
      Some (set32 rd (ar s rn - (slice 0 1 imm1 * 2048 + slice 0 3 imm3 * 256 + slice 0 8 imm8)) s)
  | thumb_add32 0 rn imm3 rd imm2 type rm =>
      Some (set32 rd (ar s rn + shifted (cf s) (slice 0 2 type) (slice 0 3 imm3 * 4 + slice 0 2 imm2) (ar s rm)) s)
  | thumb_sub32 0 rn imm3 rd imm2 type rm =>
      Some (set32 rd (ar s rn - shifted (cf s) (slice 0 2 type) (slice 0 3 imm3 * 4 + slice 0 2 imm2) (ar s rm)) s)
  | thumb_movh16 dn rm rdn => Some (set32 (slice 0 1 dn * 8 + slice 0 3 rdn) (ar s rm) s)
  | thumb_movwi32 imm1 imm4 imm3 rd imm8 =>
      Some (set32 rd (slice 0 4 imm4 * 4096 + slice 0 1 imm1 * 2048 + slice 0 3 imm3 * 256 + slice 0 8 imm8) s)
  | thumb_movti32 imm1 imm4 imm3 rd imm8 =>
      Some (set32 rd (slice 0 16 (ar s rd)
        + (slice 0 4 imm4 * 4096 + slice 0 1 imm1 * 2048 + slice 0 3 imm3 * 256 + slice 0 8 imm8) * 2 ^ 16) s)
  | arm_add im 0 rd rn op2 => Some (set32 rd (ar s rn + operand2_value s im op2) s)
  | arm_sub im 0 rd rn op2 => Some (set32 rd (ar s rn - operand2_value s im op2) s)
  | arm_mov im 0 rd op2 => Some (set32 rd (operand2_value s im op2) s)
  | arm_movw rd imm4 imm12 => Some (set32 rd (slice 0 4 imm4 * 4096 + slice 0 12 imm12) s)
  | arm_movt rd imm4 imm12 =>
      Some (set32 rd (slice 0 16 (ar s rd) + (slice 0 4 imm4 * 4096 + slice 0 12 imm12) * 2 ^ 16) s)
  | _ => None
  end.

Fixpoint run32 (l : list emit) (s : machine32) : option machine32 :=
  match l with [] => Some s | i :: l => s ← exec32 i s; run32 l s end.

Definition ok32 (s : machine32) : Prop := ∀ r, 0 ≤ ar s r < 2 ^ 32.

(** Code that puts [v] into [reg] and changes nothing else. *)
Definition computes32 (l : list emit) (reg : Z) (s : machine32) (v : Z) : Prop :=
  ∃ s', run32 l s = Some s' ∧ ar s' reg = u32 v ∧ cf s' = cf s ∧ ∀ r, r ≠ reg → ar s' r = ar s r.

Lemma computes32_ext l reg s v w : u32 v = u32 w → computes32 l reg s v → computes32 l reg s w.
Proof. unfold computes32. by intros ->. Qed.

Lemma write32 i reg v s : exec32 i s = Some (set32 reg v s) → computes32 [i] reg s v.
Proof.
  intros Hi. exists (set32 reg v s). simpl. rewrite Hi. unfold set32. simpl. rewrite Z.eqb_refl.
  split_and!; [done..|]. intros r Hr. by rewrite (proj2 (Z.eqb_neq r reg)).
Qed.

Lemma run32_app l1 l2 s : run32 (l1 ++ l2) s = (s' ← run32 l1 s; run32 l2 s').
Proof. revert s. induction l1 as [|i l1 IH]; intros s; [done|]. simpl. destruct (exec32 i s); simpl; [apply IH | done]. Qed.

Lemma computes32_app l1 l2 reg s v w :
  computes32 l1 reg s v →
  (∀ s', ar s' reg = u32 v → cf s' = cf s → (∀ r, r ≠ reg → ar s' r = ar s r) → computes32 l2 reg s' w) →
  computes32 (l1 ++ l2) reg s w.
Proof.
  intros (s1 & Hr1 & Hv & Hc & Ho) H2. destruct (H2 s1) as (s2 & Hr2 & Hw & Hc2 & Ho2); [done..|].
  exists s2. rewrite run32_app, Hr1. simpl. split_and!; [done | done | by rewrite Hc2 |].
  intros r Hr. by rewrite Ho2, Ho.
Qed.

Lemma u32_l x y : u32 (u32 x + y) = u32 (x + y).
Proof. unfold u32. by rewrite Zplus_mod_idemp_l. Qed.

Lemma u32_u32 x : u32 (u32 x) = u32 x.
Proof. unfold u32. apply Zmod_mod. Qed.

(** *** Pieces of numbers *)

(** The T32 immediate of twelve bits. *)
Lemma imm12_pieces x : 0 ≤ x < 4096 → slice 11 1 x * 2048 + slice 8 3 x * 256 + slice 0 8 x = x.
Proof.
  intros Hx. rewrite <- (slice_0_small 12 x) at 4 by done. change 12 with (8 + (3 + 1)).
  rewrite !slice_split by done. change (0 + 8) with 8. change (8 + 3) with 11. lia.
Qed.

(** *** Additions *)

Definition sgn32 (op x : Z) : Z := if op =? 0 then x else - x.

Lemma rotated_imm x :
  0 ≤ x < 256 →
  ror32 (slice 0 8 (shift_imm 0 x)) (2 * slice 8 4 (shift_imm 0 x)) = x
  ∧ ror32 (slice 0 8 (shift_imm 8 x)) (2 * slice 8 4 (shift_imm 8 x)) = x * 256.
Proof.
  intros Hx.
  assert (forall_range 0 256 (λ x,
    (ror32 (slice 0 8 (shift_imm 0 x)) (2 * slice 8 4 (shift_imm 0 x)) =? x)
    && (ror32 (slice 0 8 (shift_imm 8 x)) (2 * slice 8 4 (shift_imm 8 x)) =? x * 256)) = true) as Hall by by vm_compute.
  pose proof (forall_range_spec _ _ _ x Hall ltac:(lia)) as H. simpl in H. lia.
Qed.

Lemma register_pieces r : 0 ≤ r < 16 →
  slice 0 1 (Z.shiftr r 3) * 8 + slice 0 3 r = r ∧ slice 0 4 r = r ∧ slice 5 2 r = 0 ∧ slice 7 5 r = 0.
Proof.
  intros Hr.
  assert (forall_range 0 16 (λ r, (slice 0 1 (Z.shiftr r 3) * 8 + slice 0 3 r =? r) && (slice 0 4 r =? r)
    && (slice 5 2 r =? 0) && (slice 7 5 r =? 0)) = true) as Hall by by vm_compute.
  pose proof (forall_range_spec _ _ _ r Hall ltac:(lia)) as H. simpl in H. lia.
Qed.

(** ADD (op 0) or SUB (op 1) of the A32 immediates. *)
Definition arm_op (op : Z) : Z → Z → Z → Z → Z → emit := if op =? 0 then arm_add else arm_sub.

Lemma exec_arm_op op im rd rn op2 s :
  exec32 (arm_op op im 0 rd rn op2) s = Some (set32 rd (ar s rn + sgn32 op (operand2_value s im op2)) s).
Proof. unfold arm_op, sgn32. by destruct (op =? 0). Qed.

Lemma arm_shifted_computes op rd rn off s :
  0 < off < 2 ^ 16 → computes32 (arm_shifted (arm_op op) rd rn off) rd s (ar s rn + sgn32 op off).
Proof.
  intros Ho. unfold arm_shifted.
  change SHIFTED_ADD_SUB_I_MASK with (2 ^ 8 - 1). change SHIFTED_ADD_SUB_I_BITS with 8.
  rewrite land_upper, (land_pow2_mask off 8), Z.shiftr_div_pow2 by (change (2 * 8) with 16; lia). change (2 ^ 8) with 256.
  destruct (rotated_imm (off mod 256)) as [Elo _]; [Z.div_mod_to_equations; lia|].
  destruct (rotated_imm (off / 256)) as [_ Ehi]; [Z.div_mod_to_equations; lia|].
  assert (off = off mod 256 + off / 256 * 256) as Hdm by (Z.div_mod_to_equations; lia).
  assert (∀ s' rn, exec32 (arm_op op IMM_PROC 0 rd rn (shift_imm 0 (off mod 256))) s'
            = Some (set32 rd (ar s' rn + sgn32 op (off mod 256)) s')) as Xlo.
  { intros s' r. rewrite exec_arm_op. unfold operand2_value. change (IMM_PROC =? 1) with true. cbn iota. by rewrite Elo. }
  assert (∀ s' rn, exec32 (arm_op op IMM_PROC 0 rd rn (shift_imm 8 (off / 256))) s'
            = Some (set32 rd (ar s' rn + sgn32 op (off / 256 * 256)) s')) as Xhi.
  { intros s' r. rewrite exec_arm_op. unfold operand2_value. change (IMM_PROC =? 1) with true. cbn iota. by rewrite Ehi. }
  destruct (Z.eqb_spec (off mod 256) 0) as [Hl|Hl]; cbn [negb].
  - replace (off / 256 =? 0) with false by lia. cbn [negb app].
    eapply computes32_ext; [|apply write32, Xhi]. f_equal. unfold sgn32. case_match; lia.
  - destruct (Z.eqb_spec (off / 256) 0) as [Hh|Hh]; cbn [negb].
    + rewrite app_nil_r. eapply computes32_ext; [|apply write32, Xlo]. f_equal. unfold sgn32. case_match; lia.
    + eapply computes32_app; [apply write32, Xlo|]. intros s' Hv _ _.
      eapply computes32_ext; [|apply write32, Xhi]. rewrite Hv, u32_l. f_equal. unfold sgn32. case_match; lia.
Qed.

(** The offsets that one or two instructions can add. *)
Definition add_limit (c : ctx32) : Z := if is_thumb c then 0xFFF else 0xFFFF.

Lemma add_sub_i32 c rd rn off s :
  0 ≤ rd < 15 → 0 ≤ rn < 15 → - add_limit c ≤ off ≤ add_limit c → ok32 s →
  ∃ l, emit_add_sub_i c rd rn off = Ok (0, l) ∧ computes32 l rd s (ar s rn + off).
Proof.
  intros Hd Hn Ho Hs. unfold emit_add_sub_i, add_limit in *. destruct (Z.eqb_spec off 0) as [->|Hne].
  - rewrite Z.add_0_r. destruct (Z.eqb_spec rd rn) as [<-|Hrn]; cbn [negb].
    + exists []. split; [done|]. exists s. split_and!; [done | | done | done]. by rewrite u32_small by apply Hs.
    + unfold emit_mov. change pc with 15. replace ((0 <=? rd) && (rd <? 15) && (0 <=? rn) && (rn <? 15)) with true by lia.
      cbn [c_assert mbind outcome_bind]. eexists. split; [done|].
      destruct (register_pieces rd) as (Erd & _); [lia|]. destruct (register_pieces rn) as (_ & Ern & Et & Ea); [lia|].
      destruct (is_thumb c); apply write32; cbn [exec32].
      * by rewrite Erd.
      * unfold operand2_value. change (REG_PROC =? 1) with false. cbn iota. rewrite Ern, Et, Ea. cbn [shifted].
        by rewrite Z.mul_1_r.
  - destruct (is_thumb c).
    + replace ((0xFFF <? off) || (off <? - 0xFFF)) with false by lia.
      destruct (Z.ltb_spec off 0); (eexists; split; [done|]); (eapply computes32_ext; [|by apply write32]);
        rewrite !slice_shiftr, imm12_pieces by lia; f_equal; lia.
    + change SHIFTED_ADD_SUB_MAX with 0xFFFF. replace ((off <? - (0xFFFF)) || (0xFFFF <? off)) with false by lia.
      destruct (Z.ltb_spec off 0); (eexists; split; [done|]).
      * eapply computes32_ext; [|apply (arm_shifted_computes 1); lia]. f_equal. unfold sgn32. simpl. lia.
      * apply (arm_shifted_computes 0); lia.
Qed.

(** *** Shifted registers *)

Lemma operand2_pieces rm type n :
  0 ≤ rm < 16 → 0 ≤ type < 4 → 0 ≤ n < 32 →
  let op2 := Z.lor (Z.lor rm (Z.shiftl type 5)) (Z.shiftl n 7) in
  slice 0 4 op2 = rm ∧ slice 5 2 op2 = type ∧ slice 7 5 op2 = n.
Proof.
  intros Hm Ht Hn op2.
  assert (forall_range 0 16 (λ rm, forall_range 0 4 (λ type, forall_range 0 32 (λ n,
    let op2 := Z.lor (Z.lor rm (Z.shiftl type 5)) (Z.shiftl n 7) in
    (slice 0 4 op2 =? rm) && (slice 5 2 op2 =? type) && (slice 7 5 op2 =? n)))) = true) as Hall by by vm_compute.
  pose proof (forall_range_spec _ _ _ rm Hall ltac:(lia)) as H1. simpl in H1.
  pose proof (forall_range_spec _ _ _ type H1 ltac:(lia)) as H2. simpl in H2.
  pose proof (forall_range_spec _ _ _ n H2 ltac:(lia)) as H3. simpl in H3. fold op2 in H3. lia.
Qed.

(** [rm] is negative for a register that is subtracted. *)
Lemma add_sub_shift32 c rd rn rm (sub : bool) type n s :
  0 ≤ rm < 16 → (sub = true → rm ≠ 0) → 0 ≤ type < 4 → 0 ≤ n < 32 →
  computes32 (snd (emit_add_sub_shift c rd rn (if sub then - rm else rm) type n)) rd s
    (ar s rn + (if sub then -1 else 1) * shifted (cf s) type n (ar s rm)).
Proof.
  intros Hm Hsub Ht Hn. unfold emit_add_sub_shift, emit_thumb_add_sub_shift, emit_arm_add_sub_shift.
  rewrite (u32_small type), (u32_small n) by lia. change ROR with 3.
  replace ((31 <? n) || (3 <? type)) with false by lia.
  destruct (operand2_pieces rm type n) as (E1 & E2 & E3); [done..|].
  assert (slice 0 3 (Z.shiftr n 2) * 4 + slice 0 2 n = n) as E4.
  { rewrite slice_shiftr by done. rewrite <- (slice_0_small 5 n) at 3 by lia. change 5 with (2 + 3).
    rewrite slice_split by done. change (0 + 2) with 2. lia. }
  assert (slice 0 2 type = type) as E5 by (apply slice_0_small; lia).
  replace ((if sub then - rm else rm) <? 0) with sub by (destruct sub; [specialize (Hsub eq_refl)|]; lia).
  destruct (is_thumb c), sub; cbn [snd]; (eapply computes32_ext; [|by apply write32]); rewrite ?Z.opp_involutive.
  all: try (rewrite E4, E5; f_equal; lia).
  all: unfold operand2_value; change (REG_PROC =? 1) with false; cbn iota; rewrite E1, E2, E3; f_equal; lia.
Qed.

(** *** Constants *)

Lemma slice_16 x : slice 12 4 x * 4096 + slice 11 1 x * 2048 + slice 8 3 x * 256 + slice 0 8 x = slice 0 16 x.
Proof.
  change 16 with (8 + (3 + (1 + 4))). rewrite !slice_split by done.
  change (0 + 8) with 8. change (8 + 3) with 11. change (11 + 1) with 12. lia.
Qed.

Lemma thumb_pieces x :
  slice 0 4 (Z.land (Z.shiftr x 12) 0xF) * 4096 + slice 0 1 (Z.land (Z.shiftr x 11) 0x1) * 2048
  + slice 0 3 (Z.land (Z.shiftr x 8) 0x7) * 256 + slice 0 8 (Z.land x 0xFF) = slice 0 16 x.
Proof.
  change 0xF with (2 ^ 4 - 1). change 0x1 with (2 ^ 1 - 1). change 0x7 with (2 ^ 3 - 1). change 0xFF with (2 ^ 8 - 1).
  rewrite !shiftr_slice, (land_pow2_mask x 8), <- slice_0, !slice_small_slice by done. apply slice_16.
Qed.

Lemma slice_32 x : 0 ≤ x < 2 ^ 32 → slice 0 16 x + slice 16 16 x * 2 ^ 16 = x.
Proof.
  intros Hx. rewrite <- (slice_0_small 32 x) at 3 by done. change 32 with (16 + 16).
  rewrite slice_split by done. change (0 + 16) with 16. lia.
Qed.

(** A MOVT above a MOVW. *)
Lemma movt_computes l i reg v s :
  0 ≤ v < 2 ^ 32 → computes32 l reg s (slice 0 16 v) →
  (∀ s', exec32 i s' = Some (set32 reg (slice 0 16 (ar s' reg) + slice 16 16 v * 2 ^ 16) s')) →
  computes32 (l ++ [i]) reg s v.
Proof.
  intros Hv Hl Hi. eapply computes32_app; [done|]. intros s' Hs _ _.
  eapply computes32_ext; [|apply write32, Hi]. rewrite Hs. f_equal.
  rewrite <- (slice_32 v) at 3 by done. f_equal.
  rewrite (u32_small (slice 0 16 v)) by (pose proof (slice_range 0 16 v ltac:(lia)); lia). by apply slice_slice.
Qed.

Lemma slice_low16 v : 0 ≤ v ≤ 0xFFFF → slice 0 16 v = v.
Proof. intros. apply slice_0_small. lia. Qed.

Lemma thumb_set_reg reg v s : 0 ≤ v < 2 ^ 32 → computes32 (emit_thumb_copy_to_reg_32bit reg v) reg s v.
Proof.
  intros Hv. unfold emit_thumb_copy_to_reg_32bit.
  assert (computes32 (copy_to_reg_16bit reg v) reg s (slice 0 16 v)) as Hlo.
  { eapply computes32_ext; [|apply write32; reflexivity]. by rewrite thumb_pieces. }
  destruct (Z.leb_spec v 0xFFFF); [by rewrite slice_low16 in Hlo by lia|].
  apply (movt_computes [_]); [done..|]. intros s'. unfold thumb_copy. cbn [exec32].
  by rewrite thumb_pieces, slice_shiftr.
Qed.

Lemma arm_set_reg reg v s : 0 ≤ v < 2 ^ 32 → computes32 (emit_arm_copy_to_reg_32bit reg v) reg s v.
Proof.
  intros Hv. unfold emit_arm_copy_to_reg_32bit, arm_copy_to_reg_16bit, arm_copy_to_reg_32bit.
  change 0xF with (2 ^ 4 - 1). change 0xFFF with (2 ^ 12 - 1).
  rewrite !shiftr_slice, (land_pow2_mask v 12), <- slice_0 by done.
  assert (∀ p, 0 ≤ p → slice (p + 12) 4 v * 4096 + slice p 12 v = slice p 16 v) as H16.
  { intros p Hp. change 16 with (12 + 4). rewrite (slice_split p 12 4) by lia. lia. }
  assert (computes32 [arm_movw reg (slice 12 4 v) (slice 0 12 v)] reg s (slice 0 16 v)) as Hlo.
  { eapply computes32_ext; [|apply write32; reflexivity]. rewrite slice_small_slice, slice_slice by done.
    f_equal. exact (H16 0 ltac:(lia)). }
  destruct (Z.leb_spec v 0xFFFF); [by rewrite slice_low16 in Hlo by lia|].
  apply (movt_computes [_]); [done..|]. intros s'. cbn [exec32].
  pose proof (H16 16 ltac:(lia)) as E. change (16 + 12) with 28 in E.
  by rewrite slice_shiftr, slice_small_slice, E.
Qed.

Lemma set_reg32 c reg v s : 0 ≤ v < 2 ^ 32 → computes32 (emit_set_reg c reg v) reg s v.
Proof. intros. unfold emit_set_reg. destruct (is_thumb c); [by apply thumb_set_reg | by apply arm_set_reg]. Qed.

(** *** Generated addresses *)

Definition pushed_bytes32 (c : ctx32) (rn : Z) : Z := if rn =? 13 then 4 * plugin_pushed_reg_count c else 0.

(** [Align(address + 4, 4)], the value of [pc] in T32 accesses. *)
Definition thumb_pc (c : ctx32) : Z := (read_address c + 4) / 4 * 4.

Lemma read_addr_to_pc_spec c : 0 ≤ read_address c < 2 ^ 32 → read_addr_to_pc (read_address c) = u32 (thumb_pc c).
Proof.
  intros Hr. unfold read_addr_to_pc, thumb_pc. rewrite (u32_small (read_address c)) by done.
  change 0xFFFFFFFC with (Z.shiftl (2 ^ 30 - 1) 2). rewrite land_high by (lia || apply u32_range).
  unfold u32. change (2 ^ 2) with 4. change (2 ^ 32) with 4294967296. clear Hr.
  generalize (read_address c + 4). intros x. Z.div_mod_to_equations. lia.
Qed.

Lemma generate_imm32 c reg rn off s :
  0 ≤ reg < 15 → 0 ≤ rn < 15 → 0 ≤ plugin_pushed_reg_count c ≤ 2 ^ 20 →
  - add_limit c ≤ off + pushed_bytes32 c rn ≤ add_limit c → ok32 s →
  ∃ l, _generate_addr c reg rn reg_invalid off = Ok l ∧ computes32 l reg s (ar s rn + pushed_bytes32 c rn + off).
Proof.
  intros Hr Hn Hp Ho Hs. unfold _generate_addr. change (negb (reg_invalid =? pc) && negb (reg_invalid =? sp)) with true.
  cbn [c_assert mbind outcome_bind]. change sp with 13. change pc with 15.
  replace (rn =? 15) with false by lia.
  change ((reg_invalid <=? - reg_invalid) || (reg_invalid <=? reg_invalid)) with true. cbn iota.
  assert ((if rn =? 13 then s32 (plugin_pushed_reg_count c * 4) else 0) = pushed_bytes32 c rn) as ->.
  { unfold pushed_bytes32. destruct (rn =? 13); [|done]. rewrite s32_small by lia. lia. }
  destruct (add_sub_i32 c reg rn (off + pushed_bytes32 c rn) s) as (l & -> & Hl); [done..|].
  cbn [mbind outcome_bind snd app]. rewrite app_nil_r. eexists. split; [done|].
  eapply computes32_ext; [|done]. f_equal. lia.
Qed.

(** Relative to [pc], the code loads a constant. *)
Lemma generate_pc32 c reg off s :
  0 ≤ reg < 15 → 0 ≤ read_address c < 2 ^ 32 →
  ∃ l, _generate_addr c reg 15 reg_invalid off = Ok l ∧ computes32 l reg s (thumb_pc c + off).
Proof.
  intros Hr Ha. unfold _generate_addr. change (negb (reg_invalid =? pc) && negb (reg_invalid =? sp)) with true.
  cbn [c_assert mbind outcome_bind]. change (15 =? sp) with false. change (15 =? pc) with true.
  change ((reg_invalid <=? - reg_invalid) || (reg_invalid <=? reg_invalid)) with true. cbn iota.
  replace (reg =? reg_invalid) with false by (unfold reg_invalid; lia). change (0 + 0) with 0.
  assert (emit_add_sub_i c reg reg 0 = Ok (0, [])) as -> by (unfold emit_add_sub_i; by rewrite !Z.eqb_refl).
  cbn [mbind outcome_bind snd app]. rewrite app_nil_r. eexists. split; [done|].
  rewrite read_addr_to_pc_spec, u32_l by done.
  eapply computes32_ext; [|apply set_reg32, u32_range]. apply u32_u32.
Qed.

Lemma generate_reg32 c reg rn rm (sub : bool) type n s :
  0 ≤ reg < 15 → 0 ≤ rn < 15 → 0 ≤ rm < 16 → rm ≠ 13 → rm ≠ 15 → (sub = true → rm ≠ 0) →
  0 ≤ type < 4 → 0 ≤ n < 32 → 0 ≤ plugin_pushed_reg_count c ≤ 1023 → ok32 s →
  ∃ l, _generate_addr c reg rn (if sub then - rm else rm) (type + 4 * n) = Ok l
    ∧ computes32 l reg s (ar s rn + pushed_bytes32 c rn + (if sub then -1 else 1) * shifted (cf s) type n (ar s rm)).
Proof.
  intros Hr Hn Hm H13 H15 Hsub Ht Hsh Hp Hs. unfold _generate_addr. change sp with 13. change pc with 15.
  replace (negb ((if sub then - rm else rm) =? 15) && negb ((if sub then - rm else rm) =? 13)) with true by (destruct sub; lia).
  cbn [c_assert mbind outcome_bind]. replace (rn =? 15) with false by lia.
  replace (((if sub then - rm else rm) <=? - reg_invalid) || (reg_invalid <=? (if sub then - rm else rm))) with false
    by (unfold reg_invalid; destruct sub; lia). cbn iota.
  assert (Z.land (type + 4 * n) 3 = type ∧ Z.shiftr (type + 4 * n) 2 = n) as [-> ->].
  { change 3 with (2 ^ 2 - 1). rewrite land_pow2_mask, Z.shiftr_div_pow2 by done. change (2 ^ 2) with 4.
    split; Z.div_mod_to_equations; lia. }
  pose proof (add_sub_shift32 c reg rn rm sub type n s Hm Hsub Ht Hsh) as Hadd.
  assert ((if rn =? 13 then s32 (plugin_pushed_reg_count c * 4) else 0) = pushed_bytes32 c rn) as ->.
  { unfold pushed_bytes32. destruct (rn =? 13); [|done]. rewrite s32_small by lia. lia. }
  assert (0 ≤ pushed_bytes32 c rn ≤ 4092) as Hb by (unfold pushed_bytes32; destruct (rn =? 13); lia).
  destruct (Z.eqb_spec (pushed_bytes32 c rn) 0) as [->|H0]; cbn [negb mbind outcome_bind app].
  - rewrite app_nil_r. eexists. split; [done|]. by rewrite Z.add_0_r.
  - replace ((pushed_bytes32 c rn <=? 0xFFF) && (0 <? pushed_bytes32 c rn)) with true by lia.
    cbn [c_assert mbind outcome_bind].
    assert (∀ s', ok32 s' → ∃ l, emit_add_sub_i c reg reg (pushed_bytes32 c rn) = Ok (0, l)
              ∧ computes32 l reg s' (ar s' reg + pushed_bytes32 c rn)) as Hpush.
    { intros s' Hs'. apply add_sub_i32; [done..| |done]. unfold add_limit. destruct (is_thumb c); lia. }
    destruct (Hpush s Hs) as (l2 & E & _). rewrite E. cbn [mbind outcome_bind snd]. rewrite app_nil_r.
    eexists. split; [done|]. eapply computes32_app; [done|]. intros s' Hv Hc Ho.
    assert (ok32 s') as Hs'.
    { intros r. destruct (decide (r = reg)) as [->|]; [rewrite Hv; apply u32_range | rewrite Ho by done; apply Hs]. }
    destruct (Hpush s' Hs') as (l3 & E3 & H3). rewrite E in E3. injection E3 as <-.
    eapply computes32_ext; [|done]. rewrite Hv, u32_l. f_equal. lia.
Qed.

(** ** The address of an access in the Arm manual

    [EaImm rn off] is [R[rn] + off] and [EaReg rn rm sub type n] is
    [R[rn] + Shift(R[rm], type, n)] or the difference. *)
Inductive ea32 :=
  | EaImm (rn off : Z)
  | EaReg (rn rm : Z) (sub : bool) (type n : Z).

Definition plus_minus (up x : Z) : Z := if up =? 0 then - x else x.

(** T32, with [h] the word of a 16-bit and [w] that of a 32-bit instruction. *)
Definition thumb_ea (i : thumb_instruction) (h w : Z) : option ea32 :=
  match i with
  | THUMB_LDMFD16 | THUMB_STMEA16 => Some (EaImm (slice 8 3 h) 0)
  | THUMB_LDR16 | THUMB_LDRB16 | THUMB_LDRH16 | THUMB_LDRSB16 | THUMB_LDRSH16 | THUMB_STR16 | THUMB_STRB16
    | THUMB_STRH16 => Some (EaReg (slice 3 3 h) (slice 6 3 h) false 0 0)
  | THUMB_LDRI16 | THUMB_STRI16 => Some (EaImm (slice 3 3 h) (slice 6 5 h * 4))
  | THUMB_LDRHI16 | THUMB_STRHI16 => Some (EaImm (slice 3 3 h) (slice 6 5 h * 2))
  | THUMB_LDRBI16 | THUMB_STRBI16 => Some (EaImm (slice 3 3 h) (slice 6 5 h))
  | THUMB_LDR_PC_16 => Some (EaImm 15 (slice 0 8 h * 4))
  | THUMB_LDR_SP16 | THUMB_STR_SP16 => Some (EaImm 13 (slice 0 8 h * 4))
  | THUMB_POP16 | THUMB_VFP_VPOP => Some (EaImm 13 0)
  | THUMB_PUSH16 => Some (EaImm 13 (- 4 * popcount (slice 0 9 h)))
  | THUMB_LDMEA32 | THUMB_STMFD32 => Some (EaImm (slice 16 4 w) (- 4 * popcount (slice 0 16 w)))
  | THUMB_LDMFD32 | THUMB_STMEA32 => Some (EaImm (slice 16 4 w) 0)
  | THUMB_LDR32 | THUMB_LDRB32 | THUMB_LDRH32 | THUMB_LDRSB32 | THUMB_LDRSH32 | THUMB_STR32 | THUMB_STRB32
    | THUMB_STRH32 => Some (EaReg (slice 16 4 w) (slice 0 4 w) false 0 (slice 4 2 w))
  | THUMB_LDRI32 | THUMB_LDRBI32 | THUMB_LDRHI32 | THUMB_LDRSBI32 | THUMB_LDRSHI32 | THUMB_LDRT32
    | THUMB_LDRBT32 | THUMB_LDRHT32 | THUMB_LDRSBT32 | THUMB_LDRSHT32 | THUMB_STRI32 | THUMB_STRBI32
    | THUMB_STRHI32 | THUMB_STRT32 | THUMB_STRBT32 | THUMB_STRHT32 =>
      Some (EaImm (slice 16 4 w) (if slice 10 1 w =? 0 then 0 else plus_minus (slice 9 1 w) (slice 0 8 w)))
  | THUMB_LDRWI32 | THUMB_LDRBWI32 | THUMB_LDRHWI32 | THUMB_LDRSBWI32 | THUMB_LDRSHWI32 | THUMB_STRWI32
    | THUMB_STRBWI32 | THUMB_STRHWI32 => Some (EaImm (slice 16 4 w) (slice 0 12 w))
  | THUMB_LDRD32 | THUMB_STRD32 =>
      Some (EaImm (slice 16 4 w) (if slice 24 1 w =? 0 then 0 else plus_minus (slice 23 1 w) (slice 0 8 w * 4)))
  | THUMB_LDRBL32 | THUMB_LDRHL32 | THUMB_LDRL32 | THUMB_LDRSBL32 | THUMB_LDRSHL32 =>
      Some (EaImm 15 (plus_minus (slice 23 1 w) (slice 0 12 w)))
  | THUMB_VFP_VPUSH => Some (EaImm 13 (- 4 * slice 0 8 w))
  | THUMB_STREX32 | THUMB_LDREX32 => Some (EaImm (slice 16 4 w) (slice 0 8 w * 4))
  | THUMB_VFP_VLDM_SP | THUMB_VFP_VLDM_DP | THUMB_VFP_VSTM_SP | THUMB_VFP_VSTM_DP =>
      if slice 24 1 w =? slice 23 1 w then None
      else Some (EaImm (slice 16 4 w) (if slice 23 1 w =? 0 then - 4 * slice 0 8 w else 0))
  | THUMB_VFP_VLDR_SP | THUMB_VFP_VLDR_DP | THUMB_VFP_VSTR_SP | THUMB_VFP_VSTR_DP =>
      Some (EaImm (slice 16 4 w) (plus_minus (slice 23 1 w) (slice 0 8 w * 4)))
  | THUMB_LDREXB32 | THUMB_LDREXD32 | THUMB_LDREXH32 | THUMB_STREXB32 | THUMB_STREXD32 | THUMB_STREXH32
    | THUMB_NEON_VLDX_M | THUMB_NEON_VLDX_S_O | THUMB_NEON_VLDX_S_A | THUMB_NEON_VSTX_M | THUMB_NEON_VSTX_S_O =>
      Some (EaImm (slice 16 4 w) 0)
  | _ => None
  end.

Definition arm_ea (i : arm_instruction) (w : Z) : option ea32 :=
  let rn := slice 16 4 w in
  let p := slice 24 1 w in
  let u := slice 23 1 w in
  match i with
  | ARM_LDR | ARM_STR | ARM_LDRB | ARM_STRB | ARM_LDRT | ARM_STRT | ARM_LDRBT | ARM_STRBT =>
      Some (if p =? 0 then EaImm rn 0
            else if slice 25 1 w =? 0 then EaImm rn (plus_minus u (slice 0 12 w))
            else EaReg rn (slice 0 4 w) (u =? 0) (slice 5 2 w) (slice 7 5 w))
  | ARM_LDRD | ARM_STRD | ARM_LDRH | ARM_STRH | ARM_LDRSB | ARM_LDRSH | ARM_LDRHT | ARM_STRHT | ARM_LDRSBT
    | ARM_LDRSHT =>
      Some (if p =? 0 then EaImm rn 0
            else if slice 22 1 w =? 0 then EaReg rn (slice 0 4 w) (u =? 0) 0 0
            else EaImm rn (plus_minus u (slice 8 4 w * 16 + slice 0 4 w)))
  | ARM_LDM | ARM_STM =>
      let n := popcount (slice 0 16 w) in
      Some (EaImm rn (if u =? 0 then (if p =? 0 then - 4 * n + 4 else - 4 * n) else (if p =? 0 then 0 else 4)))
  | ARM_NEON_VLDX_M | ARM_NEON_VLDX_S_O | ARM_NEON_VLDX_S_A | ARM_NEON_VSTX_M | ARM_NEON_VSTX_S_O
    | ARM_LDREX | ARM_LDREXB | ARM_LDREXD | ARM_LDREXH | ARM_STREX | ARM_STREXB | ARM_STREXD | ARM_STREXH =>
      Some (EaImm rn 0)
  | ARM_VFP_VLDM_DP | ARM_VFP_VLDM_SP | ARM_VFP_VSTM_DP | ARM_VFP_VSTM_SP | ARM_VFP_VPOP_DP | ARM_VFP_VPOP_SP
    | ARM_VFP_VPUSH_DP | ARM_VFP_VPUSH_SP =>
      if p =? u then None else Some (EaImm rn (if u =? 0 then - 4 * slice 0 8 w else 0))
  | ARM_VFP_VLDR_DP | ARM_VFP_VLDR_SP | ARM_VFP_VSTR_DP | ARM_VFP_VSTR_SP =>
      Some (EaImm rn (plus_minus u (slice 0 8 w * 4)))
  | _ => None
  end.

Definition ea_of32 (c : ctx32) : option ea32 :=
  match code_inst c with
  | Some (Thumb i) => thumb_ea i (word16 (code c)) (word_thumb (code c))
  | Some (Arm i) => arm_ea i (word_arm (code c))
  | None => None
  end.

(** The base register as the application sees it: [pc] reads two instructions
    ahead, and the pushed registers are not there. *)
Definition base32 (c : ctx32) (s : machine32) (rn : Z) : Z :=
  if rn =? 15 then (if is_thumb c then thumb_pc c else read_address c + 8) else ar s rn + pushed_bytes32 c rn.

Definition ea_value (c : ctx32) (s : machine32) (ea : ea32) : Z :=
  match ea with
  | EaImm rn off => base32 c s rn + off
  | EaReg rn rm sub type n => base32 c s rn + (if sub then -1 else 1) * shifted (cf s) type n (ar s rm)
  end.

(** What [_generate_addr] is asked for such an address. *)
Definition ea_access (ea : ea32) : access :=
  match ea with
  | EaImm rn off => Generate rn reg_invalid off
  | EaReg rn rm sub type n => Generate rn (if sub then - rm else rm) (type + 4 * n)
  end.

Lemma bits_of_spec pos w x : 0 ≤ w ≤ 31 → bits_of (slice pos w x) = popcount (slice pos w x).
Proof.
  intros Hw. pose proof (slice_range pos w x ltac:(lia)) as Hr.
  assert (2 ^ w ≤ 2 ^ 31) by (apply Z.pow_le_mono_r; lia).
  unfold bits_of, count_bits. rewrite count_bits_loop_spec; [lia | lia |].
  pose proof (popcount_range (slice pos w x) w). lia.
Qed.

Lemma neg32_small x : 0 ≤ x < 2 ^ 31 → neg32 x = - x.
Proof. intros. apply (signed_mod 32); lia. Qed.

(** The offset of a VLDR is computed in an unsigned int. *)
Lemma vldr_offset u x :
  0 ≤ x < 256 → (u = 0 ∨ u = 1) →
  s32 (u32 (Z.shiftl (if u =? 0 then u32 (- x) else x) 2)) = plus_minus u (x * 4).
Proof.
  intros Hx Hu. unfold plus_minus. rewrite Z.shiftl_mul_pow2 by done. change (2 ^ 2) with 4.
  destruct Hu as [-> | ->]; simpl.
  - unfold u32. rewrite Zmult_mod_idemp_l. replace (- x * 4) with (- (x * 4)) by lia. apply (signed_mod 32); lia.
  - apply (signed_mod 32); lia.
Qed.

Definition vldm_below (i : thumb_instruction) (w : Z) : bool :=
  match i with
  | THUMB_VFP_VLDM_SP | THUMB_VFP_VLDM_DP | THUMB_VFP_VSTM_SP | THUMB_VFP_VSTM_DP => slice 23 1 w =? 0
  | _ => false
  end.

Definition ea_pc_constant (c : ctx32) (a : access) (ea : ea32) : Prop :=
  a = ea_access ea ∨ ∃ off, ea = EaImm 15 off ∧ a = Constant (u32 (thumb_pc c + off)).

Ltac arm_decode := unfold t16, t32, a32; cbn [thumb_txt arm_txt]; fields.
Lemma ea_imm c rn off off' : off = off' → ea_pc_constant c (Generate rn reg_invalid off) (EaImm rn off').
Proof. intros ->. by left. Qed.

Lemma ea_lsl c rn rm n : 0 ≤ n → ea_pc_constant c (Generate rn rm (Z.lor LSL (Z.shiftl n 2))) (EaReg rn rm false 0 n).
Proof.
  intros. left. unfold ea_access, LSL. rewrite Z.lor_0_l, Z.shiftl_mul_pow2 by done. f_equal. lia.
Qed.

Lemma ea_literal c off off' :
  0 ≤ read_address c < 2 ^ 32 → u32 off = u32 off' →
  ea_pc_constant c (Constant (u32 (read_addr_to_pc (read_address c) + off))) (EaImm 15 off').
Proof.
  intros Hr Ho. right. exists off'. split; [done|]. f_equal. rewrite read_addr_to_pc_spec, u32_l by done.
  by rewrite Z.add_comm, <- u32_l, Ho, u32_l, Z.add_comm.
Qed.

Lemma popcount_slice pos w x : 0 ≤ w → 0 ≤ popcount (slice pos w x) ≤ w.
Proof. intros. apply popcount_range; [done|]. by apply slice_range. Qed.

Ltac arm_offset :=
  change sp with 13; change (2 ^ 2) with 4;
  rewrite ?vldr_offset by (apply slice_bit || (apply (slice_range _ 8); lia)); unfold plus_minus;
  rewrite ?bits_of_spec by lia; rewrite ?Z.shiftl_mul_pow2 by lia;
  repeat match goal with
  | |- context [popcount (slice ?p ?w ?x)] => pose proof (popcount_slice p w x ltac:(lia)); generalize dependent (popcount (slice p w x)); intros
  | |- context [slice ?p ?w ?x] => pose proof (slice_range p w x ltac:(lia)); generalize dependent (slice p w x); intros
  end;
  repeat case_match; rewrite ?neg32_small by lia; try discriminate; try lia.

Lemma literal_offset u x : u32 (if negb (u =? 0) then x else u32 (- x)) = u32 (plus_minus u x).
Proof. unfold plus_minus. destruct (u =? 0); simpl; [apply u32_u32 | done]. Qed.

Lemma vldm_offset c rn (p u x : Z) ea :
  (u =? 0) = false → (if p =? u then None else Some (EaImm rn (if u =? 0 then - 4 * x else 0))) = Some ea →
  ea_pc_constant c (if p =? u then Unimplemented
    else Generate rn reg_invalid (if u =? 0 then - bits_of x * 4 else 0)) ea.
Proof. intros -> Hea. destruct (p =? u); [done|]. injection Hea as <-. by apply ea_imm. Qed.

(** The T32 cases compute the operands of the manual, but for a VLDM or VSTM
    below the base. *)
Lemma thumb_access_ea c i ea :
  0 ≤ read_address c < 2 ^ 32 → vldm_below i (word_thumb (code c)) = false →
  thumb_ea i (word16 (code c)) (word_thumb (code c)) = Some ea → ea_pc_constant c (thumb_access c i) ea.
Proof.
  intros Hra Hv Hea. unfold thumb_access.
  destruct i; cbn [thumb_ea] in Hea; try discriminate; cbn [thumb_access16 thumb_access32]; arm_decode;
    first
      [ by apply vldm_offset
      | injection Hea as <-; first
        [ left; reflexivity
        | apply ea_lsl, slice_range; lia
        | apply ea_literal; [done|]; apply literal_offset
        | apply ea_literal; [done|]; f_equal; arm_offset
        | apply ea_imm; arm_offset ] ].
Qed.

(** The operand of the A32 word and byte accesses, and of the others. *)
Lemma arm_word_operand rn p u i w :
  (let '(rm, imm) := _decode_arm (i =? IMM_LDR) p u (slice 0 12 w) in Generate rn rm imm)
  = ea_access (if p =? 0 then EaImm rn 0
               else if i =? 0 then EaImm rn (plus_minus u (slice 0 12 w))
               else EaReg rn (slice 0 4 w) (u =? 0) (slice 5 2 w) (slice 7 5 w)).
Proof.
  unfold _decode_arm, IMM_LDR, plus_minus. pose proof (slice_range 0 12 w ltac:(lia)).
  destruct (p =? 0), (i =? 0); try done; cbn [negb ea_access].
  - destruct (u =? 0); cbn [negb]; rewrite ?neg32_small by lia; done.
  - change 0xF with (2 ^ 4 - 1).
    destruct (slice_parts 0 4 8 w) as [_ E4]; [done..|]. destruct (slice_parts 0 5 7 w) as [E5 _]; [done..|].
    rewrite land_pow2_mask, Z.shiftr_div_pow2 by done. change (4 + 8) with 12 in E4. change (5 + 7) with 12 in E5.
    rewrite E4, E5. change (0 + 5) with 5. change 7 with (2 + 5). rewrite slice_split by done. reflexivity.
Qed.

Lemma arm_half_operand rn p u i w :
  (let '(rm, imm) := _decode_arm (negb (i =? 0)) p u (Z.lor (Z.shiftl (slice 8 4 w) 4) (slice 0 4 w)) in
   Generate rn rm (if i =? 0 then 0 else imm))
  = ea_access (if p =? 0 then EaImm rn 0
               else if i =? 0 then EaReg rn (slice 0 4 w) (u =? 0) 0 0
               else EaImm rn (plus_minus u (slice 8 4 w * 16 + slice 0 4 w))).
Proof.
  pose proof (slice_range 0 4 w ltac:(lia)) as H0. pose proof (slice_range 8 4 w ltac:(lia)) as H8.
  rewrite lor_disjoint by done. change (2 ^ 4) with 16 in *.
  unfold _decode_arm, plus_minus.
  destruct (p =? 0), (i =? 0); try done; cbn [negb ea_access].
  - change 0xF with (2 ^ 4 - 1). rewrite land_pow2_mask by done. change (2 ^ 4) with 16.
    rewrite Z.add_comm, Z.mod_add, Z.mod_small by lia. done.
  - destruct (u =? 0); cbn [negb]; rewrite ?neg32_small by lia; done.
Qed.

Lemma arm_access_ea c i ea : arm_ea i (word_arm (code c)) = Some ea → arm_access c i = ea_access ea.
Proof.
  intros Hea.
  destruct i; cbn [arm_ea] in Hea; try discriminate; cbn [arm_access]; arm_decode;
    first
      [ injection Hea as <-; first [apply arm_word_operand | apply arm_half_operand]
      | injection Hea as <-; unfold ea_access; f_equal; arm_offset
      | destruct (_ =? _) in Hea |- *; [done|]; injection Hea as <-; unfold ea_access; f_equal; arm_offset ].
Qed.

Definition ea_wf (ea : ea32) : Prop :=
  match ea with
  | EaImm rn _ => 0 ≤ rn < 16
  | EaReg rn rm _ type n => 0 ≤ rn < 16 ∧ 0 ≤ rm < 16 ∧ 0 ≤ type < 4 ∧ 0 ≤ n < 32
  end.

Lemma slice_lt pos w x m : 0 ≤ w → 2 ^ w ≤ m → 0 ≤ slice pos w x < m.
Proof. intros ? ?. pose proof (slice_range pos w x). lia. Qed.

Ltac ea_regs :=
  simpl;
  repeat match goal with
  | |- 0 ≤ slice _ _ _ < _ => apply slice_lt; [lia | vm_compute; discriminate]
  | |- _ ∧ _ => split
  end; try lia.

Lemma thumb_ea_wf i h w ea : thumb_ea i h w = Some ea → ea_wf ea.
Proof.
  intros Hea.
  destruct i; cbn [thumb_ea] in Hea; try discriminate; try case_match; simplify_eq; ea_regs.
Qed.

Lemma arm_ea_wf i w ea : arm_ea i w = Some ea → ea_wf ea.
Proof.
  intros Hea.
  destruct i; cbn [arm_ea] in Hea; try discriminate; repeat case_match; simplify_eq; ea_regs.
Qed.

Definition vldm_below32 (c : ctx32) : bool :=
  match code_inst c with Some (Thumb i) => vldm_below i (word_thumb (code c)) | _ => false end.

(** The API calls [_generate_addr] for the operand. *)
Lemma calc_ea c ea reg :
  ea_of32 c = Some ea → vldm_below32 c = false → 0 ≤ read_address c < 2 ^ 32 →
  mambo_calc_ld_st_addr c reg = calc_access c reg (ea_access ea)
  ∨ ∃ off, ea = EaImm 15 off ∧ mambo_calc_ld_st_addr c reg = calc_access c reg (Constant (u32 (thumb_pc c + off)))
           ∧ is_thumb c = true.
Proof.
  unfold ea_of32, vldm_below32, mambo_calc_ld_st_addr, is_thumb. intros Hea Hv Hr.
  destruct (code_inst c) as [[i|i]|]; [| |done].
  - unfold _thumb_calc_ld_st_addr. destruct (thumb_access_ea c i ea Hr Hv Hea) as [-> | (off & -> & ->)]; eauto.
  - left. unfold _arm_calc_ld_st_addr. by rewrite (arm_access_ea c i ea).
Qed.

Lemma ea_of32_wf c ea : ea_of32 c = Some ea → ea_wf ea.
Proof.
  unfold ea_of32. destruct (code_inst c) as [[i|i]|]; [eapply thumb_ea_wf | eapply arm_ea_wf | done].
Qed.

(** [ea_value] when the code computes it. *)
Definition in_reach (c : ctx32) (ea : ea32) : Prop :=
  match ea with
  | EaImm rn off =>
      if rn =? 15 then is_thumb c = true else - add_limit c ≤ off + pushed_bytes32 c rn ≤ add_limit c
  | EaReg rn rm sub _ _ => rn ≠ 15 ∧ rm ≠ 13 ∧ rm ≠ 15 ∧ (sub = true → rm ≠ 0)
  end.

(** What the API computes for an operand, right or wrong. *)
Definition calc_computes (c : ctx32) (reg : Z) (s : machine32) (v : Z) : Prop :=
  ∃ l, mambo_calc_ld_st_addr c reg = Ok (0, l) ∧ computes32 l reg s v.

Lemma generate_computes c reg rn rm off s v :
  mambo_calc_ld_st_addr c reg = calc_access c reg (Generate rn rm off) →
  (∃ l, _generate_addr c reg rn rm off = Ok l ∧ computes32 l reg s v) → calc_computes c reg s v.
Proof. intros Hc (l & Hl & Hv). exists l. rewrite Hc. simpl. by rewrite Hl. Qed.



(** *** The operands for which the code computes another address *)

Lemma vldm_access c i ea reg :
  vldm_below i (word_thumb (code c)) = true → thumb_ea i (word16 (code c)) (word_thumb (code c)) = Some ea →
  ∃ rn n, ea = EaImm rn (- 4 * n) ∧ 0 ≤ n < 256 ∧
    _thumb_calc_ld_st_addr c i reg = calc_access c reg (Generate rn reg_invalid (- 4 * popcount n)).
Proof.
  intros Hv Hea. set (w := word_thumb (code c)) in *.
  exists (slice 16 4 w), (slice 0 8 w). pose proof (slice_range 0 8 w ltac:(lia)).
  unfold _thumb_calc_ld_st_addr, thumb_access.
  destruct i; try done; simpl in Hv; cbn [thumb_ea] in Hea; cbn [thumb_access16 thumb_access32]; arm_decode;
    fold w; rewrite Hv in *; destruct (_ =? _) in Hea |- *; try done; injection Hea as <-; split_and!; try lia; try done;
    rewrite bits_of_spec by lia; do 2 f_equal; lia.
Qed.

Lemma generate_out_of_reach c reg rn off :
  0 ≤ rn < 15 → off ≠ 0 → off + pushed_bytes32 c rn < - add_limit c ∨ add_limit c < off + pushed_bytes32 c rn →
  0 ≤ plugin_pushed_reg_count c ≤ 1023 → _generate_addr c reg rn reg_invalid off = Ok [].
Proof.
  intros Hn Hne Ho Hp. unfold _generate_addr. change (negb (reg_invalid =? pc) && negb (reg_invalid =? sp)) with true.
  cbn [c_assert mbind outcome_bind]. change sp with 13. change pc with 15. replace (rn =? 15) with false by lia.
  change ((reg_invalid <=? - reg_invalid) || (reg_invalid <=? reg_invalid)) with true. cbn iota.
  assert ((if rn =? 13 then s32 (plugin_pushed_reg_count c * 4) else 0) = pushed_bytes32 c rn) as ->.
  { unfold pushed_bytes32. destruct (rn =? 13); [|done]. rewrite s32_small by lia. lia. }
  unfold emit_add_sub_i. unfold add_limit in Ho.
  replace (off + pushed_bytes32 c rn =? 0) with false by (destruct (is_thumb c); lia).
  destruct (is_thumb c).
  - replace ((0xFFF <? off + pushed_bytes32 c rn) || (off + pushed_bytes32 c rn <? - 0xFFF)) with true by lia. done.
  - change SHIFTED_ADD_SUB_MAX with 0xFFFF.
    replace ((off + pushed_bytes32 c rn <? - (0xFFFF)) || (0xFFFF <? off + pushed_bytes32 c rn)) with true by lia. done.
Qed.

(** C40. The AArch32 operands for which [mambo_calc_ld_st_addr] returns 0 and the
    code computes something else: in A32, an address relative to [pc] is four too low;
    a subtracted [r0] is added; a T32 VLDM or VSTM below its base subtracts the
    number of ones in the count of words instead of the count; an offset out of
    reach, the pushed registers included, leaves the register as it was, with
    nothing emitted. An index [sp] or [pc] that is added is an assertion failure. *)
Theorem aarch32_ld_st_address_wrong c ea reg s :
  ea_of32 c = Some ea → 0 ≤ reg < 15 → 0 ≤ plugin_pushed_reg_count c ≤ 1023 → 0 ≤ read_address c < 2 ^ 32 →
  ok32 s →
  match ea with
  | EaImm rn off =>
      if vldm_below32 c then
        ∃ n, off = - 4 * n ∧ (rn ≠ 15 → in_reach c (EaImm rn (- 4 * popcount n)) →
                              calc_computes c reg s (base32 c s rn - 4 * popcount n))
      else if rn =? 15 then
        is_thumb c = false → read_address c mod 4 = 0 → calc_computes c reg s (ea_value c s ea - 4)
      else ¬ in_reach c ea → off ≠ 0 → mambo_calc_ld_st_addr c reg = Ok (0, [])
  | EaReg rn rm sub type n =>
      (sub = true → rm = 0 → rn ≠ 15 → calc_computes c reg s (base32 c s rn + shifted (cf s) type n (ar s rm)))
      ∧ (sub = false → rm = 13 ∨ rm = 15 → mambo_calc_ld_st_addr c reg = Err AssertFail)
  end.
Proof.
  intros Hea Hr Hp Hra Hs. pose proof (ea_of32_wf c ea Hea) as Hwf. destruct ea as [rn off | rn rm sub type n].
  - simpl in Hwf. destruct (vldm_below32 c) eqn:Hv.
    + unfold vldm_below32 in Hv. unfold ea_of32 in Hea. unfold calc_computes, mambo_calc_ld_st_addr.
      destruct (code_inst c) as [[i|i]|]; [|done|done].
      destruct (vldm_access c i _ reg Hv Hea) as (rn' & n & Heq & Hn & ->). injection Heq as <- ->.
      exists n. split; [done|]. intros H15 Hin. unfold in_reach, base32 in *.
      rewrite (proj2 (Z.eqb_neq rn 15)) in * by done.
      cbn [calc_access].
      destruct (generate_imm32 c reg rn (- 4 * popcount n) s) as (l & -> & Hl); [done | lia | lia | done | done |].
      exists l. split; [done|]. eapply computes32_ext; [|done]. f_equal. lia.
    + destruct (calc_ea c _ reg Hea Hv Hra) as [Hc | (off' & Heq & Hc & Ht)].
      * simpl in Hc. destruct (Z.eqb_spec rn 15) as [-> | H15].
        -- intros Ht Hal. eapply generate_computes; [exact Hc|]. simpl. unfold base32. rewrite Ht. simpl.
           replace (read_address c + 8 + off - 4) with (thumb_pc c + off).
           { by apply generate_pc32. }
           unfold thumb_pc. Z.div_mod_to_equations. lia.
        -- intros Hin Hne. rewrite Hc. simpl. rewrite generate_out_of_reach; [done | lia | done | | done].
           simpl in Hin. rewrite (proj2 (Z.eqb_neq rn 15)) in Hin by done. lia.
      * injection Heq as -> ->. simpl. by rewrite Ht.
  - destruct Hwf as (? & ? & ? & ?). assert (vldm_below32 c = false) as Hv.
    { unfold vldm_below32, ea_of32 in *. destruct (code_inst c) as [[i|i]|]; [|done|done].
      destruct i; try done; cbn [thumb_ea] in Hea; by case_match. }
    destruct (calc_ea c _ reg Hea Hv Hra) as [Hc | (off' & ? & _)]; [|done]. simpl in Hc. split.
    + intros -> -> H15. eapply generate_computes; [exact Hc|]. unfold base32.
      rewrite (proj2 (Z.eqb_neq rn 15)) by done.
      destruct (generate_reg32 c reg rn 0 false type n s) as (l & Hl & Hcl); try (done || lia).
      exists l. split; [done|]. eapply computes32_ext; [|done]. f_equal. lia.
    + intros -> Hrm. rewrite Hc. simpl. unfold _generate_addr. change sp with 13. change pc with 15.
      by destruct Hrm as [-> | ->].
Qed.

Lemma aarch32_ld_st_address_wrong_witness :
  (* ldr r1, [pc, #8] of A32 *)
  let c := MkCodeCtx (Some (Arm ARM_LDR)) (λ k, if k =? 0 then 0x1008 else 0xE59F) 0x1000 0 in
  let s := MkM32 (λ n, u32 (n * 100)) false in
  ea_of32 c = Some (EaImm 15 8) ∧ ea_value c s (EaImm 15 8) = 0x1010 ∧ calc_computes c 1 s 0x100C.
Proof.
  intros c s. split_and!; [vm_compute; reflexivity | vm_compute; reflexivity |].
  apply (aarch32_ld_st_address_wrong c (EaImm 15 8) 1 s);
    [vm_compute; reflexivity | lia | simpl; lia | simpl; lia | intros n; apply u32_range | reflexivity | reflexivity].
Defined.

(** ** The functions agree on what a memory access is *)

Definition nonneg_result (x : outcome Z) : Prop := ∀ n, x = Ok n → 0 ≤ n.

Lemma nonneg_Ok n : 0 ≤ n → nonneg_result (Ok n).
Proof. intros ? m [= <-]. done. Qed.

Lemma nonneg_bits n : nonneg_result (Ok (bits_of n * 4)) ↔ 0 ≤ bits_of n.
Proof. split; [intros H; specialize (H _ eq_refl); lia | intros; apply nonneg_Ok; lia]. Qed.

Lemma nonneg_regs op : nonneg_result (_get_size_vldx_vstx_m op).
Proof. unfold _get_size_vldx_vstx_m. repeat case_match; try (intros ? [=]; lia). Qed.

Lemma nonneg_shift a b : 0 ≤ b → nonneg_result (Ok (Z.shiftl 1 a * (b + 1))).
Proof. intros. apply nonneg_Ok, Z.mul_nonneg_nonneg; [by apply Z.shiftl_nonneg | lia]. Qed.

Ltac size_nonneg :=
  first
    [ apply nonneg_Ok; lia
    | apply nonneg_bits; rewrite bits_of_spec by lia; apply popcount_slice; lia
    | apply nonneg_regs
    | apply nonneg_shift, slice_range; lia
    | apply nonneg_Ok, Z.mul_nonneg_nonneg; [apply slice_range; lia | lia]
    | by intros ? ? ].

Lemma thumb_sizes c i :
  code_inst c = Some (Thumb i) →
  if mambo_is_load_or_store c
  then nonneg_result (_thumb_get_ld_st_size c i) ∧ thumb_access c i ≠ NoAccess
  else _thumb_get_ld_st_size c i = Ok (-1) ∧ thumb_access c i = NoAccess.
Proof.
  unfold mambo_is_load_or_store, mambo_is_load, mambo_is_store. intros ->.
  destruct i; cbn -[nonneg_result _thumb_get_ld_st_size thumb_access]; try done; split;
    try (unfold _thumb_get_ld_st_size; arm_decode; size_nonneg).
  all: unfold thumb_access; cbn [thumb_access16 thumb_access32]; try done; by case_match.
Qed.

Lemma arm_sizes c i :
  code_inst c = Some (Arm i) →
  if mambo_is_load_or_store c
  then nonneg_result (_arm_get_ld_st_size c i) ∧ arm_access c i ≠ NoAccess
  else _arm_get_ld_st_size c i = Ok (-1) ∧ arm_access c i = NoAccess.
Proof.
  unfold mambo_is_load_or_store, mambo_is_load, mambo_is_store. intros ->.
  destruct i; cbn -[nonneg_result _arm_get_ld_st_size arm_access]; try done; split;
    try (unfold _arm_get_ld_st_size; arm_decode; size_nonneg).
  all: cbn [arm_access]; try done; by repeat case_match.
Qed.

Lemma calc_access_none c reg a : calc_access c reg a = Ok (-1, []) ↔ a = NoAccess.
Proof.
  split; [|by intros ->]. destruct a; simpl; try done. by destruct (_generate_addr _ _ _ _ _).
Qed.

(** The AArch32 instructions that [mambo_is_load] and [mambo_is_store] name are
    disjoint. For one of them the address function does not give up and the size
    function never returns a negative size; for every other instruction both
    return -1, and nothing is emitted. *)
Theorem aarch32_ld_st_classes c reg :
  mambo_is_load c && mambo_is_store c = false
  ∧ if mambo_is_load_or_store c
    then nonneg_result (mambo_get_ld_st_size c) ∧ mambo_calc_ld_st_addr c reg ≠ Ok (-1, [])
    else mambo_get_ld_st_size c = Ok (-1) ∧ mambo_calc_ld_st_addr c reg = Ok (-1, []).
Proof.
  split; [unfold mambo_is_load, mambo_is_store; destruct (code_inst c) as [[i|i]|]; by try destruct i|].
  unfold mambo_calc_ld_st_addr, mambo_get_ld_st_size, _thumb_calc_ld_st_addr, _arm_calc_ld_st_addr.
  pose proof (thumb_sizes c) as Ht. pose proof (arm_sizes c) as Ha.
  destruct (code_inst c) as [[i|i]|] eqn:Hi.
  - pose proof (calc_access_none c reg (thumb_access c i)). specialize (Ht i eq_refl).
    destruct (mambo_is_load_or_store c); tauto.
  - pose proof (calc_access_none c reg (arm_access c i)). specialize (Ha i eq_refl).
    destruct (mambo_is_load_or_store c); tauto.
  - unfold mambo_is_load_or_store, mambo_is_load, mambo_is_store. by rewrite Hi.
Qed.

End LoadStoreArm.
